(* ===== verification/_CoqProject ===== *)
-Q . S2P
Prelude.v
Malloc.v
Tcpip.v
DhcpOpts.v
DhcpPkt.v
Bigint.v
HashStandards.v
Digest.v
Hmac.v
Drbg.v
Entropy.v
Retry.v
Tcp.v
TcpReceive.v
TcpSend.v
TcpStream.v
Ipv4.v
Udp.v
TcpIpv4.v
Deflate.v
Huffman.v
DeflateTotal.v
Inflate.v
Cipher.v
Aes.v
Fips197.v
AesCorrect.v
AesCbc.v
AesWrap.v
Arc4.v
RandomNz.v
Asn1.v
RsaPower.v
Rsa.v
Time.v
X509.v
X509Parse.v
X509Valid.v
X509Name.v
