(* ===== verification/Prelude.v ===== *)
(** * Flexboot: a verification development of the flexboot (iPXE) network boot firmware

    The program is a network boot firmware: it brings up a network device, obtains
    a configuration by DHCP, fetches an image over TCP or UDP and starts it.  It is
    written in C, with some x86 assembly, as a set of components that call one
    another through small tables of methods.  This development models a number of
    these components as executable definitions and proves what they promise.  Paths
    below are relative to src/.

    ** Parts and files

    - Prelude.v (this file): machine integers with their wrap-around, bytes, memory,
      error codes, the word size as the class [Platform] with its two instances, and
      the lemmas and tactics shared by all files.
    - Malloc.v models core/malloc.c and fls of include/strings.h.  The heap is the
      ordered list of free blocks, the counter freemem and the contents of memory;
      [alloc_memblock], [free_memblock], [realloc], [malloc], [free], [zalloc],
      [init_heap] and the cache discarders are the functions of that name.
    - Tcpip.v models net/tcpip.c and arch/x86/core/x86_tcpip.c: the Internet checksum
      in C and in assembly, the choice of local ports, and the dispatch between the
      tables of transport and network protocols.
    - DhcpOpts.v and DhcpPkt.v model net/dhcpopts.c and net/dhcppkt.c: options blocks
      and packets as settings.  The realloc method of a block is the class [Realloc],
      of which dhcpopt_no_realloc and the method of the non-volatile options
      (core/nvo.c) are instances.
    - Bigint.v models crypto/bigint.c with the assembly of
      arch/x86/include/bits/bigint.h and arch/x86/core/x86_bigint.c.
    - HashStandards.v states the hash functions of RFC 1321 and FIPS 180-4, with their
      constants computed from the sines and roots they come from.  Digest.v models
      crypto/md5.c, sha1.c and sha256.c, proves that they compute these functions, and
      states the class [Digest] that Hmac.v (crypto/hmac.c, crypto/hash_df.c), Drbg.v (crypto/hmac_drbg.c,
      crypto/drbg.c) and Entropy.v (crypto/entropy.c) are verified against.
    - Retry.v models net/retry.c; time is a tick count, its rate the class [Ticks].
    - Tcp.v models net/tcp.c: the connection as a record, every handler as a function
      on a world that holds the connection, the rest of the program (the class
      [TcpEnv]) and the trace of their exchanges.  TcpReceive.v, TcpSend.v and
      TcpStream.v prove the two paths and their composition.
    - Ipv4.v models net/ipv4.c and net/fragment.c over the class [NetStack] of network
      devices; Udp.v models net/udp.c over any network protocol; TcpIpv4.v composes
      TCP with IPv4.
    - Deflate.v models crypto/deflate.c: the resumable state machine of
      deflate_inflate, one definition per label, with the accumulators and the
      Huffman alphabets.  Huffman.v, DeflateTotal.v and Inflate.v prove it correct.
    - Cipher.v models include/ipxe/crypto.h (a cipher as the class [cipher_algorithm],
      the laws of a block cipher as the class [BlockCipher]), crypto/cbc.c and the
      macro CBC_CIPHER, over memory.  Aes.v models crypto/axtls/aes.c and
      crypto/axtls_aes.c; Fips197.v states FIPS-197 and AesCorrect.v proves that the
      code computes it, which discharges [BlockCipher]; AesCbc.v composes the two.
      AesWrap.v models crypto/aes_wrap.c, Arc4.v models crypto/arc4.c.
    - Asn1.v models crypto/asn1.c: cursors over encoded objects, the readers of
      primitive values and the builder.  Time.v models core/time.c and
      asn1_generalized_time.
    - RandomNz.v models crypto/random_nz.c and Rsa.v models crypto/rsa.c, on the big
      integers of Bigint.v and the cursors of Asn1.v; RsaPower.v holds the number
      theory RSA rests on.
    - X509.v models crypto/x509.c with include/ipxe/x509.h, the store of
      crypto/certstore.c and sock_aton of net/socket.c, on Asn1.v, Time.v, Digest.v and
      Rsa.v.  Certificates are shared: a map from addresses to certificates holds them,
      chains and the store are lists of addresses.  X509Parse.v is about the parser,
      X509Valid.v about validation, X509Name.v about names.

    State is passed explicitly; a C function that returns a status code returns [Ok] or
    [Err]; loops are fixpoints on the data they traverse or on a number of steps.

    ** What the theorems show

    - Malloc: an allocation returns free, aligned memory and removes exactly that
      memory from the free list, with the pieces beside it that are too small for a
      block (there are none on a granular heap), a release returns exactly what is freed, realloc keeps
      the contents, and no byte ever has two owners.
    - Tcpip: the assembly checksum equals the C one, and a free port is found whenever
      there is one.
    - DhcpOpts, DhcpPkt: storing, deleting and fetching implement a map from tags to
      values on the encoded bytes, with and without encapsulation; searching arbitrary
      bytes ends and stays within the block, but for the overrun shown.  A block that
      cannot be resized keeps its options, but for the case shown.
    - Bigint: multiplication and modular exponentiation compute what they say on
      integers, and conversion from and to bytes is a round trip.
    - Digest, Hmac, Drbg, Entropy: the digests compute the functions of RFC 1321 and
      FIPS 180, HMAC is RFC 2104, the generator follows SP 800-90 and refuses what
      is too long, and the health tests accept exactly the runs of samples that the
      tests of SP 800-90 accept, with a window of 65 samples instead of 64; samples are
      given out only after the start-up test of as many as the standard asks for.
    - Retry: timeouts follow bounded exponential backoff and timers expire in order.
    - Tcp: bytes are delivered in order and exactly once, whatever the network does to
      the packets; every packet sent carries the application's stream at the right
      place; the steps of the connection refine the state diagram of
      RFC 793; and the two ends compose.
    - Ipv4, Udp, TcpIpv4: what is sent is received, through routing, checksums,
      reassembly of the fragments of RFC 791 in any order of datagrams, and dispatch.
    - Huffman, DeflateTotal, Inflate: alphabets are canonical Huffman codes; every call
      returns, on any input, without writing outside the output buffer; and every
      stream of RFC 1951 or RFC 1950 is decompressed to the data it stands for, however
      it is cut into chunks, but for the distance codes the code refuses.
    - AesCorrect, AesCbc, AesWrap, Arc4: AES is FIPS-197 and its inverse for every key
      and block, CBC is SP 800-38A in any split into calls and also in place, key
      wrapping is RFC 3394 within the length the code supports, and ARC4 is RC4.
    - Asn1: a cursor never leaves its object and never depends on what follows it; what
      the builder builds is what the cursor walks over; integers are read within the
      range of an int, and algorithms are recognised by their identifier.
    - Rsa: for every key pair, from its DER encodings on, decryption undoes encryption,
      and verification accepts exactly the PKCS #1 signatures of a digest, whose
      DigestInfo is encoded independently of the code's table.
    - Time: the times of certificates are seconds since the Epoch in the Gregorian
      calendar.
    - X509Parse, X509Name, X509Valid: what the parser accepts lies within its input and
      is what the checks rely on, and what makes it read elsewhere is shown; a certificate is for exactly the names that match its
      own; a certificate is found valid only with a path of issuers to a trusted root,
      whose signatures, names, times, key usage and path lengths are in order; each was
      checked by the call that finds it valid or, as results are remembered, by an
      earlier one.

    ** Bounds and fuel

    Integers keep their width: [u8] to [u64], [usize] and [s32] wrap as the C types do,
    and theorems that need a bound state it.  Where a loop is not structural, its fuel
    is computed from its input and shown to be enough: an allocation is retried once
    for each time the caches can give up memory, a number the discarders come with; the
    search of an options block advances with every step and has a step for each byte
    and for the bytes it can overrun; exponentiation takes a step per bit; padding a
    digest takes at most 64 bytes; the generator reseeds at most once per request; the
    receive queue of TCP is traversed once per element; a step of the decompressor uses
    up a bit or lowers a rank below 16, so that 16 steps per bit are enough; a
    scan of ASN.1 objects has a step for each byte of its cursor.  The loops that need
    not end are stated as such: TCP options of length zero, and certificates of the
    store that name each other as issuer.

    ** Not modelled

    Device drivers, the Mellanox firmware interface, platform bindings (EFI, BIOS,
    Linux, Xen) and start-up assembly drive hardware or firmware whose behaviour the
    sources do not define.  Consoles, menus, commands and debugging aids only perform
    input and output.  The object and data transfer interfaces (core/interface.c,
    core/xfer.c) are dynamic dispatch: the models name the method that is called and
    take its result as given.  Not modelled so far, although they could be: IPv6 and
    neighbour discovery, TLS, OCSP and signed messages, the reference counts of
    certificates and the discarding of stored ones, storage protocols, wireless, Infiniband, NFS, the application protocols above TCP and UDP, settings,
    URIs and text formatting. *)

From stdpp Require Export base list numbers strings gmap.
From Stdlib Require Export ZArith Lia.

#[export] Set Default Goal Selector "!".
#[global] Open Scope Z_scope.

(** ** Machine integers *)

(** A w-bit unsigned value is a [Z]; every C operation that can leave the range
    is followed by an explicit [wrap]. *)
Definition wrap (w x : Z) : Z := x mod 2 ^ w.

(** Reinterpretation of a w-bit value as a signed one (ssize_t, int). *)
Definition swrap (w x : Z) : Z := (x + 2 ^ (w - 1)) mod 2 ^ w - 2 ^ (w - 1).

Abbreviation u8 := (wrap 8).
Abbreviation u16 := (wrap 16).
Abbreviation u32 := (wrap 32).
Abbreviation u64 := (wrap 64).
Abbreviation s32 := (swrap 32).

Definition in_range (w x : Z) : Prop := 0 ≤ x < 2 ^ w.
Abbreviation is_byte := (in_range 8).
Abbreviation bytes := (list Z).
Abbreviation is_bytes := (Forall is_byte).

#[export] Instance in_range_dec w x : Decision (in_range w x).
Proof. unfold in_range; apply _. Defined.

Lemma wrap_range w x : 0 ≤ w → in_range w (wrap w x).
Proof. intros. unfold in_range, wrap. apply Z.mod_pos_bound. by apply Z.pow_pos_nonneg. Qed.

Lemma wrap_small w x : in_range w x → wrap w x = x.
Proof. intros. by apply Z.mod_small. Qed.

Lemma wrap_idemp w x : wrap w (wrap w x) = wrap w x.
Proof. unfold wrap. apply Zmod_mod. Qed.

Lemma wrap_add_l w x y : wrap w (wrap w x + y) = wrap w (x + y).
Proof. apply Zplus_mod_idemp_l. Qed.
Lemma wrap_add_r w x y : wrap w (x + wrap w y) = wrap w (x + y).
Proof. apply Zplus_mod_idemp_r. Qed.
Lemma wrap_sub_l w x y : wrap w (wrap w x - y) = wrap w (x - y).
Proof. apply Zminus_mod_idemp_l. Qed.
Lemma wrap_sub_r w x y : wrap w (x - wrap w y) = wrap w (x - y).
Proof. apply Zminus_mod_idemp_r. Qed.

Lemma swrap_small w x : - 2 ^ (w - 1) ≤ x < 2 ^ (w - 1) → 0 < w → swrap w x = x.
Proof.
  intros [? ?] ?. unfold swrap.
  assert (2 ^ w = 2 * 2 ^ (w - 1)) by (rewrite <- Z.pow_succ_r by lia; f_equal; lia).
  rewrite Z.mod_small by lia. lia.
Qed.

Lemma swrap_range w x : 0 < w → - 2 ^ (w - 1) ≤ swrap w x < 2 ^ (w - 1).
Proof.
  intros ?. unfold swrap.
  assert (2 ^ w = 2 * 2 ^ (w - 1)) by (rewrite <- Z.pow_succ_r by lia; f_equal; lia).
  pose proof (Z.mod_pos_bound (x + 2 ^ (w - 1)) (2 ^ w)).
  assert (0 < 2 ^ (w - 1)) by (apply Z.pow_pos_nonneg; lia). lia.
Qed.

Lemma swrap_wrap w x : 0 ≤ w → swrap w (wrap w x) = swrap w x.
Proof. intros. unfold swrap, wrap. by rewrite Zplus_mod_idemp_l. Qed.

(** ** Masks *)

Lemma land_mask x k : 0 ≤ k → Z.land x (2 ^ k - 1) = x mod 2 ^ k.
Proof. intros. replace (2 ^ k - 1) with (Z.ones k) by (rewrite Z.ones_equiv; lia). by apply Z.land_ones. Qed.

Lemma wrap_land w x : 0 ≤ w → wrap w x = Z.land x (2 ^ w - 1).
Proof. intros. by rewrite land_mask. Qed.

Lemma land_lnot_mask x k : 0 ≤ k → Z.land x (Z.lnot (2 ^ k - 1)) = x - x mod 2 ^ k.
Proof.
  intros. replace (2 ^ k - 1) with (Z.ones k) by (rewrite Z.ones_equiv; lia).
  rewrite <- Z.ldiff_land, Z.ldiff_ones_r by lia.
  rewrite Z.shiftl_mul_pow2, Z.shiftr_div_pow2 by lia.
  pose proof (Z.div_mod x (2 ^ k)). assert (0 < 2 ^ k) by (apply Z.pow_pos_nonneg; lia). lia.
Qed.

Lemma lor_mask j k : 0 ≤ j → 0 ≤ k → Z.lor (2 ^ j - 1) (2 ^ k - 1) = 2 ^ (Z.max j k) - 1.
Proof.
  intros.
  replace (2 ^ j - 1) with (Z.ones j) by (rewrite Z.ones_equiv; lia).
  replace (2 ^ k - 1) with (Z.ones k) by (rewrite Z.ones_equiv; lia).
  replace (2 ^ Z.max j k - 1) with (Z.ones (Z.max j k)) by (rewrite Z.ones_equiv; lia).
  apply Z.bits_inj'. intros n Hn.
  rewrite Z.lor_spec, !Z.testbit_ones by lia.
  destruct (Z.max_spec j k) as [[? ->]|[? ->]];
    repeat (case_match || f_equal); lia.
Qed.

Lemma lor_shift a x k : 0 ≤ k → 0 ≤ a < 2 ^ k → Z.lor a (Z.shiftl x k) = a + x * 2 ^ k.
Proof.
  intros Hk Ha. rewrite <- Z.shiftl_mul_pow2 by done.
  assert (Z.land a (Z.shiftl x k) = 0) as Hd.
  { apply Z.bits_inj'. intros n Hn. rewrite Z.land_spec, Z.bits_0.
    destruct (decide (n < k)); [by rewrite Z.shiftl_spec_low, andb_false_r|].
    rewrite <- (Z.mod_small a (2 ^ k)) by done. by rewrite Z.mod_pow2_bits_high by lia. }
  by rewrite Z.add_nocarry_lxor, Z.lxor_lor.
Qed.

(** ** Error codes and the error monad *)

(** The [errno] values the modelled code returns (src/include/errno.h); a C
    function returning [-EXXX] is modelled by [Err EXXX]. *)
Inductive errno : Set :=
| EINVAL | ENOENT | ENOMEM | ENOSPC | ENOTTY | ENOBUFS | EADDRINUSE
| EAFNOSUPPORT | EPERM | ERANGE | EACCES | ETIMEDOUT | ECONNRESET | EIO
| ENOTSUP | ENETUNREACH | ECONNREFUSED | ECANCELED | EPROTO | EBADMSG
| ENXIO | EINPROGRESS | ENODEV | EPIPE | ENOTCONN | ECONNABORTED | ENETDOWN
| EALREADY | EISCONN | EPROTONOSUPPORT | EOPNOTSUPP | EOVERFLOW | EFAULT | EBUSY | EHOSTUNREACH | EAGAIN
| ESTALE | EPIPE_REPETITION_COUNT_TEST | EPIPE_ADAPTIVE_PROPORTION_TEST.

#[export] Instance errno_eq_dec : EqDecision errno.
Proof. solve_decision. Defined.

Inductive res (A : Type) : Type :=
| Ok (a : A)
| Err (e : errno).
Arguments Ok {A} a.
Arguments Err {A} e.

#[export] Instance res_ret : MRet res := λ A a, Ok a.
#[export] Instance res_bind : MBind res := λ A B f m,
  match m with Ok a => f a | Err e => Err e end.
#[export] Instance res_fmap : FMap res := λ A B f m,
  match m with Ok a => Ok (f a) | Err e => Err e end.

#[export] Instance res_eq_dec `{EqDecision A} : EqDecision (res A).
Proof. solve_decision. Defined.

Lemma res_bind_Ok {A B} (f : A → res B) m b :
  m ≫= f = Ok b ↔ ∃ a, m = Ok a ∧ f a = Ok b.
Proof. destruct m; cbn; naive_solver. Qed.

(** ** Byte-addressed memory *)

Abbreviation mem := (gmap Z Z).

Definition mem_get (m : mem) (a : Z) : Z := default 0 (m !! a).

Fixpoint mem_write (m : mem) (a : Z) (bs : bytes) : mem :=
  match bs with
  | [] => m
  | b :: bs => <[a := b]> (mem_write m (a + 1) bs)
  end.

Fixpoint mem_read (m : mem) (a : Z) (n : nat) : bytes :=
  match n with
  | O => []
  | S n => mem_get m a :: mem_read m (a + 1) n
  end.

Lemma length_mem_read m a n : length (mem_read m a n) = n.
Proof. revert a; induction n; intros; cbn; auto. Qed.

Lemma mem_get_write m a bs x :
  mem_get (mem_write m a bs) x =
    if decide (a ≤ x < a + Z.of_nat (length bs))
    then default 0 (bs !! Z.to_nat (x - a)) else mem_get m x.
Proof.
  unfold mem_get. revert a; induction bs as [|b bs IH]; intros a; cbn [mem_write length].
  { rewrite decide_False by lia. done. }
  destruct (decide (x = a)) as [->|].
  { rewrite lookup_insert_eq, decide_True by lia. rewrite Z.sub_diag. done. }
  rewrite lookup_insert_ne, IH by done.
  destruct (decide (a + 1 ≤ x < a + 1 + Z.of_nat (length bs))).
  - rewrite decide_True by lia. f_equal.
    replace (Z.to_nat (x - a)) with (S (Z.to_nat (x - (a + 1)))) by lia. done.
  - rewrite decide_False by lia. done.
Qed.

Lemma mem_read_ext m1 m2 a n :
  (∀ x, a ≤ x < a + Z.of_nat n → mem_get m1 x = mem_get m2 x) →
  mem_read m1 a n = mem_read m2 a n.
Proof.
  revert a; induction n as [|n IH]; intros a H; [done|]; cbn. f_equal.
  - apply H. lia.
  - apply IH. intros. apply H. lia.
Qed.

Lemma mem_read_write_ne m a bs x n :
  x + Z.of_nat n ≤ a ∨ a + Z.of_nat (length bs) ≤ x →
  mem_read (mem_write m a bs) x n = mem_read m x n.
Proof. intros. apply mem_read_ext. intros. rewrite mem_get_write, decide_False by lia. done. Qed.

Lemma lookup_mem_read m a n i :
  (i < n)%nat → mem_read m a n !! i = Some (mem_get m (a + Z.of_nat i)).
Proof.
  revert a i; induction n as [|n IH]; intros a i Hi; [lia|].
  destruct i as [|i]; cbn [mem_read lookup list_lookup].
  { f_equal; f_equal; lia. }
  rewrite IH by lia. f_equal; f_equal; lia.
Qed.

Lemma mem_read_write_eq m a bs n :
  n = length bs → mem_read (mem_write m a bs) a n = bs.
Proof.
  intros ->. apply list_eq. intros i.
  destruct (decide (i < length bs)%nat) as [Hi|Hi].
  - rewrite lookup_mem_read by done.
    rewrite mem_get_write, decide_True by lia.
    replace (Z.to_nat (a + Z.of_nat i - a)) with i by lia.
    destruct (lookup_lt_is_Some_2 bs i Hi) as [b ->]. done.
  - rewrite !lookup_ge_None_2; [done|lia|rewrite length_mem_read; lia].
Qed.

Lemma take_mem_read m a n k : (k ≤ n)%nat → take k (mem_read m a n) = mem_read m a k.
Proof.
  revert a n; induction k as [|k IH]; intros a n Hk; [done|].
  destruct n; [lia|]. cbn. f_equal. apply IH. lia.
Qed.

(** ** Little- and big-endian encodings *)

Fixpoint le_split (n : nat) (v : Z) : bytes :=
  match n with O => [] | S n => v mod 256 :: le_split n (v / 256) end.

Fixpoint le_combine (bs : bytes) : Z :=
  match bs with [] => 0 | b :: bs => b + 256 * le_combine bs end.

Definition be_split (n : nat) (v : Z) : bytes := rev (le_split n v).
Definition be_combine (bs : bytes) : Z := le_combine (rev bs).

Lemma length_le_split n v : length (le_split n v) = n.
Proof. revert v; induction n; intros; cbn; auto. Qed.

Lemma le_split_bytes n v : is_bytes (le_split n v).
Proof.
  revert v; induction n; intros; cbn; constructor; auto.
  unfold in_range. pose proof (Z.mod_pos_bound v 256). lia.
Qed.

Lemma le_combine_split n v :
  le_combine (le_split n v) = v mod 2 ^ (8 * Z.of_nat n).
Proof.
  revert v; induction n as [|n IH]; intros v; cbn [le_split le_combine].
  { by rewrite Z.mod_1_r. }
  rewrite IH. replace (8 * Z.of_nat (S n)) with (8 + 8 * Z.of_nat n) by lia.
  rewrite Z.pow_add_r by lia. change (2 ^ 8) with 256.
  rewrite Z.rem_mul_r; [lia|lia|]. apply Z.pow_pos_nonneg; lia.
Qed.

Lemma le_combine_range bs : is_bytes bs → 0 ≤ le_combine bs < 2 ^ (8 * Z.of_nat (length bs)).
Proof.
  induction 1 as [|b bs Hb _ IH]; cbn [le_combine length]; [lia|].
  replace (8 * Z.of_nat (S (length bs))) with (8 + 8 * Z.of_nat (length bs)) by lia.
  rewrite Z.pow_add_r by lia. unfold in_range in Hb. lia.
Qed.

Lemma le_split_combine bs : is_bytes bs → le_split (length bs) (le_combine bs) = bs.
Proof.
  induction 1 as [|b bs Hb _ IH]; [done|]; cbn [le_combine length le_split].
  unfold in_range in Hb. f_equal.
  - rewrite Z.mul_comm, Z_mod_plus_full. apply Z.mod_small. lia.
  - rewrite Z.mul_comm, Z_div_plus_full, Z.div_small by lia. done.
Qed.

(** ** Platforms *)

(** The architecture-dependent constants of a build: the size in bytes of a
    pointer (and so of [size_t], [ssize_t] and [unsigned long]) and the
    virtual-to-physical displacement [virt_offset] that librm maintains. *)
Class Platform := {
  sizeof_ptr : Z;
  virt_offset : Z;
  sizeof_ptr_ok : sizeof_ptr = 4 ∨ sizeof_ptr = 8;
}.

Definition i386 : Platform := {| sizeof_ptr := 4; virt_offset := 0; sizeof_ptr_ok := or_introl eq_refl |}.
Definition x86_64 : Platform := {| sizeof_ptr := 8; virt_offset := 0; sizeof_ptr_ok := or_intror eq_refl |}.

(** Width in bits of [size_t]. *)
Definition size_bits `{Platform} : Z := 8 * sizeof_ptr.
Abbreviation usize := (wrap size_bits).
Abbreviation ssize := (swrap size_bits).

Lemma size_bits_cases `{Platform} :
  (sizeof_ptr = 4 ∧ size_bits = 32) ∨ (sizeof_ptr = 8 ∧ size_bits = 64).
Proof. unfold size_bits. destruct sizeof_ptr_ok as [-> | ->]; auto. Qed.

Lemma sizeof_ptr_pos `{Platform} : 0 < sizeof_ptr.
Proof. destruct sizeof_ptr_ok as [-> | ->]; lia. Qed.

(** Prove a closed decidable proposition by computation. *)
Ltac by_decide := refine (bool_decide_unpack _ _); vm_compute; exact I.
Ltac by_compute := first [by vm_compute | refine (bool_decide_unpack _ _); by vm_compute].

(** Length of a list as an integer. *)
Abbreviation Zlen l := (Z.of_nat (length l)).

(** [size_t] and [ssize_t] hold any value of fewer than 32 bits. *)
Lemma usize_small `{Platform} x : 0 ≤ x < 2 ^ 32 → usize x = x.
Proof.
  intros. apply wrap_small. unfold in_range.
  destruct size_bits_cases as [[_ ->]|[_ ->]]; lia.
Qed.
Lemma ssize_small `{Platform} x : - 2 ^ 31 ≤ x < 2 ^ 31 → ssize x = x.
Proof.
  intros. destruct size_bits_cases as [[_ ->]|[_ ->]]; apply swrap_small; lia.
Qed.

(** Normalise nested appends. *)
Ltac simpl_app := cbn [app]; repeat progress (rewrite <- ?app_assoc; cbn [app]).

Lemma mjoin_cons {A} (x : list A) l : mjoin (x :: l) = x ++ mjoin l.
Proof. done. Qed.
Lemma mjoin_nil {A} : mjoin (M := list) [] = @nil A.
Proof. done. Qed.

Lemma filter_all {A} (P : A → Prop) `{∀ x, Decision (P x)} l : Forall P l → filter P l = l.
Proof. induction 1 as [|x l Hx _ IH]; [done|]. rewrite filter_cons, decide_True by done. by rewrite IH. Qed.

(** A property checked for every value of a range. *)
Lemma Forall_seqZ_lookup (P : Z → Prop) n x : Forall P (seqZ 0 n) → 0 ≤ x < n → P x.
Proof. intros HP Hx. rewrite Forall_forall in HP. apply HP. apply elem_of_seqZ. lia. Qed.

Lemma be_combine_split n v : be_combine (be_split n v) = v mod 2 ^ (8 * Z.of_nat n).
Proof. unfold be_combine, be_split. by rewrite rev_involutive, le_combine_split. Qed.

Lemma be_split_bytes n v : is_bytes (be_split n v).
Proof. unfold be_split. apply Forall_rev. apply le_split_bytes. Qed.

Lemma be_combine_range bs : is_bytes bs → 0 ≤ be_combine bs < 2 ^ (8 * Z.of_nat (length bs)).
Proof. intros. unfold be_combine. rewrite <- length_rev. apply le_combine_range. by apply Forall_rev. Qed.

Lemma length_be_split n v : length (be_split n v) = n.
Proof. unfold be_split. by rewrite length_rev, length_le_split. Qed.

(** ** Packets *)

(** A byte at an offset from a pointer; zero stands for whatever memory follows
    the packet. *)
Definition byte (data : bytes) (i : nat) : Z := default 0 (data !! i).

Lemma byte_range l i : is_bytes l → is_byte (byte l i).
Proof.
  intros Hl. unfold byte. destruct (l !! i) eqn:Hi; cbn; [by eapply Forall_lookup_1|unfold in_range; lia].
Qed.

(** A field of a packet: [len] bytes at an offset. *)
Definition field (packet : bytes) (offset len : nat) : bytes := take len (drop offset packet).

(** Storing bytes at an offset within a packet. *)
Definition store (packet : bytes) (offset : nat) (data : bytes) : bytes :=
  take offset packet ++ data ++ drop (offset + length data) packet.

(** ** Arrays of words *)

(** The dwords of a buffer, in the two byte orders, and back. *)
Fixpoint dwords (combine : bytes → Z) (n : nat) (bs : bytes) : list Z :=
  match n with O => [] | S n => combine (take 4 bs) :: dwords combine n (drop 4 bs) end.
Abbreviation be_dwords := (dwords be_combine).
Abbreviation le_dwords := (dwords le_combine).
Definition be_bytes (ws : list Z) : bytes := mjoin (be_split 4 <$> ws).
Definition le_bytes (ws : list Z) : bytes := mjoin (le_split 4 <$> ws).

Definition word (ws : list Z) (i : nat) : Z := default 0 (ws !! i).

Lemma is_bytes_le_bytes ws : is_bytes (le_bytes ws).
Proof. induction ws; [constructor|]. apply Forall_app. split; [apply le_split_bytes|done]. Qed.
Lemma is_bytes_be_bytes ws : is_bytes (be_bytes ws).
Proof. induction ws; [constructor|]. apply Forall_app. split; [apply Forall_rev, le_split_bytes|done]. Qed.
Lemma length_le_bytes ws : length (le_bytes ws) = (4 * length ws)%nat.
Proof.
  induction ws as [|w ws IH]; [done|]. change (le_bytes (w :: ws)) with (le_split 4 w ++ le_bytes ws).
  rewrite length_app, length_le_split, IH. cbn [length]. lia.
Qed.
Lemma length_be_bytes ws : length (be_bytes ws) = (4 * length ws)%nat.
Proof.
  induction ws as [|w ws IH]; [done|]. change (be_bytes (w :: ws)) with (be_split 4 w ++ be_bytes ws).
  unfold be_split. rewrite length_app, length_rev, length_le_split, IH. cbn [length]. lia.
Qed.
Lemma length_dwords combine n bs : length (dwords combine n bs) = n.
Proof. revert bs. induction n; intros; cbn; auto. Qed.
Lemma le_combine_32 l : is_bytes l → (length l ≤ 4)%nat → in_range 32 (le_combine l).
Proof.
  intros Hb Hl. pose proof (le_combine_range l Hb). unfold in_range.
  pose proof (Z.pow_le_mono_r 2 (8 * Zlen l) 32). lia.
Qed.
Lemma be_combine_32 l : is_bytes l → (length l ≤ 4)%nat → in_range 32 (be_combine l).
Proof. intros. apply le_combine_32; [by apply Forall_rev|by rewrite length_rev]. Qed.
Lemma dwords_range combine n bs i :
  (∀ l, is_bytes l → length l ≤ 4 → in_range 32 (combine l))%nat → is_bytes bs →
  in_range 32 (word (dwords combine n bs) i).
Proof.
  intros Hc. revert bs i. induction n as [|n IH]; intros bs i Hb; [by_compute|].
  destruct i as [|i]; [|by apply IH, Forall_drop]. cbn. apply Hc; [by apply Forall_take|].
  rewrite length_take. lia.
Qed.
Lemma be_bytes_dwords n s : length s = (4 * n)%nat → is_bytes s → be_bytes (be_dwords n s) = s.
Proof.
  revert s. induction n as [|n IH]; intros s Hl Hb; [by destruct s|]. cbn [dwords].
  change (be_split 4 (be_combine (take 4 s)) ++ be_bytes (be_dwords n (drop 4 s)) = s).
  rewrite IH; [|rewrite length_drop; lia|by apply Forall_drop].
  assert (be_split 4 (be_combine (take 4 s)) = take 4 s) as ->; [|apply take_drop].
  unfold be_split, be_combine. assert (length (rev (take 4 s)) = 4%nat) as Hr by (rewrite length_rev, length_take; lia).
  rewrite <- Hr at 1. rewrite le_split_combine, rev_involutive; [done|]. by apply Forall_rev, Forall_take.
Qed.
