(* ===== verification/Malloc.v ===== *)
(** * Dynamic memory allocation (src/core/malloc.c, src/include/ipxe/malloc.h)

    The free list, [alloc_memblock], [free_memblock] and the ANSI-style
    functions built on them ([realloc], [malloc], [free], [zalloc]), the cache
    discarders, and [fls] (src/include/strings.h), which fixes the block
    granularity.

    A heap is the list of free blocks in list order, the [freemem] counter and
    the byte contents of memory.  The list links and the size field that the C
    code keeps inside each free block are the list itself: [blocks_ok] shows
    that a free block is never smaller than the structure stored in it, so
    that bookkeeping never leaves free memory. *)

From S2P Require Import Prelude.

(** ** Find last set bit *)

Definition __constant_flsll (x : Z) : Z :=
  let r := 0 in
  let '(x, r) := if negb (Z.land x 0xffffffff00000000 =? 0) then (Z.shiftr x 32, r + 32) else (x, r) in
  let '(x, r) := if negb (Z.land x 0xffff0000 =? 0) then (Z.shiftr x 16, r + 16) else (x, r) in
  let '(x, r) := if negb (Z.land x 0xff00 =? 0) then (Z.shiftr x 8, r + 8) else (x, r) in
  let '(x, r) := if negb (Z.land x 0xf0 =? 0) then (Z.shiftr x 4, r + 4) else (x, r) in
  let '(x, r) := if negb (Z.land x 0xc =? 0) then (Z.shiftr x 2, r + 2) else (x, r) in
  let '(x, r) := if negb (Z.land x 0x2 =? 0) then (Z.shiftr x 1, r + 1) else (x, r) in
  let r := if negb (Z.land x 0x1 =? 0) then r + 1 else r in
  r.

Abbreviation fls := __constant_flsll.

(** ** Heap state *)

(** A free block: its address and [block->size]. *)
Definition memory_block : Type := Z * Z.

Record heap : Type := Heap {
  free_blocks : list memory_block;
  freemem : Z;
  contents : mem;
}.

Section malloc.
  Context `{Platform}.

(** sizeof ( struct memory_block ): a size_t, padding up to the end of
    [refcnt.count] (an int at offset 0), two list pointers, each aligned. *)
Definition sizeof_memory_block : Z := sizeof_ptr + Z.max 4 sizeof_ptr + 2 * sizeof_ptr.

Definition MIN_MEMBLOCK_SIZE : Z := Z.shiftl 1 (fls (sizeof_memory_block - 1)).

(** offsetof ( struct autosized_block, data ) *)
Definition autosized_data : Z := sizeof_ptr.

Definition NOWHERE : Z := usize (Z.lnot 0).
Definition NULL : Z := 0.

Definition HEAP_SIZE : Z := 512 * 1024.

Definition virt_to_phys (addr : Z) : Z := usize (addr + virt_offset).

Definition round_size (size : Z) : Z :=
  Z.land (usize (size + MIN_MEMBLOCK_SIZE - 1)) (Z.lnot (MIN_MEMBLOCK_SIZE - 1)).

(** ** Cache discarders *)

(** The rest of the program's state, which the cache discarders may change
    together with the heap. *)
Context {C : Type}.

Definition world : Type := heap * C.

(** The linker table CACHE_DISCARDERS: each entry frees some cached items and
    returns how many. *)
Definition discarder : Type := world → Z * world.
Context (CACHE_DISCARDERS : list discarder).

Fixpoint discard_cache_from (table : list discarder) (w : world) : Z * world :=
  match table with
  | [] => (0, w)
  | discard :: table =>
      let '(discarded, w) := discard w in
      if negb (discarded =? 0) then (discarded, w) else discard_cache_from table w
  end.

Definition discard_cache (w : world) : Z * world := discard_cache_from CACHE_DISCARDERS w.

(** The do-while loop, with fuel; [None] is running out of it. *)
Fixpoint discard_all_cache (fuel : nat) (w : world) : option world :=
  match fuel with
  | O => None
  | S fuel =>
      let '(discarded, w) := discard_cache w in
      if negb (discarded =? 0) then discard_all_cache fuel w else Some w
  end.

Definition shutdown_cache (fuel : nat) (w : world) : option world := discard_all_cache fuel w.

(** ** Allocation *)

(** Split a block into the pre-block, the allocated block (dropped) and the
    post-block; too small pre- and post-blocks are leaked. *)
Definition split_block (a pre_size size post_size : Z) : list memory_block :=
  (if pre_size <? MIN_MEMBLOCK_SIZE then [] else [(a, pre_size)]) ++
  (if MIN_MEMBLOCK_SIZE <=? post_size then [(usize (a + pre_size + size), post_size)] else []).

(** The list_for_each_entry search of alloc_memblock: the first block with
    enough space, and the free list after splitting it. *)
Fixpoint alloc_scan (size align_mask offset : Z) (blocks : list memory_block)
    : option (Z * list memory_block) :=
  match blocks with
  | [] => None
  | (a, bsize) :: rest =>
      let pre_size := Z.land (usize (offset - virt_to_phys a)) align_mask in
      let post_size := ssize (bsize - pre_size - size) in
      if 0 <=? post_size
      then Some (usize (a + pre_size), split_block a pre_size size post_size ++ rest)
      else match alloc_scan size align_mask offset rest with
           | Some (ptr, rest) => Some (ptr, (a, bsize) :: rest)
           | None => None
           end
  end.

(** The while loop of alloc_memblock: search, else discard and retry. *)
Fixpoint alloc_loop (fuel : nat) (size align_mask offset : Z) (w : world) : option (Z * world) :=
  match fuel with
  | O => None
  | S fuel =>
      let '(h, c) := w in
      match alloc_scan size align_mask offset (free_blocks h) with
      | Some (ptr, blocks) =>
          Some (ptr, (Heap blocks (usize (freemem h - size)) (contents h), c))
      | None =>
          let '(discarded, w) := discard_cache (h, c) in
          if discarded =? 0 then Some (NULL, w)
          else alloc_loop fuel size align_mask offset w
      end
  end.

Definition alloc_memblock (fuel : nat) (size align offset : Z) (w : world) : option (Z * world) :=
  let size := round_size size in
  let align_mask := Z.lor (usize (align - 1)) (MIN_MEMBLOCK_SIZE - 1) in
  alloc_loop fuel size align_mask offset w.

(** ** Release *)

(** The list_for_each_entry_safe loop of free_memblock: the blocks left before
    the insertion point, the (possibly merged) freed block, the last gap_after
    and the blocks from the one at which the loop stopped.  A block cannot be
    adjacent on both sides of the freed one ([free_scan_spec]), so a block
    merged as the preceding one is never also the stopping point. *)
Fixpoint free_scan (size : Z) (freeing : memory_block) (gap_after : Z)
    (passed blocks : list memory_block)
    : list memory_block * memory_block * Z * list memory_block :=
  match blocks with
  | [] => (passed, freeing, gap_after, [])
  | (b, bsize) :: rest =>
      let '(f, fsize) := freeing in
      let gap_before := ssize (f - (b + bsize)) in
      let gap_after := ssize (b - (f + fsize)) in
      let freeing := if gap_before =? 0 then (b, usize (bsize + size)) else freeing in
      if 0 <=? gap_after then (passed, freeing, gap_after, (b, bsize) :: rest)
      else
        let passed := if gap_before =? 0 then passed else passed ++ [(b, bsize)] in
        free_scan size freeing gap_after passed rest
  end.

Definition free_insert (size : Z) (ptr : Z) (blocks : list memory_block) : list memory_block :=
  let '(before, (f, fsize), gap_after, rest) := free_scan size (ptr, size) (-1) [] blocks in
  match rest with
  | [] => before ++ [(f, fsize)]
  | (b, bsize) :: rest =>
      if gap_after =? 0 then before ++ (f, usize (fsize + bsize)) :: rest
      else before ++ (f, fsize) :: (b, bsize) :: rest
  end.

Definition free_memblock (ptr size : Z) (w : world) : world :=
  if ptr =? NULL then w
  else
    let '(h, c) := w in
    let size := round_size size in
    (Heap (free_insert size ptr (free_blocks h)) (usize (freemem h + size)) (contents h), c).

(** ** ANSI C interface *)

Definition load_size (m : mem) (a : Z) : Z := le_combine (mem_read m a (Z.to_nat sizeof_ptr)).
Definition store_size (m : mem) (a v : Z) : mem := mem_write m a (le_split (Z.to_nat sizeof_ptr) v).

Definition set_contents (m : mem) (w : world) : world :=
  (Heap (free_blocks w.1) (freemem w.1) m, w.2).

(** The second half of realloc: copy the old contents, free the old block. *)
Definition realloc_move (old_ptr new_ptr new_size : Z) (w : world) : world :=
  if negb (old_ptr =? NULL) && negb (old_ptr =? NOWHERE) then
    let old_block := old_ptr - autosized_data in
    let old_total_size := load_size (contents w.1) old_block in
    let old_size := usize (old_total_size - autosized_data) in
    let len := if old_size <? new_size then old_size else new_size in
    let w := set_contents (mem_write (contents w.1) new_ptr
                             (mem_read (contents w.1) old_ptr (Z.to_nat len))) w in
    free_memblock old_block old_total_size w
  else w.

Definition realloc (fuel : nat) (old_ptr new_size : Z) (w : world) : option (Z * world) :=
  if negb (new_size =? 0) then
    let new_total_size := usize (new_size + autosized_data) in
    match alloc_memblock fuel new_total_size 1 0 w with
    | None => None
    | Some (new_block, w) =>
        if new_block =? NULL then Some (NULL, w)
        else
          let w := set_contents (store_size (contents w.1) new_block new_total_size) w in
          let new_ptr := usize (new_block + autosized_data) in
          Some (new_ptr, realloc_move old_ptr new_ptr new_size w)
    end
  else Some (NOWHERE, realloc_move old_ptr NOWHERE new_size w).

Definition malloc (fuel : nat) (size : Z) (w : world) : option (Z * world) := realloc fuel NULL size w.

Definition free (ptr : Z) (w : world) : option world := snd <$> realloc 0 ptr 0 w.

Definition zalloc (fuel : nat) (size : Z) (w : world) : option (Z * world) :=
  match malloc fuel size w with
  | None => None
  | Some (data, w) =>
      if data =? NULL then Some (data, w)
      else Some (data, set_contents (mem_write (contents w.1) data (replicate (Z.to_nat size) 0)) w)
  end.

Definition malloc_dma_offset (fuel : nat) (size phys_align offset : Z) (w : world) :=
  alloc_memblock fuel size phys_align offset w.
Definition malloc_dma (fuel : nat) (size phys_align : Z) (w : world) :=
  malloc_dma_offset fuel size phys_align 0 w.
Definition free_dma (ptr size : Z) (w : world) : world := free_memblock ptr size w.

Definition mpopulate (start len : Z) (w : world) : world :=
  free_memblock start (Z.land len (Z.lnot (MIN_MEMBLOCK_SIZE - 1))) w.

(** [heap] is the address of the static array. *)
Definition init_heap (heap : Z) (w : world) : world := mpopulate heap HEAP_SIZE w.

(** ** Arithmetic of sizes *)

Lemma MIN_cases :
  (MIN_MEMBLOCK_SIZE = 2 ^ 4 ∧ sizeof_ptr = 4 ∧ size_bits = 32) ∨
  (MIN_MEMBLOCK_SIZE = 2 ^ 5 ∧ sizeof_ptr = 8 ∧ size_bits = 64).
Proof.
  unfold MIN_MEMBLOCK_SIZE, sizeof_memory_block.
  destruct size_bits_cases as [[-> ->]|[-> ->]]; [left|right]; done.
Qed.

Lemma MIN_pow : ∃ k, MIN_MEMBLOCK_SIZE = 2 ^ k ∧ 0 < k ∧ k < size_bits - 1 ∧ 0 < size_bits.
Proof. destruct MIN_cases as [(-> & _ & ->)|(-> & _ & ->)]; [exists 4|exists 5]; lia. Qed.

(** The structure kept inside a free block fits in the smallest block. *)
Lemma memory_block_fits : sizeof_memory_block ≤ MIN_MEMBLOCK_SIZE.
Proof.
  unfold sizeof_memory_block.
  destruct MIN_cases as [(-> & -> & _)|(-> & -> & _)]; cbn; lia.
Qed.

Lemma MIN_bounds :
  16 ≤ MIN_MEMBLOCK_SIZE ≤ 32 ∧ 2 * MIN_MEMBLOCK_SIZE < 2 ^ (size_bits - 1) ∧ 0 < size_bits.
Proof. destruct MIN_cases as [(-> & _ & ->)|(-> & _ & ->)]; cbn; lia. Qed.

Lemma pow_size_bits : 2 ^ size_bits = 2 * 2 ^ (size_bits - 1) ∧ 0 < 2 ^ (size_bits - 1).
Proof. destruct size_bits_cases as [[_ ->]|[_ ->]]; cbn; lia. Qed.

(** The rounding neither wraps nor loses bytes up to the last granule below
    the end of the address space. *)
Lemma round_size_spec size :
  0 ≤ size ≤ 2 ^ size_bits - MIN_MEMBLOCK_SIZE →
  size ≤ round_size size < size + MIN_MEMBLOCK_SIZE ∧
  round_size size mod MIN_MEMBLOCK_SIZE = 0.
Proof.
  intros Hs. unfold round_size. pose proof MIN_bounds.
  rewrite wrap_small by (unfold in_range; lia).
  destruct MIN_pow as (k & Hk & ? & _). rewrite Hk, land_lnot_mask, <- Hk by lia.
  pose proof (Z.mod_pos_bound (size + MIN_MEMBLOCK_SIZE - 1) MIN_MEMBLOCK_SIZE).
  split; [lia|]. rewrite Zminus_mod_idemp_r, Z.sub_diag. by rewrite Zmod_0_l.
Qed.

Lemma round_size_pos size :
  0 < size ≤ 2 ^ size_bits - MIN_MEMBLOCK_SIZE → MIN_MEMBLOCK_SIZE ≤ round_size size.
Proof.
  intros Hs. destruct (round_size_spec size) as [? Hm]; [lia|].
  pose proof MIN_bounds. apply Z.mod_divide in Hm as [q Hq]; [|lia].
  rewrite Hq in *. assert (0 < q) by nia. nia.
Qed.

Lemma round_size_aligned size :
  0 ≤ size ≤ 2 ^ size_bits - MIN_MEMBLOCK_SIZE → size mod MIN_MEMBLOCK_SIZE = 0 → round_size size = size.
Proof.
  intros Hs Hm. destruct (round_size_spec size Hs) as [? Hm']. pose proof MIN_bounds.
  apply Z.mod_divide in Hm as [q Hq]; [|lia]. apply Z.mod_divide in Hm' as [q' Hq']; [|lia].
  rewrite Hq' in *. assert (q' = q) by nia. nia.
Qed.

(** ** The free list invariant *)

(** The address range the heap was populated from. *)
Definition region_ok (lo hi : Z) : Prop :=
  0 < lo ≤ hi ∧ hi < 2 ^ size_bits ∧ hi - lo < 2 ^ (size_bits - 1).

(** Free blocks lie in [lo,hi), are large enough to hold their own header, are
    in increasing address order and never touch: adjacent blocks are merged. *)
Fixpoint blocks_ok (lo hi : Z) (blocks : list memory_block) : Prop :=
  match blocks with
  | [] => True
  | (a, s) :: rest => lo ≤ a ∧ MIN_MEMBLOCK_SIZE ≤ s ∧ a + s ≤ hi ∧ blocks_ok (a + s + 1) hi rest
  end.

(** Address [x] belongs to a free block. *)
Definition block_free (blocks : list memory_block) (x : Z) : Prop :=
  Exists (λ b, b.1 ≤ x < b.1 + b.2) blocks.

Fixpoint total (blocks : list memory_block) : Z :=
  match blocks with [] => 0 | (_, s) :: rest => s + total rest end.

(** Every block starts on a physical granule and is a whole number of them. *)
Definition granular (blocks : list memory_block) : Prop :=
  Forall (λ b, (b.1 + virt_offset) mod MIN_MEMBLOCK_SIZE = 0 ∧ b.2 mod MIN_MEMBLOCK_SIZE = 0) blocks.

Lemma blocks_ok_weaken lo lo' hi bs : lo' ≤ lo → blocks_ok lo hi bs → blocks_ok lo' hi bs.
Proof. destruct bs as [|[a s] bs]; cbn; [done|]. intros ? (? & ? & ? & ?). split_and!; auto; lia. Qed.

Lemma block_free_bounds lo hi bs x : blocks_ok lo hi bs → block_free bs x → lo ≤ x < hi.
Proof.
  revert lo; induction bs as [|[a s] bs IH]; intros lo; [by intros _ ?%Exists_nil|].
  cbn [blocks_ok]. intros (? & ? & ? & Hok) [?|Hx]%Exists_cons; cbn in *; [lia|].
  pose proof (IH _ Hok Hx). pose proof MIN_bounds. lia.
Qed.

Lemma block_free_cons a s bs x : block_free ((a, s) :: bs) x ↔ a ≤ x < a + s ∨ block_free bs x.
Proof. apply Exists_cons. Qed.

Lemma block_free_app bs1 bs2 x : block_free (bs1 ++ bs2) x ↔ block_free bs1 x ∨ block_free bs2 x.
Proof. apply Exists_app. Qed.

Lemma block_free_nil x : block_free [] x ↔ False.
Proof. apply Exists_nil. Qed.

Lemma blocks_ok_total_nonneg lo hi bs : blocks_ok lo hi bs → 0 ≤ total bs.
Proof.
  revert lo; induction bs as [|[a s] bs IH]; intros lo; cbn; [lia|].
  intros (_ & ? & _ & Hok). apply IH in Hok. pose proof MIN_bounds. lia.
Qed.

Lemma blocks_ok_total lo hi bs : lo ≤ hi → blocks_ok lo hi bs → total bs ≤ hi - lo.
Proof.
  revert lo; induction bs as [|[a s] bs IH]; intros lo Hlh; cbn; [lia|].
  intros (? & ? & ? & Hok). destruct (decide (a + s + 1 ≤ hi)) as [Hle|].
  - apply IH in Hok; lia.
  - destruct bs as [|[b t] bs]; cbn in *; [lia|]. pose proof MIN_bounds. lia.
Qed.

(** A coalesced, ordered free list is determined by the set of free
    addresses: two such lists with the same free bytes are equal. *)
Lemma blocks_ok_canonical lo lo' hi bs bs' :
  blocks_ok lo hi bs → blocks_ok lo' hi bs' →
  (∀ x, block_free bs x ↔ block_free bs' x) → bs = bs'.
Proof.
  pose proof MIN_bounds as HM.
  revert lo lo' bs'; induction bs as [|[a s] bs IH]; intros lo lo' bs' Hok Hok' Heq.
  { destruct bs' as [|[a' s'] bs']; [done|]. cbn in Hok'.
    exfalso. eapply (block_free_nil a'), Heq, block_free_cons. lia. }
  destruct bs' as [|[a' s'] bs'].
  { cbn in Hok. exfalso. eapply (block_free_nil a), Heq, block_free_cons. lia. }
  cbn in Hok, Hok'. destruct Hok as (? & ? & ? & Hok), Hok' as (? & ? & ? & Hok').
  pose proof (λ x, block_free_bounds _ _ _ x Hok) as Hb.
  pose proof (λ x, block_free_bounds _ _ _ x Hok') as Hb'.
  assert (∀ x, (a ≤ x < a + s ∨ block_free bs x) ↔ (a' ≤ x < a' + s' ∨ block_free bs' x)) as Heq'.
  { intros x. by rewrite <- !block_free_cons. }
  assert (a = a') as <-.
  { destruct (proj1 (Heq' a)) as [?|?%Hb']; [lia| |];
      destruct (proj2 (Heq' a')) as [?|?%Hb]; lia. }
  assert (s = s') as <-.
  { destruct (Z.lt_trichotomy s s') as [Hlt|[?|Hlt]]; [|done|].
    - destruct (proj2 (Heq' (a + s))) as [?|?%Hb]; lia.
    - destruct (proj1 (Heq' (a + s'))) as [?|?%Hb']; lia. }
  f_equal. eapply IH; [exact Hok|exact Hok'|].
  intros x. specialize (Heq' x). specialize (Hb x). specialize (Hb' x).
  destruct (decide (a ≤ x < a + s)); [|tauto].
  split; intros Hx; [apply Hb in Hx|apply Hb' in Hx]; lia.
Qed.

(** ** Allocation: the search *)

(** Requests the search computes on without wrapping: a positive size and an
    alignment [2^j] whose sum stays below half the address space. *)
Definition request_ok (size j : Z) : Prop := 0 < size ∧ 0 ≤ j ∧ size + 2 ^ j ≤ 2 ^ (size_bits - 1).

Lemma request_ok_width size j : request_ok size j → j < size_bits ∧ 0 < 2 ^ j ∧ 0 < size_bits.
Proof.
  intros (? & ? & ?). destruct MIN_pow as (_ & _ & _ & _ & ?).
  assert (2 ^ j < 2 ^ size_bits) as ?%Z.pow_lt_mono_r_iff by (pose proof pow_size_bits; lia); [|lia..].
  split_and!; lia.
Qed.

Lemma pre_size_mod j offset a :
  0 ≤ j ≤ size_bits →
  Z.land (usize (offset - virt_to_phys a)) (2 ^ j - 1) = (offset - (a + virt_offset)) mod 2 ^ j.
Proof.
  intros. rewrite land_mask by lia. unfold virt_to_phys. rewrite wrap_sub_r. unfold wrap.
  apply Z.mod_mod_divide. exists (2 ^ (size_bits - j)). rewrite <- Z.pow_add_r by lia. f_equal; lia.
Qed.

(** What the two guards of the search compute for a block of the region. *)
Lemma scan_block_arith lo hi size j offset a s :
  region_ok lo hi → request_ok size j → lo ≤ a → 0 ≤ s → a + s ≤ hi →
  let pre := Z.land (usize (offset - virt_to_phys a)) (2 ^ j - 1) in
  0 ≤ pre < 2 ^ j ∧ (a + pre + virt_offset - offset) mod 2 ^ j = 0 ∧
  ssize (s - pre - size) = s - pre - size.
Proof.
  intros (? & ? & ?) Hreq ? ? ? pre. destruct (request_ok_width _ _ Hreq) as (? & ? & ?).
  destruct Hreq as (? & ? & ?).
  assert (pre = (offset - (a + virt_offset)) mod 2 ^ j) as Hpre by (apply pre_size_mod; lia).
  pose proof (Z.mod_pos_bound (offset - (a + virt_offset)) (2 ^ j)).
  split_and!; [lia|lia| |].
  - rewrite Hpre.
    replace (a + (offset - (a + virt_offset)) mod 2 ^ j + virt_offset - offset)
      with ((offset - (a + virt_offset)) mod 2 ^ j - (offset - (a + virt_offset))) by lia.
    rewrite Zminus_mod_idemp_l, Z.sub_diag. by apply Zmod_0_l.
  - apply swrap_small; lia.
Qed.

Lemma split_block_free a pre size post x :
  0 ≤ pre → 0 ≤ post → 0 ≤ a + pre + size < 2 ^ size_bits → block_free (split_block a pre size post) x →
  a ≤ x < a + pre ∨ a + pre + size ≤ x < a + pre + size + post.
Proof.
  intros ? ? ?. unfold split_block. rewrite block_free_app, wrap_small by done.
  destruct (_ <? _), (_ <=? _); rewrite ?block_free_cons, !block_free_nil; naive_solver.
Qed.

Lemma split_block_ok lo hi a pre size post rest :
  lo ≤ a → 0 ≤ pre → 0 < size → 0 ≤ post → 0 ≤ a → a + pre + size + post ≤ hi → hi < 2 ^ size_bits →
  blocks_ok (a + (pre + size + post) + 1) hi rest →
  blocks_ok lo hi (split_block a pre size post ++ rest).
Proof.
  intros ? ? ? ? ? ? ? Hok. unfold split_block. rewrite wrap_small by (unfold in_range; lia).
  destruct (Z.ltb_spec pre MIN_MEMBLOCK_SIZE), (Z.leb_spec MIN_MEMBLOCK_SIZE post);
    cbn; repeat split; try lia;
    (eapply blocks_ok_weaken; [|exact Hok]; lia).
Qed.

Lemma alloc_scan_Some lo hi size j offset bs p bs' :
  region_ok lo hi → request_ok size j → blocks_ok lo hi bs →
  alloc_scan size (2 ^ j - 1) offset bs = Some (p, bs') →
  blocks_ok lo hi bs' ∧ lo ≤ p ∧ p + size ≤ hi ∧
  (p + virt_offset - offset) mod 2 ^ j = 0 ∧
  (∀ x, p ≤ x < p + size → block_free bs x) ∧
  (∀ x, block_free bs' x → block_free bs x ∧ ¬ (p ≤ x < p + size)).
Proof.
  intros Hreg Hreq. pose proof MIN_bounds as HM. pose proof Hreg as (Hlo & Hhi & Hlen).
  assert (∀ lo', lo ≤ lo' → blocks_ok lo' hi bs →
    alloc_scan size (2 ^ j - 1) offset bs = Some (p, bs') →
    blocks_ok lo' hi bs' ∧ lo' ≤ p ∧ p + size ≤ hi ∧ (p + virt_offset - offset) mod 2 ^ j = 0 ∧
    (∀ x, p ≤ x < p + size → block_free bs x) ∧
    (∀ x, block_free bs' x → block_free bs x ∧ ¬ (p ≤ x < p + size))) as Hgen;
    [|intros; apply Hgen; auto; lia].
  revert bs'; induction bs as [|[a s] bs IH]; intros bs' lo' Hlo' Hok Hscan; [done|].
  cbn [blocks_ok alloc_scan] in Hok, Hscan. destruct Hok as (? & ? & ? & Hok).
  destruct (scan_block_arith lo hi size j offset a s) as (Hpre & Hal & Hpost); [done|done|lia|lia|lia|].
  set (pre := Z.land _ _) in *. rewrite Hpost in Hscan.
  pose proof (request_ok_width _ _ Hreq) as (_ & ? & _). destruct Hreq as (? & ? & ?).
  destruct (Z.leb_spec 0 (s - pre - size)).
  - simplify_eq. rewrite (wrap_small _ (a + pre)) by (unfold in_range; lia).
    split_and!; [|lia|lia|done| |].
    + apply split_block_ok; try lia. by replace (a + (pre + size + (s - pre - size))) with (a + s) by lia.
    + intros x ?. apply block_free_cons. lia.
    + intros x [Hx|Hx]%block_free_app.
      * apply split_block_free in Hx; [|lia..]. rewrite block_free_cons. lia.
      * rewrite block_free_cons. apply (block_free_bounds _ _ _ _ Hok) in Hx as Hb. split; [tauto|lia].
  - destruct (alloc_scan _ _ _ bs) as [[p' bs'']|] eqn:Hs; [|done]. simplify_eq.
    destruct (IH bs'' (a + s + 1)) as (? & ? & ? & ? & Hin & Hout); [lia|done|done|].
    split_and!; [cbn; split_and!; auto; lia|lia|done|done| |].
    + intros x ?. apply block_free_cons. eauto.
    + intros x [?|Hx]%block_free_cons; rewrite block_free_cons; [lia|].
      apply Hout in Hx as [? ?]. auto.
Qed.

Lemma total_app bs1 bs2 : total (bs1 ++ bs2) = total bs1 + total bs2.
Proof. induction bs1 as [|[a s] bs1 IH]; cbn; lia. Qed.

Lemma mod_lt_0 x m : 0 ≤ x < m → x mod m = 0 → x = 0.
Proof. intros ?. by rewrite Z.mod_small. Qed.

(** What the split of the free block of [s] bytes at [a] around [size] bytes at [p]
    leaves in the free list: the pieces that can hold a block.  Smaller pieces are
    leaked. *)
Definition left_over (a s p size x : Z) : Prop :=
  (a ≤ x < p ∧ MIN_MEMBLOCK_SIZE ≤ p - a) ∨ (p + size ≤ x < a + s ∧ MIN_MEMBLOCK_SIZE ≤ a + s - (p + size)).

Lemma split_block_left a pre size post x :
  0 ≤ pre → 0 ≤ post → 0 ≤ a + pre + size < 2 ^ size_bits →
  block_free (split_block a pre size post) x ↔ left_over a (pre + size + post) (a + pre) size x.
Proof.
  intros ? ? ?. pose proof MIN_bounds. unfold split_block, left_over. rewrite block_free_app, wrap_small by done.
  destruct (Z.ltb_spec pre MIN_MEMBLOCK_SIZE), (Z.leb_spec MIN_MEMBLOCK_SIZE post);
    rewrite ?block_free_cons, ?block_free_nil; lia.
Qed.

Lemma split_block_total a pre size post :
  0 ≤ pre → 0 ≤ post → total (split_block a pre size post) ≤ pre + post.
Proof. intros ? ?. unfold split_block. destruct (_ <? _), (_ <=? _); cbn; lia. Qed.

(** A successful search takes the block out of one free block and leaves the rest of
    the free list alone. *)
Lemma alloc_scan_taken lo hi size j offset bs p bs' :
  region_ok lo hi → request_ok size j → blocks_ok lo hi bs →
  alloc_scan size (2 ^ j - 1) offset bs = Some (p, bs') →
  total bs' ≤ total bs - size ∧
  ∃ a s, (a, s) ∈ bs ∧ a ≤ p ∧ p + size ≤ a + s ∧
    ∀ x, block_free bs' x ↔ (block_free bs x ∧ ¬ (a ≤ x < a + s)) ∨ left_over a s p size x.
Proof.
  intros Hreg Hreq Hok0. pose proof MIN_bounds as HM. pose proof Hreg as (? & ? & ?).
  pose proof (request_ok_width _ _ Hreq) as (_ & ? & _). pose proof Hreq as (? & ? & ?).
  assert (∃ lo', lo ≤ lo' ∧ blocks_ok lo' hi bs) as (lo' & Hlo & Hok) by (exists lo; auto with lia).
  clear Hok0. revert lo' Hlo Hok bs'; induction bs as [|[a s] bs IH]; intros lo' Hlo Hok bs' Hscan; [done|].
  cbn [blocks_ok alloc_scan] in Hok, Hscan. destruct Hok as (? & ? & ? & Hok).
  destruct (scan_block_arith lo hi size j offset a s) as (Hpre & _ & Hpost); [done|done|lia|lia|lia|].
  set (pre := Z.land _ _) in *. rewrite Hpost in Hscan. pose proof (λ x, block_free_bounds _ _ _ x Hok) as Hb.
  destruct (Z.leb_spec 0 (s - pre - size)).
  - simplify_eq. rewrite (wrap_small _ (a + pre)) by (unfold in_range; lia). split.
    { rewrite total_app. pose proof (split_block_total a pre size (s - pre - size)). cbn. lia. }
    exists a, s. split_and!; [by left|lia|lia|]. intros x. specialize (Hb x).
    rewrite block_free_app, block_free_cons, split_block_left by lia.
    replace (pre + size + (s - pre - size)) with s by lia. split; [intros [?|?]|intros [[[?|?] ?]|?]]; auto; [|tauto].
    left. split; [by right|]. specialize (Hb ltac:(done)). lia.
  - destruct (alloc_scan _ _ _ bs) as [[p' bs'']|] eqn:Hsc; [|done]. simplify_eq.
    destruct (IH (a + s + 1) ltac:(lia) Hok bs'' eq_refl) as (Ht & a' & s' & Hin & Hle & Hge & Hx).
    split; [cbn; lia|]. exists a', s'. split_and!; [by right|done|done|].
    assert (a + s + 1 ≤ a').
    { specialize (Hb a'). destruct (Hb ltac:(apply Exists_exists; exists (a', s'); cbn; split; [done|lia])). lia. }
    intros x. rewrite !block_free_cons, Hx. unfold left_over. split; [|tauto].
    intros [?|[?|?]]; [left; split; [by left|lia]|tauto|by right].
Qed.

(** On granular sizes nothing is leaked by the split. *)
Lemma split_block_granular a pre size post :
  0 ≤ pre → 0 ≤ post → 0 ≤ a + pre + size < 2 ^ size_bits →
  (a + virt_offset) mod MIN_MEMBLOCK_SIZE = 0 → pre mod MIN_MEMBLOCK_SIZE = 0 →
  size mod MIN_MEMBLOCK_SIZE = 0 → post mod MIN_MEMBLOCK_SIZE = 0 →
  granular (split_block a pre size post) ∧ total (split_block a pre size post) = pre + post ∧
  (∀ x, a ≤ x < a + pre ∨ a + pre + size ≤ x < a + pre + size + post →
        block_free (split_block a pre size post) x).
Proof.
  intros ? ? ? Ha Hpre Hsize Hpost. pose proof MIN_bounds as HM. unfold split_block.
  rewrite wrap_small by done.
  assert ((a + pre + size + virt_offset) mod MIN_MEMBLOCK_SIZE = 0).
  { replace (a + pre + size + virt_offset) with (a + virt_offset + pre + size) by lia.
    rewrite Zplus_mod, (Zplus_mod (a + virt_offset)), Ha, Hpre, Hsize. done. }
  destruct (Z.ltb_spec pre MIN_MEMBLOCK_SIZE) as [Hp|Hp], (Z.leb_spec MIN_MEMBLOCK_SIZE post) as [Hq|Hq];
    try (apply mod_lt_0 in Hpre; [|lia]); try (apply mod_lt_0 in Hpost; [|lia]);
    (split_and!; [repeat constructor; cbn; auto|cbn; lia|]);
    intros x; cbn [app]; rewrite ?block_free_cons; lia.
Qed.

Lemma alloc_scan_granular lo hi size j offset bs p bs' :
  region_ok lo hi → request_ok size j → blocks_ok lo hi bs →
  granular bs → size mod MIN_MEMBLOCK_SIZE = 0 → offset mod MIN_MEMBLOCK_SIZE = 0 →
  (MIN_MEMBLOCK_SIZE | 2 ^ j) →
  alloc_scan size (2 ^ j - 1) offset bs = Some (p, bs') →
  granular bs' ∧ total bs' = total bs - size ∧
  (∀ x, block_free bs x → ¬ (p ≤ x < p + size) → block_free bs' x).
Proof.
  intros Hreg Hreq Hok0 Hg Hsize Hoff Hdiv. pose proof MIN_bounds as HM.
  pose proof Hreg as (? & ? & ?). pose proof (request_ok_width _ _ Hreq) as (_ & ? & _).
  pose proof Hreq as (? & ? & ?).
  assert (∃ lo', lo ≤ lo' ∧ blocks_ok lo' hi bs) as (lo' & Hlo & Hok) by (exists lo; auto with lia).
  clear Hok0. revert lo' Hlo Hok bs'; induction bs as [|[a s] bs IH]; intros lo' Hlo Hok bs' Hscan; [done|].
  cbn [blocks_ok alloc_scan] in Hok, Hscan. destruct Hok as (? & ? & ? & Hok).
  apply Forall_cons in Hg as [[Ha Hs] Hg]. cbn in Ha, Hs.
  destruct (scan_block_arith lo hi size j offset a s) as (Hpre & Hal & Hpost); [done|done|lia|lia|lia|].
  set (pre := Z.land _ _) in *. rewrite Hpost in Hscan.
  destruct (Z.leb_spec 0 (s - pre - size)).
  - simplify_eq. rewrite (wrap_small _ (a + pre)) by (unfold in_range; lia).
    assert (pre mod MIN_MEMBLOCK_SIZE = 0) as Hp0.
    { apply Z.mod_divide in Hal; [|lia]. apply (Z.divide_trans _ _ _ Hdiv) in Hal.
      apply Z.mod_divide in Ha; [|lia]. apply Z.mod_divide in Hoff; [|lia]. apply Z.mod_divide; [lia|].
      replace pre with (a + pre + virt_offset - offset - (a + virt_offset) + offset) by lia.
      apply Z.divide_add_r; [|done]. by apply Z.divide_sub_r. }
    assert ((s - pre - size) mod MIN_MEMBLOCK_SIZE = 0) as Hq0.
    { rewrite Zminus_mod, (Zminus_mod s), Hs, Hp0, Hsize. done. }
    destruct (split_block_granular a pre size (s - pre - size)) as (Hg' & Ht & Hx); [lia..|done|done|done|done|].
    split_and!.
    + apply Forall_app; auto.
    + rewrite total_app, Ht. cbn. lia.
    + intros x [?|?]%block_free_cons ?; apply block_free_app; [left; apply Hx; lia|by right].
  - destruct (alloc_scan _ _ _ bs) as [[p' bs'']|] eqn:Hsc; [|done]. simplify_eq.
    destruct (IH Hg (a + s + 1)  ltac:(lia) Hok bs'' eq_refl) as (Hg' & Ht & Hx).
    split_and!; [by constructor|cbn; lia|].
    intros x. rewrite !block_free_cons. naive_solver.
Qed.

(** First fit is complete: a failed search means no free block can hold the
    request at the requested alignment. *)
Lemma alloc_scan_None lo hi size j offset bs :
  region_ok lo hi → request_ok size j → blocks_ok lo hi bs →
  alloc_scan size (2 ^ j - 1) offset bs = None →
  ∀ a s p, (a, s) ∈ bs → a ≤ p → p + size ≤ a + s → (p + virt_offset - offset) mod 2 ^ j ≠ 0.
Proof.
  intros Hreg Hreq Hok0 Hscan a s p. pose proof MIN_bounds as HM.
  assert (∃ lo', lo ≤ lo' ∧ blocks_ok lo' hi bs) as (lo' & Hlo & Hok) by (exists lo; auto with lia).
  clear Hok0. revert lo' Hlo Hok Hscan; induction bs as [|[a' s'] bs IH]; intros lo' Hlo Hok Hscan;
    [by intros ?%elem_of_nil|].
  cbn [blocks_ok alloc_scan] in Hok, Hscan. destruct Hok as (? & ? & ? & Hok).
  destruct (scan_block_arith lo hi size j offset a' s') as (Hpre & Hal & Hpost); [done|done|lia|lia|lia|].
  set (pre := Z.land _ _) in *. rewrite Hpost in Hscan.
  destruct (Z.leb_spec 0 (s' - pre - size)); [done|].
  destruct (alloc_scan _ _ _ bs) as [[p' bs'']|] eqn:Hsc; [done|].
  intros [Heq|Hin]%elem_of_cons; [|by apply (IH (a' + s' + 1)); auto; lia].
  simplify_eq. intros ? ? Hpa. pose proof (request_ok_width _ _ Hreq) as (_ & ? & _).
  apply Z.mod_divide in Hpa; [|lia]. apply Z.mod_divide in Hal; [|lia].
  assert (2 ^ j | pre - (p - a')) as [q Hq].
  { replace (pre - (p - a')) with (a' + pre + virt_offset - offset - (p + virt_offset - offset)) by lia.
    by apply Z.divide_sub_r. }
  assert (0 < q < 1) by nia. lia.
Qed.

(** ** Release: insertion and coalescing *)

(** Reference insertion of the block [(f, fs)]: order by address, merging with
    a block that ends where it starts and with one that starts where it ends. *)
Fixpoint insert_merged (f fs : Z) (blocks : list memory_block) : list memory_block :=
  match blocks with
  | [] => [(f, fs)]
  | (b, s) :: rest =>
      if f + fs <? b then (f, fs) :: (b, s) :: rest
      else if f + fs =? b then (f, fs + s) :: rest
      else if b + s =? f then insert_merged b (s + fs) rest
      else (b, s) :: insert_merged f fs rest
  end.

(** [(f, fs)] is a block of the region that overlaps no free block. *)
Definition disjoint_block (f fs : Z) (blocks : list memory_block) : Prop :=
  ∀ x, f ≤ x < f + fs → ¬ block_free blocks x.

Lemma disjoint_block_cons f fs b s bs :
  0 < fs → 0 < s →
  disjoint_block f fs ((b, s) :: bs) ↔ (f + fs ≤ b ∨ b + s ≤ f) ∧ disjoint_block f fs bs.
Proof.
  intros ? ?. unfold disjoint_block. setoid_rewrite block_free_cons. split.
  - intros Hd. split; [|naive_solver]. destruct (decide (f ≤ b)).
    + destruct (decide (f + fs ≤ b)); [auto|]. exfalso. apply (Hd b); [lia|]. left; lia.
    + destruct (decide (b + s ≤ f)); [auto|]. exfalso. apply (Hd f); [lia|]. left; lia.
  - intros [? Hd] x ? [?|?]; [lia|]. by eapply Hd.
Qed.

Definition free_finish (r : list memory_block * memory_block * Z * list memory_block) : list memory_block :=
  let '(before, (f, fsize), gap_after, rest) := r in
  match rest with
  | [] => before ++ [(f, fsize)]
  | (b, bsize) :: rest =>
      if gap_after =? 0 then before ++ (f, usize (fsize + bsize)) :: rest
      else before ++ (f, fsize) :: (b, bsize) :: rest
  end.

Lemma free_scan_spec lo lo' hi size f fs ga passed bs :
  region_ok lo hi → lo ≤ lo' → lo ≤ f → f + fs ≤ hi → 0 < fs →
  blocks_ok lo' hi bs → disjoint_block f fs bs →
  fs = size ∨ f < lo' →
  free_finish (free_scan size (f, fs) ga passed bs) = passed ++ insert_merged f fs bs.
Proof.
  intros Hreg. pose proof Hreg as (? & ? & ?). pose proof MIN_bounds as HM.
  revert lo' f fs ga passed; induction bs as [|[b s] bs IH];
    intros lo' f fs ga passed Hlo Hf Hfs Hpos Hok Hdis Hsz; [done|].
  cbn [blocks_ok] in Hok. destruct Hok as (? & ? & ? & Hok).
  apply disjoint_block_cons in Hdis as [Hord Hdis]; [|lia..].
  cbn [free_scan insert_merged]. rewrite !swrap_small by lia.
  destruct (Z.eqb_spec (f - (b + s)) 0), (Z.leb_spec 0 (b - (f + fs))); cbn [free_finish]; try lia.
  - destruct Hsz as [->|]; [|lia].
    rewrite (proj2 (Z.ltb_ge _ _)), (proj2 (Z.eqb_neq _ _)), (proj2 (Z.eqb_eq _ _)) by lia.
    rewrite wrap_small by (unfold in_range; lia).
    apply (IH (b + s + 1)); [lia..|done| |right; lia].
    intros x ? Hx. pose proof (block_free_bounds _ _ _ _ Hok Hx). eapply (Hdis x); [lia|done].
  - destruct (Z.eqb_spec (b - (f + fs)) 0).
    + rewrite (proj2 (Z.ltb_ge _ _)), (proj2 (Z.eqb_eq _ _)) by lia.
      by rewrite wrap_small by (unfold in_range; lia).
    + by rewrite (proj2 (Z.ltb_lt _ _)) by lia.
  - rewrite (proj2 (Z.ltb_ge _ _)), !(proj2 (Z.eqb_neq _ _)) by lia.
    rewrite (IH (b + s + 1)); [|lia..|done|done|].
    + by rewrite <- app_assoc.
    + destruct Hsz; [by left|lia].
Qed.

Lemma insert_merged_spec lo hi f fs bs :
  lo ≤ f → f + fs ≤ hi → MIN_MEMBLOCK_SIZE ≤ fs →
  blocks_ok lo hi bs → disjoint_block f fs bs →
  blocks_ok lo hi (insert_merged f fs bs) ∧ total (insert_merged f fs bs) = total bs + fs ∧
  ∀ x, block_free (insert_merged f fs bs) x ↔ block_free bs x ∨ f ≤ x < f + fs.
Proof.
  pose proof MIN_bounds as HM.
  revert lo f fs; induction bs as [|[b s] bs IH]; intros lo f fs Hf Hfs Hpos Hok Hdis.
  { cbn. split_and!; try lia. intros x. rewrite block_free_cons, !block_free_nil. tauto. }
  cbn [blocks_ok] in Hok. destruct Hok as (? & ? & ? & Hok).
  apply disjoint_block_cons in Hdis as [Hord Hdis]; [|lia..]. cbn [insert_merged].
  destruct (Z.ltb_spec (f + fs) b); [|destruct (Z.eqb_spec (f + fs) b); [|destruct (Z.eqb_spec (b + s) f)]].
  - cbn. split_and!; auto; try lia. intros x. rewrite !block_free_cons. tauto.
  - cbn. split_and!; auto; try lia.
    + by replace (f + (fs + s) + 1) with (b + s + 1) by lia.
    + intros x. rewrite !block_free_cons. split; [intros [?|?]|intros [[?|?]|?]]; auto; lia.
  - destruct (IH lo b (s + fs)) as (? & ? & Hx); try lia.
    + eapply blocks_ok_weaken; [|exact Hok]; lia.
    + intros x ? Hx. pose proof (block_free_bounds _ _ _ _ Hok Hx). eapply (Hdis x); [lia|done].
    + cbn. split_and!; auto; try lia. intros x. rewrite Hx, block_free_cons.
      split; [intros [?|?]|intros [[?|?]|?]]; auto; lia.
  - destruct (IH (b + s + 1) f fs) as (? & ? & Hx); auto; try lia.
    cbn. split_and!; auto; try lia. intros x. rewrite !block_free_cons, Hx. tauto.
Qed.

(** The C loop computes the reference insertion. *)
Lemma free_insert_spec lo hi size p bs :
  region_ok lo hi → lo ≤ p → p + size ≤ hi → MIN_MEMBLOCK_SIZE ≤ size →
  blocks_ok lo hi bs → disjoint_block p size bs →
  free_insert size p bs = insert_merged p size bs.
Proof.
  intros. pose proof MIN_bounds. change (free_finish (free_scan size (p, size) (-1) [] bs) = [] ++ insert_merged p size bs).
  eapply (free_scan_spec lo lo hi); eauto; lia.
Qed.

Lemma insert_merged_granular f fs bs :
  granular bs → (f + virt_offset) mod MIN_MEMBLOCK_SIZE = 0 → fs mod MIN_MEMBLOCK_SIZE = 0 →
  granular (insert_merged f fs bs).
Proof.
  revert f fs; induction bs as [|[b s] bs IH]; intros f fs Hg Hf Hfs; cbn [insert_merged].
  { by repeat constructor. }
  apply Forall_cons in Hg as [[Hb Hs] Hg]; cbn in Hb, Hs.
  repeat case_match; repeat (constructor; auto); cbn; auto;
    try (apply IH; auto); rewrite Zplus_mod, Hs, Hfs; done.
Qed.

(** ** Heap-level specifications *)

(** The heap invariant: a coalesced, granular free list whose sizes sum to the
    [freemem] counter. *)
Record heap_ok (lo hi : Z) (h : heap) : Prop := {
  heap_region : region_ok lo hi;
  heap_blocks : blocks_ok lo hi (free_blocks h);
  heap_granular : granular (free_blocks h);
  heap_freemem : freemem h = total (free_blocks h);
}.

Definition is_free (h : heap) (x : Z) : Prop := block_free (free_blocks h) x.

(** Without the granules: pieces that were leaked are still counted in [freemem]. *)
Record heap_wf (lo hi : Z) (h : heap) : Prop := {
  wf_region : region_ok lo hi;
  wf_blocks : blocks_ok lo hi (free_blocks h);
  wf_freemem : total (free_blocks h) ≤ freemem h < 2 ^ size_bits;
}.

Lemma heap_ok_wf lo hi h : heap_ok lo hi h → heap_wf lo hi h.
Proof.
  intros [Hr Hb _ Hf]. constructor; [done..|]. rewrite Hf. pose proof Hr as (? & ? & ?).
  pose proof (blocks_ok_total lo hi (free_blocks h) ltac:(lia) Hb). lia.
Qed.

(** What the callers of alloc_memblock must respect: the size may not be zero,
    the alignment is a power of two, and their sum stays clear of half of the
    address space (the comparisons are made on ssize_t). *)
Definition alloc_request_ok (size k : Z) : Prop :=
  0 < size ∧ 0 ≤ k ∧ size + 2 ^ k + 2 * MIN_MEMBLOCK_SIZE ≤ 2 ^ (size_bits - 1).

(** Callers that keep the heap granular. *)
Definition alloc_args_ok (size k offset : Z) : Prop :=
  alloc_request_ok size k ∧ offset mod MIN_MEMBLOCK_SIZE = 0.

(** What the cache discarders promise: the heap stays well formed ([I]), memory is
    only returned to it, the contents of memory still in use are untouched,
    what the caller holds ([held]) stays in use, and discarding cannot go on
    for ever ([cached] counts what is left). *)
Record discarders_keep (I : heap → Prop) (held : Z → Prop) (cached : world → nat) : Prop := {
  discard_heap_ok d w : d ∈ CACHE_DISCARDERS → I w.1 → I (d w).2.1;
  discard_frees d w x : d ∈ CACHE_DISCARDERS → is_free w.1 x → is_free (d w).2.1 x;
  discard_contents d w x :
    d ∈ CACHE_DISCARDERS → ¬ is_free (d w).2.1 x → mem_get (contents (d w).2.1) x = mem_get (contents w.1) x;
  discard_held d w x : d ∈ CACHE_DISCARDERS → held x → ¬ is_free w.1 x → ¬ is_free (d w).2.1 x;
  discard_progress d w : d ∈ CACHE_DISCARDERS → (d w).1 ≠ 0 → (cached (d w).2 < cached w)%nat;
  discard_idle d w : d ∈ CACHE_DISCARDERS → (d w).1 = 0 → (cached (d w).2 ≤ cached w)%nat;
}.

Definition discarders_ok (lo hi : Z) : (Z → Prop) → (world → nat) → Prop := discarders_keep (heap_ok lo hi).

(** The effect of any number of discards on the heap. *)
Record discarded (I : heap → Prop) (held : Z → Prop) (w w' : world) : Prop := {
  discarded_ok : I w'.1;
  discarded_free x : is_free w.1 x → is_free w'.1 x;
  discarded_contents x : ¬ is_free w'.1 x → mem_get (contents w'.1) x = mem_get (contents w.1) x;
  discarded_held x : held x → ¬ is_free w.1 x → ¬ is_free w'.1 x;
}.

Definition discarded_from (lo hi : Z) : (Z → Prop) → world → world → Prop := discarded (heap_ok lo hi).

Lemma discarded_refl I held w : I w.1 → discarded I held w w.
Proof. by constructor. Qed.

Lemma discarded_trans I held w1 w2 w3 :
  discarded I held w1 w2 → discarded I held w2 w3 → discarded I held w1 w3.
Proof.
  intros [? Hf1 Hc1 ?] [? Hf2 Hc2 ?]. constructor; auto.
  intros x Hx. rewrite Hc2, Hc1; auto.
Qed.

Lemma discard_cache_spec I held cached w :
  discarders_keep I held cached → I w.1 →
  discarded I held w (discard_cache w).2 ∧
  ((discard_cache w).1 ≠ 0 → (cached (discard_cache w).2 < cached w)%nat).
Proof.
  intros Hd Hw. unfold discard_cache.
  assert (∀ table w, table ⊆ CACHE_DISCARDERS → I w.1 →
    discarded I held w (discard_cache_from table w).2 ∧
    (cached (discard_cache_from table w).2 ≤ cached w)%nat ∧
    ((discard_cache_from table w).1 ≠ 0 → (cached (discard_cache_from table w).2 < cached w)%nat)) as Hgen;
    [|destruct (Hgen CACHE_DISCARDERS w) as (? & _ & ?); auto].
  clear w Hw. induction table as [|d table IH]; intros w Hsub Hw; cbn.
  { by split_and!; [apply discarded_refl|lia|]. }
  assert (d ∈ CACHE_DISCARDERS) as Hin by (apply Hsub; constructor).
  assert (discarded I held w (d w).2) as Hdw.
  { constructor; [by apply (discard_heap_ok _ _ _ Hd)|by intros; eapply discard_frees|
      by intros; eapply discard_contents|by intros; eapply discard_held]. }
  pose proof (discard_progress _ _ _ Hd d w Hin) as Hprog.
  pose proof (discard_idle _ _ _ Hd d w Hin) as Hidle.
  destruct (d w) as [n w1]; cbn [fst snd] in *.
  destruct (Z.eqb_spec n 0) as [->|]; cbn; [|by split_and!; auto with lia].
  destruct (IH w1) as (Ht & ? & Hlt); [|by apply Hdw|].
  { intros ? ?. apply Hsub. by constructor. }
  specialize (Hidle eq_refl). split_and!; [by eapply discarded_trans|lia|].
  intros Hn. specialize (Hlt Hn). lia.
Qed.

(** [sz] bytes at [p] have left the free memory of [w], and nothing else has
    changed. *)
Record allocated (lo hi : Z) (w : world) (p sz : Z) (w' : world) : Prop := {
  allocated_ok : heap_ok lo hi w'.1;
  allocated_range : lo ≤ p ∧ p + sz ≤ hi;
  allocated_was_free x : p ≤ x < p + sz → is_free w.1 x;
  allocated_free x : is_free w'.1 x ↔ is_free w.1 x ∧ ¬ (p ≤ x < p + sz);
  allocated_freemem : freemem w'.1 = freemem w.1 - sz;
  allocated_contents : contents w'.1 = contents w.1;
  allocated_rest : w'.2 = w.2;
}.

(** No free block can hold [sz] bytes at an address congruent to [offset]
    modulo [M]. *)
Definition no_room (h : heap) (sz M offset : Z) : Prop :=
  ∀ a s p, (a, s) ∈ free_blocks h → a ≤ p → p + sz ≤ a + s → (p + virt_offset - offset) mod M ≠ 0.

Lemma align_mask_pow k :
  0 ≤ k < size_bits →
  ∃ j, Z.lor (usize (2 ^ k - 1)) (MIN_MEMBLOCK_SIZE - 1) = 2 ^ j - 1 ∧ 0 ≤ j ∧
       (2 ^ k | 2 ^ j) ∧ (MIN_MEMBLOCK_SIZE | 2 ^ j) ∧ 2 ^ j ≤ 2 ^ k + MIN_MEMBLOCK_SIZE ∧
       2 ^ j = Z.max (2 ^ k) MIN_MEMBLOCK_SIZE.
Proof.
  intros Hk. destruct MIN_pow as (m & -> & ? & ? & ?).
  rewrite wrap_small.
  2: { split; [pose proof (Z.pow_pos_nonneg 2 k); lia|].
       pose proof (Z.pow_lt_mono_r 2 k size_bits). lia. }
  rewrite lor_mask by lia. exists (Z.max k m).
  pose proof (Z.pow_pos_nonneg 2 k). pose proof (Z.pow_pos_nonneg 2 m).
  destruct (Z.max_spec k m) as [[? ->]|[? ->]].
  - pose proof (Z.pow_lt_mono_r 2 k m). split_and!; try lia; [|reflexivity].
    exists (2 ^ (m - k)). rewrite <- Z.pow_add_r by lia. f_equal; lia.
  - pose proof (Z.pow_le_mono_r 2 m k). split_and!; try lia; [reflexivity|].
    exists (2 ^ (k - m)). rewrite <- Z.pow_add_r by lia. f_equal; lia.
Qed.

Lemma alloc_scan_heap lo hi h c size j offset p bs :
  heap_ok lo hi h → request_ok size j → size mod MIN_MEMBLOCK_SIZE = 0 → offset mod MIN_MEMBLOCK_SIZE = 0 →
  (MIN_MEMBLOCK_SIZE | 2 ^ j) →
  alloc_scan size (2 ^ j - 1) offset (free_blocks h) = Some (p, bs) →
  (p + virt_offset - offset) mod 2 ^ j = 0 ∧
  allocated lo hi (h, c) p size (Heap bs (usize (freemem h - size)) (contents h), c).
Proof.
  intros [Hr Hb Hg Hf] Hreq Hs Ho Hdiv Hscan.
  destruct (alloc_scan_Some _ _ _ _ _ _ _ _ Hr Hreq Hb Hscan) as (Hb' & ? & ? & Hal & Hin & Hout).
  destruct (alloc_scan_granular _ _ _ _ _ _ _ _ Hr Hreq Hb Hg Hs Ho Hdiv Hscan) as (Hg' & Ht & Hex).
  pose proof (blocks_ok_total_nonneg _ _ _ Hb'). pose proof Hr as (? & ? & ?).
  pose proof (blocks_ok_total lo hi (free_blocks h) ltac:(lia) Hb).
  assert (usize (freemem h - size) = total bs) as Hfm.
  { rewrite Hf, wrap_small; [lia|]. unfold in_range. destruct Hreq. lia. }
  split; [done|]. constructor; cbn; auto.
  - constructor; cbn; auto.
  - intros x. unfold is_free; cbn. split; [apply Hout|]. intros [? ?]. by apply Hex.
  - lia.
Qed.

(** The alloc_memblock loop finds room, possibly after discarding caches, or
    reports that there is none.  [R] is what taking a block found does. *)
Lemma alloc_loop_gen (I : heap → Prop) (R : world → Z → world → Prop) held cached fuel size j offset w :
  (∀ h c p bs, I h → alloc_scan size (2 ^ j - 1) offset (free_blocks h) = Some (p, bs) →
     R (h, c) p (Heap bs (usize (freemem h - size)) (contents h), c)) →
  (∀ h, I h → alloc_scan size (2 ^ j - 1) offset (free_blocks h) = None → no_room h size (2 ^ j) offset) →
  discarders_keep I held cached → I w.1 → (cached w < fuel)%nat →
  ∃ p w1 w', alloc_loop fuel size (2 ^ j - 1) offset w = Some (p, w') ∧ discarded I held w w1 ∧
    ((p = NULL ∧ discarded I held w w' ∧ no_room w1.1 size (2 ^ j) offset) ∨ (I w1.1 ∧ R w1 p w')).
Proof.
  intros Hfound Hnone Hd. revert w; induction fuel as [|fuel IH]; intros w Hw Hfuel; [lia|].
  destruct w as [h c]; cbn [alloc_loop].
  destruct (alloc_scan size (2 ^ j - 1) offset (free_blocks h)) as [[p bs]|] eqn:Hscan.
  - eexists _, (h, c), _. split_and!; [done|by apply discarded_refl|right]. split; [done|]. by apply Hfound.
  - destruct (discard_cache_spec I held cached (h, c) Hd Hw) as [Hdis Hprog].
    destruct (discard_cache (h, c)) as [n w1]; cbn [fst snd] in *.
    destruct (Z.eqb_spec n 0).
    + eexists _, (h, c), _. split_and!; [done|by apply discarded_refl|left]. split_and!; [done|done|]. by apply Hnone.
    + destruct (IH w1) as (p & w2 & w' & Hl & Hdis2 & Hres); [apply Hdis|specialize (Hprog n0); lia|].
      exists p, w2, w'. split_and!; [done|by eapply discarded_trans|].
      destruct Hres as [(? & ? & ?)|?]; [left|by right]. split_and!; [done|by eapply discarded_trans|done].
Qed.

Lemma alloc_loop_spec lo hi held cached fuel size j offset w :
  discarders_ok lo hi held cached → heap_ok lo hi w.1 → request_ok size j →
  size mod MIN_MEMBLOCK_SIZE = 0 → offset mod MIN_MEMBLOCK_SIZE = 0 → (MIN_MEMBLOCK_SIZE | 2 ^ j) →
  (cached w < fuel)%nat →
  ∃ p w1 w', alloc_loop fuel size (2 ^ j - 1) offset w = Some (p, w') ∧
    discarded_from lo hi held w w1 ∧
    ((p = NULL ∧ discarded_from lo hi held w w' ∧ no_room w1.1 size (2 ^ j) offset) ∨
     (p ≠ NULL ∧ (p + virt_offset - offset) mod 2 ^ j = 0 ∧ allocated lo hi w1 p size w')).
Proof.
  intros Hd Hw Hreq Hs Ho Hdiv Hfuel.
  destruct (alloc_loop_gen (heap_ok lo hi)
    (λ w p w', (p + virt_offset - offset) mod 2 ^ j = 0 ∧ allocated lo hi w p size w') held cached fuel size j offset w)
    as (p & w1 & w' & Hl & Hdis & Hres); try done.
  - intros h c p bs Hh Hscan. by apply alloc_scan_heap.
  - intros h Hh Hscan a s p Hin ? ?. by eapply (alloc_scan_None lo hi); try apply Hh.
  - exists p, w1, w'. split_and!; [done..|]. destruct Hres as [?|(Hw1 & Hal & Ha)]; [by left|right].
    split_and!; [|done..]. destruct (allocated_range _ _ _ _ _ _ Ha), (heap_region _ _ _ Hw1). unfold NULL. lia.
Qed.

Lemma alloc_args_round size k :
  alloc_request_ok size k →
  0 ≤ k < size_bits ∧ 0 < size ≤ 2 ^ size_bits - MIN_MEMBLOCK_SIZE ∧
  ∀ j, 0 ≤ j → 2 ^ j ≤ 2 ^ k + MIN_MEMBLOCK_SIZE → request_ok (round_size size) j.
Proof.
  intros (? & ? & ?). pose proof pow_size_bits. pose proof MIN_bounds.
  assert (0 < 2 ^ k) by (apply Z.pow_pos_nonneg; lia).
  assert (k < size_bits) by (apply (Z.pow_lt_mono_r_iff 2); lia).
  split_and!; try lia. intros j ? ?. destruct (round_size_spec size); [lia|].
  split_and!; try lia.
Qed.

Lemma alloc_memblock_spec lo hi held cached fuel size k offset w :
  discarders_ok lo hi held cached → heap_ok lo hi w.1 → alloc_args_ok size k offset →
  (cached w < fuel)%nat →
  ∃ p w1 w', alloc_memblock fuel size (2 ^ k) offset w = Some (p, w') ∧
    discarded_from lo hi held w w1 ∧
    ((p = NULL ∧ discarded_from lo hi held w w' ∧
      no_room w1.1 (round_size size) (Z.max (2 ^ k) MIN_MEMBLOCK_SIZE) offset) ∨
     (p ≠ NULL ∧ (p + virt_offset - offset) mod 2 ^ k = 0 ∧
      (p + virt_offset) mod MIN_MEMBLOCK_SIZE = 0 ∧ allocated lo hi w1 p (round_size size) w')).
Proof.
  intros Hd Hw Hargs Hfuel. unfold alloc_memblock.
  destruct Hargs as [Hargs Ho]. destruct (alloc_args_round _ _ Hargs) as (Hk & Hs & Hreq).
  destruct (align_mask_pow k Hk) as (j & -> & ? & Hkj & Hdiv & Hle & <-).
  destruct (round_size_spec size) as [_ Hm]; [lia|]. pose proof MIN_bounds.
  destruct (alloc_loop_spec lo hi held cached fuel (round_size size) j offset w)
    as (p & w1 & w' & Hl & Hdis & Hres); auto.
  exists p, w1, w'. split_and!; auto. destruct Hres as [?|(? & Hal & ?)]; [by left|right].
  pose proof (Z.pow_pos_nonneg 2 k). pose proof (Z.pow_pos_nonneg 2 j).
  apply Z.mod_divide in Hal; [|lia]. apply Z.mod_divide in Ho; [|lia].
  split_and!; auto; apply Z.mod_divide; [lia| |lia|]; [by eapply Z.divide_trans|].
  replace (p + virt_offset) with (p + virt_offset - offset + offset) by lia.
  apply Z.divide_add_r; [by eapply Z.divide_trans|done].
Qed.

(** [sz] bytes at [p] are taken from one free block: the rest of the free list is
    untouched, and of that block the pieces before and after that can hold a block
    stay free. *)
Record taken (lo hi : Z) (w : world) (p sz : Z) (w' : world) : Prop := {
  taken_wf : heap_wf lo hi w'.1;
  taken_range : lo ≤ p ∧ p + sz ≤ hi;
  taken_free : ∃ a s, (a, s) ∈ free_blocks w.1 ∧ a ≤ p ∧ p + sz ≤ a + s ∧
    ∀ x, is_free w'.1 x ↔ (is_free w.1 x ∧ ¬ (a ≤ x < a + s)) ∨ left_over a s p sz x;
  taken_freemem : freemem w'.1 = freemem w.1 - sz;
  taken_contents : contents w'.1 = contents w.1;
  taken_caches : w'.2 = w.2;
}.

Lemma alloc_scan_wf lo hi size j offset h (c : C) p bs :
  heap_wf lo hi h → request_ok size j →
  alloc_scan size (2 ^ j - 1) offset (free_blocks h) = Some (p, bs) →
  let w' := (Heap bs (usize (freemem h - size)) (contents h), c) in
  (p + virt_offset - offset) mod 2 ^ j = 0 ∧ taken lo hi (h, c) p size w' ∧
  (granular (free_blocks h) → size mod MIN_MEMBLOCK_SIZE = 0 → offset mod MIN_MEMBLOCK_SIZE = 0 →
   (MIN_MEMBLOCK_SIZE | 2 ^ j) → ∀ x, is_free w'.1 x ↔ is_free h x ∧ ¬ (p ≤ x < p + size)).
Proof.
  intros [Hr Hb Hf] Hreq Hscan. pose proof Hr as (? & ? & ?). pose proof Hreq as (? & _).
  destruct (alloc_scan_Some lo hi size j offset (free_blocks h) p bs) as (Hb' & ? & ? & Hal & Hin & Hout); auto.
  destruct (alloc_scan_taken lo hi size j offset (free_blocks h) p bs) as (Ht & Htk); auto.
  pose proof (blocks_ok_total_nonneg lo hi _ Hb').
  assert (usize (freemem h - size) = freemem h - size) as Hfm by (apply wrap_small; unfold in_range; lia).
  cbn zeta. split_and!; [done| |].
  - constructor; cbn; auto. constructor; cbn; auto. lia.
  - intros Hg Hs Ho Hdiv x. split; [by apply Hout|]. intros [? ?].
    destruct (alloc_scan_granular lo hi size j offset (free_blocks h) p bs) as (_ & _ & Hx); auto. by apply Hx.
Qed.


(** A block in use: [size] bytes requested at [p], rounded up, inside the
    region, on a granule and disjoint from the free memory. *)
Record in_use (lo hi : Z) (h : heap) (p size : Z) : Prop := {
  in_use_size : 0 < size ≤ 2 ^ size_bits - MIN_MEMBLOCK_SIZE;
  in_use_range : lo ≤ p ∧ p + round_size size ≤ hi;
  in_use_granule : (p + virt_offset) mod MIN_MEMBLOCK_SIZE = 0;
  in_use_not_free x : p ≤ x < p + round_size size → ¬ is_free h x;
}.

Lemma free_memblock_spec lo hi w p size :
  heap_ok lo hi w.1 → in_use lo hi w.1 p size →
  heap_ok lo hi (free_memblock p size w).1 ∧
  (∀ x, is_free (free_memblock p size w).1 x ↔ is_free w.1 x ∨ p ≤ x < p + round_size size) ∧
  freemem (free_memblock p size w).1 = freemem w.1 + round_size size ∧
  contents (free_memblock p size w).1 = contents w.1 ∧
  (free_memblock p size w).2 = w.2.
Proof.
  intros [Hr Hb Hg Hf] [Hs Hrng Hgr Hnf]. pose proof Hr as (? & ? & ?).
  unfold free_memblock, NULL. rewrite (proj2 (Z.eqb_neq _ _)) by lia.
  destruct w as [h c]; cbn [fst snd] in *.
  pose proof (round_size_pos size Hs). destruct (round_size_spec size) as [_ Hm]; [lia|].
  rewrite (free_insert_spec lo hi); auto; [|lia..].
  destruct (insert_merged_spec lo hi p (round_size size) (free_blocks h)) as (Hb' & Ht & Hx); auto; try lia.
  pose proof (blocks_ok_total lo hi _ ltac:(lia) Hb'). pose proof (blocks_ok_total_nonneg lo hi _ Hb).
  assert (usize (freemem h + round_size size) = freemem h + round_size size) as Hfm.
  { apply wrap_small. unfold in_range. pose proof pow_size_bits. pose proof MIN_bounds. lia. }
  split_and!; cbn; auto. constructor; cbn; auto.
  - by apply insert_merged_granular.
  - lia.
Qed.

(** C2: free_memblock returns exactly the bytes of a block in use to the free
    memory, keeps the free list ordered and coalesced, and keeps [freemem]
    equal to the sum of the free block sizes. *)
Theorem free_memblock_correct lo hi w p size :
  heap_ok lo hi w.1 → in_use lo hi w.1 p size →
  heap_ok lo hi (free_memblock p size w).1 ∧
  (∀ x, is_free (free_memblock p size w).1 x ↔ is_free w.1 x ∨ p ≤ x < p + round_size size) ∧
  freemem (free_memblock p size w).1 = freemem w.1 + round_size size ∧
  contents (free_memblock p size w).1 = contents w.1.
Proof. intros Hw Hu. destruct (free_memblock_spec lo hi w p size) as (? & ? & ? & ? & _); auto. Qed.

Lemma allocated_in_use lo hi w1 p size w' :
  heap_ok lo hi w1.1 → 0 < size ≤ 2 ^ size_bits - MIN_MEMBLOCK_SIZE →
  (p + virt_offset) mod MIN_MEMBLOCK_SIZE = 0 →
  allocated lo hi w1 p (round_size size) w' → in_use lo hi w'.1 p size.
Proof.
  intros Hw Hs Hg [? ? ? Hfree _ _ _]. constructor; auto.
  intros x ? [_ Hx]%Hfree. by apply Hx.
Qed.

(** Freeing what was just allocated restores the whole world. *)
Lemma free_allocated lo hi w1 p size w' :
  heap_ok lo hi w1.1 → 0 < size ≤ 2 ^ size_bits - MIN_MEMBLOCK_SIZE →
  (p + virt_offset) mod MIN_MEMBLOCK_SIZE = 0 →
  allocated lo hi w1 p (round_size size) w' → free_memblock p size w' = w1.
Proof.
  intros Hw Hs Hg Ha. pose proof (allocated_in_use _ _ _ _ _ _ Hw Hs Hg Ha) as Hu.
  destruct Ha as [Hok' ? Hwas Hfree Hfm Hct Hrest].
  destruct (free_memblock_spec lo hi w' p size Hok' Hu) as (Hok2 & Hx & Hfm2 & Hct2 & Hrest2).
  destruct (free_memblock p size w') as [[bs fm ct] c2], w1 as [[bs1 fm1 ct1] c1].
  destruct Hw as [_ Hb1 _ _], Hok2 as [_ Hb2 _ _]. cbn [fst snd free_blocks freemem contents] in *.
  f_equal; [|congruence]. f_equal; [|lia|congruence].
  eapply (blocks_ok_canonical lo lo hi); eauto.
  intros x. specialize (Hx x). specialize (Hfree x). specialize (Hwas x). unfold is_free in *; cbn in *.
  destruct (decide (p ≤ x < p + round_size size)); tauto.
Qed.

(** freeing a freshly allocated block restores the heap exactly as it was
    when the block was taken: same free list, same counter, same contents. *)
Lemma alloc_free_roundtrip lo hi held cached fuel size k offset w p w' :
  discarders_ok lo hi held cached → heap_ok lo hi w.1 → alloc_args_ok size k offset →
  (cached w < fuel)%nat →
  alloc_memblock fuel size (2 ^ k) offset w = Some (p, w') → p ≠ NULL →
  discarded_from lo hi held w (free_memblock p size w').
Proof.
  intros Hd Hw Hargs Hfuel Halloc Hp.
  destruct (alloc_memblock_spec lo hi held cached fuel size k offset w)
    as (p1 & w1 & w1' & Halloc' & Hdis & Hres); auto.
  rewrite Halloc in Halloc'. simplify_eq.
  destruct Hres as [(? & _)|(_ & _ & Hg & Ha)]; [done|].
  destruct (alloc_args_round _ _ (proj1 Hargs)) as (_ & Hs & _).
  rewrite (free_allocated lo hi w1); auto. apply Hdis.
Qed.

(** ** realloc *)

(** The block behind a pointer returned by malloc/realloc: its header holds
    the total size requested, and the block is in use. *)
Definition autosized (lo hi : Z) (h : heap) (ptr total_size : Z) : Prop :=
  load_size (contents h) (ptr - autosized_data) = total_size ∧ autosized_data < total_size ∧
  in_use lo hi h (ptr - autosized_data) total_size.

(** The addresses of that block. *)
Definition autosized_extent (ptr total_size x : Z) : Prop :=
  ptr - autosized_data ≤ x < ptr - autosized_data + round_size total_size.

Lemma load_store_size m a v : in_range size_bits v → load_size (store_size m a v) a = v.
Proof.
  intros Hv. unfold load_size, store_size. rewrite mem_read_write_eq by (by rewrite length_le_split).
  rewrite le_combine_split. apply Z.mod_small. revert Hv. unfold in_range, size_bits.
  destruct size_bits_cases as [[-> _]|[-> _]]; done.
Qed.

Lemma load_size_ext m m' a :
  (∀ x, a ≤ x < a + sizeof_ptr → mem_get m x = mem_get m' x) → load_size m a = load_size m' a.
Proof.
  intros He. unfold load_size. f_equal. apply mem_read_ext. intros x Hx. apply He.
  pose proof sizeof_ptr_pos. lia.
Qed.

Lemma mem_get_store_size m a v x : x < a ∨ a + sizeof_ptr ≤ x → mem_get (store_size m a v) x = mem_get m x.
Proof.
  intros Hx. unfold store_size. rewrite mem_get_write, length_le_split, decide_False; [done|].
  pose proof sizeof_ptr_pos. lia.
Qed.

(** Moving the old contents into a fresh block and freeing the old one. *)
Lemma realloc_move_spec lo hi w old_ptr total_size new_ptr new_size :
  heap_ok lo hi w.1 → autosized lo hi w.1 old_ptr total_size → old_ptr ≠ NOWHERE → 0 < new_size →
  (∀ x, new_ptr ≤ x < new_ptr + new_size → ¬ is_free w.1 x ∧ ¬ autosized_extent old_ptr total_size x) →
  let w' := realloc_move old_ptr new_ptr new_size w in
  let len := Z.to_nat (Z.min (total_size - autosized_data) new_size) in
  heap_ok lo hi w'.1 ∧
  (∀ x, is_free w'.1 x ↔ is_free w.1 x ∨ autosized_extent old_ptr total_size x) ∧
  mem_read (contents w'.1) new_ptr len = mem_read (contents w.1) old_ptr len ∧
  (∀ x, ¬ (new_ptr ≤ x < new_ptr + new_size) → mem_get (contents w'.1) x = mem_get (contents w.1) x).
Proof.
  intros Hw (Hld & Hgt & Hu) Hnw Hns Hdis w' len. unfold autosized_extent in *.
  pose proof (heap_region _ _ _ Hw) as (? & ? & ?). pose proof (in_use_range _ _ _ _ _ Hu).
  pose proof (in_use_size _ _ _ _ _ Hu). destruct (round_size_spec total_size) as [? _]; [lia|].
  assert (0 < autosized_data) by apply sizeof_ptr_pos.
  subst w'. unfold realloc_move, NULL.
  rewrite !(proj2 (Z.eqb_neq _ _)), Hld by (auto; lia). cbn [negb andb].
  rewrite wrap_small by (unfold in_range; lia).
  replace (Z.to_nat (if _ <? _ then _ else _)) with len
    by (subst len; destruct (Z.ltb_spec (total_size - autosized_data) new_size); lia).
  set (w2 := set_contents _ w).
  assert (heap_ok lo hi w2.1) as Hw2 by (destruct Hw; by constructor).
  assert (in_use lo hi w2.1 (old_ptr - autosized_data) total_size) as Hu2 by (destruct Hu; by constructor).
  destruct (free_memblock_spec lo hi w2 _ _ Hw2 Hu2) as (? & Hfree & _ & Hct & _).
  split_and!; auto; rewrite Hct; cbn.
  - rewrite mem_read_write_eq; [done|by rewrite length_mem_read].
  - intros x Hx. rewrite mem_get_write, length_mem_read, decide_False; [done|]. lia.
Qed.

Lemma autosized_discarded lo hi held w w1 ptr total_size :
  discarded_from lo hi held w w1 → (∀ x, autosized_extent ptr total_size x → held x) →
  autosized lo hi w.1 ptr total_size → autosized lo hi w1.1 ptr total_size.
Proof.
  intros [_ _ Hct Hheld] Hh (Hld & ? & Hu). unfold autosized_extent in *.
  pose proof (in_use_size _ _ _ _ _ Hu). destruct (round_size_spec total_size) as [? _]; [lia|].
  assert (∀ x, ptr - autosized_data ≤ x < ptr - autosized_data + round_size total_size → ¬ is_free w1.1 x) as Hnf.
  { intros x ?. apply Hheld; [by apply Hh|by apply (in_use_not_free _ _ _ _ _ Hu)]. }
  split_and!; auto.
  - rewrite <- Hld. apply load_size_ext. intros x ?. apply Hct, Hnf. unfold autosized_data in *. lia.
  - destruct Hu; by constructor.
Qed.

(** The first half of realloc: a fresh block [b] with its header stored leaves
    the old block [ptr] in use, with its contents, and disjoint from it. *)
Lemma realloc_fresh lo hi held w w1 w2 ptr total_size b size :
  discarded_from lo hi held w w1 → autosized lo hi w1.1 ptr total_size →
  autosized_data ≤ round_size size → allocated lo hi w1 b (round_size size) w2 →
  let w3 := set_contents (store_size (contents w2.1) b size) w2 in
  heap_ok lo hi w3.1 ∧ autosized lo hi w3.1 ptr total_size ∧
  (∀ x, autosized_extent ptr total_size x → ¬ (b ≤ x < b + round_size size)) ∧
  (∀ x, autosized_extent ptr total_size x → mem_get (contents w3.1) x = mem_get (contents w.1) x).
Proof.
  intros Hdis (Hld1 & Hgt1 & Hu1) Hsz [Hok2 Hrng Hwas Hfree _ Hct2 _] w3. unfold autosized_data in *.
  pose proof (in_use_size _ _ _ _ _ Hu1) as Hts. destruct (round_size_spec total_size) as [Hrt _]; [lia|].
  assert (∀ x, autosized_extent ptr total_size x → ¬ (b ≤ x < b + round_size size)) as Hsep.
  { intros x Hx ?. eapply (in_use_not_free _ _ _ _ _ Hu1 x); [exact Hx|]. by apply Hwas. }
  assert (∀ x, autosized_extent ptr total_size x → mem_get (contents w3.1) x = mem_get (contents w1.1) x) as Hct3.
  { intros x Hx. cbn. rewrite mem_get_store_size, Hct2; [done|]. specialize (Hsep x Hx). lia. }
  split_and!; auto.
  - destruct Hok2; by constructor.
  - split_and!; [|done|].
    + rewrite <- Hld1. apply load_size_ext. intros x ?. apply Hct3.
      unfold autosized_extent, autosized_data in *. lia.
    + destruct Hu1 as [? ? ? Hnf]. constructor; auto.
      intros x Hx. change (¬ is_free w2.1 x). rewrite Hfree. intros [? _]. by eapply Hnf.
  - intros x Hx. rewrite Hct3 by done. apply (discarded_contents _ _ _ _ Hdis).
    by apply (in_use_not_free _ _ _ _ _ Hu1).
Qed.

(** The whole success path of realloc. *)
Lemma realloc_success lo hi held w w1 w2 ptr total_size b new_size :
  discarded_from lo hi held w w1 → autosized lo hi w1.1 ptr total_size → ptr ≠ NOWHERE → 0 < new_size →
  new_size + autosized_data ≤ 2 ^ size_bits - MIN_MEMBLOCK_SIZE →
  (b + virt_offset) mod MIN_MEMBLOCK_SIZE = 0 →
  allocated lo hi w1 b (round_size (new_size + autosized_data)) w2 →
  let w3 := set_contents (store_size (contents w2.1) b (new_size + autosized_data)) w2 in
  let w' := realloc_move ptr (b + autosized_data) new_size w3 in
  let len := Z.to_nat (Z.min (total_size - autosized_data) new_size) in
  heap_ok lo hi w'.1 ∧ autosized lo hi w'.1 (b + autosized_data) (new_size + autosized_data) ∧
  mem_read (contents w'.1) (b + autosized_data) len = mem_read (contents w.1) ptr len ∧
  ∀ x, autosized_extent ptr total_size x → is_free w'.1 x.
Proof.
  intros Hdis Hauto1 Hnw Hns Hs Hg Ha w3 w' len. pose proof sizeof_ptr_pos as Hptr. pose proof MIN_bounds as HM.
  destruct (round_size_spec (new_size + autosized_data)) as [Hrs _]; [unfold autosized_data in *; lia|].
  destruct (realloc_fresh lo hi held w w1 w2 ptr total_size b (new_size + autosized_data))
    as (Hok3 & Hauto3 & Hsep & Hct3); auto; [lia|]. fold w3 in Hok3, Hauto3, Hct3.
  assert (0 < new_size + autosized_data ≤ 2 ^ size_bits - MIN_MEMBLOCK_SIZE) as Hs' by (unfold autosized_data in *; lia).
  pose proof (allocated_in_use _ _ _ _ _ _ (discarded_ok _ _ _ _ Hdis) Hs' Hg Ha) as [Hu1 Hu2 Hu3 Hnf].
  destruct (realloc_move_spec lo hi w3 ptr total_size (b + autosized_data) new_size)
    as (Hok & Hfr & Hrd & Hoth); auto.
  { intros x ?. unfold autosized_data in *. split.
    - change (¬ is_free w2.1 x). apply Hnf. lia.
    - intros Hx. apply (Hsep x Hx). lia. }
  destruct Hauto1 as (_ & Hgt & Hu). destruct (round_size_spec total_size) as [Hrt _]; [pose proof (in_use_size _ _ _ _ _ Hu); lia|].
  unfold autosized_data in *. split_and!; auto.
  - split_and!; [|unfold autosized_data; lia|]; unfold autosized_data; rewrite Z.add_simpl_r.
    + etrans; [|apply (load_store_size (contents w2.1) b); unfold in_range; lia].
      apply load_size_ext. intros x ?. subst w'. rewrite Hoth by lia. done.
    + constructor; auto. intros x Hx. subst w'. rewrite Hfr. intros [Hx1|Hx1]; [by apply (Hnf x)|by apply (Hsep x)].
  - subst w' len. rewrite Hrd. apply mem_read_ext. intros x ?. apply Hct3.
    unfold autosized_extent, autosized_data in *. lia.
  - intros x Hx. apply Hfr. by right.
Qed.

(** C3: realloc of a live block to a new non-zero size returns.  On success the
    first min(old,new) bytes are carried over, the new block is in use with its
    size recorded and the old block is free; on failure NULL is returned and
    the old block and its contents are untouched. *)
Theorem realloc_correct lo hi held cached fuel ptr total_size new_size w :
  discarders_ok lo hi held cached → heap_ok lo hi w.1 →
  autosized lo hi w.1 ptr total_size → ptr ≠ NOWHERE →
  (∀ x, autosized_extent ptr total_size x → held x) →
  0 < new_size → alloc_args_ok (new_size + autosized_data) 0 0 → (cached w < fuel)%nat →
  let len := Z.to_nat (Z.min (total_size - autosized_data) new_size) in
  ∃ p w', realloc fuel ptr new_size w = Some (p, w') ∧ heap_ok lo hi w'.1 ∧
    ((p = NULL ∧ autosized lo hi w'.1 ptr total_size ∧
      ∀ x, autosized_extent ptr total_size x → mem_get (contents w'.1) x = mem_get (contents w.1) x) ∨
     (p ≠ NULL ∧ autosized lo hi w'.1 p (new_size + autosized_data) ∧
      mem_read (contents w'.1) p len = mem_read (contents w.1) ptr len ∧
      ∀ x, autosized_extent ptr total_size x → is_free w'.1 x)).
Proof.
  intros Hd Hw Hauto Hnw Hheld Hns Hargs Hfuel len. pose proof sizeof_ptr_pos as Hptr.
  pose proof MIN_bounds as HM. pose proof pow_size_bits as Hpow.
  destruct (alloc_args_round _ _ (proj1 Hargs)) as (_ & Hs & _).
  destruct (round_size_spec (new_size + autosized_data)) as [Hrs _]; [lia|].
  unfold realloc. rewrite (proj2 (Z.eqb_neq new_size 0)) by lia. cbn [negb].
  rewrite (wrap_small _ (new_size + autosized_data)) by (unfold in_range; lia).
  destruct (alloc_memblock_spec lo hi held cached fuel (new_size + autosized_data) 0 0 w)
    as (b & w1 & w2 & Halloc & Hdis & Hres); auto.
  change (2 ^ 0) with 1 in Halloc. rewrite Halloc.
  pose proof (autosized_discarded _ _ _ _ _ _ _ Hdis Hheld Hauto) as Hauto1.
  destruct Hres as [(-> & Hdis2 & _)|(Hb & _ & Hg & Ha)].
  { rewrite Z.eqb_refl. eexists _, _. split_and!; [done|by apply Hdis2|left]. split_and!; [done| |].
    - by apply (autosized_discarded _ _ _ _ _ _ _ Hdis2 Hheld Hauto).
    - intros x Hx. apply (discarded_contents _ _ _ _ Hdis2), (discarded_held _ _ _ _ Hdis2); [by apply Hheld|].
      destruct Hauto as (_ & _ & Hu). by apply (in_use_not_free _ _ _ _ _ Hu). }
  rewrite (proj2 (Z.eqb_neq b NULL)) by done.
  destruct (allocated_range _ _ _ _ _ _ Ha), (heap_region _ _ _ (allocated_ok _ _ _ _ _ _ Ha)) as (? & ? & ?).
  rewrite (wrap_small _ (b + autosized_data)) by (unfold in_range, autosized_data in *; lia).
  destruct (realloc_success lo hi held w w1 w2 ptr total_size b new_size) as (? & ? & ? & ?); auto; [lia|].
  eexists _, _. split_and!; [done|done|right]. split_and!; auto. unfold NULL, autosized_data. lia.
Qed.

End malloc.

(** ** fls *)

Lemma shiftr_land_zero x k w : 0 ≤ k → 0 ≤ w → 0 ≤ x < 2 ^ (k + w) →
  Z.land x (Z.shiftl (Z.ones w) k) = 0 → x < 2 ^ k.
Proof.
  intros ? ? Hx Hl. destruct (decide (x < 2 ^ k)) as [|Hge]; [done|exfalso].
  set (n := Z.log2 x).
  assert (0 < 2 ^ k) by (apply Z.pow_pos_nonneg; lia).
  assert (k ≤ n) by (apply Z.log2_le_pow2; lia).
  assert (n < k + w) by (apply Z.log2_lt_pow2; lia).
  assert (Z.testbit (Z.land x (Z.shiftl (Z.ones w) k)) n = true) as Ht.
  { rewrite Z.land_spec, Z.shiftl_spec, Z.ones_spec_low by lia. rewrite Z.bit_log2 by lia. done. }
  by rewrite Hl, Z.bits_0 in Ht.
Qed.

(** One halving step of the search. *)
Definition fls_stage (k : Z) (xr : Z * Z) : Z * Z :=
  let '(x, r) := xr in
  if negb (Z.land x (Z.shiftl (Z.ones k) k) =? 0) then (Z.shiftr x k, r + k) else (x, r).

(** After a step [x] has at most [k] bits and the bits found above it are
    counted in [r]. *)
Lemma fls_stage_spec k x r :
  0 ≤ k → 0 ≤ x < 2 ^ (k + k) →
  0 ≤ (fls_stage k (x, r)).1 < 2 ^ k ∧
  (0 < x → 0 < (fls_stage k (x, r)).1 ∧
           (fls_stage k (x, r)).2 + Z.log2 (fls_stage k (x, r)).1 = r + Z.log2 x) ∧
  (x = 0 → fls_stage k (x, r) = (0, r)).
Proof.
  unfold fls_stage.
  intros ? Hx. destruct (Z.eqb_spec (Z.land x (Z.shiftl (Z.ones k) k)) 0) as [Hz|Hz]; cbn.
  - apply shiftr_land_zero in Hz; [|lia..]. split_and!; [lia|lia|lia|by intros ->].
  - assert (0 < 2 ^ k) by (apply Z.pow_pos_nonneg; lia).
    assert (2 ^ k ≤ x).
    { destruct (decide (2 ^ k ≤ x)) as [|Hlt]; [done|]. exfalso. apply Hz.
      apply Z.bits_inj'. intros n Hn. rewrite Z.land_spec, Z.shiftl_spec, Z.bits_0 by lia.
      destruct (decide (n < k)); [rewrite (Z.testbit_neg_r (Z.ones k)) by lia; apply andb_false_r|].
      destruct (decide (x = 0)) as [->|]; [by rewrite Z.bits_0|].
      rewrite Z.bits_above_log2; [done|lia|]. apply Z.log2_lt_pow2; [lia|].
      assert (2 ^ k ≤ 2 ^ n) by (apply Z.pow_le_mono_r; lia). lia. }
    rewrite Z.shiftr_div_pow2 by lia. rewrite Z.pow_add_r in Hx by lia.
    assert (0 < x / 2 ^ k) by (apply Z.div_str_pos; lia).
    split_and!; [lia|apply Z.div_lt_upper_bound; lia| |lia].
    intros _. split; [lia|]. rewrite <- Z.shiftr_div_pow2, Z.log2_shiftr by lia.
    assert (k ≤ Z.log2 x) by (apply Z.log2_le_pow2; lia). lia.
Qed.

Lemma fls_stages x :
  fls x =
    let '(x, r) := fls_stage 32 (x, 0) in let '(x, r) := fls_stage 16 (x, r) in
    let '(x, r) := fls_stage 8 (x, r) in let '(x, r) := fls_stage 4 (x, r) in
    let '(x, r) := fls_stage 2 (x, r) in let '(x, r) := fls_stage 1 (x, r) in
    if negb (Z.land x 1 =? 0) then r + 1 else r.
Proof. reflexivity. Qed.

(** fls (the constant-expression version) returns the number of the most
    significant set bit, counting from one, for every 64-bit value, and zero
    for zero. *)
Lemma fls_correct x : in_range 64 x → fls x = if x =? 0 then 0 else Z.log2 x + 1.
Proof.
  intros Hx. rewrite fls_stages.
  assert (∀ k y r y' r', 0 ≤ k → 0 ≤ y < 2 ^ (k + k) → fls_stage k (y, r) = (y', r') →
    0 ≤ y' < 2 ^ k ∧ (0 < y → 0 < y' ∧ r' + Z.log2 y' = r + Z.log2 y) ∧ (y = 0 → y' = 0 ∧ r' = r)) as Hst.
  { intros k y r y' r' ? ? E. destruct (fls_stage_spec k y r) as (? & ? & Hz); auto.
    rewrite E in *. cbn in *. split_and!; auto; [lia|lia|]. intros Hy. specialize (Hz Hy). by simplify_eq. }
  destruct (fls_stage 32 (x, 0)) as [x1 r1] eqn:E1. apply Hst in E1 as (? & ? & ?); [|lia|exact Hx].
  destruct (fls_stage 16 (x1, r1)) as [x2 r2] eqn:E2. apply Hst in E2 as (? & ? & ?); [|lia|done].
  destruct (fls_stage 8 (x2, r2)) as [x3 r3] eqn:E3. apply Hst in E3 as (? & ? & ?); [|lia|done].
  destruct (fls_stage 4 (x3, r3)) as [x4 r4] eqn:E4. apply Hst in E4 as (? & ? & ?); [|lia|done].
  destruct (fls_stage 2 (x4, r4)) as [x5 r5] eqn:E5. apply Hst in E5 as (? & ? & ?); [|lia|done].
  destruct (fls_stage 1 (x5, r5)) as [x6 r6] eqn:E6. apply Hst in E6 as (? & ? & ?); [|lia|done].
  unfold in_range in Hx. destruct (Z.eqb_spec x 0) as [->|].
  - repeat match goal with H : 0 = 0 → _ ∧ _ |- _ => destruct (H eq_refl) as [-> ->]; clear H end. done.
  - assert (0 < x) by lia.
    repeat match goal with H : 0 < ?y → _, H' : 0 < ?y |- _ => destruct (H H') as [? ?]; clear H end.
    assert (x6 = 1) as -> by lia. change (Z.log2 1) with 0 in *.
    change (if negb (Z.land 1 1 =? 0) then r6 + 1 else r6) with (r6 + 1). lia.
Qed.

(** ** Clients of the allocator *)

(** The memory each client operation hands out or takes back, for a build
    without cache discarders: the blocks currently held, as (address,
    requested size) pairs, next to the heap. *)
Section clients.
Context `{Platform}.

Record client : Type := Client { c_heap : heap; c_live : list (Z * Z) }.

(** One call of the allocator by some client.  Any alignment and any offset may
    be asked for; only a block that is held may be freed, with its size. *)
Inductive client_step : client → client → Prop :=
| step_alloc fuel size k offset h live p h' :
    0 < size → 0 ≤ k → size + 2 ^ k + 2 * MIN_MEMBLOCK_SIZE ≤ 2 ^ (size_bits - 1) →
    alloc_memblock [] fuel size (2 ^ k) offset (h, tt) = Some (p, (h', tt)) →
    client_step (Client h live) (Client h' (if p =? NULL then live else (p, size) :: live))
| step_free h live1 p size live2 :
    client_step (Client h (live1 ++ (p, size) :: live2))
                (Client (free_memblock p size (h, tt)).1 (live1 ++ live2)).

(** How many of the given extents contain the address [x]. *)
Fixpoint owners (bs : list memory_block) (x : Z) : Z :=
  match bs with
  | [] => 0
  | (a, s) :: bs => (if decide (a ≤ x < a + s) then 1 else 0) + owners bs x
  end.

Definition live_extents (live : list (Z * Z)) : list memory_block :=
  (λ b, (b.1, round_size b.2)) <$> live.

(** The client invariant: the free list is well formed and every address has
    at most one owner among the free blocks and the blocks held. *)
Record client_inv (lo hi : Z) (c : client) : Prop := {
  client_region : region_ok lo hi;
  client_blocks : blocks_ok lo hi (free_blocks (c_heap c));
  client_live : Forall (λ b, 0 < b.2 ≤ 2 ^ size_bits - MIN_MEMBLOCK_SIZE ∧
                             lo ≤ b.1 ∧ b.1 + round_size b.2 ≤ hi) (c_live c);
  client_owners x : owners (free_blocks (c_heap c)) x + owners (live_extents (c_live c)) x ≤ 1;
}.

Lemma owners_nonneg bs x : 0 ≤ owners bs x.
Proof. induction bs as [|[a s] bs IH]; cbn; [lia|]. destruct (decide _); lia. Qed.

Lemma owners_app bs1 bs2 x : owners (bs1 ++ bs2) x = owners bs1 x + owners bs2 x.
Proof. induction bs1 as [|[a s] bs1 IH]; cbn; [lia|]. destruct (decide _); lia. Qed.

Lemma owners_free bs x : 0 < owners bs x ↔ block_free bs x.
Proof.
  induction bs as [|[a s] bs IH]; cbn; [rewrite block_free_nil; lia|].
  rewrite block_free_cons. pose proof (owners_nonneg bs x). destruct (decide _); [lia|]. rewrite <- IH. lia.
Qed.

Lemma owners_blocks_ok lo hi bs x : blocks_ok lo hi bs → owners bs x ≤ 1.
Proof.
  revert lo; induction bs as [|[a s] bs IH]; intros lo; cbn [blocks_ok owners]; [lia|].
  intros (? & ? & ? & Hok). specialize (IH _ Hok). destruct (decide (a ≤ x < a + s)); [|lia].
  assert (¬ 0 < owners bs x); [|lia].
  rewrite owners_free. intros Hx. pose proof (block_free_bounds _ _ _ _ Hok Hx). lia.
Qed.

(** The free list and the extents are disjoint iff no address is counted twice. *)
Lemma owners_sum_free lo hi bs ext x :
  blocks_ok lo hi bs → owners bs x + owners ext x ≤ 1 ↔ owners ext x ≤ 1 ∧ (block_free bs x → owners ext x = 0).
Proof.
  intros Hok. pose proof (owners_blocks_ok _ _ _ x Hok). pose proof (owners_nonneg bs x).
  pose proof (owners_nonneg ext x). rewrite <- owners_free. lia.
Qed.

Lemma alloc_loop_no_caches fuel size mask offset h p h' :
  alloc_loop [] fuel size mask offset (h, tt) = Some (p, (h', tt)) →
  (∃ bs, alloc_scan size mask offset (free_blocks h) = Some (p, bs) ∧ free_blocks h' = bs) ∨
  (p = NULL ∧ h' = h).
Proof.
  destruct fuel as [|fuel]; [done|]. cbn.
  destruct (alloc_scan size mask offset (free_blocks h)) as [[p' bs]|] eqn:E;
    intros; simplify_eq; [left; eauto|by right].
Qed.

Lemma client_alloc_inv lo hi size k offset h live p bs :
  0 < size → 0 ≤ k → size + 2 ^ k + 2 * MIN_MEMBLOCK_SIZE ≤ 2 ^ (size_bits - 1) →
  client_inv lo hi (Client h live) →
  alloc_scan (round_size size) (Z.lor (usize (2 ^ k - 1)) (MIN_MEMBLOCK_SIZE - 1)) offset (free_blocks h) = Some (p, bs) →
  ∀ h', free_blocks h' = bs → p ≠ NULL ∧ client_inv lo hi (Client h' ((p, size) :: live)).
Proof.
  intros Hs Hk Hsum [Hr Hb Hl Ho] Hscan h' Hh'. cbn [c_heap c_live] in *.
  destruct (alloc_args_round size k) as (Hk' & Hs' & Hreq).
  { by split_and!. }
  destruct (align_mask_pow k Hk') as (j & Hj & ? & _ & _ & Hle & _). rewrite Hj in Hscan.
  destruct (alloc_scan_Some lo hi (round_size size) j offset (free_blocks h) p bs)
    as (Hb' & ? & ? & _ & Hin & Hout); auto.
  split; [pose proof Hr as (? & _); unfold NULL; lia|].
  assert (blocks_ok lo hi (free_blocks h')) by (by rewrite Hh').
  constructor; cbn [c_heap c_live]; auto.
  intros x. rewrite Hh'. specialize (Ho x). rewrite (owners_sum_free _ _ _ _ _ Hb) in Ho.
  rewrite (owners_sum_free lo hi) by done. specialize (Hin x). specialize (Hout x).
  change (live_extents ((p, size) :: live)) with ((p, round_size size) :: live_extents live).
  cbn [owners]. destruct (decide (p ≤ x < p + round_size size)).
  - destruct Ho as [_ Ho]. rewrite (Ho (Hin ltac:(done))). split; [lia|]. tauto.
  - destruct Ho as [? Ho]. split; [lia|]. intros Hx. rewrite Ho; [lia|]. by apply Hout.
Qed.

Lemma client_free_inv lo hi h live1 p size live2 :
  client_inv lo hi (Client h (live1 ++ (p, size) :: live2)) →
  client_inv lo hi (Client (free_memblock p size (h, tt)).1 (live1 ++ live2)).
Proof.
  intros [Hr Hb Hl Ho]. cbn [c_heap c_live] in *. pose proof Hr as (? & ? & ?).
  apply Forall_app in Hl as [Hl1 [Hl Hl2]%Forall_cons]. cbn in Hl. destruct Hl as (Hs & ? & ?).
  unfold free_memblock, NULL. rewrite (proj2 (Z.eqb_neq _ _)) by lia. pose proof (round_size_pos size Hs).
  assert (∀ x, owners (free_blocks h) x + (owners (live_extents live1) x +
    ((if decide (p ≤ x < p + round_size size) then 1 else 0) + owners (live_extents live2) x)) ≤ 1) as Ho'.
  { intros x. specialize (Ho x). unfold live_extents in *. rewrite fmap_app, fmap_cons, owners_app in Ho.
    cbn [owners fst snd] in Ho. lia. }
  assert (disjoint_block p (round_size size) (free_blocks h)) as Hdis.
  { intros x Hx Hf%owners_free. specialize (Ho' x). rewrite decide_True in Ho' by done.
    pose proof (owners_nonneg (live_extents live1) x). pose proof (owners_nonneg (live_extents live2) x). lia. }
  destruct (insert_merged_spec lo hi p (round_size size) (free_blocks h)) as (Hb' & _ & Hx); auto.
  rewrite <- (free_insert_spec lo hi) in Hb', Hx by auto.
  constructor; cbn [c_heap c_live fst free_blocks]; auto; [by apply Forall_app|].
  intros x. rewrite (owners_sum_free lo hi) by done. rewrite Hx. specialize (Ho' x).
  unfold live_extents in *. rewrite fmap_app, owners_app. rewrite <- owners_free.
  pose proof (owners_nonneg (free_blocks h) x). pose proof (owners_nonneg (live_extents live1) x).
  pose proof (owners_nonneg (live_extents live2) x). unfold live_extents in *. destruct (decide _); lia.
Qed.

Lemma client_step_inv lo hi c c' : client_step c c' → client_inv lo hi c → client_inv lo hi c'.
Proof.
  intros Hstep Hinv. destruct Hstep as [fuel size k offset h live p h' ? ? ? Halloc|]; [|by apply client_free_inv].
  apply alloc_loop_no_caches in Halloc as [(bs & Hscan & Hbs)|[-> ->]]; [|done].
  destruct (client_alloc_inv lo hi size k offset h live p bs) with (h' := h') as [Hp ?]; auto.
  by rewrite (proj2 (Z.eqb_neq p NULL)).
Qed.

(** A heap just populated by init_heap from the static array at [heap]. *)
Definition initial_client (heap : Z) (m : mem) : client :=
  Client (init_heap heap (Heap [] 0 m, tt)).1 [].

Lemma initial_client_inv heap m :
  region_ok heap (heap + HEAP_SIZE) → client_inv heap (heap + HEAP_SIZE) (initial_client heap m).
Proof.
  intros Hr. pose proof Hr as (? & ? & ?). unfold initial_client, init_heap, mpopulate, free_memblock, NULL.
  rewrite (proj2 (Z.eqb_neq _ _)) by lia.
  assert (round_size (Z.land HEAP_SIZE (Z.lnot (MIN_MEMBLOCK_SIZE - 1))) = HEAP_SIZE) as ->.
  { unfold round_size. destruct MIN_cases as [(-> & _ & ->)|(-> & _ & ->)]; vm_compute; done. }
  pose proof MIN_bounds. constructor; cbn -[HEAP_SIZE]; auto.
  - unfold HEAP_SIZE in *. lia.
  - intros x. destruct (decide _); lia.
Qed.

(** C4: whatever sequence of allocations (of any alignment and offset) and
    releases follows the initialisation of the heap, no byte is ever owned
    twice: live blocks do not overlap each other or the free list, and all of
    them lie inside the heap. *)
Theorem allocator_ownership heap m c :
  region_ok heap (heap + HEAP_SIZE) → rtc client_step (initial_client heap m) c →
  (∀ x, owners (free_blocks (c_heap c) ++ live_extents (c_live c)) x ≤ 1) ∧
  Forall (λ b, heap ≤ b.1 ∧ b.1 + round_size b.2 ≤ heap + HEAP_SIZE) (c_live c).
Proof.
  intros Hr Hsteps.
  assert (client_inv heap (heap + HEAP_SIZE) c) as [_ _ Hl Ho].
  { pose proof (initial_client_inv heap m Hr) as Hinv. revert Hinv.
    induction Hsteps; eauto using client_step_inv. }
  split; [intros x; rewrite owners_app; apply Ho|]. eapply Forall_impl; [exact Hl|]. naive_solver.
Qed.

End clients.

(** ** Instances at a concrete heap *)

Lemma no_discarders_keep `{Platform} {C} I held (cached : heap * C → nat) : discarders_keep [] I held cached.
Proof. constructor; intros; by exfalso; eapply not_elem_of_nil. Qed.

Lemma no_discarders_ok `{Platform} {C} lo hi held (cached : heap * C → nat) :
  discarders_ok [] lo hi held cached.
Proof. apply no_discarders_keep. Qed.

Definition demo_heap : heap := Heap [(0x10000, 0x1000)] 0x1000 ∅.

Lemma demo_region_ok : region_ok (H := i386) 0x10000 0x11000.
Proof. by vm_compute. Qed.

Lemma demo_heap_ok : heap_ok (H := i386) 0x10000 0x11000 demo_heap.
Proof.
  constructor; [exact demo_region_ok|by vm_compute| |done].
  repeat constructor; by vm_compute.
Qed.


(** With an offset of 0 the block is the first 112 bytes of the heap. *)
Definition demo_heap' : heap := Heap [(0x10070, 0xf90)] 0xf90 ∅.

Lemma demo_in_use : in_use (H := i386) 0x10000 0x11000 demo_heap' 0x10000 100.
Proof.
  constructor; [by vm_compute|by vm_compute|by vm_compute|].
  unfold is_free. intros x Hx. change (round_size (H := i386) 100) with 112 in Hx.
  cbn [demo_heap' free_blocks]. rewrite block_free_cons, block_free_nil. lia.
Qed.

Lemma demo_heap'_ok : heap_ok (H := i386) 0x10000 0x11000 demo_heap'.
Proof.
  constructor; [exact demo_region_ok|by vm_compute| |done].
  repeat constructor; by vm_compute.
Qed.

Lemma free_memblock_correct_witness :
  free_memblock (H := i386) 0x10000 100 (demo_heap', tt) = (demo_heap, tt) ∧
  heap_ok (H := i386) 0x10000 0x11000 (free_memblock (H := i386) 0x10000 100 (demo_heap', tt)).1.
Proof.
  split; [by vm_compute|].
  exact (proj1 (@free_memblock_correct i386 unit 0x10000 0x11000 (demo_heap', tt) 0x10000 100
                 demo_heap'_ok demo_in_use)).
Defined.

(** A heap whose first granules hold a malloc()ed block: header 100, 96 data
    bytes, pointer 0x10004. *)
Definition demo_heap_data : heap :=
  Heap [(0x10070, 0xf90)] 0xf90 (mem_write ∅ 0x10000 (le_split 4 100 ++ [1; 2; 3])).

Lemma realloc_correct_witness :
  ∃ p w', realloc (H := i386) [] 1 0x10004 200 (demo_heap_data, tt) = Some (p, w') ∧
    heap_ok (H := i386) 0x10000 0x11000 w'.1.
Proof.
  destruct (@realloc_correct i386 unit [] 0x10000 0x11000 (λ _, True) (λ _, O) 1 0x10004 100 200
              (demo_heap_data, tt)) as (p & w' & Hr & Hok & _).
  - apply no_discarders_ok.
  - destruct demo_heap'_ok. by constructor.
  - split_and!; [by vm_compute|by vm_compute|]. destruct demo_in_use. by constructor.
  - by vm_compute.
  - done.
  - lia.
  - by vm_compute.
  - lia.
  - exists p, w'. auto.
Defined.

Lemma allocator_ownership_witness :
  ∃ c, rtc (client_step (H := i386)) (initial_client (H := i386) 0x100000 ∅) c ∧ c_live c = [(0x100000, 24)] ∧
    Forall (λ b, 0x100000 ≤ b.1 ∧ b.1 + round_size (H := i386) b.2 ≤ 0x100000 + HEAP_SIZE) (c_live c).
Proof.
  eexists. assert (rtc (client_step (H := i386)) (initial_client (H := i386) 0x100000 ∅)
    (Client (Heap [(0x100020, 0x7ffe0)] 0x7ffe0 ∅) [(0x100000, 24)])) as Hsteps.
  { apply rtc_once. apply (step_alloc (H := i386) 1 24 0 0 _ [] 0x100000); by vm_compute. }
  split; [exact Hsteps|]. split; [done|].
  exact (proj2 (@allocator_ownership i386 0x100000 ∅ _ ltac:(by vm_compute) Hsteps)).
Defined.
