(* ===== verification/Tcpip.v ===== *)
(** * Transport-network layer interface (src/net/tcpip.c, src/arch/x86/core/x86_tcpip.c)

    The Internet checksum in its portable form and in the x86 assembly form
    (add-with-carry over machine words), local port selection, and the dispatch
    between the transport-layer and network-layer protocol tables.  The host is
    little-endian, as is every architecture of the tree. *)

From S2P Require Import Prelude.

(** ** Byte order on a little-endian host *)

Definition bswap16 (x : Z) : Z := Z.lor (Z.shiftl (Z.land x 0xff) 8) (Z.shiftr (Z.land x 0xff00) 8).
Definition be16_to_cpu (x : Z) : Z := bswap16 x.
Definition le16_to_cpu (x : Z) : Z := x.
Definition ntohs (x : Z) : Z := bswap16 x.
Definition htons (x : Z) : Z := bswap16 x.

(** ** Checksums *)

Definition TCPIP_EMPTY_CSUM : Z := 0xffff.

(** The for loop of generic_tcpip_continue_chksum, from byte index [i] on. *)
Fixpoint chksum_loop (i : Z) (cksum : Z) (data : bytes) : Z :=
  match data with
  | [] => cksum
  | byte :: data =>
      let value := if negb (Z.land i 1 =? 0) then be16_to_cpu byte else le16_to_cpu byte in
      let cksum := u32 (cksum + value) in
      let cksum := if 0xffff <? cksum then u32 (cksum - 0xffff) else cksum in
      chksum_loop (i + 1) cksum data
  end.

Definition generic_tcpip_continue_chksum (partial : Z) (data : bytes) : Z :=
  let cksum := Z.land (Z.lnot partial) 0xffff in
  u16 (Z.lnot (chksum_loop 0 cksum data)).

Definition tcpip_chksum (data : bytes) : Z := generic_tcpip_continue_chksum TCPIP_EMPTY_CSUM data.

(** ** The x86 version *)

Section x86.
Context `{Platform}.

(** The register holding [sum] and the carry flag. *)
Definition adc_state : Type := Z * bool.

(** adcw w, %w0: add with carry on the low 16 bits of the register. *)
Definition adcw (w : Z) (st : adc_state) : adc_state :=
  let '(sum, cf) := st in
  let t := sum mod 2 ^ 16 + w + Z.b2z cf in
  (sum - sum mod 2 ^ 16 + t mod 2 ^ 16, 2 ^ 16 <=? t).

(** adc word, %0: add with carry on the whole register. *)
Definition adcl (word : Z) (st : adc_state) : adc_state :=
  let '(sum, cf) := st in
  let t := sum + word + Z.b2z cf in
  (t mod 2 ^ size_bits, 2 ^ size_bits <=? t).

(** adcb (%1), %b0 ; adcb $0, %h0: add a byte to the low byte, then the carry
    to the next byte. *)
Definition adcb_final (byte : Z) (st : adc_state) : adc_state :=
  let '(sum, cf) := st in
  let t := sum mod 2 ^ 8 + byte + Z.b2z cf in
  let sum := sum - sum mod 2 ^ 8 + t mod 2 ^ 8 in
  let cf := 2 ^ 8 <=? t in
  let hi := (sum / 2 ^ 8) mod 2 ^ 8 + Z.b2z cf in
  (sum - sum mod 2 ^ 16 + sum mod 2 ^ 8 + 2 ^ 8 * (hi mod 2 ^ 8), 2 ^ 8 <=? hi).

(** A "lods ; adc" loop of [n] steps over units of [sz] bytes. *)
Fixpoint lods_loop (step : Z → adc_state → adc_state) (sz : nat) (n : nat)
    (data : bytes) (st : adc_state) : bytes * adc_state :=
  match n with
  | O => (data, st)
  | S n => lods_loop step sz n (drop sz data) (step (le_combine (take sz data)) st)
  end.

(** push %0 ; popw ... : the 16-bit words of the register, added with carry. *)
Definition fold_down (st : adc_state) : adc_state :=
  let '(sum, cf) := st in
  let word i := (sum / 2 ^ (16 * i)) mod 2 ^ 16 in
  let st := adcw (word 1) (word 0, cf) in
  let st := if 32 <? size_bits then adcw (word 3) (adcw (word 2) st) else st in
  adcw 0 (adcw 0 st).

(** [addr] is the address of the buffer, on which the number of initial 16-bit
    words depends. *)
Definition x86_tcpip_continue_chksum (partial : Z) (addr : Z) (data : bytes) : Z :=
  let sum := Z.land (Z.lnot partial) 0xffff in
  let len := Z.of_nat (length data) in
  let sizeof_sum := sizeof_ptr in
  let initial_word_count :=
    if sizeof_sum <=? len
    then Z.shiftr (Z.land (usize (- addr)) (sizeof_sum - 1)) 1
    else 0 in
  let len := len - initial_word_count * 2 in
  let loop_count := len / (sizeof_sum * 16) in
  let loop_partial_count := (len mod (sizeof_sum * 16)) / sizeof_sum in
  let final_word_count := (len mod sizeof_sum) / 2 in
  let final_byte := Z.land len 1 in
  let st := (sum, false) in
  let '(data, st) := lods_loop adcw 2 (Z.to_nat initial_word_count) data st in
  let '(data, st) :=
    lods_loop adcl (Z.to_nat sizeof_sum) (Z.to_nat (loop_partial_count + 16 * loop_count)) data st in
  let '(data, st) := lods_loop adcw 2 (Z.to_nat final_word_count) data st in
  let st := if final_byte =? 1 then adcb_final (default 0 (head data)) st else st in
  let '(sum, _) := fold_down st in
  Z.land (Z.lnot sum) 0xffff.
End x86.

(** ** Local port selection *)

Definition TCPIP_BIND_PRIVILEGED : Z := 0x0400.

(** The port is kept in network order; what follows it depends on the address
    family. *)
Record sockaddr_tcpip : Type := SockaddrTcpip { st_family : Z; st_flags : Z; st_port : Z; st_pad : bytes }.

(** The for loop of tcpip_bind: [n] iterations from index [i]. *)
Fixpoint bind_loop (available : Z → res Z) (min_port max_port offset : Z) (n : nat) (i : Z) : res Z :=
  match n with
  | O => Err EADDRINUSE
  | S n =>
      let try_port := u16 (Z.land (u32 (i + offset)) max_port) in
      if try_port <? min_port then bind_loop available min_port max_port offset n (i + 1)
      else match available try_port with
           | Err _ => bind_loop available min_port max_port offset n (i + 1)
           | Ok _ => Ok try_port
           end
  end.

Definition tcpip_bind (st_local : option sockaddr_tcpip) (available : Z → res Z) (random : Z) : res Z :=
  let '(flags, try_port) :=
    match st_local with
    | Some st => (st_flags st, ntohs (st_port st))
    | None => (0, 0)
    end in
  if negb (try_port =? 0) then available try_port
  else
    let min_port := u16 (Z.land (if flags =? 0 then 1 else 0) TCPIP_BIND_PRIVILEGED + 1) in
    let max_port := u16 (Z.land flags TCPIP_BIND_PRIVILEGED - 1) in
    let offset := u32 random in
    bind_loop available min_port max_port offset (Z.to_nat (max_port + 1)) 0.

(** ** Protocol dispatch *)

(** The space reserved for the headers of the network and the link layer. *)
Definition MAX_LL_NET_HEADER_LEN : Z := 36 + 40.

(** The IP statistics: one unsigned long per counter of struct ip_statistics. *)
Inductive ip_counter : Set :=
| in_receives | in_octets | in_hdr_errors | in_addr_errors | in_unknown_protos | in_truncated_pkts
| reasm_reqds | reasm_oks | reasm_fails | in_delivers
| out_requests | out_no_routes | out_transmits | out_octets
| in_mcast_pkts | out_mcast_pkts | in_bcast_pkts | out_bcast_pkts.

#[export] Instance ip_counter_eq_dec : EqDecision ip_counter.
Proof. solve_decision. Defined.

Definition ip_statistics : Type := ip_counter → Z.

Definition stat_add `{Platform} (c : ip_counter) (n : Z) (stats : ip_statistics) : ip_statistics :=
  λ c', if decide (c' = c) then usize (stats c + n) else stats c'.

(** The network stack outside this file: its state [S], network devices [D]
    and I/O buffers [B]. *)
Section dispatch.
Context `{Platform} {S D B : Type}.
Context (free_iob : B → S → S).

Record tcpip_protocol : Type := {
  tp_proto : Z;
  tp_rx : B → D → sockaddr_tcpip → sockaddr_tcpip → Z → S → res unit * S;
}.

Record tcpip_net_protocol : Type := {
  tn_sa_family : Z;
  tn_header_len : Z;
  tn_tx : B → tcpip_protocol → option sockaddr_tcpip → sockaddr_tcpip → option D → option Z → S → res unit * S;
  tn_netdev : sockaddr_tcpip → S → option D;
}.

(** The members of struct net_device that tcpip_mtu reads. *)
Context (max_pkt_len ll_header_len : D → Z).

(** [stats] is a pointer: it applies an update to the statistics in the state. *)
Fixpoint tcpip_rx (TCPIP_PROTOCOLS : list tcpip_protocol) (iobuf : B) (netdev : D) (proto : Z)
    (st_src st_dest : sockaddr_tcpip) (pshdr_csum : Z) (stats : (ip_statistics → ip_statistics) → S → S) (s : S)
    : res unit * S :=
  match TCPIP_PROTOCOLS with
  | tcpip :: rest =>
      if tp_proto tcpip =? proto then
        tp_rx tcpip iobuf netdev st_src st_dest pshdr_csum (stats (stat_add in_delivers 1) s)
      else tcpip_rx rest iobuf netdev proto st_src st_dest pshdr_csum stats s
  | [] =>
      (Err EPROTONOSUPPORT, free_iob iobuf (stats (stat_add in_unknown_protos 1) s))
  end.

Fixpoint find_net_protocol (TCPIP_NET_PROTOCOLS : list tcpip_net_protocol) (st_dest : sockaddr_tcpip)
    : option tcpip_net_protocol :=
  match TCPIP_NET_PROTOCOLS with
  | tcpip_net :: rest =>
      if tn_sa_family tcpip_net =? st_family st_dest then Some tcpip_net
      else find_net_protocol rest st_dest
  | [] => None
  end.

(** [trans_csum] points into the I/O buffer: it is the offset of the checksum. *)
Definition tcpip_tx (TCPIP_NET_PROTOCOLS : list tcpip_net_protocol) (iobuf : B)
    (proto : tcpip_protocol) (st_src : option sockaddr_tcpip) (st_dest : sockaddr_tcpip)
    (netdev : option D) (trans_csum : option Z) (s : S) : res unit * S :=
  match find_net_protocol TCPIP_NET_PROTOCOLS st_dest with
  | Some tcpip_net => tn_tx tcpip_net iobuf proto st_src st_dest netdev trans_csum s
  | None => (Err EAFNOSUPPORT, free_iob iobuf s)
  end.

Definition tcpip_netdev (TCPIP_NET_PROTOCOLS : list tcpip_net_protocol) (st_dest : sockaddr_tcpip) (s : S)
    : option D :=
  match find_net_protocol TCPIP_NET_PROTOCOLS st_dest with
  | Some tcpip_net => tn_netdev tcpip_net st_dest s
  | None => None
  end.

Definition tcpip_mtu (TCPIP_NET_PROTOCOLS : list tcpip_net_protocol) (st_dest : sockaddr_tcpip) (s : S) : Z :=
  match find_net_protocol TCPIP_NET_PROTOCOLS st_dest with
  | None => 0
  | Some tcpip_net =>
      match tn_netdev tcpip_net st_dest s with
      | None => 0
      | Some netdev => usize (max_pkt_len netdev - ll_header_len netdev - tn_header_len tcpip_net)
      end
  end.

Lemma tcpip_rx_find protocols iobuf netdev proto st_src st_dest pshdr_csum stats s :
  tcpip_rx protocols iobuf netdev proto st_src st_dest pshdr_csum stats s =
    match find (λ tcpip, tp_proto tcpip =? proto) protocols with
    | Some tcpip => tp_rx tcpip iobuf netdev st_src st_dest pshdr_csum (stats (stat_add in_delivers 1) s)
    | None => (Err EPROTONOSUPPORT, free_iob iobuf (stats (stat_add in_unknown_protos 1) s))
    end.
Proof. induction protocols as [|t l IH]; cbn; [done|]. by destruct (_ =? _). Qed.
End dispatch.

(** ** One's complement sums *)

(** The plain sum of the 16-bit little-endian words of a buffer (an odd last
    byte counts as the low byte of a word). *)
Fixpoint csum (odd : bool) (data : bytes) : Z :=
  match data with
  | [] => 0
  | b :: data => (if odd then 256 * b else b) + csum (negb odd) data
  end.

(** Two non-negative sums with the same one's complement representation: equal
    modulo 0xffff, and zero together. *)
Record ones_equiv (S T : Z) : Prop := {
  ones_nonneg : 0 ≤ S ∧ 0 ≤ T;
  ones_mod : S mod 0xffff = T mod 0xffff;
  ones_zero : S = 0 ↔ T = 0;
}.
Infix "≈" := ones_equiv (at level 70).

Lemma ones_refl S : 0 ≤ S → S ≈ S.
Proof. by constructor. Qed.

#[export] Instance ones_sym : Symmetric ones_equiv.
Proof. intros S T [? ? ?]. constructor; intuition auto. Qed.

#[export] Instance ones_trans : Transitive ones_equiv.
Proof. intros S T U [? ? ?] [? ? ?]. constructor; [lia|congruence|intuition]. Qed.

Lemma ones_add S S' T T' : S ≈ S' → T ≈ T' → S + T ≈ S' + T'.
Proof.
  intros [? Hm ?] [? Hm' ?]. constructor; [lia| |lia].
  by rewrite Zplus_mod, Hm, Hm', <- Zplus_mod.
Qed.

(** Multiplying by a power of 2^16 (moving words up) changes nothing. *)
Lemma ones_mul S M : 0 ≤ S → 0 < M → M mod 0xffff = 1 → M * S ≈ S.
Proof.
  intros ? ? HM. constructor; [nia| |nia].
  rewrite Zmult_mod, HM, Z.mul_1_l. apply Zmod_mod.
Qed.

(** 16-bit representatives are unique. *)
Lemma ones_unique r r' : 0 ≤ r ≤ 0xffff → 0 ≤ r' ≤ 0xffff → r ≈ r' → r = r'.
Proof.
  intros ? ? [_ Hm Hz]. destruct (decide (r = 0)); [lia|]. destruct (decide (r' = 0)); [lia|].
  destruct (decide (r = 0xffff)) as [->|], (decide (r' = 0xffff)) as [->|]; auto.
  - rewrite Z.mod_same, (Z.mod_small r') in Hm by lia. lia.
  - rewrite Z.mod_same, (Z.mod_small r) in Hm by lia. lia.
  - rewrite !Z.mod_small in Hm by lia. done.
Qed.

Lemma csum_nonneg odd data : is_bytes data → 0 ≤ csum odd data.
Proof.
  intros Hd; revert odd; induction Hd as [|b data Hb _ IH]; intros odd; cbn; [lia|].
  specialize (IH (negb odd)). unfold in_range in Hb. destruct odd; lia.
Qed.

Lemma csum_app odd d1 d2 :
  csum odd (d1 ++ d2) = csum odd d1 + csum (if Nat.even (length d1) then odd else negb odd) d2.
Proof.
  revert odd; induction d1 as [|b d1 IH]; intros odd; cbn [app csum length]; [done|].
  rewrite IH, Nat.even_succ, <- Nat.negb_even.
  destruct (Nat.even (length d1)), odd; cbn [negb]; lia.
Qed.

(** A buffer read as one little-endian integer has the same sum. *)
Lemma le_combine_csum data : is_bytes data → le_combine data ≈ csum false data.
Proof.
  intros Hd. assert (256 * le_combine data ≈ csum true data ∧ le_combine data ≈ csum false data) as [_ ?]; [|done].
  induction Hd as [|b data Hb Hd [IH1 IH2]]; cbn; [split; by apply ones_refl|].
  unfold in_range in Hb. pose proof (le_combine_range data Hd). split.
  - replace (256 * (b + 256 * le_combine data)) with (256 * b + 65536 * le_combine data) by lia.
    apply ones_add; [apply ones_refl; lia|]. etrans; [|exact IH2]. by apply ones_mul; [lia..|].
  - apply ones_add; [apply ones_refl; lia|done].
Qed.

(** ** The portable loop *)

Lemma bswap16_byte b : is_byte b → bswap16 b = 256 * b.
Proof.
  intros Hb. unfold in_range in Hb. unfold bswap16.
  change 0xff with (2 ^ 8 - 1). rewrite land_mask by lia. rewrite Z.mod_small by lia.
  replace (Z.land b 0xff00) with 0.
  - rewrite Z.shiftr_0_l, Z.lor_0_r, Z.shiftl_mul_pow2 by lia. lia.
  - symmetry. apply Z.bits_inj'. intros n Hn. rewrite Z.land_spec, Z.bits_0.
    destruct (decide (n < 8)).
    + assert (n = 0 ∨ n = 1 ∨ n = 2 ∨ n = 3 ∨ n = 4 ∨ n = 5 ∨ n = 6 ∨ n = 7) as Hc by lia.
      destruct_or! Hc; subst; apply andb_false_r.
    + destruct (decide (b = 0)) as [->|]; [by rewrite Z.bits_0|].
      rewrite Z.bits_above_log2; [done|lia|]. apply Z.log2_lt_pow2; [lia|].
      assert (2 ^ 8 ≤ 2 ^ n) by (apply Z.pow_le_mono_r; lia). lia.
Qed.

Lemma land_1_odd i : negb (Z.land i 1 =? 0) = Z.odd i.
Proof.
  replace (Z.land i 1) with (i mod 2) by (symmetry; apply (land_mask i 1); lia).
  rewrite Zmod_odd. by destruct (Z.odd i).
Qed.

Lemma chksum_loop_spec i c data :
  is_bytes data → 0 ≤ c ≤ 0xffff →
  0 ≤ chksum_loop i c data ≤ 0xffff ∧ chksum_loop i c data ≈ c + csum (Z.odd i) data.
Proof.
  intros Hd; revert i c; induction Hd as [|b data Hb Hd IH]; intros i c Hc; cbn [chksum_loop csum].
  { rewrite Z.add_0_r. split; [done|]. apply ones_refl; lia. }
  rewrite land_1_odd. unfold be16_to_cpu, le16_to_cpu. rewrite (bswap16_byte b Hb).
  unfold in_range in Hb. set (v := if Z.odd i then 256 * b else b).
  assert (0 ≤ v ≤ 0xff00) by (subst v; destruct (Z.odd i); lia).
  rewrite (wrap_small 32 (c + v)) by (unfold in_range; lia).
  set (c' := if 0xffff <? c + v then _ else _).
  assert (0 ≤ c' ≤ 0xffff ∧ c' ≈ c + v) as [Hc' Hcv].
  { subst c'. destruct (Z.ltb_spec 0xffff (c + v)).
    - rewrite wrap_small by (unfold in_range; lia). split; [lia|].
      constructor; [lia| |lia]. rewrite Zminus_mod, Z_mod_same_full, Z.sub_0_r. apply Zmod_mod.
    - split; [lia|]. apply ones_refl. lia. }
  destruct (IH (i + 1) c' Hc') as [? Hrec]. split; [done|]. etrans; [exact Hrec|].
  rewrite Z.add_1_r, Z.odd_succ, <- Z.negb_odd, Z.add_assoc.
  apply ones_add; [done|]. apply ones_refl. by apply csum_nonneg.
Qed.

Lemma lnot16 x : in_range 16 x → u16 (Z.lnot x) = 0xffff - x ∧ Z.land (Z.lnot x) 0xffff = 0xffff - x.
Proof.
  intros Hx. unfold in_range in Hx.
  assert (Z.lnot x mod 2 ^ 16 = 0xffff - x) as Hm.
  { unfold Z.lnot. symmetry. apply (Z.mod_unique _ _ (-1)); lia. }
  split; [exact Hm|]. change 0xffff with (2 ^ 16 - 1). by rewrite land_mask.
Qed.

Lemma generic_chksum_spec partial data :
  in_range 16 partial → is_bytes data →
  ∃ s, generic_tcpip_continue_chksum partial data = 0xffff - s ∧ 0 ≤ s ≤ 0xffff ∧
       s ≈ (0xffff - partial) + csum false data.
Proof.
  intros Hp Hd. unfold generic_tcpip_continue_chksum. rewrite (proj2 (lnot16 _ Hp)).
  unfold in_range in Hp. destruct (chksum_loop_spec 0 (0xffff - partial) data) as [? ?]; [done|lia|].
  exists (chksum_loop 0 (0xffff - partial) data). split_and!; auto; try lia.
  apply lnot16. unfold in_range. lia.
Qed.

(** ** The x86 version computes the same sum *)

Section x86_proofs.
Context `{Platform}.

(** The register and carry flag together represent the sum [S]. *)
Definition adc_rep (st : adc_state) (S : Z) : Prop :=
  0 ≤ st.1 < 2 ^ size_bits ∧ st.1 + Z.b2z st.2 ≈ S.

Lemma size_bits_mod : 2 ^ size_bits mod 0xffff = 1 ∧ 2 ^ 32 ≤ 2 ^ size_bits ∧ (2 ^ 16 | 2 ^ size_bits).
Proof.
  destruct size_bits_cases as [[_ ->]|[_ ->]]; (split_and!; [done|done|]);
    [exists (2 ^ 16)|exists (2 ^ 48)]; done.
Qed.

(** A carry out of a multiple of 16 bits is worth one. *)
Lemma carry_wrap A t M :
  0 ≤ A → 0 ≤ t < 2 * M → 0 < M → M mod 0xffff = 1 →
  A + t mod M + Z.b2z (M <=? t) ≈ A + t.
Proof.
  intros ? Ht ? HM.
  assert (t = t mod M + M * Z.b2z (M <=? t)) as Heq.
  { destruct (Z.leb_spec M t); cbn [Z.b2z]; [|rewrite Z.mod_small by lia; lia].
    replace t with (t - M + 1 * M) at 2 by lia. rewrite Z_mod_plus_full, Z.mod_small by lia. lia. }
  pose proof (Z.mod_pos_bound t M). rewrite Heq at 3. rewrite Z.add_assoc.
  assert (0 ≤ Z.b2z (M <=? t)) by (destruct (_ <=? _); cbn; lia).
  apply ones_add; [apply ones_refl; lia|]. symmetry. by apply ones_mul.
Qed.

Lemma adc_b2z st S : adc_rep st S → 0 ≤ Z.b2z st.2 ≤ 1.
Proof. intros _. destruct st.2; cbn; lia. Qed.

Lemma adcw_rep w st S : in_range 16 w → adc_rep st S → adc_rep (adcw w st) (S + w).
Proof.
  intros Hw Hrep. pose proof (adc_b2z _ _ Hrep). destruct st as [sum cf], Hrep as [Hs Heq]. cbn [fst snd] in *.
  unfold in_range in Hw. destruct size_bits_mod as (_ & ? & [q Hq]).
  pose proof (Z.mod_pos_bound sum (2 ^ 16)). set (t := sum mod 2 ^ 16 + w + Z.b2z cf).
  pose proof (Z.mod_pos_bound t (2 ^ 16)). pose proof (Z.div_mod sum (2 ^ 16)).
  assert (sum / 2 ^ 16 < q) by (apply Z.div_lt_upper_bound; lia).
  assert (0 ≤ sum / 2 ^ 16) by (apply Z.div_pos; lia).
  split; cbn [adcw fst snd]; fold t; [nia|].
  etrans; [apply (carry_wrap (sum - sum mod 2 ^ 16) t (2 ^ 16)); [lia..|done]|].
  subst t. replace (_ + _) with (sum + Z.b2z cf + w) by lia.
  apply ones_add; [done|apply ones_refl; lia].
Qed.

Lemma adcl_rep w st S : in_range size_bits w → adc_rep st S → adc_rep (adcl w st) (S + w).
Proof.
  intros Hw Hrep. pose proof (adc_b2z _ _ Hrep). destruct st as [sum cf], Hrep as [Hs Heq]. cbn [fst snd] in *.
  unfold in_range in Hw. destruct size_bits_mod as (? & ? & _). set (t := sum + w + Z.b2z cf).
  pose proof (Z.mod_pos_bound t (2 ^ size_bits)). split; cbn [adcl fst snd]; fold t; [lia|].
  etrans; [apply (carry_wrap 0 t (2 ^ size_bits)); [lia..|done]|].
  subst t. replace (_ + _) with (sum + Z.b2z cf + w) by lia.
  apply ones_add; [done|apply ones_refl; lia].
Qed.

Lemma mod_carry8 t : 0 ≤ t < 512 → t mod 2 ^ 8 + 2 ^ 8 * Z.b2z (2 ^ 8 <=? t) = t.
Proof.
  intros. destruct (Z.leb_spec (2 ^ 8) t); cbn [Z.b2z]; [|rewrite Z.mod_small by lia; lia].
  replace t with (t - 2 ^ 8 + 1 * 2 ^ 8) at 1 by lia. rewrite Z_mod_plus_full, Z.mod_small by lia. lia.
Qed.

Lemma adcb_final_rep b st S : is_byte b → adc_rep st S → adc_rep (adcb_final b st) (S + b).
Proof.
  intros Hb Hrep. pose proof (adc_b2z _ _ Hrep). destruct st as [sum cf], Hrep as [Hs Heq]. cbn [fst snd] in *.
  unfold in_range in Hb. destruct size_bits_mod as (_ & ? & [q Hq]). unfold adcb_final.
  pose proof (Z.mod_pos_bound sum (2 ^ 8)). set (t := sum mod 2 ^ 8 + b + Z.b2z cf).
  pose proof (mod_carry8 t). pose proof (Z.mod_pos_bound t (2 ^ 8)).
  set (sum1 := sum - sum mod 2 ^ 8 + t mod 2 ^ 8).
  assert (0 ≤ Z.b2z (2 ^ 8 <=? t) ≤ 1) by (destruct (_ <=? _); cbn; lia).
  pose proof (Z.mod_pos_bound (sum1 / 2 ^ 8) (2 ^ 8)).
  set (hi := (sum1 / 2 ^ 8) mod 2 ^ 8 + Z.b2z (2 ^ 8 <=? t)).
  pose proof (mod_carry8 hi). pose proof (Z.mod_pos_bound hi (2 ^ 8)).
  assert (0 ≤ Z.b2z (2 ^ 8 <=? hi) ≤ 1) by (destruct (_ <=? _); cbn; lia).
  assert (sum1 mod 2 ^ 16 = sum1 mod 2 ^ 8 + 2 ^ 8 * ((sum1 / 2 ^ 8) mod 2 ^ 8)) as Hm16.
  { change (2 ^ 16) with (2 ^ 8 * 2 ^ 8). apply Z.rem_mul_r; lia. }
  assert (0 ≤ sum1 < 2 ^ size_bits).
  { pose proof (Z.div_mod sum (2 ^ 8)). assert (sum / 2 ^ 8 < 2 ^ 8 * q) by (apply Z.div_lt_upper_bound; lia).
    assert (0 ≤ sum / 2 ^ 8) by (apply Z.div_pos; lia). subst sum1. nia. }
  assert (0 ≤ sum1 - sum1 mod 2 ^ 16 ≤ 2 ^ size_bits - 2 ^ 16).
  { pose proof (Z.div_mod sum1 (2 ^ 16)). assert (sum1 / 2 ^ 16 < q) by (apply Z.div_lt_upper_bound; lia).
    assert (0 ≤ sum1 / 2 ^ 16) by (apply Z.div_pos; lia). nia. }
  pose proof (Z.mod_pos_bound sum1 (2 ^ 8)).
  split; cbn [fst snd]; [lia|].
  transitivity (sum1 - sum1 mod 2 ^ 16 + sum1 mod 2 ^ 8 + 2 ^ 8 * (hi mod 2 ^ 8) + 2 ^ 16 * Z.b2z (2 ^ 8 <=? hi)).
  { apply ones_add; [apply ones_refl; lia|]. symmetry. by apply ones_mul; [lia..|]. }
  replace (_ + _) with (sum + Z.b2z cf + b) by lia.
  apply ones_add; [done|apply ones_refl; lia].
Qed.

Lemma csum_take_drop n data :
  Nat.even n = true → (n ≤ length data)%nat →
  csum false data = csum false (take n data) + csum false (drop n data).
Proof.
  intros He Hn. rewrite <- (take_drop n data) at 1. rewrite csum_app, length_take, Nat.min_l by done.
  by rewrite He.
Qed.

Lemma lods_loop_rep step sz n data st S :
  (∀ w st S, in_range (8 * Z.of_nat sz) w → adc_rep st S → adc_rep (step w st) (S + w)) →
  Nat.even sz = true → is_bytes data → (n * sz ≤ length data)%nat → adc_rep st S →
  (lods_loop step sz n data st).1 = drop (n * sz) data ∧
  adc_rep (lods_loop step sz n data st).2 (S + csum false (take (n * sz) data)).
Proof.
  intros Hstep Hsz. revert data st S; induction n as [|n IH]; intros data st S Hd Hlen Hrep; cbn [lods_loop].
  { cbn. by rewrite Z.add_0_r. }
  assert (is_bytes (take sz data)) as Hdt by by apply Forall_take.
  pose proof (le_combine_csum (take sz data) Hdt) as Hcs.
  destruct (IH (drop sz data) (step (le_combine (take sz data)) st) (S + le_combine (take sz data))) as [Hdrop Hrep'].
  - by apply Forall_drop.
  - rewrite length_drop. lia.
  - apply Hstep; [|done]. pose proof (le_combine_range _ Hdt) as Hr.
    rewrite length_take, Nat.min_l in Hr by lia. exact Hr.
  - rewrite drop_drop in Hdrop. split; [by rewrite Hdrop|].
    destruct Hrep' as [? Heq]. split; [done|]. etrans; [exact Heq|].
    replace (take (Datatypes.S n * sz) data) with (take sz data ++ take (n * sz) (drop sz data)) by
      (by rewrite take_take_drop).
    rewrite csum_app, length_take, Nat.min_l, Hsz by lia. rewrite <- Z.add_assoc.
    destruct Hrep as [_ [[_ ?] _ _]].
    apply ones_add; [by apply ones_refl|]. apply ones_add; [done|apply ones_refl].
    apply csum_nonneg, Forall_take. by apply Forall_drop.
Qed.

(** adcw on a 16-bit register stays 16-bit. *)
Lemma adcw_16 w st : 0 ≤ st.1 < 2 ^ 16 → 0 ≤ (adcw w st).1 < 2 ^ 16.
Proof.
  destruct st as [sum cf]. cbn [fst adcw]. intros ?. rewrite (Z.mod_small sum) by done.
  pose proof (Z.mod_pos_bound (sum + w + Z.b2z cf) (2 ^ 16)). lia.
Qed.

(** Two additions of zero consume the carry flag. *)
Lemma adcw_zero s cf :
  0 ≤ s + Z.b2z cf < 2 ^ 16 → 0 ≤ s < 2 ^ 16 → adcw 0 (s, cf) = (s + Z.b2z cf, false).
Proof.
  intros ? ?. unfold adcw. rewrite (Z.mod_small s) by done. rewrite Z.add_0_r, Z.mod_small by done.
  f_equal; [lia|]. apply Z.leb_gt. lia.
Qed.

Lemma adcw_consume st : 0 ≤ st.1 < 2 ^ 16 → (adcw 0 (adcw 0 st)).2 = false.
Proof.
  destruct st as [s cf]; cbn [fst]. intros ?. destruct (decide (s = 0xffff)) as [->|].
  - by destruct cf.
  - assert (0 ≤ Z.b2z cf ≤ 1) by (destruct cf; cbn; lia).
    rewrite adcw_zero, adcw_zero by (cbn; lia). done.
Qed.

(** A 64-bit register is the sum of its four 16-bit words. *)
Lemma words_sum s :
  0 ≤ s < 2 ^ 64 →
  (s / 2 ^ 0) mod 2 ^ 16 + (s / 2 ^ 16) mod 2 ^ 16 + ((s / 2 ^ 32) mod 2 ^ 16 + (s / 2 ^ 48) mod 2 ^ 16) ≈ s.
Proof.
  intros Hs. rewrite Z.div_1_r.
  assert (s = s mod 2 ^ 16 + 2 ^ 16 * ((s / 2 ^ 16) mod 2 ^ 16) +
    (2 ^ 32 * ((s / 2 ^ 32) mod 2 ^ 16) + 2 ^ 48 * ((s / 2 ^ 48) mod 2 ^ 16))) as Hs'.
  { rewrite !Z.mod_eq by lia. rewrite !Z.div_div by lia.
    change (2 ^ 16 * 2 ^ 16) with (2 ^ 32). change (2 ^ 32 * 2 ^ 16) with (2 ^ 48).
    change (2 ^ 48 * 2 ^ 16) with (2 ^ 64). rewrite (Z.div_small s (2 ^ 64)) by lia. lia. }
  rewrite Hs' at 5.
  pose proof (Z.mod_pos_bound s (2 ^ 16)). pose proof (Z.mod_pos_bound (s / 2 ^ 16) (2 ^ 16)).
  pose proof (Z.mod_pos_bound (s / 2 ^ 32) (2 ^ 16)). pose proof (Z.mod_pos_bound (s / 2 ^ 48) (2 ^ 16)).
  repeat (apply ones_add); [apply ones_refl; lia|symmetry; by apply ones_mul; [lia..|]|
    symmetry; by apply ones_mul; [lia..|]|symmetry; by apply ones_mul; [lia..|]].
Qed.

Lemma fold_down_rep st S : adc_rep st S → 0 ≤ (fold_down st).1 < 2 ^ 16 ∧ (fold_down st).1 ≈ S.
Proof.
  intros Hrep. pose proof (adc_b2z _ _ Hrep) as Hcf. destruct st as [sum cf], Hrep as [Hs Heq]. cbn [fst snd] in *.
  unfold fold_down. set (word i := (sum / 2 ^ (16 * i)) mod 2 ^ 16).
  assert (∀ i, in_range 16 (word i)) as Hword by (intros i; apply Z.mod_pos_bound; lia).
  destruct size_bits_mod as (_ & Hle & _).
  set (st1 := if 32 <? size_bits then _ else _).
  assert (0 ≤ st1.1 < 2 ^ 16 ∧ adc_rep st1 S) as [H16 Hrep1].
  { pose proof (Hword 0) as Hw0. unfold in_range in Hw0.
    assert (adc_rep (word 0, cf) (word 0 + Z.b2z cf)) as H0.
    { split; cbn [fst snd]; [lia|apply ones_refl; lia]. }
    pose proof (adcw_rep (word 1) _ _ (Hword 1) H0) as H1.
    pose proof (adcw_rep (word 2) _ _ (Hword 2) H1) as H2.
    pose proof (adcw_rep (word 3) _ _ (Hword 3) H2) as H3.
    assert (sum < 2 ^ 64) by (destruct size_bits_cases as [[_ Hb]|[_ Hb]]; rewrite Hb in Hs; lia).
    pose proof (words_sum sum ltac:(lia)) as Hsum.
    fold (word 0) (word 1) (word 2) (word 3) in Hsum. subst st1.
    split; [destruct (32 <? size_bits); repeat apply adcw_16; done|].
    destruct size_bits_cases as [[_ Hb]|[_ Hb]].
    - rewrite (proj2 (Z.ltb_ge _ _)) by lia. destruct H1 as [? Hq]. split; [done|]. etrans; [exact Hq|].
      rewrite Hb in Hs.
      assert (word 2 = 0 ∧ word 3 = 0) as [Hw2 Hw3]
        by (unfold word; rewrite !(Z.div_small sum) by lia; done).
      etrans; [|exact Heq]. replace (_ + word 1) with (word 0 + word 1 + (word 2 + word 3) + Z.b2z cf) by lia.
      apply ones_add; [done|apply ones_refl; lia].
    - rewrite (proj2 (Z.ltb_lt _ _)) by lia. destruct H3 as [? Hq]. split; [done|]. etrans; [exact Hq|].
      etrans; [|exact Heq]. replace (_ + word 3) with (word 0 + word 1 + (word 2 + word 3) + Z.b2z cf) by lia.
      apply ones_add; [done|apply ones_refl; lia]. }
  assert (in_range 16 0) as Hz by (unfold in_range; lia).
  pose proof (adcw_rep 0 _ _ Hz (adcw_rep 0 _ _ Hz Hrep1)) as [_ Hq].
  rewrite adcw_consume, !Z.add_0_r in Hq by done.
  split; [by repeat apply adcw_16|done].
Qed.

(** The four phases of the assembly consume exactly the buffer. *)
Lemma phase_counts len iw s :
  s = 4 ∨ s = 8 → 0 ≤ 2 * iw ≤ len →
  let len' := len - iw * 2 in
  (len' mod (s * 16)) / s + 16 * (len' / (s * 16)) = len' / s ∧
  0 ≤ len' / s ∧ 0 ≤ (len' mod s) / 2 ∧
  len = 2 * iw + s * (len' / s) + 2 * ((len' mod s) / 2) + len' mod 2.
Proof.
  intros Hs ? len'. assert (0 ≤ len') by lia.
  assert (len' mod (s * 16) = len' mod s + s * ((len' / s) mod 16)) as Hm by (apply Z.rem_mul_r; lia).
  rewrite Hm, (Z.mul_comm s), Z_div_plus_full, (Z.div_small (len' mod s)) by (pose proof (Z.mod_pos_bound len' s); lia).
  rewrite (Z.mul_comm s 16), Z.mul_comm, (Z.mul_comm 16 s), <- Z.div_div by lia.
  pose proof (Z.div_mod (len' / s) 16). pose proof (Z.div_mod len' s). pose proof (Z.mod_pos_bound len' s).
  assert (0 ≤ len' / s) by (apply Z.div_pos; lia).
  assert (len' mod 2 = (len' mod s) mod 2) as ->.
  { symmetry. apply Z.mod_mod_divide. destruct Hs as [-> | ->]; [by exists 2|by exists 4]. }
  pose proof (Z.div_mod (len' mod s) 2). split_and!; try lia. apply Z.div_pos; lia.
Qed.

Lemma csum_phases a b c data :
  Nat.even a = true → Nat.even b = true → Nat.even c = true → (a + b + c ≤ length data)%nat →
  csum false data = csum false (take a data) + csum false (take b (drop a data)) +
                    csum false (take c (drop (a + b) data)) + csum false (drop (a + b + c) data).
Proof.
  intros Ha Hb Hc Hl. rewrite (csum_take_drop a data), (csum_take_drop b (drop a data)) by
    (auto; rewrite ?length_drop; lia).
  rewrite drop_drop, (csum_take_drop c (drop (a + b) data)) by (auto; rewrite ?length_drop; lia).
  rewrite drop_drop. lia.
Qed.

Lemma adc_final data st S final_byte :
  is_bytes data → Z.of_nat (length data) = final_byte → 0 ≤ final_byte < 2 → adc_rep st S →
  adc_rep (if final_byte =? 1 then adcb_final (default 0 (head data)) st else st) (S + csum false data).
Proof.
  intros Hd Hl ? Hrep. destruct data as [|b [|? ?]]; cbn [length] in Hl; subst; cbn [Z.of_nat] in *; try lia.
  - cbn. by rewrite Z.add_0_r.
  - apply Forall_cons in Hd as [Hb _]. cbn. replace (b + 0) with b by lia. by apply adcb_final_rep.
Qed.

Lemma le_combine_1 b : le_combine [b] = b.
Proof. cbn. lia. Qed.

Lemma initial_words_le addr len :
  sizeof_ptr ≤ len → 0 ≤ 2 * Z.shiftr (Z.land (usize (- addr)) (sizeof_ptr - 1)) 1 ≤ len.
Proof.
  intros. assert (∃ k, sizeof_ptr = 2 ^ k ∧ 0 ≤ k) as (k & Hk & ?).
  { destruct sizeof_ptr_ok as [-> | ->]; [exists 2|exists 3]; done. }
  rewrite Hk, land_mask, Z.shiftr_div_pow2 by lia. pose proof sizeof_ptr_pos.
  set (a := usize (- addr) mod 2 ^ k). assert (0 ≤ a < 2 ^ k) by (apply Z.mod_pos_bound; lia).
  change (2 ^ 1) with 2. pose proof (Z.div_mod a 2). pose proof (Z.mod_pos_bound a 2). lia.
Qed.

Lemma x86_chksum_spec partial addr data :
  in_range 16 partial → is_bytes data →
  ∃ s, x86_tcpip_continue_chksum partial addr data = 0xffff - s ∧ 0 ≤ s ≤ 0xffff ∧
       s ≈ (0xffff - partial) + csum false data.
Proof.
  intros Hp Hd. unfold x86_tcpip_continue_chksum. rewrite (proj2 (lnot16 _ Hp)).
  set (iw := if _ <=? _ then _ else 0). set (len := Z.of_nat (length data)).
  assert (0 ≤ 2 * iw ≤ len) as Hiw.
  { subst iw len. destruct (Z.leb_spec sizeof_ptr (Z.of_nat (length data))); [by apply initial_words_le|lia]. }
  pose proof sizeof_ptr_pos. unfold in_range in Hp. destruct size_bits_mod as (_ & Hle & _).
  destruct (phase_counts len iw sizeof_ptr sizeof_ptr_ok Hiw) as (-> & ? & ? & Hlen).
  set (n1 := (len - iw * 2) / sizeof_ptr) in *. set (n2 := (len - iw * 2) mod sizeof_ptr / 2) in *.
  assert (adc_rep (0xffff - partial, false) (0xffff - partial)) as R0.
  { split; cbn [fst snd]; [lia|]. rewrite Z.add_0_r. apply ones_refl. lia. }
  pose proof (Z.mod_pos_bound (len - iw * 2) 2).
  assert (Nat.even (Z.to_nat sizeof_ptr) = true) as Heven by (by destruct sizeof_ptr_ok as [-> | ->]).
  set (a := (Z.to_nat iw * 2)%nat). set (b := (Z.to_nat n1 * Z.to_nat sizeof_ptr)%nat).
  set (c := (Z.to_nat n2 * 2)%nat).
  assert (Z.of_nat (a + b + c) + (len - iw * 2) mod 2 = len) as Habc by (subst a b c; lia).
  assert (is_bytes (drop a data) ∧ is_bytes (drop (a + b) data) ∧ is_bytes (drop (a + b + c) data)) as (Hd1 & Hd2 & Hd3)
    by (split_and!; by apply Forall_drop).
  destruct (lods_loop_rep adcw 2 (Z.to_nat iw) data (0xffff - partial, false) (0xffff - partial)) as [D1 R1]; auto.
  { exact adcw_rep. } { lia. }
  destruct (lods_loop adcw 2 (Z.to_nat iw) data _) as [d1 st1]; cbn [fst snd] in *. subst d1.
  fold a in R1. fold a.
  destruct (lods_loop_rep adcl (Z.to_nat sizeof_ptr) (Z.to_nat n1) (drop a data) st1
              (0xffff - partial + csum false (take a data))) as [D2 R2]; auto.
  { intros w st S. rewrite Z2Nat.id by lia. apply adcl_rep. } { rewrite length_drop. lia. }
  destruct (lods_loop adcl _ _ _ st1) as [d2 st2]; cbn [fst snd] in *. subst d2.
  fold b in R2. fold b. rewrite drop_drop.
  destruct (lods_loop_rep adcw 2 (Z.to_nat n2) (drop (a + b) data) st2
    (0xffff - partial + csum false (take a data) + csum false (take b (drop a data)))) as [D3 R3]; auto.
  { exact adcw_rep. } { rewrite length_drop. lia. }
  destruct (lods_loop adcw 2 (Z.to_nat n2) _ st2) as [d3 st3]; cbn [fst snd] in *. subst d3.
  fold c in R3. fold c. rewrite drop_drop.
  apply (adc_final (drop (a + b + c) data) _ _ ((len - iw * 2) mod 2)) in R3; [|done|rewrite length_drop; lia|lia].
  replace (Z.land (len - iw * 2) 1) with ((len - iw * 2) mod 2) by (symmetry; apply (land_mask _ 1); lia).
  destruct (fold_down_rep _ _ R3) as [H16 Heq]. destruct (fold_down _) as [s cf]; cbn [fst] in *.
  exists s. split_and!; [|lia|lia|].
  - apply lnot16. exact H16.
  - etrans; [exact Heq|]. rewrite (csum_phases a b c data); [rewrite !Z.add_assoc; apply ones_refl; destruct R3 as [_ [[_ ?] _ _]]; lia| | | |lia].
    + subst a. by rewrite Nat.even_mul, orb_true_r.
    + subst b. by rewrite Nat.even_mul, Heven, orb_true_r.
    + subst c. by rewrite Nat.even_mul, orb_true_r.
Qed.
End x86_proofs.

(** C5: the x86 add-with-carry checksum, for either word size and any buffer
    address, returns exactly what the portable byte loop returns. *)
Theorem x86_chksum_equiv `{Platform} partial addr data :
  in_range 16 partial → is_bytes data →
  x86_tcpip_continue_chksum partial addr data = generic_tcpip_continue_chksum partial data.
Proof.
  intros Hp Hd. destruct (x86_chksum_spec partial addr data) as (s & -> & ? & Hs); auto.
  destruct (generic_chksum_spec partial data) as (s' & -> & ? & Hs'); auto.
  f_equal. apply ones_unique; [lia..|]. etrans; [exact Hs|]. by symmetry.
Qed.

Lemma x86_chksum_equiv_witness :
  x86_tcpip_continue_chksum (H := x86_64) 0x1234 0x1003 [0x45; 0x00; 0x54; 0xa6; 0xff; 0x01; 0x40; 0x11; 0x07] =
  generic_tcpip_continue_chksum 0x1234 [0x45; 0x00; 0x54; 0xa6; 0xff; 0x01; 0x40; 0x11; 0x07].
Proof. apply (@x86_chksum_equiv x86_64 0x1234 0x1003); by_compute. Defined.

(** Checksums may be computed piecewise: continuing the checksum of an
    even-length buffer over a second buffer gives the checksum of both. *)
Lemma chksum_continue partial d1 d2 :
  in_range 16 partial → is_bytes d1 → is_bytes d2 → Nat.even (length d1) = true →
  generic_tcpip_continue_chksum (generic_tcpip_continue_chksum partial d1) d2 =
  generic_tcpip_continue_chksum partial (d1 ++ d2).
Proof.
  intros Hp Hd1 Hd2 He.
  destruct (generic_chksum_spec partial d1) as (s1 & -> & ? & Hs1); auto.
  destruct (generic_chksum_spec (0xffff - s1) d2) as (s2 & -> & ? & Hs2); [unfold in_range; lia|done|].
  destruct (generic_chksum_spec partial (d1 ++ d2)) as (s & -> & ? & Hs); [done|by apply Forall_app|].
  f_equal. apply ones_unique; [lia..|]. etrans; [exact Hs2|]. symmetry. etrans; [exact Hs|].
  rewrite csum_app, He, Z.add_assoc. replace (0xffff - (0xffff - s1)) with s1 by lia. symmetry.
  apply ones_add; [done|]. apply ones_refl. by apply csum_nonneg.
Qed.

(** Storing the complement of the sum of everything else in a field makes the
    whole sum to zero. *)
Lemma chksum_fill partial before after s :
  in_range 16 partial → is_bytes before → is_bytes after → Nat.even (length before) = true →
  0 ≤ s ≤ 0xffff → s ≈ 0xffff - partial + (csum false before + csum false after) →
  generic_tcpip_continue_chksum partial (before ++ le_split 2 (0xffff - s) ++ after) = 0.
Proof.
  intros Hp Hb Ha He Hr Hs.
  destruct (generic_chksum_spec partial (before ++ le_split 2 (0xffff - s) ++ after)) as (s' & -> & ? & Hs').
  { done. }
  { repeat (apply Forall_app; split; auto). apply le_split_bytes. }
  rewrite csum_app, He, csum_app in Hs'. cbn [length le_split Nat.even csum negb] in Hs'.
  assert (s' = 0xffff) as ->; [|done]. apply ones_unique; [lia..|]. etrans; [exact Hs'|].
  assert ((0xffff - s) mod 256 + (256 * (((0xffff - s) / 256) mod 256) + 0) = 0xffff - s) as ->.
  { rewrite (Z.mod_small ((0xffff - s) / 256)); [pose proof (Z.div_mod (0xffff - s) 256); lia|].
    split; [apply Z.div_pos; lia|apply Z.div_lt_upper_bound; lia]. }
  transitivity (0xffff - s + s); [|by replace (0xffff - s + s) with 0xffff by lia; apply ones_refl].
  replace (0xffff - partial + _) with (0xffff - s + (0xffff - partial + (csum false before + csum false after))) by lia.
  apply ones_add; [apply ones_refl; lia|]. by symmetry.
Qed.

(** The sum with the field zeroed. *)
Lemma zeroed_csum partial before after :
  in_range 16 partial → is_bytes before → is_bytes after → Nat.even (length before) = true →
  ∃ s, generic_tcpip_continue_chksum partial (before ++ [0; 0] ++ after) = 0xffff - s ∧ 0 ≤ s ≤ 0xffff ∧
       s ≈ 0xffff - partial + (csum false before + csum false after).
Proof.
  intros Hp Hb Ha He.
  destruct (generic_chksum_spec partial (before ++ [0; 0] ++ after)) as (s & -> & ? & Hs); [done| |].
  { repeat (apply Forall_app; split; auto); repeat constructor; lia. }
  exists s. split_and!; [done|lia..|]. rewrite csum_app, He, csum_app in Hs. exact Hs.
Qed.

(** Storing the checksum of a buffer in its zeroed field. *)
Lemma chksum_verifies before after :
  is_bytes before → is_bytes after → Nat.even (length before) = true →
  tcpip_chksum (before ++ le_split 2 (tcpip_chksum (before ++ [0; 0] ++ after)) ++ after) = 0.
Proof.
  intros Hb Ha He. unfold tcpip_chksum, TCPIP_EMPTY_CSUM.
  destruct (zeroed_csum 0xffff before after) as (s & -> & ? & Hs); [by vm_compute|done..|].
  by apply chksum_fill.
Qed.

(** A checksum continued over a pseudo-header before it is stored verifies
    against the checksum of the pseudo-header. *)
Lemma chksum_pseudo before after pshdr :
  is_bytes before → is_bytes after → is_bytes pshdr → Nat.even (length before) = true →
  let csum := generic_tcpip_continue_chksum (tcpip_chksum (before ++ [0; 0] ++ after)) pshdr in
  in_range 16 csum ∧
  generic_tcpip_continue_chksum (tcpip_chksum pshdr) (before ++ le_split 2 csum ++ after) = 0.
Proof.
  intros Hb Ha Hps He csum0. unfold tcpip_chksum, TCPIP_EMPTY_CSUM in *.
  destruct (zeroed_csum 0xffff before after) as (s0 & E0 & ? & Hs0); [by vm_compute|done..|].
  destruct (generic_chksum_spec (0xffff - s0) pshdr) as (s1 & E1 & ? & Hs1); [unfold in_range; lia|done|].
  destruct (generic_chksum_spec 0xffff pshdr) as (s2 & E2 & ? & Hs2); [by vm_compute|done|].
  subst csum0. rewrite E0, E1, E2. split; [unfold in_range; lia|].
  apply chksum_fill; [unfold in_range; lia|done..|lia|]. etrans; [exact Hs1|].
  replace (0xffff - (0xffff - s0) + csum false pshdr) with (csum false pshdr + s0) by lia.
  replace (0xffff - (0xffff - s2)) with s2 by lia.
  rewrite Z.sub_diag, Z.add_0_l in Hs0, Hs2. apply ones_add; [by symmetry|done].
Qed.

(** ** Port selection *)

Definition is_ok {A} (r : res A) : Prop := match r with Ok _ => True | Err _ => False end.

Lemma bind_port_mod k i offset :
  0 ≤ k ≤ 16 → u16 (Z.land (u32 (i + offset)) (2 ^ k - 1)) = (i + offset) mod 2 ^ k.
Proof.
  intros. rewrite land_mask by lia. unfold wrap at 2.
  rewrite Z.mod_mod_divide by (exists (2 ^ (32 - k)); rewrite <- Z.pow_add_r by lia; f_equal; lia).
  apply wrap_small. unfold in_range. pose proof (Z.mod_pos_bound (i + offset) (2 ^ k)).
  pose proof (Z.pow_pos_nonneg 2 k). pose proof (Z.pow_le_mono_r 2 k 16). lia.
Qed.

Lemma bind_loop_spec available k offset n i :
  0 ≤ k ≤ 16 →
  match bind_loop available 1 (2 ^ k - 1) offset n i with
  | Ok p => 1 ≤ p ≤ 2 ^ k - 1 ∧ is_ok (available p)
  | Err e => e = EADDRINUSE ∧
      ∀ j, i ≤ j < i + Z.of_nat n → (j + offset) mod 2 ^ k = 0 ∨ ¬ is_ok (available ((j + offset) mod 2 ^ k))
  end.
Proof.
  intros Hk. pose proof (Z.pow_pos_nonneg 2 k).
  revert i; induction n as [|n IH]; intros i; cbn [bind_loop]; [split; [done|lia]|].
  rewrite bind_port_mod by done. pose proof (Z.mod_pos_bound (i + offset) (2 ^ k)).
  assert (∀ r : res Z, (∀ p, r = Ok p → 1 ≤ p ≤ 2 ^ k - 1 ∧ is_ok (available p)) →
    (∀ e, r = Err e → e = EADDRINUSE ∧ ∀ j, i + 1 ≤ j < i + 1 + Z.of_nat n →
      (j + offset) mod 2 ^ k = 0 ∨ ¬ is_ok (available ((j + offset) mod 2 ^ k))) →
    (i + offset) mod 2 ^ k = 0 ∨ ¬ is_ok (available ((i + offset) mod 2 ^ k)) →
    match r with
    | Ok p => 1 ≤ p ≤ 2 ^ k - 1 ∧ is_ok (available p)
    | Err e => e = EADDRINUSE ∧ ∀ j, i ≤ j < i + Z.of_nat (Datatypes.S n) →
        (j + offset) mod 2 ^ k = 0 ∨ ¬ is_ok (available ((j + offset) mod 2 ^ k))
    end) as Hstep.
  { intros [p|e] Hok Herr Hi; [by apply Hok|]. destruct (Herr e eq_refl) as [-> Hall]. split; [done|].
    intros j Hj. destruct (decide (j = i)) as [->|]; [done|]. apply Hall. lia. }
  specialize (IH (i + 1)).
  destruct (Z.ltb_spec ((i + offset) mod 2 ^ k) 1).
  - apply Hstep; [| |left; lia]; intros ? E; rewrite E in IH; done.
  - destruct (available ((i + offset) mod 2 ^ k)) eqn:Ea.
    + rewrite Ea. split; [lia|done].
    + apply Hstep; [| |right; by rewrite ?Ea; auto]; intros ? E; rewrite E in IH; done.
Qed.

Lemma privileged_mask flags :
  u16 (Z.land flags TCPIP_BIND_PRIVILEGED - 1) = 2 ^ (if Z.testbit flags 10 then 10 else 16) - 1.
Proof.
  assert (Z.land flags TCPIP_BIND_PRIVILEGED = if Z.testbit flags 10 then 0x400 else 0) as ->;
    [|by destruct (Z.testbit flags 10)].
  change TCPIP_BIND_PRIVILEGED with (2 ^ 10). apply Z.bits_inj'. intros n Hn.
  rewrite Z.land_spec. destruct (decide (n = 10)) as [->|].
  - rewrite Z.pow2_bits_true, andb_true_r by lia. by destruct (Z.testbit flags 10).
  - rewrite Z.pow2_bits_false, andb_false_r by lia. destruct (Z.testbit flags 10); [|by rewrite Z.bits_0].
    change 0x400 with (2 ^ 10). by rewrite Z.pow2_bits_false by lia.
Qed.

(** Without an explicit port, tcpip_bind returns an available non-zero
    port below the limit chosen by the flags (0x3ff for a privileged bind,
    0xffff otherwise) whatever the random offset is, and reports EADDRINUSE
    only if no port of that range is available. *)
Lemma tcpip_bind_correct st available random :
  st_port st = 0 →
  let limit := if Z.testbit (st_flags st) 10 then 0x3ff else 0xffff in
  match tcpip_bind (Some st) available random with
  | Ok p => 1 ≤ p ≤ limit ∧ is_ok (available p)
  | Err e => e = EADDRINUSE ∧ ∀ p, 1 ≤ p ≤ limit → ¬ is_ok (available p)
  end.
Proof.
  intros Hp limit. unfold tcpip_bind. rewrite Hp. cbn [ntohs negb].
  change (ntohs 0 =? 0) with true. cbn [negb].
  assert (u16 (Z.land (if st_flags st =? 0 then 1 else 0) TCPIP_BIND_PRIVILEGED + 1) = 1) as ->
    by (by destruct (st_flags st =? 0)).
  rewrite privileged_mask. set (k := if Z.testbit (st_flags st) 10 then 10 else 16).
  assert (0 ≤ k ≤ 16 ∧ limit = 2 ^ k - 1) as [Hk ->] by (subst k limit; destruct (Z.testbit _ _); split; lia || done).
  pose proof (bind_loop_spec available k (u32 random) (Z.to_nat (2 ^ k - 1 + 1)) 0 Hk) as Hl.
  destruct (bind_loop _ _ _ _ _ _) as [p|e]; [done|]. destruct Hl as [-> Hall]. split; [done|].
  intros p Hp'. pose proof (Z.pow_pos_nonneg 2 k). set (j := (p - u32 random) mod 2 ^ k).
  pose proof (Z.mod_pos_bound (p - u32 random) (2 ^ k)).
  assert ((j + u32 random) mod 2 ^ k = p) as Hj.
  { subst j. rewrite Zplus_mod_idemp_l. replace (_ + _) with p by lia. apply Z.mod_small. lia. }
  destruct (Hall j) as [?|?]; [lia|lia|by rewrite Hj in *].
Qed.

