(* ===== verification/DhcpOpts.v ===== *)
(** * DHCP options blocks (src/net/dhcpopts.c, src/include/ipxe/dhcpopts.h)

    An options block is raw memory holding tag/length/value options, a used
    length and an allocated length.  [find_dhcp_option_with_encap],
    [resize_dhcp_option] and [set_dhcp_option] work on the raw bytes, as the
    code does; the theorems relate them to the list of options the bytes
    encode.  The [realloc] method of a block is an interface ([Realloc]) with
    the laws its implementations satisfy: dhcpopt_no_realloc and the method of the
    non-volatile options (src/core/nvo.c), which may refuse to shrink a block. *)

From S2P Require Import Prelude.

(** ** Data *)

Definition DHCP_PAD : Z := 0.
Definition DHCP_MAX_OPTION : Z := 254.
Definition DHCP_END : Z := 255.
Definition DHCP_OPTION_HEADER_LEN : Z := 2.
Definition DHCP_MAX_LEN : Z := 0xff.

Definition DHCP_ENCAP_OPT (encapsulator encapsulated : Z) : Z :=
  Z.lor (Z.shiftl encapsulator 8) encapsulated.
Definition DHCP_ENCAPSULATOR (encap_opt : Z) : Z := Z.shiftr encap_opt 8.
Definition DHCP_ENCAPSULATED (encap_opt : Z) : Z := Z.land encap_opt 0xff.
Definition DHCP_IS_ENCAP_OPT (opt : Z) : bool := negb (DHCP_ENCAPSULATOR opt =? 0).

(** [data] is the memory from the start of the block on: at least [alloc_len]
    bytes, followed by whatever happens to come after them. *)
Record dhcp_options : Type := DhcpOptions {
  data : bytes;
  used_len : Z;
  alloc_len : Z;
}.

Definition byte_at (m : bytes) (i : Z) : Z := default 0 (m !! Z.to_nat i).

(** memcpy into the block at [i]. *)
Definition store_at (m : bytes) (i : Z) (bs : bytes) : bytes :=
  take (Z.to_nat i) m ++ bs ++ drop (Z.to_nat i + length bs) m.

(** [len] bytes of the block from [i]. *)
Definition load_at (m : bytes) (i len : Z) : bytes := take (Z.to_nat len) (drop (Z.to_nat i) m).

Definition with_data (options : dhcp_options) (m : bytes) : dhcp_options :=
  DhcpOptions m (used_len options) (alloc_len options).
Definition with_used_len (options : dhcp_options) (n : Z) : dhcp_options :=
  DhcpOptions (data options) n (alloc_len options).

Definition option_tag (options : dhcp_options) (offset : Z) : Z := byte_at (data options) offset.
Definition option_length (options : dhcp_options) (offset : Z) : Z := byte_at (data options) (offset + 1).

(** The realloc method of an options block, and what its implementations have in
    common: it provides the length asked for or fails leaving the block alone, it
    keeps the bytes that fit, and it keeps the used length if that fits. *)
Class Realloc := {
  realloc_method : dhcp_options → Z → res unit * dhcp_options;
  realloc_err o len e : (realloc_method o len).1 = Err e → (realloc_method o len).2 = o;
  realloc_used o len : 0 ≤ used_len o ≤ len → used_len (realloc_method o len).2 = used_len o;
  realloc_ok o len u :
    0 ≤ len → alloc_len o ≤ Z.of_nat (length (data o)) →
    (realloc_method o len).1 = Ok u →
    len ≤ alloc_len (realloc_method o len).2 ≤ Z.of_nat (length (data (realloc_method o len).2)) ∧
    ∀ i, 0 ≤ i < len → i < alloc_len o → data (realloc_method o len).2 !! Z.to_nat i = data o !! Z.to_nat i;
}.

(** Some of them never refuse to shrink a block. *)
Definition never_refuses_to_shrink `{Realloc} : Prop :=
  ∀ o len, 0 ≤ len ≤ alloc_len o → (realloc_method o len).1 = Ok tt.

Definition dhcpopt_no_realloc (options : dhcp_options) (len : Z) : res unit * dhcp_options :=
  (if len <=? alloc_len options then Ok tt else Err ENOSPC, options).

#[export, refine] Instance no_realloc : Realloc := {| realloc_method := dhcpopt_no_realloc |}.
Proof.
  - done.
  - done.
  - intros o len u ? ?. cbn. destruct (Z.leb_spec len (alloc_len o)); [done|discriminate].
Defined.

Lemma no_realloc_shrinks : never_refuses_to_shrink (H := no_realloc).
Proof. intros o len ?. cbn. by rewrite (proj2 (Z.leb_le _ _)) by lia. Qed.

(** ** Non-volatile options (src/core/nvo.c) *)

(** The options of a non-volatile block follow its checksum byte.  [resize] is the
    method of the block that resizes the underlying storage, if there is one; [fresh]
    is the new memory of a length, whose bytes are those of the old memory as far as
    they go, or NULL. *)
Section nvo.
Context (resize : option (Z → res unit)) (fresh : Z → option bytes).

(** [len] counts the checksum byte. *)
Definition nvo_realloc (options : dhcp_options) (len : Z) : res unit * dhcp_options :=
  (* Reallocate data *)
  match fresh len with
  | None => (Err ENOMEM, options)
  | Some new_data =>
      (* Update DHCP option block *)
      if negb (len =? 0)
      then
        let kept := take (Z.to_nat (Z.min (alloc_len options) (len - 1))) (data options) in
        (Ok tt, DhcpOptions (kept ++ drop (length kept) new_data) (used_len options) (len - 1))
      else (Ok tt, DhcpOptions [] 0 0)
  end.

Definition nvo_realloc_dhcpopt (options : dhcp_options) (len : Z) : res unit * dhcp_options :=
  match resize with
  (* Refuse to reallocate if we have no way to resize the block *)
  | None => dhcpopt_no_realloc options len
  | Some resize =>
      (* Allow one byte for the checksum (if any data is present) *)
      let len := if negb (len =? 0) then len + 1 else len in
      (* Resize underlying non-volatile options block *)
      match resize len with
      | Err rc => (Err rc, options)
      (* Reallocate in-memory options block *)
      | Ok _ => nvo_realloc options len
      end
  end.

(** realloc gives as many bytes as it is asked for. *)
Context (Hfresh : ∀ len new_data, 0 < len → fresh len = Some new_data → len - 1 ≤ Z.of_nat (length new_data)).

Lemma nvo_realloc_kept o len new_data :
  alloc_len o ≤ Z.of_nat (length (data o)) → len ≤ Z.of_nat (length new_data) →
  let kept := take (Z.to_nat (Z.min (alloc_len o) len)) (data o) in
  len ≤ Z.of_nat (length (kept ++ drop (length kept) new_data)) ∧
  ∀ i, 0 ≤ i < len → i < alloc_len o → (kept ++ drop (length kept) new_data) !! Z.to_nat i = data o !! Z.to_nat i.
Proof.
  intros Ha Hn kept. unfold kept. split.
  - rewrite length_app, length_drop, length_take. lia.
  - intros i Hi Hia. rewrite lookup_app_l by (rewrite length_take; lia). by rewrite lookup_take_lt by lia.
Qed.

#[local, refine] Instance nvo_realloc_method : Realloc := {| realloc_method := nvo_realloc_dhcpopt |}.
Proof using Hfresh fresh resize.
  - intros o len e. unfold nvo_realloc_dhcpopt. destruct resize as [r|]; [|done].
    destruct (r _) as [[]|rc]; [|done]. unfold nvo_realloc. by destruct (fresh _); [destruct (negb _)|].
  - intros o len Hu. unfold nvo_realloc_dhcpopt. destruct resize as [r|]; [|done].
    destruct (r _) as [[]|rc]; [|done]. unfold nvo_realloc. destruct (fresh _); [|done].
    destruct (Z.eqb_spec len 0) as [->|]; cbn [negb]; [cbn; lia|].
    by rewrite (proj2 (Z.eqb_neq (len + 1) 0)) by lia.
  - intros o len u Hlen Ha. unfold nvo_realloc_dhcpopt. destruct resize as [r|]; [|by apply (realloc_ok (Realloc := no_realloc))].
    destruct (r _) as [[]|rc]; [|done]. unfold nvo_realloc. destruct (fresh _) as [new_data|] eqn:Hf; [|done].
    destruct (Z.eqb_spec len 0) as [->|Hz]; cbn [negb] in *; [cbn; split; [lia|intros; lia]|].
    rewrite (proj2 (Z.eqb_neq (len + 1) 0)) by lia. cbn [negb fst snd data alloc_len]. intros _.
    apply Hfresh in Hf; [|lia]. replace (len + 1 - 1) with len in * by lia.
    destruct (nvo_realloc_kept o len new_data Ha Hf) as [Hl Hk]. split; [lia|exact Hk].
Defined.
End nvo.

(** ** Finding options *)

Definition dhcp_option_len (options : dhcp_options) (offset : Z) : Z :=
  if (option_tag options offset =? DHCP_END) || (option_tag options offset =? DHCP_PAD) then 1
  else option_length options offset + DHCP_OPTION_HEADER_LEN.

(** The search loop: [None] when out of fuel ([find_loop_total]), otherwise the
    offset or the error, and the encapsulator's offset (-1 if none was met). *)
Fixpoint find_loop (fuel : nat) (options : dhcp_options) (tag offset remaining encap_offset : Z)
    : option (res Z * Z) :=
  match fuel with
  | O => None
  | S fuel =>
      if remaining =? 0 then Some (Err ENOENT, encap_offset)
      else
        let option_len := dhcp_option_len options offset in
        let remaining := remaining - option_len in
        if remaining <? 0 then Some (Err ENOENT, encap_offset)
        else if option_tag options offset =? DHCP_END then
          Some (if tag =? DHCP_END then Ok offset else Err ENOENT, encap_offset)
        else if option_tag options offset =? tag then Some (Ok offset, encap_offset)
        else if DHCP_IS_ENCAP_OPT tag && (option_tag options offset =? DHCP_ENCAPSULATOR tag) then
          find_loop fuel options (DHCP_ENCAPSULATED tag) (offset + DHCP_OPTION_HEADER_LEN) option_len offset
        else find_loop fuel options tag (offset + option_len) remaining encap_offset
  end.

(** An iteration consumes at least one byte, and the search enters at most one
    encapsulator, of at most 257 bytes. *)
Definition find_fuel (options : dhcp_options) : nat := Z.to_nat (used_len options) + 300.

Definition find_dhcp_option_with_encap (options : dhcp_options) (tag : Z) : res Z * Z :=
  if tag =? DHCP_PAD then (Err ENOENT, -1)
  else default (Err ENOENT, -1) (find_loop (find_fuel options) options tag 0 (used_len options) (-1)).

(** ** Changing options *)

Section set.
Context `{Platform, Realloc}.

(** The first step of resize_dhcp_option: make room for the new used length. *)
Definition expand_options (options : dhcp_options) (new_used_len : Z) : res unit * dhcp_options :=
  if alloc_len options <? new_used_len then
    let old_alloc_len := alloc_len options in
    let '(rc, options) := realloc_method options new_used_len in
    match rc with
    | Err e => (Err e, options)
    | Ok _ => (Ok tt, with_data options
                 (store_at (data options) old_alloc_len
                    (replicate (Z.to_nat (alloc_len options - old_alloc_len)) 0)))
    end
  else (Ok tt, options).

(** Its last step: give back what is no longer used. *)
Definition shrink_options (options : dhcp_options) (new_used_len : Z) : res unit * dhcp_options :=
  if new_used_len <? alloc_len options then
    let '(rc, options) := realloc_method options new_used_len in
    match rc with Err e => (Err e, options) | Ok _ => (Ok tt, options) end
  else (Ok tt, options).

Definition resize_dhcp_option (options : dhcp_options) (offset encap_offset old_len new_len : Z)
    : res unit * dhcp_options :=
  let delta := ssize (new_len - old_len) in
  if DHCP_MAX_LEN <? new_len then (Err ENOSPC, options)
  else
    let new_used_len := usize (used_len options + delta) in
    (* Expand options block, if necessary *)
    let '(rc, options) := expand_options options new_used_len in
    match rc with
    | Err e => (Err e, options)
    | Ok _ =>
        (* Update encapsulator, if applicable *)
        let new_encapsulator_len := usize (option_length options encap_offset + delta) in
        if (0 <=? encap_offset) && (DHCP_MAX_LEN <? new_encapsulator_len) then (Err ENOSPC, options)
        else
          let options :=
            if 0 <=? encap_offset
            then with_data options (store_at (data options) (encap_offset + 1) [u8 new_encapsulator_len])
            else options in
          (* Update used length *)
          let options := with_used_len options new_used_len in
          (* Move remainder of option data *)
          let options :=
            with_data options
              (store_at (data options) (offset + new_len)
                 (load_at (data options) (offset + old_len) (usize (new_used_len - offset - new_len)))) in
          (* Shrink options block, if applicable *)
          shrink_options options new_used_len
    end.

(** The last steps of set_dhcp_option, once the option's offset and its
    encapsulator's are known; [delete_encap] is its call that deletes the
    encapsulator, whose result it ignores. *)
Definition update_option (delete_encap : dhcp_options → dhcp_options) (options : dhcp_options)
    (offset encap_offset old_len new_len tag : Z) (value : bytes) : res Z * dhcp_options :=
  let len := Z.of_nat (length value) in
  (* Resize option to fit new data *)
  let '(rc, options) := resize_dhcp_option options offset encap_offset old_len new_len in
  match rc with
  | Err e => (Err e, options)
  | Ok _ =>
      (* Copy new data into option, if applicable *)
      let options :=
        if negb (len =? 0)
        then with_data options (store_at (data options) offset (u8 tag :: u8 len :: value))
        else options in
      (* Delete encapsulator if there's nothing else left in it *)
      let options :=
        if (0 <=? encap_offset) && (option_length options encap_offset <=? 1)
        then delete_encap options
        else options in
      (Ok offset, options)
  end.

(** set_dhcp_option calls itself on the encapsulator's tag, which is eight bits
    shorter: [depth] four is enough for any 32-bit tag ([set_depth_irrelevant]). *)
Fixpoint set_dhcp_option_depth (depth : nat) (options : dhcp_options) (tag : Z) (value : bytes)
    : res Z * dhcp_options :=
  match depth with
  | O => (Err EINVAL, options)
  | S depth =>
      let len := Z.of_nat (length value) in
      let encap_tag := DHCP_ENCAPSULATOR tag in
      let new_len := if negb (len =? 0) then len + DHCP_OPTION_HEADER_LEN else 0 in
      if tag =? DHCP_PAD then (Err ENOTTY, options)
      else
        let creation_offset :=
          match (find_dhcp_option_with_encap options DHCP_END).1 with
          | Ok offset => offset
          | Err _ => used_len options
          end in
        (* Find old instance of this option, if any *)
        let '(found, encap_offset) := find_dhcp_option_with_encap options tag in
        let old_len := match found with Ok offset => dhcp_option_len options offset | Err _ => 0 end in
        (* Ensure that encapsulator exists, if required *)
        let '(rc, encap_offset, creation_offset, options) :=
          if negb (encap_tag =? 0) then
            let '(r, options) :=
              if encap_offset <? 0 then set_dhcp_option_depth depth options encap_tag [DHCP_END]
              else (Ok encap_offset, options) in
            match r with
            | Err e => (Err e, encap_offset, creation_offset, options)
            | Ok encap_offset => (Ok tt, encap_offset, encap_offset + DHCP_OPTION_HEADER_LEN, options)
            end
          else (Ok tt, encap_offset, creation_offset, options) in
        match rc with
        | Err e => (Err e, options)
        | Ok _ =>
            (* Create new option if necessary *)
            let offset := match found with Ok offset => offset | Err _ => creation_offset end in
            update_option (λ options, (set_dhcp_option_depth depth options encap_tag []).2)
              options offset encap_offset old_len new_len tag value
        end
  end.

Definition set_dhcp_option (options : dhcp_options) (tag : Z) (value : bytes) : res Z * dhcp_options :=
  set_dhcp_option_depth 4 options tag value.

Definition dhcpopt_store (options : dhcp_options) (tag : Z) (value : bytes) : res unit * dhcp_options :=
  let '(offset, options) := set_dhcp_option options tag value in
  match offset with Err e => (Err e, options) | Ok _ => (Ok tt, options) end.
End set.

(** ** The rest of the interface *)

Definition dhcpopt_applies (tag : Z) : bool :=
  negb (tag =? 0) && (tag <=? DHCP_ENCAP_OPT DHCP_MAX_OPTION DHCP_MAX_OPTION).

(** The length of the setting and the bytes copied into a buffer of [len]. *)
Definition dhcpopt_fetch (options : dhcp_options) (tag len : Z) : res (Z * bytes) :=
  match (find_dhcp_option_with_encap options tag).1 with
  | Err e => Err e
  | Ok offset =>
      let option_len := option_length options offset in
      let len := if option_len <? len then option_len else len in
      Ok (option_len, load_at (data options) (offset + DHCP_OPTION_HEADER_LEN) len)
  end.

(** The scan of dhcpopt_update_used_len. *)
Fixpoint update_loop (fuel : nat) (options : dhcp_options) (offset remaining used : Z) : option Z :=
  match fuel with
  | O => None
  | S fuel =>
      if remaining =? 0 then Some used
      else
        let option_len := dhcp_option_len options offset in
        let remaining := remaining - option_len in
        if remaining <? 0 then Some used
        else
          let used := if negb (option_tag options offset =? DHCP_PAD) then offset + option_len else used in
          update_loop fuel options (offset + option_len) remaining used
  end.

Definition dhcpopt_update_used_len (options : dhcp_options) : dhcp_options :=
  with_used_len options
    (default 0 (update_loop (S (Z.to_nat (alloc_len options))) options 0 (alloc_len options) 0)).

(** The realloc method is the [Realloc] instance of the block. *)
Definition dhcpopt_init (m : bytes) (alloc : Z) : dhcp_options :=
  dhcpopt_update_used_len (DhcpOptions m 0 alloc).

(** ** Raw block lemmas *)

Lemma byte_at_app pre b post : byte_at (pre ++ b :: post) (Zlen pre) = b.
Proof. unfold byte_at. rewrite Nat2Z.id, lookup_app_r, Nat.sub_diag by lia. done. Qed.

Lemma byte_at_eq m i pre b post : m = pre ++ b :: post → i = Zlen pre → byte_at m i = b.
Proof. intros -> ->. apply byte_at_app. Qed.

Lemma store_at_app pre old new post i :
  i = Zlen pre → length old = length new → store_at (pre ++ old ++ post) i new = pre ++ new ++ post.
Proof.
  intros -> Hl. unfold store_at. rewrite Nat2Z.id, take_app_length, <- Hl, <- length_app.
  do 2 f_equal. by rewrite app_assoc, drop_app_length.
Qed.

Lemma load_at_app pre bs post i len :
  i = Zlen pre → len = Zlen bs → load_at (pre ++ bs ++ post) i len = bs.
Proof.
  intros -> ->. unfold load_at. by rewrite !Nat2Z.id, drop_app_length, take_app_length.
Qed.

Lemma length_store_at m i bs :
  0 ≤ i → i + Zlen bs ≤ Zlen m → length (store_at m i bs) = length m.
Proof. intros. unfold store_at. rewrite !length_app, length_take, length_drop. lia. Qed.

Lemma prefix_of_lookup (m : bytes) bs :
  (∀ i, (i < length bs)%nat → m !! i = bs !! i) → ∃ rest, m = bs ++ rest.
Proof.
  intros Hi. exists (drop (length bs) m). rewrite <- (take_drop (length bs) m) at 1. f_equal.
  apply list_eq. intros i. destruct (decide (i < length bs)%nat).
  - by rewrite lookup_take_lt, Hi.
  - rewrite lookup_take_ge, lookup_ge_None_2 by lia. done.
Qed.

(** ** The options a block encodes *)

(** A padding byte, or an option with its tag and value. *)
Inductive dopt : Type := Pad | Opt (tag : Z) (value : bytes).

Definition enc (o : dopt) : bytes :=
  match o with Pad => [DHCP_PAD] | Opt tag value => tag :: Zlen value :: value end.
Definition encode (os : list dopt) : bytes := mjoin (enc <$> os).

(** What follows the options in the used part: nothing, or an explicit end
    marker and whatever comes after it. *)
Definition enc_tail (tl : option bytes) : bytes :=
  match tl with None => [] | Some junk => DHCP_END :: junk end.

Definition tag_ok (t : Z) : Prop := 1 ≤ t ≤ DHCP_MAX_OPTION.
Definition opt_ok (o : dopt) : Prop :=
  match o with Pad => True | Opt t v => tag_ok t ∧ Zlen v ≤ 255 end.

#[export] Instance opt_ok_dec o : Decision (opt_ok o).
Proof. destruct o; unfold opt_ok, tag_ok; apply _. Defined.

(** [bs] are the used bytes of the block. *)
Definition holds (o : dhcp_options) (bs : bytes) : Prop :=
  (∃ slack, data o = bs ++ slack) ∧ used_len o = Zlen bs ∧ used_len o ≤ alloc_len o ≤ Zlen (data o).

(** The block encodes the options [os], followed by [tl]. *)
Definition represents (o : dhcp_options) (os : list dopt) (tl : option bytes) : Prop :=
  Forall opt_ok os ∧ holds o (encode os ++ enc_tail tl).

(** Value of the first option with a tag, and the abstract store. *)
Fixpoint get_opt (tag : Z) (os : list dopt) : option bytes :=
  match os with
  | [] => None
  | Opt t v :: os => if t =? tag then Some v else get_opt tag os
  | Pad :: os => get_opt tag os
  end.

Definition new_opt (tag : Z) (value : bytes) : list dopt :=
  match value with [] => [] | _ => [Opt tag value] end.

Fixpoint set_opt (tag : Z) (value : bytes) (os : list dopt) : list dopt :=
  match os with
  | [] => new_opt tag value
  | Opt t v :: os => if t =? tag then new_opt tag value ++ os else Opt t v :: set_opt tag value os
  | Pad :: os => Pad :: set_opt tag value os
  end.

(** The options before, the value of, and the options after the first option
    with a tag. *)
Fixpoint split_opt (tag : Z) (os : list dopt) : option (list dopt * bytes * list dopt) :=
  match os with
  | [] => None
  | Opt t v :: os =>
      if t =? tag then Some ([], v, os)
      else match split_opt tag os with
           | Some (before, value, after) => Some (Opt t v :: before, value, after)
           | None => None
           end
  | Pad :: os =>
      match split_opt tag os with
      | Some (before, value, after) => Some (Pad :: before, value, after)
      | None => None
      end
  end.

Lemma encode_cons o os : encode (o :: os) = enc o ++ encode os.
Proof. done. Qed.

Lemma encode_app os1 os2 : encode (os1 ++ os2) = encode os1 ++ encode os2.
Proof. unfold encode. by rewrite fmap_app, join_app. Qed.

Lemma split_opt_Some tag os before value after :
  split_opt tag os = Some (before, value, after) →
  os = before ++ Opt tag value :: after ∧ get_opt tag os = Some value ∧
  (∀ v, set_opt tag v os = before ++ new_opt tag v ++ after).
Proof.
  revert before; induction os as [|[|t v] os IH]; intros before; cbn; [done| |].
  - destruct (split_opt tag os) as [[[b v'] a]|]; [|done]. intros [= <- <- <-].
    destruct (IH b eq_refl) as (-> & ? & Hs). split_and!; auto. intros. by rewrite Hs.
  - destruct (Z.eqb_spec t tag) as [->|]; [by intros [= <- <- <-]|].
    destruct (split_opt tag os) as [[[b v'] a]|]; [|done]. intros [= <- <- <-].
    destruct (IH b eq_refl) as (-> & ? & Hs). split_and!; auto. intros. by rewrite Hs.
Qed.

Lemma split_opt_None tag os :
  split_opt tag os = None → get_opt tag os = None ∧ ∀ v, set_opt tag v os = os ++ new_opt tag v.
Proof.
  induction os as [|[|t v] os IH]; cbn; [done| |].
  - destruct (split_opt tag os) as [[[b v'] a]|]; [done|]. intros _. destruct IH as [? Hs]; [done|].
    split; [done|]. intros. by rewrite Hs.
  - destruct (Z.eqb_spec t tag) as [->|]; [done|].
    destruct (split_opt tag os) as [[[b v'] a]|]; [done|]. intros _. destruct IH as [? Hs]; [done|].
    split; [done|]. intros. by rewrite Hs.
Qed.

(** The abstract store behaves like a finite map update. *)
Lemma get_set_opt_eq tag v os : v ≠ [] → get_opt tag (set_opt tag v os) = Some v.
Proof.
  intros Hv. assert (new_opt tag v = [Opt tag v]) as Hn by (by destruct v).
  induction os as [|[|t v'] os IH]; cbn; [rewrite Hn| |destruct (Z.eqb_spec t tag); rewrite ?Hn]; cbn;
    rewrite ?Z.eqb_refl; auto. by rewrite (proj2 (Z.eqb_neq t tag)).
Qed.

Lemma get_set_opt_ne tag tag' v os : tag ≠ tag' → get_opt tag' (set_opt tag v os) = get_opt tag' os.
Proof.
  intros Hne. assert (∀ os, get_opt tag' (new_opt tag v ++ os) = get_opt tag' os) as Hn.
  { intros. destruct v; cbn; [done|]. by rewrite (proj2 (Z.eqb_neq tag tag')). }
  induction os as [|[|t v'] os IH]; cbn; auto.
  - rewrite <- (app_nil_r (new_opt tag v)). by rewrite Hn.
  - destruct (Z.eqb_spec t tag) as [->|]; cbn; [by rewrite Hn, (proj2 (Z.eqb_neq tag tag'))|].
    destruct (t =? tag'); auto.
Qed.

(** ** The search *)

Lemma find_loop_mono fuel fuel' o tag offset remaining eo r :
  find_loop fuel o tag offset remaining eo = Some r → (fuel ≤ fuel')%nat →
  find_loop fuel' o tag offset remaining eo = Some r.
Proof.
  revert fuel' tag offset remaining eo. induction fuel as [|fuel IH]; intros fuel' tag offset remaining eo;
    [done|]. destruct fuel' as [|fuel']; [lia|]. cbn. intros Hf ?.
  repeat case_match; try done; apply IH; auto; lia.
Qed.

(** An iteration that does not match moves on to the next option. *)
Definition passes (tag : Z) (x : dopt) : Prop :=
  match x with
  | Pad => True
  | Opt t _ => t ≠ tag ∧ (DHCP_IS_ENCAP_OPT tag = true → t ≠ DHCP_ENCAPSULATOR tag)
  end.

Lemma option_tag_enc o pre x post :
  data o = pre ++ enc x ++ post →
  option_tag o (Zlen pre) = match x with Pad => DHCP_PAD | Opt t _ => t end.
Proof. intros Hd. unfold option_tag. destruct x; cbn in Hd; eapply byte_at_eq; (exact Hd || done). Qed.

Lemma option_length_enc o pre t v post :
  data o = pre ++ enc (Opt t v) ++ post → option_length o (Zlen pre) = Zlen v.
Proof.
  intros Hd. unfold option_length. apply (byte_at_eq _ _ (pre ++ [t]) _ (v ++ post)).
  - rewrite Hd. cbn. by rewrite <- app_assoc.
  - rewrite length_app. cbn. lia.
Qed.

Lemma dhcp_option_len_enc o pre x post :
  opt_ok x → data o = pre ++ enc x ++ post → dhcp_option_len o (Zlen pre) = Zlen (enc x).
Proof.
  intros Hok Hd. unfold dhcp_option_len. rewrite (option_tag_enc _ _ _ _ Hd). destruct x as [|t v]; [done|].
  rewrite (option_length_enc _ _ _ _ _ Hd). destruct Hok as [[??] ?].
  unfold DHCP_END, DHCP_PAD, DHCP_MAX_OPTION, DHCP_OPTION_HEADER_LEN in *.
  rewrite (proj2 (Z.eqb_neq t 255)), (proj2 (Z.eqb_neq t 0)) by lia. cbn. lia.
Qed.

Lemma find_loop_skip fuel o tag before : ∀ pre post rem eo,
  tag ≠ DHCP_PAD → Forall opt_ok before → Forall (passes tag) before →
  data o = pre ++ encode before ++ post → 0 ≤ rem →
  find_loop (length before + fuel) o tag (Zlen pre) (Zlen (encode before) + rem) eo =
  find_loop fuel o tag (Zlen pre + Zlen (encode before)) rem eo.
Proof.
  induction before as [|x before IH]; intros pre post rem eo Ht Hok Hp Hd Hrem; [cbn; f_equal; lia|].
  inversion Hok as [|?? Hx Hok']; inversion Hp as [|?? Hpx Hp']; subst.
  rewrite encode_cons in Hd |- *. rewrite <- app_assoc in Hd.
  pose proof (dhcp_option_len_enc _ _ _ _ Hx Hd) as Hlen. pose proof (option_tag_enc _ _ _ _ Hd) as Htag.
  specialize (IH (pre ++ enc x) post rem eo Ht Hok' Hp').
  rewrite <- app_assoc in IH. specialize (IH Hd Hrem). rewrite !length_app in *.
  assert (0 < Zlen (enc x)) by (destruct x; cbn; lia).
  cbn [length Nat.add find_loop]. rewrite Hlen, Htag.
  rewrite (proj2 (Z.eqb_neq _ 0)), (proj2 (Z.ltb_ge _ 0)) by lia.
  destruct x as [|t v]; cbn [passes opt_ok tag_ok] in *.
  - rewrite (proj2 (Z.eqb_neq DHCP_PAD tag)) by done.
    change (DHCP_PAD =? DHCP_END) with false. cbn [andb].
    destruct (DHCP_IS_ENCAP_OPT tag) eqn:E; cbn [andb].
    + unfold DHCP_IS_ENCAP_OPT in E. apply negb_true_iff, Z.eqb_neq in E.
      rewrite (proj2 (Z.eqb_neq DHCP_PAD _)) by (unfold DHCP_PAD; lia).
      etrans; [|etrans; [exact IH|]]; f_equal; lia.
    + etrans; [|etrans; [exact IH|]]; f_equal; lia.
  - destruct Hx as [[??] ?], Hpx as [? He]. unfold DHCP_MAX_OPTION, DHCP_END in *.
    rewrite (proj2 (Z.eqb_neq t 255)), (proj2 (Z.eqb_neq t tag)) by lia.
    destruct (DHCP_IS_ENCAP_OPT tag) eqn:E; cbn [andb].
    + rewrite (proj2 (Z.eqb_neq t _)) by auto. etrans; [|etrans; [exact IH|]]; f_equal; lia.
    + etrans; [|etrans; [exact IH|]]; f_equal; lia.
Qed.

(** The iteration that reads a matching option, and the one that reads the
    end of the options. *)
Lemma find_loop_match fuel o pre t v post rem eo :
  opt_ok (Opt t v) → data o = pre ++ enc (Opt t v) ++ post → Zlen (enc (Opt t v)) ≤ rem →
  find_loop (S fuel) o t (Zlen pre) rem eo = Some (Ok (Zlen pre), eo).
Proof.
  intros Hok Hd Hrem. cbn [find_loop]. rewrite (dhcp_option_len_enc _ _ _ _ Hok Hd), (option_tag_enc _ _ _ _ Hd).
  assert (0 < Zlen (enc (Opt t v))) by (cbn; lia).
  rewrite (proj2 (Z.eqb_neq _ 0)), (proj2 (Z.ltb_ge _ 0)) by lia.
  destruct Hok as [[??] ?]. unfold DHCP_MAX_OPTION, DHCP_END in *.
  by rewrite (proj2 (Z.eqb_neq t 255)), Z.eqb_refl by lia.
Qed.

Lemma find_loop_tail fuel o tag pre tl post rem eo :
  data o = pre ++ enc_tail tl ++ post → rem = Zlen (enc_tail tl) ∨ (tl ≠ None ∧ 0 < rem) →
  find_loop (S fuel) o tag (Zlen pre) rem eo =
  Some (if (tag =? DHCP_END) && bool_decide (is_Some tl) then Ok (Zlen pre) else Err ENOENT, eo).
Proof.
  intros Hd Hrem. cbn [find_loop]. destruct tl as [junk|].
  - assert (0 < rem) by (destruct Hrem as [->|[]]; cbn; lia).
    assert (option_tag o (Zlen pre) = DHCP_END) as Htag by (cbn in Hd; eapply byte_at_eq; (exact Hd || done)).
    unfold dhcp_option_len. rewrite Htag, !Z.eqb_refl. cbn [orb].
    rewrite (proj2 (Z.eqb_neq _ 0)), (proj2 (Z.ltb_ge _ 0)) by lia. cbn [andb].
    destruct (tag =? DHCP_END); cbn [andb]; by rewrite ?bool_decide_true.
  - destruct Hrem as [->|[]]; [|done]. cbn. by rewrite andb_false_r.
Qed.

Lemma enc_pos x : (0 < length (enc x))%nat.
Proof. destruct x; cbn; lia. Qed.

Lemma length_encode os : (length os ≤ length (encode os))%nat.
Proof.
  induction os as [|x os IH]; [cbn; lia|]. rewrite encode_cons, length_app. cbn.
  pose proof (enc_pos x). lia.
Qed.

Lemma is_encap_small tag : 0 ≤ tag < 256 → DHCP_IS_ENCAP_OPT tag = false.
Proof.
  intros. unfold DHCP_IS_ENCAP_OPT, DHCP_ENCAPSULATOR. rewrite Z.shiftr_div_pow2 by lia.
  by rewrite Z.div_small by lia.
Qed.

Lemma split_opt_passes tag os before v after :
  DHCP_IS_ENCAP_OPT tag = false → split_opt tag os = Some (before, v, after) → Forall (passes tag) before.
Proof.
  intros Hne. revert before. induction os as [|[|t w] os IH]; intros before; cbn; [done| |].
  - destruct (split_opt tag os) as [[[b ?] ?]|]; [|done]. intros [= <- <- <-]. constructor; [done|eauto].
  - destruct (Z.eqb_spec t tag); [by intros [= <- <- <-]|].
    destruct (split_opt tag os) as [[[b ?] ?]|]; [|done]. intros [= <- <- <-].
    constructor; [|eauto]. split; [done|congruence].
Qed.

Lemma split_opt_none_passes tag os :
  DHCP_IS_ENCAP_OPT tag = false → split_opt tag os = None → Forall (passes tag) os.
Proof.
  intros Hne. induction os as [|[|t w] os IH]; cbn; [done| |].
  - destruct (split_opt tag os) as [[[b ?] ?]|]; [done|]. intros _. constructor; [done|auto].
  - destruct (Z.eqb_spec t tag); [done|].
    destruct (split_opt tag os) as [[[b ?] ?]|]; [done|]. intros _.
    constructor; [|auto]. split; [done|congruence].
Qed.

(** The search for a plain tag within an encoded run of options: the offset
    of the first option with it. *)
Lemma find_loop_plain fuel o tag pre os tl post rem eo :
  tag_ok tag → Forall opt_ok os → data o = pre ++ encode os ++ enc_tail tl ++ post →
  rem = Zlen (encode os) + Zlen (enc_tail tl) ∨ (tl ≠ None ∧ Zlen (encode os) < rem) →
  (length os < fuel)%nat →
  find_loop fuel o tag (Zlen pre) rem eo =
  Some (match split_opt tag os with
        | Some (before, _, _) => Ok (Zlen pre + Zlen (encode before))
        | None => Err ENOENT
        end, eo).
Proof.
  intros [??] Hok Hd Hrem Hf. unfold DHCP_MAX_OPTION in *.
  assert (Hne : DHCP_IS_ENCAP_OPT tag = false) by (apply is_encap_small; lia).
  destruct (split_opt tag os) as [[[before v] after]|] eqn:Hs.
  - pose proof (split_opt_passes _ _ _ _ _ Hne Hs) as Hp.
    destruct (split_opt_Some _ _ _ _ _ Hs) as (-> & _ & _).
    apply Forall_app in Hok as [Hok1 Hok2]. inversion Hok2 as [|?? Hx _]; subst.
    rewrite encode_app, encode_cons, <- !app_assoc in Hd. rewrite length_app in Hf. cbn in Hf.
    rewrite encode_app, encode_cons, !length_app in Hrem.
    replace fuel with (length before + S (fuel - length before - 1))%nat by lia.
    replace rem with (Zlen (encode before) + (rem - Zlen (encode before))) by lia.
    erewrite find_loop_skip; [|unfold DHCP_PAD; lia|done|done|exact Hd|lia].
    rewrite <- Nat2Z.inj_add, <- length_app. rewrite app_assoc in Hd.
    erewrite find_loop_match; [done|done|exact Hd|]. lia.
  - pose proof (split_opt_none_passes _ _ Hne Hs) as Hp.
    replace fuel with (length os + S (fuel - length os - 1))%nat by lia.
    replace rem with (Zlen (encode os) + (rem - Zlen (encode os))) by lia.
    erewrite find_loop_skip; [|unfold DHCP_PAD; lia|done|done|exact Hd|lia].
    rewrite <- Nat2Z.inj_add, <- length_app. rewrite app_assoc in Hd.
    erewrite find_loop_tail; [|exact Hd|destruct Hrem as [->|[]]; [left; lia|right; split; [done|lia]]].
    unfold DHCP_END. by rewrite (proj2 (Z.eqb_neq tag 255)) by lia.
Qed.

Lemma find_loop_end fuel o pre os tl post rem eo :
  Forall opt_ok os → data o = pre ++ encode os ++ enc_tail tl ++ post →
  rem = Zlen (encode os) + Zlen (enc_tail tl) → (length os < fuel)%nat →
  find_loop fuel o DHCP_END (Zlen pre) rem eo =
  Some (if bool_decide (is_Some tl) then Ok (Zlen pre + Zlen (encode os)) else Err ENOENT, eo).
Proof.
  intros Hok Hd -> Hf.
  replace fuel with (length os + S (fuel - length os - 1))%nat by lia.
  erewrite find_loop_skip; [|done|done| |exact Hd|lia].
  - rewrite <- Nat2Z.inj_add, <- length_app. rewrite app_assoc in Hd.
    erewrite find_loop_tail; [|exact Hd|by left]. by rewrite Z.eqb_refl.
  - eapply Forall_impl; [exact Hok|]. intros [|t v]; [done|]. intros [[??] ?].
    unfold DHCP_MAX_OPTION, DHCP_END in *. split; [lia|]. rewrite is_encap_small by lia. done.
Qed.

(** The same, from the start of a block. *)
Lemma find_plain o os tl tag :
  represents o os tl → tag_ok tag →
  find_dhcp_option_with_encap o tag =
  (match split_opt tag os with
   | Some (before, _, _) => Ok (Zlen (encode before))
   | None => Err ENOENT
   end, -1).
Proof.
  intros [Hok [[slack Hd] [Hu Ha]]] Ht. unfold find_dhcp_option_with_encap.
  rewrite (proj2 (Z.eqb_neq tag DHCP_PAD)) by (unfold DHCP_PAD, tag_ok in *; lia).
  rewrite <- app_assoc in Hd. rewrite Hu, length_app, Nat2Z.inj_add.
  pose proof (find_loop_plain (find_fuel o) o tag [] os tl slack _ (-1) Ht Hok Hd (or_introl eq_refl)) as Hf.
  change (Zlen (@nil Z)) with 0 in Hf. rewrite Hf; [done|].
  unfold find_fuel. rewrite Hu, length_app. pose proof (length_encode os). lia.
Qed.

Lemma find_end o os tl :
  represents o os tl →
  (match (find_dhcp_option_with_encap o DHCP_END).1 with Ok offset => offset | Err _ => used_len o end)
  = Zlen (encode os).
Proof.
  intros [Hok [[slack Hd] [Hu Ha]]]. unfold find_dhcp_option_with_encap.
  change (DHCP_END =? DHCP_PAD) with false. cbn [fst].
  rewrite <- app_assoc in Hd.
  change 0 with (Zlen (@nil Z)) at 1. erewrite (find_loop_end (find_fuel o) o [] os tl slack); [|done|done| |].
  - destruct tl as [junk|]; cbn; [lia|]. rewrite Hu. cbn. by rewrite app_nil_r.
  - rewrite Hu, length_app. lia.
  - unfold find_fuel. rewrite Hu, length_app. pose proof (length_encode os). lia.
Qed.

(** ** Resizing *)

Section proofs.
Context `{Platform, Realloc}.

Lemma expand_spec o bs new_used :
  holds o bs → 0 ≤ new_used →
  match expand_options o new_used with
  | (Ok _, o') => holds o' bs ∧ new_used ≤ alloc_len o'
  | (Err _, o') => o' = o
  end.
Proof.
  intros [[slack Hd] [Hu Ha]] Hn. unfold expand_options.
  destruct (Z.ltb_spec (alloc_len o) new_used) as [Hlt|]; [|split; [|done]; split; eauto].
  pose proof (realloc_err o new_used) as He. pose proof (realloc_ok o new_used) as Hr.
  pose proof (realloc_used o new_used ltac:(lia)) as Hu'.
  destruct (realloc_method o new_used) as [[[]|e] o'] eqn:E; cbn in *; [|by apply (He e)].
  destruct (Hr tt Hn ltac:(lia) eq_refl) as [Hal Hk].
  split; [|cbn; lia]. split; [|split; [cbn; lia|]]; cbn.
  - apply prefix_of_lookup. intros i Hi. unfold store_at.
    rewrite lookup_app_l by (rewrite length_take; lia). rewrite lookup_take_lt by lia.
    specialize (Hk (Z.of_nat i) ltac:(lia) ltac:(lia)). rewrite Nat2Z.id in Hk.
    by rewrite Hk, Hd, lookup_app_l.
  - rewrite length_store_at; rewrite ?length_replicate; lia.
Qed.

Lemma expand_err o new_used e o' :
  expand_options o new_used = (Err e, o') → alloc_len o < new_used.
Proof. unfold expand_options. by destruct (Z.ltb_spec (alloc_len o) new_used). Qed.

Lemma shrink_spec o bs :
  holds o bs →
  match shrink_options o (Zlen bs) with
  | (Ok _, o') => holds o' bs
  | (Err _, _) => ¬ never_refuses_to_shrink
  end.
Proof.
  intros [[slack Hd] [Hu Ha]]. unfold shrink_options.
  destruct (Z.ltb_spec (Zlen bs) (alloc_len o)) as [Hlt|]; [|by split; eauto].
  pose proof (λ Hn : never_refuses_to_shrink, Hn o (Zlen bs) ltac:(lia)) as Hs.
  pose proof (realloc_ok o (Zlen bs) tt ltac:(lia) ltac:(lia)) as Hok.
  pose proof (realloc_used o (Zlen bs) ltac:(lia)) as Hu'.
  destruct (realloc_method o (Zlen bs)) as [[[]|e] o'] eqn:E; cbn in *; [|by intros Hn; specialize (Hs Hn)].
  destruct (Hok eq_refl) as [Hal Hk]. split; [|lia].
  apply prefix_of_lookup. intros i Hi.
  specialize (Hk (Z.of_nat i) ltac:(lia) ltac:(lia)). rewrite Nat2Z.id in Hk.
  by rewrite Hk, Hd, lookup_app_l.
Qed.

(** Moving the bytes after an option to make it [n] bytes long. *)
Lemma move_spec m pre old post slack n :
  m = pre ++ old ++ post ++ slack → (length pre + n + length post ≤ length m)%nat →
  ∃ x slack', store_at m (Zlen pre + Z.of_nat n) (load_at m (Zlen pre + Zlen old) (Zlen post))
              = pre ++ x ++ post ++ slack' ∧ length x = n ∧
              (length pre + n + length post + length slack' = length m)%nat.
Proof.
  intros -> Hl. assert (load_at (pre ++ old ++ post ++ slack) (Zlen pre + Zlen old) (Zlen post) = post) as ->.
  { rewrite app_assoc. apply load_at_app; [rewrite length_app; lia|done]. }
  unfold store_at. rewrite <- Nat2Z.inj_add, Nat2Z.id, take_app.
  rewrite take_ge by lia. replace (length pre + n - length pre)%nat with n by lia.
  rewrite <- app_assoc. rewrite !length_app in Hl.
  eexists (take n (old ++ post ++ slack)), _. split; [done|].
  rewrite length_take, length_drop, !length_app. lia.
Qed.

(** The encapsulator at [eo], if there is one, gets [delta] bytes longer. *)
Definition encap_resized (pre : bytes) (eo delta : Z) (pre' : bytes) : Prop :=
  (eo < 0 ∧ pre' = pre) ∨
  ∃ p1 t el p2, pre = p1 ++ t :: el :: p2 ∧ eo = Zlen p1 ∧ 0 ≤ el ≤ 255 ∧ 0 ≤ el + delta ∧
                pre' = p1 ++ t :: (el + delta) :: p2.

Lemma encap_update_spec o rest pre eo delta pre' :
  holds o (pre ++ rest) → encap_resized pre eo delta pre' → -2 ^ 31 ≤ delta ≤ 255 →
  (eo < 0 ∨ option_length o eo = byte_at pre (eo + 1)) ∧
  (¬ ((0 <=? eo) && (DHCP_MAX_LEN <? usize (option_length o eo + delta)) = true) →
   (eo < 0 ∨ byte_at pre (eo + 1) + delta ≤ 255) ∧
   ∃ slack, (if 0 <=? eo
             then with_data o (store_at (data o) (eo + 1) [u8 (usize (option_length o eo + delta))])
             else o) = with_data o (pre' ++ rest ++ slack) ∧
            Zlen (pre' ++ rest ++ slack) = Zlen (data o)).
Proof.
  intros [[slack Hd] [Hu Ha]] [[Heo ->]|(p1 & t & el & p2 & -> & -> & Hel & Hpos & ->)] Hdelta.
  - rewrite (proj2 (Z.leb_gt 0 eo)) by lia. split; [by left|]. intros _. split; [by left|].
    exists slack. rewrite app_assoc, <- Hd. by destruct o.
  - rewrite (proj2 (Z.leb_le 0 _)) by lia. cbn [andb].
    assert (option_length o (Zlen p1) = el) as Hol.
    { unfold option_length. apply (byte_at_eq _ _ (p1 ++ [t]) _ (p2 ++ rest ++ slack)).
      - rewrite Hd. by rewrite <- !app_assoc.
      - rewrite length_app; cbn; lia. }
    assert (byte_at (p1 ++ t :: el :: p2) (Zlen p1 + 1) = el) as Hb.
    { apply (byte_at_eq _ _ (p1 ++ [t]) _ p2); [by rewrite <- app_assoc|rewrite length_app; cbn; lia]. }
    rewrite Hol, Hb, usize_small by lia. split; [by right|]. intros Hn.
    apply not_true_is_false, Z.ltb_ge in Hn. unfold DHCP_MAX_LEN in Hn.
    rewrite wrap_small by (unfold in_range; lia). split; [by right|]. exists slack. split.
    + f_equal. assert (data o = (p1 ++ [t]) ++ [el] ++ p2 ++ rest ++ slack) as ->
        by (by rewrite Hd, <- !app_assoc).
      rewrite (store_at_app _ [el] [el + delta]); [by rewrite <- !app_assoc|rewrite length_app; cbn; lia|done].
    + rewrite Hd. repeat (rewrite length_app; cbn [length]). lia.
Qed.

Lemma resize_spec o pre old post eo new_len pre' :
  holds o (pre ++ old ++ post) → used_len o + 512 < 2 ^ 31 → 0 ≤ new_len →
  encap_resized pre eo (new_len - Zlen old) pre' →
  match resize_dhcp_option o (Zlen pre) eo (Zlen old) new_len with
  | (Ok _, o') =>
      new_len ≤ 255 ∧ (eo < 0 ∨ byte_at pre (eo + 1) + (new_len - Zlen old) ≤ 255) ∧
      ∃ x, Zlen x = new_len ∧ holds o' (pre' ++ x ++ post)
  | (Err _, o') =>
      never_refuses_to_shrink → holds o' (pre ++ old ++ post) ∧
      (255 < new_len ∨ alloc_len o < used_len o + (new_len - Zlen old) ∨
       0 ≤ eo ∧ 255 < byte_at pre (eo + 1) + (new_len - Zlen old))
  end.
Proof.
  intros Hh Hsmall Hnew He. unfold resize_dhcp_option.
  destruct (Z.ltb_spec DHCP_MAX_LEN new_len) as [|Hmax]; [by auto|]. unfold DHCP_MAX_LEN in Hmax.
  pose proof Hh as [_ [Hu _]]. rewrite !length_app in Hu.
  rewrite (ssize_small (new_len - _)), (usize_small (used_len o + _)) by lia.
  set (nu := used_len o + (new_len - Zlen old)).
  assert (0 ≤ nu) by (unfold nu; lia).
  pose proof (expand_spec o _ nu Hh ltac:(done)) as Hex. pose proof (expand_err o nu) as Hexe.
  destruct (expand_options o nu) as [[u|e] o1]; [|subst o1; intros _; split; [done|right; left; by eapply Hexe]].
  destruct Hex as [Hh1 Hal1].
  destruct (encap_update_spec o1 (old ++ post) pre eo _ pre' Hh1 He ltac:(lia)) as [Hol Hup].
  destruct ((0 <=? eo) && _) eqn:E.
  - intros _. split; [done|]. apply andb_true_iff in E as [E1%Z.leb_le E2%Z.ltb_lt]. unfold DHCP_MAX_LEN in E2.
    destruct Hol as [|Hol]; [lia|]. rewrite Hol in E2.
    destruct He as [[? _]|(p1 & t & el & p2 & -> & -> & Hel & Hpos & _)]; [lia|].
    assert (byte_at (p1 ++ t :: el :: p2) (Zlen p1 + 1) = el) as Hb.
    { apply (byte_at_eq _ _ (p1 ++ [t]) _ p2); [by rewrite <- app_assoc|rewrite length_app; cbn; lia]. }
    rewrite Hb in E2 |- *. rewrite usize_small in E2 by lia. right; right; lia.
  - destruct (Hup ltac:(discriminate)) as [Hb (slack & -> & Hlen)].
    cbn [data used_len alloc_len with_data with_used_len].
    assert (Zlen pre' = Zlen pre) as Hpre'.
    { destruct He as [[_ ->]|(? & ? & ? & ? & -> & _ & _ & _ & ->)]; rewrite ?length_app; done. }
    rewrite (usize_small (nu - _ - _)) by (unfold nu; lia).
    replace (nu - Zlen pre - new_len) with (Zlen post) by (unfold nu; lia).
    destruct (move_spec (pre' ++ (old ++ post) ++ slack) pre' old post slack (Z.to_nat new_len)) as
      (x & slack' & Hm & Hx & Hlen').
    { by rewrite <- !app_assoc. }
    { pose proof Hh1 as [_ [_ ?]]. unfold nu in *. lia. }
    rewrite Hpre', Z2Nat.id in Hm by lia. rewrite Hm.
    assert (Hh' : holds (with_used_len (with_data o1 (pre' ++ x ++ post ++ slack')) nu) (pre' ++ x ++ post)).
    { split; [exists slack'; cbn; by rewrite <- !app_assoc|]. pose proof Hh1 as [_ [_ ?]].
      cbn. rewrite !length_app in *. unfold nu in *. lia. }
    pose proof (shrink_spec _ _ Hh') as Hs.
    unfold with_data, with_used_len in *. cbn in *.
    replace (Zlen (pre' ++ x ++ post)) with nu in Hs by (rewrite !length_app; unfold nu; lia).
    destruct (shrink_options _ nu) as [[u'|e'] o']; [|by intros Hn; destruct (Hs Hn)].
    split_and!; [done..|]. exists x. split; [lia|done].
Qed.

Lemma encode_new_opt tag value :
  encode (new_opt tag value) = if negb (Zlen value =? 0) then tag :: Zlen value :: value else [].
Proof. destruct value; cbn; [done|]. by rewrite app_nil_r. Qed.

Lemma length_new_opt tag value :
  Zlen (encode (new_opt tag value)) = if negb (Zlen value =? 0) then Zlen value + DHCP_OPTION_HEADER_LEN else 0.
Proof. rewrite encode_new_opt. destruct (Zlen value =? 0); cbn [negb length]; unfold DHCP_OPTION_HEADER_LEN; lia. Qed.

(** Copying the new option into the room made for it. *)
Lemma write_option_spec o pre x post tag t value offset :
  holds o (pre ++ x ++ post) → offset = Zlen pre → Zlen x = Zlen (encode (new_opt t value)) →
  u8 tag = t → Zlen value ≤ 255 →
  holds (if negb (Zlen value =? 0)
         then with_data o (store_at (data o) offset (u8 tag :: u8 (Zlen value) :: value))
         else o) (pre ++ encode (new_opt t value) ++ post).
Proof.
  intros [[slack Hd] [Hu Ha]] -> Hx Ht Hv. rewrite length_new_opt in Hx. rewrite encode_new_opt.
  destruct (Zlen value =? 0); cbn [negb] in *.
  - destruct x; [|cbn in *; lia]. split; eauto.
  - rewrite Ht, (wrap_small 8 (Zlen value)) by (unfold in_range; lia).
    rewrite <- !app_assoc in Hd. unfold DHCP_OPTION_HEADER_LEN in *.
    assert (store_at (data o) (Zlen pre) (t :: Zlen value :: value)
            = pre ++ (t :: Zlen value :: value) ++ post ++ slack) as Hs
      by (rewrite Hd; apply store_at_app; [done|cbn; lia]).
    rewrite !length_app in Hu. unfold with_data. rewrite Hs. split; cbn [data used_len alloc_len].
    + exists slack. by rewrite <- !app_assoc.
    + rewrite Hd in Ha. rewrite !length_app in *. cbn [length]. lia.
Qed.

(** The offset at which the option with a tag is, or is created. *)
Definition opt_offset (tag : Z) (os : list dopt) : Z :=
  match split_opt tag os with
  | Some (before, _, _) => Zlen (encode before)
  | None => Zlen (encode os)
  end.

(** A run of options seen around the (possibly absent) option with a tag. *)
Lemma focus_opt tag os :
  ∃ before old after,
    encode os = encode before ++ old ++ encode after ∧
    opt_offset tag os = Zlen (encode before) ∧
    (∀ value, set_opt tag value os = before ++ new_opt tag value ++ after) ∧
    match split_opt tag os with
    | Some (_, v, _) => old = enc (Opt tag v) ∧ os = before ++ Opt tag v :: after
    | None => old = [] ∧ os = before ∧ after = []
    end.
Proof.
  unfold opt_offset. destruct (split_opt tag os) as [[[before v] after]|] eqn:E.
  - destruct (split_opt_Some _ _ _ _ _ E) as (-> & _ & Hs).
    exists before, (enc (Opt tag v)), after. by rewrite encode_app, encode_cons.
  - destruct (split_opt_None _ _ E) as [_ Hs]. exists os, [], []. cbn. rewrite app_nil_r.
    split_and!; auto. intros. by rewrite Hs, app_nil_r.
Qed.

Lemma new_opt_ok tag value : tag_ok tag → Zlen value ≤ 255 → Forall opt_ok (new_opt tag value).
Proof. intros. destruct value; cbn; repeat constructor; try done; apply H1. Qed.

Lemma set_opt_ok tag value os :
  tag_ok tag → Zlen value ≤ 255 → Forall opt_ok os → Forall opt_ok (set_opt tag value os).
Proof.
  intros Ht Hv. induction 1 as [|[|t v] os Hx Hos IH]; cbn; [by apply new_opt_ok|by constructor|].
  destruct (t =? tag); [|by constructor]. apply Forall_app; split; [by apply new_opt_ok|done].
Qed.

Lemma set_plain depth o os tl tag value :
  represents o os tl → used_len o + 512 < 2 ^ 31 → tag_ok tag →
  match set_dhcp_option_depth (S depth) o tag value with
  | (Ok offset, o') =>
      represents o' (set_opt tag value os) tl ∧ offset = opt_offset tag os ∧ Zlen value ≤ 253
  | (Err _, o') =>
      never_refuses_to_shrink → represents o' os tl ∧
      (253 < Zlen value ∨ alloc_len o < Zlen (encode (set_opt tag value os) ++ enc_tail tl))
  end.
Proof.
  intros Hrep Hsmall Ht. pose proof Ht as [??]. unfold DHCP_MAX_OPTION in *.
  pose proof (find_plain _ _ _ _ Hrep Ht) as Hfind. pose proof (find_end _ _ _ Hrep) as Hend.
  cbn [set_dhcp_option_depth]. rewrite (proj2 (Z.eqb_neq tag DHCP_PAD)) by (unfold DHCP_PAD; lia).
  rewrite Hfind, Hend.
  assert (DHCP_ENCAPSULATOR tag = 0) as ->.
  { unfold DHCP_ENCAPSULATOR. rewrite Z.shiftr_div_pow2 by lia. apply Z.div_small; lia. }
  change (negb (0 =? 0)) with false. cbv iota. unfold update_option. change (0 <=? -1) with false. cbn [andb].
  destruct (focus_opt tag os) as (before & old & after & Henc & Hoff & Hset & Hsp).
  destruct Hrep as [Hok Hh]. rewrite <- (length_new_opt tag value).
  rewrite Henc, <- !app_assoc in Hh.
  set (old_len := match _ with Ok offset => _ | _ => 0 end).
  assert (old_len = Zlen old) as ->.
  { unfold old_len. destruct (split_opt tag os) as [[[b v] a]|] eqn:E; [|by destruct Hsp as [-> _]].
    unfold opt_offset in Hoff. rewrite E in Hoff. rewrite Hoff. destruct Hsp as [-> ->].
    apply Forall_app in Hok as [_ Hok]. apply Forall_cons in Hok as [Hx _].
    destruct Hh as [[slack Hd] _]. eapply dhcp_option_len_enc; [done|]. rewrite Hd, <- !app_assoc. done. }
  assert (∀ e, match (match split_opt tag os with Some (b, _, _) => Ok (Zlen (encode b)) | None => Err e end)
          with Ok offset => offset | Err _ => Zlen (encode os) end = Zlen (encode before)) as ->.
  { intros. rewrite <- Hoff. unfold opt_offset. by destruct (split_opt tag os) as [[[? ?] ?]|]. }
  pose proof (resize_spec o (encode before) old (encode after ++ enc_tail tl) (-1)
    (Zlen (encode (new_opt tag value))) (encode before) Hh Hsmall ltac:(lia) (or_introl (conj eq_refl eq_refl)))
    as Hr.
  destruct (resize_dhcp_option _ _ _ _ _) as [[u|e] o'].
  - destruct Hr as (Hmax & _ & x & Hx & Hh'). cbn [snd].
    assert (Zlen value ≤ 253).
    { rewrite length_new_opt in Hmax. unfold DHCP_OPTION_HEADER_LEN in Hmax.
      destruct (Z.eqb_spec (Zlen value) 0); cbn in Hmax; lia. }
    split_and!; [|done..]. split.
    + apply set_opt_ok; [done|lia|done].
    + rewrite Hset, !encode_app, <- !app_assoc.
      eapply write_option_spec; eauto; [by apply wrap_small; unfold in_range; lia|lia].
  - intros Hn. destruct (Hr Hn) as [Hh' Hwhy]. split; [split; [done|]; by rewrite Henc, <- !app_assoc|].
    rewrite Hset, !encode_app. destruct Hh as [_ [Hu _]]. rewrite !length_app in *.
    destruct Hwhy as [Hw|[Hw|[Hw _]]]; [left|right; lia|lia].
    rewrite length_new_opt in Hw. unfold DHCP_OPTION_HEADER_LEN in Hw.
    destruct (Z.eqb_spec (Zlen value) 0); cbn in Hw; lia.
Qed.

(** ** Encapsulated options *)

Lemma encap_tag e t :
  tag_ok e → tag_ok t →
  DHCP_ENCAP_OPT e t = 256 * e + t ∧ DHCP_ENCAPSULATOR (DHCP_ENCAP_OPT e t) = e ∧
  DHCP_ENCAPSULATED (DHCP_ENCAP_OPT e t) = t ∧ u8 (DHCP_ENCAP_OPT e t) = t ∧
  DHCP_IS_ENCAP_OPT (DHCP_ENCAP_OPT e t) = true.
Proof.
  intros [??] [??]. unfold DHCP_MAX_OPTION in *.
  assert (DHCP_ENCAP_OPT e t = 256 * e + t) as Heq.
  { unfold DHCP_ENCAP_OPT. pose proof (Z.add_lor_land (Z.shiftl e 8) t) as Hor.
    assert (Z.land (Z.shiftl e 8) t = 0) as Hl.
    { apply Z.bits_inj'. intros n Hn. rewrite Z.land_spec, Z.shiftl_spec, Z.bits_0 by lia.
      destruct (decide (n < 8)); [by rewrite Z.testbit_neg_r by lia|].
      rewrite (Z.bits_above_log2 t); [by rewrite andb_false_r|lia|].
      apply Z.log2_lt_pow2; [lia|]. pose proof (Z.pow_le_mono_r 2 8 n). lia. }
    rewrite Hl, Z.shiftl_mul_pow2 in Hor by lia. rewrite Z.shiftl_mul_pow2 by lia. lia. }
  unfold DHCP_IS_ENCAP_OPT, DHCP_ENCAPSULATOR, DHCP_ENCAPSULATED, wrap. rewrite Heq.
  rewrite Z.shiftr_div_pow2 by lia. change 255 with (2 ^ 8 - 1). rewrite land_mask by lia.
  change (2 ^ 8) with 256. rewrite Z.mul_comm, Z.div_add_l, (Z.div_small t) by lia.
  rewrite Z.add_comm, Z.mod_add, Z.mod_small by lia. split_and!; try lia.
Qed.

(** Nothing before the first encapsulator matches the encapsulated tag. *)
Lemma encap_passes e t before :
  tag_ok e → tag_ok t → Forall opt_ok before → Forall (passes e) before →
  Forall (passes (DHCP_ENCAP_OPT e t)) before.
Proof.
  intros He Ht Hok Hp. destruct (encap_tag e t He Ht) as (Heq & Her & _).
  apply Forall_forall. intros x Hx. rewrite Forall_forall in Hok, Hp. specialize (Hok x Hx).
  specialize (Hp x Hx). destruct x as [|t' v]; [done|]. destruct Hok as [Ht' _], Hp as [? _].
  cbn. rewrite Her. unfold tag_ok, DHCP_MAX_OPTION in *. split; [lia|done].
Qed.

Lemma find_loop_enter fuel o e t pre d post rem eo :
  tag_ok e → tag_ok t → opt_ok (Opt e d) → data o = pre ++ enc (Opt e d) ++ post →
  Zlen (enc (Opt e d)) ≤ rem →
  find_loop (S fuel) o (DHCP_ENCAP_OPT e t) (Zlen pre) rem eo =
  find_loop fuel o t (Zlen pre + 2) (Zlen (enc (Opt e d))) (Zlen pre).
Proof.
  intros He Ht Hok Hd Hrem. destruct (encap_tag e t He Ht) as (Heq & Her & Hed & _ & Hie).
  assert (0 < Zlen (enc (Opt e d))) by (cbn; lia).
  cbn [find_loop]. rewrite (dhcp_option_len_enc _ _ _ _ Hok Hd), (option_tag_enc _ _ _ _ Hd), Hie, Her, Hed.
  rewrite (proj2 (Z.eqb_neq _ 0)), (proj2 (Z.ltb_ge _ 0)), Z.eqb_refl by lia.
  unfold tag_ok, DHCP_MAX_OPTION, DHCP_END in *.
  by rewrite (proj2 (Z.eqb_neq e 255)), (proj2 (Z.eqb_neq e (DHCP_ENCAP_OPT e t))) by lia.
Qed.

Lemma find_encap o os tl e t before ios junk after :
  represents o os tl → tag_ok e → tag_ok t → Forall opt_ok ios →
  split_opt e os = Some (before, encode ios ++ DHCP_END :: junk, after) →
  find_dhcp_option_with_encap o (DHCP_ENCAP_OPT e t) =
  (match split_opt t ios with
   | Some (b, _, _) => Ok (Zlen (encode before) + 2 + Zlen (encode b))
   | None => Err ENOENT
   end, Zlen (encode before)).
Proof.
  intros [Hok [[slack Hd] [Hu Ha]]] He Ht Hios Hs. pose proof He as [??]. pose proof Ht as [??].
  unfold DHCP_MAX_OPTION in *. destruct (encap_tag e t He Ht) as (Heq & Her & Hed & _ & Hie).
  pose proof (split_opt_passes _ _ _ _ _ (is_encap_small e ltac:(lia)) Hs) as Hp.
  destruct (split_opt_Some _ _ _ _ _ Hs) as (-> & _ & _). clear Hs.
  apply Forall_app in Hok as [Hok1 [Hx _]%Forall_cons].
  unfold find_dhcp_option_with_encap. rewrite (proj2 (Z.eqb_neq _ DHCP_PAD)) by (unfold DHCP_PAD; lia).
  rewrite encode_app, encode_cons, <- !app_assoc in *.
  set (x := Opt e (encode ios ++ DHCP_END :: junk)) in *.
  set (rest := encode after ++ enc_tail tl) in *.
  assert (find_fuel o = length before + S (S (length ios) + (find_fuel o - length before - length ios - 2)))%nat
    as ->.
  { unfold find_fuel. rewrite Hu, !length_app. cbn. rewrite !length_app.
    pose proof (length_encode before). pose proof (length_encode ios). lia. }
  rewrite Hu, length_app, Nat2Z.inj_add. change 0 with (Zlen (@nil Z)) at 1.
  erewrite find_loop_skip; [|unfold DHCP_PAD; lia|done|by apply encap_passes|exact Hd|lia].
  cbn [length]. change (Z.of_nat 0 + ?n) with n.
  erewrite find_loop_enter; [|done|done|done|exact Hd|unfold x; rewrite (length_app (enc _)); lia].
  set (pre := encode before ++ [e; Zlen (encode ios ++ DHCP_END :: junk)]).
  replace (Zlen (encode before) + 2) with (Zlen pre) by (unfold pre; rewrite length_app; cbn [length]; lia).
  erewrite (find_loop_plain _ _ t pre ios (Some junk) (rest ++ slack)); [| | |unfold pre..|lia]; try done.
  - rewrite Hd. unfold x, rest. cbn [enc enc_tail]. rewrite <- !app_assoc. cbn. by rewrite <- !app_assoc.
  - right. split; [done|]. unfold x. cbn [enc length]. rewrite length_app. cbn [length]. lia.
Qed.

Lemma find_encap_none o os tl e t :
  represents o os tl → tag_ok e → tag_ok t → split_opt e os = None →
  find_dhcp_option_with_encap o (DHCP_ENCAP_OPT e t) = (Err ENOENT, -1).
Proof.
  intros [Hok [[slack Hd] [Hu Ha]]] He Ht Hs. pose proof He as [??]. pose proof Ht as [??].
  unfold DHCP_MAX_OPTION in *. destruct (encap_tag e t He Ht) as (Heq & Her & Hed & _ & Hie).
  pose proof (split_opt_none_passes _ _ (is_encap_small e ltac:(lia)) Hs) as Hp.
  unfold find_dhcp_option_with_encap. rewrite (proj2 (Z.eqb_neq _ DHCP_PAD)) by (unfold DHCP_PAD; lia).
  assert (find_fuel o = length os + S (find_fuel o - length os - 1))%nat as ->.
  { unfold find_fuel. pose proof (length_encode os). rewrite Hu, length_app. lia. }
  rewrite Hu, length_app, Nat2Z.inj_add. change 0 with (Zlen (@nil Z)) at 1. rewrite <- app_assoc in Hd.
  erewrite find_loop_skip; [|unfold DHCP_PAD; lia|done|by apply encap_passes|exact Hd|lia].
  cbn [length]. change (Z.of_nat 0 + ?n) with n.
  erewrite find_loop_tail; [|exact Hd|by left].
  unfold DHCP_END. by rewrite (proj2 (Z.eqb_neq _ 255)) by lia.
Qed.

Lemma set_opt_set tag v w os : w ≠ [] → set_opt tag v (set_opt tag w os) = set_opt tag v os.
Proof.
  intros Hw. assert (new_opt tag w = [Opt tag w]) as Hn by (by destruct w).
  induction os as [|[|t x] os IH]; cbn.
  - rewrite Hn. cbn. by rewrite Z.eqb_refl, app_nil_r.
  - by rewrite IH.
  - destruct (Z.eqb_spec t tag); rewrite ?Hn; cbn; [by rewrite Z.eqb_refl|].
    rewrite (proj2 (Z.eqb_neq t tag)) by done. by rewrite IH.
Qed.

(** Deleting an option cannot fail. *)
Lemma delete_plain depth o os tl tag :
  never_refuses_to_shrink → represents o os tl → used_len o + 512 < 2 ^ 31 → tag_ok tag →
  represents (set_dhcp_option_depth (S depth) o tag []).2 (set_opt tag [] os) tl.
Proof.
  intros Hn Hrep Hsmall Ht. pose proof (set_plain depth o os tl tag [] Hrep Hsmall Ht) as Hs.
  destruct (set_dhcp_option_depth (S depth) o tag []) as [[off|e] o']; [by apply Hs|].
  destruct (Hs Hn) as [_ [Hw|Hw]]; [cbn in Hw; lia|].
  destruct (focus_opt tag os) as (b & old & a & Henc & _ & Hset & _).
  destruct Hrep as (_ & _ & Hu & Ha). rewrite Hset, Henc, !encode_app, !length_app in *. cbn in *. lia.
Qed.

(** The abstract store into an encapsulator's options: an existing option is
    replaced, a new one goes first. *)
Definition set_inner (t : Z) (value : bytes) (ios : list dopt) : list dopt :=
  match split_opt t ios with
  | Some (before, _, after) => before ++ new_opt t value ++ after
  | None => new_opt t value ++ ios
  end.

(** An encapsulator left with nothing but its end marker is deleted. *)
Definition strip (d : bytes) : bytes := if Zlen d <=? 1 then [] else d.

(** Offset, within the encapsulator, and length of the option to be replaced. *)
Definition inner_offset (t : Z) (ios : list dopt) : Z :=
  match split_opt t ios with Some (before, _, _) => Zlen (encode before) | None => 0 end.
Definition inner_len (t : Z) (ios : list dopt) : Z :=
  match split_opt t ios with Some (_, v, _) => Zlen (enc (Opt t v)) | None => 0 end.

Lemma focus_inner t ios :
  ∃ before old after,
    encode ios = before ++ old ++ after ∧ inner_offset t ios = Zlen before ∧ inner_len t ios = Zlen old ∧
    ∀ value, encode (set_inner t value ios) = before ++ encode (new_opt t value) ++ after.
Proof.
  unfold inner_offset, inner_len, set_inner. destruct (split_opt t ios) as [[[b v] a]|] eqn:E.
  - destruct (split_opt_Some _ _ _ _ _ E) as (-> & _ & _).
    exists (encode b), (enc (Opt t v)), (encode a). rewrite encode_app, encode_cons. split_and!; auto.
    intros. by rewrite !encode_app.
  - exists [], [], (encode ios). split_and!; auto. intros. by rewrite encode_app.
Qed.

Section encap.
Context (Hn : never_refuses_to_shrink) (depth : nat) (e t : Z) (os : list dopt) (tl : option bytes).
Context (before after ios : list dopt) (junk value : bytes).
Context (He : tag_ok e) (Ht : tag_ok t).
Abbreviation inner xs := (encode xs ++ DHCP_END :: junk).
Context (Hsplit : split_opt e os = Some (before, inner ios, after)).

Lemma set_inner_split : set_opt e (inner (set_inner t value ios)) os
                        = before ++ Opt e (inner (set_inner t value ios)) :: after.
Proof.
  destruct (split_opt_Some _ _ _ _ _ Hsplit) as (_ & _ & ->). f_equal.
  by destruct (encode (set_inner t value ios)).
Qed.

(** The resize and the copy, before an empty encapsulator is deleted. *)
Lemma resize_inner o :
  represents o os tl → used_len o + 512 < 2 ^ 31 →
  match resize_dhcp_option o (Zlen (encode before) + 2 + inner_offset t ios) (Zlen (encode before))
          (inner_len t ios) (Zlen (encode (new_opt t value))) with
  | (Ok _, o') =>
      Zlen (encode (new_opt t value)) ≤ 255 ∧
      represents
        (if negb (Zlen value =? 0)
         then with_data o' (store_at (data o') (Zlen (encode before) + 2 + inner_offset t ios)
                (u8 (DHCP_ENCAP_OPT e t) :: u8 (Zlen value) :: value))
         else o') (set_opt e (inner (set_inner t value ios)) os) tl
  | (Err _, o') => represents o' os tl
  end.
Proof.
  intros [Hok Hh] Hsmall. rewrite set_inner_split.
  destruct (split_opt_Some _ _ _ _ _ Hsplit) as (Hos & _ & _).
  destruct (focus_inner t ios) as (b & old & a & Henc & -> & -> & Hset). rewrite Hset.
  pose proof Hok as Hok'. rewrite Hos in Hok'. apply Forall_app in Hok' as [Hok1 [[_ Hlen] Hok2]%Forall_cons].
  set (pre := encode before ++ e :: Zlen (inner ios) :: b).
  set (post := a ++ DHCP_END :: junk ++ encode after ++ enc_tail tl).
  set (delta := Zlen (encode (new_opt t value)) - Zlen old).
  assert (Hbs : encode os ++ enc_tail tl = pre ++ old ++ post).
  { unfold pre, post. rewrite Hos, encode_app, encode_cons. cbn [enc]. generalize (Zlen (inner ios)).
    rewrite Henc. intros n. by simpl_app. }
  assert (Hl : Zlen (inner ios) = Zlen b + Zlen old + Zlen a + 1 + Zlen junk).
  { rewrite Henc, !length_app. cbn [length]. lia. }
  assert (Hpre : encap_resized pre (Zlen (encode before)) delta
                   (encode before ++ e :: (Zlen (inner ios) + delta) :: b)).
  { right. exists (encode before), e, (Zlen (inner ios)), b. unfold delta. split_and!; auto; lia. }
  rewrite Hbs in Hh.
  pose proof (resize_spec _ _ _ _ _ _ _ Hh Hsmall (Nat2Z.is_nonneg _) Hpre) as Hr.
  replace (Zlen pre) with (Zlen (encode before) + 2 + Zlen b) in Hr
    by (unfold pre; rewrite length_app; cbn [length]; lia).
  destruct (resize_dhcp_option _ _ _ _ _) as [[u|er] o'].
  2:{ destruct (Hr Hn) as [Hr' _]. split; [done|]. by rewrite Hbs. }
  destruct Hr as (Hmax & Henl & x & Hx & Hh'). split; [done|].
  assert (Hel : byte_at pre (Zlen (encode before) + 1) = Zlen (inner ios)).
  { apply (byte_at_eq _ _ (encode before ++ [e]) _ b); [by unfold pre; rewrite <- app_assoc|].
    rewrite length_app. cbn [length]. lia. }
  destruct Henl as [|Henl]; [lia|]. rewrite Hel in Henl.
  assert (Hl' : Zlen (inner (set_inner t value ios)) = Zlen (inner ios) + delta).
  { rewrite Hl, !length_app, Hset, !length_app. cbn [length]. unfold delta. lia. }
  rewrite Hset in Hl'. split.
  - apply Forall_app; split; [done|]. constructor; [|done]. split; [done|]. rewrite Hl'. unfold delta. lia.
  - destruct (encap_tag e t He Ht) as (_ & _ & _ & Hu8 & _).
    rewrite encode_app, encode_cons. cbn [enc]. rewrite Hl'.
    assert (Zlen value ≤ 255).
    { rewrite length_new_opt in Hmax. unfold DHCP_OPTION_HEADER_LEN in Hmax.
      destruct (Z.eqb_spec (Zlen value) 0); cbn in Hmax; lia. }
    refine (eq_ind _ (holds _) (write_option_spec o' _ x post _ _ _ _ Hh' _ Hx Hu8 _) _ _); [|done|].
    + rewrite length_app. cbn [length]. lia.
    + unfold post. by simpl_app.
Qed.

Lemma update_encap o :
  represents o os tl → used_len o + 1024 < 2 ^ 31 →
  match update_option (λ o, (set_dhcp_option_depth (S depth) o e []).2) o
          (Zlen (encode before) + 2 + inner_offset t ios) (Zlen (encode before)) (inner_len t ios)
          (Zlen (encode (new_opt t value))) (DHCP_ENCAP_OPT e t) value with
  | (Ok offset, o') =>
      offset = Zlen (encode before) + 2 + inner_offset t ios ∧
      represents o' (set_opt e (strip (inner (set_inner t value ios))) os) tl
  | (Err _, o') => represents o' os tl
  end.
Proof.
  intros Hrep Hsmall. pose proof (resize_inner o Hrep ltac:(lia)) as Hr. unfold update_option.
  destruct (resize_dhcp_option _ _ _ _ _) as [[u|er] o']; [|done]. destruct Hr as [Hmax Hr].
  set (o2 := if negb _ then _ else o') in *. split; [done|].
  assert (Hol : option_length o2 (Zlen (encode before)) = Zlen (inner (set_inner t value ios))).
  { rewrite set_inner_split in Hr. destruct Hr as (_ & [slack Hd] & _).
    rewrite encode_app, encode_cons, <- !app_assoc in Hd. by eapply option_length_enc. }
  rewrite Hol, (proj2 (Z.leb_le 0 _)) by lia. cbn [andb]. unfold strip. destruct (_ <=? 1); [|done].
  rewrite <- (set_opt_set _ _ (inner (set_inner t value ios))) by (by intros [_ [=]]%app_eq_nil).
  apply delete_plain; [done|done| |done]. destruct Hr as (_ & _ & -> & _), Hrep as (_ & _ & Hu & _).
  rewrite set_inner_split. destruct (split_opt_Some _ _ _ _ _ Hsplit) as (Hos & _ & _).
  rewrite Hos in Hu. rewrite encode_app, encode_cons, !length_app in *. cbn [enc length] in *.
  destruct (focus_inner t ios) as (b & old & a & Henc & _ & _ & Hset).
  rewrite !length_app, Henc, Hset, !length_app in *. cbn [length] in *. lia.
Qed.
End encap.

Lemma get_split tag os : get_opt tag os = (λ '(_, v, _), v) <$> split_opt tag os.
Proof.
  induction os as [|[|t v] os IH]; cbn; [done| |].
  - rewrite IH. by destruct (split_opt tag os) as [[[? ?] ?]|].
  - destruct (t =? tag); [done|]. rewrite IH. by destruct (split_opt tag os) as [[[? ?] ?]|].
Qed.

Lemma split_opt_end tag v os :
  split_opt tag os = None → split_opt tag (os ++ [Opt tag v]) = Some (os, v, []).
Proof.
  induction os as [|[|t w] os IH]; cbn; [by rewrite Z.eqb_refl| |].
  - destruct (split_opt tag os) as [[[? ?] ?]|]; [done|]. intros. by rewrite IH.
  - destruct (t =? tag); [done|]. destruct (split_opt tag os) as [[[? ?] ?]|]; [done|].
    intros. by rewrite IH.
Qed.

(** The encapsulator with tag [e] holds [ios] and an end marker; a missing one
    counts as empty. *)
Definition encap_contents (e : Z) (os ios : list dopt) (junk : bytes) : Prop :=
  Forall opt_ok ios ∧
  (get_opt e os = Some (encode ios ++ DHCP_END :: junk) ∨ (get_opt e os = None ∧ ios = [] ∧ junk = [])).

Lemma inner_old_len o os tl e t before ios junk after :
  represents o os tl → Forall opt_ok ios →
  split_opt e os = Some (before, encode ios ++ DHCP_END :: junk, after) →
  match (match split_opt t ios with
         | Some (b, _, _) => Ok (Zlen (encode before) + 2 + Zlen (encode b))
         | None => Err ENOENT
         end) with Ok offset => dhcp_option_len o offset | Err _ => 0 end = inner_len t ios.
Proof.
  intros (_ & [slack Hd] & _) Hios Hs. unfold inner_len. destruct (split_opt_Some _ _ _ _ _ Hs) as (-> & _ & _).
  destruct (split_opt t ios) as [[[b v] a]|] eqn:E; [|done].
  destruct (split_opt_Some _ _ _ _ _ E) as (-> & _ & _).
  apply Forall_app in Hios as [_ [Hx _]%Forall_cons].
  set (n := Zlen (encode (b ++ Opt t v :: a) ++ DHCP_END :: junk)).
  replace (Zlen (encode before) + 2 + Zlen (encode b)) with (Zlen (encode before ++ e :: n :: encode b))
    by (rewrite length_app; cbn [length]; lia).
  eapply dhcp_option_len_enc; [done|]. rewrite Hd, encode_app, encode_cons. cbn [enc]. fold n.
  rewrite encode_app, encode_cons. cbn [enc]. simpl_app. done.
Qed.

Lemma set_encap depth o os tl e t ios junk value :
  never_refuses_to_shrink → represents o os tl → used_len o + 2048 < 2 ^ 31 → tag_ok e → tag_ok t →
  encap_contents e os ios junk →
  match set_dhcp_option_depth (S (S depth)) o (DHCP_ENCAP_OPT e t) value with
  | (Ok offset, o') =>
      represents o' (set_opt e (strip (encode (set_inner t value ios) ++ DHCP_END :: junk)) os) tl
  | (Err _, o') =>
      represents o' os tl ∨ (get_opt e os = None ∧ represents o' (os ++ [Opt e [DHCP_END]]) tl)
  end.
Proof.
  intros Hn Hrep Hsmall He Ht [Hios Hc]. destruct (encap_tag e t He Ht) as (Heq & Her & _).
  remember (S depth) as d1. cbn [set_dhcp_option_depth]. rewrite Her.
  pose proof He as [??]; pose proof Ht as [??]. unfold DHCP_MAX_OPTION in *.
  rewrite (proj2 (Z.eqb_neq _ DHCP_PAD)), (proj2 (Z.eqb_neq e 0)) by (unfold DHCP_PAD; lia). cbn [negb].
  rewrite <- (length_new_opt t value), get_split in *.
  destruct (split_opt e os) as [[[before d] after]|] eqn:Hs; cbn in Hc.
  - destruct Hc as [[= ->]|[? _]]; [|done].
    rewrite (find_encap _ _ _ _ _ _ _ _ _ Hrep He Ht Hios Hs), (proj2 (Z.ltb_ge _ 0)) by lia.
    rewrite (inner_old_len _ _ _ _ _ _ _ _ _ Hrep Hios Hs).
    pose proof (update_encap Hn depth e t os tl before after ios junk value He Ht Hs o Hrep ltac:(lia)) as Hu.
    subst d1. unfold DHCP_OPTION_HEADER_LEN. cbv iota beta zeta. unfold inner_offset in Hu.
    destruct (split_opt t ios) as [[[b v] a]|]; [|rewrite Z.add_0_r in Hu];
      destruct (update_option _ _ _ _ _ _ _ _) as [[off|er] o']; try (by left); by apply Hu.
  - destruct Hc as [?|(_ & -> & ->)]; [done|].
    rewrite (find_encap_none _ _ _ _ _ Hrep He Ht Hs). change (-1 <? 0) with true. cbv iota beta zeta.
    pose proof (set_plain depth o os tl e [DHCP_END] Hrep ltac:(lia) He) as Hp. rewrite <- Heqd1 in Hp.
    destruct (set_dhcp_option_depth d1 o e [DHCP_END]) as [[off|er] o1]; [|left; by apply Hp, Hn].
    destruct Hp as (Hrep1 & -> & _). unfold opt_offset. rewrite Hs.
    pose proof (split_opt_end e [DHCP_END] os Hs) as Hs1.
    destruct (split_opt_None _ _ Hs) as [_ Hset]. rewrite (Hset [DHCP_END]) in Hrep1. cbn [new_opt] in Hrep1.
    assert (used_len o1 + 1024 < 2 ^ 31).
    { destruct Hrep1 as (_ & _ & -> & _), Hrep as (_ & _ & Hu & _).
      rewrite encode_app, !length_app in *. cbn [encode enc length mjoin list_join fmap list_fmap app] in *. lia. }
    pose proof (update_encap Hn depth e t _ tl os [] [] [] value He Ht Hs1 o1 Hrep1 ltac:(done)) as Hu.
    subst d1. unfold DHCP_OPTION_HEADER_LEN. change (inner_offset t []) with 0 in Hu.
    change (inner_len t []) with 0 in Hu. rewrite Z.add_0_r in Hu.
    destruct (update_option _ _ _ _ _ _ _ _) as [[off|er] o']; [|by right].
    destruct Hu as [_ Hu]. rewrite <- (set_opt_set _ _ [DHCP_END]) by done. by rewrite (Hset [DHCP_END]).
Qed.

(** ** Termination *)

(** Without encapsulation the search leaves the encapsulator's offset alone. *)
Lemma find_loop_eo fuel o tag offset remaining eo r :
  DHCP_IS_ENCAP_OPT tag = false → find_loop fuel o tag offset remaining eo = Some r → r.2 = eo.
Proof.
  intros Hne. revert offset remaining. induction fuel as [|fuel IH]; intros offset remaining; [done|].
  cbn. rewrite Hne. cbn [andb]. repeat case_match; try (by intros [= <-]); eauto.
Qed.

Lemma find_eo o tag : DHCP_IS_ENCAP_OPT tag = false → (find_dhcp_option_with_encap o tag).2 = -1.
Proof.
  intros Hne. unfold find_dhcp_option_with_encap. destruct (tag =? DHCP_PAD); [done|].
  destruct (find_loop _ _ _ _ _ _) eqn:E; [|done]. by eapply find_loop_eo.
Qed.

Lemma update_option_ext f g o offset eo old_len new_len tag value :
  (0 ≤ eo → ∀ o, f o = g o) →
  update_option f o offset eo old_len new_len tag value = update_option g o offset eo old_len new_len tag value.
Proof.
  intros Hfg. unfold update_option. destruct (resize_dhcp_option _ _ _ _ _) as [[]]; [|done].
  destruct (Z.leb_spec 0 eo); cbn [andb]; [|done]. case_match; [|done]. by rewrite Hfg.
Qed.

(** The recursion of set_dhcp_option is as deep as the tag has bytes. *)
Lemma set_depth_irrelevant n k o tag value :
  0 ≤ tag < 2 ^ (8 * Z.of_nat (S n)) →
  set_dhcp_option_depth (S n + k) o tag value = set_dhcp_option_depth (S n) o tag value.
Proof.
  revert o tag value. induction n as [|n IH]; intros o tag value Htag.
  - cbn [Nat.add set_dhcp_option_depth]. assert (DHCP_ENCAPSULATOR tag = 0) as Her.
    { unfold DHCP_ENCAPSULATOR. rewrite Z.shiftr_div_pow2 by lia. apply Z.div_small. done. }
    assert ((find_dhcp_option_with_encap o tag).2 = -1) as Hf.
    { apply find_eo. unfold DHCP_IS_ENCAP_OPT. by rewrite Her. }
    rewrite Her. change (negb (0 =? 0)) with false. cbv iota.
    destruct (tag =? DHCP_PAD); [done|]. destruct (find_dhcp_option_with_encap o tag) as [found eo].
    cbn in Hf. subst eo. apply update_option_ext. lia.
  - change (S (S n) + k)%nat with (S (S n + k)).
    remember (S n + k)%nat as n1. remember (S n) as n2. cbn [set_dhcp_option_depth].
    assert (∀ o v, set_dhcp_option_depth n1 o (DHCP_ENCAPSULATOR tag) v
                   = set_dhcp_option_depth n2 o (DHCP_ENCAPSULATOR tag) v) as Heq.
    { intros. subst. apply IH. unfold DHCP_ENCAPSULATOR. rewrite Z.shiftr_div_pow2 by lia.
      split; [apply Z.div_pos; lia|]. apply Z.div_lt_upper_bound; [lia|].
      rewrite <- Z.pow_add_r by lia. replace (8 + _) with (8 * Z.of_nat (S (S n))) by lia. lia. }
    destruct (tag =? DHCP_PAD); [done|]. destruct (find_dhcp_option_with_encap o tag) as [found eo].
    rewrite !Heq. destruct (if negb _ then _ else _) as [[[[] ?] ?] ?]; [|done].
    apply update_option_ext. intros _ ?. by rewrite Heq.
Qed.

(** An iteration consumes at least a byte; an encapsulator is at most 257. *)
Lemma find_loop_total fuel o tag offset remaining eo :
  is_bytes (data o) → 0 ≤ remaining →
  (Z.to_nat remaining + (if DHCP_IS_ENCAP_OPT tag then 258 else 0) < fuel)%nat →
  is_Some (find_loop fuel o tag offset remaining eo).
Proof.
  intros Hb. revert tag offset remaining eo.
  assert (∀ i, 0 ≤ byte_at (data o) i < 256) as Hbyte.
  { intros i. unfold byte_at. destruct (data o !! Z.to_nat i) eqn:E; [|cbn; lia].
    exact (proj1 (Forall_lookup _ _) Hb _ _ E). }
  assert (∀ i, 1 ≤ dhcp_option_len o i ≤ 257) as Hlen.
  { intros i. unfold dhcp_option_len, option_length, DHCP_OPTION_HEADER_LEN.
    specialize (Hbyte (i + 1)). destruct (_ || _); lia. }
  induction fuel as [|fuel IH]; intros tag offset remaining eo Hrem Hf; [lia|].
  cbn [find_loop]. specialize (Hlen offset).
  destruct (Z.eqb_spec remaining 0); [eauto|].
  destruct (Z.ltb_spec (remaining - dhcp_option_len o offset) 0); [eauto|].
  destruct (_ =? DHCP_END); [eauto|]. destruct (_ =? tag); [eauto|].
  destruct (DHCP_IS_ENCAP_OPT tag) eqn:E; cbn [andb].
  - destruct (_ =? _); apply IH; rewrite ?E; try lia.
    rewrite is_encap_small; [lia|]. unfold DHCP_ENCAPSULATED. change 255 with (2 ^ 8 - 1).
    rewrite land_mask by lia. apply Z.mod_pos_bound; lia.
  - apply IH; rewrite ?E; lia.
Qed.
End proofs.

(** ** Safety of the search on arbitrary bytes *)

(** Two blocks with the same used bytes. *)
Definition same_used (o1 o2 : dhcp_options) : Prop :=
  used_len o1 = used_len o2 ∧ ∀ i, 0 ≤ i < used_len o1 → byte_at (data o1) i = byte_at (data o2) i.

Lemma byte_at_range o i : is_bytes (data o) → 0 ≤ byte_at (data o) i < 256.
Proof.
  intros Hb. unfold byte_at. destruct (data o !! Z.to_nat i) eqn:E; [|cbn; lia].
  exact (proj1 (Forall_lookup _ _) Hb _ _ E).
Qed.

(** A header that is only partly within the used bytes is rejected whatever
    its second byte is. *)
Lemma same_used_step o1 o2 offset remaining :
  is_bytes (data o1) → is_bytes (data o2) → same_used o1 o2 → 0 ≤ offset → 0 < remaining →
  offset + remaining = used_len o1 →
  option_tag o1 offset = option_tag o2 offset ∧
  (dhcp_option_len o1 offset = dhcp_option_len o2 offset ∨
   (remaining - dhcp_option_len o1 offset < 0 ∧ remaining - dhcp_option_len o2 offset < 0)).
Proof.
  intros Hb1 Hb2 [_ Hs] ???. unfold dhcp_option_len, option_tag, option_length.
  rewrite <- (Hs offset) by lia. split; [done|]. destruct (_ || _); [by left|].
  destruct (decide (offset + 1 < used_len o1)); [left; rewrite Hs by lia; done|right].
  pose proof (byte_at_range o1 (offset + 1) Hb1). pose proof (byte_at_range o2 (offset + 1) Hb2).
  unfold DHCP_OPTION_HEADER_LEN. lia.
Qed.

Lemma find_loop_same fuel o1 o2 tag offset remaining eo :
  is_bytes (data o1) → is_bytes (data o2) → same_used o1 o2 → DHCP_IS_ENCAP_OPT tag = false →
  0 ≤ offset → 0 ≤ remaining → offset + remaining = used_len o1 →
  find_loop fuel o1 tag offset remaining eo = find_loop fuel o2 tag offset remaining eo.
Proof.
  intros Hb1 Hb2 Hs Hne. revert offset remaining.
  induction fuel as [|fuel IH]; intros offset remaining ???; [done|]. cbn [find_loop].
  destruct (Z.eqb_spec remaining 0); [done|].
  destruct (same_used_step o1 o2 offset remaining Hb1 Hb2 Hs ltac:(lia) ltac:(lia) ltac:(lia)) as [<- Hl].
  rewrite Hne. cbn [andb]. destruct Hl as [<-|[Hlt1 Hlt2]].
  - destruct (Z.ltb_spec (remaining - dhcp_option_len o1 offset) 0); [done|].
    repeat (case_match; [done|]). apply IH; [|lia..].
    unfold dhcp_option_len, DHCP_OPTION_HEADER_LEN. pose proof (byte_at_range o1 (offset + 1) Hb1).
    unfold option_length. destruct (_ || _); lia.
  - by rewrite (proj2 (Z.ltb_lt _ _) Hlt1), (proj2 (Z.ltb_lt _ _) Hlt2).
Qed.

Lemma find_loop_bounds fuel o tag offset remaining eo off eo' :
  is_bytes (data o) → DHCP_IS_ENCAP_OPT tag = false → 0 ≤ offset → 0 ≤ remaining →
  find_loop fuel o tag offset remaining eo = Some (Ok off, eo') →
  offset ≤ off ∧ off + dhcp_option_len o off ≤ offset + remaining ∧ option_tag o off = tag.
Proof.
  intros Hb Hne. revert offset remaining.
  induction fuel as [|fuel IH]; intros offset remaining ??; [done|]. cbn [find_loop].
  assert (1 ≤ dhcp_option_len o offset).
  { unfold dhcp_option_len, DHCP_OPTION_HEADER_LEN. pose proof (byte_at_range o (offset + 1) Hb).
    unfold option_length. destruct (_ || _); lia. }
  destruct (Z.eqb_spec remaining 0); [done|].
  destruct (Z.ltb_spec (remaining - dhcp_option_len o offset) 0); [done|].
  destruct (Z.eqb_spec (option_tag o offset) DHCP_END).
  { destruct (Z.eqb_spec tag DHCP_END); [|done]. intros [= <- <-]. split_and!; try lia; congruence. }
  destruct (Z.eqb_spec (option_tag o offset) tag); [intros [= <- <-]; split_and!; [lia..|done]|].
  rewrite Hne. cbn [andb]. intros Hf. apply IH in Hf; [|lia..]. lia.
Qed.

(** ** Fetching *)

Lemma fetch_at o pre t v post len :
  data o = pre ++ enc (Opt t v) ++ post → 0 ≤ len →
  (let option_len := option_length o (Zlen pre) in
   let len := if option_len <? len then option_len else len in
   Ok (option_len, load_at (data o) (Zlen pre + DHCP_OPTION_HEADER_LEN) len))
  = Ok (Zlen v, take (Z.to_nat len) v).
Proof.
  intros Hd Hlen. rewrite (option_length_enc _ _ _ _ _ Hd). cbv zeta. do 2 f_equal.
  unfold load_at. rewrite Hd. cbn [enc]. unfold DHCP_OPTION_HEADER_LEN.
  replace (Z.to_nat (Zlen pre + 2)) with (length (pre ++ [t; Zlen v])) by (rewrite length_app; cbn; lia).
  replace (pre ++ (t :: Zlen v :: v) ++ post) with ((pre ++ [t; Zlen v]) ++ v ++ post) by (by simpl_app).
  rewrite drop_app_length, take_app.
  replace (Z.to_nat _ - length v)%nat with 0%nat by (destruct (Z.ltb_spec (Zlen v) len); lia).
  rewrite app_nil_r. destruct (Z.ltb_spec (Zlen v) len); [|done]. rewrite !take_ge by lia. done.
Qed.

Lemma fetch_plain o os tl tag len :
  represents o os tl → tag_ok tag → 0 ≤ len →
  dhcpopt_fetch o tag len =
  match get_opt tag os with Some v => Ok (Zlen v, take (Z.to_nat len) v) | None => Err ENOENT end.
Proof.
  intros Hrep Ht Hlen. unfold dhcpopt_fetch. rewrite (find_plain _ _ _ _ Hrep Ht), get_split.
  destruct (split_opt tag os) as [[[before v] after]|] eqn:E; [|done]. cbn [fst fmap option_fmap option_map].
  destruct Hrep as (_ & [slack Hd] & _). destruct (split_opt_Some _ _ _ _ _ E) as (-> & _ & _).
  rewrite encode_app, encode_cons, <- !app_assoc in Hd. by eapply fetch_at.
Qed.

Lemma fetch_encap o os tl e t ios junk len :
  represents o os tl → tag_ok e → tag_ok t → encap_contents e os ios junk → 0 ≤ len →
  dhcpopt_fetch o (DHCP_ENCAP_OPT e t) len =
  match get_opt t ios with Some v => Ok (Zlen v, take (Z.to_nat len) v) | None => Err ENOENT end.
Proof.
  intros Hrep He Ht [Hios Hc] Hlen. unfold dhcpopt_fetch. rewrite !get_split in *.
  destruct (split_opt e os) as [[[before d] after]|] eqn:Hs; cbn in Hc.
  - destruct Hc as [[= ->]|[? _]]; [|done]. rewrite (find_encap _ _ _ _ _ _ _ _ _ Hrep He Ht Hios Hs).
    destruct (split_opt t ios) as [[[b v] a]|] eqn:E; [|done]. cbn [fst fmap option_fmap option_map].
    destruct Hrep as (_ & [slack Hd] & _). destruct (split_opt_Some _ _ _ _ _ Hs) as (-> & _ & _).
    destruct (split_opt_Some _ _ _ _ _ E) as (-> & _ & _).
    set (n := Zlen (encode (b ++ Opt t v :: a) ++ DHCP_END :: junk)) in *.
    replace (Zlen (encode before) + 2 + Zlen (encode b)) with (Zlen (encode before ++ e :: n :: encode b))
      by (rewrite length_app; cbn [length]; lia).
    eapply fetch_at; [|done]. rewrite Hd, encode_app, encode_cons. cbn [enc]. fold n.
    rewrite encode_app, encode_cons. cbn [enc]. simpl_app. done.
  - destruct Hc as [?|(_ & -> & ->)]; [done|]. by rewrite (find_encap_none _ _ _ _ _ Hrep He Ht Hs).
Qed.

(** ** Scanning a block for its used length *)

(** End of the last option that is not padding. *)
Fixpoint used_after (used base : Z) (os : list dopt) : Z :=
  match os with
  | [] => used
  | Pad :: os => used_after used (base + 1) os
  | x :: os => used_after (base + Zlen (enc x)) (base + Zlen (enc x)) os
  end.

Lemma update_loop_skip fuel o before : ∀ pre post rem used,
  Forall opt_ok before → data o = pre ++ encode before ++ post → 0 ≤ rem →
  update_loop (length before + fuel) o (Zlen pre) (Zlen (encode before) + rem) used =
  update_loop fuel o (Zlen pre + Zlen (encode before)) rem (used_after used (Zlen pre) before).
Proof.
  induction before as [|x before IH]; intros pre post rem used Hok Hd Hrem; [cbn; f_equal; lia|].
  apply Forall_cons in Hok as [Hx Hok']. rewrite encode_cons in Hd |- *. rewrite <- app_assoc in Hd.
  pose proof (dhcp_option_len_enc _ _ _ _ Hx Hd) as Hlen. pose proof (option_tag_enc _ _ _ _ Hd) as Htag.
  assert (0 < Zlen (enc x)) by (pose proof (enc_pos x); lia).
  cbn [length Nat.add update_loop]. rewrite Hlen, Htag, !length_app.
  rewrite (proj2 (Z.eqb_neq _ 0)), (proj2 (Z.ltb_ge _ 0)) by lia.
  rewrite app_assoc in Hd. rewrite <- Nat2Z.inj_add, <- (length_app pre).
  replace (Z.of_nat (length (enc x) + length (encode before)) + rem - Zlen (enc x))
    with (Zlen (encode before) + rem) by lia.
  rewrite (IH _ _ _ _ Hok' Hd Hrem), !length_app. f_equal; [lia|].
  destruct x as [|t v]; cbn [used_after]; rewrite Nat2Z.inj_add; [done|].
  destruct Hx as [[??] _]. unfold DHCP_PAD. by rewrite (proj2 (Z.eqb_neq t 0)) by lia.
Qed.

Lemma used_after_pads used base n : used_after used base (replicate n Pad) = used.
Proof. revert base; induction n; intros; cbn; auto. Qed.

Lemma used_after_snoc used base os t v :
  used_after used base (os ++ [Opt t v]) = base + Zlen (encode (os ++ [Opt t v])).
Proof.
  revert used base. induction os as [|x os IH]; intros used base.
  - unfold encode. cbn. rewrite app_nil_r. lia.
  - cbn [app used_after]. rewrite encode_cons, length_app. destruct x; rewrite IH; cbn [enc length]; lia.
Qed.

Lemma encode_pads n : encode (replicate n Pad) = replicate n 0.
Proof. induction n as [|n IH]; [done|]. cbn [replicate]. by rewrite encode_cons, IH. Qed.

(** The last option is not padding, or there are none. *)
Definition ends_live (os : list dopt) : Prop := os = [] ∨ ∃ os' t v, os = os' ++ [Opt t v].

Lemma used_after_live os : ends_live os → used_after 0 0 os = Zlen (encode os).
Proof. intros [->|(os' & t & v & ->)]; [done|]. by rewrite used_after_snoc. Qed.

Lemma update_pads fuel o pre n used :
  data o = pre ++ replicate n 0 → (n < fuel)%nat →
  update_loop fuel o (Zlen pre) (Z.of_nat n) used = Some used.
Proof.
  intros Hd Hf. replace fuel with (length (replicate n Pad) + S (fuel - n - 1))%nat
    by (rewrite length_replicate; lia).
  replace (Z.of_nat n) with (Zlen (encode (replicate n Pad)) + 0)
    by (rewrite encode_pads, length_replicate; lia).
  erewrite (update_loop_skip _ _ _ _ []); [| |by rewrite encode_pads, app_nil_r|lia].
  - by rewrite used_after_pads.
  - apply Forall_replicate. done.
Qed.

Lemma update_end fuel o pre post rem used :
  data o = pre ++ DHCP_END :: post → 0 < rem →
  update_loop (S fuel) o (Zlen pre) rem used =
  update_loop fuel o (Zlen (pre ++ [DHCP_END])) (rem - 1) (Zlen (pre ++ [DHCP_END])).
Proof.
  intros Hd Hrem. cbn [update_loop].
  assert (option_tag o (Zlen pre) = DHCP_END) as Htag by (by eapply byte_at_eq).
  unfold dhcp_option_len. rewrite Htag, Z.eqb_refl. cbn [orb].
  rewrite (proj2 (Z.eqb_neq _ 0)), (proj2 (Z.ltb_ge _ 0)) by lia. change (negb (DHCP_END =? DHCP_PAD)) with true.
  rewrite length_app, Nat2Z.inj_add. done.
Qed.

Lemma init_spec m os (fin : bool) n :
  let tl := if fin then Some [] else None in
  Forall opt_ok os → (fin = false → ends_live os) →
  m = (encode os ++ enc_tail tl) ++ replicate n 0 →
  represents (dhcpopt_init m (Zlen m)) os tl.
Proof.
  intros tl Hok Hlive Hm. split; [done|].
  assert (update_loop (S (Z.to_nat (Zlen m))) (DhcpOptions m 0 (Zlen m)) 0 (Zlen m) 0
          = Some (Zlen (encode os ++ enc_tail tl))) as Hu.
  { set (o := DhcpOptions m 0 (Zlen m)). pose proof (length_encode os) as Hle.
    assert (S (Z.to_nat (Zlen m)) = length os + S (S (length m - length os) - 1))%nat as ->
      by (rewrite Hm, !length_app; lia).
    replace (Zlen m) with (Zlen (encode os) + (Zlen m - Zlen (encode os))) at 1 by lia.
    assert (data o = [] ++ encode os ++ enc_tail tl ++ replicate n 0) as Hd
      by (cbn [data o]; rewrite Hm; by simpl_app).
    change 0 with (Zlen (@nil Z)) at 1. erewrite update_loop_skip; [|done|exact Hd|rewrite Hm, !length_app; lia].
    change (Zlen (@nil Z)) with 0. rewrite Z.add_0_l. destruct fin; cbn [enc_tail tl app] in *.
    - erewrite update_end; [|exact Hd|rewrite Hm, !length_app; cbn [length]; lia].
      replace (Zlen m - Zlen (encode os) - 1) with (Z.of_nat n)
        by (rewrite Hm, !length_app, length_replicate; cbn [length]; lia).
      apply update_pads; [rewrite Hd; by simpl_app|rewrite Hm, !length_app, length_replicate; cbn [length]; lia].
    - rewrite used_after_live, app_nil_r by auto.
      replace (Zlen m - Zlen (encode os)) with (Z.of_nat n)
        by (rewrite Hm, !length_app, length_replicate; cbn [length]; lia).
      apply update_pads; [done|rewrite Hm, !length_app, length_replicate; cbn [length]; lia]. }
  unfold dhcpopt_init, dhcpopt_update_used_len. cbn [alloc_len]. rewrite Hu.
  split; [by exists (replicate n 0)|]. split; [done|].
  cbn [used_len alloc_len data with_used_len default id]. rewrite Hm, !length_app. lia.
Qed.

(** ** Storing into an encapsulator, seen through the abstract lookups *)

Lemma get_opt_app tag os1 os2 :
  get_opt tag (os1 ++ os2) = match get_opt tag os1 with Some v => Some v | None => get_opt tag os2 end.
Proof. induction os1 as [|[|t v] os1 IH]; cbn; auto. by destruct (t =? tag). Qed.

Lemma get_set_inner_eq t value ios : value ≠ [] → get_opt t (set_inner t value ios) = Some value.
Proof.
  intros Hv. unfold set_inner. destruct (split_opt t ios) as [[[b v] a]|] eqn:E.
  - destruct (split_opt_Some _ _ _ _ _ E) as (_ & _ & <-). by apply get_set_opt_eq.
  - destruct value; [done|]. cbn. by rewrite Z.eqb_refl.
Qed.

Lemma get_set_inner_ne t t' value ios : t ≠ t' → get_opt t' (set_inner t value ios) = get_opt t' ios.
Proof.
  intros Hne. unfold set_inner. destruct (split_opt t ios) as [[[b v] a]|] eqn:E.
  - destruct (split_opt_Some _ _ _ _ _ E) as (_ & _ & <-). by apply get_set_opt_ne.
  - destruct value; [done|]. cbn. by rewrite (proj2 (Z.eqb_neq t t')).
Qed.

Lemma set_inner_ok t value ios :
  tag_ok t → Zlen value ≤ 255 → Forall opt_ok ios → Forall opt_ok (set_inner t value ios).
Proof.
  intros. unfold set_inner. destruct (split_opt t ios) as [[[b v] a]|] eqn:E.
  - destruct (split_opt_Some _ _ _ _ _ E) as (_ & _ & <-). by apply set_opt_ok.
  - apply Forall_app; split; [by apply new_opt_ok|done].
Qed.

Lemma strip_set_inner t value ios junk :
  value ≠ [] → strip (encode (set_inner t value ios) ++ DHCP_END :: junk)
               = encode (set_inner t value ios) ++ DHCP_END :: junk.
Proof.
  intros Hv. unfold strip. destruct (focus_inner t ios) as (b & old & a & _ & _ & _ & Hset).
  rewrite Hset, encode_new_opt, (proj2 (Z.leb_gt _ 1)); [done|].
  destruct value; [done|]. cbn [length]. rewrite (proj2 (Z.eqb_neq _ 0)) by lia. cbn [negb].
  rewrite !length_app. cbn [length]. lia.
Qed.

(** The value of a new option is at most 253 bytes, as its length and that of
    its encapsulator fit a byte. *)
Lemma set_inner_value e t value ios junk os :
  tag_ok t → value ≠ [] → Forall opt_ok (set_opt e (encode (set_inner t value ios) ++ DHCP_END :: junk) os) →
  Zlen value ≤ 253.
Proof.
  intros Ht Hv Hok. set (d := encode _ ++ _) in Hok.
  assert (get_opt e (set_opt e d os) = Some d) as Hg
    by (apply get_set_opt_eq; unfold d; by intros [_ [=]]%app_eq_nil).
  rewrite get_split in Hg. destruct (split_opt e _) as [[[b v] a]|] eqn:E; [|done].
  injection Hg as ->. destruct (split_opt_Some _ _ _ _ _ E) as (Heq & _ & _). rewrite Heq in Hok.
  apply Forall_app in Hok as [_ [[_ Hlen] _]%Forall_cons]. unfold d in Hlen.
  destruct (focus_inner t ios) as (b' & old & a' & _ & _ & _ & Hset).
  rewrite Hset, encode_new_opt, !length_app in Hlen.
  destruct value; [done|]. cbn [length] in *. rewrite (proj2 (Z.eqb_neq _ 0)) in Hlen by lia.
  cbn [negb length] in Hlen. lia.
Qed.

Section claims.
Context `{Platform, Realloc}.

(** C6: storing a plain option implements the abstract store on the list of
    options the block encodes, in packets and in non-volatile options alike: on
    success the block encodes the list with the first option of that tag replaced
    (or, for an empty value, removed), or with the option added at the end, before
    any end marker; the stored value can be fetched back, and no other option's
    value changes.  When it fails and the realloc method never refuses to shrink a
    block, the block encodes what it did, and the value was too long or did not fit
    the space allocated. *)
Theorem dhcpopt_store_correct o os tl tag value len :
  represents o os tl → used_len o + 2048 < 2 ^ 31 → tag_ok tag → 0 ≤ len →
  match dhcpopt_store o tag value with
  | (Ok _, o') =>
      represents o' (set_opt tag value os) tl ∧
      (value ≠ [] → dhcpopt_fetch o' tag len = Ok (Zlen value, take (Z.to_nat len) value)) ∧
      (∀ tag', tag_ok tag' → tag' ≠ tag → dhcpopt_fetch o' tag' len = dhcpopt_fetch o tag' len)
  | (Err _, o') =>
      never_refuses_to_shrink → represents o' os tl ∧
      (253 < Zlen value ∨ alloc_len o < Zlen (encode (set_opt tag value os) ++ enc_tail tl))
  end.
Proof.
  intros Hrep Hsmall Ht Hlen. unfold dhcpopt_store, set_dhcp_option.
  pose proof (set_plain 3 o os tl tag value Hrep ltac:(lia) Ht) as Hs.
  destruct (set_dhcp_option_depth 4 o tag value) as [[off|e] o']; [|done].
  destruct Hs as (Hrep' & _ & _). split; [done|]. split.
  - intros. rewrite (fetch_plain _ _ _ _ _ Hrep' Ht Hlen). by rewrite get_set_opt_eq.
  - intros tag' Ht' Hne. rewrite (fetch_plain _ _ _ _ _ Hrep' Ht' Hlen), (fetch_plain _ _ _ _ _ Hrep Ht' Hlen).
    by rewrite get_set_opt_ne.
Qed.

End claims.

(** fetching returns the length of the first option with the tag and as
    many bytes of it as fit the buffer, and an error if there is none; for an
    encapsulated tag, the same within the encapsulator's options. *)
Lemma dhcpopt_fetch_correct o os tl tag len :
  represents o os tl → 0 ≤ len →
  (tag_ok tag →
   dhcpopt_fetch o tag len =
   match get_opt tag os with Some v => Ok (Zlen v, take (Z.to_nat len) v) | None => Err ENOENT end) ∧
  (∀ e t ios junk, tag_ok e → tag_ok t → tag = DHCP_ENCAP_OPT e t → encap_contents e os ios junk →
   dhcpopt_fetch o tag len =
   match get_opt t ios with Some v => Ok (Zlen v, take (Z.to_nat len) v) | None => Err ENOENT end).
Proof.
  intros Hrep Hlen. split.
  - intros. by apply (fetch_plain o os tl).
  - intros e t ios junk He Ht -> Hc. by apply (fetch_encap o os tl e t ios junk).
Qed.

(** on arbitrary bytes the search terminates for every tag, and for a plain
    tag it reads nothing it depends on beyond the used bytes, and an option it
    finds carries the tag and lies within them entirely. *)
Lemma find_dhcp_option_paranoid o tag :
  is_bytes (data o) → 0 ≤ used_len o →
  is_Some (find_loop (find_fuel o) o tag 0 (used_len o) (-1)) ∧
  (0 ≤ tag < 256 →
   (∀ o', is_bytes (data o') → same_used o o' →
      find_dhcp_option_with_encap o' tag = find_dhcp_option_with_encap o tag) ∧
   (∀ offset eo, find_dhcp_option_with_encap o tag = (Ok offset, eo) →
      0 ≤ offset ∧ offset + dhcp_option_len o offset ≤ used_len o ∧ option_tag o offset = tag)).
Proof.
  intros Hb Hu. split.
  { apply find_loop_total; [done..|]. unfold find_fuel. destruct (DHCP_IS_ENCAP_OPT tag); lia. }
  intros Htag. pose proof (is_encap_small tag Htag) as Hne. unfold find_dhcp_option_with_encap. split.
  - intros o' Hb' Hs. destruct (tag =? DHCP_PAD); [done|]. unfold find_fuel. rewrite <- (proj1 Hs).
    by rewrite (find_loop_same _ o o' tag 0 (used_len o)) by (done || lia).
  - intros offset eo. destruct (tag =? DHCP_PAD); [done|].
    destruct (find_loop _ _ _ _ _ _) as [[r ?]|] eqn:E; [|done]. intros [= -> ->].
    apply find_loop_bounds in E; [|done..]. lia.
Qed.

(** The search for an encapsulated option runs past its encapsulator: the
    block holds encapsulator 43 with one padding byte, then a plain, empty option
    5.  Option 5 of encapsulator 43, which does not exist, is found at the offset
    of the plain option, and storing it succeeds and loses the plain option. *)
Lemma find_encap_overrun `{Platform} :
  let o := DhcpOptions ([43; 1; 0; 5; 0; 255] ++ replicate 8 0) 6 14 in
  let stored := dhcpopt_store (H0 := no_realloc) o (DHCP_ENCAP_OPT 43 5) [9] in
  represents o [Opt 43 [0]; Opt 5 []] (Some []) ∧
  find_dhcp_option_with_encap o (DHCP_ENCAP_OPT 43 5) = (Ok 3, 0) ∧
  stored.1 = Ok tt ∧ dhcpopt_fetch o 5 8 = Ok (0, []) ∧ dhcpopt_fetch stored.2 5 8 = Err ENOENT.
Proof.
  intros o stored. split.
  { split; [by_compute|]. split; [by exists (replicate 8 0)|]. by_compute. }
  split; [by_compute|].
  unfold stored, o. destruct H as [sz ? [-> | ->]]; by_compute.
Qed.

(** Initialising a block over memory that holds options, and possibly an
    end marker, followed by zeroes, recovers exactly those options. *)
Lemma dhcpopt_init_correct m os (fin : bool) n :
  let tl := if fin then Some [] else None in
  Forall opt_ok os → (fin = false → ends_live os) →
  m = (encode os ++ enc_tail tl) ++ replicate n 0 →
  represents (dhcpopt_init m (Zlen m)) os tl.
Proof. apply init_spec. Qed.

(** ** Witnesses *)

Definition example : dhcp_options :=
  DhcpOptions ([43; 5; 8; 1; 1; 0; 255; 12; 2; 65; 66; 255] ++ replicate 20 0) 12 32.

Lemma example_represents :
  represents example [Opt 43 [8; 1; 1; 0; 255]; Opt 12 [65; 66]] (Some []).
Proof. split; [by_compute|]. split; [by exists (replicate 20 0)|]. by_compute. Qed.

Lemma example_contents :
  encap_contents 43 [Opt 43 [8; 1; 1; 0; 255]; Opt 12 [65; 66]] [Opt 8 [1]; Pad] [].
Proof. split; [by_compute|by left]. Qed.

(** Non-volatile options in storage that can be resized. *)
Definition zeros (len : Z) : option bytes := Some (replicate (Z.to_nat len) 0).

Lemma zeros_enough len new_data : 0 < len → zeros len = Some new_data → len - 1 ≤ Z.of_nat (length new_data).
Proof. intros ? [= <-]. rewrite length_replicate. lia. Qed.

Definition nvo_resizable (resize : Z → res unit) : Realloc := nvo_realloc_method (Some resize) zeros zeros_enough.

(** A value that needs more room, in a packet and in non-volatile options that are
    full. *)
Definition example_full : dhcp_options := DhcpOptions [43; 5; 8; 1; 1; 0; 255; 12; 2; 65; 66; 255] 12 12.

Lemma example_full_represents :
  represents example_full [Opt 43 [8; 1; 1; 0; 255]; Opt 12 [65; 66]] (Some []).
Proof. split; [by_compute|]. split; [by exists []|]. by_compute. Qed.

Lemma dhcpopt_store_correct_witness :
  dhcpopt_fetch (dhcpopt_store (H := x86_64) (H0 := no_realloc) example 12 [1; 2; 3]).2 12 2 = Ok (3, [1; 2]) ∧
  dhcpopt_fetch (dhcpopt_store (H := x86_64) (H0 := nvo_resizable (λ _, Ok tt)) example_full 12 [1; 2; 3]).2 12 2 = Ok (3, [1; 2]).
Proof.
  pose proof (dhcpopt_store_correct (H := x86_64) (H0 := no_realloc) example _ _ 12 [1; 2; 3] 2
    example_represents ltac:(by_compute) ltac:(by_compute) ltac:(by_compute)) as Hw.
  pose proof (dhcpopt_store_correct (H := x86_64) (H0 := nvo_resizable (λ _, Ok tt)) example_full _ _ 12 [1; 2; 3] 2
    example_full_represents ltac:(by_compute) ltac:(by_compute) ltac:(by_compute)) as Hw'.
  assert (∃ u o', dhcpopt_store (H := x86_64) (H0 := no_realloc) example 12 [1; 2; 3] = (Ok u, o')) as (u & o' & E)
    by (eexists _, _; vm_compute; reflexivity).
  assert (∃ u o', dhcpopt_store (H := x86_64) (H0 := nvo_resizable (λ _, Ok tt)) example_full 12 [1; 2; 3] = (Ok u, o')) as (u' & o1 & E')
    by (eexists _, _; vm_compute; reflexivity).
  rewrite E in Hw |- *. rewrite E' in Hw' |- *. split; [by apply Hw|by apply Hw'].
Defined.

(** Non-volatile options whose storage cannot be shrunk: storing a shorter value
    fails after the options that follow have been moved, so that the option has
    neither its old nor its new value. *)
Lemma dhcpopt_store_refused :
  let r := dhcpopt_store (H := x86_64) (H0 := nvo_resizable (λ _, Err EIO)) example_full 43 [1] in
  r.1 = Err EIO ∧ dhcpopt_fetch example_full 43 5 = Ok (5, [8; 1; 1; 0; 255]) ∧
  dhcpopt_fetch r.2 43 5 = Ok (5, [8; 12; 2; 65; 66]).
Proof. by vm_compute. Qed.


