(* ===== verification/DhcpPkt.v ===== *)
(** * DHCP packets (src/net/dhcppkt.c, src/include/ipxe/dhcppkt.h)

    A packet is a fixed header, four fields of which double as settings, and
    an options block in the rest of the buffer, which cannot be reallocated. *)

From S2P Require Import Prelude DhcpOpts.

(** ** Data *)

(** Offsets of the fields of struct dhcphdr. *)
Definition dhcphdr_yiaddr : Z := 16.
Definition dhcphdr_siaddr : Z := 20.
Definition dhcphdr_sname : Z := 44.
Definition dhcphdr_file : Z := 108.
Definition dhcphdr_options : Z := 240.

Definition DHCP_TFTP_SERVER_NAME : Z := 66.
Definition DHCP_BOOTFILE_NAME : Z := 67.
Definition DHCP_EB_ENCAP : Z := 175.
Definition DHCP_EB_YIADDR : Z := DHCP_ENCAP_OPT DHCP_EB_ENCAP 0x02.
Definition DHCP_EB_SIADDR : Z := DHCP_ENCAP_OPT DHCP_EB_ENCAP 0x03.

(** The header bytes before the options, and the options. *)
Record dhcp_packet : Type := DhcpPacket {
  dhcphdr : bytes;
  options : dhcp_options;
}.

Fixpoint strnlen (s : bytes) : Z :=
  match s with [] => 0 | c :: s => if c =? 0 then 0 else 1 + strnlen s end.

(** [data] is the field, of its full length. *)
Definition used_len_ipv4 (data : bytes) : Z :=
  if forallb (λ b, b =? 0) (take 4 data) then 0 else 4.
Definition used_len_string (data : bytes) : Z := strnlen data.

Record dhcp_packet_field : Type := Field {
  field_tag : Z;
  field_offset : Z;
  field_len : Z;
  field_used_len : bytes → Z;
}.

Definition dhcp_packet_fields : list dhcp_packet_field :=
  [ Field DHCP_EB_YIADDR dhcphdr_yiaddr 4 used_len_ipv4;
    Field DHCP_EB_SIADDR dhcphdr_siaddr 4 used_len_ipv4;
    Field DHCP_TFTP_SERVER_NAME dhcphdr_sname 64 used_len_string;
    Field DHCP_BOOTFILE_NAME dhcphdr_file 128 used_len_string ].

(** The bytes of a field. *)
Definition field_data (p : dhcp_packet) (f : dhcp_packet_field) : bytes :=
  load_at (dhcphdr p) (field_offset f) (field_len f).

Fixpoint find_field (fields : list dhcp_packet_field) (tag : Z) : option dhcp_packet_field :=
  match fields with
  | [] => None
  | f :: fields => if field_tag f =? tag then Some f else find_field fields tag
  end.
Definition find_dhcp_packet_field (tag : Z) : option dhcp_packet_field :=
  find_field dhcp_packet_fields tag.

(** The fields of struct setting the packet's settings interface reads. *)
Record setting : Type := Setting {
  setting_tag : Z;
  setting_scope : option Z;
}.

(** ** Operations *)

Definition dhcppkt_applies (tag : Z) : bool := dhcpopt_applies tag.

Definition dhcppkt_store `{Platform} (p : dhcp_packet) (tag : Z) (value : bytes) : res unit * dhcp_packet :=
  match find_dhcp_packet_field tag with
  | Some f =>
      if field_len f <? Zlen value then (Err ENOSPC, p)
      else
        let hdr := store_at (dhcphdr p) (field_offset f) (replicate (Z.to_nat (field_len f)) 0) in
        let hdr := store_at hdr (field_offset f) value in
        (* Erase any equivalent option from the options block *)
        let '(_, opts) := dhcpopt_store (options p) tag [] in
        (Ok tt, DhcpPacket hdr opts)
  | None =>
      let '(rc, opts) := dhcpopt_store (options p) tag value in
      (rc, DhcpPacket (dhcphdr p) opts)
  end.

Definition dhcppkt_fetch (p : dhcp_packet) (tag len : Z) : res (Z * bytes) :=
  let '(field_len, data) :=
    match find_dhcp_packet_field tag with
    | Some f => (field_used_len f (field_data p f), field_data p f)
    | None => (0, [])
    end in
  if negb (field_len =? 0) then
    let len := if field_len <? len then field_len else len in
    Ok (field_len, take (Z.to_nat len) data)
  else dhcpopt_fetch (options p) tag len.

Definition dhcppkt_settings_applies (s : setting) : bool :=
  bool_decide (setting_scope s = None) && dhcppkt_applies (setting_tag s).
Definition dhcppkt_settings_store `{Platform} (p : dhcp_packet) (s : setting) (value : bytes)
    : res unit * dhcp_packet :=
  dhcppkt_store p (setting_tag s) value.
Definition dhcppkt_settings_fetch (p : dhcp_packet) (s : setting) (len : Z) : res (Z * bytes) :=
  dhcppkt_fetch p (setting_tag s) len.

(** [m] is the packet's memory, of which [len] bytes belong to it. *)
Definition dhcppkt_init (m : bytes) (len : Z) : dhcp_packet :=
  DhcpPacket (take (Z.to_nat dhcphdr_options) m)
    (dhcpopt_init (drop (Z.to_nat dhcphdr_options) m) (len - dhcphdr_options)).

Definition dhcppkt_len (p : dhcp_packet) : Z := dhcphdr_options + used_len (options p).

(** ** Fields of the header *)

(** What a value must look like for a field to hold it: an address is four
    bytes, not all zero, and a string has no NUL. *)
Definition canonical (f : dhcp_packet_field) (value : bytes) : Prop :=
  Zlen value ≤ field_len f ∧
  field_used_len f (value ++ replicate (Z.to_nat (field_len f - Zlen value)) 0) = Zlen value.

Definition header_ok (p : dhcp_packet) : Prop := Zlen (dhcphdr p) = dhcphdr_options.

(** A field lies within the header, and distinct fields are apart. *)
Definition field_ok (f : dhcp_packet_field) : Prop :=
  0 ≤ field_offset f ∧ 0 ≤ field_len f ∧ field_offset f + field_len f ≤ dhcphdr_options.
Definition apart (f g : dhcp_packet_field) : Prop :=
  field_offset f + field_len f ≤ field_offset g ∨ field_offset g + field_len g ≤ field_offset f.

Lemma find_field_In tag f : find_dhcp_packet_field tag = Some f → f ∈ dhcp_packet_fields ∧ field_tag f = tag.
Proof.
  unfold find_dhcp_packet_field. generalize dhcp_packet_fields as fs.
  induction fs as [|g fs IH]; cbn; [done|]. destruct (Z.eqb_spec (field_tag g) tag).
  - intros [= <-]. split; [by left|done].
  - intros [??]%IH. split; [by right|done].
Qed.

Lemma fields_ok tag f : find_dhcp_packet_field tag = Some f → field_ok f.
Proof.
  intros [Hin _]%find_field_In. revert Hin. apply Forall_forall. unfold field_ok. by_compute.
Qed.

Lemma fields_apart tag tag' f g :
  find_dhcp_packet_field tag = Some f → find_dhcp_packet_field tag' = Some g → tag ≠ tag' → apart f g.
Proof.
  intros [Hf <-]%find_field_In [Hg <-]%find_field_In Hne.
  assert (Forall (λ f, Forall (λ g, field_tag f = field_tag g ∨ apart f g) dhcp_packet_fields)
            dhcp_packet_fields) as Hall by (unfold apart; by_compute).
  rewrite Forall_forall in Hall. specialize (Hall f Hf). rewrite Forall_forall in Hall.
  by destruct (Hall g Hg).
Qed.

Lemma store_field m off len value :
  0 ≤ off → Zlen value ≤ len → off + len ≤ Zlen m →
  store_at (store_at m off (replicate (Z.to_nat len) 0)) off value =
  store_at m off (value ++ replicate (Z.to_nat (len - Zlen value)) 0).
Proof.
  intros Hoff Hv Hm.
  assert (∃ pre old post, m = pre ++ old ++ post ∧ off = Zlen pre ∧ len = Zlen old) as (pre & old & post & -> & -> & ->).
  { exists (take (Z.to_nat off) m), (take (Z.to_nat len) (drop (Z.to_nat off) m)),
      (drop (Z.to_nat len) (drop (Z.to_nat off) m)).
    rewrite !take_drop. split; [done|]. rewrite !length_take, length_drop. lia. }
  rewrite (store_at_app _ old) by (rewrite ?length_replicate; lia).
  rewrite (store_at_app _ old) by (rewrite ?length_app, ?length_replicate; lia).
  replace (Z.to_nat (Zlen old)) with (length value + Z.to_nat (Zlen old - Zlen value))%nat by lia.
  rewrite replicate_add, <- app_assoc. rewrite (store_at_app _ (replicate _ _)); [|done|by rewrite length_replicate].
  by rewrite <- app_assoc.
Qed.

Lemma load_store_eq m off len bs :
  0 ≤ off → len = Zlen bs → off + len ≤ Zlen m → load_at (store_at m off bs) off len = bs.
Proof.
  intros. unfold store_at. apply load_at_app; [rewrite length_take; lia|done].
Qed.

Lemma load_store_ne m off bs off' len :
  0 ≤ off → off + Zlen bs ≤ Zlen m → 0 ≤ off' → 0 ≤ len → off' + len ≤ Zlen m →
  off' + len ≤ off ∨ off + Zlen bs ≤ off' →
  load_at (store_at m off bs) off' len = load_at m off' len.
Proof.
  intros Hoff Hm Hoff' Hlen Hm' Hap. unfold load_at. apply list_eq. intros i.
  destruct (decide (i < Z.to_nat len)%nat); [|by rewrite !lookup_take_ge by lia].
  rewrite !lookup_take_lt, !lookup_drop by done. unfold store_at.
  destruct Hap.
  - rewrite lookup_app_l by (rewrite length_take; lia). by rewrite lookup_take_lt by lia.
  - rewrite lookup_app_r by (rewrite length_take; lia). rewrite length_take.
    rewrite lookup_app_r by lia. rewrite lookup_drop. f_equal. lia.
Qed.

(** ** Erasing the option a field stands for *)

Definition options_ok (o : dhcp_options) (os ios : list dopt) (tl : option bytes) (junk : bytes) : Prop :=
  represents o os tl ∧ used_len o + 2048 < 2 ^ 31 ∧ encap_contents DHCP_EB_ENCAP os ios junk.

Lemma same_gets_fetch o o' os os' tl tl' tag len :
  represents o os tl → represents o' os' tl' → tag_ok tag → 0 ≤ len → get_opt tag os = get_opt tag os' →
  dhcpopt_fetch o' tag len = dhcpopt_fetch o tag len.
Proof.
  intros Hr Hr' Ht Hlen Hg. by rewrite (fetch_plain _ _ _ _ _ Hr Ht Hlen), (fetch_plain _ _ _ _ _ Hr' Ht Hlen), Hg.
Qed.

Section store.
Context `{Platform}.
Context (o : dhcp_options) (os ios : list dopt) (tl : option bytes) (junk : bytes).
Context (Hopts : options_ok o os ios tl junk).

Lemma erase_plain tag tag' len :
  tag_ok tag → tag_ok tag' → tag' ≠ tag → 0 ≤ len →
  dhcpopt_fetch (dhcpopt_store o tag []).2 tag' len = dhcpopt_fetch o tag' len.
Proof.
  destruct Hopts as (Hrep & Hsmall & _). intros Ht Ht' Hne Hlen.
  pose proof (set_plain 3 o os tl tag [] Hrep ltac:(lia) Ht) as Hs. unfold dhcpopt_store, set_dhcp_option.
  destruct (set_dhcp_option_depth 4 o tag []) as [[?|?] o']; cbn [snd]; [|specialize (Hs no_realloc_shrinks)];
    destruct Hs as [Hrep' _]; apply (same_gets_fetch _ _ _ _ _ _ _ _ Hrep Hrep' Ht' Hlen); [|done].
  by rewrite get_set_opt_ne.
Qed.

Lemma erase_encap t tag' len :
  tag_ok t → tag_ok tag' → tag' ≠ DHCP_EB_ENCAP → 0 ≤ len →
  dhcpopt_fetch (dhcpopt_store o (DHCP_ENCAP_OPT DHCP_EB_ENCAP t) []).2 tag' len = dhcpopt_fetch o tag' len.
Proof.
  destruct Hopts as (Hrep & Hsmall & Hc). intros Ht Ht' Hne Hlen. set (e := DHCP_EB_ENCAP) in *.
  assert (tag_ok e) as He by (by_compute).
  pose proof (set_encap 2 o os tl e t ios junk [] no_realloc_shrinks Hrep Hsmall He Ht Hc) as Hs. unfold dhcpopt_store, set_dhcp_option.
  destruct (set_dhcp_option_depth 4 o (DHCP_ENCAP_OPT e t) []) as [[?|?] o']; cbn [snd].
  - apply (same_gets_fetch _ _ _ _ _ _ _ _ Hrep Hs Ht' Hlen). by rewrite get_set_opt_ne.
  - destruct Hs as [Hs|[Hn Hs]]; apply (same_gets_fetch _ _ _ _ _ _ _ _ Hrep Hs Ht' Hlen); [done|].
    rewrite get_opt_app. cbn [get_opt]. rewrite (proj2 (Z.eqb_neq e tag')) by done. by destruct (get_opt tag' os).
Qed.

Lemma erase_field tag f tag' len :
  find_dhcp_packet_field tag = Some f → tag_ok tag' → tag' ≠ tag → tag' ≠ DHCP_EB_ENCAP → 0 ≤ len →
  dhcpopt_fetch (dhcpopt_store o tag []).2 tag' len = dhcpopt_fetch o tag' len.
Proof.
  intros [Hin <-]%find_field_In ????. unfold dhcp_packet_fields in Hin.
  repeat (apply elem_of_cons in Hin as [->|Hin]); [| | | |by apply elem_of_nil in Hin]; cbn [field_tag] in *.
  - by apply erase_encap.
  - by apply erase_encap.
  - by apply erase_plain.
  - by apply erase_plain.
Qed.

(** storing a setting that has a field of its own in the packet header, in a
    value that the field can hold, succeeds: it is fetched back from the field
    whatever the options block held for it, the header's other fields keep their
    bytes, the packet stays the same size, and the other plain options keep their
    values; a value longer than the field is refused and nothing changes. *)
Lemma dhcppkt_store_field_correct p tag f value len :
  header_ok p → options p = o → find_dhcp_packet_field tag = Some f → 0 ≤ len →
  (field_len f < Zlen value → dhcppkt_store p tag value = (Err ENOSPC, p)) ∧
  (canonical f value →
   let p' := (dhcppkt_store p tag value).2 in
   (dhcppkt_store p tag value).1 = Ok tt ∧ header_ok p' ∧
   (value ≠ [] → dhcppkt_fetch p' tag len = Ok (Zlen value, take (Z.to_nat len) value)) ∧
   (∀ tag' g, find_dhcp_packet_field tag' = Some g → tag' ≠ tag → field_data p' g = field_data p g) ∧
   (∀ tag', tag_ok tag' → find_dhcp_packet_field tag' = None → tag' ≠ DHCP_EB_ENCAP →
      dhcppkt_fetch p' tag' len = dhcppkt_fetch p tag' len)).
Proof using Hopts.
  intros Hp Ho Hf Hlen. unfold dhcppkt_store. rewrite Hf.
  split; [intros Hlt; by rewrite (proj2 (Z.ltb_lt _ _) Hlt)|]. intros [Hv Hc].
  rewrite (proj2 (Z.ltb_ge _ _) Hv). destruct (fields_ok _ _ Hf) as (? & ? & Hin). unfold header_ok in *.
  rewrite store_field by lia. set (bs := value ++ replicate _ 0) in *.
  assert (Zlen bs = field_len f) as Hbs by (unfold bs; rewrite length_app, length_replicate; lia).
  destruct (dhcpopt_store (options p) tag []) as [rc opts] eqn:E. cbn [fst snd dhcphdr options].
  split_and!; [done|rewrite length_store_at; lia|..].
  - intros Hne. unfold dhcppkt_fetch, field_data. rewrite Hf. cbn [dhcphdr].
    rewrite load_store_eq, Hc, (proj2 (Z.eqb_neq _ 0)) by (destruct value; cbn in *; lia || done).
    cbn [negb]. do 2 f_equal. unfold bs. rewrite take_app.
    replace (Z.to_nat _ - length value)%nat with 0%nat by (destruct (Z.ltb_spec (Zlen value) len); lia).
    rewrite app_nil_r. destruct (Z.ltb_spec (Zlen value) len); [|done]. by rewrite !take_ge by lia.
  - intros tag' g Hg Hne. unfold field_data. cbn [dhcphdr]. destruct (fields_ok _ _ Hg) as (? & ? & ?).
    destruct (fields_apart _ _ _ _ Hf Hg (not_eq_sym Hne)); apply load_store_ne; lia.
  - intros tag' Ht' Hn Hne. unfold dhcppkt_fetch. rewrite Hn. cbn [negb options].
    change (0 =? 0) with true. cbn [negb].
    rewrite Ho in E |- *. replace opts with (dhcpopt_store o tag []).2 by (by rewrite E).
    apply (erase_field _ f); try done. intros ->. congruence.
Qed.
End store.

Definition example_packet : dhcp_packet :=
  dhcppkt_init (replicate 240 0 ++ [12; 1; 65; 66; 1; 90; 255] ++ replicate 20 0) 267.

