(* ===== verification/Bigint.v ===== *)
(** * Big integers (src/crypto/bigint.c, src/arch/x86/include/bits/bigint.h,
    src/arch/x86/core/x86_bigint.c, src/include/ipxe/bigint.h)

    A big integer is an array of 32-bit elements, least significant first.  The
    x86 assembly primitives are modelled instruction by instruction, on lists of
    elements with the carry flag passed along; [loop] is a do-while, so arrays
    have at least one element.  The theorems relate them to arithmetic on [Z],
    up to modular exponentiation. *)

From S2P Require Import Prelude.

(** ** Elements *)

Abbreviation element := Z.
Abbreviation bigint := (list element).
Definition element_bits : Z := 32.
Definition sizeof_element : Z := 4.
(** 2 to the 32 and 2 to the 31. *)
Abbreviation radix := 4294967296.
Abbreviation half := 2147483648.
Ltac ranges := unfold in_range in *; change (2 ^ 32) with radix in *.

Definition bigint_required_size (len : Z) : Z := (len + sizeof_element - 1) / sizeof_element.

(** An array seen as bytes, and back (x86 is little-endian). *)
Definition to_bytes (value : bigint) : bytes := mjoin (le_split 4 <$> value).

Fixpoint of_bytes (size : nat) (bs : bytes) : bigint :=
  match size with
  | O => []
  | S size => le_combine (take 4 bs) :: of_bytes size (drop 4 bs)
  end.

(** ** Primitives *)

(** movb -1(data,count), %al; stosb; loop: the bytes from the last one down. *)
Fixpoint copy_reversed (count : nat) (data : bytes) : bytes :=
  match count with
  | O => []
  | S count => default 0 (data !! count) :: copy_reversed count data
  end.

(** [None]: with a zero count [loop], or with a negative one [rep stosb], would
    run through all of memory. *)
Definition bigint_init_raw (size : nat) (data : bytes) : option bigint :=
  let len := length data in
  if decide (len = 0%nat ∨ (4 * size < len)%nat) then None
  else
    let pad_len := (4 * size - len)%nat in
    Some (of_bytes size (copy_reversed len data ++ replicate pad_len 0)).

Definition bigint_done_raw (value : bigint) (len : nat) : option bytes :=
  if decide (len = 0%nat) then None else Some (copy_reversed len (to_bytes value)).

(** lodsl; adcl %eax, (value,index,4); loop. *)
Fixpoint adcl_loop (cf : Z) (addend value : bigint) : bigint :=
  match addend, value with
  | a :: addend, v :: value =>
      let sum := v + a + cf in
      sum mod radix :: adcl_loop (sum / radix) addend value
  | _, _ => value
  end.
Definition bigint_add_raw (addend value : bigint) : bigint := adcl_loop 0 addend value.

(** lodsl; sbbl %eax, (value,index,4); loop. *)
Fixpoint sbbl_loop (cf : Z) (subtrahend value : bigint) : bigint :=
  match subtrahend, value with
  | s :: subtrahend, v :: value =>
      let difference := v - s - cf in
      difference mod radix :: sbbl_loop (if difference <? 0 then 1 else 0) subtrahend value
  | _, _ => value
  end.
Definition bigint_subtract_raw (subtrahend value : bigint) : bigint := sbbl_loop 0 subtrahend value.

(** rcll $1, (value,index,4), upwards. *)
Fixpoint rcll_loop (cf : Z) (value : bigint) : bigint :=
  match value with
  | [] => []
  | v :: value => (2 * v + cf) mod radix :: rcll_loop (v / half) value
  end.
Definition bigint_rol_raw (value : bigint) : bigint := rcll_loop 0 value.

(** rcrl $1, -4(value,count,4), downwards: the list is the array reversed. *)
Fixpoint rcrl_loop (cf : Z) (downwards : bigint) : bigint :=
  match downwards with
  | [] => []
  | v :: downwards => v / 2 + cf * half :: rcrl_loop (v mod 2) downwards
  end.
Definition bigint_ror_raw (value : bigint) : bigint := rev (rcrl_loop 0 (rev value)).

(** repe scasl. *)
Fixpoint bigint_is_zero_raw (value : bigint) : bool :=
  match value with
  | [] => true
  | v :: value => if v =? 0 then bigint_is_zero_raw value else false
  end.

(** lodsl; scasl; loope, downwards, and the flags of the last comparison. *)
Fixpoint scasl_loop (value reference : bigint) : bool :=
  match value, reference with
  | v :: value, r :: reference => if v =? r then scasl_loop value reference else r <=? v
  | _, _ => true
  end.
Definition bigint_is_geq_raw (value reference : bigint) : bool := scasl_loop (rev value) (rev reference).

Definition bigint_bit_is_set_raw (value : bigint) (bit : Z) : bool :=
  let index := bit / element_bits in
  let subindex := bit mod element_bits in
  negb (Z.land (default 0 (value !! Z.to_nat index)) (Z.shiftl 1 subindex) =? 0).

(** bsrl; loopz, downwards; the count left is the index of the element found. *)
Fixpoint bsrl_loop (downwards : bigint) : Z :=
  match downwards with
  | [] => 0
  | v :: downwards => if v =? 0 then bsrl_loop downwards else Z.log2 v + 32 * Zlen downwards + 1
  end.
Definition bigint_max_set_bit_raw (value : bigint) : Z := bsrl_loop (rev value).

Definition bigint_grow_raw (source : bigint) (dest_size : nat) : bigint :=
  source ++ replicate (dest_size - length source) 0.
Definition bigint_shrink_raw (source : bigint) (dest_size : nat) : bigint := take dest_size source.

(** ** Multiplication *)

(** adcl $0, 8(result,index,4); inc; jc: [None] if the carry leaves the memory. *)
Fixpoint carry_loop (cf : Z) (m : bigint) : option bigint :=
  match m with
  | [] => None
  | z :: m =>
      let sum := z + cf in
      if sum / radix =? 0 then Some (sum mod radix :: m)
      else m ← carry_loop 1 m; Some (sum mod radix :: m)
  end.

(** mull; addl; adcl; and the carry, at the start of [m]. *)
Definition multiply_add (a b : element) (m : bigint) : option bigint :=
  match m with
  | x :: y :: m =>
      let product := a * b in
      let eax := product mod radix in
      let edx := product / radix in
      let sum := x + eax in
      let sum' := y + edx + sum / radix in
      m ← carry_loop (sum' / radix) m;
      Some (sum mod radix :: sum' mod radix :: m)
  | _ => None
  end.

(** The same at index [k] of the memory. *)
Definition multiply_add_at (k : nat) (a b : element) (m : bigint) : option bigint :=
  suffix ← multiply_add a b (drop k m);
  Some (take k m ++ suffix).

Fixpoint multiply_inner (k : nat) (a : element) (multiplier : bigint) (m : bigint) : option bigint :=
  match multiplier with
  | [] => Some m
  | b :: multiplier => m ← multiply_add_at k a b m; multiply_inner (S k) a multiplier m
  end.

Fixpoint multiply_outer (i : nat) (multiplicand multiplier : bigint) (m : bigint) : option bigint :=
  match multiplicand with
  | [] => Some m
  | a :: multiplicand => m ← multiply_inner i a multiplier m; multiply_outer (S i) multiplicand multiplier m
  end.

(** [m] is the memory from [result] on: the carry instruction of the last step
    touches the element after the [2 * size] of the result. *)
Definition bigint_multiply_raw (size : nat) (multiplicand multiplier m : bigint) : option bigint :=
  multiply_outer 0 multiplicand multiplier (replicate (2 * size) 0 ++ drop (2 * size) m).

(** ** Modular arithmetic *)

(** Subtract multiples of modulus. *)
Fixpoint reduce_loop (count : nat) (result modulus : bigint) : bigint * bigint :=
  match count with
  | O => (result, modulus)
  | S count =>
      let result := if bigint_is_geq_raw result modulus then bigint_subtract_raw modulus result else result in
      reduce_loop count result (bigint_ror_raw modulus)
  end.

(** [tmp] is the working space: the double-size result, then the double-size
    modulus.  Returns the result and the working space. *)
Definition bigint_mod_multiply_raw (size : nat) (multiplicand multiplier modulus tmp : bigint)
    : option (bigint * bigint) :=
  m ← bigint_multiply_raw size multiplicand multiplier tmp;
  let temp_result := take (2 * size) m in
  let temp_modulus := bigint_grow_raw modulus (2 * size) in
  let rotation := bigint_max_set_bit_raw temp_result - bigint_max_set_bit_raw temp_modulus in
  let temp_modulus := Nat.iter (Z.to_nat rotation) bigint_rol_raw temp_modulus in
  let '(temp_result, temp_modulus) := reduce_loop (Z.to_nat (rotation + 1)) temp_result temp_modulus in
  Some (bigint_shrink_raw temp_result size, temp_result ++ temp_modulus).

(** The loop of the exponentiation; an iteration shifts the exponent right, so
    as many iterations as it has bits suffice ([mod_exp_loop_spec]). *)
Fixpoint mod_exp_loop (fuel : nat) (size : nat) (result base exponent modulus tmp : bigint) : option bigint :=
  if bigint_is_zero_raw exponent then Some result
  else
    match fuel with
    | O => None
    | S fuel =>
        '(result, tmp) ←
          (if bigint_bit_is_set_raw exponent 0
           then bigint_mod_multiply_raw size result base modulus tmp
           else Some (result, tmp));
        let exponent := bigint_ror_raw exponent in
        '(base, tmp) ← bigint_mod_multiply_raw size base base modulus tmp;
        mod_exp_loop fuel size result base exponent modulus tmp
    end.

Definition bigint_mod_exp_raw (size : nat) (base modulus exponent tmp : bigint) : option bigint :=
  result ← bigint_init_raw size [0x01];
  mod_exp_loop (32 * length exponent) size result base exponent modulus tmp.

(** ** Values *)

(** The number an array stands for. *)
Fixpoint bval (value : bigint) : Z :=
  match value with [] => 0 | v :: value => v + radix * bval value end.

Abbreviation wf := (Forall (in_range 32)).
(** [2 ^ (32 n)] *)
Definition pow (n : nat) : Z := radix ^ Z.of_nat n.

Lemma pow_S n : pow (S n) = radix * pow n.
Proof. unfold pow. rewrite Nat2Z.inj_succ, Z.pow_succ_r by lia. done. Qed.
Lemma pow_pos n : 0 < pow n.
Proof. apply Z.pow_pos_nonneg; lia. Qed.
Lemma pow_2 n : pow n = 2 ^ (32 * Z.of_nat n).
Proof. unfold pow. change radix with (2 ^ 32). by rewrite <- Z.pow_mul_r by lia. Qed.
Lemma pow_add n k : pow (n + k) = pow n * pow k.
Proof. unfold pow. rewrite Nat2Z.inj_add, Z.pow_add_r by lia. done. Qed.

Lemma bval_range value : wf value → 0 ≤ bval value < pow (length value).
Proof.
  induction 1 as [|v value Hv Hwf IH]; cbn [bval length]; [done|].
  rewrite pow_S. ranges. lia.
Qed.

Lemma bval_app l1 l2 : bval (l1 ++ l2) = bval l1 + pow (length l1) * bval l2.
Proof. induction l1 as [|x l1 IH]; cbn [app bval length]; [change (pow 0) with 1; lia|]. rewrite IH, pow_S. lia. Qed.

Lemma bval_inj l1 l2 : wf l1 → wf l2 → length l1 = length l2 → bval l1 = bval l2 → l1 = l2.
Proof.
  intros Hwf1. revert l2. induction Hwf1 as [|x l1 Hx Hwf1 IH]; intros [|y l2]; try done.
  intros [Hy Hwf2]%Forall_cons [= Hl] Hv. cbn [bval] in Hv. ranges.
  assert (x = y ∧ bval l1 = bval l2) as [-> ?]; [|f_equal; auto].
  destruct (Z.div_mod_unique radix (bval l1) (bval l2) x y); [left; lia..|lia|done].
Qed.

Lemma bval_zeros n : bval (replicate n 0) = 0.
Proof. induction n as [|n IH]; cbn [replicate bval]; lia. Qed.

Lemma wf_zeros n : wf (replicate n 0).
Proof. apply Forall_replicate. by_compute. Qed.

Lemma in_range_mod x : in_range 32 (x mod radix).
Proof. apply Z.mod_pos_bound. lia. Qed.

Lemma bval_div_mod x n : bval (x mod radix :: n) = bval n * radix + x - radix * (x / radix).
Proof. cbn [bval]. pose proof (Z.div_mod x radix). lia. Qed.

(** ** Addition, subtraction, shifts *)

Lemma adcl_loop_spec cf addend value :
  length addend = length value → wf addend → wf value → 0 ≤ cf ≤ 1 →
  wf (adcl_loop cf addend value) ∧ length (adcl_loop cf addend value) = length value ∧
  bval (adcl_loop cf addend value) = (bval addend + bval value + cf) mod pow (length value).
Proof.
  revert cf value. induction addend as [|a addend IH]; intros cf [|v value] Hl; try done.
  - intros. split_and!; auto. cbn. by rewrite Z.mod_1_r.
  - intros [Ha Hwa]%Forall_cons [Hv Hwv]%Forall_cons Hcf. injection Hl as Hl. cbn [adcl_loop length].
    ranges. set (sum := v + a + cf).
    assert (0 ≤ sum / radix ≤ 1) as Hq
      by (split; [apply Z.div_pos|apply Z.lt_succ_r, Z.div_lt_upper_bound]; unfold sum; lia).
    destruct (IH (sum / radix) value Hl Hwa Hwv Hq) as (Hwf & Hlen & Hb).
    split_and!; [constructor; [apply in_range_mod|done]|by rewrite Hlen|].
    cbn [bval]. rewrite Hb, pow_S. pose proof (pow_pos (length value)).
    rewrite Z.rem_mul_r by lia.
    assert (a + radix * bval addend + (v + radix * bval value) + cf
            = sum + (bval addend + bval value) * radix) as -> by (unfold sum; lia).
    rewrite Z.mod_add, Z.div_add by lia. do 3 f_equal. lia.
Qed.

Lemma sbbl_loop_spec cf subtrahend value :
  length subtrahend = length value → wf subtrahend → wf value → 0 ≤ cf ≤ 1 →
  wf (sbbl_loop cf subtrahend value) ∧ length (sbbl_loop cf subtrahend value) = length value ∧
  bval (sbbl_loop cf subtrahend value) = (bval value - bval subtrahend - cf) mod pow (length value).
Proof.
  revert cf value. induction subtrahend as [|a subtrahend IH]; intros cf [|v value] Hl; try done.
  - intros. split_and!; auto. cbn. by rewrite Z.mod_1_r.
  - intros [Ha Hwa]%Forall_cons [Hv Hwv]%Forall_cons Hcf. injection Hl as Hl. cbn [sbbl_loop length].
    ranges. set (d := v - a - cf).
    set (cf' := if d <? 0 then 1 else 0).
    assert (d / radix = - cf') as Hq.
    { unfold cf'. destruct (Z.ltb_spec d 0); [|apply Z.div_small; unfold d; lia].
      symmetry. apply (Z.div_unique d radix (-1) (d + radix)); unfold d in *; lia. }
    assert (0 ≤ cf' ≤ 1) as Hcf' by (unfold cf'; destruct (d <? 0); lia).
    destruct (IH cf' value Hl Hwa Hwv Hcf') as (Hwf & Hlen & Hb).
    split_and!; [constructor; [apply in_range_mod|done]|by rewrite Hlen|].
    cbn [bval]. rewrite Hb, pow_S. pose proof (pow_pos (length value)).
    rewrite Z.rem_mul_r by lia.
    assert (v + radix * bval value - (a + radix * bval subtrahend) - cf
            = d + (bval value - bval subtrahend) * radix) as -> by (unfold d; lia).
    rewrite Z.mod_add, Z.div_add by lia. do 3 f_equal. lia.
Qed.

Lemma bigint_add_spec addend value :
  length addend = length value → wf addend → wf value →
  wf (bigint_add_raw addend value) ∧ length (bigint_add_raw addend value) = length value ∧
  bval (bigint_add_raw addend value) = (bval addend + bval value) mod pow (length value).
Proof. intros. rewrite <- (Z.add_0_r (bval addend + _)). by apply adcl_loop_spec. Qed.

Lemma bigint_subtract_spec subtrahend value :
  length subtrahend = length value → wf subtrahend → wf value →
  wf (bigint_subtract_raw subtrahend value) ∧ length (bigint_subtract_raw subtrahend value) = length value ∧
  bval (bigint_subtract_raw subtrahend value) = (bval value - bval subtrahend) mod pow (length value).
Proof. intros. rewrite <- (Z.sub_0_r (bval value - _)). by apply sbbl_loop_spec. Qed.

(** Rotating left through the carry is adding the number to itself. *)
Lemma rcll_adcl cf value : wf value → 0 ≤ cf ≤ 1 → rcll_loop cf value = adcl_loop cf value value.
Proof.
  intros Hwf. revert cf. induction Hwf as [|v value Hv Hwf IH]; intros cf Hcf; [done|].
  cbn [rcll_loop adcl_loop]. ranges. replace (v + v + cf) with (2 * v + cf) by lia.
  assert ((2 * v + cf) / radix = v / half) as ->.
  { change radix with (2 * half). rewrite <- Z.div_div by lia. f_equal.
    rewrite Z.mul_comm, Z.div_add_l by lia. rewrite (Z.div_small cf) by lia. lia. }
  f_equal. apply IH. split; [apply Z.div_pos; lia|]. apply Z.lt_succ_r, Z.div_lt_upper_bound; lia.
Qed.

Lemma bigint_rol_spec value :
  wf value → wf (bigint_rol_raw value) ∧ length (bigint_rol_raw value) = length value ∧
  bval (bigint_rol_raw value) = (2 * bval value) mod pow (length value).
Proof.
  intros Hwf. unfold bigint_rol_raw. rewrite rcll_adcl by (done || lia).
  replace (2 * bval value) with (bval value + bval value) by lia. by apply bigint_add_spec.
Qed.

(** The value of an array read downwards. *)
Fixpoint dval (acc : Z) (downwards : bigint) : Z :=
  match downwards with [] => acc | v :: downwards => dval (acc * radix + v) downwards end.

Lemma dval_acc acc l : dval acc l = acc * pow (length l) + dval 0 l.
Proof.
  revert acc. induction l as [|v l IH]; intros acc; cbn [dval length]; [change (pow 0) with 1; lia|].
  rewrite (IH (acc * radix + v)), (IH (0 * radix + v)), pow_S. lia.
Qed.

Lemma dval_app acc l1 l2 : dval acc (l1 ++ l2) = dval (dval acc l1) l2.
Proof. revert acc. induction l1; intros; cbn; auto. Qed.

Lemma bval_rev l : bval l = dval 0 (rev l).
Proof.
  induction l as [|v l IH]; [done|]. cbn [bval rev]. rewrite dval_app. cbn [dval]. lia.
Qed.

Lemma dval_rev l : dval 0 l = bval (rev l).
Proof. by rewrite bval_rev, rev_involutive. Qed.

Lemma wf_rev l : wf l → wf (rev l).
Proof. intros. by apply Forall_rev. Qed.

Lemma dval_range l : wf l → 0 ≤ dval 0 l < pow (length l).
Proof. intros. rewrite dval_rev, <- length_rev. by apply bval_range, wf_rev. Qed.

Lemma rcrl_loop_spec cf l :
  wf l → 0 ≤ cf ≤ 1 →
  wf (rcrl_loop cf l) ∧ length (rcrl_loop cf l) = length l ∧
  dval 0 (rcrl_loop cf l) = (cf * pow (length l) + dval 0 l) / 2.
Proof.
  intros Hwf. revert cf. induction Hwf as [|v l Hv Hwf IH]; intros cf Hcf; cbn [rcrl_loop dval length].
  - split_and!; auto. change (pow 0) with 1. rewrite Z.mul_1_r, Z.add_0_r. rewrite Z.div_small by lia. done.
  - ranges. assert (0 ≤ v mod 2 ≤ 1) as Hm by (pose proof (Z.mod_pos_bound v 2); lia).
    pose proof (Z.div_mod v 2 ltac:(lia)) as Hdm.
    destruct (IH _ Hm) as (Hw & Hl & Hd). split_and!; [|by rewrite Hl|].
    + constructor; [|done]. ranges. lia.
    + rewrite dval_acc, (dval_acc (0 * radix + v)), Hd, Hl, pow_S.
      rewrite <- Z.div_add_l by lia. f_equal. change radix with (2 * half). lia.
Qed.

Lemma bigint_ror_spec value :
  wf value → wf (bigint_ror_raw value) ∧ length (bigint_ror_raw value) = length value ∧
  bval (bigint_ror_raw value) = bval value / 2.
Proof.
  intros Hwf. unfold bigint_ror_raw.
  destruct (rcrl_loop_spec 0 (rev value) (wf_rev _ Hwf) ltac:(lia)) as (Hw & Hl & Hd).
  split_and!; [by apply wf_rev|by rewrite length_rev, Hl, length_rev|].
  rewrite <- dval_rev, Hd, <- bval_rev. done.
Qed.

(** ** Tests *)

Lemma bigint_is_zero_spec value : wf value → bigint_is_zero_raw value = (bval value =? 0).
Proof.
  induction 1 as [|v value Hv Hwf IH]; [done|]. cbn [bigint_is_zero_raw bval].
  pose proof (bval_range _ Hwf). ranges. rewrite IH.
  destruct (Z.eqb_spec v 0), (Z.eqb_spec (bval value) 0), (Z.eqb_spec (v + radix * bval value) 0); lia || done.
Qed.

Lemma scasl_loop_spec value reference :
  length value = length reference → wf value → wf reference →
  scasl_loop value reference = (dval 0 reference <=? dval 0 value).
Proof.
  intros Hl Hwv. revert reference Hl. induction Hwv as [|v value Hv Hwv IH]; intros [|r reference] Hl; try done.
  intros [Hr Hwr]%Forall_cons. injection Hl as Hl. cbn [scasl_loop dval].
  rewrite (dval_acc (0 * radix + v)), (dval_acc (0 * radix + r)), Hl.
  pose proof (dval_range _ Hwv) as H1. pose proof (dval_range _ Hwr) as H2. rewrite Hl in H1.
  destruct (Z.eqb_spec v r) as [->|Hne].
  - rewrite IH by done. destruct (Z.leb_spec (dval 0 reference) (dval 0 value)), (Z.leb_spec
      ((0 * radix + r) * pow (length reference) + dval 0 reference)
      ((0 * radix + r) * pow (length reference) + dval 0 value)); lia || done.
  - symmetry. destruct (Z.leb_spec r v); [apply Z.leb_le|apply Z.leb_gt]; nia.
Qed.

Lemma bigint_is_geq_spec value reference :
  length value = length reference → wf value → wf reference →
  bigint_is_geq_raw value reference = (bval reference <=? bval value).
Proof.
  intros. unfold bigint_is_geq_raw. rewrite scasl_loop_spec, <- !bval_rev; rewrite ?length_rev; auto using wf_rev.
Qed.

Lemma bsrl_loop_spec l :
  wf l → bsrl_loop l = if dval 0 l =? 0 then 0 else Z.log2 (dval 0 l) + 1.
Proof.
  induction 1 as [|v l Hv Hwf IH]; [done|]. cbn [bsrl_loop dval]. rewrite dval_acc.
  pose proof (dval_range _ Hwf) as Hd. pose proof (pow_pos (length l)). ranges.
  destruct (Z.eqb_spec v 0) as [->|]; [by rewrite IH|].
  rewrite (proj2 (Z.eqb_neq _ 0)) by nia. f_equal. symmetry. apply Z.log2_unique; [pose proof (Z.log2_nonneg v); lia|].
  destruct (Z.log2_spec v ltac:(lia)) as [Hlo Hhi].
  replace (Z.succ (Z.log2 v + 32 * Zlen l)) with (Z.succ (Z.log2 v) + 32 * Zlen l) by lia.
  pose proof (Z.log2_nonneg v). rewrite !Z.pow_add_r by lia.
  assert (2 ^ (32 * Zlen l) = pow (length l)) as -> by (unfold pow; change radix with (2 ^ 32); rewrite <- Z.pow_mul_r by lia; done). nia.
Qed.

Lemma bigint_max_set_bit_spec value :
  wf value → bigint_max_set_bit_raw value = if bval value =? 0 then 0 else Z.log2 (bval value) + 1.
Proof. intros. unfold bigint_max_set_bit_raw. rewrite bsrl_loop_spec by (by apply wf_rev). by rewrite <- bval_rev. Qed.

Lemma bigint_bit_0_spec value : bigint_bit_is_set_raw value 0 = Z.odd (bval value).
Proof.
  unfold bigint_bit_is_set_raw. change (0 / element_bits) with 0. change (0 mod element_bits) with 0.
  change (Z.to_nat 0) with 0%nat. change (Z.shiftl 1 0) with (2 ^ 1 - 1). rewrite land_mask by lia. change (2 ^ 1) with 2.
  destruct value as [|v value]; [done|]. cbn [lookup list_lookup default bval]. unfold id.
  rewrite Zmod_odd, Z.odd_add, Z.odd_mul. change (Z.odd radix) with false. rewrite xorb_false_r.
  by destruct (Z.odd v).
Qed.

(** ** Multiplication *)

Lemma carry_loop_spec cf m :
  wf m → m ≠ [] → 0 ≤ cf ≤ 1 → bval m + cf < pow (length m) →
  ∃ m', carry_loop cf m = Some m' ∧ wf m' ∧ length m' = length m ∧ bval m' = bval m + cf.
Proof.
  intros Hwf. revert cf. induction Hwf as [|z m Hz Hwf IH]; intros cf Hne Hcf Hlt; [done|].
  cbn [carry_loop bval length] in *. rewrite pow_S in Hlt. ranges.
  pose proof (bval_div_mod (z + cf)) as Hdm. pose proof (Z.div_mod (z + cf) radix ltac:(lia)).
  pose proof (Z.mod_pos_bound (z + cf) radix ltac:(lia)).
  destruct (Z.eqb_spec ((z + cf) / radix) 0) as [Hq|Hq].
  - eexists. split_and!; [done|constructor; [apply in_range_mod|done]|done|]. rewrite Hdm. lia.
  - assert ((z + cf) / radix = 1) as Hq1 by lia.
    destruct m as [|y m]; [change (pow 0) with 1 in *; cbn [length bval] in *; change (pow 0) with 1 in *; lia|].
    destruct (IH 1 ltac:(done) ltac:(lia) ltac:(lia)) as (m' & -> & Hw & Hl & Hv).
    eexists. split_and!; [done|constructor; [apply in_range_mod|done]|cbn [length] in *; lia|].
    rewrite Hdm, Hv. lia.
Qed.

Lemma multiply_add_spec a b m :
  wf m → (3 ≤ length m)%nat → in_range 32 a → in_range 32 b → bval m + a * b < pow (length m) →
  ∃ m', multiply_add a b m = Some m' ∧ wf m' ∧ length m' = length m ∧ bval m' = bval m + a * b.
Proof.
  intros Hwf Hlen Ha Hb Hlt. destruct m as [|x [|y m]]; [cbn in Hlen; lia..|].
  apply Forall_cons in Hwf as [Hx [Hy Hwf]%Forall_cons]. cbn [multiply_add bval length] in *.
  rewrite !pow_S in Hlt. ranges. set (p := a * b) in *.
  assert (0 ≤ p ≤ (radix - 1) * (radix - 1)) as Hp by (unfold p; nia).
  pose proof (Z.div_mod p radix ltac:(lia)) as Hdm. pose proof (Z.mod_pos_bound p radix ltac:(lia)) as Hpm.
  set (sum := x + p mod radix). pose proof (Z.div_mod sum radix ltac:(lia)) as Hs.
  pose proof (Z.mod_pos_bound sum radix ltac:(lia)).
  set (sum' := y + p / radix + sum / radix). pose proof (Z.div_mod sum' radix ltac:(lia)) as Hs'.
  pose proof (Z.mod_pos_bound sum' radix ltac:(lia)).
  assert (0 ≤ sum' / radix ≤ 1) as Hc by (unfold sum', sum in *; lia).
  assert (bval m + sum' / radix < pow (length m)) as Hlt' by (unfold sum', sum in *; lia).
  destruct (carry_loop_spec (sum' / radix) m Hwf) as (m' & -> & Hw & Hl & Hv); [|done..|].
  { intros ->. cbn in Hlen. lia. }
  eexists. split_and!; [done|repeat constructor; [apply in_range_mod..|done]|cbn [length]; lia|].
  cbn [bval]. rewrite Hv. unfold sum', sum in *. lia.
Qed.

Lemma multiply_add_at_spec k a b m :
  wf m → (k + 3 ≤ length m)%nat → in_range 32 a → in_range 32 b →
  bval m + pow k * (a * b) < pow (length m) →
  ∃ m', multiply_add_at k a b m = Some m' ∧ wf m' ∧ length m' = length m ∧
        bval m' = bval m + pow k * (a * b).
Proof.
  intros Hwf Hlen Ha Hb Hlt. unfold multiply_add_at.
  assert (length (take k m) = k) as Hk by (rewrite length_take; lia).
  assert (bval m = bval (take k m) + pow k * bval (drop k m)) as Hm.
  { rewrite <- (take_drop k m) at 1. by rewrite bval_app, Hk. }
  pose proof (bval_range (take k m) (Forall_take _ _ _ Hwf)).
  assert (pow (length m) = pow k * pow (length (drop k m))) as Hp
    by (rewrite <- pow_add, length_drop; f_equal; lia).
  pose proof (pow_pos k).
  destruct (multiply_add_spec a b (drop k m)) as (s & -> & Hw & Hl & Hv); auto using Forall_drop.
  { rewrite length_drop. lia. }
  { nia. }
  eexists. split_and!; [done|apply Forall_app; auto using Forall_take| |].
  - rewrite length_app, Hl, <- length_app, take_drop. done.
  - rewrite bval_app, Hk, Hv, Hm. lia.
Qed.

Lemma multiply_inner_spec k a multiplier m :
  wf m → wf multiplier → in_range 32 a → (k + length multiplier + 2 ≤ length m)%nat →
  bval m + pow k * (a * bval multiplier) < pow (length m) →
  ∃ m', multiply_inner k a multiplier m = Some m' ∧ wf m' ∧ length m' = length m ∧
        bval m' = bval m + pow k * (a * bval multiplier).
Proof.
  intros Hwf Hwm Ha. revert k m Hwf. induction Hwm as [|b multiplier Hb Hwm IH]; intros k m Hwf Hlen Hlt;
    cbn [multiply_inner bval length] in *.
  - exists m. split_and!; auto. lia.
  - pose proof (pow_pos k). pose proof (bval_range _ Hwm). ranges.
    assert (0 ≤ a * bval multiplier) by nia.
    destruct (multiply_add_at_spec k a b m) as (m1 & -> & Hw1 & Hl1 & Hv1); auto; [lia|nia|]. cbn [mbind option_bind].
    destruct (IH (S k) m1) as (m2 & -> & Hw2 & Hl2 & Hv2); auto; [lia|rewrite pow_S, Hv1, Hl1; nia|].
    exists m2. split_and!; auto; [lia|]. rewrite Hv2, Hv1, pow_S. lia.
Qed.

Lemma multiply_outer_spec i multiplicand multiplier m :
  wf m → wf multiplicand → wf multiplier → (i + length multiplicand + length multiplier + 1 ≤ length m)%nat →
  bval m + pow i * (bval multiplicand * bval multiplier) < pow (length m) →
  ∃ m', multiply_outer i multiplicand multiplier m = Some m' ∧ wf m' ∧ length m' = length m ∧
        bval m' = bval m + pow i * (bval multiplicand * bval multiplier).
Proof.
  intros Hwf Hwa Hwb. revert i m Hwf. induction Hwa as [|a multiplicand Ha Hwa IH]; intros i m Hwf Hlen Hlt;
    cbn [multiply_outer bval length] in *.
  - exists m. split_and!; auto. lia.
  - pose proof (pow_pos i). pose proof (bval_range _ Hwa). pose proof (bval_range _ Hwb). ranges.
    assert (0 ≤ bval multiplicand * bval multiplier) by nia. assert (0 ≤ a * bval multiplier) by nia.
    destruct (multiply_inner_spec i a multiplier m) as (m1 & -> & Hw1 & Hl1 & Hv1); auto; [lia|nia|].
    cbn [mbind option_bind].
    destruct (IH (S i) m1) as (m2 & -> & Hw2 & Hl2 & Hv2); auto; [lia|rewrite pow_S, Hv1, Hl1; nia|].
    exists m2. split_and!; auto; [lia|]. rewrite Hv2, Hv1, pow_S. lia.
Qed.

Lemma bigint_multiply_spec size multiplicand multiplier m :
  wf m → wf multiplicand → wf multiplier → length multiplicand = size → length multiplier = size →
  (2 * size < length m)%nat →
  ∃ product, bigint_multiply_raw size multiplicand multiplier m = Some (product ++ drop (2 * size) m) ∧
             wf product ∧ length product = (2 * size)%nat ∧
             bval product = bval multiplicand * bval multiplier.
Proof.
  intros Hwf Hwa Hwb Hla Hlb Hlen. unfold bigint_multiply_raw.
  set (rest := drop (2 * size) m). assert (wf rest) as Hwr by (by apply Forall_drop).
  set (m0 := replicate (2 * size) 0 ++ rest).
  assert (bval m0 = pow (2 * size) * bval rest) as Hm0
    by (unfold m0; rewrite bval_app, bval_zeros, length_replicate; lia).
  assert (length m0 = 2 * size + length rest)%nat as Hl0 by (unfold m0; by rewrite length_app, length_replicate).
  pose proof (bval_range _ Hwa) as Hra. pose proof (bval_range _ Hwb) as Hrb. pose proof (bval_range _ Hwr) as Hrr.
  rewrite Hla in Hra. rewrite Hlb in Hrb.
  assert (pow (2 * size) = pow size * pow size) as Hps by (rewrite <- pow_add; f_equal; lia).
  set (ab := bval multiplicand * bval multiplier).
  assert (0 ≤ ab < pow (2 * size)) as Hab by (unfold ab; nia).
  destruct (multiply_outer_spec 0 multiplicand multiplier m0) as (m' & -> & Hw & Hl & Hv); auto.
  { apply Forall_app. auto using wf_zeros. }
  { rewrite Hl0. unfold rest. rewrite length_drop. lia. }
  { fold ab. change (pow 0) with 1. rewrite Hm0, Hl0, pow_add. nia. }
  fold ab in Hv. change (pow 0) with 1 in Hv.
  exists (take (2 * size) m').
  assert (length (take (2 * size) m') = 2 * size)%nat as Hlt by (rewrite length_take; lia).
  assert (bval (take (2 * size) m') + pow (2 * size) * bval (drop (2 * size) m') = ab + pow (2 * size) * bval rest)
    as Heq by (rewrite <- Hlt at 2; rewrite <- bval_app, take_drop; lia).
  pose proof (bval_range _ (Forall_take _ (2 * size) _ Hw)) as Hrt. rewrite Hlt in Hrt.
  destruct (Z.div_mod_unique (pow (2 * size)) (bval (drop (2 * size) m')) (bval rest)
              (bval (take (2 * size) m')) ab) as [Hd Ht]; [lia..|].
  split_and!; [|by apply Forall_take|done|done]. f_equal.
  rewrite <- (take_drop (2 * size) m') at 1. f_equal. apply bval_inj; auto using Forall_drop.
  rewrite length_drop. lia.
Qed.

(** ** Modular multiplication *)

Lemma iter_rol_spec n value :
  wf value → bval value * 2 ^ Z.of_nat n < pow (length value) →
  wf (Nat.iter n bigint_rol_raw value) ∧ length (Nat.iter n bigint_rol_raw value) = length value ∧
  bval (Nat.iter n bigint_rol_raw value) = bval value * 2 ^ Z.of_nat n.
Proof.
  intros Hwf. pose proof (bval_range _ Hwf). induction n as [|n IH]; intros Hlt.
  - cbn. split_and!; auto. lia.
  - rewrite Nat2Z.inj_succ, Z.pow_succ_r in Hlt |- * by lia.
    assert (0 < 2 ^ Z.of_nat n) by lia.
    destruct IH as (Hw & Hl & Hv); [nia|]. change (Nat.iter (S n) ?f ?x) with (f (Nat.iter n f x)).
    destruct (bigint_rol_spec _ Hw) as (Hw' & Hl' & Hv'). rewrite Hl, Hv in *.
    split_and!; auto. rewrite Hv', Z.mod_small by nia. lia.
Qed.

Lemma reduce_step_spec result modulus m q :
  wf result → wf modulus → length modulus = length result → 0 < m →
  bval modulus = m * q → bval result < 2 * bval modulus →
  let result1 := if bigint_is_geq_raw result modulus then bigint_subtract_raw modulus result else result in
  wf result1 ∧ length result1 = length result ∧ 0 ≤ bval result1 < bval modulus ∧
  bval result1 mod m = bval result mod m.
Proof.
  intros Hwr Hwm Hl Hm Hv Hlt. rewrite bigint_is_geq_spec by done. cbv zeta.
  destruct (bigint_subtract_spec modulus result Hl Hwm Hwr) as (Hws & Hls & Hvs).
  pose proof (bval_range _ Hwr). pose proof (bval_range _ Hwm).
  destruct (Z.leb_spec (bval modulus) (bval result)); [|split_and!; auto; lia].
  rewrite Z.mod_small in Hvs by lia. split_and!; auto; [lia..|].
  rewrite Hvs, Hv. replace (bval result - m * q) with (bval result + (- q) * m) by lia.
  by rewrite Z.mod_add by lia.
Qed.

(** Schoolbook reduction: at each step the result is below twice the shifted
    modulus. *)
Lemma reduce_loop_spec k result modulus m :
  wf result → wf modulus → length modulus = length result → 0 < m →
  bval modulus = m * 2 ^ Z.of_nat k → bval result < 2 * bval modulus →
  let '(result', modulus') := reduce_loop (S k) result modulus in
  wf result' ∧ wf modulus' ∧ length result' = length result ∧ length modulus' = length result ∧
  bval result' = bval result mod m.
Proof.
  revert result modulus. induction k as [|k IH]; intros result modulus Hwr Hwm Hl Hm Hv Hlt;
    pose proof (reduce_step_spec _ _ _ _ Hwr Hwm Hl Hm Hv Hlt) as (Hw1 & Hl1 & Hv1 & Hm1);
    destruct (bigint_ror_spec modulus Hwm) as (Hwo & Hlo & Hvo).
  - cbn [reduce_loop]. split_and!; auto; [by rewrite Hlo|]. rewrite <- Hm1. symmetry. apply Z.mod_small.
    change (2 ^ Z.of_nat 0) with 1 in Hv. lia.
  - rewrite Nat2Z.inj_succ, Z.pow_succ_r in Hv by lia. remember (S k) as n eqn:Hn. cbn [reduce_loop].
    set (result1 := if bigint_is_geq_raw result modulus then bigint_subtract_raw modulus result else result) in *.
    subst n.
    assert (bval (bigint_ror_raw modulus) = m * 2 ^ Z.of_nat k) as Hvo'.
    { rewrite Hvo, Hv. replace (m * (2 * 2 ^ Z.of_nat k)) with (m * 2 ^ Z.of_nat k * 2) by lia.
      apply Z.div_mul. lia. }
    specialize (IH result1 (bigint_ror_raw modulus) Hw1 Hwo ltac:(congruence) Hm Hvo' ltac:(lia)).
    destruct (reduce_loop (S k) _ _) as [r' m']. by rewrite Hl1, Hm1 in IH.
Qed.

Lemma rotation_spec r m :
  0 ≤ r → 0 < m →
  let rotation := (if r =? 0 then 0 else Z.log2 r + 1) - (if m =? 0 then 0 else Z.log2 m + 1) in
  if 0 <=? rotation then r < 2 * (m * 2 ^ rotation) ∧ (∀ n, 0 ≤ n → r < 2 ^ n → m * 2 ^ rotation < 2 ^ n)
  else r < m.
Proof.
  intros Hr Hm. rewrite (proj2 (Z.eqb_neq m 0)) by lia. destruct (Z.log2_spec m Hm) as [Hlo Hhi].
  destruct (Z.eqb_spec r 0) as [->|].
  - pose proof (Z.log2_nonneg m). cbv zeta. rewrite (proj2 (Z.leb_gt 0 _)) by lia. lia.
  - destruct (Z.log2_spec r ltac:(lia)) as [Hrlo Hrhi]. cbv zeta.
    replace (Z.log2 r + 1 - (Z.log2 m + 1)) with (Z.log2 r - Z.log2 m) by lia.
    pose proof (Z.log2_nonneg m). pose proof (Z.log2_nonneg r). destruct (Z.leb_spec 0 (Z.log2 r - Z.log2 m)).
    + assert (2 ^ Z.log2 r = 2 ^ Z.log2 m * 2 ^ (Z.log2 r - Z.log2 m)) as Heq
        by (rewrite <- Z.pow_add_r by lia; f_equal; lia).
      rewrite Z.pow_succ_r in Hrhi, Hhi by lia. assert (0 < 2 ^ (Z.log2 r - Z.log2 m)) by lia.
      split; [nia|]. intros k Hk Hrn. apply Z.log2_lt_pow2 in Hrn; [|lia].
      pose proof (Z.pow_le_mono_r 2 (Z.succ (Z.log2 r)) k) as Hle. rewrite Z.pow_succ_r in Hle by lia. nia.
    + pose proof (Z.pow_le_mono_r 2 (Z.succ (Z.log2 r)) (Z.log2 m)). lia.
Qed.

Lemma bigint_grow_spec source n :
  wf source → (length source ≤ n)%nat →
  wf (bigint_grow_raw source n) ∧ length (bigint_grow_raw source n) = n ∧
  bval (bigint_grow_raw source n) = bval source.
Proof.
  intros Hwf Hl. unfold bigint_grow_raw. split_and!.
  - apply Forall_app. auto using wf_zeros.
  - rewrite length_app, length_replicate. lia.
  - rewrite bval_app, bval_zeros. lia.
Qed.

Lemma bigint_shrink_spec source n :
  wf source → (n ≤ length source)%nat → bval source < pow n →
  wf (bigint_shrink_raw source n) ∧ length (bigint_shrink_raw source n) = n ∧
  bval (bigint_shrink_raw source n) = bval source.
Proof.
  intros Hwf Hl Hv. unfold bigint_shrink_raw. split_and!; [by apply Forall_take|rewrite length_take; lia|].
  assert (bval source = bval (take n source) + pow n * bval (drop n source)) as Hs.
  { rewrite <- (take_drop n source) at 1. by rewrite bval_app, length_take, Nat.min_l. }
  pose proof (bval_range _ (Forall_take _ n _ Hwf)). pose proof (bval_range _ (Forall_drop _ n _ Hwf)).
  pose proof (pow_pos n). assert (bval (drop n source) = 0) as Hz by nia. lia.
Qed.

Lemma bval_take source n : wf source → (n ≤ length source)%nat → bval (take n source) = bval source mod pow n.
Proof.
  intros Hwf Hl. pose proof (pow_pos n). pose proof (bval_range _ (Forall_take _ n _ Hwf)) as Hr.
  rewrite length_take, Nat.min_l in Hr by done. rewrite <- (take_drop n source) at 2.
  rewrite bval_app, length_take, Nat.min_l by done. rewrite Z.mul_comm, Z.mod_add by lia. symmetry. apply Z.mod_small. lia.
Qed.

Lemma iter_rol_zero n value :
  wf value → bval value = 0 →
  wf (Nat.iter n bigint_rol_raw value) ∧ length (Nat.iter n bigint_rol_raw value) = length value ∧ bval (Nat.iter n bigint_rol_raw value) = 0.
Proof.
  intros Hwf Hz. destruct (iter_rol_spec n value Hwf) as (? & ? & Hv); [|split_and!; [done..|lia]].
  pose proof (pow_pos (length value)). lia.
Qed.

Lemma reduce_loop_zero n result value :
  wf result → wf value → length value = length result → bval value = 0 →
  let '(result', value') := reduce_loop n result value in
  wf result' ∧ wf value' ∧ length result' = length result ∧ length value' = length result ∧ bval result' = bval result.
Proof.
  revert result value. induction n as [|n IH]; intros result value Hwr Hwv Hl Hz; [done|]. cbn [reduce_loop].
  rewrite bigint_is_geq_spec, Hz by done. pose proof (bval_range _ Hwr) as Hr. rewrite (proj2 (Z.leb_le 0 _)) by lia.
  destruct (bigint_subtract_spec value result Hl Hwv Hwr) as (Hws & Hls & Hvs). rewrite Hz, Z.sub_0_r, Z.mod_small in Hvs by lia.
  destruct (bigint_ror_spec value Hwv) as (Hwo & Hlo & Hvo). rewrite Hz in Hvo.
  specialize (IH _ _ Hws Hwo ltac:(congruence) Hvo). destruct (reduce_loop n _ _) as [r m]. by rewrite Hls, Hvs in IH.
Qed.

(** Working space: four times the size, of elements. *)
Definition tmp_ok (size : nat) (tmp : bigint) : Prop := wf tmp ∧ length tmp = (4 * size)%nat.

Section modular.
Context (size : nat) (modulus : bigint).
Context (Hmod : wf modulus) (Hsize : length modulus = size) (Hsp : (0 < size)%nat).

(** A big integer of the size of the modulus. *)
Definition operand (x : bigint) : Prop := wf x ∧ length x = size.

(** A zero modulus does not reduce: what is left of a product is what fits. *)
Definition divisor : Z := if bval modulus =? 0 then pow size else bval modulus.

Lemma divisor_pos : 0 < divisor.
Proof using Hmod Hsize Hsp. unfold divisor. pose proof (pow_pos size). pose proof (bval_range _ Hmod). destruct (Z.eqb_spec (bval modulus) 0); lia. Qed.

Lemma mod_multiply_zero a b tmp :
  bval modulus = 0 → operand a → operand b → tmp_ok size tmp →
  ∃ result tmp', bigint_mod_multiply_raw size a b modulus tmp = Some (result, tmp') ∧
    operand result ∧ tmp_ok size tmp' ∧ bval result = (bval a * bval b) mod pow size.
Proof using Hmod Hsize Hsp.
  intros Hz [Hwa Hla] [Hwb Hlb] [Hwt Hlt]. unfold bigint_mod_multiply_raw.
  destruct (bigint_multiply_spec size a b tmp Hwt Hwa Hwb Hla Hlb ltac:(lia)) as (product & -> & Hwp & Hlp & Hvp).
  cbn [mbind option_bind]. rewrite take_app_length' by done.
  destruct (bigint_grow_spec modulus (2 * size) Hmod ltac:(lia)) as (Hwg & Hlg & Hvg). rewrite Hz in Hvg.
  set (rotation := _ - _). destruct (iter_rol_zero (Z.to_nat rotation) _ Hwg Hvg) as (Hwi & Hli & Hvi).
  pose proof (reduce_loop_zero (Z.to_nat (rotation + 1)) product _ Hwp Hwi ltac:(congruence) Hvi) as Hred.
  destruct (reduce_loop _ _ _) as [r m]. destruct Hred as (Hwr & Hwm & Hlr & Hlm & Hvr). eexists _, _. split; [done|].
  unfold bigint_shrink_raw. split_and!.
  - split; [by apply Forall_take|]. rewrite length_take. lia.
  - split; [by apply Forall_app|]. rewrite length_app. lia.
  - rewrite bval_take by (done || lia). congruence.
Qed.

Lemma mod_multiply_positive a b tmp :
  0 < bval modulus → operand a → operand b → tmp_ok size tmp →
  ∃ result tmp', bigint_mod_multiply_raw size a b modulus tmp = Some (result, tmp') ∧
    operand result ∧ tmp_ok size tmp' ∧ bval result = (bval a * bval b) mod bval modulus.
Proof.
  intros Hpos [Hwa Hla] [Hwb Hlb] [Hwt Hlt]. unfold bigint_mod_multiply_raw.
  destruct (bigint_multiply_spec size a b tmp Hwt Hwa Hwb Hla Hlb ltac:(lia)) as (product & -> & Hwp & Hlp & Hvp).
  cbn [mbind option_bind]. rewrite take_app_length' by done.
  destruct (bigint_grow_spec modulus (2 * size) Hmod ltac:(lia)) as (Hwg & Hlg & Hvg).
  set (tm := bigint_grow_raw modulus (2 * size)) in *. rewrite <- Hvp.
  rewrite !bigint_max_set_bit_spec, Hvg by done.
  pose proof (bval_range _ Hwp) as Hrp. rewrite Hlp in Hrp.
  pose proof (rotation_spec (bval product) (bval modulus) ltac:(lia) Hpos) as Hrot. cbv zeta in Hrot.
  set (rotation := _ - _) in *.
  assert (∃ r m, (let '(r, m) := reduce_loop (Z.to_nat (rotation + 1)) product
                    (Nat.iter (Z.to_nat rotation) bigint_rol_raw tm) in
                  Some (bigint_shrink_raw r size, r ++ m)) = Some (bigint_shrink_raw r size, r ++ m) ∧
      wf r ∧ wf m ∧ length r = (2 * size)%nat ∧ length m = (2 * size)%nat ∧
      bval r = bval product mod bval modulus) as (r & m & -> & Hwr & Hwm & Hlr & Hlm & Hvr).
  { destruct (Z.leb_spec 0 rotation) as [Hr|Hr].
    - destruct Hrot as [Hrot Hfit]. destruct (iter_rol_spec (Z.to_nat rotation) tm Hwg) as (Hwi & Hli & Hvi).
      { rewrite Hlg, Hvg, Z2Nat.id by lia. rewrite pow_2 in *. apply Hfit; lia. }
      replace (Z.to_nat (rotation + 1)) with (S (Z.to_nat rotation)) by lia.
      pose proof (reduce_loop_spec (Z.to_nat rotation) product _ (bval modulus) Hwp Hwi ltac:(congruence) Hpos) as Hred.
      rewrite Hvi, Hvg, Z2Nat.id in Hred by lia. specialize (Hred eq_refl ltac:(lia)).
      destruct (reduce_loop _ _ _) as [r m]. destruct Hred as (? & ? & ? & ? & ?). exists r, m.
      split_and!; auto; congruence.
    - rewrite (Z2Nat.nonpos (rotation + 1)), (Z2Nat.nonpos rotation) by lia. cbn. exists product, tm.
      split_and!; auto. symmetry. apply Z.mod_small. lia. }
  pose proof (Z.mod_pos_bound (bval product) (bval modulus) Hpos). pose proof (bval_range _ Hmod) as Hrm.
  rewrite Hsize in Hrm.
  destruct (bigint_shrink_spec r size Hwr ltac:(lia) ltac:(lia)) as (Hws & Hls & Hvs).
  eexists _, _. split; [done|]. split; [done|]. split; [|congruence].
  split; [by apply Forall_app|]. rewrite length_app. lia.
Qed.

Lemma mod_multiply_spec a b tmp :
  operand a → operand b → tmp_ok size tmp →
  ∃ result tmp', bigint_mod_multiply_raw size a b modulus tmp = Some (result, tmp') ∧
    operand result ∧ tmp_ok size tmp' ∧ bval result = (bval a * bval b) mod divisor.
Proof using Hmod Hsize Hsp.
  unfold divisor. pose proof (bval_range _ Hmod). destruct (Z.eqb_spec (bval modulus) 0); [by apply mod_multiply_zero|].
  apply mod_multiply_positive. lia.
Qed.

Lemma mod_exp_loop_spec fuel result base exponent tmp :
  operand result → operand base → wf exponent → tmp_ok size tmp → bval exponent < 2 ^ Z.of_nat fuel →
  ∃ r, mod_exp_loop fuel size result base exponent modulus tmp = Some r ∧ operand r ∧
       bval r = if bval exponent =? 0 then bval result
                else (bval result * bval base ^ bval exponent) mod divisor.
Proof.
  pose proof divisor_pos as Hdiv.
  revert result base exponent tmp. induction fuel as [|fuel IH]; intros result base exponent tmp Hr Hb Hwe Ht Hlt;
    pose proof (bval_range _ Hwe) as He; cbn [mod_exp_loop]; rewrite bigint_is_zero_spec by done.
  - change (2 ^ Z.of_nat 0) with 1 in Hlt. rewrite (proj2 (Z.eqb_eq (bval exponent) 0)) by lia. eauto.
  - destruct (Z.eqb_spec (bval exponent) 0) as [|Hne]; [by eauto|].
    rewrite bigint_bit_0_spec. rewrite Nat2Z.inj_succ, Z.pow_succ_r in Hlt by lia.
    pose proof (Z.div_mod (bval exponent) 2 ltac:(lia)) as Hdm. rewrite Zmod_odd in Hdm.
    set (o := Z.odd (bval exponent)) in *.
    assert (∃ r1 tmp1, (if o then bigint_mod_multiply_raw size result base modulus tmp else Some (result, tmp))
              = Some (r1, tmp1) ∧ operand r1 ∧ tmp_ok size tmp1 ∧
              bval r1 = if o then (bval result * bval base) mod divisor else bval result)
      as (r1 & tmp1 & -> & Hr1 & Ht1 & Hv1).
    { destruct o; [by apply mod_multiply_spec|by eauto 10]. }
    cbn [mbind option_bind].
    destruct (mod_multiply_spec base base tmp1 Hb Hb Ht1) as (b1 & tmp2 & -> & Hb1 & Ht2 & Hvb).
    cbn [mbind option_bind]. destruct (bigint_ror_spec exponent Hwe) as (Hwo & _ & Hvo).
    destruct (IH r1 b1 (bigint_ror_raw exponent) tmp2 Hr1 Hb1 Hwo Ht2) as (r & -> & Hor & Hv).
    { rewrite Hvo. apply Z.div_lt_upper_bound; lia. }
    exists r. split; [done|]. split; [done|]. rewrite Hv, Hvo, Hvb.
    assert (0 ≤ bval exponent / 2) by (apply Z.div_pos; lia).
    set (e2 := bval exponent / 2) in *. set (m := divisor) in *.
    destruct (Z.eqb_spec e2 0) as [Hz|Hz].
    + destruct o; [|lia]. rewrite Hv1, Hdm, Hz. f_equal. lia.
    + rewrite <- Z.mul_mod_idemp_r, Z.mod_pow_l, Z.mul_mod_idemp_r by lia.
      rewrite <- Z.pow_2_r, <- Z.pow_mul_r by lia. rewrite Hdm, Hv1. destruct o.
      * rewrite Z.mul_mod_idemp_l by lia. f_equal. rewrite Z.pow_add_r, Z.pow_1_r by lia. lia.
      * by rewrite Z.add_0_r.
Qed.
End modular.

(** ** Raw data *)

Lemma copy_reversed_spec n data : (n ≤ length data)%nat → copy_reversed n data = rev (take n data).
Proof.
  induction n as [|n IH]; intros Hn; [done|]. cbn [copy_reversed].
  destruct (lookup_lt_is_Some_2 data n Hn) as [x Hx]. rewrite (take_S_r _ _ _ Hx), rev_app_distr, Hx, IH by lia.
  done.
Qed.

Lemma length_of_bytes size bs : length (of_bytes size bs) = size.
Proof. revert bs. induction size; intros; cbn; auto. Qed.

Lemma le_combine_app l1 l2 : le_combine (l1 ++ l2) = le_combine l1 + 256 ^ Zlen l1 * le_combine l2.
Proof.
  induction l1 as [|x l1 IH]; cbn [app le_combine length]; [change (256 ^ Z.of_nat 0) with 1; lia|].
  rewrite IH, Nat2Z.inj_succ, Z.pow_succ_r by lia. lia.
Qed.

Lemma of_bytes_spec size bs :
  is_bytes bs → length bs = (4 * size)%nat →
  wf (of_bytes size bs) ∧ bval (of_bytes size bs) = le_combine bs ∧ to_bytes (of_bytes size bs) = bs.
Proof.
  revert bs. induction size as [|size IH]; intros bs Hb Hl.
  - destruct bs; [|done]. by split_and!.
  - cbn [of_bytes]. assert (length (take 4 bs) = 4)%nat as Hl4 by (rewrite length_take; lia).
    pose proof (Forall_take _ 4 _ Hb) as Hb4.
    destruct (IH (drop 4 bs)) as (Hw & Hv & Ht); [by apply Forall_drop|rewrite length_drop; lia|].
    pose proof (le_combine_range _ Hb4) as Hr. rewrite Hl4 in Hr. split_and!.
    + constructor; [exact Hr|done].
    + cbn [bval]. rewrite Hv. rewrite <- (take_drop 4 bs) at 3. rewrite le_combine_app, Hl4.
      change (256 ^ Z.of_nat 4) with radix. lia.
    + change (to_bytes (?x :: ?l)) with (le_split 4 x ++ to_bytes l). rewrite Ht.
      replace (le_split 4 (le_combine (take 4 bs))) with (take 4 bs); [apply take_drop|].
      rewrite <- (le_split_combine _ Hb4) at 1. by rewrite Hl4.
Qed.

Lemma le_combine_zeros n : le_combine (replicate n 0) = 0.
Proof. induction n as [|n IH]; cbn [replicate le_combine]; lia. Qed.

Lemma init_raw_spec size data :
  is_bytes data → data ≠ [] → (length data ≤ 4 * size)%nat →
  ∃ value, bigint_init_raw size data = Some value ∧ wf value ∧ length value = size ∧
           bval value = be_combine data ∧ to_bytes value = rev data ++ replicate (4 * size - length data) 0.
Proof.
  intros Hb Hne Hl. unfold bigint_init_raw. rewrite decide_False by (destruct data; cbn in *; [done|lia]).
  rewrite copy_reversed_spec, take_ge by lia. set (bs := rev data ++ replicate _ 0).
  destruct (of_bytes_spec size bs) as (Hw & Hv & Ht).
  - apply Forall_app. split; [by apply Forall_rev|]. apply Forall_replicate. by_compute.
  - unfold bs. rewrite length_app, length_rev, length_replicate. lia.
  - eexists. split_and!; [done|done|apply length_of_bytes| |done].
    rewrite Hv. unfold bs. rewrite le_combine_app, le_combine_zeros. unfold be_combine. lia.
Qed.

Lemma bigint_mod_exp_divisor size base modulus exponent tmp :
  wf modulus → length modulus = size → (0 < size)%nat → wf base → length base = size →
  wf exponent → exponent ≠ [] → tmp_ok size tmp →
  ∃ result, bigint_mod_exp_raw size base modulus exponent tmp = Some result ∧
            wf result ∧ length result = size ∧
            bval result = if bval exponent =? 0 then 1 else bval base ^ bval exponent mod divisor size modulus.
Proof.
  intros Hwm Hlm Hpos Hwb Hlb Hwe Hne Ht. unfold bigint_mod_exp_raw.
  destruct (init_raw_spec size [1]) as (one & -> & Hw1 & Hl1 & Hv1 & _); [by_compute|done|cbn; lia|].
  cbn [mbind option_bind]. change (be_combine [1]) with 1 in Hv1.
  destruct (mod_exp_loop_spec size modulus Hwm Hlm Hpos (32 * length exponent) one base exponent tmp)
    as (r & -> & [Hwr Hlr] & Hv); [done..| |].
  { pose proof (bval_range _ Hwe) as Hr. rewrite pow_2 in Hr.
    replace (Z.of_nat (32 * length exponent)) with (32 * Zlen exponent) by lia. lia. }
  exists r. split_and!; auto. rewrite Hv, Hv1. by rewrite Z.mul_1_l.
Qed.

Lemma bigint_mod_exp_spec size base modulus exponent tmp :
  wf modulus → length modulus = size → 0 < bval modulus → wf base → length base = size →
  wf exponent → exponent ≠ [] → tmp_ok size tmp →
  ∃ result, bigint_mod_exp_raw size base modulus exponent tmp = Some result ∧
            wf result ∧ length result = size ∧
            bval result = if bval exponent =? 0 then 1 else bval base ^ bval exponent mod bval modulus.
Proof.
  intros Hwm Hlm Hpos. assert (divisor size modulus = bval modulus) as <- by (unfold divisor; by rewrite (proj2 (Z.eqb_neq _ 0)) by lia).
  apply bigint_mod_exp_divisor; [done..|]. rewrite <- Hlm. destruct modulus; cbn in *; lia.
Qed.

(** ** The claims *)

(** multiplication, whose inner step is a widening multiply added into the
    result with a rippling carry, computes the full double-size product and
    leaves the memory after the result as it was, although its last carry
    instruction touches the next element. *)
Lemma bigint_multiply_correct size multiplicand multiplier m :
  wf m → wf multiplicand → wf multiplier → length multiplicand = size → length multiplier = size →
  (2 * size < length m)%nat →
  ∃ product, bigint_multiply_raw size multiplicand multiplier m = Some (product ++ drop (2 * size) m) ∧
             wf product ∧ length product = (2 * size)%nat ∧
             bval product = bval multiplicand * bval multiplier.
Proof. apply bigint_multiply_spec. Qed.

(** C8: modular exponentiation terminates and computes the power modulo the
    modulus, for every base of the modulus's size and every positive modulus; a
    zero exponent gives one. *)
Theorem bigint_mod_exp_correct size base modulus exponent tmp :
  wf modulus → length modulus = size → 0 < bval modulus → wf base → length base = size →
  wf exponent → exponent ≠ [] → tmp_ok size tmp →
  ∃ result, bigint_mod_exp_raw size base modulus exponent tmp = Some result ∧
            wf result ∧ length result = size ∧
            bval result = if bval exponent =? 0 then 1 else bval base ^ bval exponent mod bval modulus.
Proof. apply bigint_mod_exp_spec. Qed.

Lemma bigint_mod_exp_correct_witness :
  ∃ result, bigint_mod_exp_raw 1 [7] [1003] [13] (replicate 4 0) = Some result ∧
            bval result = 7 ^ 13 mod 1003.
Proof.
  destruct (bigint_mod_exp_correct 1 [7] [1003] [13] (replicate 4 0))
    as (r & Hr & _ & _ & Hv); [by_decide..|]. exists r. split; [exact Hr|exact Hv].
Defined.

(** Initialising a big integer reads big-endian raw data, and finalising it
    to the same length gives the data back. *)
Lemma bigint_init_done_roundtrip size data :
  is_bytes data → data ≠ [] → (length data ≤ 4 * size)%nat →
  ∃ value, bigint_init_raw size data = Some value ∧ wf value ∧ length value = size ∧
           bval value = be_combine data ∧ bigint_done_raw value (length data) = Some data.
Proof.
  intros Hb Hne Hl. destruct (init_raw_spec size data Hb Hne Hl) as (value & Hi & Hw & Hs & Hv & Ht).
  exists value. split_and!; auto. unfold bigint_done_raw. rewrite decide_False by (by destruct data).
  rewrite Ht, copy_reversed_spec by (rewrite length_app, length_rev; lia).
  rewrite take_app_le by (rewrite length_rev; lia). rewrite take_ge by (rewrite length_rev; lia).
  by rewrite rev_involutive.
Qed.

