(* ===== verification/HashStandards.v ===== *)
(** * MD5, SHA-1 and SHA-256 as RFC 1321 and FIPS 180-4 define them

    The hash functions from the text of the standards, without reference to the
    implementation: the constants are computed from the sines, square roots and
    cube roots they are taken from, the message schedules are built most recent
    word first, and the rounds act on tuples of working variables. *)

From S2P Require Import Prelude.

(** ** Messages *)

(** The message with its padding: a one bit, zeroes, and the length in bits, up
    to a multiple of the block (RFC 1321, sections 3.1 and 3.2; FIPS 180-4,
    section 5.1.1). *)
Definition padded (len_bytes : Z → bytes) (m : bytes) : bytes :=
  m ++ [0x80] ++ replicate (Z.to_nat ((55 - Zlen m) mod 64)) 0 ++ len_bytes (8 * Zlen m).

Fixpoint blocks (n : nat) (m : bytes) : list bytes :=
  match n with O => [] | S n => take 64 m :: blocks n (drop 64 m) end.

(** The block function folded over the padded message. *)
Definition hash_blocks (compress : bytes → bytes → bytes) (iv : bytes) (m : bytes) : bytes :=
  foldl compress iv (blocks (length m / 64) m).

(** ** Words (FIPS 180-4, section 3.2) *)

Definition ROTL (n x : Z) : Z := Z.lor (u32 (Z.shiftl x n)) (Z.shiftr x (32 - n)).
Definition ROTR (n x : Z) : Z := Z.lor (Z.shiftr x n) (u32 (Z.shiftl x (32 - n))).
Definition SHR (n x : Z) : Z := Z.shiftr x n.
Definition NOT (x : Z) : Z := Z.lxor x (Z.ones 32).
Definition XOR3 (x y z : Z) : Z := Z.lxor (Z.lxor x y) z.

(** [n] further words of a schedule, most recent first: [next] computes a word from
    those before it, and [back w k] is the word [k] places before. *)
Fixpoint extend (next : list Z → Z) (n : nat) (w : list Z) : list Z :=
  match n with O => w | S n => extend next n (next w :: w) end.
Definition back (w : list Z) (k : nat) : Z := word w (k - 1).
Definition schedule (next : list Z → Z) (n : nat) (m : list Z) : list Z := rev (extend next n (rev m)).

(** ** MD5 (RFC 1321) *)

(** T[i] is the integer part of 2^32 |sin i| (section 3.4).  The sines are computed in
    fixed point with 96 bits after the point, from the series at 1 and the addition
    theorem. *)
Definition fixed_one : Z := 2 ^ 96.
Fixpoint series (n : nat) (k term : Z) : Z :=
  match n with O => term | S n => term - series n (k + 2) (term / ((k + 1) * (k + 2))) end.
Definition sin_1 : Z := series 16 1 fixed_one.
Definition cos_1 : Z := series 16 0 fixed_one.
Fixpoint sines (n : nat) (s c : Z) : list Z :=
  match n with
  | O => []
  | S n =>
      let s' := Z.shiftr (s * cos_1 + c * sin_1) 96 in
      let c' := Z.shiftr (c * cos_1 - s * sin_1) 96 in
      Z.shiftr (Z.abs s') 64 :: sines n s' c'
  end.
Definition rfc1321_T : list Z := sines 64 0 fixed_one.

Definition rfc1321_F (x y z : Z) : Z := Z.lor (Z.land x y) (Z.land (NOT x) z).
Definition rfc1321_G (x y z : Z) : Z := Z.lor (Z.land x z) (Z.land y (NOT z)).
Definition rfc1321_H (x y z : Z) : Z := XOR3 x y z.
Definition rfc1321_I (x y z : Z) : Z := Z.lxor y (Z.lor x (NOT z)).

(** The operations [abcd k s i] of the four rounds: the function, the words k in
    order, and the four shifts s in turn. *)
Definition rfc1321_rounds : list ((Z → Z → Z → Z) * list nat * list Z) := [
  (rfc1321_F, [0; 1; 2; 3; 4; 5; 6; 7; 8; 9; 10; 11; 12; 13; 14; 15]%nat, [7; 12; 17; 22]);
  (rfc1321_G, [1; 6; 11; 0; 5; 10; 15; 4; 9; 14; 3; 8; 13; 2; 7; 12]%nat, [5; 9; 14; 20]);
  (rfc1321_H, [5; 8; 11; 14; 1; 4; 7; 10; 13; 0; 3; 6; 9; 12; 15; 2]%nat, [4; 11; 16; 23]);
  (rfc1321_I, [0; 7; 14; 5; 12; 3; 10; 1; 8; 15; 6; 13; 4; 11; 2; 9]%nat, [6; 10; 15; 21]) ].

(** Operation [i]: a = b + ((a + f(b,c,d) + X[k] + T[i+1]) <<< s), after which the
    next operation sees the registers one place on. *)
Definition rfc1321_operation (X : list Z) (abcd : Z * Z * Z * Z) (i : nat) : Z * Z * Z * Z :=
  let '(a, b, c, d) := abcd in
  let '(f, ks, ss) := default (rfc1321_F, [], []) (rfc1321_rounds !! (i / 16)%nat) in
  let k := default 0%nat (ks !! (i mod 16)%nat) in
  let s := word ss (i mod 4) in
  (d, u32 (b + ROTL s (u32 (a + f b c d + word X k + word rfc1321_T i))), b, c).

Definition rfc1321_compress (h block : bytes) : bytes :=
  let hs := le_dwords 4 h in
  let '(a, b, c, d) :=
    foldl (rfc1321_operation (le_dwords 16 block)) (word hs 0, word hs 1, word hs 2, word hs 3) (seq 0 64) in
  le_bytes (zip_with (λ x y, u32 (x + y)) hs [a; b; c; d]).

(** Section 3.3: the four words, low-order bytes first. *)
Definition md5_iv : bytes :=
  [0x01; 0x23; 0x45; 0x67] ++ [0x89; 0xab; 0xcd; 0xef] ++ [0xfe; 0xdc; 0xba; 0x98] ++ [0x76; 0x54; 0x32; 0x10].

Definition md5_hash (m : bytes) : bytes := hash_blocks rfc1321_compress md5_iv (padded (le_split 8) m).

(** ** SHA-1 (FIPS 180-4, sections 4.1.1, 4.2.1, 5.3.1 and 6.1.2) *)

Definition Ch (x y z : Z) : Z := Z.lxor (Z.land x y) (Z.land (NOT x) z).
Definition Maj (x y z : Z) : Z := Z.lxor (Z.lxor (Z.land x y) (Z.land x z)) (Z.land y z).

(** The constants are 2^30 times the square roots of 2, 3, 5 and 10. *)
Definition sha1_round (t : nat) : (Z → Z → Z → Z) * Z :=
  if (t <? 20)%nat then (Ch, Z.sqrt (2 * 2 ^ 60))
  else if (t <? 40)%nat then (XOR3, Z.sqrt (3 * 2 ^ 60))
  else if (t <? 60)%nat then (Maj, Z.sqrt (5 * 2 ^ 60))
  else (XOR3, Z.sqrt (10 * 2 ^ 60)).

Definition sha1_next (w : list Z) : Z :=
  ROTL 1 (Z.lxor (Z.lxor (Z.lxor (back w 3) (back w 8)) (back w 14)) (back w 16)).

Definition sha1_rotate (W : list Z) (abcde : Z * Z * Z * Z * Z) (t : nat) : Z * Z * Z * Z * Z :=
  let '(a, b, c, d, e) := abcde in
  let '(f, K) := sha1_round t in
  (u32 (ROTL 5 a + f b c d + e + K + word W t), a, ROTL 30 b, c, d).

Definition sha1_compress (h block : bytes) : bytes :=
  let hs := be_dwords 5 h in
  let W := schedule sha1_next 64 (be_dwords 16 block) in
  let '(a, b, c, d, e) :=
    foldl (sha1_rotate W) (word hs 0, word hs 1, word hs 2, word hs 3, word hs 4) (seq 0 80) in
  be_bytes (zip_with (λ x y, u32 (x + y)) hs [a; b; c; d; e]).

(** MD5's words, written high-order bytes first, and a fifth. *)
Definition sha1_iv : bytes := be_split 20 0x67452301efcdab8998badcfe10325476c3d2e1f0.

Definition sha1_hash (m : bytes) : bytes := hash_blocks sha1_compress sha1_iv (padded (be_split 8) m).

(** ** SHA-256 (FIPS 180-4, sections 4.1.2, 4.2.2, 5.3.3 and 6.2.2) *)

Definition Sigma0 (x : Z) : Z := XOR3 (ROTR 2 x) (ROTR 13 x) (ROTR 22 x).
Definition Sigma1 (x : Z) : Z := XOR3 (ROTR 6 x) (ROTR 11 x) (ROTR 25 x).
Definition sigma0 (x : Z) : Z := XOR3 (ROTR 7 x) (ROTR 18 x) (SHR 3 x).
Definition sigma1 (x : Z) : Z := XOR3 (ROTR 17 x) (ROTR 19 x) (SHR 10 x).

(** The first 64 primes. *)
Definition is_prime (p : Z) : bool := forallb (λ d, negb (p mod d =? 0)) (seqZ 2 (p - 2)).
Definition primes : list Z := List.filter is_prime (seqZ 2 310).

(** The integer cube root, bit by bit from 2^35. *)
Definition cbrt (n : Z) : Z :=
  foldl (λ r i, let r' := r + 2 ^ i in if r' * r' * r' <=? n then r' else r) 0 (rev (seqZ 0 36)).

(** The first 32 bits of the fractional parts of the square and cube roots of the
    first primes. *)
Definition sha256_iv : bytes := be_bytes ((λ p, Z.sqrt (p * 2 ^ 64) mod 2 ^ 32) <$> take 8 primes).
Definition sha256_K : list Z := (λ p, cbrt (p * 2 ^ 96) mod 2 ^ 32) <$> primes.

Definition sha256_next (w : list Z) : Z :=
  u32 (sigma1 (back w 2) + back w 7 + sigma0 (back w 15) + back w 16).

Definition sha256_round (W : list Z) (v : Z * Z * Z * Z * Z * Z * Z * Z) (t : nat) : Z * Z * Z * Z * Z * Z * Z * Z :=
  let '(a, b, c, d, e, f, g, h) := v in
  let T1 := u32 (h + Sigma1 e + Ch e f g + word sha256_K t + word W t) in
  let T2 := u32 (Sigma0 a + Maj a b c) in
  (u32 (T1 + T2), a, b, c, u32 (d + T1), e, f, g).

Definition sha256_compress (h block : bytes) : bytes :=
  let hs := be_dwords 8 h in
  let W := schedule sha256_next 48 (be_dwords 16 block) in
  let '(a, b, c, d, e, f, g, h) :=
    foldl (sha256_round W)
      (word hs 0, word hs 1, word hs 2, word hs 3, word hs 4, word hs 5, word hs 6, word hs 7) (seq 0 64) in
  be_bytes (zip_with (λ x y, u32 (x + y)) hs [a; b; c; d; e; f; g; h]).

Definition sha256_hash (m : bytes) : bytes :=
  hash_blocks sha256_compress sha256_iv (padded (be_split 8) m).

(** The empty message and abc, as the standards' appendices have them. *)
Lemma md5_test : md5_hash [] = be_split 16 0xd41d8cd98f00b204e9800998ecf8427e ∧
  md5_hash [97; 98; 99] = be_split 16 0x900150983cd24fb0d6963f7d28e17f72.
Proof. split; vm_compute; reflexivity. Qed.

Lemma sha1_test : sha1_hash [97; 98; 99] = be_split 20 0xa9993e364706816aba3e25717850c26c9cd0d89d.
Proof. vm_compute. reflexivity. Qed.

Lemma sha256_test :
  sha256_hash [97; 98; 99] = be_split 32 0xba7816bf8f01cfea414140de5dae2223b00361a396177a9cb410ff61f20015ad.
Proof. vm_compute. reflexivity. Qed.
