(* ===== verification/Digest.v ===== *)
(** * Message digests (src/crypto/md5.c, sha1.c, sha256.c, hmac.c,
    src/include/ipxe/rotate.h, src/include/ipxe/hmac.h)

    The three digests share their structure: a context with the digest of the
    blocks processed so far, a block buffer and a length, fed a byte at a time,
    and padded when finalised.  [update] and [final] are written once, over the
    block function; [Md5], [Sha1] and [Sha256] instantiate them, and are shown to
    compute the functions of HashStandards.v.  [Digest] is the
    interface other components use, with the laws the three satisfy; HMAC is
    verified against it. *)

From S2P Require Import Prelude HashStandards.

(** ** Words *)

Definition rol32 (data rotation : Z) : Z :=
  Z.lor (u32 (Z.shiftl data rotation)) (Z.shiftr data (32 - rotation)).
Definition ror32 (data rotation : Z) : Z :=
  Z.lor (Z.shiftr data rotation) (u32 (Z.shiftl data (32 - rotation))).
(** ~x of a uint32_t. *)
Definition not32 (x : Z) : Z := Z.lxor x 0xffffffff.

(** ** The shared structure *)

Record context : Type := Context {
  digest : bytes;
  data : bytes;
  len : Z;
}.

Section update.
Context `{Platform} (xxx_digest : context → context) (cpu_to_xx64 : Z → bytes).

Definition update_byte (ctx : context) (byte : Z) : context :=
  let offset := Z.to_nat (len ctx mod 64) in
  let ctx := Context (digest ctx) (<[offset := byte]> (data ctx)) (usize (len ctx + 1)) in
  if len ctx mod 64 =? 0 then xxx_digest ctx else ctx.

Definition xxx_update (ctx : context) (bs : bytes) : context := foldl update_byte ctx bs.

(** The padding loop; 64 iterations reach any offset of the block. *)
Fixpoint pad_loop (fuel : nat) (ctx : context) (pad : Z) : context :=
  match fuel with
  | O => ctx
  | S fuel =>
      let ctx := xxx_update ctx [pad] in
      if len ctx mod 64 =? 56 then ctx else pad_loop fuel ctx 0x00
  end.

Definition xxx_final (ctx : context) : context * bytes :=
  let len_bits := cpu_to_xx64 (u64 (len ctx * 8)) in
  let ctx := pad_loop 64 ctx 0x80 in
  let ctx := xxx_update ctx len_bits in
  (ctx, digest ctx).
End update.

(** ** MD5 *)

Module Md5.
Definition md5_k : list Z := [
  0xd76aa478; 0xe8c7b756; 0x242070db; 0xc1bdceee; 0xf57c0faf; 0x4787c62a;
  0xa8304613; 0xfd469501; 0x698098d8; 0x8b44f7af; 0xffff5bb1; 0x895cd7be;
  0x6b901122; 0xfd987193; 0xa679438e; 0x49b40821; 0xf61e2562; 0xc040b340;
  0x265e5a51; 0xe9b6c7aa; 0xd62f105d; 0x02441453; 0xd8a1e681; 0xe7d3fbc8;
  0x21e1cde6; 0xc33707d6; 0xf4d50d87; 0x455a14ed; 0xa9e3e905; 0xfcefa3f8;
  0x676f02d9; 0x8d2a4c8a; 0xfffa3942; 0x8771f681; 0x6d9d6122; 0xfde5380c;
  0xa4beea44; 0x4bdecfa9; 0xf6bb4b60; 0xbebfbc70; 0x289b7ec6; 0xeaa127fa;
  0xd4ef3085; 0x04881d05; 0xd9d4d039; 0xe6db99e5; 0x1fa27cf8; 0xc4ac5665;
  0xf4292244; 0x432aff97; 0xab9423a7; 0xfc93a039; 0x655b59c3; 0x8f0ccc92;
  0xffeff47d; 0x85845dd1; 0x6fa87e4f; 0xfe2ce6e0; 0xa3014314; 0x4e0811a1;
  0xf7537e82; 0xbd3af235; 0x2ad7d2bb; 0xeb86d391 ].

Definition md5_r : list Z := [
  7; 12; 17; 22; 7; 12; 17; 22; 7; 12; 17; 22; 7; 12; 17; 22;
  5;  9; 14; 20; 5;  9; 14; 20; 5;  9; 14; 20; 5;  9; 14; 20;
  4; 11; 16; 23; 4; 11; 16; 23; 4; 11; 16; 23; 4; 11; 16; 23;
  6; 10; 15; 21; 6; 10; 15; 21; 6; 10; 15; 21; 6; 10; 15; 21 ].

Record md5_variables : Type := Vars { va : Z; vb : Z; vc : Z; vd : Z }.

Definition md5_f_0_15 (v : md5_variables) : Z := Z.lxor (vd v) (Z.land (vb v) (Z.lxor (vc v) (vd v))).
Definition md5_f_16_31 (v : md5_variables) : Z := Z.lxor (vc v) (Z.land (vd v) (Z.lxor (vb v) (vc v))).
Definition md5_f_32_47 (v : md5_variables) : Z := Z.lxor (Z.lxor (vb v) (vc v)) (vd v).
Definition md5_f_48_63 (v : md5_variables) : Z := Z.lxor (vc v) (Z.lor (vb v) (not32 (vd v))).

Record md5_step : Type := Step { step_f : md5_variables → Z; coefficient : Z; constant : Z }.
Definition md5_steps : list md5_step :=
  [ Step md5_f_0_15 1 0; Step md5_f_16_31 5 1; Step md5_f_32_47 3 5; Step md5_f_48_63 7 0 ].

Definition md5_init (ctx : context) : context :=
  Context (le_bytes [0x67452301; 0xefcdab89; 0x98badcfe; 0x10325476]) (data ctx) 0.

(** One iteration of the main loop. *)
Definition md5_iteration (w : list Z) (v : md5_variables) (i : nat) : md5_variables :=
  let step := default (Step md5_f_0_15 1 0) (md5_steps !! (i / 16)%nat) in
  let f := step_f step v in
  let g := (coefficient step * Z.of_nat i + constant step) mod 16 in
  let temp := vd v in
  Vars temp
    (u32 (vb v + rol32 (u32 (va v + f + word md5_k i + word w (Z.to_nat g))) (word md5_r i)))
    (vb v) (vc v).

Definition md5_digest (ctx : context) : context :=
  let h := le_dwords 4 (digest ctx) in
  let w := le_dwords 16 (data ctx) in
  let v := foldl (md5_iteration w) (Vars (word h 0) (word h 1) (word h 2) (word h 3)) (seq 0 64) in
  Context (le_bytes (zip_with (λ x y, u32 (x + y)) h [va v; vb v; vc v; vd v])) (data ctx) (len ctx).

Definition md5_update `{Platform} := xxx_update md5_digest.
Definition md5_final `{Platform} := xxx_final md5_digest (le_split 8).
End Md5.

(** The block buffer after its dwords were converted to host order in place. *)
Fixpoint swap_dwords (n : nat) (bs : bytes) : bytes :=
  match n with O => [] | S n => rev (take 4 bs) ++ swap_dwords n (drop 4 bs) end.

(** ** SHA-1 *)

Module Sha1.
Record sha1_variables : Type := Vars { va : Z; vb : Z; vc : Z; vd : Z; ve : Z }.

Definition sha1_f_0_19 (v : sha1_variables) : Z :=
  Z.lor (Z.land (vb v) (vc v)) (Z.land (not32 (vb v)) (vd v)).
Definition sha1_f_20_39_60_79 (v : sha1_variables) : Z := Z.lxor (Z.lxor (vb v) (vc v)) (vd v).
Definition sha1_f_40_59 (v : sha1_variables) : Z :=
  Z.lor (Z.lor (Z.land (vb v) (vc v)) (Z.land (vb v) (vd v))) (Z.land (vc v) (vd v)).

Record sha1_step : Type := Step { step_f : sha1_variables → Z; step_k : Z }.
Definition sha1_steps : list sha1_step :=
  [ Step sha1_f_0_19 0x5a827999; Step sha1_f_20_39_60_79 0x6ed9eba1;
    Step sha1_f_40_59 0x8f1bbcdc; Step sha1_f_20_39_60_79 0xca62c1d6 ].

Definition sha1_init (ctx : context) : context :=
  Context (be_bytes [0x67452301; 0xefcdab89; 0x98badcfe; 0x10325476; 0xc3d2e1f0]) (data ctx) 0.

(** Initialise w[16..79]: [w] grows to the right. *)
Fixpoint sha1_schedule (n : nat) (w : list Z) : list Z :=
  match n with
  | O => w
  | S n =>
      let i := length w in
      let x := Z.lxor (Z.lxor (Z.lxor (word w (i - 3)) (word w (i - 8))) (word w (i - 14))) (word w (i - 16)) in
      sha1_schedule n (w ++ [rol32 x 1])
  end.

Definition sha1_iteration (w : list Z) (v : sha1_variables) (i : nat) : sha1_variables :=
  let step := default (Step sha1_f_0_19 0) (sha1_steps !! (i / 20)%nat) in
  let f := step_f step v in
  let k := step_k step in
  let temp := u32 (rol32 (va v) 5 + f + ve v + k + word w i) in
  Vars temp (va v) (rol32 (vb v) 30) (vc v) (vd v).

Definition sha1_digest (ctx : context) : context :=
  let h := be_dwords 5 (digest ctx) in
  let w := sha1_schedule 64 (be_dwords 16 (data ctx)) in
  let v := foldl (sha1_iteration w)
             (Vars (word h 0) (word h 1) (word h 2) (word h 3) (word h 4)) (seq 0 80) in
  Context (be_bytes (zip_with (λ x y, u32 (x + y)) h [va v; vb v; vc v; vd v; ve v]))
    (swap_dwords 16 (data ctx)) (len ctx).

Definition sha1_update `{Platform} := xxx_update sha1_digest.
Definition sha1_final `{Platform} := xxx_final sha1_digest (be_split 8).
End Sha1.

(** ** SHA-256 *)

Module Sha256.
Record sha256_variables : Type :=
  Vars { va : Z; vb : Z; vc : Z; vd : Z; ve : Z; vf : Z; vg : Z; vh : Z }.

(** The rows of the source's table. *)
Definition sha256_k : list Z := mjoin [
  [0x428a2f98; 0x71374491; 0xb5c0fbcf; 0xe9b5dba5; 0x3956c25b; 0x59f111f1];
  [0x923f82a4; 0xab1c5ed5; 0xd807aa98; 0x12835b01; 0x243185be; 0x550c7dc3];
  [0x72be5d74; 0x80deb1fe; 0x9bdc06a7; 0xc19bf174; 0xe49b69c1; 0xefbe4786];
  [0x0fc19dc6; 0x240ca1cc; 0x2de92c6f; 0x4a7484aa; 0x5cb0a9dc; 0x76f988da];
  [0x983e5152; 0xa831c66d; 0xb00327c8; 0xbf597fc7; 0xc6e00bf3; 0xd5a79147];
  [0x06ca6351; 0x14292967; 0x27b70a85; 0x2e1b2138; 0x4d2c6dfc; 0x53380d13];
  [0x650a7354; 0x766a0abb; 0x81c2c92e; 0x92722c85; 0xa2bfe8a1; 0xa81a664b];
  [0xc24b8b70; 0xc76c51a3; 0xd192e819; 0xd6990624; 0xf40e3585; 0x106aa070];
  [0x19a4c116; 0x1e376c08; 0x2748774c; 0x34b0bcb5; 0x391c0cb3; 0x4ed8aa4a];
  [0x5b9cca4f; 0x682e6ff3; 0x748f82ee; 0x78a5636f; 0x84c87814; 0x8cc70208];
  [0x90befffa; 0xa4506ceb; 0xbef9a3f7; 0xc67178f2] ].

Definition sha256_init (ctx : context) : context :=
  Context (be_bytes [0x6a09e667; 0xbb67ae85; 0x3c6ef372; 0xa54ff53a;
                     0x510e527f; 0x9b05688c; 0x1f83d9ab; 0x5be0cd19]) (data ctx) 0.

(** Initialise w[16..63]. *)
Fixpoint sha256_schedule (n : nat) (w : list Z) : list Z :=
  match n with
  | O => w
  | S n =>
      let i := length w in
      let w15 := word w (i - 15) in
      let w2 := word w (i - 2) in
      let s0 := Z.lxor (Z.lxor (ror32 w15 7) (ror32 w15 18)) (Z.shiftr w15 3) in
      let s1 := Z.lxor (Z.lxor (ror32 w2 17) (ror32 w2 19)) (Z.shiftr w2 10) in
      sha256_schedule n (w ++ [u32 (word w (i - 16) + s0 + word w (i - 7) + s1)])
  end.

Definition sha256_iteration (w : list Z) (v : sha256_variables) (i : nat) : sha256_variables :=
  let s0 := Z.lxor (Z.lxor (ror32 (va v) 2) (ror32 (va v) 13)) (ror32 (va v) 22) in
  let maj := Z.lxor (Z.lxor (Z.land (va v) (vb v)) (Z.land (va v) (vc v))) (Z.land (vb v) (vc v)) in
  let t2 := u32 (s0 + maj) in
  let s1 := Z.lxor (Z.lxor (ror32 (ve v) 6) (ror32 (ve v) 11)) (ror32 (ve v) 25) in
  let ch := Z.lxor (Z.land (ve v) (vf v)) (Z.land (not32 (ve v)) (vg v)) in
  let t1 := u32 (vh v + s1 + ch + word sha256_k i + word w i) in
  Vars (u32 (t1 + t2)) (va v) (vb v) (vc v) (u32 (vd v + t1)) (ve v) (vf v) (vg v).

Definition sha256_digest (ctx : context) : context :=
  let h := be_dwords 8 (digest ctx) in
  let w := sha256_schedule 48 (be_dwords 16 (data ctx)) in
  let v := foldl (sha256_iteration w)
             (Vars (word h 0) (word h 1) (word h 2) (word h 3) (word h 4) (word h 5) (word h 6) (word h 7))
             (seq 0 64) in
  Context (be_bytes (zip_with (λ x y, u32 (x + y)) h [va v; vb v; vc v; vd v; ve v; vf v; vg v; vh v]))
    (swap_dwords 16 (data ctx)) (len ctx).

Definition sha256_update `{Platform} := xxx_update sha256_digest.
Definition sha256_final `{Platform} := xxx_final sha256_digest (be_split 8).
End Sha256.

(** ** What a digest computes *)

Section merkle_damgard.
Context `{Platform}.
Context (iv : bytes) (compress : bytes → bytes → bytes) (residue : bytes → bytes) (cpu_to_xx64 : Z → bytes).
Context (Hresidue : ∀ bs, length bs = 64%nat → length (residue bs) = 64%nat).
Context (Hlen_bytes : ∀ x, length (cpu_to_xx64 x) = 8%nat).
Definition block_digest (ctx : context) : context :=
  Context (compress (digest ctx) (data ctx)) (residue (data ctx)) (len ctx).

(** The context after a message: the whole blocks are digested, the rest is in
    the buffer. *)
Definition absorbed (ctx : context) (m : bytes) : Prop :=
  ∃ bs rest, m = mjoin bs ++ rest ∧ Forall (λ b, length b = 64%nat) bs ∧ (length rest < 64)%nat ∧
    digest ctx = foldl compress iv bs ∧ length (data ctx) = 64%nat ∧
    take (length rest) (data ctx) = rest ∧ len ctx = usize (Zlen m).

Lemma usize_mod_64 x : usize x mod 64 = x mod 64.
Proof.
  unfold wrap. destruct size_bits_cases as [[_ ->]|[_ ->]].
  - change (2 ^ 32) with (64 * 67108864). apply Z.mod_mod_divide. by exists 67108864.
  - change (2 ^ 64) with (64 * 288230376151711744). apply Z.mod_mod_divide. by exists 288230376151711744.
Qed.

Lemma length_mjoin_blocks bs : Forall (λ b : bytes, length b = 64%nat) bs → length (mjoin bs) = (64 * length bs)%nat.
Proof.
  induction 1 as [|b bs Hb Hbs IH]; [done|].
  change (mjoin (b :: bs)) with (b ++ mjoin bs). rewrite length_app, Hb, IH. cbn [length]. lia.
Qed.

Lemma absorbed_offset bs rest :
  Forall (λ b : bytes, length b = 64%nat) bs → (length rest < 64)%nat →
  Zlen (mjoin bs ++ rest) mod 64 = Zlen rest.
Proof.
  intros Hbs Hr. rewrite length_app, (length_mjoin_blocks _ Hbs).
  replace (Z.of_nat (64 * length bs + length rest)) with (Zlen rest + Zlen bs * 64) by lia.
  rewrite Z.mod_add, Z.mod_small by lia. done.
Qed.

Lemma update_byte_absorbed ctx m b :
  absorbed ctx m → absorbed (update_byte block_digest ctx b) (m ++ [b]).
Proof.
  intros (bs & rest & -> & Hbs & Hr & Hd & Hb & Ht & Hlen). unfold update_byte. cbn [len digest data].
  rewrite Hlen, (wrap_add_l size_bits), !usize_mod_64, absorbed_offset, Nat2Z.id by done.
  rewrite <- Zplus_mod_idemp_l, absorbed_offset by done.
  set (data' := <[length rest := b]> (data ctx)).
  assert (take (S (length rest)) data' = rest ++ [b]) as Ht'.
  { unfold data'. erewrite take_S_r by (apply list_lookup_insert_eq; lia).
    rewrite take_insert_ge by lia. by rewrite Ht. }
  assert (length data' = 64%nat) as Hb' by (unfold data'; by rewrite length_insert).
  assert (usize (Zlen (mjoin bs ++ rest) + 1) = usize (Zlen ((mjoin bs ++ rest) ++ [b]))) as ->.
  { f_equal. rewrite (length_app _ [b]). cbn [length]. lia. }
  destruct (decide (length rest = 63%nat)) as [H63|H63].
  - rewrite H63. change ((Z.of_nat 63 + 1) mod 64 =? 0) with true. unfold block_digest. cbn [digest data len].
    exists (bs ++ [rest ++ [b]]), []. cbn [length]. rewrite join_app, app_nil_r. cbn. rewrite app_nil_r.
    split_and!; auto; try lia.
    + by rewrite app_assoc.
    + apply Forall_app. split; [done|]. repeat constructor. rewrite length_app, H63. done.
    + rewrite foldl_app, <- Ht', <- Hd. cbn. do 2 f_equal. rewrite take_ge by lia. done.
  - rewrite Z.mod_small, (proj2 (Z.eqb_neq _ 0)) by lia. cbn [digest data len].
    exists bs, (rest ++ [b]). rewrite length_app. cbn [length].
    split_and!; auto; [by rewrite app_assoc|lia|]. by rewrite Nat.add_1_r.
Qed.

Lemma update_absorbed ctx m bs : absorbed ctx m → absorbed (xxx_update block_digest ctx bs) (m ++ bs).
Proof.
  revert ctx m. induction bs as [|b bs IH]; intros ctx m Hc; cbn; [by rewrite app_nil_r|].
  replace (m ++ b :: bs) with ((m ++ [b]) ++ bs) by (by rewrite <- app_assoc).
  by apply IH, update_byte_absorbed.
Qed.

Lemma absorbed_len ctx m : absorbed ctx m → len ctx = usize (Zlen m).
Proof. by intros (? & ? & _ & _ & _ & _ & _ & _ & ?). Qed.

(** The padding loop from any offset. *)
Lemma pad_loop_absorbed fuel ctx m pad :
  absorbed ctx m → ((55 - Zlen m) mod 64 < Z.of_nat fuel) →
  absorbed (pad_loop block_digest fuel ctx pad)
    (m ++ [pad] ++ replicate (Z.to_nat ((55 - Zlen m) mod 64)) 0).
Proof.
  revert ctx m pad. induction fuel as [|fuel IH]; intros ctx m pad Hc Hf.
  { pose proof (Z.mod_pos_bound (55 - Zlen m) 64). lia. }
  cbn [pad_loop]. pose proof (update_absorbed _ _ [pad] Hc) as Hu.
  rewrite (absorbed_len _ _ Hu), usize_mod_64.
  assert (Zlen (m ++ [pad]) = Zlen m + 1) as Hl by (rewrite length_app; cbn; lia).
  pose proof (Z.div_mod (55 - Zlen m) 64 ltac:(lia)). pose proof (Z.mod_pos_bound (55 - Zlen m) 64 ltac:(lia)).
  destruct (Z.eqb_spec (Zlen (m ++ [pad]) mod 64) 56) as [He|He].
  - assert ((55 - Zlen m) mod 64 = 0) as -> by (rewrite Hl in He; Z.to_euclidean_division_equations; lia). done.
  - assert ((55 - Zlen (m ++ [pad])) mod 64 = (55 - Zlen m) mod 64 - 1) as Hm
      by (rewrite Hl in *; Z.to_euclidean_division_equations; lia).
    pose proof (Z.mod_pos_bound (55 - Zlen (m ++ [pad])) 64 ltac:(lia)) as Hb. rewrite Hm in Hb.
    specialize (IH _ _ 0x00 Hu). rewrite Hm in IH. specialize (IH ltac:(lia)).
    replace (Z.to_nat ((55 - Zlen m) mod 64)) with (S (Z.to_nat ((55 - Zlen m) mod 64 - 1))) by lia.
    by rewrite <- app_assoc in IH.
Qed.

Lemma blocks_join bs : Forall (λ b : bytes, length b = 64%nat) bs → blocks (length bs) (mjoin bs) = bs.
Proof.
  induction 1 as [|b bs Hb Hbs IH]; [done|]. cbn [length blocks mjoin list_join].
  rewrite take_app_length', drop_app_length' by done. by f_equal.
Qed.

(** Finalising the context gives the hash of what was fed to it, for messages
    whose length in bits fits the padding. *)
Lemma final_spec ctx m :
  absorbed ctx m → Zlen m < 2 ^ size_bits → Zlen m < 2 ^ 61 →
  (xxx_final block_digest cpu_to_xx64 ctx).2 = hash_blocks compress iv (padded cpu_to_xx64 m).
Proof.
  intros Hc Hm Hm'. unfold xxx_final. cbn [snd]. rewrite (absorbed_len _ _ Hc).
  rewrite (wrap_small size_bits) by (unfold in_range; lia).
  rewrite (wrap_small 64) by (unfold in_range; lia).
  pose proof (Z.mod_pos_bound (55 - Zlen m) 64 ltac:(lia)).
  pose proof (pad_loop_absorbed 64 ctx m 0x80 Hc ltac:(lia)) as Hp.
  pose proof (update_absorbed _ _ (cpu_to_xx64 (Zlen m * 8)) Hp) as Hu. clear Hp.
  replace (_ ++ cpu_to_xx64 _) with (padded cpu_to_xx64 m) in Hu
    by (unfold padded; rewrite <- !app_assoc; by rewrite (Z.mul_comm 8)).
  assert ((length (padded cpu_to_xx64 m) mod 64 = 0)%nat) as Hdiv.
  { unfold padded. rewrite !length_app, length_replicate, Hlen_bytes. cbn [length].
    apply Nat2Z.inj. rewrite Nat2Z.inj_mod.
    replace (Z.of_nat _) with (Zlen m + 1 + (55 - Zlen m) mod 64 + 8) by lia.
    change (Z.of_nat 64) with 64. Z.to_euclidean_division_equations. lia. }
  destruct Hu as (bs & rest & Heq & Hbs & Hr & Hd & _ & _ & _). rewrite Hd. unfold hash_blocks.
  rewrite Heq, length_app, (length_mjoin_blocks _ Hbs), Nat.mul_comm, Nat.add_comm in Hdiv.
  rewrite Nat.Div0.mod_add, Nat.mod_small in Hdiv by lia.
  assert (rest = []) as -> by (apply length_zero_iff_nil; lia).
  rewrite Heq, app_nil_r, (length_mjoin_blocks _ Hbs), Nat.mul_comm, Nat.div_mul by lia. by rewrite blocks_join.
Qed.
End merkle_damgard.

(** ** The standards' round functions *)

Lemma testbit_high x n : in_range 32 x → 32 ≤ n → Z.testbit x n = false.
Proof.
  unfold in_range. intros Hx Hn. destruct (decide (x = 0)) as [->|]; [apply Z.bits_0|].
  apply Z.bits_above_log2; [lia|]. apply Z.log2_lt_pow2; [lia|].
  pose proof (Z.pow_le_mono_r 2 32 n). lia.
Qed.

Lemma testbit_not32 x n : 0 ≤ n < 32 → Z.testbit (not32 x) n = negb (Z.testbit x n).
Proof.
  intros Hn. unfold not32. rewrite Z.lxor_spec. change 0xffffffff with (Z.ones 32).
  by rewrite Z.ones_spec_low, xorb_true_r by lia.
Qed.

(** Bitwise equalities of 32-bit words. *)
Ltac bitwise32 :=
  apply Z.bits_inj'; intros n Hn;
  repeat (rewrite Z.lxor_spec || rewrite Z.land_spec || rewrite Z.lor_spec);
  destruct (decide (n < 32));
  [rewrite ?testbit_not32 by lia
  |repeat match goal with H : in_range 32 ?x |- _ => rewrite !(testbit_high x n H) by lia; clear H end];
  repeat match goal with |- context [Z.testbit ?x n] => destruct (Z.testbit x n) end; reflexivity.

(** The tables of the code are those of the standards. *)
Lemma md5_k_T : Md5.md5_k = rfc1321_T.
Proof. vm_compute. reflexivity. Qed.

Lemma sha256_k_K : Sha256.sha256_k = sha256_K.
Proof. vm_compute. reflexivity. Qed.

Lemma sha1_k_sqrt :
  Z.sqrt (2 * 2 ^ 60) = 0x5a827999 ∧ Z.sqrt (3 * 2 ^ 60) = 0x6ed9eba1 ∧
  Z.sqrt (5 * 2 ^ 60) = 0x8f1bbcdc ∧ Z.sqrt (10 * 2 ^ 60) = 0xca62c1d6.
Proof. by vm_compute. Qed.

Lemma in_range_ones w x : 0 ≤ w → in_range w x ↔ Z.land x (Z.ones w) = x.
Proof.
  intros Hw. rewrite Z.land_ones by lia. unfold in_range. split.
  - intros. by apply Z.mod_small.
  - intros <-. apply Z.mod_pos_bound. lia.
Qed.

Lemma in_range_lor w x y : 0 ≤ w → in_range w x → in_range w y → in_range w (Z.lor x y).
Proof. intros Hw. rewrite !in_range_ones by done. intros Hx Hy. by rewrite Z.land_lor_distr_l, Hx, Hy. Qed.

Lemma rol32_range x n : in_range 32 x → 0 ≤ n ≤ 32 → in_range 32 (rol32 x n).
Proof.
  intros Hx Hn. apply in_range_lor; [lia|apply wrap_range; lia|]. unfold in_range in *.
  rewrite Z.shiftr_div_pow2 by lia. pose proof (Z.pow_pos_nonneg 2 (32 - n)).
  split; [apply Z.div_pos; lia|]. apply Z.div_lt_upper_bound; nia.
Qed.

(** Two loops whose bodies are related stay related. *)
Lemma foldl_sim {A B} (R : A → B → Prop) (f : A → nat → A) (g : B → nat → B) (n : nat) l v u :
  (∀ v u i, R v u → (i < n)%nat → R (f v i) (g u i)) → R v u → Forall (λ i, (i < n)%nat) l →
  R (foldl f v l) (foldl g u l).
Proof.
  intros Hfg Hv Hl. revert v u Hv. induction Hl as [|i l Hi Hl IH]; intros v u Hv; [done|]. cbn. auto.
Qed.

Lemma seq_lt n : Forall (λ i, (i < n)%nat) (seq 0 n).
Proof. apply Forall_seq. lia. Qed.

Lemma length_swap_dwords n bs : length bs = (4 * n)%nat → length (swap_dwords n bs) = (4 * n)%nat.
Proof.
  revert bs. induction n as [|n IH]; intros bs Hl; [done|]. cbn [swap_dwords].
  rewrite length_app, length_rev, length_take, IH by (rewrite length_drop; lia). lia.
Qed.

(** A word of a schedule that grows to the right, counted from its end. *)
Lemma word_back w k : (1 ≤ k ≤ length w)%nat → word w (length w - k) = back (rev w) k.
Proof.
  intros Hk. unfold back, word. rewrite rev_alt. fold (reverse w). rewrite reverse_lookup by lia.
  by replace (length w - S (k - 1))%nat with (length w - k)%nat by lia.
Qed.

Lemma sha1_schedule_fips n w :
  (16 ≤ length w)%nat → Sha1.sha1_schedule n w = schedule sha1_next n w.
Proof.
  revert w. induction n as [|n IH]; intros w Hw; [by unfold schedule; cbn; rewrite rev_involutive|].
  cbn [Sha1.sha1_schedule]. rewrite IH by (rewrite length_app; lia). unfold schedule. f_equal. cbn [extend].
  rewrite rev_app_distr. cbn [rev app]. rewrite !word_back by lia. done.
Qed.

Lemma sha256_schedule_fips n w :
  (16 ≤ length w)%nat → Sha256.sha256_schedule n w = schedule sha256_next n w.
Proof.
  revert w. induction n as [|n IH]; intros w Hw; [by unfold schedule; cbn; rewrite rev_involutive|].
  cbn [Sha256.sha256_schedule]. rewrite IH by (rewrite length_app; lia). unfold schedule. f_equal. cbn [extend].
  rewrite rev_app_distr. cbn [rev app]. rewrite !word_back by lia. do 2 f_equal. unfold sha256_next.
  set (r := rev w). change (u32 (back r 16 + sigma0 (back r 15) + back r 7 + sigma1 (back r 2))
    = u32 (sigma1 (back r 2) + back r 7 + sigma0 (back r 15) + back r 16)). f_equal. lia.
Qed.

(** The variables of the code are those of the standards, and b, c and d are words. *)
Definition md5_vars (v : Md5.md5_variables) (u : Z * Z * Z * Z) : Prop :=
  u = (Md5.va v, Md5.vb v, Md5.vc v, Md5.vd v) ∧
  in_range 32 (Md5.vb v) ∧ in_range 32 (Md5.vc v) ∧ in_range 32 (Md5.vd v) ∧ in_range 32 (Md5.va v).
Definition sha1_vars (v : Sha1.sha1_variables) (u : Z * Z * Z * Z * Z) : Prop :=
  u = (Sha1.va v, Sha1.vb v, Sha1.vc v, Sha1.vd v, Sha1.ve v) ∧
  in_range 32 (Sha1.va v) ∧ in_range 32 (Sha1.vb v) ∧ in_range 32 (Sha1.vc v) ∧ in_range 32 (Sha1.vd v).
Definition sha256_vars (v : Sha256.sha256_variables) (u : Z * Z * Z * Z * Z * Z * Z * Z) : Prop :=
  u = (Sha256.va v, Sha256.vb v, Sha256.vc v, Sha256.vd v, Sha256.ve v, Sha256.vf v, Sha256.vg v, Sha256.vh v).

(** The code's round functions are the standards', in every iteration. *)
Lemma md5_f_rfc b c d :
  in_range 32 b → in_range 32 c → in_range 32 d →
  ∀ a, let v := Md5.Vars a b c d in
  Md5.md5_f_0_15 v = rfc1321_F b c d ∧ Md5.md5_f_16_31 v = rfc1321_G b c d ∧
  Md5.md5_f_32_47 v = rfc1321_H b c d ∧ Md5.md5_f_48_63 v = rfc1321_I b c d.
Proof.
  intros Hb Hc Hd a v. change rfc1321_F with (λ x y z, Z.lor (Z.land x y) (Z.land (not32 x) z)).
  change rfc1321_G with (λ x y z, Z.lor (Z.land x z) (Z.land y (not32 z))).
  change rfc1321_I with (λ x y z, Z.lxor y (Z.lor x (not32 z))). unfold v.
  cbv [Md5.md5_f_0_15 Md5.md5_f_16_31 Md5.md5_f_32_47 Md5.md5_f_48_63 Md5.vb Md5.vc Md5.vd].
  split_and!; try reflexivity; bitwise32.
Qed.

Lemma sha1_f_fips b c d :
  in_range 32 b → in_range 32 c → in_range 32 d →
  ∀ a e, let v := Sha1.Vars a b c d e in
  Sha1.sha1_f_0_19 v = Ch b c d ∧ Sha1.sha1_f_20_39_60_79 v = XOR3 b c d ∧ Sha1.sha1_f_40_59 v = Maj b c d.
Proof.
  intros Hb Hc Hd a e v. change Ch with (λ x y z, Z.lxor (Z.land x y) (Z.land (not32 x) z)). unfold v, Maj.
  cbv [Sha1.sha1_f_0_19 Sha1.sha1_f_20_39_60_79 Sha1.sha1_f_40_59 Sha1.vb Sha1.vc Sha1.vd].
  split_and!; try reflexivity; bitwise32.
Qed.

(** What operation [i] of the code takes from its tables. *)
Definition md5_operand (i : nat) : (Md5.md5_variables → Z) * nat * Z :=
  let step := default (Md5.Step Md5.md5_f_0_15 1 0) (Md5.md5_steps !! (i / 16)%nat) in
  (Md5.step_f step, Z.to_nat ((Md5.coefficient step * Z.of_nat i + Md5.constant step) mod 16), word Md5.md5_r i).

Lemma md5_operand_rfc i :
  (i < 64)%nat →
  ∃ fc f k s ks ss, md5_operand i = (fc, k, s) ∧ rfc1321_rounds !! (i / 16)%nat = Some (f, ks, ss) ∧
    ks !! (i mod 16)%nat = Some k ∧ word ss (i mod 4) = s ∧
    (fc, f) ∈ [(Md5.md5_f_0_15, rfc1321_F); (Md5.md5_f_16_31, rfc1321_G);
               (Md5.md5_f_32_47, rfc1321_H); (Md5.md5_f_48_63, rfc1321_I)].
Proof.
  intros Hi. do 64 (destruct i as [|i]; [do 6 eexists; split_and!; [reflexivity..|]; set_solver|]). lia.
Qed.

Lemma md5_iteration_rfc w v u i :
  md5_vars v u → (i < 64)%nat → md5_vars (Md5.md5_iteration w v i) (rfc1321_operation w u i).
Proof.
  destruct v as [a b c d]. intros (-> & Hb & Hc & Hd & Ha) Hi. cbn [Md5.va Md5.vb Md5.vc Md5.vd] in *.
  destruct (md5_operand_rfc i Hi) as (fc & f & k & s & ks & ss & Hop & Hr & Hk & Hs & Hf).
  unfold md5_operand in Hop. pose proof (f_equal (λ x, x.1.1) Hop) as Hfc.
  pose proof (f_equal (λ x, x.1.2) Hop) as Hkc. pose proof (f_equal snd Hop) as Hsc. cbn [fst snd] in *.
  unfold Md5.md5_iteration, rfc1321_operation. rewrite Hr, Hfc, Hkc, Hsc. cbn [from_option id]. rewrite Hk, Hs, md5_k_T.
  cbn [from_option id Md5.va Md5.vb Md5.vc Md5.vd].
  split; [|split_and!; [apply wrap_range; lia|done..]]. destruct (md5_f_rfc b c d Hb Hc Hd a) as (H1 & H2 & H3 & H4).
  assert (fc (Md5.Vars a b c d) = f b c d) as ->.
  2: { cbn [Md5.va Md5.vb Md5.vc Md5.vd]. by rewrite <- (Z.add_assoc _ (word rfc1321_T i)), (Z.add_comm (word rfc1321_T i)), Z.add_assoc. }
  rewrite !elem_of_cons, elem_of_nil in Hf. destruct Hf as [[= -> ->]|[[= -> ->]|[[= -> ->]|[[= -> ->]|[]]]]]; done.
Qed.

Lemma sha1_iteration_fips w v u i :
  sha1_vars v u → (i < 80)%nat → sha1_vars (Sha1.sha1_iteration w v i) (sha1_rotate w u i).
Proof.
  destruct v as [a b c d e]. intros (-> & Ha & Hb & Hc & Hd) Hi. cbn [Sha1.va Sha1.vb Sha1.vc Sha1.vd Sha1.ve] in *.
  split; [|split_and!; cbn; auto; [apply wrap_range; lia|apply rol32_range; [done|lia]]].
  destruct (sha1_f_fips b c d Hb Hc Hd a e) as (H1 & H2 & H3). destruct sha1_k_sqrt as (K1 & K2 & K3 & K4).
  unfold Sha1.sha1_iteration, sha1_rotate, sha1_round. rewrite K1, K2, K3, K4.
  pose proof (Nat.div_mod i 20 ltac:(lia)) as Hq. pose proof (Nat.mod_upper_bound i 20 ltac:(lia)).
  destruct (i / 20)%nat as [|[|[|[|]]]]; [..|lia];
    repeat match goal with |- context [(i <? ?n)%nat] => destruct (Nat.ltb_spec i n); [try lia|try lia] end;
    cbv [Sha1.sha1_steps lookup list_lookup default from_option id Sha1.step_f Sha1.step_k];
    rewrite ?H1, ?H2, ?H3; reflexivity.
Qed.

Lemma sha256_iteration_fips w v u i :
  sha256_vars v u → (i < 64)%nat → sha256_vars (Sha256.sha256_iteration w v i) (sha256_round w u i).
Proof.
  destruct v as [a b c d e f g h]. intros -> _. unfold sha256_vars, Sha256.sha256_iteration, sha256_round.
  rewrite <- sha256_k_K. reflexivity.
Qed.

Lemma md5_digest_rfc ctx :
  is_bytes (digest ctx) →
  Md5.md5_digest ctx = block_digest rfc1321_compress (λ bs, bs) ctx.
Proof.
  intros Hb. unfold Md5.md5_digest, block_digest, rfc1321_compress. set (hs := le_dwords 4 (digest ctx)).
  assert (∀ i, in_range 32 (word hs i)) as Hw by (intros; apply dwords_range; [apply le_combine_32|done]).
  destruct (foldl_sim md5_vars _ _ 64 (seq 0 64) (Md5.Vars (word hs 0) (word hs 1) (word hs 2) (word hs 3))
    (word hs 0, word hs 1, word hs 2, word hs 3) (md5_iteration_rfc (le_dwords 16 (data ctx)))) as [-> _];
    [by split_and!; try apply Hw|apply seq_lt|done].
Qed.

Lemma sha1_digest_fips ctx :
  is_bytes (digest ctx) →
  Sha1.sha1_digest ctx = block_digest sha1_compress (swap_dwords 16) ctx.
Proof.
  intros Hb. unfold Sha1.sha1_digest, block_digest, sha1_compress. set (hs := be_dwords 5 (digest ctx)).
  assert (∀ i, in_range 32 (word hs i)) as Hw by (intros; apply dwords_range; [apply be_combine_32|done]).
  rewrite sha1_schedule_fips by (rewrite length_dwords; lia).
  destruct (foldl_sim sha1_vars _ _ 80 (seq 0 80)
    (Sha1.Vars (word hs 0) (word hs 1) (word hs 2) (word hs 3) (word hs 4))
    (word hs 0, word hs 1, word hs 2, word hs 3, word hs 4)
    (sha1_iteration_fips (schedule sha1_next 64 (be_dwords 16 (data ctx))))) as [-> _];
    [by split_and!; try apply Hw|apply seq_lt|done].
Qed.

Lemma sha256_digest_fips ctx :
  is_bytes (digest ctx) →
  Sha256.sha256_digest ctx = block_digest sha256_compress (swap_dwords 16) ctx.
Proof.
  intros _. unfold Sha256.sha256_digest, block_digest, sha256_compress. set (hs := be_dwords 8 (digest ctx)).
  rewrite sha256_schedule_fips by (rewrite length_dwords; lia).
  rewrite (foldl_sim sha256_vars _ _ 64 (seq 0 64)
    (Sha256.Vars (word hs 0) (word hs 1) (word hs 2) (word hs 3) (word hs 4) (word hs 5) (word hs 6) (word hs 7))
    (word hs 0, word hs 1, word hs 2, word hs 3, word hs 4, word hs 5, word hs 6, word hs 7)
    (sha256_iteration_fips (schedule sha256_next 48 (be_dwords 16 (data ctx))))); [done|done|apply seq_lt].
Qed.

(** Block functions that agree on contexts with a digest made of bytes feed and
    finalise alike. *)
Section agree.
Context `{Platform} (dig1 dig2 : context → context) (cpu_to_xx64 : Z → bytes).
Context (Hagree : ∀ ctx, is_bytes (digest ctx) → dig1 ctx = dig2 ctx).
Context (Hbytes : ∀ ctx, is_bytes (digest (dig1 ctx))).

Lemma update_byte_agree ctx b :
  is_bytes (digest ctx) →
  update_byte dig1 ctx b = update_byte dig2 ctx b ∧ is_bytes (digest (update_byte dig1 ctx b)).
Proof using Hagree Hbytes. intros Hd. unfold update_byte. case_match; [|done]. split; [by apply Hagree|apply Hbytes]. Qed.

Lemma update_agree ctx bs :
  is_bytes (digest ctx) →
  xxx_update dig1 ctx bs = xxx_update dig2 ctx bs ∧ is_bytes (digest (xxx_update dig1 ctx bs)).
Proof using Hagree Hbytes.
  revert ctx. induction bs as [|b bs IH]; intros ctx Hd; [done|]. cbn.
  destruct (update_byte_agree ctx b Hd) as [<- ?]. by apply IH.
Qed.

Lemma pad_loop_agree fuel ctx pad :
  is_bytes (digest ctx) →
  pad_loop dig1 fuel ctx pad = pad_loop dig2 fuel ctx pad ∧ is_bytes (digest (pad_loop dig1 fuel ctx pad)).
Proof using Hagree Hbytes.
  revert ctx pad. induction fuel as [|fuel IH]; intros ctx pad Hd; [done|]. cbn [pad_loop].
  destruct (update_agree ctx [pad] Hd) as [<- ?]. case_match; [done|]. by apply IH.
Qed.

Lemma final_agree ctx :
  is_bytes (digest ctx) → xxx_final dig1 cpu_to_xx64 ctx = xxx_final dig2 cpu_to_xx64 ctx.
Proof using Hagree Hbytes.
  intros Hd. unfold xxx_final. destruct (pad_loop_agree 64 ctx 0x80 Hd) as [<- Hd'].
  by destruct (update_agree (pad_loop dig1 64 ctx 0x80) (cpu_to_xx64 (u64 (len ctx * 8))) Hd') as [<- _].
Qed.

Lemma updates_agree ctx chunks :
  is_bytes (digest ctx) →
  foldl (xxx_update dig1) ctx chunks = foldl (xxx_update dig2) ctx chunks ∧
  is_bytes (digest (foldl (xxx_update dig1) ctx chunks)).
Proof using Hagree Hbytes.
  revert ctx. induction chunks as [|c chunks IH]; intros ctx Hd; [done|]. cbn.
  destruct (update_agree ctx c Hd) as [<- ?]. by apply IH.
Qed.
End agree.

(** The buffer keeps its size. *)
Section buffer.
Context `{Platform} (dig : context → context) (cpu_to_xx64 : Z → bytes).
Context (Hdata : ∀ ctx, length (data ctx) = 64%nat → length (data (dig ctx)) = 64%nat).

Lemma update_buffer ctx bs : length (data ctx) = 64%nat → length (data (xxx_update dig ctx bs)) = 64%nat.
Proof using Hdata.
  revert ctx. induction bs as [|b bs IH]; intros ctx Hd; [done|]. cbn. apply IH. unfold update_byte.
  case_match; [apply Hdata|]; cbn; by rewrite length_insert.
Qed.

Lemma pad_buffer fuel ctx pad :
  length (data ctx) = 64%nat → length (data (pad_loop dig fuel ctx pad)) = 64%nat.
Proof using Hdata.
  revert ctx pad. induction fuel as [|fuel IH]; intros ctx pad Hd; [done|]. cbn [pad_loop].
  case_match; [|apply IH]; by apply update_buffer.
Qed.

Lemma final_buffer ctx :
  length (data ctx) = 64%nat → length (data (xxx_final dig cpu_to_xx64 ctx).1) = 64%nat.
Proof using Hdata. intros. unfold xxx_final. cbn [fst]. by apply update_buffer, pad_buffer. Qed.
End buffer.

(** ** The digest interface *)

(** struct digest_algorithm, and what its users rely on: finalising a context
    fed in any number of pieces gives the hash of their concatenation. *)
Class Digest := {
  ctx : Type;
  ctx_ok : ctx → Prop;
  digest_init : ctx → ctx;
  digest_update : ctx → bytes → ctx;
  digest_final : ctx → ctx * bytes;
  blocksize : nat;
  digestsize : nat;
  hash : bytes → bytes;
  hash_limit : Z;
  init_ok c : ctx_ok c → ctx_ok (digest_init c);
  update_ok c bs : ctx_ok c → ctx_ok (digest_update c bs);
  final_ok c : ctx_ok c → ctx_ok (digest_final c).1;
  digest_law c chunks :
    ctx_ok c → Zlen (mjoin chunks) < hash_limit →
    (digest_final (foldl digest_update (digest_init c) chunks)).2 = hash (mjoin chunks);
  length_hash m : length (hash m) = digestsize;
  digest_fits : (digestsize ≤ blocksize)%nat;
  digest_pos : (0 < digestsize)%nat;
}.

(** Messages are at most as long as [size_t] can count and their length in bits
    as the padding can hold. *)
Definition message_limit `{Platform} : Z := Z.min (2 ^ size_bits) (2 ^ 61).

Section algorithm.
Context `{Platform} (dig : context → context) (iv : bytes) (compress : bytes → bytes → bytes).
Context (residue : bytes → bytes) (cpu_to_xx64 : Z → bytes).
Context (Hdig : ∀ ctx, is_bytes (digest ctx) → dig ctx = block_digest compress residue ctx).
Context (Hbytes : ∀ ctx, is_bytes (digest (dig ctx))) (Hiv : is_bytes iv).
Context (Hresidue : ∀ bs, length bs = 64%nat → length (residue bs) = 64%nat).
Context (Hlen : ∀ x, length (cpu_to_xx64 x) = 8%nat).

Lemma algorithm_law c chunks :
  length (data c) = 64%nat → Zlen (mjoin chunks) < message_limit →
  (xxx_final dig cpu_to_xx64 (foldl (xxx_update dig) (Context iv (data c) 0) chunks)).2
  = hash_blocks compress iv (padded cpu_to_xx64 (mjoin chunks)).
Proof using Hdig Hbytes Hiv Hresidue Hlen.
  intros Hc Hm. unfold message_limit in Hm.
  destruct (updates_agree dig _ Hdig Hbytes (Context iv (data c) 0) chunks Hiv) as [Hu Hb].
  rewrite (final_agree dig _ cpu_to_xx64 Hdig Hbytes _ Hb), Hu.
  apply (final_spec iv compress residue cpu_to_xx64 Hresidue Hlen); [|lia..].
  assert (∀ c m, absorbed iv compress c m →
    absorbed iv compress (foldl (xxx_update (block_digest compress residue)) c chunks) (m ++ mjoin chunks)) as Ha.
  { clear -Hresidue. induction chunks as [|ch chunks IH]; intros c m Hc; cbn; [by rewrite app_nil_r|].
    rewrite app_assoc. by apply IH, update_absorbed. }
  apply (Ha _ []). exists [], []. split_and!; try done; cbn [length]; lia.
Qed.

Lemma length_hash_blocks n m :
  (∀ h b, length (compress h b) = n) → length iv = n → length (hash_blocks compress iv m) = n.
Proof.
  intros Hc Hl. unfold hash_blocks. revert Hl. generalize iv.
  induction (blocks (length m / 64) m) as [|b bs IH]; intros h Hh; [done|]. cbn. apply IH, Hc.
Qed.
End algorithm.

(** ** The three algorithms *)

Lemma ivs_bytes : is_bytes md5_iv ∧ is_bytes sha1_iv ∧ is_bytes sha256_iv.
Proof. split_and!; [exact (is_bytes_le_bytes [0x67452301; 0xefcdab89; 0x98badcfe; 0x10325476])|apply be_split_bytes|apply is_bytes_be_bytes]. Qed.

Lemma compress_bytes h b :
  is_bytes (rfc1321_compress h b) ∧ is_bytes (sha1_compress h b) ∧ is_bytes (sha256_compress h b).
Proof.
  unfold rfc1321_compress, sha1_compress, sha256_compress. repeat case_match.
  split_and!; [apply is_bytes_le_bytes|apply is_bytes_be_bytes..].
Qed.

(** Initialising starts from the standards' hash values. *)
Lemma md5_init_iv c : Md5.md5_init c = Context md5_iv (data c) 0.
Proof. reflexivity. Qed.

Lemma sha1_init_iv c : Sha1.sha1_init c = Context sha1_iv (data c) 0.
Proof. reflexivity. Qed.

Lemma sha256_init_iv c : Sha256.sha256_init c = Context sha256_iv (data c) 0.
Proof.
  unfold Sha256.sha256_init. f_equal; vm_compute; reflexivity.
Qed.

Lemma length_sums {A} (f : Z → Z → A) combine n bs (l : list Z) :
  length l = n → length (zip_with f (dwords combine n bs) l) = n.
Proof. intros Hl. rewrite length_zip_with, length_dwords, Hl. lia. Qed.

#[export, refine] Instance md5_algorithm `{Platform} : Digest := {|
  ctx := context;
  ctx_ok c := length (data c) = 64%nat;
  digest_init := Md5.md5_init;
  digest_update := Md5.md5_update;
  digest_final := Md5.md5_final;
  blocksize := 64;
  digestsize := 16;
  hash := md5_hash;
  hash_limit := message_limit;
|}.
Proof.
  - done.
  - intros c bs. by apply update_buffer.
  - intros c. by apply final_buffer.
  - intros c chunks Hc Hm. unfold Md5.md5_final, Md5.md5_update. rewrite md5_init_iv.
    exact (algorithm_law _ _ _ (λ bs, bs) _ md5_digest_rfc (λ _, is_bytes_le_bytes _) (proj1 ivs_bytes)
      (λ _ Hl, Hl) (length_le_split 8) c chunks Hc Hm).
  - intros m. apply length_hash_blocks; [|done]. intros. unfold rfc1321_compress.
    destruct (foldl _ _ _) as [[[? ?] ?] ?]. by rewrite length_le_bytes, length_sums.
  - lia.
  - lia.
Defined.

#[export, refine] Instance sha1_algorithm `{Platform} : Digest := {|
  ctx := context;
  ctx_ok c := length (data c) = 64%nat;
  digest_init := Sha1.sha1_init;
  digest_update := Sha1.sha1_update;
  digest_final := Sha1.sha1_final;
  blocksize := 64;
  digestsize := 20;
  hash := sha1_hash;
  hash_limit := message_limit;
|}.
Proof.
  - done.
  - intros c bs. apply update_buffer. intros. by apply (length_swap_dwords 16).
  - intros c. apply final_buffer. intros. by apply (length_swap_dwords 16).
  - intros c chunks Hc Hm. unfold Sha1.sha1_final, Sha1.sha1_update. rewrite sha1_init_iv.
    exact (algorithm_law _ _ _ (swap_dwords 16) _ sha1_digest_fips (λ _, is_bytes_be_bytes _) (proj1 (proj2 ivs_bytes))
      (length_swap_dwords 16) (length_be_split 8) c chunks Hc Hm).
  - intros m. apply length_hash_blocks; [|done]. intros. unfold sha1_compress.
    destruct (foldl _ _ _) as [[[[? ?] ?] ?] ?]. by rewrite length_be_bytes, length_sums.
  - lia.
  - lia.
Defined.

#[export, refine] Instance sha256_algorithm `{Platform} : Digest := {|
  ctx := context;
  ctx_ok c := length (data c) = 64%nat;
  digest_init := Sha256.sha256_init;
  digest_update := Sha256.sha256_update;
  digest_final := Sha256.sha256_final;
  blocksize := 64;
  digestsize := 32;
  hash := sha256_hash;
  hash_limit := message_limit;
|}.
Proof.
  - done.
  - intros c bs. apply update_buffer. intros. by apply (length_swap_dwords 16).
  - intros c. apply final_buffer. intros. by apply (length_swap_dwords 16).
  - intros c chunks Hc Hm. unfold Sha256.sha256_final, Sha256.sha256_update. rewrite sha256_init_iv.
    exact (algorithm_law _ _ _ (swap_dwords 16) _ sha256_digest_fips (λ _, is_bytes_be_bytes _) (is_bytes_be_bytes _)
      (length_swap_dwords 16) (length_be_split 8) c chunks Hc Hm).
  - intros m. apply length_hash_blocks; [|done]. intros. unfold sha256_compress.
    destruct (foldl _ _ _) as [[[[[[[? ?] ?] ?] ?] ?] ?] ?]. by rewrite length_be_bytes, length_sums.
  - lia.
  - lia.
Defined.

(** C9: feeding a message in any pieces to a freshly initialised context and
    finalising it gives the MD5, SHA-1 or SHA-256 hash of the message, as RFC
    1321 and FIPS 180-4 define them, whatever the buffer held before. *)
Theorem digests_correct `{Platform} (c : context) (chunks : list bytes) :
  length (data c) = 64%nat → Zlen (mjoin chunks) < message_limit →
  (Md5.md5_final (foldl Md5.md5_update (Md5.md5_init c) chunks)).2 = md5_hash (mjoin chunks) ∧
  (Sha1.sha1_final (foldl Sha1.sha1_update (Sha1.sha1_init c) chunks)).2 = sha1_hash (mjoin chunks) ∧
  (Sha256.sha256_final (foldl Sha256.sha256_update (Sha256.sha256_init c) chunks)).2
    = sha256_hash (mjoin chunks).
Proof.
  intros Hc Hm. split_and!.
  - exact (digest_law (Digest := md5_algorithm) c chunks Hc Hm).
  - exact (digest_law (Digest := sha1_algorithm) c chunks Hc Hm).
  - exact (digest_law (Digest := sha256_algorithm) c chunks Hc Hm).
Qed.

(** The hash of abc, fed as a and bc. *)
Lemma digests_correct_witness :
  let c := Context [] (replicate 64 7) 0 in
  (Sha256.sha256_final (H := i386) (foldl (Sha256.sha256_update (H := i386)) (Sha256.sha256_init c) [[97]; [98; 99]])).2
    = be_split 32 0xba7816bf8f01cfea414140de5dae2223b00361a396177a9cb410ff61f20015ad ∧
  sha1_hash [97; 98; 99] = be_split 20 0xa9993e364706816aba3e25717850c26c9cd0d89d ∧
  md5_hash [97; 98; 99] = be_split 16 0x900150983cd24fb0d6963f7d28e17f72.
Proof.
  intros c. destruct (digests_correct (H := i386) c [[97]; [98; 99]]) as (_ & _ & ->); [done|by vm_compute|].
  split_and!; vm_compute; reflexivity.
Defined.
