(* ===== verification/Hmac.v ===== *)
(** * HMAC and hash derivation (src/crypto/hmac.c, src/include/ipxe/hmac.h,
    src/crypto/hash_df.c)

    Both work with any digest algorithm, through the [Digest] interface. *)

From S2P Require Import Prelude Digest.

Section hmac.
Context `{Digest}.

(** ** Operations *)

(** [key] is the caller's buffer, which a reduced key overwrites; the context on
    the stack starts out as anything.  Returns the key that is in use. *)
Definition hmac_reduce_key (digest_ctx : ctx) (key : bytes) : bytes :=
  let digest_ctx := digest_init digest_ctx in
  let digest_ctx := digest_update digest_ctx key in
  (digest_final digest_ctx).2.

(** The key padded with zeroes to a block, each byte xored with [x]. *)
Definition pad_key (key : bytes) (x : Z) : bytes :=
  (λ b, Z.lxor b x) <$> (key ++ replicate (blocksize - length key) 0).

Definition hmac_init (stack digest_ctx : ctx) (key : bytes) : ctx * bytes :=
  (* Reduce key if necessary *)
  let key := if decide (blocksize < length key)%nat then hmac_reduce_key stack key else key in
  (* Construct input pad *)
  let k_ipad := pad_key key 0x36 in
  (* Start inner hash *)
  let digest_ctx := digest_init digest_ctx in
  let digest_ctx := digest_update digest_ctx k_ipad in
  (digest_ctx, key).

Definition hmac_update (digest_ctx : ctx) (data : bytes) : ctx := digest_update digest_ctx data.

(** Returns the context, the key and the authentication code. *)
Definition hmac_final (stack digest_ctx : ctx) (key : bytes) : ctx * bytes * bytes :=
  (* Reduce key if necessary *)
  let key := if decide (blocksize < length key)%nat then hmac_reduce_key stack key else key in
  (* Construct output pad *)
  let k_opad := pad_key key 0x5c in
  (* Finish inner hash *)
  let '(digest_ctx, hmac) := digest_final digest_ctx in
  (* Perform outer hash *)
  let digest_ctx := digest_init digest_ctx in
  let digest_ctx := digest_update digest_ctx k_opad in
  let digest_ctx := digest_update digest_ctx hmac in
  let '(digest_ctx, hmac) := digest_final digest_ctx in
  (digest_ctx, key, hmac).

(** The loop of hash_df: [remaining] bytes of output are missing.  An iteration
    produces at least a byte, as a digest is not empty. *)
Fixpoint hash_df_loop (fuel : nat) (stack : ctx) (counter output_len : Z) (input : bytes) (remaining : nat) : bytes :=
  match fuel, remaining with
  | O, _ | _, O => []
  | S fuel, _ =>
      let prefix := u8 counter :: be_split 4 (u32 (output_len * 8)) in
      let context := digest_init stack in
      let context := digest_update context prefix in
      let context := digest_update context input in
      let '(context, digest) := digest_final context in
      let counter := u8 (counter + 1) in
      let frag_len := Nat.min digestsize remaining in
      take frag_len digest ++ hash_df_loop fuel context counter output_len input (remaining - frag_len)
  end.

Definition hash_df (stack : ctx) (input : bytes) (output_len : nat) : bytes :=
  hash_df_loop output_len stack 1 (Z.of_nat output_len) input output_len.

(** ** Specifications *)

(** RFC 2104. *)
Definition hmac_key (key : bytes) : bytes := if decide (blocksize < length key)%nat then hash key else key.
Definition HMAC (key m : bytes) : bytes :=
  hash (pad_key (hmac_key key) 0x5c ++ hash (pad_key (hmac_key key) 0x36 ++ m)).

(** ANS X9.82 Part 3, section 10.5.2: the leftmost bytes of the hashes of the
    counter, the number of bits and the input. *)
Definition df_block (input : bytes) (output_len : Z) (counter : nat) : bytes :=
  hash (Z.of_nat counter :: be_split 4 (output_len * 8) ++ input).
Definition Hash_df (input : bytes) (output_len : nat) : bytes :=
  take output_len (mjoin (df_block input (Z.of_nat output_len) <$> seq 1 ((output_len + digestsize - 1) / digestsize))).

(** ** Lemmas *)

Lemma hmac_reduce_key_spec stack key :
  ctx_ok stack → Zlen key < hash_limit → hmac_reduce_key stack key = hash key.
Proof.
  intros Hs Hk. unfold hmac_reduce_key. pose proof (digest_law stack [key] Hs) as Hl.
  rewrite mjoin_cons, mjoin_nil, app_nil_r in Hl. by apply Hl.
Qed.

Lemma hmac_key_spec stack key :
  ctx_ok stack → Zlen key < hash_limit →
  (if decide (blocksize < length key)%nat then hmac_reduce_key stack key else key) = hmac_key key.
Proof. intros. unfold hmac_key. case_decide; [by apply hmac_reduce_key_spec|done]. Qed.

Lemma length_hmac_key key : (length (hmac_key key) ≤ blocksize)%nat.
Proof. unfold hmac_key. case_decide; [|lia]. rewrite length_hash. apply digest_fits. Qed.

Lemma length_pad_key key x : (length key ≤ blocksize)%nat → length (pad_key key x) = blocksize.
Proof. intros. unfold pad_key. rewrite length_fmap, length_app, length_replicate. lia. Qed.

Lemma hmac_key_idemp key : hmac_key (hmac_key key) = hmac_key key.
Proof. unfold hmac_key at 1. rewrite decide_False; [done|]. pose proof (length_hmac_key key). lia. Qed.

Lemma updates_ok c chunks : ctx_ok c → ctx_ok (foldl digest_update c chunks).
Proof. revert c. induction chunks as [|b chunks IH]; intros c Hc; [done|]. by apply IH, update_ok. Qed.

(** The hash of a message with a block before it is within the digest's limit. *)
Definition hmac_limit (n : Z) : Prop := Z.of_nat blocksize + n < hash_limit.

Lemma hmac_spec stack stack' c key chunks :
  ctx_ok stack → ctx_ok stack' → ctx_ok c → Zlen key < hash_limit →
  hmac_limit (Zlen (mjoin chunks)) → hmac_limit (Z.of_nat digestsize) →
  let '(c1, key1) := hmac_init stack c key in
  let c2 := foldl hmac_update c1 chunks in
  let '(c3, key3, mac) := hmac_final stack' c2 key1 in
  key1 = hmac_key key ∧ key3 = hmac_key key ∧ ctx_ok c3 ∧ mac = HMAC key (mjoin chunks).
Proof.
  intros Hs Hs' Hc Hk Hm Hd. unfold hmac_init. rewrite hmac_key_spec by done.
  unfold hmac_final. rewrite (hmac_key_spec stack' (hmac_key key)); [|done|].
  2:{ unfold hmac_limit in *. pose proof (length_hmac_key key). lia. }
  rewrite hmac_key_idemp. pose proof (length_pad_key (hmac_key key) 0x36 (length_hmac_key key)) as Hli.
  pose proof (length_pad_key (hmac_key key) 0x5c (length_hmac_key key)) as Hlo.
  pose proof (digest_law c (pad_key (hmac_key key) 0x36 :: chunks) Hc) as Hinner. cbn [foldl] in Hinner.
  rewrite mjoin_cons, length_app, Hli in Hinner.
  change hmac_update with digest_update. unfold hmac_limit in *. specialize (Hinner ltac:(lia)).
  set (c2 := foldl digest_update _ chunks) in *.
  assert (ctx_ok (digest_final c2).1) as Hc2 by (by apply final_ok, updates_ok, update_ok, init_ok).
  destruct (digest_final c2) as [c3 inner]. cbn [fst snd] in *. subst inner.
  pose proof (digest_law c3 [pad_key (hmac_key key) 0x5c; hash (pad_key (hmac_key key) 0x36 ++ mjoin chunks)] Hc2)
    as Houter. cbn [foldl] in Houter.
  rewrite !mjoin_cons, mjoin_nil, app_nil_r, length_app, Hlo, length_hash in Houter. specialize (Houter ltac:(lia)).
  set (c4 := digest_update (digest_update (digest_init c3) (pad_key (hmac_key key) 0x5c))
               (hash (pad_key (hmac_key key) 0x36 ++ mjoin chunks))) in *.
  assert (ctx_ok (digest_final c4).1) as Hc4 by (by apply final_ok, update_ok, update_ok, init_ok).
  destruct (digest_final c4) as [c5 mac]. cbn [fst snd] in *. split_and!; auto.
Qed.

Lemma length_HMAC key m : length (HMAC key m) = digestsize.
Proof. apply length_hash. Qed.

(** C10: an HMAC context initialised with any key, fed a message in any pieces
    and finalised gives the RFC 2104 authentication code; the key that is left
    in the caller's buffer is the key, or its hash if it was longer than a
    block, and it is the same after both calls. *)
Theorem hmac_correct stack stack' c key chunks :
  ctx_ok stack → ctx_ok stack' → ctx_ok c → Zlen key < hash_limit →
  Z.of_nat blocksize + Zlen (mjoin chunks) < hash_limit → Z.of_nat (blocksize + digestsize) < hash_limit →
  let '(c1, key1) := hmac_init stack c key in
  let '(_, key3, mac) := hmac_final stack' (foldl hmac_update c1 chunks) key1 in
  key1 = hmac_key key ∧ key3 = key1 ∧ mac = HMAC key (mjoin chunks).
Proof.
  intros Hs Hs' Hc Hk Hm Hd.
  pose proof (hmac_spec stack stack' c key chunks Hs Hs' Hc Hk Hm) as Hspec. unfold hmac_limit in Hspec.
  specialize (Hspec ltac:(lia)). destruct (hmac_init stack c key) as [c1 key1].
  destruct (hmac_final stack' (foldl hmac_update c1 chunks) key1) as [[c3 key3] mac].
  destruct Hspec as (-> & -> & _ & ->). done.
Qed.

(** ** Hash derivation *)

(** Number of hashes needed for some bytes of output. *)
Definition df_count (n : nat) : nat := (n + digestsize - 1) / digestsize.

Lemma df_count_0 : df_count 0 = 0%nat.
Proof. unfold df_count. apply Nat.div_small. pose proof digest_pos. lia. Qed.

Lemma df_count_S n : (0 < n)%nat → df_count n = S (df_count (n - Nat.min digestsize n)).
Proof.
  intros Hn. pose proof digest_pos as Hp. unfold df_count. destruct (Nat.min_spec digestsize n) as [[Hlt ->]|[Hle ->]].
  - replace (n + digestsize - 1)%nat with (n - digestsize + digestsize - 1 + 1 * digestsize)%nat by lia.
    rewrite Nat.div_add by lia. lia.
  - rewrite Nat.sub_diag, (Nat.div_small (0 + digestsize - 1)) by lia.
    apply Nat.le_antisymm; [apply Nat.lt_succ_r, Nat.Div0.div_lt_upper_bound; lia|].
    apply Nat.div_le_lower_bound; lia.
Qed.

Lemma hash_df_iteration stack prefix input :
  ctx_ok stack → Zlen prefix + Zlen input < hash_limit →
  let '(context, digest) := digest_final (digest_update (digest_update (digest_init stack) prefix) input) in
  ctx_ok context ∧ digest = hash (prefix ++ input).
Proof.
  intros Hs Hl. pose proof (digest_law stack [prefix; input] Hs) as Hlaw. cbn [foldl] in Hlaw.
  rewrite !mjoin_cons, mjoin_nil, app_nil_r, length_app in Hlaw. specialize (Hlaw ltac:(lia)).
  pose proof (final_ok _ (update_ok _ input (update_ok _ prefix (init_ok _ Hs)))) as Hok.
  destruct (digest_final _) as [context digest]. done.
Qed.

Lemma hash_df_loop_spec fuel stack k output_len input remaining :
  ctx_ok stack → 5 + Zlen input < hash_limit → 0 ≤ output_len * 8 < 2 ^ 32 →
  (remaining ≤ fuel)%nat → (k + df_count remaining ≤ 256)%nat →
  hash_df_loop fuel stack (Z.of_nat k) output_len input remaining
  = take remaining (mjoin (df_block input output_len <$> seq k (df_count remaining))).
Proof.
  intros Hs Hin Hout. revert stack k remaining Hs. induction fuel as [|fuel IH]; intros stack k remaining Hs Hf Hk.
  { assert (remaining = 0)%nat as -> by lia. done. }
  destruct (decide (remaining = 0%nat)) as [->|Hr]; [done|].
  rewrite df_count_S in Hk |- * by lia. cbn [hash_df_loop].
  destruct remaining as [|r]; [done|]. set (remaining := S r) in *.
  rewrite (wrap_small 8 (Z.of_nat k)), (wrap_small 32) by (unfold in_range; lia).
  set (prefix := Z.of_nat k :: be_split 4 (output_len * 8)).
  pose proof (hash_df_iteration stack prefix input Hs) as Hit.
  assert (Zlen prefix = 5) as Hp by (unfold prefix; cbn [length]; rewrite length_be_split; done).
  specialize (Hit ltac:(lia)). destruct (digest_final _) as [context d]. destruct Hit as [Hc ->].
  set (frag := Nat.min digestsize remaining) in *.
  assert (hash_df_loop fuel context (u8 (Z.of_nat k + 1)) output_len input (remaining - frag)
          = take (remaining - frag) (mjoin (df_block input output_len <$> seq (S k) (df_count (remaining - frag))))) as ->.
  { destruct (decide (remaining - frag = 0)%nat) as [->|Hne]; [by destruct fuel|].
    rewrite (df_count_S (remaining - frag)) in Hk by lia.
    replace (u8 (Z.of_nat k + 1)) with (Z.of_nat (S k)) by (rewrite wrap_small; unfold in_range; lia).
    pose proof digest_pos. apply IH; [done|unfold frag, remaining in *; lia|].
    rewrite (df_count_S (remaining - frag)) by lia. lia. }
  cbn [seq fmap list_fmap]. rewrite mjoin_cons.
  change (hash (prefix ++ input)) with (df_block input output_len k).
  assert (length (df_block input output_len k) = digestsize) as Hh by apply length_hash.
  rewrite (take_app _ _ remaining), Hh.
  destruct (Nat.min_spec digestsize remaining) as [[Hlt Heq]|[Hle Heq]]; fold frag in Heq; rewrite Heq.
  - rewrite (take_ge (df_block _ _ _) digestsize), (take_ge (df_block _ _ _) remaining) by lia. reflexivity.
  - replace (remaining - digestsize)%nat with 0%nat by lia. by rewrite Nat.sub_diag, !take_0.
Qed.

Lemma hash_df_spec stack input output_len :
  ctx_ok stack → 5 + Zlen input < hash_limit → Z.of_nat output_len * 8 < 2 ^ 32 →
  (df_count output_len ≤ 255)%nat →
  hash_df stack input output_len = Hash_df input output_len.
Proof. intros. apply (hash_df_loop_spec output_len stack 1); auto; lia. Qed.

Lemma length_Hash_df input n : length (Hash_df input n) = n.
Proof.
  unfold Hash_df. fold (df_count n). rewrite length_take. apply Nat.min_l.
  assert (∀ k c, length (mjoin (df_block input (Z.of_nat n) <$> seq k c)) = (c * digestsize)%nat) as ->.
  { intros k c. revert k. induction c as [|c IH]; intros k; [done|]. cbn [seq fmap list_fmap].
    rewrite mjoin_cons, length_app. unfold df_block at 1. rewrite length_hash.
    fold (fmap (M := list) (df_block input (Z.of_nat n))). rewrite IH. lia. }
  unfold df_count. pose proof digest_pos.
  pose proof (Nat.div_mod (n + digestsize - 1) digestsize ltac:(lia)).
  pose proof (Nat.mod_upper_bound (n + digestsize - 1) digestsize ltac:(lia)). lia.
Qed.
End hmac.

(** RFC 2202, test case 2 for HMAC-MD5. *)
Lemma hmac_correct_witness :
  let c := Context [] (replicate 64 0) 0 in
  let key := [74; 101; 102; 101] in
  let '(c1, key1) := hmac_init (H := md5_algorithm (H := i386)) c c key in
  let '(_, _, mac) := hmac_final (H := md5_algorithm (H := i386)) c
    (foldl (hmac_update (H := md5_algorithm (H := i386))) c1
       [[119; 104; 97; 116; 32; 100; 111; 32; 121; 97; 32; 119; 97; 110; 116; 32];
        [102; 111; 114; 32; 110; 111; 116; 104; 105; 110; 103; 63]]) key1 in
  mac = be_split 16 0x750c783e6ab0b503eaa86e310a5db738.
Proof.
  intros c key.
  pose proof (hmac_correct (H := md5_algorithm (H := i386)) c c c key
    [[119; 104; 97; 116; 32; 100; 111; 32; 121; 97; 32; 119; 97; 110; 116; 32];
     [102; 111; 114; 32; 110; 111; 116; 104; 105; 110; 103; 63]]
    eq_refl eq_refl eq_refl ltac:(by vm_compute) ltac:(by vm_compute) ltac:(by vm_compute)) as Hw.
  destruct (hmac_init (H := md5_algorithm (H := i386)) c c key) as [c1 key1].
  destruct (hmac_final (H := md5_algorithm (H := i386)) c _ key1) as [[c3 key3] mac]. destruct Hw as (_ & _ & ->). by vm_compute.
Defined.
