(* ===== verification/Drbg.v ===== *)
(** * The random bit generator (src/crypto/hmac_drbg.c, src/crypto/drbg.c,
    src/include/ipxe/hmac_drbg.h, src/include/ipxe/drbg.h)

    [hmac_drbg_*] follow ANS X9.82 Part 3 (NIST SP 800-90) HMAC_DRBG over any
    digest algorithm; [drbg_*] add the validity flag, the limits and the reseeding
    from an entropy source, which is an interface ([EntropyInput]). *)

From S2P Require Import Prelude Digest Hmac.

(** ** HMAC_DRBG *)

Definition HMAC_DRBG_RESEED_INTERVAL : Z := 1024.

(** The key and the value are the first outlen bytes of their buffers. *)
Record hmac_drbg_state : Type := HmacDrbg {
  value : bytes;
  key : bytes;
  reseed_counter : Z;
}.

Section hmac_drbg.
Context `{Digest}.
(** The digest contexts are on the stack, and start out as anything. *)
Variable stack : ctx.

(** K = HMAC ( K, V || single || provided_data ) *)
Definition hmac_drbg_update_key (state : hmac_drbg_state) (data : bytes) (single : Z) : hmac_drbg_state :=
  let '(context, k) := hmac_init stack stack (key state) in
  let context := hmac_update context (value state) in
  let context := hmac_update context [single] in
  let context := hmac_update context data in
  let '(_, _, mac) := hmac_final stack context k in
  HmacDrbg (value state) mac (reseed_counter state).

(** V = HMAC ( K, V ) *)
Definition hmac_drbg_update_value (state : hmac_drbg_state) : hmac_drbg_state :=
  let '(context, k) := hmac_init stack stack (key state) in
  let context := hmac_update context (value state) in
  let '(_, k, mac) := hmac_final stack context k in
  HmacDrbg mac k (reseed_counter state).

Definition hmac_drbg_update (state : hmac_drbg_state) (data : bytes) : hmac_drbg_state :=
  let state := hmac_drbg_update_key state data 0x00 in
  let state := hmac_drbg_update_value state in
  if decide (length data = 0%nat) then state
  else
    let state := hmac_drbg_update_key state data 0x01 in
    hmac_drbg_update_value state.

Definition hmac_drbg_reseed (state : hmac_drbg_state) (entropy additional : bytes) : hmac_drbg_state :=
  let seed_material := entropy ++ additional in
  let state := hmac_drbg_update state seed_material in
  HmacDrbg (value state) (key state) 1.

Definition hmac_drbg_instantiate (state : hmac_drbg_state) (entropy personal : bytes) : hmac_drbg_state :=
  let state := HmacDrbg (replicate digestsize 0x01) (replicate digestsize 0x00) (reseed_counter state) in
  hmac_drbg_reseed state entropy personal.

(** The loop that fills the output buffer; an iteration produces at least a
    byte. *)
Fixpoint generate_loop (fuel : nat) (state : hmac_drbg_state) (len : nat) : hmac_drbg_state * bytes :=
  match fuel, len with
  | O, _ | _, O => (state, [])
  | S fuel, _ =>
      let state := hmac_drbg_update_value state in
      let frag_len := Nat.min len digestsize in
      let '(state', data) := generate_loop fuel state (len - frag_len) in
      (state', take frag_len (value state) ++ data)
  end.

Definition hmac_drbg_generate (state : hmac_drbg_state) (additional : bytes) (len : nat)
    : res bytes * hmac_drbg_state :=
  if HMAC_DRBG_RESEED_INTERVAL <? reseed_counter state then (Err ESTALE, state)
  else
    let state := if decide (length additional = 0%nat) then state else hmac_drbg_update state additional in
    let '(state, data) := generate_loop len state len in
    let state := hmac_drbg_update state additional in
    (Ok data, HmacDrbg (value state) (key state) (u32 (reseed_counter state + 1))).

(** ** The standard's algorithms, over the HMAC function *)

(** SP 800-90 section 10.1.2.2: HMAC_DRBG_Update. *)
Definition spec_update (kv : bytes * bytes) (data : bytes) : bytes * bytes :=
  let '(k, v) := kv in
  let k := HMAC k (v ++ 0x00 :: data) in
  let v := HMAC k v in
  match data with
  | [] => (k, v)
  | _ => let k := HMAC k (v ++ 0x01 :: data) in (k, HMAC k v)
  end.

(** The values after each of the first [n] steps of V = HMAC ( Key, V ). *)
Fixpoint spec_values (n : nat) (k v : bytes) : list bytes :=
  match n with O => [] | S n => HMAC k v :: spec_values n k (HMAC k v) end.

(** Section 10.1.2.5: HMAC_DRBG_Generate, on a state that needs no reseed. *)
Definition spec_generate (kv : bytes * bytes) (additional : bytes) (len : nat) : bytes * (bytes * bytes) :=
  let '(k, v) := match additional with [] => kv | _ => spec_update kv additional end in
  let vs := spec_values (df_count len) k v in
  (take len (mjoin vs), spec_update (k, List.last vs v) additional).

Definition kv (state : hmac_drbg_state) : bytes * bytes := (key state, value state).

(** ** Refinement *)

Definition state_ok (state : hmac_drbg_state) : Prop :=
  length (key state) = digestsize ∧ length (value state) = digestsize.

(** An HMAC over the value, the single byte and [n] more bytes is within the
    digest's limit. *)
Definition data_ok (n : Z) : Prop := Z.of_nat (blocksize + digestsize) + 1 + n < hash_limit.

Context (Hstack : ctx_ok stack).

Lemma hmac_run chunks state :
  state_ok state → Z.of_nat blocksize + Zlen (mjoin chunks) < hash_limit → data_ok 0 →
  let '(context, k) := hmac_init stack stack (key state) in
  let '(_, k', mac) := hmac_final stack (foldl hmac_update context chunks) k in
  k = key state ∧ k' = key state ∧ mac = HMAC (key state) (mjoin chunks).
Proof using Hstack.
  intros [Hk _] Hm Hd. unfold data_ok in Hd.
  pose proof (hmac_spec stack stack stack (key state) chunks Hstack Hstack Hstack) as Hs.
  unfold hmac_limit in Hs. pose proof digest_fits. specialize (Hs ltac:(lia) Hm ltac:(lia)).
  assert (hmac_key (key state) = key state) as Hkey by (unfold hmac_key; rewrite decide_False by lia; done).
  destruct (hmac_init stack stack (key state)) as [context k].
  destruct (hmac_final stack _ k) as [[c3 k'] mac]. destruct Hs as (-> & -> & _ & ->). by rewrite Hkey.
Qed.

Lemma update_key_spec state data single :
  state_ok state → data_ok (Zlen data) →
  hmac_drbg_update_key state data single
  = HmacDrbg (value state) (HMAC (key state) (value state ++ single :: data)) (reseed_counter state).
Proof using Hstack.
  intros Hs Hd. pose proof (hmac_run [value state; [single]; data] state Hs) as Hr.
  rewrite !mjoin_cons, mjoin_nil, app_nil_r, !length_app in Hr. cbn [foldl length] in Hr.
  unfold hmac_drbg_update_key, data_ok in *. destruct Hs as [_ Hv].
  specialize (Hr ltac:(lia) ltac:(lia)).
  destruct (hmac_init stack stack (key state)) as [context k].
  destruct (hmac_final stack _ k) as [[? ?] mac]. by destruct Hr as (_ & _ & ->).
Qed.

Lemma update_value_spec state :
  state_ok state → data_ok 0 →
  hmac_drbg_update_value state
  = HmacDrbg (HMAC (key state) (value state)) (key state) (reseed_counter state).
Proof using Hstack.
  intros Hs Hd. pose proof (hmac_run [value state] state Hs) as Hr.
  rewrite !mjoin_cons, mjoin_nil, app_nil_r in Hr. cbn [foldl length] in Hr.
  unfold hmac_drbg_update_value, data_ok in *. destruct Hs as [_ Hv].
  specialize (Hr ltac:(lia) ltac:(lia)).
  destruct (hmac_init stack stack (key state)) as [context k].
  destruct (hmac_final stack _ k) as [[? ?] mac]. by destruct Hr as (_ & -> & ->).
Qed.

Lemma data_ok_mono n m : data_ok n → 0 ≤ m ≤ n → data_ok m.
Proof. unfold data_ok. lia. Qed.

Lemma state_ok_HMAC v k c m m' : state_ok (HmacDrbg (HMAC v m) (HMAC k m') c).
Proof. split; apply length_HMAC. Qed.

Lemma update_spec state data :
  state_ok state → data_ok (Zlen data) →
  let state' := hmac_drbg_update state data in
  kv state' = spec_update (kv state) data ∧ reseed_counter state' = reseed_counter state ∧ state_ok state'.
Proof using Hstack.
  intros Hs Hd. unfold hmac_drbg_update, spec_update, kv. pose proof Hs as [Hk Hv].
  assert (data_ok 0) as Hd0 by (eapply data_ok_mono; [done|lia]).
  rewrite update_key_spec by done.
  assert (∀ m, state_ok (HmacDrbg (value state) (HMAC (key state) m) (reseed_counter state))) as Hs1
    by (split; [apply length_HMAC|done]).
  rewrite update_value_spec by done. cbn [value key reseed_counter].
  destruct data as [|b data]; cbn [length]; [rewrite decide_True by done; cbn; split_and!; auto using state_ok_HMAC|].
  rewrite decide_False by done. rewrite update_key_spec; [|apply state_ok_HMAC|done].
  cbn [value key reseed_counter]. rewrite update_value_spec; [|apply state_ok_HMAC|done].
  cbn. split_and!; auto using state_ok_HMAC.
Qed.

Lemma last_default {A} (l : list A) x d d' : List.last (x :: l) d = List.last (x :: l) d'.
Proof. revert x. induction l as [|y l IH]; intros x; [done|]. apply (IH y). Qed.

Lemma generate_loop_spec fuel state len :
  state_ok state → data_ok 0 → (len ≤ fuel)%nat →
  let vs := spec_values (df_count len) (key state) (value state) in
  generate_loop fuel state len
  = (HmacDrbg (List.last vs (value state)) (key state) (reseed_counter state), take len (mjoin vs)).
Proof using Hstack.
  intros Hs Hd. revert state len Hs. induction fuel as [|fuel IH]; intros state len Hs Hf.
  { assert (len = 0)%nat as -> by lia. rewrite df_count_0. by destruct state. }
  destruct (decide (len = 0%nat)) as [->|Hl]; [rewrite df_count_0; by destruct state|].
  rewrite df_count_S by lia. cbn [generate_loop]. destruct len as [|len']; [done|]. set (len := S len') in *.
  rewrite update_value_spec by done. pose proof digest_pos. rewrite (Nat.min_comm len).
  rewrite IH; [|destruct Hs; split; [done|apply length_HMAC]|unfold len; lia]. cbn [value key reseed_counter].
  set (rest := spec_values (df_count (len - Nat.min digestsize len)) (key state) (HMAC (key state) (value state))).
  cbn [spec_values]. fold rest. f_equal.
  - f_equal. destruct rest as [|x rest']; [done|]. exact (last_default rest' x _ _).
  - rewrite mjoin_cons, (take_app _ _ len), length_HMAC.
    destruct (Nat.min_spec digestsize len) as [[Hlt ->]|[Hle ->]].
    + by rewrite (take_ge (HMAC _ _) digestsize), (take_ge (HMAC _ _) len) by (rewrite length_HMAC; lia).
    + replace (len - digestsize)%nat with 0%nat by lia. by rewrite Nat.sub_diag, !take_0.
Qed.

Lemma reseed_spec state entropy additional :
  state_ok state → data_ok (Zlen entropy + Zlen additional) →
  let state' := hmac_drbg_reseed state entropy additional in
  kv state' = spec_update (kv state) (entropy ++ additional) ∧ reseed_counter state' = 1 ∧ state_ok state'.
Proof using Hstack.
  intros Hs Hd. destruct (update_spec state (entropy ++ additional) Hs) as (Hkv & _ & Hs').
  { rewrite length_app. by rewrite Nat2Z.inj_add. }
  done.
Qed.

Lemma instantiate_spec state entropy personal :
  data_ok (Zlen entropy + Zlen personal) →
  let state' := hmac_drbg_instantiate state entropy personal in
  kv state' = spec_update (replicate digestsize 0x00, replicate digestsize 0x01) (entropy ++ personal) ∧
  reseed_counter state' = 1 ∧ state_ok state'.
Proof using Hstack.
  intros Hd. apply (reseed_spec (HmacDrbg (replicate digestsize 1) (replicate digestsize 0) (reseed_counter state)));
    [|done]. split; apply length_replicate.
Qed.

Lemma last_Forall {A} (P : A → Prop) l d : P d → Forall P l → P (List.last l d).
Proof. intros Hd. induction 1 as [|x l Hx Hl IH]; [done|]. by destruct l. Qed.

Lemma spec_values_length n k v : Forall (λ v, length v = digestsize) (spec_values n k v).
Proof. revert v. induction n; intros; constructor; auto using length_HMAC. Qed.

Lemma generate_spec state additional len :
  state_ok state → data_ok (Zlen additional) → 0 ≤ reseed_counter state ≤ HMAC_DRBG_RESEED_INTERVAL →
  ∃ state', hmac_drbg_generate state additional len
            = (Ok (spec_generate (kv state) additional len).1, state') ∧
    kv state' = (spec_generate (kv state) additional len).2 ∧
    reseed_counter state' = reseed_counter state + 1 ∧ state_ok state'.
Proof using Hstack.
  intros Hs Hd Hc. unfold hmac_drbg_generate. rewrite (proj2 (Z.ltb_ge _ _)) by lia.
  assert (data_ok 0) as Hd0 by (eapply data_ok_mono; [done|lia]).
  unfold HMAC_DRBG_RESEED_INTERVAL in Hc.
  set (state1 := if decide _ then _ else _).
  assert (kv state1 = match additional with [] => kv state | _ => spec_update (kv state) additional end ∧
          reseed_counter state1 = reseed_counter state ∧ state_ok state1) as (Hkv1 & Hc1 & Hs1).
  { unfold state1. destruct additional; [rewrite decide_True by done; done|]. rewrite decide_False by done.
    by apply update_spec. }
  rewrite (generate_loop_spec len state1 len Hs1 Hd0 ltac:(lia)).
  set (vs := spec_values _ _ _). set (state2 := HmacDrbg (List.last vs _) _ _).
  assert (state_ok state2) as Hs2.
  { destruct Hs1 as [? ?]. split; [done|]. apply (last_Forall (λ v, length v = digestsize)); [done|apply spec_values_length]. }
  destruct (update_spec state2 additional Hs2 Hd) as (Hkv3 & Hc3 & Hs3).
  eexists. split; [|split; [|split]].
  - unfold spec_generate. rewrite <- Hkv1. done.
  - unfold spec_generate. rewrite <- Hkv1. exact Hkv3.
  - cbn [reseed_counter]. rewrite Hc3. cbn [reseed_counter state2]. rewrite Hc1, wrap_small; unfold in_range; lia.
  - exact Hs3.
Qed.
End hmac_drbg.

(** ** DRBG *)

Definition DRBG_SECURITY_STRENGTH : Z := 128.
Definition DRBG_MAX_SECURITY_STRENGTH : Z := 256.
Definition DRBG_MIN_ENTROPY_LEN_BYTES : nat := 16.
Definition DRBG_MAX_ENTROPY_LEN_BYTES : nat := 32.
Definition DRBG_MAX_PERSONAL_LEN_BYTES : Z := 0xffffffff.
Definition DRBG_MAX_ADDITIONAL_LEN_BYTES : Z := 0xffffffff.
Definition DRBG_MAX_GENERATED_LEN_BYTES : Z := 0xffff.

Record drbg_state : Type := Drbg {
  internal : hmac_drbg_state;
  reseed_required : bool;
  valid : bool;
}.

(** The entropy input function: the bytes it stored in the buffer, of a length
    between the limits, or an error. *)
Class EntropyInput := {
  entropy : Type;
  get_entropy_input : entropy → Z → nat → nat → res bytes * entropy;
  entropy_input_len e bits min_len max_len data e' :
    (min_len ≤ max_len ≤ 255)%nat → 0 ≤ bits ≤ 8 * Z.of_nat max_len →
    get_entropy_input e bits min_len max_len = (Ok data, e') →
    (min_len ≤ length data ≤ max_len)%nat;
}.

Section drbg.
Context `{Platform, EntropyInput}.
Variable stack : context.
(** HMAC_DRBG_ALGORITHM uses SHA-256. *)
#[local] Existing Instance sha256_algorithm.

Definition drbg_instantiate (state : drbg_state) (es : entropy) (personal : bytes)
    : res unit * drbg_state * entropy :=
  let entropy_bits := (3 * DRBG_SECURITY_STRENGTH + 1) / 2 in
  if DRBG_MAX_SECURITY_STRENGTH <? DRBG_SECURITY_STRENGTH then (Err ENOTSUP, state, es)
  else if DRBG_MAX_PERSONAL_LEN_BYTES <? Zlen personal then (Err ERANGE, state, es)
  else
    let '(r, es) := get_entropy_input es entropy_bits DRBG_MIN_ENTROPY_LEN_BYTES DRBG_MAX_ENTROPY_LEN_BYTES in
    match r with
    | Err rc => (Err rc, state, es)
    | Ok data =>
        let internal := hmac_drbg_instantiate stack (internal state) data personal in
        (Ok tt, Drbg internal false true, es)
    end.

Definition drbg_reseed (state : drbg_state) (es : entropy) (additional : bytes)
    : res unit * drbg_state * entropy :=
  let entropy_bits := DRBG_SECURITY_STRENGTH in
  if negb (valid state) then (Err EINVAL, state, es)
  else if DRBG_MAX_ADDITIONAL_LEN_BYTES <? Zlen additional then (Err ERANGE, state, es)
  else
    let '(r, es) := get_entropy_input es entropy_bits DRBG_MIN_ENTROPY_LEN_BYTES DRBG_MAX_ENTROPY_LEN_BYTES in
    match r with
    | Err rc => (Err rc, state, es)
    | Ok data =>
        let internal := hmac_drbg_reseed stack (internal state) data additional in
        (Ok tt, Drbg internal (reseed_required state) (valid state), es)
    end.

(** Steps 7 to 9, which a failed generation repeats; [None] when out of fuel
    ([step_7_reseed]). *)
Fixpoint drbg_step_7 (fuel : nat) (state : drbg_state) (es : entropy) (additional : bytes)
    (prediction_resist : bool) (len : nat) : option (res bytes * drbg_state * entropy) :=
  match fuel with
  | O => None
  | S fuel =>
      let '(rc, state, es, additional) :=
        if reseed_required state || prediction_resist then
          let '(rc, state, es) := drbg_reseed state es additional in
          match rc with
          | Err rc => (Err rc, state, es, additional)
          | Ok _ => (Ok tt, Drbg (internal state) false (valid state), es, [])
          end
        else (Ok tt, state, es, additional) in
      match rc with
      | Err rc => Some (Err rc, state, es)
      | Ok _ =>
          let '(r, internal) := hmac_drbg_generate stack (internal state) additional len in
          match r with
          | Err _ => drbg_step_7 fuel (Drbg internal true (valid state)) es additional true len
          | Ok data => Some (Ok data, Drbg internal (reseed_required state) (valid state), es)
          end
      end
  end.

Definition drbg_generate (state : drbg_state) (es : entropy) (additional : bytes)
    (prediction_resist : bool) (len : nat) : option (res bytes * drbg_state * entropy) :=
  if negb (valid state) then Some (Err EINVAL, state, es)
  else if DRBG_MAX_GENERATED_LEN_BYTES <? Z.of_nat len then Some (Err ERANGE, state, es)
  else if DRBG_MAX_ADDITIONAL_LEN_BYTES <? Zlen additional then Some (Err ERANGE, state, es)
  else
    let state := Drbg (internal state) false (valid state) in
    drbg_step_7 2 state es additional prediction_resist len.

(** memset to zero. *)
Definition drbg_uninstantiate (state : drbg_state) : drbg_state :=
  Drbg (HmacDrbg (replicate (length (value (internal state))) 0) (replicate (length (key (internal state))) 0) 0)
    false false.

(** ** Properties *)

(** The state of an instantiated generator. *)
Definition drbg_ok (state : drbg_state) : Prop :=
  valid state = true ∧ state_ok (internal state) ∧ 1 ≤ reseed_counter (internal state).

(** Input that an HMAC can take behind a block, a value and 32 bytes of entropy: on a
    32-bit machine all but the last bytes of the address space. *)
Definition input_fits (len : Z) : Prop := len + 160 < message_limit.

Context (Hstack : length (Digest.data stack) = 64%nat).

Lemma input_fits_data_ok n len : input_fits len → n ≤ len + 32 → data_ok (H := sha256_algorithm) n.
Proof.
  unfold input_fits, data_ok. change hash_limit with message_limit. cbn [blocksize digestsize sha256_algorithm]. lia.
Qed.

Lemma reseed_drbg state es additional :
  drbg_ok state → input_fits (Zlen additional) → Zlen additional ≤ DRBG_MAX_ADDITIONAL_LEN_BYTES →
  match drbg_reseed state es additional with
  | (Ok _, state', es') =>
      ∃ data, get_entropy_input es DRBG_SECURITY_STRENGTH 16 32 = (Ok data, es') ∧
        (16 ≤ length data ≤ 32)%nat ∧
        kv (internal state') = spec_update (kv (internal state)) (data ++ additional) ∧
        reseed_counter (internal state') = 1 ∧ drbg_ok state' ∧ reseed_required state' = reseed_required state
  | (Err rc, state', es') =>
      get_entropy_input es DRBG_SECURITY_STRENGTH 16 32 = (Err rc, es') ∧ state' = state
  end.
Proof using Hstack.
  intros (Hv & Hs & Hc) Hl Hm. unfold drbg_reseed. rewrite Hv. cbn [negb].
  rewrite (proj2 (Z.ltb_ge _ _)) by lia.
  change DRBG_MIN_ENTROPY_LEN_BYTES with 16%nat. change DRBG_MAX_ENTROPY_LEN_BYTES with 32%nat.
  pose proof (entropy_input_len es DRBG_SECURITY_STRENGTH 16 32) as Hlen.
  destruct (get_entropy_input es DRBG_SECURITY_STRENGTH 16 32) as [[data|rc] es']; [|done].
  specialize (Hlen data es' ltac:(lia) ltac:(unfold DRBG_SECURITY_STRENGTH; lia) eq_refl).
  destruct (reseed_spec (H := sha256_algorithm) stack Hstack (internal state) data additional Hs) as (Hkv & Hc' & Hs').
  { eapply input_fits_data_ok; [done|lia]. }
  exists data. cbn [internal reseed_required]. split_and!; auto; [lia..|]. split; [done|]. split; [done|].
  cbn [internal]. lia.
Qed.

Lemma generate_drbg state additional len :
  drbg_ok state → input_fits (Zlen additional) →
  reseed_counter (internal state) ≤ HMAC_DRBG_RESEED_INTERVAL →
  ∃ internal', hmac_drbg_generate stack (internal state) additional len
               = (Ok (spec_generate (kv (internal state)) additional len).1, internal') ∧
    kv internal' = (spec_generate (kv (internal state)) additional len).2 ∧
    reseed_counter internal' = reseed_counter (internal state) + 1 ∧ state_ok internal'.
Proof using Hstack.
  intros (Hv & Hs & Hc) Hl Hi. apply (generate_spec (H := sha256_algorithm) stack Hstack); [done| |lia].
  eapply input_fits_data_ok; [done|lia].
Qed.

(** Step 7 when a reseed is due. *)
Lemma step_7_reseed fuel state es additional prediction_resist len :
  drbg_ok state → input_fits (Zlen additional) → Zlen additional ≤ DRBG_MAX_ADDITIONAL_LEN_BYTES →
  reseed_required state || prediction_resist = true →
  ∃ r state' es', drbg_step_7 (S fuel) state es additional prediction_resist len = Some (r, state', es') ∧
    drbg_ok state' ∧
    match get_entropy_input es DRBG_SECURITY_STRENGTH 16 32 with
    | (Err rc, es1) => r = Err rc ∧ es' = es1 ∧ kv (internal state') = kv (internal state)
    | (Ok data, es1) =>
        let kv1 := spec_update (kv (internal state)) (data ++ additional) in
        (16 ≤ length data ≤ 32)%nat ∧ es' = es1 ∧ r = Ok (spec_generate kv1 [] len).1 ∧
        kv (internal state') = (spec_generate kv1 [] len).2 ∧ reseed_counter (internal state') = 2
    end.
Proof using Hstack.
  intros Hok Hl Hm Hreq. cbn [drbg_step_7]. rewrite Hreq.
  pose proof (reseed_drbg state es additional Hok Hl Hm) as Hr.
  destruct (drbg_reseed state es additional) as [[[u|rc] state1] es1].
  - destruct Hr as (data & -> & Hd & Hkv & Hc & Hok1 & _).
    set (state2 := Drbg (internal state1) false (valid state1)).
    assert (drbg_ok state2) as Hok2 by (destruct Hok1 as (? & ? & ?); done).
    destruct (generate_drbg state2 [] len Hok2 ltac:(unfold input_fits in *; cbn; lia) ltac:(cbn; rewrite Hc; done))
      as (internal' & Hg & Hkv' & Hc' & Hs').
    cbn [internal state2] in *. rewrite Hg. eexists _, _, _. split; [done|].
    cbn [internal]. rewrite Hkv' , <- Hkv, Hc', Hc. split; [|done].
    destruct Hok1 as (? & ? & ?). split_and!; auto. cbn. rewrite Hc', Hc. lia.
  - destruct Hr as [-> ->]. eexists _, _, _. by split.
Qed.

(** C11: a generate request terminates, whatever the state.  A generator that is not
    instantiated refuses with EINVAL, and a request for more than 65535 bytes or with
    more than 2^32 - 1 bytes of additional input is refused with ERANGE; nothing
    changes then.  Otherwise, unless prediction resistance is asked for or the reseed
    interval is over, it gives the standard's output for the current state and the
    additional input.  If one of the two is the case, it first takes fresh entropy and
    reseeds with it and the additional input, and gives the standard's output for that
    state; if there is no entropy it fails and gives no output.  The generator stays
    instantiated. *)
Theorem drbg_generate_correct state es additional prediction_resist len :
  (valid state = true → drbg_ok state) → input_fits (Zlen additional) →
  ∃ r state' es', drbg_generate state es additional prediction_resist len = Some (r, state', es') ∧
    if negb (valid state) then r = Err EINVAL ∧ state' = state ∧ es' = es
    else if (DRBG_MAX_GENERATED_LEN_BYTES <? Z.of_nat len) || (DRBG_MAX_ADDITIONAL_LEN_BYTES <? Zlen additional)
    then r = Err ERANGE ∧ state' = state ∧ es' = es
    else drbg_ok state' ∧
    if prediction_resist || (HMAC_DRBG_RESEED_INTERVAL <? reseed_counter (internal state))
    then match get_entropy_input es DRBG_SECURITY_STRENGTH 16 32 with
         | (Err rc, es1) => r = Err rc ∧ es' = es1 ∧ kv (internal state') = kv (internal state)
         | (Ok data, es1) =>
             let kv1 := spec_update (kv (internal state)) (data ++ additional) in
             (16 ≤ length data ≤ 32)%nat ∧ es' = es1 ∧ r = Ok (spec_generate kv1 [] len).1 ∧
             kv (internal state') = (spec_generate kv1 [] len).2 ∧ reseed_counter (internal state') = 2
         end
    else es' = es ∧ r = Ok (spec_generate (kv (internal state)) additional len).1 ∧
         kv (internal state') = (spec_generate (kv (internal state)) additional len).2 ∧
         reseed_counter (internal state') = reseed_counter (internal state) + 1.
Proof using Hstack.
  intros Hok Hl. unfold drbg_generate. destruct (valid state) eqn:Hv; cbn [negb]; [|by eauto 7].
  specialize (Hok eq_refl). pose proof Hok as (_ & Hs & Hc).
  destruct (Z.ltb_spec DRBG_MAX_GENERATED_LEN_BYTES (Z.of_nat len)); cbn [orb]; [by eauto 7|].
  destruct (Z.ltb_spec DRBG_MAX_ADDITIONAL_LEN_BYTES (Zlen additional)); [by eauto 7|].
  set (state1 := Drbg (internal state) false true).
  assert (drbg_ok state1) as Hok1 by done.
  destruct prediction_resist; cbn [orb].
  - by apply (step_7_reseed 1 state1).
  - destruct (Z.ltb_spec HMAC_DRBG_RESEED_INTERVAL (reseed_counter (internal state))) as [Hi|Hi].
    + cbn [drbg_step_7 reseed_required state1 orb]. unfold hmac_drbg_generate.
      cbn [internal state1]. rewrite (proj2 (Z.ltb_lt _ _) Hi). cbv iota beta zeta.
      exact (step_7_reseed 0 (Drbg (internal state) true true) es additional true len Hok1 Hl ltac:(done) eq_refl).
    + destruct (generate_drbg state1 additional len Hok1 Hl Hi) as (internal' & Hg & Hkv & Hc' & Hs').
      cbn [drbg_step_7 reseed_required state1 orb]. rewrite Hg. eexists _, _, _. split; [done|].
      split; [split_and!; cbn; auto; cbn in *; lia|]. done.
Qed.

(** instantiating takes 192 bits' worth of entropy and, whatever the state
    was before, leaves a generator seeded by the standard from that entropy and
    the personalisation string; without entropy, or with an overlong string, it
    fails and the state is unchanged.  An uninstantiated generator refuses to
    reseed or generate. *)
Lemma drbg_instantiate_correct state es personal len :
  match drbg_instantiate state es personal with
  | (Ok _, state', es') =>
      ∃ data, get_entropy_input es 192 16 32 = (Ok data, es') ∧
        (Zlen personal < 2 ^ 31 →
         drbg_ok state' ∧ reseed_counter (internal state') = 1 ∧
         kv (internal state') = spec_update (replicate 32 0x00, replicate 32 0x01) (data ++ personal))
  | (Err rc, state', es') =>
      state' = state ∧
      (get_entropy_input es 192 16 32 = (Err rc, es') ∨
       es' = es ∧ rc = ERANGE ∧ DRBG_MAX_PERSONAL_LEN_BYTES < Zlen personal)
  end ∧
  (let state' := drbg_uninstantiate state in
   drbg_reseed state' es personal = (Err EINVAL, state', es) ∧
   drbg_generate state' es personal true len = Some (Err EINVAL, state', es)).
Proof using Hstack.
  split; [|done]. unfold drbg_instantiate. change (DRBG_MAX_SECURITY_STRENGTH <? DRBG_SECURITY_STRENGTH) with false.
  cbv iota zeta. destruct (Z.ltb_spec DRBG_MAX_PERSONAL_LEN_BYTES (Zlen personal)) as [Hp|Hp]; [by auto 6|].
  change ((3 * DRBG_SECURITY_STRENGTH + 1) / 2) with 192.
  change DRBG_MIN_ENTROPY_LEN_BYTES with 16%nat. change DRBG_MAX_ENTROPY_LEN_BYTES with 32%nat.
  pose proof (entropy_input_len es 192 16 32) as Hlen.
  destruct (get_entropy_input es 192 16 32) as [[data|rc] es']; [|by auto].
  specialize (Hlen data es' ltac:(lia) ltac:(lia) eq_refl). exists data. split; [done|]. intros Hl.
  destruct (instantiate_spec (H := sha256_algorithm) stack Hstack (internal state) data personal) as (Hkv & Hc & Hs).
  { unfold data_ok. change hash_limit with message_limit. unfold message_limit. cbn [blocksize digestsize sha256_algorithm].
    destruct size_bits_cases as [[_ ->]|[_ ->]]; lia. }
  split; [|done]. split_and!; [done..|]. cbn [internal]. lia.
Qed.

End drbg.

(** An entropy source that always gives the same bytes. *)
#[export, refine] Instance constant_entropy : EntropyInput := {|
  entropy := Z;
  get_entropy_input e bits min_len max_len := (Ok (replicate max_len e), e);
|}.
Proof. intros e bits min_len max_len data e' Hm Hb [= <- _]. rewrite length_replicate. lia. Defined.

Definition example_drbg : drbg_state := Drbg (HmacDrbg (replicate 32 1) (replicate 32 0) 1025) false true.

(** A reseed is due. *)
Lemma drbg_generate_correct_witness :
  let stack := Context [] (replicate 64 0) 0 in
  ∃ r state', drbg_generate (H := i386) stack example_drbg 7 [] false 8 = Some (r, state', 7) ∧
              reseed_counter (internal state') = 2.
Proof.
  intros stack. destruct (drbg_generate_correct (H := i386) (H0 := constant_entropy) stack eq_refl example_drbg 7 [] false 8)
    as (r & state' & es' & Hg & Hr); [intros _; by_decide|by vm_compute|].
  change (negb (valid example_drbg)) with false in Hr. change (_ || (DRBG_MAX_ADDITIONAL_LEN_BYTES <? _)) with false in Hr.
  change (false || _) with true in Hr. cbv beta iota zeta delta [get_entropy_input constant_entropy] in Hr.
  destruct Hr as (_ & _ & He & _ & _ & Hc). rewrite He in Hg. exists r, state'. split; [exact Hg|exact Hc].
Defined.

