(* ===== verification/Entropy.v ===== *)
(** * The entropy source (src/crypto/entropy.c, src/include/ipxe/entropy.h)

    Noise samples pass two continuous health tests and are condensed into
    entropy input by Hash_df.  The noise source is an interface, as are its
    enabling and its estimated min-entropy per sample, a positive rational; the
    code's static variables are the record [tests].  The cutoffs the code computes
    at build time in floating point are computed exactly. *)

From S2P Require Import Prelude Digest Hmac Drbg.

(** ** The noise source *)

Class NoiseSource := {
  noise : Type;
  get_noise : noise → res Z * noise;
  entropy_enable : noise → res unit * noise;
  entropy_disable : noise → noise;
  (** min_entropy_per_sample() is [h_num / h_den]. *)
  h_num : Z;
  h_den : Z;
  h_pos : 0 < h_den ≤ h_num;
}.

(** ** Static state *)

Record tests : Type := Tests {
  (* repetition_count_test *)
  most_recent_sample : Z;
  repetition_count : Z;
  (* adaptive_proportion_test *)
  current_counted_sample : Z;
  sample_count : Z;
  proportion_count : Z;
  (* get_entropy *)
  failure : option errno;
  (* make_next_nonce *)
  nonce : Z;
  (* get_entropy_input_tmp *)
  startup_tested : Z;
}.

Definition ADAPTIVE_PROPORTION_WINDOW_SIZE : Z := 64.

Definition initial_tests : tests := Tests 0 0 0 ADAPTIVE_PROPORTION_WINDOW_SIZE 0 None 0 0.

(** ** Cutoffs *)

Definition APC_NA : Z := 0.

(** A row of the cutoff table, for windows of 16, 64, 256, 4096 and 65536. *)
Definition apc_table_row (h : Z) : Z * Z * Z * Z * Z :=
  match h with
  | 1 => (APC_NA, 51, 168, 2240, 33537)
  | 2 => (APC_NA, 35, 100, 1193, 17053)
  | 3 => (10, 24, 61, 643, 8705)
  | 4 => (8, 16, 38, 354, 4473)
  | 5 => (6, 12, 25, 200, 2321)
  | 6 => (5, 9, 17, 117, 1220)
  | 7 => (4, 7, 15, 71, 653)
  | 8 => (4, 5, 9, 45, 358)
  | 9 => (3, 4, 7, 30, 202)
  | 10 => (3, 4, 5, 21, 118)
  | 11 => (2, 3, 4, 15, 71)
  | 12 => (2, 3, 4, 11, 45)
  | 13 => (2, 2, 3, 9, 30)
  | 14 => (2, 2, 3, 7, 21)
  | 15 => (1, 2, 2, 6, 15)
  | 16 => (1, 2, 2, 5, 11)
  | 17 => (1, 1, 2, 4, 9)
  | 18 => (1, 1, 2, 4, 7)
  | 19 => (1, 1, 1, 3, 6)
  | 20 => (1, 1, 1, 3, 5)
  | _ => (APC_NA, APC_NA, APC_NA, APC_NA, APC_NA)
  end.

Definition adaptive_proportion_cutoff_lookup (n h : Z) : Z :=
  let '(c16, c64, c256, c4096, c65536) := apc_table_row h in
  if n =? 16 then c16 else if n =? 64 then c64 else if n =? 256 then c256
  else if n =? 4096 then c4096 else if n =? 65536 then c65536 else APC_NA.

Section entropy.
Context `{NoiseSource}.

(** C = 1 + 30 / H, rounded up. *)
Definition repetition_count_cutoff : Z :=
  let cutoff := (h_num + 30 * h_den) / h_num in
  if cutoff * h_num <? h_num + 30 * h_den then cutoff + 1 else cutoff.

Definition adaptive_proportion_cutoff : Z :=
  adaptive_proportion_cutoff_lookup ADAPTIVE_PROPORTION_WINDOW_SIZE (h_num / h_den).

Definition startup_test_count : Z :=
  if repetition_count_cutoff <? adaptive_proportion_cutoff
  then adaptive_proportion_cutoff else repetition_count_cutoff.

(** ** Tests *)

Definition repetition_count_test (t : tests) (sample : Z) : res unit * tests :=
  if (sample =? most_recent_sample t) && (0 <? repetition_count t) then
    let t := Tests (most_recent_sample t) (u32 (repetition_count t + 1)) (current_counted_sample t)
               (sample_count t) (proportion_count t) (failure t) (nonce t) (startup_tested t) in
    if repetition_count_cutoff <=? repetition_count t then (Err EPIPE_REPETITION_COUNT_TEST, t) else (Ok tt, t)
  else
    (Ok tt, Tests sample 1 (current_counted_sample t) (sample_count t) (proportion_count t) (failure t)
              (nonce t) (startup_tested t)).

Definition adaptive_proportion_test (t : tests) (sample : Z) : res unit * tests :=
  if sample_count t =? ADAPTIVE_PROPORTION_WINDOW_SIZE then
    (Ok tt, Tests (most_recent_sample t) (repetition_count t) sample 0 0 (failure t) (nonce t) (startup_tested t))
  else
    let t := Tests (most_recent_sample t) (repetition_count t) (current_counted_sample t)
               (u32 (sample_count t + 1)) (proportion_count t) (failure t) (nonce t) (startup_tested t) in
    if sample =? current_counted_sample t then
      let t := Tests (most_recent_sample t) (repetition_count t) (current_counted_sample t)
                 (sample_count t) (u32 (proportion_count t + 1)) (failure t) (nonce t) (startup_tested t) in
      if adaptive_proportion_cutoff <? proportion_count t then (Err EPIPE_ADAPTIVE_PROPORTION_TEST, t)
      else (Ok tt, t)
    else (Ok tt, t).

(** The static rc. *)
Definition set_failure (t : tests) (e : errno) : tests :=
  Tests (most_recent_sample t) (repetition_count t) (current_counted_sample t) (sample_count t)
    (proportion_count t) (Some e) (nonce t) (startup_tested t).

Definition get_entropy (t : tests) (n : noise) : res Z * tests * noise :=
  match failure t with
  | Some rc => (Err rc, t, n)
  | None =>
      let '(r, n) := get_noise n in
      match r with
      | Err rc => (Err rc, set_failure t rc, n)
      | Ok sample =>
          let '(r, t) := repetition_count_test t sample in
          match r with
          | Err rc => (Err rc, set_failure t rc, n)
          | Ok _ =>
              let '(r, t) := adaptive_proportion_test t sample in
              match r with
              | Err rc => (Err rc, set_failure t rc, n)
              | Ok _ => (Ok sample, t, n)
              end
          end
      end
  end.

Definition make_next_nonce (t : tests) : Z * tests :=
  let t := Tests (most_recent_sample t) (repetition_count t) (current_counted_sample t) (sample_count t)
             (proportion_count t) (failure t) (u32 (nonce t + 1)) (startup_tested t) in
  (nonce t, t).

(** ** Entropy input *)

(** The startup tests still to be done. *)
Fixpoint startup_loop (count : nat) (t : tests) (n : noise) : res unit * tests * noise :=
  match count with
  | O => (Ok tt, t, n)
  | S count =>
      let '(r, t, n) := get_entropy t n in
      match r with
      | Err rc => (Err rc, t, n)
      | Ok _ =>
          startup_loop count
            (Tests (most_recent_sample t) (repetition_count t) (current_counted_sample t) (sample_count t)
               (proportion_count t) (failure t) (nonce t) (startup_tested t + 1)) n
      end
  end.

Context `{Platform}.
Variable stack : context.
(** entropy_hash_df_algorithm is SHA-256. *)
#[local] Existing Instance sha256_algorithm.

Fixpoint sample_loop (num_samples : nat) (t : tests) (n : noise) (tmp : bytes) : res bytes * tests * noise :=
  match num_samples with
  | O => (Ok tmp, t, n)
  | S num_samples =>
      let '(r, t, n) := get_entropy t n in
      match r with
      | Err rc => (Err rc, t, n)
      | Ok sample =>
          let '(nonce, t) := make_next_nonce t in
          let df_buf := hash_df stack (le_split 4 nonce ++ [sample]) (length tmp) in
          sample_loop num_samples t n (zip_with Z.lxor tmp df_buf)
      end
  end.

Definition get_entropy_input_tmp (num_samples tmp_len : nat) (t : tests) (n : noise) : res bytes * tests * noise :=
  let '(r, n) := entropy_enable n in
  match r with
  | Err rc => (Err rc, t, n)
  | Ok _ =>
      let '(r, t, n) := startup_loop (Z.to_nat (startup_test_count - startup_tested t)) t n in
      match r with
      | Err rc => (Err rc, t, entropy_disable n)
      | Ok _ =>
          let '(r, t, n) := sample_loop num_samples t n (replicate tmp_len 0) in
          (r, t, entropy_disable n)
      end
  end.

(** Number of samples that hold some bits of entropy: bits / H, rounded up. *)
Definition samples_needed (bits : Z) : Z :=
  let num_samples := bits * h_den / h_num in
  if num_samples * h_num <? bits * h_den then num_samples + 1 else num_samples.

Definition get_entropy_input (bits : Z) (min_len max_len : nat) (t : tests) (n : noise) : res bytes * tests * noise :=
  let tmp_len := Z.to_nat ((bits * 2 + 7) / 8) in
  let bits := Z.land (bits + 7) (Z.lnot 7) in
  let num_samples := samples_needed bits in
  let '(r, t, n) := get_entropy_input_tmp (Z.to_nat num_samples) tmp_len t n in
  match r with
  | Err rc => (Err rc, t, n)
  | Ok tmp =>
      let data :=
        if decide (tmp_len < min_len)%nat then tmp ++ replicate (min_len - tmp_len) 0
        else if decide (max_len < tmp_len)%nat then hash_df stack tmp max_len
        else tmp in
      (Ok data, t, n)
  end.

(** ** The health tests *)

Lemma cutoff_spec : 2 ≤ repetition_count_cutoff ≤ 31 ∧
  h_num + 30 * h_den ≤ repetition_count_cutoff * h_num < h_num + 30 * h_den + h_num.
Proof.
  pose proof h_pos as [Hd Hn]. unfold repetition_count_cutoff. generalize dependent h_num. intros n Hn.
  generalize dependent h_den. intros d Hd Hn. assert (0 < n) as Hpos by lia.
  pose proof (Z.div_mod (n + 30 * d) n ltac:(lia)) as Hdm.
  pose proof (Z.mod_pos_bound (n + 30 * d) n Hpos).
  set (q := (n + 30 * d) / n) in *.
  destruct (Z.ltb_spec (q * n) (n + 30 * d)); split; nia.
Qed.

Lemma proportion_cutoff_range : 0 ≤ adaptive_proportion_cutoff ≤ 51.
Proof.
  unfold adaptive_proportion_cutoff, adaptive_proportion_cutoff_lookup.
  generalize (h_num / h_den) as h. intros h. unfold apc_table_row, APC_NA, ADAPTIVE_PROPORTION_WINDOW_SIZE.
  change (64 =? 16) with false. change (64 =? 64) with true. repeat case_match; simplify_eq; lia.
Qed.

(** Both tests, in the order get_entropy performs them. *)
Definition health (t : tests) (sample : Z) : res unit * tests :=
  let '(r, t) := repetition_count_test t sample in
  match r with Err rc => (Err rc, t) | Ok _ => adaptive_proportion_test t sample end.

(** What happens to the static variables: samples are accepted, nonces made and
    start-up tests counted. *)
Definition startup_tested_next (t : tests) : tests :=
  Tests (most_recent_sample t) (repetition_count t) (current_counted_sample t) (sample_count t)
    (proportion_count t) (failure t) (nonce t) (startup_tested t + 1).

(** The static variables after the samples accepted since the start. *)
Inductive accepted : list Z → tests → Prop :=
| accepted_start : accepted [] initial_tests
| accepted_sample l t n x t' n' : accepted l t → get_entropy t n = (Ok x, t', n') → accepted (l ++ [x]) t'
| accepted_nonce l t : accepted l t → accepted l (make_next_nonce t).2
| accepted_startup l t : accepted l t → accepted l (startup_tested_next t).

(** What the counters say about the samples seen so far. *)
Definition rep_inv (t : tests) (l : list Z) : Prop :=
  (l = [] ∧ repetition_count t = 0) ∨
  ∃ pre c, l = pre ++ replicate (S c) (most_recent_sample t) ∧ last pre ≠ Some (most_recent_sample t) ∧
           repetition_count t = Z.of_nat (S c) ∧ repetition_count t < repetition_count_cutoff.

Definition count_in (x : Z) (l : list Z) : Z := Zlen (filter (λ y, y = x) l).

Definition prop_inv (t : tests) (l : list Z) : Prop :=
  (l = [] ∧ sample_count t = ADAPTIVE_PROPORTION_WINDOW_SIZE) ∨
  ∃ w ws, l = w ++ current_counted_sample t :: ws ∧ Zlen w mod 65 = 0 ∧ Zlen ws ≤ 64 ∧
          sample_count t = Zlen ws ∧ proportion_count t = count_in (current_counted_sample t) ws ∧
          proportion_count t ≤ adaptive_proportion_cutoff.

(** The samples of the current window. *)
Definition window (l : list Z) : list Z := drop (length l / 65 * 65) l.

Lemma replicate_suffix (n : nat) (x : Z) (pre l : list Z) :
  l ++ [x] = pre ++ replicate (S n) x ↔ l = pre ++ replicate n x.
Proof.
  rewrite replicate_S_end, app_assoc. split; [|by intros ->]. intros [? _]%app_inj_tail. done.
Qed.

(** A maximal run is the only one of its length or more that ends a list. *)
Lemma maximal_run (pre pre' : list Z) (x y : Z) (c n : nat) :
  last pre ≠ Some x → pre ++ replicate (S c) x = pre' ++ replicate n y → (0 < n)%nat → y = x ∧ (n ≤ S c)%nat.
Proof.
  intros Hlast Heq Hn. destruct n as [|n]; [lia|].
  assert (x = y) as <-.
  { assert (last (pre ++ replicate (S c) x) = last (pre' ++ replicate (S n) y)) as Hl by (by rewrite Heq).
    rewrite !replicate_S_end, !app_assoc, !last_snoc in Hl. by injection Hl. }
  split; [done|]. destruct (decide (S n ≤ S c)%nat); [done|]. exfalso. apply Hlast.
  replace (S n) with ((n - S c) + 1 + S c)%nat in Heq by lia.
  rewrite replicate_add, app_assoc in Heq. apply app_inj_2 in Heq as [-> _]; [|done].
  rewrite replicate_add, app_assoc. cbn. by rewrite last_snoc.
Qed.

Lemma repetition_spec t l x :
  rep_inv t l →
  match repetition_count_test t x with
  | (Ok _, t') =>
      rep_inv t' (l ++ [x]) ∧ (¬ ∃ pre, l ++ [x] = pre ++ replicate (Z.to_nat repetition_count_cutoff) x) ∧
      current_counted_sample t' = current_counted_sample t ∧ sample_count t' = sample_count t ∧
      proportion_count t' = proportion_count t
  | (Err e, _) =>
      e = EPIPE_REPETITION_COUNT_TEST ∧ ∃ pre, l ++ [x] = pre ++ replicate (Z.to_nat repetition_count_cutoff) x
  end.
Proof.
  intros Hinv. pose proof cutoff_spec as [Hc _]. unfold repetition_count_test.
  destruct (Z.to_nat repetition_count_cutoff) as [|[|c2]] eqn:HC; [lia..|].
  destruct Hinv as [[-> Hz]|(pre & c & -> & Hlast & Hcount & Hlt)].
  - rewrite Hz, andb_false_r. split_and!; auto.
    + right. exists [], 0%nat. cbn [repetition_count most_recent_sample]. split_and!; auto; lia.
    + intros [pre Hpre]. apply (f_equal length) in Hpre. rewrite !length_app, length_replicate in Hpre. cbn in Hpre. lia.
  - rewrite (proj2 (Z.ltb_lt 0 _)), andb_true_r by lia. destruct (Z.eqb_spec x (most_recent_sample t)) as [->|Hne].
    + rewrite wrap_small by (unfold in_range; lia). cbn [repetition_count].
      destruct (Z.leb_spec repetition_count_cutoff (repetition_count t + 1)) as [Hge|Hge].
      * split; [done|]. exists pre. apply (proj2 (replicate_suffix _ _ _ _)). f_equal. f_equal. lia.
      * split_and!; auto.
        -- right. exists pre, (S c). cbn [most_recent_sample repetition_count]. split_and!; auto; [|lia..].
           by apply (proj2 (replicate_suffix _ _ _ _)).
        -- intros [pre' Hpre']. apply (proj1 (replicate_suffix _ _ _ _)) in Hpre'.
           apply maximal_run in Hpre'; [|done|lia]. lia.
    + split_and!; auto.
      * right. exists (pre ++ replicate (S c) (most_recent_sample t)), 0%nat. cbn [most_recent_sample repetition_count].
        split_and!; auto; [|lia]. rewrite replicate_S_end, app_assoc, last_snoc. intros [= Hx]. by apply Hne.
      * intros [pre' Hpre']. apply (proj1 (replicate_suffix _ _ _ _)) in Hpre'. apply maximal_run in Hpre'; [|done|lia]. naive_solver.
Qed.

(** Too many samples of the window equal its first one. *)
Definition over (l : list Z) (x : Z) : Prop :=
  ∃ ws, window l = x :: ws ∧ adaptive_proportion_cutoff < count_in x (ws ++ [x]).

Lemma window_spec w r :
  Zlen w mod 65 = 0 → (length r < 65)%nat → window (w ++ r) = r.
Proof.
  intros Hw Hr. unfold window. rewrite length_app.
  assert (length w mod 65 = 0)%nat as Hw' by (apply Nat2Z.inj; rewrite Nat2Z.inj_mod; done).
  pose proof (Nat.div_mod (length w) 65 ltac:(lia)) as Hdm. rewrite Hw' in Hdm.
  assert ((length w + length r) / 65 = length w / 65)%nat as ->.
  { symmetry. apply (Nat.div_unique _ 65 _ (length r)); lia. }
  replace (length w / 65 * 65)%nat with (length w) by lia. by rewrite drop_app_length.
Qed.

Lemma count_in_snoc x l y : count_in x (l ++ [y]) = count_in x l + (if decide (y = x) then 1 else 0).
Proof.
  unfold count_in. rewrite filter_app, length_app, filter_cons, filter_nil. case_decide; cbn [length]; lia.
Qed.

Lemma proportion_spec t l x :
  prop_inv t l →
  match adaptive_proportion_test t x with
  | (Ok _, t') =>
      prop_inv t' (l ++ [x]) ∧ ¬ over l x ∧
      most_recent_sample t' = most_recent_sample t ∧ repetition_count t' = repetition_count t
  | (Err e, _) => e = EPIPE_ADAPTIVE_PROPORTION_TEST ∧ over l x
  end.
Proof.
  intros Hinv. pose proof proportion_cutoff_range as Hcut. unfold adaptive_proportion_test, ADAPTIVE_PROPORTION_WINDOW_SIZE.
  assert (∀ w, Zlen w mod 65 = 0 → prop_inv (Tests (most_recent_sample t) (repetition_count t) x 0 0 (failure t)
            (nonce t) (startup_tested t)) (w ++ [x])) as Hnew.
  { intros w Hw. right. exists w, []. split_and!; cbn; auto; lia. }
  destruct Hinv as [[-> Hsc]|(w & ws & -> & Hw & Hws & Hsc & Hpc & Hle)].
  - rewrite Hsc. change (ADAPTIVE_PROPORTION_WINDOW_SIZE =? 64) with true. cbv iota.
    split; [by apply (Hnew [])|]. split; [by intros (? & ? & _)|done].
  - rewrite Hsc. set (a := current_counted_sample t) in *. destruct (Z.eqb_spec (Zlen ws) 64) as [H64|H64].
    + assert (Zlen (w ++ a :: ws) mod 65 = 0) as Hl.
      { rewrite length_app. cbn [length]. replace (Z.of_nat (length w + S (length ws))) with (Zlen w + 1 * 65) by lia.
        by rewrite Z.mod_add. }
      split; [by apply Hnew|]. split; [|done]. intros (ws' & Hwin & _).
      pose proof (window_spec (w ++ a :: ws) [] Hl ltac:(cbn; lia)) as Hn. rewrite app_nil_r in Hn. congruence.
    + rewrite (wrap_small 32 (Zlen ws + 1)) by (unfold in_range; lia). cbn [current_counted_sample proportion_count].
      fold a. pose proof (window_spec w (a :: ws) Hw ltac:(cbn; lia)) as Hwin.
      assert (count_in a (ws ++ [x]) = proportion_count t + (if decide (x = a) then 1 else 0)) as Hci
        by (by rewrite count_in_snoc, Hpc).
      assert ((w ++ a :: ws) ++ [x] = w ++ a :: ws ++ [x]) as Happ by (by rewrite <- app_assoc).
      assert (Zlen (ws ++ [x]) = Zlen ws + 1) as Hlen by (rewrite length_app; cbn; lia).
      destruct (Z.eqb_spec x a) as [->|Hne].
      * assert (0 ≤ proportion_count t) by (rewrite Hpc; unfold count_in; lia).
        rewrite decide_True in Hci by done. rewrite wrap_small by (unfold in_range; lia). cbn [proportion_count].
        destruct (Z.ltb_spec adaptive_proportion_cutoff (proportion_count t + 1)).
        -- split; [done|]. exists ws. split; [done|]. lia.
        -- split_and!; auto.
           ++ right. exists w, (ws ++ [a]). cbn. fold a. split_and!; auto; lia.
           ++ intros (ws' & Hw' & Hov). rewrite Hwin in Hw'. injection Hw' as <-. lia.
      * rewrite decide_False in Hci by done. split_and!; auto.
        -- right. exists w, (ws ++ [x]). cbn. fold a. split_and!; auto; lia.
        -- intros (ws' & Hw' & Hov). rewrite Hwin in Hw'. naive_solver.
Qed.

Lemma health_inv t l x :
  rep_inv t l → prop_inv t l →
  match health t x with
  | (Ok _, t') =>
      rep_inv t' (l ++ [x]) ∧ prop_inv t' (l ++ [x]) ∧
      (¬ ∃ pre, l ++ [x] = pre ++ replicate (Z.to_nat repetition_count_cutoff) x) ∧ ¬ over l x
  | (Err e, _) =>
      (e = EPIPE_REPETITION_COUNT_TEST ∧
       ∃ pre, l ++ [x] = pre ++ replicate (Z.to_nat repetition_count_cutoff) x) ∨
      (e = EPIPE_ADAPTIVE_PROPORTION_TEST ∧ over l x)
  end.
Proof.
  intros Hr Hp. unfold health. pose proof (repetition_spec t l x Hr) as Hrs.
  destruct (repetition_count_test t x) as [[u|e] t1]; [|by left].
  destruct Hrs as (Hr1 & Hno & H1 & H2 & H3).
  assert (prop_inv t1 l) as Hp1.
  { destruct Hp as [[-> ?]|(w & ws & ?)]; [left; split; congruence|right]. exists w, ws.
    by rewrite H1, H2, H3. }
  pose proof (proportion_spec t1 l x Hp1) as Hps. destruct (adaptive_proportion_test t1 x) as [[u'|e] t2]; [|by right].
  destruct Hps as (Hp2 & Hno2 & H4 & H5). split_and!; auto.
  destruct Hr1 as [[? ?]|(pre & c & ?)]; [left; split; congruence|right]. exists pre, c. by rewrite H4, H5.
Qed.

Lemma health_failure t x r t' : health t x = (r, t') → failure t' = failure t.
Proof.
  unfold health, repetition_count_test, adaptive_proportion_test. repeat (case_match; simplify_eq); intros; by simplify_eq.
Qed.

(** get_entropy in terms of the two tests. *)
Lemma get_entropy_health t n :
  failure t = None →
  get_entropy t n = match get_noise n with
                    | (Err rc, n') => (Err rc, set_failure t rc, n')
                    | (Ok x, n') => match health t x with
                                    | (Err rc, t') => (Err rc, set_failure t' rc, n')
                                    | (Ok _, t') => (Ok x, t', n')
                                    end
                    end.
Proof. intros Hf. unfold get_entropy, health. rewrite Hf. by repeat case_match; simplify_eq. Qed.

Lemma get_entropy_sample t n x t' n' :
  get_entropy t n = (Ok x, t', n') →
  failure t = None ∧ get_noise n = (Ok x, n') ∧ ∃ u, health t x = (Ok u, t').
Proof.
  destruct (failure t) eqn:Hf; [unfold get_entropy; by rewrite Hf|]. rewrite get_entropy_health by done.
  destruct (get_noise n) as [[y|e] n1]; [|done]. destruct (health t y) as [[u|e] t1] eqn:Hh; [|done].
  intros [= -> -> ->]. eauto.
Qed.

Lemma accepted_inv l t : accepted l t → failure t = None ∧ rep_inv t l ∧ prop_inv t l.
Proof.
  induction 1 as [|l t n x t' n' _ (Hf & Hr & Hp) Hg|l t _ IH|l t _ IH]; [| |done..].
  - split; [done|]. by split; left.
  - apply get_entropy_sample in Hg as (_ & _ & u & Hh). rewrite (health_failure _ _ _ _ Hh).
    pose proof (health_inv t l x Hr Hp) as Hi. rewrite Hh in Hi. naive_solver.
Qed.

(** C12: whatever samples were accepted since the start, when the noise source gives
    a sample, it is rejected by the repetition count test exactly if it ends a run of
    as many equal samples as the cutoff says, and otherwise by the adaptive proportion
    test exactly if more than its cutoff of the samples that follow the first one in
    the current window equal the first one.  (A window is 65 samples long: the first
    one and the ADAPTIVE_PROPORTION_WINDOW_SIZE that are counted after it.)  When the
    noise source fails, so does get_entropy.  Every failure, of the noise source or of
    a test, is permanent. *)
Theorem health_tests_correct l t n :
  accepted l t →
  let run x := ∃ pre, l ++ [x] = pre ++ replicate (Z.to_nat repetition_count_cutoff) x in
  match get_entropy t n with
  | (Ok x, t', n1) => get_noise n = (Ok x, n1) ∧ ¬ run x ∧ ¬ over l x ∧ accepted (l ++ [x]) t'
  | (Err e, t', n1) =>
      (get_noise n = (Err e, n1) ∨
       ∃ x, get_noise n = (Ok x, n1) ∧
         ((e = EPIPE_REPETITION_COUNT_TEST ∧ run x) ∨ (e = EPIPE_ADAPTIVE_PROPORTION_TEST ∧ over l x))) ∧
      ∀ m, get_entropy t' m = (Err e, t', m)
  end.
Proof.
  intros Ha run. destruct (accepted_inv _ _ Ha) as (Hf & Hr & Hp).
  pose proof (λ x t' n', accepted_sample l t n x t' n' Ha) as Hnext. rewrite get_entropy_health in * by done.
  destruct (get_noise n) as [[x|e] n1]; [|split; [by left|done]].
  pose proof (health_inv t l x Hr Hp) as Hi. destruct (health t x) as [[u|e] t']; [|split; [right; by exists x|done]].
  destruct Hi as (_ & _ & ? & ?). split_and!; auto. by eapply Hnext.
Qed.

(** ** Gathering entropy input *)

(** Samples drawn one after the other in the start-up tests, each of which is counted. *)
Inductive tested : tests → noise → list Z → tests → noise → Prop :=
| tested_nil t n : tested t n [] t n
| tested_cons t n s t1 n1 l t2 n2 :
    get_entropy t n = (Ok s, t1, n1) → tested (startup_tested_next t1) n1 l t2 n2 → tested t n (s :: l) t2 n2.

(** Samples drawn one after the other, each with a nonce of its own. *)
Inductive drawn : tests → noise → list Z → tests → noise → Prop :=
| drawn_nil t n : drawn t n [] t n
| drawn_cons t n s t1 n1 l t2 n2 :
    get_entropy t n = (Ok s, t1, n1) → drawn (make_next_nonce t1).2 n1 l t2 n2 → drawn t n (s :: l) t2 n2.

Lemma tested_accepted t n l t' n' l0 : tested t n l t' n' → accepted l0 t → accepted (l0 ++ l) t'.
Proof.
  intros Ht. revert l0. induction Ht as [|t n s t1 n1 l t2 n2 Hg _ IH]; intros l0 Ha; [by rewrite app_nil_r|].
  rewrite cons_middle, app_assoc. apply IH. apply accepted_startup. by eapply accepted_sample.
Qed.

Lemma drawn_accepted t n l t' n' l0 : drawn t n l t' n' → accepted l0 t → accepted (l0 ++ l) t'.
Proof.
  intros Ht. revert l0. induction Ht as [|t n s t1 n1 l t2 n2 Hg _ IH]; intros l0 Ha; [by rewrite app_nil_r|].
  rewrite cons_middle, app_assoc. apply IH. apply accepted_nonce. by eapply accepted_sample.
Qed.

(** What the samples are condensed to: the exclusive or of the derivations of
    each sample with its nonce. *)
Fixpoint condense (tmp : bytes) (nonce0 : Z) (samples : list Z) : bytes :=
  match samples with
  | [] => tmp
  | s :: samples =>
      let nonce := u32 (nonce0 + 1) in
      condense (zip_with Z.lxor tmp (Hash_df (le_split 4 nonce ++ [s]) (length tmp))) nonce samples
  end.

Lemma get_entropy_nonce t n r t' n' : get_entropy t n = (r, t', n') → nonce t' = nonce t.
Proof.
  unfold get_entropy. destruct (failure t); [by intros [= <- <- <-]|].
  destruct (get_noise n) as [[x|e] n1]; [|by intros [= <- <- <-]].
  unfold repetition_count_test, adaptive_proportion_test.
  repeat (case_match; simplify_eq); intros [= <- <- <-]; done.
Qed.

Context (Hstack : length (Digest.data stack) = 64%nat).

Lemma hash_df_sha256 input n :
  Zlen input < 2 ^ 31 → (n ≤ 1000)%nat → hash_df stack input n = Hash_df input n.
Proof using Hstack.
  intros Hi Hn. apply (hash_df_spec (H := sha256_algorithm) stack); [done| |lia|].
  - change hash_limit with message_limit. unfold message_limit.
    destruct size_bits_cases as [[_ ->]|[_ ->]]; lia.
  - unfold df_count. cbn [digestsize sha256_algorithm]. apply Nat.Div0.div_le_upper_bound. lia.
Qed.

Lemma length_xor tmp input : length (zip_with Z.lxor tmp (Hash_df input (length tmp))) = length tmp.
Proof using Type. rewrite length_zip_with, length_Hash_df. apply Nat.min_id. Qed.

Lemma length_condense samples tmp nonce0 : length (condense tmp nonce0 samples) = length tmp.
Proof using Type.
  revert tmp nonce0. induction samples as [|s samples IH]; intros tmp nonce0; [done|]. cbn [condense].
  by rewrite IH, length_xor.
Qed.

Lemma sample_loop_spec k t n tmp tmp' t' n' :
  (length tmp ≤ 1000)%nat → sample_loop k t n tmp = (Ok tmp', t', n') →
  ∃ samples, length samples = k ∧ drawn t n samples t' n' ∧ tmp' = condense tmp (nonce t) samples.
Proof using Hstack.
  revert t n tmp. induction k as [|k IH]; intros t n tmp Hl; cbn [sample_loop].
  - intros [= <- <- <-]. exists []. split_and!; auto. constructor.
  - destruct (get_entropy t n) as [[[s|e] t1] n1] eqn:Hg; [|done]. cbn [make_next_nonce]. unfold make_next_nonce.
    rewrite hash_df_sha256; [|rewrite length_app, length_le_split; cbn; lia|done].
    intros Hloop. apply IH in Hloop as (samples & Hk & Hd & ->); [|by rewrite length_xor].
    pose proof (get_entropy_nonce _ _ _ _ _ Hg) as Hnonce. cbn [nonce] in *. rewrite Hnonce in *.
    exists (s :: samples). split_and!; [cbn; lia| |done]. econstructor; [done|]. unfold make_next_nonce.
    cbn [snd]. by rewrite Hnonce.
Qed.

Lemma get_entropy_startup t n r t' n' : get_entropy t n = (r, t', n') → startup_tested t' = startup_tested t.
Proof.
  unfold get_entropy. destruct (failure t); [by intros [= <- <- <-]|].
  destruct (get_noise n) as [[x|e] n1]; [|by intros [= <- <- <-]].
  unfold repetition_count_test, adaptive_proportion_test.
  repeat (case_match; simplify_eq); intros [= <- <- <-]; done.
Qed.

Lemma startup_loop_spec k t n u t' n' :
  startup_loop k t n = (Ok u, t', n') →
  ∃ samples, length samples = k ∧ tested t n samples t' n' ∧
    startup_tested t' = startup_tested t + Z.of_nat k ∧ nonce t' = nonce t.
Proof.
  revert t n. induction k as [|k IH]; intros t n; cbn [startup_loop].
  - intros [= _ <- <-]. exists []. split_and!; auto; [constructor|lia].
  - destruct (get_entropy t n) as [[[s|e] t1] n1] eqn:Hg; [|done]. intros Hloop.
    apply IH in Hloop as (samples & Hk & Ht & Hs & Hn). cbn [startup_tested nonce] in *. exists (s :: samples).
    rewrite (get_entropy_startup _ _ _ _ _ Hg) in Hs. rewrite (get_entropy_nonce _ _ _ _ _ Hg) in Hn.
    split_and!; [cbn; lia| |lia|done]. by econstructor.
Qed.

Lemma samples_needed_spec bits :
  0 ≤ bits → 0 ≤ samples_needed bits ∧ bits * h_den ≤ samples_needed bits * h_num < bits * h_den + h_num.
Proof.
  intros Hb. pose proof h_pos as [Hd Hn]. unfold samples_needed. generalize dependent h_num. intros m Hn.
  generalize dependent h_den. intros d Hd Hn. assert (0 < m) as Hpos by lia.
  pose proof (Z.div_mod (bits * d) m ltac:(lia)) as Hdm. pose proof (Z.mod_pos_bound (bits * d) m Hpos).
  assert (0 ≤ bits * d / m) by (apply Z.div_pos; nia).
  destruct (Z.ltb_spec (bits * d / m * m) (bits * d)); split; nia.
Qed.

Lemma round_up_8 bits : 0 ≤ bits → bits ≤ Z.land (bits + 7) (Z.lnot 7) < bits + 8.
Proof.
  intros. change (Z.lnot 7) with (Z.lnot (2 ^ 3 - 1)). rewrite land_lnot_mask by lia.
  pose proof (Z.mod_pos_bound (bits + 7) (2 ^ 3) ltac:(lia)). change (2 ^ 3) with 8 in *. lia.
Qed.

Lemma get_entropy_input_spec bits min_len max_len t n data t' n' :
  (min_len ≤ max_len ≤ 255)%nat → 0 ≤ bits ≤ 8 * Z.of_nat max_len →
  get_entropy_input bits min_len max_len t n = (Ok data, t', n') →
  ∃ u n0 startup t1 n1 samples n2,
    entropy_enable n = (Ok u, n0) ∧
    tested t n0 startup t1 n1 ∧ Zlen startup = Z.max 0 (startup_test_count - startup_tested t) ∧
    startup_test_count ≤ startup_tested t1 ∧
    drawn t1 n1 samples t' n2 ∧ n' = entropy_disable n2 ∧
    (∀ l, accepted l t → accepted (l ++ startup ++ samples) t') ∧
    bits * h_den ≤ Zlen samples * h_num ∧ (min_len ≤ length data ≤ max_len)%nat ∧
    let tmp_len := Z.to_nat ((bits * 2 + 7) / 8) in
    let tmp := condense (replicate tmp_len 0) (nonce t) samples in
    data = if decide (tmp_len < min_len)%nat then tmp ++ replicate (min_len - tmp_len) 0
           else if decide (max_len < tmp_len)%nat then Hash_df tmp max_len else tmp.
Proof using Hstack.
  intros Hmm Hb. unfold get_entropy_input, get_entropy_input_tmp.
  set (tmp_len := Z.to_nat ((bits * 2 + 7) / 8)). pose proof (round_up_8 bits ltac:(lia)) as Hru.
  set (bits' := Z.land _ _) in *.
  assert ((bits * 2 + 7) / 8 < 512) as Ht by (apply Z.div_lt_upper_bound; lia).
  destruct (entropy_enable n) as [[u|e] n0]; [|done].
  destruct (startup_loop _ t n0) as [[[u'|e] t1] n1] eqn:Hst; [|done].
  apply startup_loop_spec in Hst as (startup & Hsl0 & Htest & Hst & <-).
  destruct (sample_loop _ t1 n1 _) as [[[tmp|e] t2] n2] eqn:Hsl; [|done]. intros [= <- <- <-].
  apply sample_loop_spec in Hsl as (samples & Hk & Hd & ->); [|rewrite length_replicate; unfold tmp_len; lia].
  assert (length (condense (replicate tmp_len 0) (nonce t1) samples) = tmp_len) as Hlen
    by (by rewrite length_condense, length_replicate).
  assert (Zlen (condense (replicate tmp_len 0) (nonce t1) samples) < 2 ^ 31) as Hsmall
    by (rewrite Hlen; unfold tmp_len; lia).
  destruct (samples_needed_spec bits' ltac:(lia)) as [Hp Hs]. pose proof h_pos.
  exists u, n0, startup, t1, n1, samples, n2. split; [done|]. split; [done|]. split; [lia|]. split; [lia|].
  split; [done|]. split; [done|]. split.
  { intros l Hl. rewrite app_assoc. eapply drawn_accepted, tested_accepted; done. }
  split; [nia|].
  cbv zeta. fold tmp_len. remember (condense (replicate tmp_len 0) (nonce t1) samples) as tmp eqn:Htmp.
  rewrite (hash_df_sha256 tmp max_len Hsmall ltac:(lia)). split; [|done].
  repeat case_decide; rewrite ?length_app, ?length_replicate, ?length_Hash_df, ?Hlen; lia.
Qed.

(** C13: entropy input is obtained by enabling the noise source, drawing the start-up
    samples that are still missing, every one through the health tests and counted,
    and only then drawing samples that hold at least the entropy asked for; the noise
    source is disabled at the end.  All these samples continue the history of accepted
    samples, start-up samples first.  The result is the exclusive or of the Hash_df
    derivations of the samples with consecutive nonces, padded to the minimum length
    or derived down to the maximum, and its length is between the two. *)
Theorem get_entropy_input_correct bits min_len max_len t n data t' n' :
  (min_len ≤ max_len ≤ 255)%nat → 0 ≤ bits ≤ 8 * Z.of_nat max_len →
  get_entropy_input bits min_len max_len t n = (Ok data, t', n') →
  ∃ u n0 startup t1 n1 samples n2,
    entropy_enable n = (Ok u, n0) ∧
    tested t n0 startup t1 n1 ∧ Zlen startup = Z.max 0 (startup_test_count - startup_tested t) ∧
    startup_test_count ≤ startup_tested t1 ∧
    drawn t1 n1 samples t' n2 ∧ n' = entropy_disable n2 ∧
    (∀ l, accepted l t → accepted (l ++ startup ++ samples) t') ∧
    bits * h_den ≤ Zlen samples * h_num ∧ (min_len ≤ length data ≤ max_len)%nat ∧
    let tmp_len := Z.to_nat ((bits * 2 + 7) / 8) in
    let tmp := condense (replicate tmp_len 0) (nonce t) samples in
    data = if decide (tmp_len < min_len)%nat then tmp ++ replicate (min_len - tmp_len) 0
           else if decide (max_len < tmp_len)%nat then Hash_df tmp max_len else tmp.
Proof using Hstack. apply get_entropy_input_spec. Qed.
End entropy.

(** The noise source as the generator's source of entropy input. *)
#[export, refine] Instance noise_entropy `{NoiseSource, Platform} (stack : {c : context | length (Digest.data c) = 64%nat})
    : EntropyInput := {|
  entropy := tests * noise;
  Drbg.get_entropy_input e bits min_len max_len :=
    let '(r, t, n) := get_entropy_input (proj1_sig stack) bits min_len max_len e.1 e.2 in (r, (t, n));
|}.
Proof.
  intros [t n] bits min_len max_len data [t' n'] Hmm Hb. cbn [fst snd].
  destruct (get_entropy_input _ bits min_len max_len t n) as [[r t1] n1] eqn:E. intros [= -> -> ->].
  destruct (get_entropy_input_spec _ (proj2_sig stack) _ _ _ _ _ _ _ _ Hmm Hb E) 
    as (_ & _ & _ & _ & _ & _ & _ & _ & _ & _ & _ & _ & _ & _ & _ & Hl & _).
  done.
Defined.

(** ** Witnesses *)

(** The real-time clock's estimate, 1.3 bits per sample; the samples are those of
    a counter that gets stuck at seven, and the source fails at 200. *)
#[export, refine] Instance example_noise : NoiseSource := {|
  noise := Z;
  get_noise n := if n =? 200 then (Err EIO, n) else (Ok (n mod 256), if n =? 7 then 7 else n + 1);
  entropy_enable n := (Ok tt, n);
  entropy_disable n := n;
  h_num := 13;
  h_den := 10;
|}.
Proof. lia. Defined.

(** The samples of [count] calls of get_entropy. *)
Fixpoint draw (count : nat) (t : tests) (n : Z) : option (list Z * tests) :=
  match count with
  | O => Some ([], t)
  | S count =>
      match get_entropy (H := example_noise) t n with
      | (Ok x, t, n) => match draw count t n with Some (l, t) => Some (x :: l, t) | None => None end
      | _ => None
      end
  end.

Lemma draw_accepted count l0 t n l t' : accepted l0 t → draw count t n = Some (l, t') → accepted (l0 ++ l) t'.
Proof.
  revert l0 t n l. induction count as [|count IH]; intros l0 t n l Ha; cbn [draw].
  { intros [= <- <-]. by rewrite app_nil_r. }
  destruct (get_entropy (H := example_noise) t n) as [[[x|e] t1] n1] eqn:Hg; [|done]. destruct (draw count t1 n1) as [[l1 t2]|] eqn:Hd; [|done].
  intros [= <- <-]. rewrite cons_middle, app_assoc. eapply IH; [by eapply accepted_sample|done].
Qed.

(** Twenty-four sevens are accepted, and the twenty-fifth is not. *)
Lemma health_tests_correct_witness :
  ∃ t, accepted (replicate 24 7) t ∧ (get_entropy t 7).1.1 = Err EPIPE_REPETITION_COUNT_TEST.
Proof.
  destruct (draw 24 initial_tests 7) as [[l t]|] eqn:Hd; [|by vm_compute in Hd].
  pose proof (draw_accepted 24 [] _ _ _ _ accepted_start Hd) as Ha.
  assert (l = replicate 24 7) as -> by (vm_compute in Hd; by injection Hd as <- _).
  exists t. split; [exact Ha|].
  pose proof (health_tests_correct (replicate 24 7) t 7 Ha) as Hh.
  destruct (get_entropy (H := example_noise) t 7) as [[[x|e] t'] n1]; cbn [fst].
  - destruct Hh as ([= <- _] & Hrun & _). exfalso. apply Hrun. exists []. by vm_compute.
  - destruct Hh as [[Hn|(x & [= <- _] & [[-> _]|[-> (ws & Hw & Hov)]])] _]; [discriminate Hn|done|].
    change (window (replicate 24 7)) with (7 :: replicate 23 7) in Hw. injection Hw as <-. by vm_compute in Hov.
Defined.

(** From the start: the start-up tests of 51 samples, then 13 samples. *)
Lemma get_entropy_input_correct_witness :
  let stack := Context [] (replicate 64 0) 0 in
  match get_entropy_input (H := example_noise) (H0 := i386) stack 16 2 8 initial_tests 8 with
  | (Ok data, t, _) => length data = 4%nat ∧ ∃ l, accepted l t ∧ 51 + 13 ≤ Zlen l
  | _ => False
  end.
Proof.
  intros stack. pose proof (get_entropy_input_correct (H := example_noise) (H0 := i386) stack eq_refl 16 2 8 initial_tests 8) as Hw.
  destruct (get_entropy_input (H := example_noise) (H0 := i386) stack 16 2 8 initial_tests 8) as [[[data|e] t'] n'] eqn:E.
  - destruct (Hw data t' n' ltac:(lia) ltac:(lia) eq_refl)
      as (u & n0 & startup & t1 & n1 & samples & n2 & _ & _ & Hst & _ & _ & _ & Ha & Hb & _ & Hdata).
    change (Z.max 0 _) with 51 in Hst. change (16 * h_den) with 160 in Hb. change h_num with 13 in Hb. split.
    + rewrite Hdata. cbv zeta. rewrite decide_False, decide_False by (vm_compute; lia). rewrite length_condense. by vm_compute.
    + exists ([] ++ startup ++ samples). split; [exact (Ha [] accepted_start)|]. cbn [app]. rewrite length_app. lia.
  - vm_compute in E. discriminate E.
Defined.
