(* ===== verification/Retry.v ===== *)
(** * Retry timers (src/net/retry.c, src/include/ipxe/retry.h)

    Binary exponential backoff timers: a record per timer, the list of running
    timers, and the poll that expires at most one of them.  The current time
    and the number of ticks per second come from the platform's timer. *)

From S2P Require Import Prelude.

Class Ticks := {
  TICKS_PER_SEC : Z;
  ticks_ok : 0 < TICKS_PER_SEC < 2 ^ 20;
}.

Definition bios_ticks : Ticks := {| TICKS_PER_SEC := 18; ticks_ok := conj eq_refl eq_refl |}.

(** The reference counter and the expiry callback belong to the timer's owner. *)
Record retry_timer : Type := Timer {
  running : bool;
  timeout : Z;
  min_timeout : Z;
  max_timeout : Z;
  start : Z;
  count : Z;
}.

Definition MIN_TIMEOUT : Z := 7.

(** A timer in zeroed memory after timer_init. *)
Definition timer_init : retry_timer := Timer false 0 0 0 0 0.

(** The timers by name, the list of running ones, and the state of their
    owners. *)
Record timer_state (O : Type) : Type := TimerState {
  timers : list nat;
  table : gmap nat retry_timer;
  owners : O;
}.
Arguments TimerState {O} _ _ _.
Arguments timers {O} _.
Arguments table {O} _.
Arguments owners {O} _.

Section timer.
Context `{Platform, Ticks}.

Definition DEFAULT_MIN_TIMEOUT : Z := TICKS_PER_SEC / 4.
Definition DEFAULT_MAX_TIMEOUT : Z := 20 * TICKS_PER_SEC.

(** ** A single timer *)

(** [now] is currticks(). *)
Definition start_timer (now : Z) (t : retry_timer) : retry_timer :=
  let min := if min_timeout t =? 0 then DEFAULT_MIN_TIMEOUT else min_timeout t in
  let min := if min <? MIN_TIMEOUT then MIN_TIMEOUT else min in
  let timeout := if timeout t <? min then min else timeout t in
  Timer true timeout min (max_timeout t) now (count t).

Definition start_timer_fixed (now timeout : Z) (t : retry_timer) : retry_timer :=
  let t := start_timer now t in
  Timer (running t) timeout (min_timeout t) (max_timeout t) (start t) (count t).

Definition start_timer_nodelay (now : Z) (t : retry_timer) : retry_timer := start_timer_fixed now 0 t.

Definition timer_running (t : retry_timer) : bool := running t.

Definition stop_timer (now : Z) (t : retry_timer) : retry_timer :=
  if negb (running t) then t
  else
    let runtime := usize (now - start t) in
    if negb (count t =? 0) then
      Timer false (timeout t) (min_timeout t) (max_timeout t) (start t) (u32 (count t - 1))
    else
      let timeout := usize (timeout t - Z.shiftr (timeout t) 3) in
      let timeout := usize (timeout + Z.shiftr runtime 1) in
      Timer false timeout (min_timeout t) (max_timeout t) (start t) (count t).

(** timer_expired up to the callback: the failure indicator passed to the
    callback, and the stopped and backed-off timer. *)
Definition timer_expired (t : retry_timer) : bool * retry_timer :=
  let count := u32 (count t + 1) in
  let timeout := usize (Z.shiftl (timeout t) 1) in
  let max := if max_timeout t =? 0 then DEFAULT_MAX_TIMEOUT else max_timeout t in
  let fail := max <? timeout in
  let timeout := if fail then max else timeout in
  (fail, Timer false timeout (min_timeout t) max (start t) count).

(** ** The list of running timers *)

Context {O : Type}.

Definition get_timer (s : timer_state O) (i : nat) : retry_timer := default timer_init (table s !! i).

(** start_timer and stop_timer with their list operations. *)
Definition start_listed (now : Z) (i : nat) (s : timer_state O) : timer_state O :=
  let t := get_timer s i in
  TimerState (if running t then timers s else i :: timers s) (<[i := start_timer now t]> (table s)) (owners s).

Definition stop_listed (now : Z) (i : nat) (s : timer_state O) : timer_state O :=
  let t := get_timer s i in
  TimerState (if running t then filter (λ j, j ≠ i) (timers s) else timers s)
    (<[i := stop_timer now t]> (table s)) (owners s).

(** The callbacks: what the owner of timer [i] does when it expires. *)
Context (expired : nat → bool → timer_state O → timer_state O).

Definition expire_listed (i : nat) (s : timer_state O) : timer_state O :=
  let '(fail, t) := timer_expired (get_timer s i) in
  expired i fail (TimerState (filter (λ j, j ≠ i) (timers s)) (<[i := t]> (table s)) (owners s)).

Fixpoint retry_scan (now : Z) (list : list nat) (s : timer_state O) : timer_state O :=
  match list with
  | [] => s
  | i :: list =>
      let t := get_timer s i in
      let used := usize (now - start t) in
      if timeout t <=? used then expire_listed i s else retry_scan now list s
  end.

Definition retry_poll (now : Z) (s : timer_state O) : timer_state O := retry_scan now (timers s) s.
End timer.

(** ** Backoff *)

Section backoff.
Context `{Platform, Ticks}.

(** The timeout after which the timer gives up. *)
Definition effective_max (t : retry_timer) : Z :=
  if max_timeout t =? 0 then DEFAULT_MAX_TIMEOUT else max_timeout t.

(** A timer that is started and left to expire at each of the given times;
    [None] if an expiry was reported as the final failure. *)
Fixpoint unanswered (nows : list Z) (t : retry_timer) : option retry_timer :=
  match nows with
  | [] => Some t
  | now :: nows =>
      let '(fail, t) := timer_expired (start_timer now t) in
      if fail then None else unanswered nows t
  end.

(** Times are held in an unsigned long; half its range leaves room to double. *)
Definition timer_ok (t : retry_timer) : Prop :=
  0 ≤ timeout t ≤ effective_max t ∧ 0 ≤ min_timeout t < 2 ^ (size_bits - 1) ∧
  0 ≤ max_timeout t ∧ effective_max t < 2 ^ (size_bits - 1).

Lemma size_bits_pow : 2 ^ size_bits = 2 * 2 ^ (size_bits - 1) ∧ 2 ^ 31 ≤ 2 ^ (size_bits - 1).
Proof. destruct size_bits_cases as [[_ ->]|[_ ->]]; cbn; lia. Qed.

Lemma default_bounds : 0 ≤ DEFAULT_MIN_TIMEOUT < 2 ^ 30 ∧ 0 < DEFAULT_MAX_TIMEOUT < 2 ^ 30.
Proof.
  unfold DEFAULT_MIN_TIMEOUT, DEFAULT_MAX_TIMEOUT. pose proof ticks_ok.
  pose proof (Z.div_pos TICKS_PER_SEC 4). pose proof (Z.div_le_upper_bound TICKS_PER_SEC 4 TICKS_PER_SEC). lia.
Qed.

Lemma effective_max_pos t : 0 ≤ max_timeout t → 0 < effective_max t.
Proof. pose proof default_bounds. unfold effective_max. destruct (Z.eqb_spec (max_timeout t) 0); lia. Qed.

Lemma start_timer_ok now t :
  timer_ok t →
  let t' := start_timer now t in
  MIN_TIMEOUT ≤ timeout t' < 2 ^ (size_bits - 1) ∧ timeout t ≤ timeout t' ∧
  MIN_TIMEOUT ≤ min_timeout t' < 2 ^ (size_bits - 1) ∧ max_timeout t' = max_timeout t ∧ running t' = true.
Proof.
  intros (? & ? & ? & ?). pose proof default_bounds. pose proof size_bits_pow.
  unfold start_timer, MIN_TIMEOUT. cbn [timeout min_timeout max_timeout running].
  repeat case_match; lia.
Qed.

(** An expiry doubles the timeout, or gives up if that would pass the limit. *)
Lemma timer_expired_spec t :
  0 ≤ timeout t < 2 ^ (size_bits - 1) →
  let '(fail, t') := timer_expired t in
  fail = (effective_max t <? 2 * timeout t) ∧ running t' = false ∧
  timeout t' = Z.min (2 * timeout t) (effective_max t) ∧
  min_timeout t' = min_timeout t ∧ max_timeout t' = effective_max t.
Proof.
  intros. pose proof size_bits_pow. unfold timer_expired.
  rewrite Z.shiftl_mul_pow2, wrap_small by (unfold in_range; lia). fold (effective_max t).
  cbn [running timeout min_timeout max_timeout].
  rewrite (Z.mul_comm (timeout t)). change (2 ^ 1) with 2. split_and!; try done.
  destruct (Z.ltb_spec (effective_max t) (2 * timeout t)); lia.
Qed.

Lemma unanswered_step now t :
  timer_ok t →
  let '(fail, t') := timer_expired (start_timer now t) in
  fail = false → timer_ok t' ∧ effective_max t' = effective_max t ∧
    2 * Z.max MIN_TIMEOUT (timeout t) ≤ timeout t'.
Proof.
  intros Hok. destruct (start_timer_ok now t Hok) as (Ht & Hle & Hmin & Hmax & _).
  destruct Hok as (? & ? & ? & ?).
  assert (effective_max (start_timer now t) = effective_max t) as He by (unfold effective_max; by rewrite Hmax).
  unfold MIN_TIMEOUT in *.
  assert (0 ≤ timeout (start_timer now t) < 2 ^ (size_bits - 1)) as Hr by lia.
  pose proof (timer_expired_spec (start_timer now t) Hr) as Hs.
  destruct (timer_expired _) as [fail t']. destruct Hs as (-> & _ & Hto & Hmi & Hma).
  intros Hf%Z.ltb_ge. rewrite He in *.
  assert (effective_max t' = effective_max t) as He'.
  { unfold effective_max at 1. rewrite Hma. pose proof (effective_max_pos t).
    destruct (Z.eqb_spec (effective_max t) 0); lia. }
  unfold timer_ok. rewrite He', Hto, Hmi, Hma. lia.
Qed.

Lemma unanswered_bound nows t t' :
  timer_ok t → unanswered nows t = Some t' →
  effective_max t' = effective_max t ∧ timer_ok t' ∧
  (nows ≠ [] → MIN_TIMEOUT * 2 ^ Zlen nows ≤ timeout t') ∧ timeout t * 2 ^ Zlen nows ≤ timeout t'.
Proof.
  revert t. induction nows as [|now nows IH]; intros t Hok; cbn [unanswered].
  { intros [= <-]. cbn. split_and!; done || lia. }
  pose proof (unanswered_step now t Hok) as Hstep. destruct (timer_expired _) as [[] t1]; [done|].
  destruct (Hstep eq_refl) as (Hok1 & He & Hd). intros Hu.
  destruct (IH t1 Hok1 Hu) as (He' & Hok' & _ & Hb). rewrite He', He.
  cbn [length]. rewrite Nat2Z.inj_succ, Z.pow_succ_r by lia.
  pose proof (Z.pow_pos_nonneg 2 (Zlen nows) eq_refl ltac:(lia)). unfold MIN_TIMEOUT in *.
  split_and!; [done|done|intros _; nia|nia].
Qed.

(** The smoothed timeout of stop_timer: seven eighths of the old one and half
    the measured time. *)
Lemma stop_timer_spec now t :
  running t = true → count t = 0 → 0 ≤ timeout t < 2 ^ (size_bits - 1) →
  let runtime := usize (now - start t) in
  timeout (stop_timer now t) = timeout t - timeout t / 8 + runtime / 2 ∧ running (stop_timer now t) = false.
Proof.
  intros Hr Hc Ht runtime. unfold stop_timer. rewrite Hr, Hc. cbn [negb Z.eqb]. fold runtime.
  pose proof size_bits_pow. pose proof (wrap_range size_bits (now - start t)) as Hrt.
  fold runtime in Hrt. unfold in_range in Hrt.
  assert (0 ≤ size_bits) by (destruct size_bits_cases as [[_ ->]|[_ ->]]; lia). specialize (Hrt ltac:(done)).
  rewrite !Z.shiftr_div_pow2 by lia. change (2 ^ 3) with 8. change (2 ^ 1) with 2.
  pose proof (Z.div_le_upper_bound (timeout t) 8 (timeout t)). pose proof (Z.div_pos (timeout t) 8).
  pose proof (Z.div_pos runtime 2). pose proof (Z.div_lt_upper_bound runtime 2 (2 ^ (size_bits - 1))).
  rewrite !wrap_small by (unfold in_range; rewrite ?wrap_small by (unfold in_range; lia); lia). done.
Qed.
End backoff.

(** C14: an unanswered timer gives up: however it is configured, among [n]
    consecutive expiries with MIN_TIMEOUT * 2^n above the maximum timeout one
    is reported as the final failure, and until then each expiry at least
    doubles the timeout without passing the maximum.  A timer stopped before it
    expires never smooths its timeout below MIN_TIMEOUT. *)
Theorem retry_backoff_correct `{Platform, Ticks} t nows :
  timer_ok t →
  match unanswered nows t with
  | None => True
  | Some t' => MIN_TIMEOUT * 2 ^ Zlen nows ≤ Z.max MIN_TIMEOUT (effective_max t) ∧
      timeout t * 2 ^ Zlen nows ≤ timeout t' ≤ effective_max t
  end ∧
  ∀ now now', count t = 0 →
    MIN_TIMEOUT ≤ timeout (stop_timer now' (start_timer now t)).
Proof.
  intros Hok. split.
  - destruct (unanswered nows t) as [t'|] eqn:Hu; [|done].
    destruct (unanswered_bound nows t t' Hok Hu) as (He & (Ht' & _) & Hb & Hb'). rewrite He in Ht'.
    split; [|lia]. destruct (decide (nows = [])) as [->|Hne]; [unfold MIN_TIMEOUT; cbn; lia|].
    specialize (Hb Hne). lia.
  - intros now now' Hc. destruct (start_timer_ok now t Hok) as (Ht & _ & _ & _ & Hr).
    unfold MIN_TIMEOUT in *.
    destruct (stop_timer_spec now' (start_timer now t) Hr) as [-> _]; [done|lia|].
    pose proof (wrap_range size_bits (now' - start (start_timer now t))) as Hrt. unfold in_range in Hrt.
    assert (0 ≤ size_bits) by (destruct size_bits_cases as [[_ ->]|[_ ->]]; lia).
    pose proof (Z.div_pos (usize (now' - start (start_timer now t))) 2).
    Z.to_euclidean_division_equations. lia.
Qed.

Lemma retry_backoff_correct_witness :
  unanswered (H := i386) (H0 := bios_ticks) [0; 10; 30; 60; 120; 240; 500] timer_init = None ∧
  is_Some (unanswered (H := i386) (H0 := bios_ticks) [0; 10; 30; 60; 120] timer_init) ∧
  MIN_TIMEOUT ≤ timeout (stop_timer (H := i386) 3 (start_timer (H0 := bios_ticks) 2 timer_init)).
Proof.
  destruct (retry_backoff_correct (H := i386) (H0 := bios_ticks) timer_init [0; 10; 30; 60; 120; 240; 500])
    as [Hu Hs].
  { by_decide. }
  split_and!; [|by eexists|by apply Hs].
  destruct (unanswered _ timer_init); [|done]. exfalso. destruct Hu as [Hu _]. by vm_compute in Hu.
Defined.

(** ** The list of running timers *)

Section listed.
Context `{Platform, Ticks} {O : Type}.
Implicit Types (s : timer_state O).

Definition listed (s : timer_state O) : Prop :=
  NoDup (timers s) ∧ ∀ i, i ∈ timers s ↔ running (get_timer s i) = true.

Lemma get_timer_insert l t o (i j : nat) x :
  get_timer (TimerState l (<[i := x]> t) o : timer_state O) j =
    if decide (i = j) then x else default timer_init (t !! j).
Proof. unfold get_timer. cbn [table]. destruct (decide (i = j)) as [->|]; by simplify_map_eq. Qed.

Lemma start_listed_ok now i s : listed s → listed (start_listed now i s).
Proof.
  intros [Hnd Hl]. unfold start_listed. pose proof (Hl i) as Hi.
  split; cbn [timers]; [|intros j; rewrite get_timer_insert].
  - destruct (running (get_timer s i)); [done|]. apply NoDup_cons. split; [|done]. intros ?%Hi. done.
  - pose proof (Hl j) as Hj. fold (get_timer s j).
    destruct (decide (i = j)) as [->|Hne]; [unfold start_timer; cbn [running]|].
    + destruct (running (get_timer s j)); [naive_solver|]. rewrite elem_of_cons. naive_solver.
    + destruct (running (get_timer s i)); [done|]. rewrite elem_of_cons. naive_solver.
Qed.

Lemma stopped_listed i l x s :
  listed s → running x = false → l = filter (λ j, j ≠ i) (timers s) →
  listed (TimerState l (<[i := x]> (table s)) (owners s)).
Proof.
  intros [Hnd Hl] Hx ->. split; cbn [timers]; [by apply NoDup_filter|]. intros j.
  rewrite list_elem_of_filter, get_timer_insert, Hl. fold (get_timer s j).
  destruct (decide (i = j)) as [->|]; [rewrite Hx|]; naive_solver.
Qed.

Lemma stop_listed_ok now i s : listed s → listed (stop_listed now i s).
Proof.
  intros Hs. unfold stop_listed. destruct (running (get_timer s i)) eqn:Hr.
  - apply stopped_listed; [done| |done]. unfold stop_timer. rewrite Hr. by destruct (count _ =? 0).
  - apply stopped_listed; [done|unfold stop_timer; by rewrite Hr|].
    symmetry. apply filter_all. apply Forall_forall. intros j Hj ->.
    apply (proj2 Hs) in Hj. congruence.
Qed.

Context (expired : nat → bool → timer_state O → timer_state O).

Definition due (now : Z) (s : timer_state O) (i : nat) : Prop :=
  timeout (get_timer s i) ≤ usize (now - start (get_timer s i)).

Lemma retry_scan_spec now l s :
  (retry_scan expired now l s = s ∧ Forall (λ i, ¬ due now s i) l) ∨
  ∃ l1 i l2, l = l1 ++ i :: l2 ∧ Forall (λ i, ¬ due now s i) l1 ∧ due now s i ∧
    retry_scan expired now l s = expire_listed expired i s.
Proof.
  induction l as [|i l IH]; cbn [retry_scan]; [by left|].
  destruct (Z.leb_spec (timeout (get_timer s i)) (usize (now - start (get_timer s i)))) as [Hd|Hd].
  { right. by exists [], i, l. }
  assert (¬ due now s i) by (unfold due; lia).
  destruct IH as [[-> Hl]|(l1 & j & l2 & -> & Hl1 & Hj & ->)]; [left; auto|].
  right. exists (i :: l1), j, l2. auto.
Qed.
End listed.

(** the list of running timers holds every running timer exactly once:
    starting, stopping and polling preserve this (if the expiry callbacks do),
    and a poll expires the first timer of the list that is due, already
    stopped when its callback is called, or does nothing if none is due. *)
Lemma retry_list_correct `{Platform, Ticks} {O : Type}
    (expired : nat → bool → timer_state O → timer_state O) now (s : timer_state O) :
  (∀ i fail s, listed s → running (get_timer s i) = false → listed (expired i fail s)) → listed s →
  (∀ i, listed (start_listed now i s) ∧ listed (stop_listed now i s)) ∧
  listed (retry_poll expired now s) ∧
  ((retry_poll expired now s = s ∧ ∀ i, running (get_timer s i) = true → ¬ due now s i) ∨
   ∃ l1 i l2, timers s = l1 ++ i :: l2 ∧ due now s i ∧ Forall (λ i, ¬ due now s i) l1 ∧
     retry_poll expired now s = expire_listed expired i s).
Proof.
  intros Hexp Hs. split; [split; [by apply start_listed_ok|by apply stop_listed_ok]|].
  unfold retry_poll. destruct (retry_scan_spec expired now (timers s) s) as [[-> Hf]|(l1 & i & l2 & El & Hf & Hd & E)].
  - split; [done|]. left. split; [done|]. intros i Hi. rewrite Forall_forall in Hf. apply Hf. by apply Hs.
  - split; [|right; by exists l1, i, l2]. rewrite E. unfold expire_listed.
    assert (running (timer_expired (get_timer s i)).2 = false) as Hr by done.
    destruct (timer_expired (get_timer s i)) as [fail t]. apply Hexp; [by apply stopped_listed|].
    by rewrite get_timer_insert, decide_True.
Qed.

