(* ===== verification/Tcp.v ===== *)
(** * The transmission control protocol (src/net/tcp.c, src/include/ipxe/tcp.h)

    The connection record, the transmit and receive paths, the timers and the
    data transfer interface of iPXE's TCP.  A handler runs on a world: the
    connection, the rest of the program (an interface: memory allocator, network
    layer, the application at the other end of the data transfer interface) and
    the trace of their exchanges.  Reference counts, profiling and
    debug output are left out; a connection that is unlinked and dropped is
    marked [deleted]. *)

From S2P Require Import Prelude Tcpip Retry.

(** ** Flags and states *)

Definition TCP_ACK : Z := 0x10.
Definition TCP_PSH : Z := 0x08.
Definition TCP_RST : Z := 0x04.
Definition TCP_SYN : Z := 0x02.
Definition TCP_FIN : Z := 0x01.

Definition TCP_STATE_SENT (flags : Z) : Z := Z.shiftl flags 0.
Definition TCP_FLAGS_SENT (state : Z) : Z := Z.land (Z.shiftr state 0) 0xff.
Definition TCP_STATE_ACKED (flags : Z) : Z := Z.shiftl flags 8.
Definition TCP_FLAGS_ACKED (state : Z) : Z := Z.land (Z.shiftr state 8) 0xff.
Definition TCP_STATE_RCVD (flags : Z) : Z := Z.shiftl flags 16.
Definition TCP_FLAGS_SENDING (state : Z) : Z := Z.land (TCP_FLAGS_SENT state) (Z.lnot (TCP_FLAGS_ACKED state)).

Definition TCP_CLOSED : Z := TCP_RST.
Definition TCP_SYN_SENT : Z := TCP_STATE_SENT TCP_SYN.
Definition TCP_SYN_RCVD : Z := Z.lor (TCP_STATE_SENT (Z.lor TCP_SYN TCP_ACK)) (TCP_STATE_RCVD TCP_SYN).
Definition TCP_ESTABLISHED : Z :=
  Z.lor (Z.lor (TCP_STATE_SENT (Z.lor TCP_SYN TCP_ACK)) (TCP_STATE_ACKED TCP_SYN)) (TCP_STATE_RCVD TCP_SYN).
Definition TCP_FIN_WAIT_1 : Z :=
  Z.lor (Z.lor (TCP_STATE_SENT (Z.lor (Z.lor TCP_SYN TCP_ACK) TCP_FIN)) (TCP_STATE_ACKED TCP_SYN))
    (TCP_STATE_RCVD TCP_SYN).
Definition TCP_FIN_WAIT_2 : Z :=
  Z.lor (Z.lor (TCP_STATE_SENT (Z.lor (Z.lor TCP_SYN TCP_ACK) TCP_FIN)) (TCP_STATE_ACKED (Z.lor TCP_SYN TCP_FIN)))
    (TCP_STATE_RCVD TCP_SYN).
Definition TCP_CLOSING_OR_LAST_ACK : Z :=
  Z.lor (Z.lor (TCP_STATE_SENT (Z.lor (Z.lor TCP_SYN TCP_ACK) TCP_FIN)) (TCP_STATE_ACKED TCP_SYN))
    (TCP_STATE_RCVD (Z.lor TCP_SYN TCP_FIN)).
Definition TCP_TIME_WAIT : Z :=
  Z.lor (Z.lor (TCP_STATE_SENT (Z.lor (Z.lor TCP_SYN TCP_ACK) TCP_FIN)) (TCP_STATE_ACKED (Z.lor TCP_SYN TCP_FIN)))
    (TCP_STATE_RCVD (Z.lor TCP_SYN TCP_FIN)).
Definition TCP_CLOSE_WAIT : Z :=
  Z.lor (Z.lor (TCP_STATE_SENT (Z.lor TCP_SYN TCP_ACK)) (TCP_STATE_ACKED TCP_SYN))
    (TCP_STATE_RCVD (Z.lor TCP_SYN TCP_FIN)).

Definition TCP_CAN_SEND_DATA (state : Z) : bool :=
  Z.land state (Z.lor (TCP_STATE_ACKED TCP_SYN) (TCP_STATE_SENT TCP_FIN)) =? TCP_STATE_ACKED TCP_SYN.
Definition TCP_HAS_BEEN_ESTABLISHED (state : Z) : bool :=
  Z.land state (Z.lor (TCP_STATE_ACKED TCP_SYN) (TCP_STATE_RCVD TCP_SYN)) =?
  Z.lor (TCP_STATE_ACKED TCP_SYN) (TCP_STATE_RCVD TCP_SYN).
Definition TCP_CLOSED_GRACEFULLY (state : Z) : bool :=
  Z.land state (Z.lor (TCP_STATE_ACKED TCP_FIN) (TCP_STATE_RCVD TCP_FIN)) =?
  Z.lor (TCP_STATE_ACKED TCP_FIN) (TCP_STATE_RCVD TCP_FIN).

(** A C condition "flags & mask". *)
Definition has (flags mask : Z) : bool := negb (Z.land flags mask =? 0).

Definition TCP_XFER_CLOSED : Z := 0x0001.
Definition TCP_TS_ENABLED : Z := 0x0002.
Definition TCP_ACK_PENDING : Z := 0x0004.

(** ** Constants *)

Definition TCP_OPTION_END : Z := 0.
Definition TCP_OPTION_NOP : Z := 1.
Definition TCP_OPTION_MSS : Z := 2.
Definition TCP_OPTION_WS : Z := 3.
Definition TCP_OPTION_TS : Z := 8.
Definition TCP_RX_WINDOW_SCALE : Z := 9.
Definition TCP_MASK_HLEN : Z := 0xf0.
Definition TCP_MAX_WINDOW_SIZE : Z := 256 * 1024.
Definition TCP_PATH_MTU : Z := 1280 - 40 - 20 - 12.
Definition TCP_MSL `{Ticks} : Z := 2 * 60 * TICKS_PER_SEC.
Definition sizeof_tcp_header : Z := 20.
Definition TCP_MAX_HEADER_LEN : Z := MAX_LL_NET_HEADER_LEN + sizeof_tcp_header + 4 + 4 + 12.

Definition tcp_cmp (seq1 seq2 : Z) : Z := s32 (seq1 - seq2).
Definition tcp_in_window (seq start len : Z) : bool := u32 (seq - start) <? len.

(** ** Connections *)

(** A received packet in the queue: struct tcp_rx_queued_header and the data
    that follows it. *)
Record queued : Type := Queued { q_seq : Z; q_flags : Z; q_data : bytes }.

Record tcp_connection : Type := Tcp {
  flags : Z;
  peer : sockaddr_tcpip;
  local_port : Z;
  mss : Z;
  tcp_state : Z;
  snd_seq : Z;
  snd_sent : Z;
  snd_win : Z;
  rcv_ack : Z;
  rcv_win : Z;
  ts_val : Z;
  ts_recent : Z;
  snd_win_scale : Z;
  rcv_win_scale : Z;
  max_rcv_win : Z;
  tx_queue : list bytes;
  rx_queue : list queued;
  process : bool;
  timer : retry_timer;
  wait : retry_timer;
  pending_flags : Z;
  pending_data : Z;
  deleted : bool;
}.

Definition set_flags (x : Z) (c : tcp_connection) : tcp_connection :=
  Tcp x (peer c) (local_port c) (mss c) (tcp_state c) (snd_seq c) (snd_sent c) (snd_win c) (rcv_ack c)
    (rcv_win c) (ts_val c) (ts_recent c) (snd_win_scale c) (rcv_win_scale c) (max_rcv_win c) (tx_queue c)
    (rx_queue c) (process c) (timer c) (wait c) (pending_flags c) (pending_data c) (deleted c).
Definition set_tcp_state (x : Z) (c : tcp_connection) : tcp_connection :=
  Tcp (flags c) (peer c) (local_port c) (mss c) x (snd_seq c) (snd_sent c) (snd_win c) (rcv_ack c)
    (rcv_win c) (ts_val c) (ts_recent c) (snd_win_scale c) (rcv_win_scale c) (max_rcv_win c) (tx_queue c)
    (rx_queue c) (process c) (timer c) (wait c) (pending_flags c) (pending_data c) (deleted c).
Definition set_snd_seq (x : Z) (c : tcp_connection) : tcp_connection :=
  Tcp (flags c) (peer c) (local_port c) (mss c) (tcp_state c) x (snd_sent c) (snd_win c) (rcv_ack c)
    (rcv_win c) (ts_val c) (ts_recent c) (snd_win_scale c) (rcv_win_scale c) (max_rcv_win c) (tx_queue c)
    (rx_queue c) (process c) (timer c) (wait c) (pending_flags c) (pending_data c) (deleted c).
Definition set_snd_sent (x : Z) (c : tcp_connection) : tcp_connection :=
  Tcp (flags c) (peer c) (local_port c) (mss c) (tcp_state c) (snd_seq c) x (snd_win c) (rcv_ack c)
    (rcv_win c) (ts_val c) (ts_recent c) (snd_win_scale c) (rcv_win_scale c) (max_rcv_win c) (tx_queue c)
    (rx_queue c) (process c) (timer c) (wait c) (pending_flags c) (pending_data c) (deleted c).
Definition set_snd_win (x : Z) (c : tcp_connection) : tcp_connection :=
  Tcp (flags c) (peer c) (local_port c) (mss c) (tcp_state c) (snd_seq c) (snd_sent c) x (rcv_ack c)
    (rcv_win c) (ts_val c) (ts_recent c) (snd_win_scale c) (rcv_win_scale c) (max_rcv_win c) (tx_queue c)
    (rx_queue c) (process c) (timer c) (wait c) (pending_flags c) (pending_data c) (deleted c).
Definition set_rcv_ack (x : Z) (c : tcp_connection) : tcp_connection :=
  Tcp (flags c) (peer c) (local_port c) (mss c) (tcp_state c) (snd_seq c) (snd_sent c) (snd_win c) x
    (rcv_win c) (ts_val c) (ts_recent c) (snd_win_scale c) (rcv_win_scale c) (max_rcv_win c) (tx_queue c)
    (rx_queue c) (process c) (timer c) (wait c) (pending_flags c) (pending_data c) (deleted c).
Definition set_rcv_win (x : Z) (c : tcp_connection) : tcp_connection :=
  Tcp (flags c) (peer c) (local_port c) (mss c) (tcp_state c) (snd_seq c) (snd_sent c) (snd_win c)
    (rcv_ack c) x (ts_val c) (ts_recent c) (snd_win_scale c) (rcv_win_scale c) (max_rcv_win c) (tx_queue c)
    (rx_queue c) (process c) (timer c) (wait c) (pending_flags c) (pending_data c) (deleted c).
Definition set_ts_val (x : Z) (c : tcp_connection) : tcp_connection :=
  Tcp (flags c) (peer c) (local_port c) (mss c) (tcp_state c) (snd_seq c) (snd_sent c) (snd_win c)
    (rcv_ack c) (rcv_win c) x (ts_recent c) (snd_win_scale c) (rcv_win_scale c) (max_rcv_win c) (tx_queue c)
    (rx_queue c) (process c) (timer c) (wait c) (pending_flags c) (pending_data c) (deleted c).
Definition set_ts_recent (x : Z) (c : tcp_connection) : tcp_connection :=
  Tcp (flags c) (peer c) (local_port c) (mss c) (tcp_state c) (snd_seq c) (snd_sent c) (snd_win c)
    (rcv_ack c) (rcv_win c) (ts_val c) x (snd_win_scale c) (rcv_win_scale c) (max_rcv_win c) (tx_queue c)
    (rx_queue c) (process c) (timer c) (wait c) (pending_flags c) (pending_data c) (deleted c).
Definition set_snd_win_scale (x : Z) (c : tcp_connection) : tcp_connection :=
  Tcp (flags c) (peer c) (local_port c) (mss c) (tcp_state c) (snd_seq c) (snd_sent c) (snd_win c)
    (rcv_ack c) (rcv_win c) (ts_val c) (ts_recent c) x (rcv_win_scale c) (max_rcv_win c) (tx_queue c)
    (rx_queue c) (process c) (timer c) (wait c) (pending_flags c) (pending_data c) (deleted c).
Definition set_rcv_win_scale (x : Z) (c : tcp_connection) : tcp_connection :=
  Tcp (flags c) (peer c) (local_port c) (mss c) (tcp_state c) (snd_seq c) (snd_sent c) (snd_win c)
    (rcv_ack c) (rcv_win c) (ts_val c) (ts_recent c) (snd_win_scale c) x (max_rcv_win c) (tx_queue c)
    (rx_queue c) (process c) (timer c) (wait c) (pending_flags c) (pending_data c) (deleted c).
Definition set_max_rcv_win (x : Z) (c : tcp_connection) : tcp_connection :=
  Tcp (flags c) (peer c) (local_port c) (mss c) (tcp_state c) (snd_seq c) (snd_sent c) (snd_win c)
    (rcv_ack c) (rcv_win c) (ts_val c) (ts_recent c) (snd_win_scale c) (rcv_win_scale c) x (tx_queue c)
    (rx_queue c) (process c) (timer c) (wait c) (pending_flags c) (pending_data c) (deleted c).
Definition set_tx_queue (x : list bytes) (c : tcp_connection) : tcp_connection :=
  Tcp (flags c) (peer c) (local_port c) (mss c) (tcp_state c) (snd_seq c) (snd_sent c) (snd_win c)
    (rcv_ack c) (rcv_win c) (ts_val c) (ts_recent c) (snd_win_scale c) (rcv_win_scale c) (max_rcv_win c) x
    (rx_queue c) (process c) (timer c) (wait c) (pending_flags c) (pending_data c) (deleted c).
Definition set_rx_queue (x : list queued) (c : tcp_connection) : tcp_connection :=
  Tcp (flags c) (peer c) (local_port c) (mss c) (tcp_state c) (snd_seq c) (snd_sent c) (snd_win c)
    (rcv_ack c) (rcv_win c) (ts_val c) (ts_recent c) (snd_win_scale c) (rcv_win_scale c) (max_rcv_win c)
    (tx_queue c) x (process c) (timer c) (wait c) (pending_flags c) (pending_data c) (deleted c).
Definition set_process (x : bool) (c : tcp_connection) : tcp_connection :=
  Tcp (flags c) (peer c) (local_port c) (mss c) (tcp_state c) (snd_seq c) (snd_sent c) (snd_win c)
    (rcv_ack c) (rcv_win c) (ts_val c) (ts_recent c) (snd_win_scale c) (rcv_win_scale c) (max_rcv_win c)
    (tx_queue c) (rx_queue c) x (timer c) (wait c) (pending_flags c) (pending_data c) (deleted c).
Definition set_timer (x : retry_timer) (c : tcp_connection) : tcp_connection :=
  Tcp (flags c) (peer c) (local_port c) (mss c) (tcp_state c) (snd_seq c) (snd_sent c) (snd_win c)
    (rcv_ack c) (rcv_win c) (ts_val c) (ts_recent c) (snd_win_scale c) (rcv_win_scale c) (max_rcv_win c)
    (tx_queue c) (rx_queue c) (process c) x (wait c) (pending_flags c) (pending_data c) (deleted c).
Definition set_wait (x : retry_timer) (c : tcp_connection) : tcp_connection :=
  Tcp (flags c) (peer c) (local_port c) (mss c) (tcp_state c) (snd_seq c) (snd_sent c) (snd_win c)
    (rcv_ack c) (rcv_win c) (ts_val c) (ts_recent c) (snd_win_scale c) (rcv_win_scale c) (max_rcv_win c)
    (tx_queue c) (rx_queue c) (process c) (timer c) x (pending_flags c) (pending_data c) (deleted c).
Definition set_pending_flags (x : Z) (c : tcp_connection) : tcp_connection :=
  Tcp (flags c) (peer c) (local_port c) (mss c) (tcp_state c) (snd_seq c) (snd_sent c) (snd_win c)
    (rcv_ack c) (rcv_win c) (ts_val c) (ts_recent c) (snd_win_scale c) (rcv_win_scale c) (max_rcv_win c)
    (tx_queue c) (rx_queue c) (process c) (timer c) (wait c) x (pending_data c) (deleted c).
Definition set_pending_data (x : Z) (c : tcp_connection) : tcp_connection :=
  Tcp (flags c) (peer c) (local_port c) (mss c) (tcp_state c) (snd_seq c) (snd_sent c) (snd_win c)
    (rcv_ack c) (rcv_win c) (ts_val c) (ts_recent c) (snd_win_scale c) (rcv_win_scale c) (max_rcv_win c)
    (tx_queue c) (rx_queue c) (process c) (timer c) (wait c) (pending_flags c) x (deleted c).
Definition set_deleted (x : bool) (c : tcp_connection) : tcp_connection :=
  Tcp (flags c) (peer c) (local_port c) (mss c) (tcp_state c) (snd_seq c) (snd_sent c) (snd_win c)
    (rcv_ack c) (rcv_win c) (ts_val c) (ts_recent c) (snd_win_scale c) (rcv_win_scale c) (max_rcv_win c)
    (tx_queue c) (rx_queue c) (process c) (timer c) (wait c) (pending_flags c) (pending_data c) x.

(** Reduce projections of updated connections. *)
Ltac tcp_simpl :=
  cbn [flags peer local_port mss tcp_state snd_seq snd_sent snd_win rcv_ack rcv_win ts_val ts_recent snd_win_scale rcv_win_scale max_rcv_win tx_queue rx_queue process timer wait pending_flags pending_data deleted
       set_flags set_tcp_state set_snd_seq set_snd_sent set_snd_win set_rcv_ack set_rcv_win set_ts_val set_ts_recent set_snd_win_scale set_rcv_win_scale set_max_rcv_win set_tx_queue set_rx_queue set_process set_timer set_wait set_pending_flags set_pending_data set_deleted].
Tactic Notation "tcp_simpl" "in" hyp(H) :=
  cbn [flags peer local_port mss tcp_state snd_seq snd_sent snd_win rcv_ack rcv_win ts_val ts_recent snd_win_scale rcv_win_scale max_rcv_win tx_queue rx_queue process timer wait pending_flags pending_data deleted
       set_flags set_tcp_state set_snd_seq set_snd_sent set_snd_win set_rcv_ack set_rcv_win set_ts_val set_ts_recent set_snd_win_scale set_rcv_win_scale set_max_rcv_win set_tx_queue set_rx_queue set_process set_timer set_wait set_pending_flags set_pending_data set_deleted] in H.

(** ** Pending operations (src/core/pending.c) *)

Definition pending_get (count : Z) : Z := u32 (count + 1).
Definition pending_put (count : Z) : Z := if negb (count =? 0) then u32 (count - 1) else count.

(** ** The rest of the program *)

(** The exchanges between the connection and the rest of the program, in order:
    packets passed to the network layer, data accepted from and delivered to the
    application, and notifications of the application. *)
Inductive event : Type :=
| EvTx (packet : bytes)
| EvSend (data : bytes)
| EvDeliver (data : bytes)
| EvShutdown (rc : option errno)
| EvWindowChanged.

(** The code around a connection.  Any of it may allocate memory and so run the
    cache discarders on the connection, which are counted in a [nat]. *)
Class TcpEnv := {
  env : Type;
  currticks : env → Z;
  (** alloc_iob: whether it succeeded. *)
  alloc_iob : Z → env → bool * nat * env;
  (** tcpip_tx ( iobuf, &tcp_protocol, NULL, st_dest, NULL, &tcphdr->csum ) *)
  tcpip_tx_tcp : bytes → sockaddr_tcpip → env → res unit * nat * env;
  (** xfer_window ( &tcp->xfer ) *)
  xfer_window : env → Z;
  (** intf_shutdown ( &tcp->xfer, rc ): afterwards the application can no
      longer call the connection. *)
  intf_shutdown : option errno → env → nat * env;
}.

Section tcp.
Context `{Platform, Ticks, TcpEnv}.

Record world : Type := World {
  conn : tcp_connection;
  ext : env;
  log : list event;
}.

Definition upd (f : tcp_connection → tcp_connection) (w : world) : world := World (f (conn w)) (ext w) (log w).
Definition now (w : world) : Z := currticks (ext w).

(** The body of tcp_discard for one connection: drop the last queued packet and
    limit the window to exclude it. *)
Definition discard_one (tcp : tcp_connection) : tcp_connection :=
  match rev (rx_queue tcp) with
  | [] => tcp
  | q :: rest =>
      let max_win := u32 (q_seq q - rcv_ack tcp) in
      let tcp := if max_win <? max_rcv_win tcp then set_max_rcv_win max_win tcp else tcp in
      set_rx_queue (rev rest) tcp
  end.

Definition tcp_discard (tcp_conns : list tcp_connection) : Z * list tcp_connection :=
  (Zlen (filter (λ tcp, rx_queue tcp ≠ []) tcp_conns), discard_one <$> tcp_conns).

Definition discards (n : nat) (w : world) : world := upd (Nat.iter n discard_one) w.

(** ** Transmit data path *)

Definition tcp_xmit_win (tcp : tcp_connection) : Z :=
  if negb (TCP_CAN_SEND_DATA (tcp_state tcp)) then 0
  else
    let len := snd_win tcp in
    if TCP_PATH_MTU <? len then TCP_PATH_MTU else len.

Definition tcp_xfer_window (tcp : tcp_connection) : Z :=
  match tx_queue tcp with
  | [] => tcp_xmit_win tcp
  | _ => 0
  end.

(** The loop of tcp_process_tx_queue: the length processed, the destination
    buffer, and the remaining queue with its count of pending operations. *)
Fixpoint process_tx_loop (queue : list bytes) (max_len : Z) (dest : option bytes) (remove : bool) (pending : Z)
    : Z * option bytes * list bytes * Z :=
  match queue with
  | [] => (0, dest, [], pending)
  | iobuf :: queue =>
      let frag_len := if max_len <? Zlen iobuf then max_len else Zlen iobuf in
      let dest := (λ d, d ++ take (Z.to_nat frag_len) iobuf) <$> dest in
      let '(kept, pending) :=
        if remove then
          let iobuf := drop (Z.to_nat frag_len) iobuf in
          if Zlen iobuf =? 0 then ([], pending_put pending) else ([iobuf], pending)
        else ([iobuf], pending) in
      let '(len, dest, queue, pending) := process_tx_loop queue (max_len - frag_len) dest remove pending in
      (frag_len + len, dest, kept ++ queue, pending)
  end.

Definition tcp_process_tx_queue (tcp : tcp_connection) (max_len : Z) (dest : option bytes) (remove : bool)
    : Z * option bytes * tcp_connection :=
  let '(len, dest, queue, pending) := process_tx_loop (tx_queue tcp) max_len dest remove (pending_data tcp) in
  (len, dest, set_pending_data pending (set_tx_queue queue tcp)).

(** A TCP header with its fields in network order, the checksum given. *)
Definition tcp_header (src dest seq ack hlen flags win csum : bytes) : bytes :=
  src ++ dest ++ seq ++ ack ++ hlen ++ flags ++ win ++ csum ++ [0; 0].

(** Fill in the checksum computed over the packet with a zero one. *)
Definition with_csum (packet : bytes → bytes) : bytes :=
  packet (le_split 2 (tcpip_chksum (packet [0; 0]))).

Definition mss_option (mss : Z) : bytes := TCP_OPTION_MSS :: 4 :: be_split 2 mss.
Definition window_scale_padded_option : bytes := [TCP_OPTION_NOP; TCP_OPTION_WS; 3; TCP_RX_WINDOW_SCALE].
Definition timestamp_padded_option (tsval tsecr : Z) : bytes :=
  TCP_OPTION_NOP :: TCP_OPTION_NOP :: TCP_OPTION_TS :: 10 :: be_split 4 tsval ++ be_split 4 tsecr.

(** The options of an outgoing packet: they are pushed in reverse order. *)
Definition tx_options (tcp : tcp_connection) (flags now : Z) : bytes :=
  (if has flags TCP_SYN || has (Tcp.flags tcp) TCP_TS_ENABLED
   then timestamp_padded_option now (ts_recent tcp) else []) ++
  (if has flags TCP_SYN then window_scale_padded_option ++ mss_option (mss tcp) else []).

(** The packet built by tcp_xmit for the given flags and payload. *)
Definition tx_packet (tcp : tcp_connection) (flags now : Z) (payload : bytes) : bytes :=
  let options := tx_options tcp flags now in
  let flags := if negb (Zlen payload =? 0) then Z.lor flags TCP_PSH else flags in
  let hlen := u8 (Z.shiftl (sizeof_tcp_header + Zlen options) 2) in
  with_csum (λ csum,
    tcp_header (be_split 2 (local_port tcp)) (le_split 2 (st_port (peer tcp))) (be_split 4 (snd_seq tcp))
      (be_split 4 (rcv_ack tcp)) [hlen] [u8 flags]
      (be_split 2 (Z.shiftr (rcv_win tcp) (rcv_win_scale tcp))) csum ++
    options ++ payload).

(** Expand receive window if possible. *)
Definition expand_rcv_win (xfer_win : Z) (tcp : tcp_connection) : tcp_connection :=
  let win := max_rcv_win tcp in
  let app_win := u32 xfer_win in
  let win := if app_win <? win then app_win else win in
  let max_representable_win := u32 (Z.shiftl 0xffff (rcv_win_scale tcp)) in
  let win := if max_representable_win <? win then max_representable_win else win in
  let win := Z.land win (Z.lnot 0x03) in
  if rcv_win tcp <? win then set_rcv_win win tcp else tcp.

(** The sequence space to be sent: the data length and the flags. *)
Definition xmit_len (tcp : tcp_connection) : Z :=
  if TCP_CAN_SEND_DATA (tcp_state tcp)
  then (tcp_process_tx_queue tcp (tcp_xmit_win tcp) None false).1.1 else 0.

Definition xmit_seq_len (tcp : tcp_connection) : Z :=
  let seq_len := u32 (xmit_len tcp) in
  if has (TCP_FLAGS_SENDING (tcp_state tcp)) (Z.lor TCP_SYN TCP_FIN) then u32 (seq_len + 1) else seq_len.

Definition tcp_xmit (w : world) : world :=
  (* If retransmission timer is already running, do nothing *)
  if timer_running (timer (conn w)) then w
  else
    let len := xmit_len (conn w) in
    let seq_len := xmit_seq_len (conn w) in
    let flags := TCP_FLAGS_SENDING (tcp_state (conn w)) in
    let w := upd (set_snd_sent seq_len) w in
    (* If we have nothing to transmit, stop now *)
    if (seq_len =? 0) && negb (has (Tcp.flags (conn w)) TCP_ACK_PENDING) then w
    else
      let w := if negb (seq_len =? 0)
               then upd (λ tcp, set_timer (start_timer (now w) (timer tcp)) tcp) w else w in
      (* Allocate I/O buffer *)
      let '(ok, n, e) := alloc_iob (len + TCP_MAX_HEADER_LEN) (ext w) in
      let w := discards n (World (conn w) e (log w)) in
      if negb ok then w
      else
        (* Fill data payload from transmit queue *)
        let payload := default [] (tcp_process_tx_queue (conn w) len (Some []) false).1.2 in
        let w := upd (expand_rcv_win (xfer_window (ext w))) w in
        let packet := tx_packet (conn w) flags (now w) payload in
        (* Transmit packet *)
        let '(rc, n, e) := tcpip_tx_tcp packet (peer (conn w)) (ext w) in
        let w := discards n (World (conn w) e (log w ++ [EvTx packet])) in
        match rc with
        | Err _ => w
        | Ok _ =>
            (* Clear ACK-pending flag *)
            upd (λ tcp, set_flags (Z.land (Tcp.flags tcp) (Z.lnot TCP_ACK_PENDING)) tcp) w
        end.

(** ** Acknowledgement and close *)

(** [now] is the time at which the retransmission timer is stopped. *)
Definition tcp_rx_ack (now : Z) (tcp : tcp_connection) (ack win : Z) : res unit * tcp_connection :=
  let ack_len := u32 (ack - snd_seq tcp) in
  (* Check for out-of-range or old duplicate ACKs *)
  if snd_sent tcp <? ack_len then
    if TCP_HAS_BEEN_ESTABLISHED (tcp_state tcp) then (Ok tt, tcp) else (Err EINVAL, tcp)
  else
    (* Update window size *)
    let tcp := set_snd_win win tcp in
    (* Ignore ACKs that don't actually acknowledge any new data *)
    if ack_len =? 0 then (Ok tt, tcp)
    else
      (* Stop the retransmission timer *)
      let tcp := set_timer (stop_timer now (timer tcp)) tcp in
      (* Determine acknowledged flags and data length *)
      let acked_flags := Z.land (TCP_FLAGS_SENDING (tcp_state tcp)) (Z.lor TCP_SYN TCP_FIN) in
      let len := if negb (acked_flags =? 0) then ack_len - 1 else ack_len in
      let tcp := if negb (acked_flags =? 0)
                 then set_pending_flags (pending_put (pending_flags tcp)) tcp else tcp in
      (* Update SEQ and sent counters *)
      let tcp := set_snd_sent 0 (set_snd_seq ack tcp) in
      (* Remove any acknowledged data from transmit queue *)
      let tcp := (tcp_process_tx_queue tcp len None true).2 in
      (* Mark SYN/FIN as acknowledged if applicable *)
      let tcp := if negb (acked_flags =? 0)
                 then set_tcp_state (Z.lor (tcp_state tcp) (TCP_STATE_ACKED acked_flags)) tcp else tcp in
      (* Start sending FIN if we've had all possible data ACKed *)
      let tcp :=
        if bool_decide (tx_queue tcp = []) && has (Tcp.flags tcp) TCP_XFER_CLOSED &&
           negb (has (tcp_state tcp) (TCP_STATE_SENT TCP_FIN))
        then set_pending_flags (pending_get (pending_flags tcp))
               (set_tcp_state (Z.lor (tcp_state tcp) (TCP_STATE_SENT TCP_FIN)) tcp)
        else tcp in
      (Ok tt, tcp).

(** Delete a connection that has not received a SYN. *)
Definition delete_conn (now : Z) (tcp : tcp_connection) : tcp_connection :=
  let tcp := set_tcp_state TCP_CLOSED tcp in
  let tcp := set_rx_queue [] tcp in
  let tcp := set_pending_data (Nat.iter (length (tx_queue tcp)) pending_put (pending_data tcp)) tcp in
  let tcp := set_tx_queue [] tcp in
  let tcp := set_pending_flags (pending_put (pending_put (pending_flags tcp))) tcp in
  let tcp := set_process false tcp in
  let tcp := set_timer (stop_timer now (timer tcp)) tcp in
  let tcp := set_wait (stop_timer now (wait tcp)) tcp in
  set_deleted true tcp.

(** Start sending FIN, if we have no data remaining to send. *)
Definition start_fin (tcp : tcp_connection) : tcp_connection :=
  if bool_decide (tx_queue tcp = []) && negb (has (tcp_state tcp) (TCP_STATE_SENT TCP_FIN))
  then set_pending_flags (pending_get (pending_flags tcp))
         (set_tcp_state (Z.lor (tcp_state tcp) (TCP_STATE_SENT TCP_FIN)) tcp)
  else tcp.

Definition tcp_close (rc : option errno) (w : world) : world :=
  (* Close data transfer interface *)
  let '(n, e) := intf_shutdown rc (ext w) in
  let w := discards n (World (conn w) e (log w ++ [EvShutdown rc])) in
  let w := upd (λ tcp, set_flags (Z.lor (Tcp.flags tcp) TCP_XFER_CLOSED) tcp) w in
  if negb (has (tcp_state (conn w)) (TCP_STATE_RCVD TCP_SYN)) then upd (delete_conn (now w)) w
  else
    (* If we have not had our SYN acknowledged, pretend that it has been *)
    let w :=
      if negb (has (tcp_state (conn w)) (TCP_STATE_ACKED TCP_SYN))
      then upd (λ tcp, (tcp_rx_ack (now w) tcp (u32 (snd_seq tcp + 1)) 0).2) w
      else w in
    upd start_fin w.

(** ** Timers *)

Definition tcp_expired (over : bool) (w : world) : world :=
  if over then tcp_close (Some ETIMEDOUT) (upd (set_tcp_state TCP_CLOSED) w)
  else tcp_xmit w.

Definition tcp_wait_expired (w : world) : world := tcp_close None (upd (set_tcp_state TCP_CLOSED) w).

(** ** Data transfer interface *)

Definition tcp_xfer_close (rc : option errno) (w : world) : world := tcp_xmit (tcp_close rc w).

Definition tcp_xfer_deliver (iobuf : bytes) (w : world) : world :=
  let w := upd (λ tcp, set_tx_queue (tx_queue tcp ++ [iobuf]) tcp) w in
  let w := upd (λ tcp, set_pending_data (pending_get (pending_data tcp)) tcp) w in
  tcp_xmit (World (conn w) (ext w) (log w ++ [EvSend iobuf])).

(** What the application may do when it is called: it can change its own state,
    allocate memory, and, while the data transfer interface is open, send data
    or close the connection. *)
Inductive app_calls : world → world → Prop :=
| app_none w : app_calls w w
| app_ext w e w' : app_calls (World (conn w) e (log w)) w' → app_calls w w'
| app_discard w w' : app_calls (upd discard_one w) w' → app_calls w w'
| app_send iobuf w w' :
    has (Tcp.flags (conn w)) TCP_XFER_CLOSED = false → app_calls (tcp_xfer_deliver iobuf w) w' → app_calls w w'
| app_close rc w w' :
    has (Tcp.flags (conn w)) TCP_XFER_CLOSED = false → app_calls (tcp_xfer_close rc w) w' → app_calls w w'.

Class XferPeer := {
  xfer_deliver_iob : bytes → world → res unit * world;
  xfer_window_changed : world → world;
  xfer_deliver_calls data w : app_calls w (xfer_deliver_iob data w).2;
  xfer_window_changed_calls w : app_calls w (xfer_window_changed w);
}.

(** ** Receive data path *)

(** The parsed options point into the packet: each is the rest of the packet
    from the option on. *)
Record tcp_options : Type := Options {
  mssopt : option bytes;
  wsopt : option bytes;
  tsopt : option bytes;
}.

(** The loop of tcp_rx_opts; [len] is the length up to the end of the options.
    A zero-length option is never left behind: [None] is not returning. *)
Fixpoint rx_opts_loop (fuel : nat) (data : bytes) (len : Z) (options : tcp_options) : option tcp_options :=
  match fuel with
  | O => None
  | S fuel =>
      if len <=? 0 then Some options
      else
        let kind := byte data 0 in
        if kind =? TCP_OPTION_END then Some options
        else if kind =? TCP_OPTION_NOP then rx_opts_loop fuel (drop 1 data) (len - 1) options
        else
          let options :=
            if kind =? TCP_OPTION_MSS then Options (Some data) (wsopt options) (tsopt options)
            else if kind =? TCP_OPTION_WS then Options (mssopt options) (Some data) (tsopt options)
            else if kind =? TCP_OPTION_TS then Options (mssopt options) (wsopt options) (Some data)
            else options in
          let length := byte data 1 in
          rx_opts_loop fuel (drop (Z.to_nat length) data) (len - length) options
  end.

(** Every iteration that advances consumes at least one byte of at most 40. *)
Definition tcp_rx_opts (data : bytes) (len : Z) : option tcp_options :=
  rx_opts_loop (Z.to_nat len + 1) data len (Options None None None).

Definition tcp_rx_seq (tcp : tcp_connection) (seq_len : Z) : tcp_connection :=
  let tcp := set_rcv_ack (u32 (rcv_ack tcp + seq_len)) tcp in
  let tcp := set_rcv_win (if seq_len <? rcv_win tcp then u32 (rcv_win tcp - seq_len) else 0) tcp in
  let tcp := set_ts_recent (ts_val tcp) tcp in
  set_flags (Z.lor (Tcp.flags tcp) TCP_ACK_PENDING) tcp.

Definition tcp_rx_syn (tcp : tcp_connection) (seq : Z) (options : tcp_options) : tcp_connection :=
  (* Synchronise sequence numbers on first SYN *)
  let tcp :=
    if negb (has (tcp_state tcp) (TCP_STATE_RCVD TCP_SYN)) then
      let tcp := set_rcv_ack seq tcp in
      let tcp := match tsopt options with
                 | Some _ => set_flags (Z.lor (Tcp.flags tcp) TCP_TS_ENABLED) tcp
                 | None => tcp
                 end in
      match wsopt options with
      | Some opt => set_rcv_win_scale TCP_RX_WINDOW_SCALE (set_snd_win_scale (byte opt 2) tcp)
      | None => tcp
      end
    else tcp in
  (* Ignore duplicate SYN *)
  if negb (seq =? rcv_ack tcp) then tcp
  else
    let tcp := tcp_rx_seq tcp 1 in
    set_tcp_state (Z.lor (tcp_state tcp) (Z.lor (TCP_STATE_SENT TCP_ACK) (TCP_STATE_RCVD TCP_SYN))) tcp.

Definition tcp_rx_rst (seq : Z) (w : world) : res unit * world :=
  let tcp := conn w in
  let ignore :=
    if has (tcp_state tcp) (TCP_STATE_RCVD TCP_SYN)
    then negb (tcp_in_window seq (rcv_ack tcp) (rcv_win tcp))
    else negb (has (tcp_state tcp) (TCP_STATE_ACKED TCP_SYN)) in
  if ignore then (Ok tt, w)
  else (Err ECONNRESET, tcp_close (Some ECONNRESET) (upd (set_tcp_state TCP_CLOSED) w)).

(** Insertion before the first packet with a later sequence number. *)
Fixpoint enqueue_loop (q : queued) (queue : list queued) : list queued :=
  match queue with
  | [] => [q]
  | q' :: rest => if tcp_cmp (q_seq q) (q_seq q') <? 0 then q :: q' :: rest else q' :: enqueue_loop q rest
  end.

Definition tcp_rx_enqueue (tcp : tcp_connection) (seq flags : Z) (iobuf : bytes) : tcp_connection :=
  let flags := Z.land flags TCP_FIN in
  let len := Zlen iobuf in
  let seq_len := u32 (len + (if negb (flags =? 0) then 1 else 0)) in
  if negb (has (tcp_state tcp) (TCP_STATE_RCVD TCP_SYN)) ||
     (0 <=? tcp_cmp seq (rcv_ack tcp + rcv_win tcp)) ||
     (tcp_cmp (seq + seq_len) (rcv_ack tcp) <? 0) ||
     (seq_len =? 0)
  then tcp
  else set_rx_queue (enqueue_loop (Queued seq flags iobuf) (rx_queue tcp)) tcp.

Definition tcp_rx_fin (seq : Z) (w : world) : world :=
  if negb (seq =? rcv_ack (conn w)) then w
  else
    let w := upd (λ tcp, tcp_rx_seq tcp 1) w in
    let w := upd (λ tcp, set_tcp_state (Z.lor (tcp_state tcp) (TCP_STATE_RCVD TCP_FIN)) tcp) w in
    tcp_close None w.

Context `{XferPeer}.

Definition tcp_rx_data (seq : Z) (iobuf : bytes) (w : world) : res unit * world :=
  let already_rcvd := u32 (rcv_ack (conn w) - seq) in
  let len := u32 (Zlen iobuf) in
  (* Ignore duplicate or out-of-order data *)
  if len <=? already_rcvd then (Ok tt, w)
  else
    let iobuf := drop (Z.to_nat already_rcvd) iobuf in
    let len := len - already_rcvd in
    (* Acknowledge new data *)
    let w := upd (λ tcp, tcp_rx_seq tcp len) w in
    (* Deliver data to application *)
    xfer_deliver_iob iobuf (World (conn w) (ext w) (log w ++ [EvDeliver iobuf])).

(** The loop of tcp_process_rx_queue; an iteration removes a packet, and nothing
    it calls adds one ([process_rx_loop_spec]). *)
Fixpoint process_rx_loop (fuel : nat) (w : world) : option world :=
  match rx_queue (conn w) with
  | [] => Some w
  | q :: rest =>
      (* Stop processing when we hit the first gap *)
      if 0 <? tcp_cmp (q_seq q) (rcv_ack (conn w)) then Some w
      else
        match fuel with
        | O => None
        | S fuel =>
            let w := upd (set_rx_queue rest) w in
            let seq := q_seq q in
            let w := (tcp_rx_data seq (q_data q) w).2 in
            let seq := u32 (seq + Zlen (q_data q)) in
            let w := if has (q_flags q) TCP_FIN then tcp_rx_fin seq w else w in
            process_rx_loop fuel w
        end
  end.

Definition tcp_process_rx_queue (w : world) : option world :=
  process_rx_loop (length (rx_queue (conn w))) w.

(** *** Packets *)

Definition tcp_demux (tcp_conns : list tcp_connection) (port : Z) : option tcp_connection :=
  list_find (λ tcp, local_port tcp = port) tcp_conns ≫= λ '(_, tcp), Some tcp.

(** Fields of a received header, by their offsets in struct tcp_header. *)
Definition hdr_src (packet : bytes) : bytes := field packet 0 2.
Definition hdr_dest (packet : bytes) : bytes := field packet 2 2.
Definition hdr_seq (packet : bytes) : bytes := field packet 4 4.
Definition hdr_ack (packet : bytes) : bytes := field packet 8 4.
Definition hdr_hlen (packet : bytes) : Z := byte packet 12.
Definition hdr_flags (packet : bytes) : Z := byte packet 13.
Definition hdr_win (packet : bytes) : bytes := field packet 14 2.

Definition tcp_xmit_reset (st_dest : sockaddr_tcpip) (in_tcphdr : bytes) (w : world) : res unit * world :=
  let '(ok, n, e) := alloc_iob TCP_MAX_HEADER_LEN (ext w) in
  let w := discards n (World (conn w) e (log w)) in
  if negb ok then (Err ENOMEM, w)
  else
    let packet :=
      with_csum (tcp_header (hdr_dest in_tcphdr) (hdr_src in_tcphdr) (hdr_ack in_tcphdr) (hdr_seq in_tcphdr)
                   [Z.shiftl (sizeof_tcp_header / 4) 4] [Z.lor TCP_RST TCP_ACK] (be_split 2 0)) in
    let '(rc, n, e) := tcpip_tx_tcp packet st_dest (ext w) in
    (rc, discards n (World (conn w) e (log w ++ [EvTx packet]))).

(** Sanity checks on a received packet, and the header length. *)
Definition rx_check (packet : bytes) (pshdr_csum : Z) : res Z :=
  if Zlen packet <? sizeof_tcp_header then Err EINVAL
  else
    let hlen := Z.land (hdr_hlen packet) TCP_MASK_HLEN / 16 * 4 in
    if hlen <? sizeof_tcp_header then Err EINVAL
    else if Zlen packet <? hlen then Err EINVAL
    else if negb (generic_tcpip_continue_chksum pshdr_csum packet =? 0) then Err EINVAL
    else Ok hlen.

(** The last part of tcp_rx. *)
Definition rx_finish (old_xfer_window : Z) (w : world) : world :=
  (* Schedule transmission of ACK (and any pending data) *)
  let w := if bool_decide (rx_queue (conn w) = []) then upd (set_process true) w else tcp_xmit w in
  (* If this packet was the last we expect to receive, set up timer *)
  let w :=
    if TCP_CLOSED_GRACEFULLY (tcp_state (conn w))
    then upd (λ tcp, set_wait (start_timer_fixed (now w) (2 * TCP_MSL) (stop_timer (now w) (wait tcp))) tcp) w
    else w in
  (* Notify application if window has changed *)
  if negb (tcp_xfer_window (conn w) =? old_xfer_window)
  then xfer_window_changed (World (conn w) (ext w) (log w ++ [EvWindowChanged]))
  else w.

(** The handling of a packet for the connection, once its header is parsed. *)
Definition tcp_rx_parsed (st_src : sockaddr_tcpip) (packet : bytes) (options : tcp_options) (payload : bytes)
    (w : world) : option (res unit * world) :=
  let seq := be_combine (hdr_seq packet) in
  let ack := be_combine (hdr_ack packet) in
  let raw_win := be_combine (hdr_win packet) in
  let flags := hdr_flags packet in
  (* Record old data-transfer window *)
  let old_xfer_window := tcp_xfer_window (conn w) in
  (* Handle ACK, if present *)
  let '(rc, tcp) :=
    if has flags TCP_ACK
    then tcp_rx_ack (now w) (conn w) ack (u32 (Z.shiftl raw_win (snd_win_scale (conn w))))
    else (Ok tt, conn w) in
  let w := World tcp (ext w) (log w) in
  match rc with
  | Err e => Some (Err e, (tcp_xmit_reset st_src packet w).2)
  | Ok _ =>
      (* Force an ACK if this packet is out of order *)
      let w :=
        if has (tcp_state (conn w)) (TCP_STATE_RCVD TCP_SYN) && negb (seq =? rcv_ack (conn w))
        then upd (λ tcp, set_flags (Z.lor (Tcp.flags tcp) TCP_ACK_PENDING) tcp) w else w in
      (* Handle SYN, if present *)
      let '(w, seq) :=
        if has flags TCP_SYN then (upd (λ tcp, tcp_rx_syn tcp seq options) w, u32 (seq + 1)) else (w, seq) in
      (* Handle RST, if present *)
      let '(rc, w) := if has flags TCP_RST then tcp_rx_rst seq w else (Ok tt, w) in
      match rc with
      | Err e => Some (Err e, w)
      | Ok _ =>
          (* Enqueue received data *)
          let w := upd (λ tcp, tcp_rx_enqueue tcp seq flags payload) w in
          (* Process receive queue *)
          match tcp_process_rx_queue w with
          | None => None
          | Some w =>
              Some (Ok tt, rx_finish old_xfer_window w)
          end
      end
  end.

(** The list of connections is searched for the packet's port; as ports are not
    shared, the connection of the world is found exactly for its own port.
    [None] is not returning. *)
Definition tcp_rx (packet : bytes) (st_src : sockaddr_tcpip) (pshdr_csum : Z) (w : world)
    : option (res unit * world) :=
  match rx_check packet pshdr_csum with
  | Err e => Some (Err e, w)
  | Ok hlen =>
      let tcp := tcp_demux [conn w] (be_combine (hdr_dest packet)) in
      match tcp_rx_opts (drop (Z.to_nat sizeof_tcp_header) packet) (hlen - sizeof_tcp_header) with
      | None => None
      | Some options =>
          match tcp with
          | None => Some (Err ENOTCONN, w)
          | Some _ =>
              let w :=
                match tsopt options with
                | Some opt => upd (set_ts_val (be_combine (field opt 2 4))) w
                | None => w
                end in
              tcp_rx_parsed st_src packet options (drop (Z.to_nat hlen) packet) w
          end
      end
  end.

(** ** Open and shutdown *)

Definition tcp_port_available (tcp_conns : list tcp_connection) (port : Z) : res Z :=
  match tcp_demux tcp_conns port with Some _ => Err EADDRINUSE | None => Ok port end.

(** [zalloc_ok] is whether the allocation of the connection succeeds, [mtu] what
    tcpip_mtu returns for the peer, and [random] and [random'] the two random
    numbers drawn.  The new connection is the head of the list. *)
Definition tcp_open (tcp_conns : list tcp_connection) (st_peer : sockaddr_tcpip)
    (st_local : option sockaddr_tcpip) (zalloc_ok : bool) (now random random' mtu : Z)
    : res unit * list tcp_connection :=
  if negb zalloc_ok then (Err ENOMEM, tcp_conns)
  else if mtu =? 0 then (Err ENETUNREACH, tcp_conns)
  else
    match tcpip_bind st_local (tcp_port_available tcp_conns) random' with
    | Err e => (Err e, tcp_conns)
    | Ok port =>
        let tcp :=
          Tcp 0 st_peer port (usize (mtu - sizeof_tcp_header)) (TCP_STATE_SENT TCP_SYN) (u32 random) 0 0 0 0 0 0 0 0
            TCP_MAX_WINDOW_SIZE [] [] false (start_timer_nodelay now timer_init) timer_init (pending_get 0) 0 false in
        (Ok tt, tcp :: tcp_conns)
    end.

(** tcp_shutdown, for one connection. *)
Definition tcp_shutdown (w : world) : world := tcp_close (Some ECANCELED) (upd (set_tcp_state TCP_CLOSED) w).
End tcp.
