(* ===== verification/TcpReceive.v ===== *)
(** * TCP: the receive path

    Segments of a peer's byte stream, arriving in any order, repeatedly or
    overlapping, are delivered to the application in order and exactly once.
    Sequence numbers are taken modulo 2^32 throughout: the invariant relates
    them to offsets in the stream. *)

From stdpp Require Import sorting.
From S2P Require Import Prelude Tcpip Retry Tcp.

(** ** Bits *)

Lemma has_lor_l s x m : has s m = true → has (Z.lor s x) m = true.
Proof.
  unfold has. rewrite !negb_true_iff, !Z.eqb_neq. intros Hs E. apply Hs.
  apply Z.bits_inj'. intros n Hn. rewrite Z.land_spec, Z.bits_0.
  assert (Z.testbit (Z.land (Z.lor s x) m) n = false) as Hb by (by rewrite E, Z.bits_0).
  rewrite Z.land_spec, Z.lor_spec in Hb. destruct (Z.testbit s n), (Z.testbit m n), (Z.testbit x n); done.
Qed.

Lemma has_lor s x m : has (Z.lor s x) m = has s m || has x m.
Proof.
  destruct (has s m) eqn:Hs; [by apply has_lor_l|].
  destruct (has x m) eqn:Hx; [rewrite Z.lor_comm; by apply has_lor_l|].
  unfold has in *. rewrite negb_false_iff, Z.eqb_eq in *.
  by rewrite Z.land_lor_distr_l, Hs, Hx.
Qed.

(** ** Events *)

Definition delivered (l : list event) : bytes :=
  mjoin ((λ ev, match ev with EvDeliver data => data | _ => [] end) <$> l).

Lemma delivered_app l1 l2 : delivered (l1 ++ l2) = delivered l1 ++ delivered l2.
Proof. unfold delivered. by rewrite fmap_app, join_app. Qed.

(** ** What leaves the receive side alone *)

Definition win_ok (c : tcp_connection) : Prop :=
  0 ≤ rcv_win c ≤ TCP_MAX_WINDOW_SIZE ∧ 0 ≤ max_rcv_win c ≤ TCP_MAX_WINDOW_SIZE.

Definition rcvd (c : tcp_connection) (flag : Z) : bool := has (tcp_state c) (TCP_STATE_RCVD flag).

(** The receive state is unchanged but for discarded packets at the end of the
    queue and a window that may widen within its bounds. *)
Record rx_frame (c c' : tcp_connection) : Prop := {
  frame_ack : rcv_ack c' = rcv_ack c;
  frame_queue : ∃ k, rx_queue c' = take k (rx_queue c);
  frame_syn : rcvd c' TCP_SYN = rcvd c TCP_SYN;
  frame_fin : rcvd c' TCP_FIN = rcvd c TCP_FIN;
  frame_win : win_ok c → win_ok c';
  frame_wider : rcv_win c ≤ rcv_win c';
}.

#[export] Instance rx_frame_preorder : PreOrder rx_frame.
Proof.
  split.
  - intros c. split; try done. exists (length (rx_queue c)). by rewrite take_ge.
  - intros c1 c2 c3 [A1 [k1 Q1] S1 F1 W1 G1] [A2 [k2 Q2] S2 F2 W2 G2]. split; [congruence| |congruence..|auto|lia].
    exists (k2 `min` k1)%nat. by rewrite Q2, Q1, take_take.
Qed.

(** Updates of the window, and of other fields. *)
Lemma rx_frame_window c c' :
  rcv_ack c' = rcv_ack c → rx_queue c' = rx_queue c → tcp_state c' = tcp_state c →
  (win_ok c → win_ok c') → rcv_win c ≤ rcv_win c' → rx_frame c c'.
Proof.
  intros Ha Hq Hs Hw Hg. split; unfold rcvd; try congruence; [|done..].
  exists (length (rx_queue c)). by rewrite Hq, take_ge.
Qed.

Lemma rx_frame_same c c' :
  rcv_ack c' = rcv_ack c → rx_queue c' = rx_queue c → rcv_win c' = rcv_win c →
  max_rcv_win c' = max_rcv_win c → tcp_state c' = tcp_state c → rx_frame c c'.
Proof. intros Ha Hq Hw Hm Hs. apply rx_frame_window; [done..| |lia]. unfold win_ok. by rewrite Hw, Hm. Qed.
Ltac frame_same := apply rx_frame_same; reflexivity.

Lemma rx_frame_state c x :
  has x (TCP_STATE_RCVD TCP_SYN) = false → has x (TCP_STATE_RCVD TCP_FIN) = false →
  rx_frame c (set_tcp_state (Z.lor (tcp_state c) x) c).
Proof.
  intros Hs Hf. split; unfold rcvd; tcp_simpl; rewrite ?has_lor, ?Hs, ?Hf, ?orb_false_r; try done.
  exists (length (rx_queue c)). by rewrite take_ge.
Qed.

Lemma discard_one_frame c : rx_frame c (discard_one c).
Proof.
  unfold discard_one. destruct (rev (rx_queue c)) as [|q rest] eqn:E; [done|].
  set (max_win := u32 (q_seq q - rcv_ack c)).
  assert (0 ≤ max_win) by (apply (wrap_range 32); lia).
  transitivity (if max_win <? max_rcv_win c then set_max_rcv_win max_win c else c).
  - destruct (Z.ltb_spec max_win (max_rcv_win c)); [|done].
    apply rx_frame_window; try done. unfold win_ok. tcp_simpl. lia.
  - split; try (by destruct (_ <? _)).
    exists (length rest). destruct (_ <? _); tcp_simpl;
      rewrite <- (rev_involutive (rx_queue c)), E; cbn [rev]; by rewrite take_app_le, take_ge by (rewrite length_rev; lia).
Qed.

Lemma discards_iter_frame n c : rx_frame c (Nat.iter n discard_one c).
Proof. induction n as [|n IH]; [done|]. etrans; [exact IH|]. apply discard_one_frame. Qed.

Lemma expand_rcv_win_frame x c : rx_frame c (expand_rcv_win x c).
Proof.
  unfold expand_rcv_win. set (win := Z.land _ _).
  destruct (Z.ltb_spec (rcv_win c) win) as [Hlt|]; [|done].
  apply rx_frame_window; tcp_simpl; [done..| |lia]. unfold win_ok. tcp_simpl. intros [? ?]. assert (win ≤ max_rcv_win c); [|lia]. subst win. change 3 with (2 ^ 2 - 1).
  rewrite land_lnot_mask by lia.
  match goal with |- ?v - _ ≤ _ => assert (v ≤ max_rcv_win c); [|pose proof (Z.mod_pos_bound v (2 ^ 2)); lia] end.
  repeat case_match; lia.
Qed.

Section frame.
Context `{Platform, Ticks, TcpEnv}.
Implicit Types (w : world).

Definition rx_step (w w' : world) : Prop :=
  rx_frame (conn w) (conn w') ∧ delivered (log w') = delivered (log w).

#[export] Instance rx_step_preorder : PreOrder rx_step.
Proof. split; [done|]. intros w1 w2 w3 [F1 D1] [F2 D2]. split; [by etrans|congruence]. Qed.

Lemma rx_step_upd f w : rx_frame (conn w) (f (conn w)) → rx_step w (upd f w).
Proof. done. Qed.

Lemma rx_step_log w e ev : delivered [ev] = [] → rx_step w (World (conn w) e (log w ++ [ev])).
Proof. intros Hev. split; [done|]. cbn [log]. by rewrite delivered_app, Hev, app_nil_r. Qed.

Lemma rx_step_ext w e : rx_step w (World (conn w) e (log w)).
Proof. done. Qed.

Lemma discards_step n w : rx_step w (discards n w).
Proof. apply rx_step_upd, discards_iter_frame. Qed.

Lemma tcp_xmit_step w : rx_step w (tcp_xmit w).
Proof.
  unfold tcp_xmit. destruct (timer_running _); [done|].
  set (w1 := upd (set_snd_sent _) w). assert (rx_step w w1) as S1 by (apply rx_step_upd; frame_same).
  destruct (_ && _); [done|]. etrans; [exact S1|]. clear S1.
  set (w2 := if negb _ then _ else w1).
  assert (rx_step w1 w2) as S2 by (subst w2; destruct (negb _); [apply rx_step_upd; frame_same|done]).
  etrans; [exact S2|]. clear S2. destruct (alloc_iob _ _) as [[ok n] e].
  set (w3 := discards n _).
  assert (rx_step w2 w3) as S3 by (etrans; [apply (rx_step_ext w2 e)|apply discards_step]).
  destruct ok; [|done]. cbn [negb]. etrans; [exact S3|]. clear S3.
  set (w4 := upd (expand_rcv_win _) w3).
  assert (rx_step w3 w4) as S4 by apply rx_step_upd, expand_rcv_win_frame.
  etrans; [exact S4|]. clear S4. destruct (tcpip_tx_tcp _ _ _) as [[rc n'] e'].
  set (w5 := discards n' _).
  assert (rx_step w4 w5) as S5 by (etrans; [|apply discards_step]; by apply rx_step_log).
  etrans; [exact S5|]. destruct rc; [|done]. apply rx_step_upd. frame_same.
Qed.

Lemma land_3_cases x : Z.land x 3 ∈ [0; 1; 2; 3].
Proof.
  change 3 with (2 ^ 2 - 1) at 1. rewrite land_mask by lia. pose proof (Z.mod_pos_bound x (2 ^ 2)).
  rewrite !elem_of_cons. lia.
Qed.

Lemma process_tx_frame c max_len dest remove : rx_frame c (tcp_process_tx_queue c max_len dest remove).2.
Proof. unfold tcp_process_tx_queue. destruct (process_tx_loop _ _ _ _ _) as [[[len d] q] p]. frame_same. Qed.

Lemma acked_frame c x : rx_frame c (set_tcp_state (Z.lor (tcp_state c) (TCP_STATE_ACKED (Z.land x 3))) c).
Proof.
  apply rx_frame_state; pose proof (land_3_cases x) as Hx;
    repeat (apply elem_of_cons in Hx as [->|Hx]; [done|]); by apply elem_of_nil in Hx.
Qed.

Lemma sent_fin_frame c : rx_frame c (set_tcp_state (Z.lor (tcp_state c) (TCP_STATE_SENT TCP_FIN)) c).
Proof. by apply rx_frame_state. Qed.

Lemma tcp_rx_ack_frame now c ack win : rx_frame c (tcp_rx_ack now c ack win).2.
Proof.
  unfold tcp_rx_ack. destruct (_ <? _); [by destruct (TCP_HAS_BEEN_ESTABLISHED _)|].
  destruct (_ =? 0); [frame_same|]. cbn [snd].
  set (flags := Z.land _ _). set (c1 := if negb _ then set_pending_flags _ _ else _).
  assert (rx_frame c c1) as F1 by (subst c1; destruct (negb _); frame_same).
  set (c2 := (tcp_process_tx_queue _ _ _ _).2).
  assert (rx_frame c c2) as F2.
  { etrans; [exact F1|]. etrans; [|apply process_tx_frame]. frame_same. }
  set (c3 := if negb _ then set_tcp_state _ c2 else c2).
  assert (rx_frame c c3) as F3.
  { etrans; [exact F2|]. subst c3. destruct (negb _); [apply acked_frame|done]. }
  destruct (_ && _); [|done]. etrans; [exact F3|]. etrans; [apply sent_fin_frame|]. frame_same.
Qed.

Lemma start_fin_frame c : rx_frame c (start_fin c).
Proof.
  unfold start_fin. destruct (_ && _); [|done]. etrans; [apply sent_fin_frame|]. frame_same.
Qed.

Lemma tcp_close_step rc w : rcvd (conn w) TCP_SYN = true → rx_step w (tcp_close rc w).
Proof.
  intros Hs. unfold tcp_close. destruct (intf_shutdown rc (ext w)) as [n e].
  set (w1 := upd _ (discards n _)).
  assert (rx_step w w1) as S1.
  { etrans; [by apply (rx_step_log w e (EvShutdown rc))|]. etrans; [apply discards_step|].
    apply rx_step_upd. frame_same. }
  assert (rcvd (conn w1) TCP_SYN = true) as Hs1 by (by rewrite (frame_syn _ _ (proj1 S1))).
  unfold rcvd in Hs1. rewrite Hs1. cbn [negb]. etrans; [exact S1|].
  set (w2 := if negb _ then _ else w1).
  assert (rx_step w1 w2) as S2.
  { subst w2. destruct (negb _); [|done]. apply rx_step_upd, tcp_rx_ack_frame. }
  etrans; [exact S2|]. apply rx_step_upd, start_fin_frame.
Qed.

Lemma app_calls_step w w' : app_calls w w' → rcvd (conn w) TCP_SYN = true → rx_step w w'.
Proof.
  induction 1 as [w|w e w' _ IH|w w' _ IH|iobuf w w' _ _ IH|rc w w' _ _ IH]; intros Hs; [done| | | |].
  - etrans; [apply (rx_step_ext w e)|]. by apply IH.
  - assert (rx_step w (upd discard_one w)) as S1 by apply rx_step_upd, discard_one_frame.
    etrans; [exact S1|]. apply IH. by rewrite (frame_syn _ _ (proj1 S1)).
  - assert (rx_step w (tcp_xfer_deliver iobuf w)) as S1.
    { etrans; [|apply tcp_xmit_step]. etrans; [|by apply rx_step_log].
      etrans; apply rx_step_upd; frame_same. }
    etrans; [exact S1|]. apply IH. by rewrite (frame_syn _ _ (proj1 S1)).
  - assert (rx_step w (tcp_xfer_close rc w)) as S1 by (etrans; [by apply tcp_close_step|apply tcp_xmit_step]).
    etrans; [exact S1|]. apply IH. by rewrite (frame_syn _ _ (proj1 S1)).
Qed.
End frame.

(** ** Sequence numbers *)

Lemma s32_wrap x : s32 (u32 x) = s32 x.
Proof. by apply swrap_wrap. Qed.

Lemma tcp_cmp_offset a b k : - 2 ^ 31 ≤ a - b - k < 2 ^ 31 → tcp_cmp (u32 a) (u32 b + k) = a - b - k.
Proof.
  intros Hr. unfold tcp_cmp. rewrite <- s32_wrap, wrap_sub_l.
  replace (a - (u32 b + k)) with (a - k - u32 b) by lia. rewrite wrap_sub_r, s32_wrap.
  rewrite swrap_small by (change (2 ^ (32 - 1)) with (2 ^ 31); lia). lia.
Qed.

Lemma tcp_cmp_wrap a b : - 2 ^ 31 ≤ a - b < 2 ^ 31 → tcp_cmp (u32 a) (u32 b) = a - b.
Proof. intros. pose proof (tcp_cmp_offset a b 0) as Hc. rewrite Z.add_0_r in Hc. lia. Qed.

Lemma u32_inj a b : - 2 ^ 31 ≤ a - b < 2 ^ 31 → u32 a = u32 b ↔ a = b.
Proof.
  intros Hr. split; [|by intros ->]. intros E. pose proof (tcp_cmp_wrap a b Hr) as Hc.
  unfold tcp_cmp in Hc. rewrite E, Z.sub_diag in Hc. change (s32 0) with 0 in Hc. lia.
Qed.

Lemma u32_diff a b : 0 ≤ a - b < 2 ^ 32 → u32 (u32 a - u32 b) = a - b.
Proof. intros. rewrite wrap_sub_l, wrap_sub_r. by apply wrap_small. Qed.

(** ** The stream *)

Section stream.
Context `{Platform, Ticks, TcpEnv} `{!XferPeer}.

(** The peer's initial sequence number and the data it sends. *)
Context (irs : Z) (stream : bytes).
Implicit Types (w : world) (c : tcp_connection) (R off : Z).

(** The sequence number of a stream offset; the FIN follows the last byte. *)
Definition seqno (off : Z) : Z := u32 (irs + 1 + off).

Lemma seqno_inj a b : - 2 ^ 31 ≤ a - b < 2 ^ 31 → seqno a = seqno b → a = b.
Proof. unfold seqno. intros ? E. rewrite u32_inj in E by lia. lia. Qed.

(** The piece of the stream of length [len] at an offset. *)
Definition piece (off len : Z) : bytes := take (Z.to_nat len) (drop (Z.to_nat off) stream).

(** A segment carries a piece of the stream, and a FIN only at its end. *)
Definition genuine (off : Z) (data : bytes) (fin : bool) : Prop :=
  0 ≤ off ∧ off + Zlen data ≤ Zlen stream ∧ Zlen data ≤ 65535 ∧ data = piece off (Zlen data) ∧
  (fin = true → off + Zlen data = Zlen stream).

Definition queued_at (lo hi off : Z) (q : queued) : Prop :=
  lo ≤ off < hi ∧ q_seq q = seqno off ∧ genuine off (q_data q) (has (q_flags q) TCP_FIN).

(** The queue holds segments at increasing offsets between [lo] and [hi]. *)
Definition queue_in (lo hi : Z) (queue : list queued) : Prop :=
  ∃ offs, Forall2 (queued_at lo hi) offs queue ∧ StronglySorted Z.le offs.

(** Everything up to offset [R] has been received in order. *)
Record received (R : Z) (w : world) : Prop := {
  received_syn : rcvd (conn w) TCP_SYN = true;
  received_range : 0 ≤ R ≤ Zlen stream + 1;
  received_ack : rcv_ack (conn w) = seqno R;
  received_data : delivered (log w) = take (Z.to_nat R) stream;
  received_fin : rcvd (conn w) TCP_FIN = bool_decide (R = Zlen stream + 1);
  received_win : win_ok (conn w);
}.

(** Between packets, what is queued lies beyond a gap. *)
Definition recv_inv (R : Z) (w : world) : Prop :=
  received R w ∧ queue_in (R + 1) (R + TCP_MAX_WINDOW_SIZE) (rx_queue (conn w)).

Lemma queue_in_weaken lo hi lo' hi' q : lo' ≤ lo → hi ≤ hi' → queue_in lo hi q → queue_in lo' hi' q.
Proof.
  intros ?? (offs & Hq & Hs). exists offs. split; [|done]. eapply Forall2_impl; [exact Hq|].
  intros off q' (? & ? & ?). split; [lia|done].
Qed.

Lemma queue_in_take lo hi k q : queue_in lo hi q → queue_in lo hi (take k q).
Proof.
  intros (offs & Hq & Hs). exists (take k offs). split; [by apply Forall2_take|].
  rewrite <- (take_drop k offs) in Hs. by apply StronglySorted_app_1_l in Hs.
Qed.

Lemma queue_in_frame lo hi c c' : rx_frame c c' → queue_in lo hi (rx_queue c) → queue_in lo hi (rx_queue c').
Proof. intros F Hq. destruct (frame_queue _ _ F) as [k ->]. by apply queue_in_take. Qed.

Lemma received_step R w w' : rx_step w w' → received R w → received R w'.
Proof.
  intros [F D] [Rs Rr Ra Rd Rf Rw]. destruct F as [FA FQ FS FF FW _].
  split; [by rewrite FS|done|by rewrite FA|by rewrite D|by rewrite FF|auto].
Qed.

Lemma piece_delivered R off len :
  0 ≤ off ≤ R → R ≤ off + len → off + len ≤ Zlen stream →
  take (Z.to_nat R) stream ++ drop (Z.to_nat (R - off)) (piece off len) = take (Z.to_nat (off + len)) stream.
Proof.
  intros. unfold piece. rewrite skipn_firstn_comm, drop_drop.
  replace (Z.to_nat off + Z.to_nat (R - off))%nat with (Z.to_nat R) by lia.
  replace (Z.to_nat (off + len)) with (Z.to_nat R + (Z.to_nat len - Z.to_nat (R - off)))%nat by lia.
  by rewrite <- take_take_drop.
Qed.

Lemma received_rx_seq R n w :
  received R w → 0 < n → R + n ≤ Zlen stream →
  let w' := upd (λ tcp, tcp_rx_seq tcp n) w in
  rcvd (conn w') TCP_SYN = true ∧ rcv_ack (conn w') = seqno (R + n) ∧
  rcvd (conn w') TCP_FIN = false ∧ win_ok (conn w').
Proof.
  intros [Rs Rr Ra Rd Rf [Rw Rm]] ? ?. cbn [upd conn]. unfold tcp_rx_seq, rcvd in *. tcp_simpl.
  split_and!; [done| |rewrite Rf; apply bool_decide_eq_false; lia|].
  - rewrite Ra. unfold seqno. rewrite wrap_add_l. f_equal. lia.
  - unfold win_ok. tcp_simpl. split; [|done]. destruct (Z.ltb_spec n (rcv_win (conn w))); [|lia].
    unfold TCP_MAX_WINDOW_SIZE in *. rewrite wrap_small by (unfold in_range; lia). lia.
Qed.

(** New data moves the stream on; old data changes nothing. *)
Lemma rx_data_spec R off data w fin :
  received R w → genuine off data fin → off ≤ R < off + 2 ^ 31 →
  let w' := (tcp_rx_data (seqno off) data w).2 in
  received (Z.max R (off + Zlen data)) w' ∧ ∃ k, rx_queue (conn w') = take k (rx_queue (conn w)).
Proof.
  intros HR (Ho & Hl & Hlen & Hd & _) Hoff. unfold tcp_rx_data.
  assert (u32 (rcv_ack (conn w) - seqno off) = R - off) as ->.
  { rewrite (received_ack _ _ HR). unfold seqno. rewrite u32_diff; lia. }
  rewrite (wrap_small 32 (Zlen data)) by (unfold in_range; lia).
  destruct (Z.leb_spec (Zlen data) (R - off)) as [Hold|Hnew].
  { cbn [snd]. rewrite Z.max_l by lia. split; [done|]. exists (length (rx_queue (conn w))). by rewrite take_ge. }
  rewrite Z.max_r by lia. set (n := Zlen data - (R - off)).
  destruct (received_rx_seq R n w HR) as (Hs & Ha & Hf & Hw); [lia..|].
  set (w1 := upd (λ tcp, tcp_rx_seq tcp n) w) in *.
  set (w2 := World _ _ (log w1 ++ _)).
  assert (received (off + Zlen data) w2) as HR2.
  { split; cbn [w2 conn log]; [done|lia|rewrite Ha; f_equal; lia| | |done].
    - rewrite delivered_app. cbn [w1 upd log]. rewrite (received_data _ _ HR). unfold delivered at 1.
      cbn [fmap list_fmap mjoin list_join]. rewrite app_nil_r.
      pose proof (piece_delivered R off (Zlen data)) as Hp. rewrite <- Hd in Hp. apply Hp; lia.
    - rewrite Hf. symmetry. apply bool_decide_eq_false. lia. }
  pose proof (app_calls_step _ _ (xfer_deliver_calls (drop (Z.to_nat (R - off)) data) w2) Hs) as S2.
  split; [by eapply received_step|]. by destruct (frame_queue _ _ (proj1 S2)) as [k Hk]; exists k.
Qed.

(** A FIN is taken exactly when all the data has been. *)
Lemma rx_fin_spec R w :
  received R w → Zlen stream - R < 2 ^ 31 →
  let w' := tcp_rx_fin (seqno (Zlen stream)) w in
  received (if decide (R = Zlen stream) then R + 1 else R) w' ∧
  ∃ k, rx_queue (conn w') = take k (rx_queue (conn w)).
Proof.
  intros HR ?. unfold tcp_rx_fin. rewrite (received_ack _ _ HR). pose proof (received_range _ _ HR).
  assert (seqno (Zlen stream) = seqno R ↔ R = Zlen stream) as Hinj by (unfold seqno; rewrite u32_inj by lia; lia).
  destruct (Z.eqb_spec (seqno (Zlen stream)) (seqno R)) as [E|E]; cbn [negb].
  - apply Hinj in E. rewrite decide_True by done.
    set (w1 := upd _ (upd _ w)).
    assert (received (R + 1) w1) as HR1.
    { destruct HR as [Rs Rr Ra Rd Rf [Rw Rm]]. unfold rcvd, win_ok in *.
      split; subst w1; unfold rcvd, win_ok, tcp_rx_seq; cbn [upd conn log]; tcp_simpl; [|lia| | | |].
      - by apply has_lor_l.
      - rewrite Ra. unfold seqno. rewrite wrap_add_l. f_equal. lia.
      - rewrite Rd, !take_ge by lia. done.
      - rewrite has_lor. rewrite bool_decide_true by lia. apply orb_true_r.
      - split; [|done]. destruct (Z.ltb_spec 1 (rcv_win (conn w))); [|unfold TCP_MAX_WINDOW_SIZE; lia].
        unfold TCP_MAX_WINDOW_SIZE in *. rewrite wrap_small by (unfold in_range; lia). lia. }
    pose proof (tcp_close_step None w1 (received_syn _ _ HR1)) as S1.
    split; [by eapply received_step|]. destruct (frame_queue _ _ (proj1 S1)) as [k Hk]. by exists k.
  - rewrite decide_False by tauto. split; [done|]. exists (length (rx_queue (conn w))). by rewrite take_ge.
Qed.

Lemma received_eq R R' w : R = R' → received R w → received R' w.
Proof. by intros ->. Qed.

(** What a segment brings the stream to. *)
Definition reach (off : Z) (data : bytes) (fin : bool) : Z := off + Zlen data + (if fin then 1 else 0).

(** The body of the loop: a segment that is not beyond a gap is consumed. *)
Lemma process_one R off q w lo hi :
  received R w → queued_at lo hi off q → off ≤ R < off + 2 ^ 30 →
  let fin := has (q_flags q) TCP_FIN in
  let w1 := (tcp_rx_data (q_seq q) (q_data q) w).2 in
  let w2 := if fin then tcp_rx_fin (u32 (q_seq q + Zlen (q_data q))) w1 else w1 in
  received (Z.max R (reach off (q_data q) fin)) w2 ∧ ∃ k, rx_queue (conn w2) = take k (rx_queue (conn w)).
Proof.
  intros HR (_ & -> & Hg) Hoff fin w1 w2.
  destruct (rx_data_spec R off (q_data q) w fin HR Hg) as [HR1 [k Hk]]; [lia|]. fold w1 in HR1, Hk.
  destruct Hg as (_ & Hl & Hlen & _ & Hfin). fold fin in Hfin. unfold reach. destruct fin; subst w2.
  - specialize (Hfin eq_refl). pose proof (received_range _ _ HR).
    assert (u32 (seqno off + Zlen (q_data q)) = seqno (Zlen stream)) as ->.
    { unfold seqno. rewrite wrap_add_l. f_equal. lia. }
    destruct (rx_fin_spec _ w1 HR1) as [HR2 [k2 Hk2]]; [lia|].
    split; [|exists (k2 `min` k)%nat; by rewrite Hk2, Hk, take_take].
    destruct (decide (Z.max R (off + Zlen (q_data q)) = Zlen stream)); (eapply received_eq; [|exact HR2]; lia).
  - split; [|by exists k]. eapply received_eq; [|exact HR1]; lia.
Qed.

Lemma process_rx_loop_spec R0 n R w :
  received R w → R0 ≤ R ≤ R0 + 2 ^ 19 →
  queue_in (R0 - 2 ^ 17) (R0 + TCP_MAX_WINDOW_SIZE) (rx_queue (conn w)) →
  (length (rx_queue (conn w)) ≤ n)%nat →
  ∃ w' R', process_rx_loop n w = Some w' ∧ received R' w' ∧ R ≤ R' ∧
    queue_in (R' + 1) (R0 + TCP_MAX_WINDOW_SIZE) (rx_queue (conn w')) ∧
    (∀ off q, head (rx_queue (conn w)) = Some q → queued_at (R0 - 2 ^ 17) (R0 + TCP_MAX_WINDOW_SIZE) off q →
       off ≤ R → reach off (q_data q) (has (q_flags q) TCP_FIN) ≤ R').
Proof.
  revert R w. induction n as [|n IH]; intros R w HR HR0 (offs & Hq & Hs) Hn; cbn [process_rx_loop];
    destruct (rx_queue (conn w)) as [|q rest] eqn:Eq; cbn [length] in Hn; try lia;
    [exists w, R; split_and!; try done; rewrite Eq; exists []; split; constructor..|].
  apply Forall2_cons_inv_r in Hq as (off & offs' & Hoff & Hq & ->).
  apply StronglySorted_inv in Hs as [Hs Hall].
  pose proof Hoff as (Hrange & Hseq & Hg). unfold TCP_MAX_WINDOW_SIZE in *.
  rewrite Hseq, (received_ack _ _ HR). unfold seqno at 1 2. rewrite tcp_cmp_wrap by lia.
  destruct (Z.ltb_spec 0 (irs + 1 + off - (irs + 1 + R))) as [Hgap|Hgap].
  { exists w, R. split_and!; [done|done|lia| |].
    - rewrite Eq. exists (off :: offs'). split; [|by constructor]. constructor; [split; [lia|done]|].
      rewrite Forall_forall in Hall. apply Forall2_same_length_lookup_2; [by eapply Forall2_length|].
      intros i o q' Ho Hq'. pose proof (Forall2_lookup_lr _ _ _ _ _ _ Hq Ho Hq') as (? & ? & ?).
      assert (off ≤ o) by (apply Hall, list_elem_of_lookup; by exists i). split; [lia|done].
    - intros off' q' [= <-] (? & Hseq' & _) Hle. exfalso.
      rewrite Hseq in Hseq'. apply seqno_inj in Hseq'; lia. }
  destruct (process_one R off q (upd (set_rx_queue rest) w) (R0 - 2 ^ 17) (R0 + 256 * 1024)) as [HR2 [k Hk]]; [by destruct HR|exact Hoff|lia|].
  cbn [upd conn] in Hk. tcp_simpl in Hk. rewrite <- Hseq.
  set (w2 := if has (q_flags q) TCP_FIN then _ else _) in *.
  assert (reach off (q_data q) (has (q_flags q) TCP_FIN) ≤ R0 + 2 ^ 19).
  { unfold reach. destruct Hg as (_ & _ & ? & _). destruct (has _ _); lia. }
  destruct (IH _ w2 HR2) as (w' & R' & E & HR' & Hle & Hq' & _).
  - lia.
  - rewrite Hk. apply queue_in_take. by exists offs'.
  - rewrite Hk, length_take. lia.
  - exists w', R'. split_and!; [done|done|lia|done|]. intros off' q' [= <-] (? & Hseq' & _) Hle'.
    assert (off' = off) as -> by (rewrite Hseq in Hseq'; apply seqno_inj in Hseq'; lia). lia.
Qed.

(** *** Queueing *)

Lemma enqueue_loop_spec lo hi off q offs queue :
  hi - lo < 2 ^ 31 → Forall2 (queued_at lo hi) offs queue → StronglySorted Z.le offs → queued_at lo hi off q →
  ∃ offs', Forall2 (queued_at lo hi) offs' (enqueue_loop q queue) ∧ StronglySorted Z.le offs' ∧
    ∀ x, x ∈ offs' → x = off ∨ x ∈ offs.
Proof.
  intros Hw Hq Hs Hnew. induction Hq as [|o q' offs queue Ho Hq IH]; cbn [enqueue_loop].
  { exists [off]. split_and!; [by constructor|by repeat constructor|]. intros x ->%list_elem_of_singleton. by left. }
  apply StronglySorted_inv in Hs as [Hs Hall]. pose proof Hnew as (? & -> & _). pose proof Ho as (? & -> & _).
  unfold seqno. rewrite tcp_cmp_wrap by lia.
  destruct (Z.ltb_spec (irs + 1 + off - (irs + 1 + o)) 0).
  - exists (off :: o :: offs). split_and!; [constructor; [done|by constructor]| |intros x; rewrite !elem_of_cons; naive_solver].
    repeat constructor; try done; [lia|]. eapply Forall_impl; [exact Hall|]. cbn. lia.
  - destruct (IH Hs) as (offs' & Hq' & Hs' & Hsub). exists (o :: offs'). split_and!; [by constructor| |].
    + constructor; [done|]. apply Forall_forall. intros x Hx. rewrite Forall_forall in Hall.
      destruct (Hsub x Hx) as [->|Hx']; [lia|by apply Hall].
    + intros x. rewrite !elem_of_cons. naive_solver.
Qed.

Lemma enqueue_loop_head lo hi off q queue :
  hi - lo < 2 ^ 31 → queue_in (off + 1) hi queue → queued_at lo hi off q → enqueue_loop q queue = q :: queue.
Proof.
  intros Hw (offs & Hq & _) (? & Hs & _). destruct Hq as [|o q' offs queue (? & Hs' & _) _]; [done|].
  cbn [enqueue_loop]. rewrite Hs, Hs'. unfold seqno. rewrite tcp_cmp_wrap by lia.
  destruct (Z.ltb_spec (irs + 1 + off - (irs + 1 + o)) 0); [done|lia].
Qed.

Lemma has_land flags m : has (Z.land flags m) m = has flags m.
Proof. unfold has. by rewrite <- Z.land_assoc, Z.land_diag. Qed.

(** The tests of tcp_rx_enqueue in terms of offsets. *)
Lemma rx_enqueue_eq R w off flags data :
  received R w → genuine off data (has flags TCP_FIN) → - 2 ^ 30 ≤ off - R ≤ 2 ^ 30 →
  let reached := reach off data (has flags TCP_FIN) in
  tcp_rx_enqueue (conn w) (seqno off) flags data =
    if (0 <=? off - R - rcv_win (conn w)) || (reached <? R) || (reached =? off) then conn w
    else set_rx_queue (enqueue_loop (Queued (seqno off) (Z.land flags TCP_FIN) data) (rx_queue (conn w))) (conn w).
Proof.
  intros HR Hg Hoff reached. unfold tcp_rx_enqueue.
  pose proof (received_syn _ _ HR) as Hsyn. unfold rcvd in Hsyn. rewrite Hsyn. cbn [negb orb].
  pose proof Hg as (? & ? & Hlen & _). pose proof (received_win _ _ HR) as [Hwin _].
  unfold TCP_MAX_WINDOW_SIZE in *. rewrite (received_ack _ _ HR). fold (has flags TCP_FIN).
  set (sl := Zlen data + (if has flags TCP_FIN then 1 else 0)).
  assert (0 ≤ sl ≤ 65536) by (subst sl; destruct (has _ _); lia).
  assert (reached = off + sl) as -> by (subst reached sl; unfold reach; lia).
  rewrite (wrap_small 32 sl) by (unfold in_range; lia).
  assert (tcp_cmp (seqno off) (seqno R + rcv_win (conn w)) = off - R - rcv_win (conn w)) as ->.
  { unfold seqno. rewrite tcp_cmp_offset; lia. }
  assert (tcp_cmp (seqno off + sl) (seqno R) = off + sl - R) as ->.
  { transitivity (tcp_cmp (seqno (off + sl)) (seqno R)); [|unfold seqno; rewrite tcp_cmp_wrap; lia].
    unfold tcp_cmp, seqno. rewrite <- s32_wrap. symmetry. rewrite <- s32_wrap. f_equal.
    rewrite wrap_sub_l, <- (wrap_sub_l 32 (u32 (irs + 1 + off) + sl)), wrap_add_l, wrap_sub_l. f_equal. lia. }
  replace (off + sl - R <? 0) with (off + sl <? R) by (destruct (Z.ltb_spec (off + sl) R), (Z.ltb_spec (off + sl - R) 0); lia).
  replace (off + sl =? off) with (sl =? 0) by (destruct (Z.eqb_spec sl 0), (Z.eqb_spec (off + sl) off); lia).
  done.
Qed.

Lemma rx_enqueue_spec R w off flags data :
  recv_inv R w → genuine off data (has flags TCP_FIN) → - 2 ^ 30 ≤ off - R ≤ 2 ^ 30 →
  let q := Queued (seqno off) (Z.land flags TCP_FIN) data in
  let w' := upd (λ tcp, tcp_rx_enqueue tcp (seqno off) flags data) w in
  received R w' ∧ queue_in (R - 2 ^ 17) (R + TCP_MAX_WINDOW_SIZE) (rx_queue (conn w')) ∧
  (off ≤ R → off < R + rcv_win (conn w) → reach off data (has flags TCP_FIN) ≤ R ∨
     head (rx_queue (conn w')) = Some q ∧ queued_at (R - 2 ^ 17) (R + TCP_MAX_WINDOW_SIZE) off q).
Proof.
  intros [HR Hq] Hg Hoff q w'. subst w'. unfold upd. cbn [conn].
  rewrite (rx_enqueue_eq R w off flags data HR Hg Hoff). fold q.
  pose proof (received_win _ _ HR) as [Hwin _]. unfold TCP_MAX_WINDOW_SIZE in *.
  assert (queue_in (R - 2 ^ 17) (R + 256 * 1024) (rx_queue (conn w))) as Hq0
    by (eapply queue_in_weaken; [| |exact Hq]; lia).
  assert (off ≤ reach off data (has flags TCP_FIN) ≤ off + 65536) as Hr
    by (destruct Hg as (_ & _ & ? & _); unfold reach; destruct (has _ _); lia).
  destruct ((0 <=? _) || _ || _) eqn:E.
  { rewrite !orb_true_iff, Z.leb_le, Z.ltb_lt, Z.eqb_eq in E. split_and!; [by destruct HR|done|]. left. lia. }
  rewrite !orb_false_iff, Z.leb_gt, Z.ltb_ge, Z.eqb_neq in E. tcp_simpl.
  assert (queued_at (R - 2 ^ 17) (R + 256 * 1024) off q) as Hqa.
  { split; [lia|]. split; [done|]. cbn [q q_data q_flags]. by rewrite has_land. }
  assert (R + 256 * 1024 - (R - 2 ^ 17) < 2 ^ 31) as Hwid by lia. split_and!; [by destruct HR| |].
  - destruct Hq0 as (offs & Hf2 & Hs).
    destruct (enqueue_loop_spec _ _ off q offs _ Hwid Hf2 Hs Hqa) as (offs' & ? & ? & _). by exists offs'.
  - intros. right. split; [|done]. erewrite enqueue_loop_head; [done|exact Hwid| |exact Hqa].
    eapply queue_in_weaken; [| |exact Hq]; lia.
Qed.

(** *** Packets *)

(** A packet of the peer: its SYN (repeated), an acknowledgement without
    sequence space, or a segment of the stream. *)
Definition from_peer (off : Z) (packet payload : bytes) : Prop :=
  has (hdr_flags packet) TCP_RST = false ∧ be_combine (hdr_seq packet) = seqno off ∧
  if has (hdr_flags packet) TCP_SYN
  then off = -1 ∧ payload = [] ∧ has (hdr_flags packet) TCP_FIN = false
  else (payload = [] ∧ has (hdr_flags packet) TCP_FIN = false) ∨
       genuine off payload (has (hdr_flags packet) TCP_FIN).

Lemma recv_inv_step R w w' : rx_step w w' → recv_inv R w → recv_inv R w'.
Proof. intros S [HR Hq]. split; [by eapply received_step|]. by eapply queue_in_frame; [apply S|]. Qed.

(** Queueing a segment and processing the queue. *)
Lemma rx_segment R w off flags data :
  recv_inv R w → genuine off data (has flags TCP_FIN) → - 2 ^ 30 ≤ off - R ≤ 2 ^ 30 →
  ∃ w' R', tcp_process_rx_queue (upd (λ tcp, tcp_rx_enqueue tcp (seqno off) flags data) w) = Some w' ∧
    recv_inv R' w' ∧ R ≤ R' ∧
    (off ≤ R → off < R + rcv_win (conn w) → reach off data (has flags TCP_FIN) ≤ R').
Proof.
  intros Hinv Hg Hoff. destruct (rx_enqueue_spec R w off flags data Hinv Hg Hoff) as (HR1 & Hq1 & Hp).
  unfold tcp_process_rx_queue. set (w1 := upd _ w) in *.
  destruct (process_rx_loop_spec R (length (rx_queue (conn w1))) R w1 HR1 ltac:(lia) Hq1 ltac:(done))
    as (w' & R' & E & HR' & Hle & Hq' & Hp').
  exists w', R'. split_and!; [done| |done|].
  - split; [done|]. eapply queue_in_weaken; [| |exact Hq']; unfold TCP_MAX_WINDOW_SIZE; lia.
  - intros H4 H5. destruct (Hp H4 H5) as [Hdone|[Hh Hqa]]; [lia|].
    pose proof (Hp' off _ Hh Hqa H4) as Hreach. cbn [q_data q_flags] in Hreach. by rewrite has_land in Hreach.
Qed.

(** A packet without new sequence space is not queued. *)
Lemma rx_enqueue_empty c seq flags :
  has flags TCP_FIN = false → tcp_rx_enqueue c seq flags [] = c.
Proof.
  intros Hf. unfold tcp_rx_enqueue. unfold has in Hf. rewrite Hf. cbn [length]. by rewrite orb_true_r.
Qed.

Lemma process_rx_queue_idle R w : recv_inv R w → tcp_process_rx_queue w = Some w.
Proof.
  intros [HR (offs & Hq & _)]. unfold tcp_process_rx_queue, TCP_MAX_WINDOW_SIZE in *.
  destruct (rx_queue (conn w)) as [|q rest] eqn:E; cbn [length process_rx_loop]; rewrite E; [done|].
  apply Forall2_cons_inv_r in Hq as (off & offs' & (? & -> & _) & _ & _).
  rewrite (received_ack _ _ HR). unfold seqno. rewrite tcp_cmp_wrap by lia.
  destruct (Z.ltb_spec 0 (irs + 1 + off - (irs + 1 + R))); [done|lia].
Qed.

(** A repeated SYN changes nothing. *)
Lemma rx_syn_repeated R w options :
  received R w → R ≤ 2 ^ 30 → tcp_rx_syn (conn w) (seqno (-1)) options = conn w.
Proof.
  intros HR Hle. unfold tcp_rx_syn. pose proof (received_syn _ _ HR) as Hs. unfold rcvd in Hs. rewrite Hs.
  cbn [negb]. rewrite (received_ack _ _ HR). pose proof (received_range _ _ HR).
  destruct (Z.eqb_spec (seqno (-1)) (seqno R)) as [E|]; [|done]. apply seqno_inj in E; lia.
Qed.

Lemma rx_finish_step old w : rcvd (conn w) TCP_SYN = true → rx_step w (rx_finish old w).
Proof.
  intros Hs. unfold rx_finish. set (w1 := if bool_decide _ then _ else _).
  assert (rx_step w w1) as S1.
  { subst w1. destruct (bool_decide _); [apply rx_step_upd; frame_same|apply tcp_xmit_step]. }
  set (w2 := if TCP_CLOSED_GRACEFULLY _ then _ else w1).
  assert (rx_step w1 w2) as S2.
  { subst w2. destruct (TCP_CLOSED_GRACEFULLY _); [apply rx_step_upd; frame_same|done]. }
  assert (rx_step w w2) as S12 by (by etrans). destruct (negb _); [|done].
  etrans; [exact S12|]. etrans; [by apply (rx_step_log w2 (ext w2) EvWindowChanged)|].
  eapply app_calls_step; [apply xfer_window_changed_calls|]. cbn [conn].
  by rewrite (frame_syn _ _ (proj1 S12)).
Qed.

Lemma tcp_xmit_reset_step st hdr w : rx_step w (tcp_xmit_reset st hdr w).2.
Proof.
  unfold tcp_xmit_reset. destruct (alloc_iob _ _) as [[ok n] e]. set (w1 := discards n _).
  assert (rx_step w w1) as S1 by (etrans; [apply (rx_step_ext w e)|apply discards_step]).
  destruct ok; [|done]. cbn [negb]. destruct (tcpip_tx_tcp _ _ _) as [[rc n'] e']. cbn [snd].
  etrans; [exact S1|]. etrans; [|apply discards_step]. by apply rx_step_log.
Qed.

(** The part of tcp_rx before the SYN. *)
Lemma rx_ack_step (b : bool) t w ack win :
  let '(rc, tcp) := if b then tcp_rx_ack t (conn w) ack win else (Ok tt, conn w) in
  rx_step w (World tcp (ext w) (log w)).
Proof.
  destruct b; [|done]. pose proof (tcp_rx_ack_frame t (conn w) ack win) as F.
  by destruct (tcp_rx_ack _ _ _ _) as [rc tcp].
Qed.

Lemma rx_parsed_spec R w off st packet options payload :
  recv_inv R w → from_peer off packet payload → - 2 ^ 30 ≤ off - R ≤ 2 ^ 30 →
  ∃ rc w' R', tcp_rx_parsed st packet options payload w = Some (rc, w') ∧ recv_inv R' w' ∧ R ≤ R' ∧
    (rc = Ok tt → off ≤ R → off < R + rcv_win (conn w) →
     reach off payload (has (hdr_flags packet) TCP_FIN) ≤ R').
Proof.
  intros Hinv (Hrst & Hseq & Hfl) Hoff. unfold tcp_rx_parsed. rewrite Hseq.
  pose proof (rx_ack_step (has (hdr_flags packet) TCP_ACK) (now w) w (be_combine (hdr_ack packet))
    (u32 (Z.shiftl (be_combine (hdr_win packet)) (snd_win_scale (conn w))))) as S1.
  destruct (if has (hdr_flags packet) TCP_ACK then _ else _) as [rc tcp]. set (w1 := World tcp _ _) in *.
  destruct rc as [[]|e].
  2:{ eexists _, _, R. split_and!; [reflexivity| |done|done].
      eapply recv_inv_step; [etrans; [exact S1|apply tcp_xmit_reset_step]|done]. }
  set (w2 := if _ && _ then _ else w1).
  assert (rx_step w w2) as S2.
  { etrans; [exact S1|]. subst w2. destruct (_ && _); [apply rx_step_upd; frame_same|done]. }
  pose proof (recv_inv_step _ _ _ S2 Hinv) as Hinv2. pose proof (frame_wider _ _ (proj1 S2)) as Hwide.
  assert (∀ seq, has (hdr_flags packet) TCP_FIN = false → payload = [] →
    tcp_process_rx_queue (upd (λ tcp, tcp_rx_enqueue tcp seq (hdr_flags packet) payload) w2) = Some w2) as Hempty.
  { intros seq Hfin ->. unfold upd. cbn [conn]. rewrite rx_enqueue_empty by done.
    destruct w2 as [c2 e2 l2]. by apply (process_rx_queue_idle R). }
  assert (∀ off', off' ≤ R → has (hdr_flags packet) TCP_FIN = false → payload = [] →
    recv_inv R (rx_finish (tcp_xfer_window (conn w)) w2) ∧ reach off' payload (has (hdr_flags packet) TCP_FIN) ≤ R)
    as Hdone.
  { intros off' ? Hfin ->. split; [|unfold reach; rewrite Hfin; cbn; lia].
    eapply recv_inv_step; [|exact Hinv2]. apply rx_finish_step. apply Hinv2. }
  rewrite Hrst. destruct (has (hdr_flags packet) TCP_SYN); [|destruct Hfl as [[Hp Hfin]|Hg]].
  - destruct Hfl as (-> & Hp & Hfin).
    assert (upd (λ tcp, tcp_rx_syn tcp (seqno (-1)) options) w2 = w2) as ->.
    { unfold upd. rewrite (rx_syn_repeated R w2 options (proj1 Hinv2)) by lia. by destruct w2. }
    rewrite Hempty by done. destruct (received_range _ _ (proj1 Hinv2)).
    eexists _, _, R. split_and!; [reflexivity|by apply (Hdone (-1)); [lia|..]|done|].
    intros _ _ _. by apply Hdone; [lia|..].
  - rewrite Hempty by done. eexists _, _, R. split_and!; [reflexivity|by apply (Hdone R)|done|].
    intros _ ? _. by apply Hdone.
  - destruct (rx_segment R w2 off _ _ Hinv2 Hg Hoff) as (w3 & R' & -> & Hinv3 & Hle & Hp).
    eexists _, _, R'. split_and!; [reflexivity| |done|].
    + eapply recv_inv_step; [|exact Hinv3]. apply rx_finish_step. apply Hinv3.
    + intros _ ? ?. apply Hp; lia.
Qed.

Lemma tcp_demux_self c port : is_Some (tcp_demux [c] port) ↔ local_port c = port.
Proof.
  unfold tcp_demux. cbn [list_find]. destruct (decide (local_port c = port)).
  - split; [done|]. by eexists.
  - cbn. split; [by intros []|done].
Qed.

(** A packet is from the peer if it passes the checks and is for this port. *)
Definition peer_packet (off : Z) (packet : bytes) (csum : Z) (c : tcp_connection) : Prop :=
  ∀ hlen, rx_check packet csum = Ok hlen → be_combine (hdr_dest packet) = local_port c →
    from_peer off packet (drop (Z.to_nat hlen) packet).

Lemma tcp_rx_spec R w off packet st csum rc w' :
  recv_inv R w → peer_packet off packet csum (conn w) → - 2 ^ 30 ≤ off - R ≤ 2 ^ 30 →
  tcp_rx packet st csum w = Some (rc, w') →
  ∃ R', recv_inv R' w' ∧ R ≤ R' ∧
    (rc = Ok tt → off ≤ R → off < R + rcv_win (conn w) →
     ∀ hlen, rx_check packet csum = Ok hlen →
       reach off (drop (Z.to_nat hlen) packet) (has (hdr_flags packet) TCP_FIN) ≤ R').
Proof.
  intros Hinv Hpeer Hoff. unfold tcp_rx. destruct (rx_check packet csum) as [hlen|e] eqn:Hc;
    [|intros [= <- <-]; by exists R].
  destruct (tcp_rx_opts _ _) as [options|]; [|done].
  destruct (tcp_demux _ _) as [?|] eqn:Hd; [|intros [= <- <-]; by exists R].
  specialize (Hpeer hlen Hc (eq_sym (proj1 (tcp_demux_self (conn w) _) (mk_is_Some _ _ Hd)))).
  set (w1 := match tsopt options with Some _ => _ | None => w end).
  assert (rx_step w w1) as S1 by (subst w1; destruct (tsopt options); [apply rx_step_upd; frame_same|done]).
  destruct (rx_parsed_spec R w1 off st packet options (drop (Z.to_nat hlen) packet))
    as (rc' & w2 & R' & -> & Hinv' & Hle & Hp); [by eapply recv_inv_step|done|done|].
  intros [= <- <-]. exists R'. split_and!; [done|done|]. intros -> ? ? hlen' [= <-].
  apply Hp; [done|done|]. pose proof (frame_wider _ _ (proj1 S1)). lia.
Qed.

(** ** Histories *)

(** The first SYN on a new connection starts the stream. *)
Definition fresh (c : tcp_connection) : Prop :=
  rcvd c TCP_SYN = false ∧ rcvd c TCP_FIN = false ∧ rx_queue c = [] ∧ win_ok c.

Lemma rx_syn_first w options :
  fresh (conn w) → delivered (log w) = [] → in_range 32 irs →
  recv_inv 0 (upd (λ tcp, tcp_rx_syn tcp irs options) w).
Proof.
  intros (Hs & Hf & Hq & Hw) Hl Hirs. unfold rcvd in Hs, Hf.
  set (c := tcp_rx_syn (conn w) irs options).
  assert (∃ c1, c = set_tcp_state (Z.lor (tcp_state (conn w)) (Z.lor (TCP_STATE_SENT TCP_ACK) (TCP_STATE_RCVD TCP_SYN)))
                      (tcp_rx_seq c1 1) ∧
    rcv_ack c1 = irs ∧ rx_queue c1 = [] ∧ rcv_win c1 = rcv_win (conn w) ∧ max_rcv_win c1 = max_rcv_win (conn w)) as Hc.
  { subst c. unfold tcp_rx_syn. rewrite Hs. cbn [negb].
    destruct (tsopt options), (wsopt options); tcp_simpl; rewrite Z.eqb_refl; cbn [negb];
      (eexists; split; [reflexivity|]); by tcp_simpl. }
  destruct Hc as (c1 & Hc & Ha & Hq1 & Hw1 & Hm1). split.
  - split; cbn [upd conn log]; fold c; rewrite ?Hc; unfold rcvd, tcp_rx_seq, win_ok in *; tcp_simpl.
    + rewrite has_lor. by apply orb_true_r.
    + lia.
    + rewrite Ha. unfold seqno. f_equal. lia.
    + done.
    + rewrite has_lor, Hf. symmetry. apply bool_decide_eq_false. lia.
    + rewrite Hw1, Hm1. split; [|apply Hw]. unfold TCP_MAX_WINDOW_SIZE in *.
      destruct (Z.ltb_spec 1 (rcv_win (conn w))); [|lia]. rewrite wrap_small; unfold in_range; lia.
  - cbn [upd conn]. fold c. rewrite Hc. unfold tcp_rx_seq. tcp_simpl. rewrite Hq1. exists []. by split; constructor.
Qed.

(** What happens to a connection while the peer's packets arrive: packets, each
    no further than 2^30 bytes from what has been delivered, calls of the
    application, the transmission process and the retransmission timer. *)
Inductive rx_event : world → world → Prop :=
| rx_packet off packet st csum w rc w' :
    peer_packet off packet csum (conn w) → - 2 ^ 30 < off - Zlen (delivered (log w)) < 2 ^ 30 →
    tcp_rx packet st csum w = Some (rc, w') → rx_event w w'
| rx_app w w' : app_calls w w' → rx_event w w'
| rx_process w : rx_event w (tcp_xmit (upd (set_process false) w))
| rx_timer w : rx_event w (tcp_expired false (upd (λ tcp, set_timer (timer_expired (timer tcp)).2 tcp) w)).

Lemma received_length R w : received R w → Zlen (delivered (log w)) ≤ R ≤ Zlen (delivered (log w)) + 1.
Proof.
  intros HR. rewrite (received_data _ _ HR), length_take. pose proof (received_range _ _ HR). lia.
Qed.

Lemma rx_event_inv R w w' : recv_inv R w → rx_event w w' → ∃ R', recv_inv R' w' ∧ R ≤ R'.
Proof.
  intros Hinv Hev. destruct Hev as [off packet st csum w rc w' Hp Hoff E|w w' Hc|w|w].
  - pose proof (received_length _ _ (proj1 Hinv)).
    destruct (tcp_rx_spec R w off packet st csum rc w' Hinv Hp) as (R' & ? & ? & _); [lia|done|]. by exists R'.
  - exists R. split; [|done]. eapply recv_inv_step; [|done]. apply app_calls_step; [done|]. apply Hinv.
  - exists R. split; [|done]. eapply recv_inv_step; [|done]. etrans; [|apply tcp_xmit_step].
    apply rx_step_upd. frame_same.
  - exists R. split; [|done]. eapply recv_inv_step; [|done]. etrans; [|apply tcp_xmit_step].
    apply rx_step_upd. frame_same.
Qed.

Lemma rx_history_inv R w w' : recv_inv R w → rtc rx_event w w' → ∃ R', recv_inv R' w' ∧ R ≤ R'.
Proof.
  intros Hinv Hr. revert R Hinv. induction Hr as [w|w1 w2 w3 He _ IH]; intros R Hinv; [by exists R|].
  destruct (rx_event_inv R w1 w2 Hinv He) as (R2 & Hinv2 & ?).
  destruct (IH R2 Hinv2) as (R3 & ? & ?). exists R3. split; [done|lia].
Qed.
End stream.

(** C15: whatever packets of the peer arrive after its SYN, in whatever order,
    repeated or overlapping, and whatever the application and the timers do in
    between, the application is given exactly a prefix of the peer's stream, in
    order and once; the acknowledgement number is that of the next byte; the end
    of the stream is taken only after all of it; and a packet that continues the
    stream within the window is delivered at once. *)
Theorem tcp_receive_correct `{Platform, Ticks, TcpEnv} `{!XferPeer} irs stream w0 options w :
  fresh (conn w0) → delivered (log w0) = [] → in_range 32 irs →
  rtc (rx_event irs stream) (upd (λ tcp, tcp_rx_syn tcp irs options) w0) w →
  ∃ R, 0 ≤ R ≤ Zlen stream + 1 ∧ delivered (log w) = take (Z.to_nat R) stream ∧
    rcv_ack (conn w) = u32 (irs + 1 + R) ∧ (rcvd (conn w) TCP_FIN = true ↔ R = Zlen stream + 1) ∧
    ∀ off packet st csum hlen w',
      rx_check packet csum = Ok hlen → from_peer irs stream off packet (drop (Z.to_nat hlen) packet) →
      off ≤ R ≤ off + 2 ^ 30 → off < R + rcv_win (conn w) → tcp_rx packet st csum w = Some (Ok tt, w') →
      ∃ R', reach off (drop (Z.to_nat hlen) packet) (has (hdr_flags packet) TCP_FIN) ≤ R' ∧
        delivered (log w') = take (Z.to_nat R') stream.
Proof.
  intros Hfr Hl Hirs Hr. pose proof (rx_syn_first irs stream w0 options Hfr Hl Hirs) as Hinv0.
  destruct (rx_history_inv irs stream 0 _ w Hinv0 Hr) as (R & Hinv & _). exists R.
  pose proof (proj1 Hinv) as [Rs Rr Ra Rd Rf Rw]. split_and!; [lia|lia|done|done| |].
  { rewrite Rf. apply bool_decide_eq_true. }
  intros off packet st csum hlen w' Hc Hp Hoff Hwin E.
  destruct (tcp_rx_spec irs stream R w off packet st csum (Ok tt) w' Hinv) as (R' & Hinv' & _ & Hreach);
    [|lia|done|].
  { intros hlen' Hc' _. rewrite Hc in Hc'. by injection Hc' as <-. }
  exists R'. split; [apply Hreach; [done|lia|done|done]|]. apply (proj1 Hinv').
Qed.

(** ** An example connection *)

#[export] Instance example_env : TcpEnv := {|
  env := Z;
  currticks e := e;
  alloc_iob len e := (true, 0%nat, e + 1);
  tcpip_tx_tcp packet st e := (Ok tt, 0%nat, e);
  xfer_window e := 65536;
  intf_shutdown rc e := (0%nat, e);
|}.

#[export] Instance example_app `{Platform, Ticks} : XferPeer := {|
  xfer_deliver_iob data w := (Ok tt, w);
  xfer_window_changed w := w;
  xfer_deliver_calls data w := app_none w;
  xfer_window_changed_calls w := app_none w;
|}.

Definition example_peer : sockaddr_tcpip := {| st_family := 1; st_flags := 0; st_port := 0x5000; st_pad := [10; 0; 0; 2] ++ replicate 22 0 |}.

Definition example_conn : tcp_connection :=
  default (Tcp 0 example_peer 0 0 0 0 0 0 0 0 0 0 0 0 0 [] [] false timer_init timer_init 0 0 true)
    (head (tcp_open (H := i386) (H0 := bios_ticks) [] example_peer None true 0 1000 4096 1480).2).

(** A packet of the peer, whose initial sequence number is 2^32 - 3. *)
Definition example_irs : Z := 2 ^ 32 - 3.
Definition example_stream : bytes := [1; 2; 3; 4; 5].
Definition example_packet (off len flags : Z) : bytes :=
  with_csum (λ csum,
    tcp_header (le_split 2 0x5000) (be_split 2 4096) (be_split 4 (seqno example_irs off)) (be_split 4 1001) [0x50]
      [flags] (be_split 2 1000) csum ++ piece example_stream off len).

(** The end of the stream arrives before its beginning. *)
Definition example_packets : list (Z * bytes) :=
  [(3, example_packet 3 2 (Z.lor TCP_ACK TCP_FIN)); (0, example_packet 0 4 TCP_ACK)].

#[local] Existing Instance i386.
#[local] Existing Instance bios_ticks.

(** The connection once its SYN has been sent. *)
Definition example_world0 : world :=
  tcp_expired false (upd (λ tcp, set_timer (timer_expired (timer tcp)).2 tcp) (World example_conn 0 [])).
Definition example_syn : tcp_options := Options None None None.
Definition example_run (w : world) (p : Z * bytes) : world :=
  match tcp_rx p.2 example_peer TCPIP_EMPTY_CSUM w with Some (_, w') => w' | None => w end.

Lemma example_event w off packet :
  (∃ rc w', tcp_rx packet example_peer TCPIP_EMPTY_CSUM w = Some (rc, w')) →
  rx_check packet TCPIP_EMPTY_CSUM = Ok 20 → from_peer example_irs example_stream off packet (drop 20 packet) →
  - 2 ^ 30 < off - Zlen (delivered (log w)) < 2 ^ 30 →
  rx_event example_irs example_stream w (example_run w (off, packet)).
Proof.
  intros (rc & w' & E) Hc Hp Hoff. unfold example_run. cbn [snd]. rewrite E.
  eapply (rx_packet _ _ off); [|done|done]. intros hlen' Hc' _.
  rewrite Hc in Hc'. by injection Hc' as <-.
Qed.

Lemma tcp_receive_correct_witness :
  let w := foldl example_run (upd (λ tcp, tcp_rx_syn tcp example_irs example_syn) example_world0) example_packets in
  delivered (log w) = example_stream ∧ rcvd (conn w) TCP_FIN = true.
Proof.
  intros w.
  destruct (tcp_receive_correct example_irs example_stream example_world0 example_syn w)
    as (R & _ & Hd & _ & Hf & _).
  - by_decide.
  - by vm_compute.
  - by_decide.
  - unfold w, example_packets. cbn [foldl].
    eapply rtc_l; [|eapply rtc_l; [|apply rtc_refl]]; apply example_event;
      [vm_compute; by eexists _, _|by vm_compute|split_and!; [by vm_compute..|right; by_decide]|by_decide
      |vm_compute; by eexists _, _|by vm_compute|split_and!; [by vm_compute..|right; by_decide]|by_decide].
  - split; [|by vm_compute]. rewrite Hd. replace R with (Zlen example_stream + 1); [done|].
    symmetry. apply Hf. by vm_compute.
Defined.
