(* ===== verification/TcpSend.v ===== *)
(** * TCP: the transmit path and the connection states

    Packets built by the transmit path parse back to what they were built from;
    every packet a connection ever sends carries the application's stream at the
    right place; unacknowledged data stays queued; and the connection moves
    through the states of RFC 793. *)

From stdpp Require Import sorting.
From S2P Require Import Prelude Tcpip Retry Tcp TcpReceive.

(** ** The transmit queue *)

Lemma process_tx_loop_keep queue max_len dest pending :
  0 ≤ max_len →
  process_tx_loop queue max_len dest false pending =
    (Z.min max_len (Zlen (mjoin queue)), (λ d, d ++ take (Z.to_nat max_len) (mjoin queue)) <$> dest, queue, pending).
Proof.
  revert max_len dest. induction queue as [|iobuf queue IH]; intros max_len dest Hm; cbn [process_tx_loop].
  { change (Zlen (mjoin (M := list) [])) with 0. rewrite Z.min_r by lia. destruct dest; cbn; by rewrite ?take_nil, ?app_nil_r. }
  set (frag := if max_len <? Zlen iobuf then max_len else Zlen iobuf).
  assert (frag = Z.min max_len (Zlen iobuf)) as Hf by (subst frag; destruct (Z.ltb_spec max_len (Zlen iobuf)); lia).
  rewrite IH by lia. rewrite mjoin_cons, length_app, Nat2Z.inj_add.
  assert (frag + Z.min (max_len - frag) (Zlen (mjoin queue)) = Z.min max_len (Zlen iobuf + Zlen (mjoin queue)))
    as -> by lia.
  do 2 f_equal. f_equal. destruct dest as [d|]; [|done]. cbn. f_equal. rewrite <- app_assoc. f_equal.
  rewrite take_app, Hf. f_equal.
  - destruct (Z.min_spec max_len (Zlen iobuf)) as [[? ->]|[? ->]]; [done|].
    rewrite !take_ge by lia. done.
  - f_equal. lia.
Qed.

Lemma process_tx_loop_remove queue max_len dest pending :
  0 ≤ max_len →
  let '(len, _, queue', _) := process_tx_loop queue max_len dest true pending in
  len = Z.min max_len (Zlen (mjoin queue)) ∧ mjoin queue' = drop (Z.to_nat max_len) (mjoin queue) ∧
  (mjoin queue' = [] → queue' = []).
Proof.
  revert max_len dest pending. induction queue as [|iobuf queue IH]; intros max_len dest pending Hm;
    cbn [process_tx_loop].
  { split_and!; [change (Zlen (mjoin (M := list) [])) with 0; lia|cbn; by rewrite drop_nil|done]. }
  set (frag := if max_len <? Zlen iobuf then max_len else Zlen iobuf).
  assert (frag = Z.min max_len (Zlen iobuf)) as Hf by (subst frag; destruct (Z.ltb_spec max_len (Zlen iobuf)); lia).
  set (rest := drop (Z.to_nat frag) iobuf). set (d' := _ <$> dest).
  assert (rest = drop (Z.to_nat max_len) iobuf) as Hrest.
  { subst rest. rewrite Hf. destruct (Z.min_spec max_len (Zlen iobuf)) as [[? ->]|[? ->]]; [done|].
    rewrite !drop_ge by lia. done. }
  assert (∀ kept p, mjoin kept = rest → (rest = [] → kept = []) →
    let '(len, _, queue', _) := let '(len, dest, queue, pending) := process_tx_loop queue (max_len - frag) d' true p in
      (frag + len, dest, kept ++ queue, pending) in
    len = Z.min max_len (Zlen (mjoin (iobuf :: queue))) ∧
    mjoin queue' = drop (Z.to_nat max_len) (mjoin (iobuf :: queue)) ∧ (mjoin queue' = [] → queue' = [])) as Hk.
  { intros kept p Hk Hk0. specialize (IH (max_len - frag) d' p ltac:(lia)).
    destruct (process_tx_loop _ _ _ _ _) as [[[len d2] q2] p2]. destruct IH as (-> & Hq & Hq0).
    rewrite mjoin_cons, length_app, Nat2Z.inj_add, join_app, Hk, Hq, drop_app, Hrest. split_and!; [lia| |].
    - f_equal. f_equal. lia.
    - intros [Hr ?]%app_eq_nil. rewrite Hq0 by congruence. rewrite Hk0 by congruence. done. }
  destruct (Z.eqb_spec (Zlen rest) 0) as [Hz|Hz].
  - apply (Hk [] (pending_put pending)); [|done]. destruct rest; [done|cbn in Hz; lia].
  - apply (Hk [rest] pending); [cbn; by rewrite app_nil_r|]. intros ->. done.
Qed.

(** ** Packets *)

Lemma be_combine_split4 v : in_range 32 v → be_combine (be_split 4 v) = v.
Proof. intros. rewrite be_combine_split. by apply (wrap_small 32). Qed.

Lemma tx_options_length c flags now : Zlen (tx_options c flags now) ∈ [0; 12; 20].
Proof.
  unfold tx_options. rewrite !elem_of_cons.
  destruct (has flags TCP_SYN), (has (Tcp.flags c) TCP_TS_ENABLED); cbn; auto.
Qed.

(** The flags of a packet: a push if it carries data. *)
Definition tx_flags (flags : Z) (payload : bytes) : Z :=
  u8 (if negb (Zlen payload =? 0) then Z.lor flags TCP_PSH else flags).

Lemma tx_packet_split c flags now payload :
  ∃ csum, let options := tx_options c flags now in
  tx_packet c flags now payload =
    tcp_header (be_split 2 (local_port c)) (le_split 2 (st_port (peer c))) (be_split 4 (snd_seq c))
      (be_split 4 (rcv_ack c)) [u8 (Z.shiftl (sizeof_tcp_header + Zlen options) 2)] [tx_flags flags payload]
      (be_split 2 (Z.shiftr (rcv_win c) (rcv_win_scale c))) (le_split 2 csum) ++ options ++ payload.
Proof. eexists. reflexivity. Qed.

Lemma tx_packet_fields c flags now payload :
  let p := tx_packet c flags now payload in
  hdr_src p = be_split 2 (local_port c) ∧ hdr_dest p = le_split 2 (st_port (peer c)) ∧
  hdr_seq p = be_split 4 (snd_seq c) ∧ hdr_ack p = be_split 4 (rcv_ack c) ∧
  hdr_flags p = tx_flags flags payload ∧ hdr_win p = be_split 2 (Z.shiftr (rcv_win c) (rcv_win_scale c)) ∧
  hdr_hlen p = 4 * (20 + Zlen (tx_options c flags now)).
Proof.
  destruct (tx_packet_split c flags now payload) as [csum ->]. split_and!; try reflexivity.
  unfold hdr_hlen. cbn [tcp_header]. cbn -[tx_options Z.of_nat wrap Z.shiftl].
  pose proof (tx_options_length c flags now) as Hl. rewrite !elem_of_cons, elem_of_nil in Hl.
  destruct Hl as [->|[->|[->|[]]]]; by vm_compute.
Qed.

(** The header length a receiver computes, and what it then takes as payload. *)
Lemma tx_packet_payload c flags now payload :
  let p := tx_packet c flags now payload in
  Z.land (hdr_hlen p) TCP_MASK_HLEN / 16 * 4 = 20 + Zlen (tx_options c flags now) ∧
  drop (Z.to_nat (20 + Zlen (tx_options c flags now))) p = payload ∧
  drop 20 p = tx_options c flags now ++ payload ∧
  Zlen p = 20 + Zlen (tx_options c flags now) + Zlen payload.
Proof.
  intros p. destruct (tx_packet_fields c flags now payload) as (_ & _ & _ & _ & _ & _ & Hh). fold p in Hh.
  assert (drop 20 p = tx_options c flags now ++ payload) as Hd.
  { subst p. destruct (tx_packet_split c flags now payload) as [csum ->]. reflexivity. }
  split_and!; [| |done|].
  - rewrite Hh. pose proof (tx_options_length c flags now) as Hl. rewrite !elem_of_cons, elem_of_nil in Hl.
    destruct Hl as [->|[->|[->|[]]]]; by vm_compute.
  - replace (Z.to_nat _) with (20 + length (tx_options c flags now))%nat by lia.
    rewrite <- drop_drop, Hd. apply drop_app_length.
  - subst p. destruct (tx_packet_split c flags now payload) as [csum ->]. rewrite !length_app.
    change (length (tcp_header _ _ _ _ _ _ _ _)) with 20%nat. lia.
Qed.

Lemma tx_options_bytes c flags now : is_bytes (tx_options c flags now).
Proof.
  assert (is_bytes (timestamp_padded_option now (ts_recent c))) as Ht.
  { unfold timestamp_padded_option. do 4 (apply Forall_cons; split; [by_decide|]).
    apply Forall_app; split; apply be_split_bytes. }
  assert (is_bytes (window_scale_padded_option ++ mss_option (mss c))) as Hm.
  { apply Forall_app; split; [by_decide|]. do 2 (apply Forall_cons; split; [by_decide|]). apply be_split_bytes. }
  unfold tx_options. apply Forall_app; split; repeat case_match; done || constructor.
Qed.

(** Its checksum verifies. *)
Lemma tx_packet_chksum c flags now payload : is_bytes payload → tcpip_chksum (tx_packet c flags now payload) = 0.
Proof.
  intros Hp. unfold tx_packet, with_csum, tcp_header.
  set (hlen := u8 (Z.shiftl _ 2)). set (fl := u8 (if negb _ then _ else _)).
  assert (is_byte hlen ∧ is_byte fl) as [Hh Hf] by (split; apply wrap_range; lia). clearbody hlen fl.
  set (before := be_split 2 (local_port c) ++ le_split 2 (st_port (peer c)) ++ be_split 4 (snd_seq c) ++
    be_split 4 (rcv_ack c) ++ [hlen] ++ [fl] ++ be_split 2 (Z.shiftr (rcv_win c) (rcv_win_scale c))).
  set (after := [0; 0] ++ tx_options c flags now ++ payload).
  assert (is_bytes before) as Hb.
  { unfold before. repeat match goal with |- Forall _ (_ ++ _) => apply Forall_app; split end; first [apply be_split_bytes|apply le_split_bytes|constructor; [done|constructor]]. }
  assert (is_bytes after) as Ha.
  { apply Forall_app; split; [by_decide|]. apply Forall_app; split; [apply tx_options_bytes|done]. }
  assert (Nat.even (length before) = true) as He by (unfold before; rewrite !length_app; reflexivity).
  pose proof (chksum_verifies before after Hb Ha He) as Hc. unfold before, after in Hc.
  rewrite <- !app_assoc in Hc. rewrite <- !app_assoc. exact Hc.
Qed.

(** The packet passes the checks of a receiver. *)
Lemma tx_packet_check c flags now payload :
  is_bytes payload →
  rx_check (tx_packet c flags now payload) TCPIP_EMPTY_CSUM = Ok (20 + Zlen (tx_options c flags now)).
Proof.
  intros Hp. destruct (tx_packet_payload c flags now payload) as (Hh & _ & _ & Hl).
  pose proof (tx_packet_chksum c flags now payload Hp) as E.
  revert Hh Hl E. generalize (tx_packet c flags now payload) (tx_options c flags now). intros p o Hh Hl E.
  unfold rx_check, sizeof_tcp_header. fold (tcpip_chksum p). rewrite Hh, E.
  repeat match goal with |- context [?a <? ?b] => destruct (Z.ltb_spec a b); [lia|] end. done.
Qed.

(** The options parse back. *)
Lemma tx_options_parse c flags now payload :
  ∃ options, tcp_rx_opts (tx_options c flags now ++ payload) (Zlen (tx_options c flags now)) = Some options ∧
  (if has flags TCP_SYN
   then (λ opt, field opt 2 2) <$> mssopt options = Some (be_split 2 (mss c)) ∧
        (λ opt, byte opt 2) <$> wsopt options = Some TCP_RX_WINDOW_SCALE
   else mssopt options = None ∧ wsopt options = None) ∧
  (λ opt, field opt 2 4) <$> tsopt options =
    (if has flags TCP_SYN || has (Tcp.flags c) TCP_TS_ENABLED then Some (be_split 4 now) else None).
Proof.
  unfold tx_options. destruct (has flags TCP_SYN), (has (Tcp.flags c) TCP_TS_ENABLED); cbn [orb];
    (eexists; split; [reflexivity|]; split_and!; reflexivity).
Qed.

(** ** States *)

(** The states a connection goes through.  [SynAcked] has had its SYN
    acknowledged by a packet without a SYN; [SynRcvdFin] only occurs within the
    handling of a FIN ([moves]); [Closing] is both CLOSING and LAST_ACK. *)
Inductive phase : Set :=
| SynSent | SynAcked | SynRcvd | SynRcvdFin | Established | FinWait1 | FinWait2 | Closing | TimeWait | CloseWait.

#[export] Instance phase_eq_dec : EqDecision phase.
Proof. solve_decision. Defined.

Definition state_of (ph : phase) : Z :=
  match ph with
  | SynSent => TCP_SYN_SENT
  | SynAcked => Z.lor (TCP_STATE_SENT TCP_SYN) (TCP_STATE_ACKED TCP_SYN)
  | SynRcvd => TCP_SYN_RCVD
  | SynRcvdFin => Z.lor TCP_SYN_RCVD (TCP_STATE_RCVD TCP_FIN)
  | Established => TCP_ESTABLISHED
  | FinWait1 => TCP_FIN_WAIT_1
  | FinWait2 => TCP_FIN_WAIT_2
  | Closing => TCP_CLOSING_OR_LAST_ACK
  | TimeWait => TCP_TIME_WAIT
  | CloseWait => TCP_CLOSE_WAIT
  end.

(** How the code moves between them. *)
Inductive transition : phase → phase → Prop :=
(* SYN received *)
| syn_sent_syn : transition SynSent SynRcvd
| syn_acked_syn : transition SynAcked Established
(* acknowledgement of SYN or FIN received *)
| syn_sent_ack : transition SynSent SynAcked
| syn_rcvd_ack : transition SynRcvd Established
| syn_rcvd_fin_ack : transition SynRcvdFin CloseWait
| fin_wait_1_ack : transition FinWait1 FinWait2
| closing_ack : transition Closing TimeWait
(* closed by the application, all data acknowledged *)
| established_close : transition Established FinWait1
| close_wait_close : transition CloseWait Closing
(* FIN received *)
| syn_rcvd_fin : transition SynRcvd SynRcvdFin
| established_fin : transition Established CloseWait
| fin_wait_1_fin : transition FinWait1 Closing
| fin_wait_2_fin : transition FinWait2 TimeWait.

Create HintDb tcp.
#[export] Hint Constructors transition : tcp.

(** Where a step of the code takes it; [SynRcvdFin] is not left over. *)
Definition moves (ph ph' : phase) : Prop := rtc transition ph ph' ∧ (ph = SynRcvdFin ∨ ph' ≠ SynRcvdFin).

#[export] Instance moves_preorder : PreOrder moves.
Proof.
  split.
  - intros ph. split; [done|]. destruct (decide (ph = SynRcvdFin)); auto.
  - intros ph1 ph2 ph3 [H12 S1] [H23 S2]. split; [by etrans|]. naive_solver.
Qed.

Lemma moves_once ph ph' : transition ph ph' → ph' ≠ SynRcvdFin → moves ph ph'.
Proof. intros. split; [by apply rtc_once|by right]. Qed.

(** What the code's tests say of a state. *)
Definition syn_acked (ph : phase) : bool := has (state_of ph) (TCP_STATE_ACKED TCP_SYN).
Definition fin_acked (ph : phase) : bool := has (state_of ph) (TCP_STATE_ACKED TCP_FIN).
Definition fin_sent (ph : phase) : bool := has (state_of ph) (TCP_STATE_SENT TCP_FIN).
Definition synced (ph : phase) : bool := has (state_of ph) (TCP_STATE_RCVD TCP_SYN).

(** ** The sender's invariant *)

Definition accepted (l : list event) : bytes :=
  mjoin ((λ ev, match ev with EvSend data => data | _ => [] end) <$> l).
Definition packets (l : list event) : list bytes :=
  mjoin ((λ ev, match ev with EvTx packet => [packet] | _ => [] end) <$> l).

Lemma accepted_app l1 l2 : accepted (l1 ++ l2) = accepted l1 ++ accepted l2.
Proof. unfold accepted. by rewrite fmap_app, join_app. Qed.
Lemma packets_app l1 l2 : packets (l1 ++ l2) = packets l1 ++ packets l2.
Proof. unfold packets. by rewrite fmap_app, join_app. Qed.

Definition closed (c : tcp_connection) : bool := has (flags c) TCP_XFER_CLOSED.

(** The bounds on what is in flight. *)
Definition sent_ok (ph : phase) (c : tcp_connection) : Prop :=
  match ph with
  | SynSent => 0 ≤ snd_sent c ≤ 1
  | SynRcvd | SynRcvdFin => snd_sent c = 1
  | FinWait1 | Closing => 0 ≤ snd_sent c ≤ 1
  | FinWait2 | TimeWait => snd_sent c = 0
  | SynAcked | Established | CloseWait => 0 ≤ snd_sent c ≤ Zlen (mjoin (tx_queue c))
  end.

(** With [iss] the initial sequence number and [D] the data accepted from the
    application, of which [A] bytes are acknowledged: the rest is queued, and
    the sequence number is that of the first unacknowledged octet. *)
Record snd_ok (iss : Z) (D : bytes) (ph : phase) (A : Z) (c : tcp_connection) : Prop := {
  snd_state : tcp_state c = state_of ph;
  snd_range : 0 ≤ A ≤ Zlen D;
  snd_queue : mjoin (tx_queue c) = drop (Z.to_nat A) D;
  snd_seqno : snd_seq c = u32 (iss + Z.b2z (syn_acked ph) + A + Z.b2z (fin_acked ph));
  snd_nosyn : syn_acked ph = false → A = 0;
  snd_fin : fin_sent ph = true → tx_queue c = [] ∧ closed c = true;
  snd_open : synced ph = false → closed c = false ∧ rx_queue c = [];
  snd_flight : sent_ok ph c;
  snd_window : 0 ≤ snd_win c;
  snd_alive : deleted c = false;
}.

(** What the sender's invariant does not see. *)
Record snd_same (c c' : tcp_connection) : Prop := {
  same_state : tcp_state c' = tcp_state c;
  same_seq : snd_seq c' = snd_seq c;
  same_sent : snd_sent c' = snd_sent c;
  same_win : snd_win c' = snd_win c;
  same_tx : tx_queue c' = tx_queue c;
  same_closed : closed c' = closed c;
  same_rx : rx_queue c = [] → rx_queue c' = [];
  same_deleted : deleted c' = deleted c;
}.

#[export] Instance snd_same_preorder : PreOrder snd_same.
Proof.
  split; [done|]. intros c1 c2 c3 [] []. split; try congruence. auto.
Qed.

Lemma snd_ok_same iss D ph A c c' : snd_same c c' → snd_ok iss D ph A c → snd_ok iss D ph A c'.
Proof.
  intros [Es Eq En Ew Et Ec Er Ed] [S1 S2 S3 S4 S5 S6 S7 S8 S9 S10].
  split; try congruence; try done.
  - intros Hf. rewrite Et, Ec. auto.
  - intros Hs. destruct (S7 Hs). split; [congruence|auto].
  - unfold sent_ok in *. rewrite En, Et. done.
Qed.

Ltac snd_simple := split; try reflexivity; done.

Lemma discard_one_same c : snd_same c (discard_one c).
Proof.
  unfold discard_one. destruct (rev (rx_queue c)) as [|q rest] eqn:E; [done|].
  split; try (by destruct (_ <? _)). intros Hq. by rewrite Hq in E.
Qed.

Lemma discards_iter_same n c : snd_same c (Nat.iter n discard_one c).
Proof. induction n as [|n IH]; [done|]. etrans; [exact IH|]. apply discard_one_same. Qed.

Lemma expand_rcv_win_same x c : snd_same c (expand_rcv_win x c).
Proof. unfold expand_rcv_win. destruct (_ <? _); snd_simple. Qed.

Lemma clear_ack_pending_same c : snd_same c (set_flags (Z.land (flags c) (Z.lnot TCP_ACK_PENDING)) c).
Proof. split; try done. unfold closed, has. tcp_simpl. by rewrite <- Z.land_assoc. Qed.

Lemma set_ack_pending_same c : snd_same c (set_flags (Z.lor (flags c) TCP_ACK_PENDING) c).
Proof. split; try done. unfold closed. tcp_simpl. rewrite has_lor. apply orb_false_r. Qed.

Lemma tcp_rx_seq_same c n : snd_same c (tcp_rx_seq c n).
Proof. unfold tcp_rx_seq. etrans; [|apply set_ack_pending_same]. snd_simple. Qed.

#[export] Hint Resolve discard_one_same discards_iter_same expand_rcv_win_same clear_ack_pending_same
  set_ack_pending_same tcp_rx_seq_same : tcp.

(** *** Acknowledgement *)

(** The start of the FIN. *)
Lemma start_fin_snd iss D ph A c :
  snd_ok iss D ph A c → closed c = true → syn_acked ph = true →
  ∃ ph', snd_ok iss D ph' A (start_fin c) ∧ moves ph ph' ∧ syn_acked ph' = true ∧ synced ph' = synced ph ∧
    closed (start_fin c) = true.
Proof.
  intros Hok Hc Ha. unfold start_fin. destruct (_ && _) eqn:E; [|by exists ph].
  apply andb_true_iff in E as [Eq%bool_decide_eq_true Es]. pose proof Hok as [S1 S2 S3 S4 S5 S6 S7 S8 S9 S10].
  rewrite S1 in Es |- *. unfold sent_ok in S8. rewrite Eq in S8.
  destruct ph; try discriminate Ha; try discriminate Es; [destruct (S7 eq_refl); congruence|exists FinWait1|exists Closing];
    (split_and!; [|apply moves_once; auto with tcp|done|done|done]); split; tcp_simpl; try done; cbn in *; lia.
Qed.

Section sender.
Context `{Platform, Ticks, TcpEnv} `{!XferPeer}.
Implicit Types (w : world) (c : tcp_connection).

Definition flags_acked (c : tcp_connection) : Z := Z.land (TCP_FLAGS_SENDING (tcp_state c)) (Z.lor TCP_SYN TCP_FIN).

(** An acknowledgement of new data, before any FIN. *)
Definition rx_acked (now : Z) (c : tcp_connection) (ack win : Z) : tcp_connection :=
  let ack_len := u32 (ack - snd_seq c) in
  let acked := flags_acked c in
  let c := set_timer (stop_timer now (timer c)) (set_snd_win win c) in
  let c := if negb (acked =? 0) then set_pending_flags (pending_put (pending_flags c)) c else c in
  let c := (tcp_process_tx_queue (set_snd_sent 0 (set_snd_seq ack c))
              (if negb (acked =? 0) then ack_len - 1 else ack_len) None true).2 in
  if negb (acked =? 0) then set_tcp_state (Z.lor (tcp_state c) (TCP_STATE_ACKED acked)) c else c.

Lemma tcp_rx_ack_eq now c ack win :
  tcp_rx_ack now c ack win =
    let ack_len := u32 (ack - snd_seq c) in
    if snd_sent c <? ack_len
    then (if TCP_HAS_BEEN_ESTABLISHED (tcp_state c) then Ok tt else Err EINVAL, c)
    else (Ok tt, if ack_len =? 0 then set_snd_win win c
                 else let c := rx_acked now c ack win in if closed c then start_fin c else c).
Proof.
  unfold tcp_rx_ack. cbv zeta. destruct (_ <? _); [by destruct (TCP_HAS_BEEN_ESTABLISHED _)|].
  destruct (_ =? 0); [done|]. f_equal.
  match goal with |- (if bool_decide (tx_queue ?x = []) && _ && _ then _ else _) = _ =>
    change (rx_acked now c ack win) with x; generalize x end.
  intros x. unfold start_fin, closed. rewrite (andb_comm (bool_decide _)).
  destruct (has (flags x) TCP_XFER_CLOSED); done.
Qed.

Lemma flags_acked_phase ph c : tcp_state c = state_of ph →
  flags_acked c = match ph with SynSent | SynRcvd | SynRcvdFin => TCP_SYN | FinWait1 | Closing => TCP_FIN | _ => 0 end.
Proof. unfold flags_acked. intros ->. by destruct ph. Qed.

(** The connection [c'] after [m] octets of data were acknowledged. *)
Record acked (c c' : tcp_connection) (state m ack win : Z) : Prop := {
  acked_seq : snd_seq c' = ack;
  acked_sent : snd_sent c' = 0;
  acked_win : snd_win c' = win;
  acked_flags : flags c' = flags c;
  acked_rx : rx_queue c' = rx_queue c;
  acked_deleted : deleted c' = deleted c;
  acked_state : tcp_state c' = state;
  acked_data : mjoin (tx_queue c') = drop (Z.to_nat m) (mjoin (tx_queue c));
  acked_empty : mjoin (tx_queue c') = [] → tx_queue c' = [];
}.

Lemma rx_acked_fields now c ack win :
  let fl := flags_acked c in
  let len := if negb (fl =? 0) then u32 (ack - snd_seq c) - 1 else u32 (ack - snd_seq c) in
  0 ≤ len →
  acked c (rx_acked now c ack win)
    (if negb (fl =? 0) then Z.lor (tcp_state c) (TCP_STATE_ACKED fl) else tcp_state c) len ack win.
Proof.
  intros fl len Hlen. unfold rx_acked. fold fl. cbv zeta. fold len. unfold tcp_process_tx_queue.
  set (c1 := set_snd_sent 0 _).
  assert (tx_queue c1 = tx_queue c) as Hq by (subst c1; by destruct (negb _)).
  pose proof (process_tx_loop_remove (tx_queue c1) len None (pending_data c1) Hlen) as Hl.
  destruct (process_tx_loop _ _ _ _ _) as [[[l d] q] p]. destruct Hl as (_ & Hj & Hn). rewrite Hq in Hj.
  cbn [snd]. subst c1. destruct (negb (fl =? 0)); split; tcp_simpl; done.
Qed.

Lemma acked_snd iss D ph ph' A m n c c' ack win :
  snd_ok iss D ph A c → acked c c' (state_of ph') m ack win → ack = u32 (snd_seq c + n) →
  0 ≤ m ≤ Zlen (mjoin (tx_queue c)) → 0 ≤ win →
  n = Z.b2z (syn_acked ph') - Z.b2z (syn_acked ph) + m + Z.b2z (fin_acked ph') - Z.b2z (fin_acked ph) →
  synced ph' = synced ph → fin_sent ph' = fin_sent ph → syn_acked ph' = true → sent_ok ph' c' →
  snd_ok iss D ph' (A + m) c'.
Proof.
  intros [S1 S2 S3 S4 S5 S6 S7 S8 S9 S10] [F1 F2 F3 F4 F5 F6 F7 F8 F9] Hack Hm Hw Hn Hsy Hfi Hsa Hsent.
  assert (Zlen (mjoin (tx_queue c)) = Zlen D - A) as Hlen by (rewrite S3, length_drop; lia).
  split; try done.
  - lia.
  - rewrite F8, S3, drop_drop. f_equal. lia.
  - rewrite F1, Hack, S4, wrap_add_l. f_equal. lia.
  - congruence.
  - rewrite Hfi. intros Hfs. destruct (S6 Hfs) as [Hq Hc]. unfold closed. rewrite F4. split; [|done].
    apply F9. rewrite F8, Hq. apply drop_nil.
  - rewrite Hsy. intros Hs. destruct (S7 Hs) as [Hc Hq]. unfold closed. rewrite F4, F5. done.
  - by rewrite F3.
  - by rewrite F6.
Qed.

Ltac eval_b2z :=
  repeat match goal with |- context [Z.b2z ?b] => let v := eval vm_compute in (Z.b2z b) in change (Z.b2z b) with v end.

(** The state an acknowledgement of something in flight leads to, and the length
    of the data among [n] octets of sequence space. *)
Definition ack_phase (ph : phase) : phase :=
  match ph with
  | SynSent => SynAcked
  | SynRcvd => Established
  | SynRcvdFin => CloseWait
  | FinWait1 => FinWait2
  | Closing => TimeWait
  | _ => ph
  end.
Definition ack_data (ph : phase) (n : Z) : Z := match ph with SynAcked | Established | CloseWait => n | _ => n - 1 end.

Lemma rx_acked_snd iss D ph A now c ack win :
  snd_ok iss D ph A c → in_range 32 ack → 0 ≤ win → 0 < u32 (ack - snd_seq c) ≤ snd_sent c →
  snd_ok iss D (ack_phase ph) (A + ack_data ph (u32 (ack - snd_seq c))) (rx_acked now c ack win) ∧
  0 ≤ ack_data ph (u32 (ack - snd_seq c)).
Proof.
  intros Hok Hack Hw Hl. pose proof Hok as [S1 _ _ _ _ _ _ S8 _ _]. set (n := u32 (ack - snd_seq c)) in *.
  assert (ack = u32 (snd_seq c + n)) as Hseq.
  { subst n. rewrite wrap_add_r. replace (_ + _) with ack by lia. by rewrite wrap_small. }
  pose proof (rx_acked_fields now c ack win) as Hf. cbv zeta in Hf. fold n in Hf.
  rewrite (flags_acked_phase ph c S1), S1 in Hf. unfold sent_ok in S8.
  assert (0 ≤ ack_data ph n) as Hd by (destruct ph; cbn; lia). split; [|done].
  assert (acked c (rx_acked now c ack win) (state_of (ack_phase ph)) (ack_data ph n) ack win) as Ha
    by (destruct ph; try (apply Hf; cbn; lia); lia).
  pose proof (acked_sent _ _ _ _ _ _ Ha) as Es.
  apply (acked_snd iss D ph _ A _ n c _ ack win); try done; try (by destruct ph);
    [destruct ph; cbn [ack_data]; eval_b2z; lia..|].
  unfold sent_ok. destruct ph; cbn [ack_phase]; rewrite Es; lia.
Qed.

Lemma ack_phase_facts ph :
  moves ph (ack_phase ph) ∧ synced (ack_phase ph) = synced ph ∧ syn_acked (ack_phase ph) = true.
Proof. split; [destruct ph; first [reflexivity|apply moves_once; auto with tcp; fail]|by destruct ph]. Qed.

(** tcp_rx_ack keeps the invariant, and acknowledged data stays acknowledged. *)
Lemma tcp_rx_ack_snd iss D ph A now c ack win :
  snd_ok iss D ph A c → in_range 32 ack → 0 ≤ win →
  let c' := (tcp_rx_ack now c ack win).2 in
  ∃ ph' A', snd_ok iss D ph' A' c' ∧ moves ph ph' ∧ synced ph' = synced ph ∧ A ≤ A' ∧ closed c' = closed c ∧
    (0 < u32 (ack - snd_seq c) ≤ snd_sent c → syn_acked ph' = true) ∧ (ph' = SynSent → snd_sent c' = snd_sent c).
Proof.
  intros Hok Hack Hw. rewrite tcp_rx_ack_eq. cbv zeta. destruct (Z.ltb_spec (snd_sent c) (u32 (ack - snd_seq c))).
  { exists ph, A. split_and!; [done..|lia|done]. }
  cbn [snd]. destruct (Z.eqb_spec (u32 (ack - snd_seq c)) 0) as [E|E].
  { exists ph, A. split_and!; [|done..|lia|done]. by destruct Hok. }
  assert (0 ≤ u32 (ack - snd_seq c)) by (apply (wrap_range 32); lia).
  destruct (rx_acked_snd iss D ph A now c ack win Hok Hack Hw) as [Hok' Hd]; [lia|].
  destruct (ack_phase_facts ph) as (Hr & Hs & Ha). set (c1 := rx_acked now c ack win) in *.
  assert (closed c1 = closed c) as Hc by (unfold closed, c1, rx_acked, tcp_process_tx_queue;
    destruct (process_tx_loop _ _ _ _ _) as [[[? ?] ?] ?]; cbn [snd]; by destruct (negb _)).
  destruct (closed c1) eqn:Ec; [|eexists _, _; split_and!; [exact Hok'|done|done|lia|congruence|done|by destruct ph]].
  destruct (start_fin_snd _ _ _ _ _ Hok' Ec Ha) as (ph' & Hok2 & Hr2 & Ha2 & Hs2 & Hc2).
  eexists ph', _. split_and!; [exact Hok2|by etrans|congruence|lia|congruence|done|by intros ->].
Qed.

(** *** What is sent *)

Definition header_len (packet : bytes) : Z := Z.land (hdr_hlen packet) TCP_MASK_HLEN / 16 * 4.

(** A packet of the trace: a reset, or a segment of the stream that starts after
    the initial sequence number, as a receiver of the stream expects them. *)
Definition sent_packet (iss : Z) (D packet : bytes) : Prop :=
  has (hdr_flags packet) TCP_RST = true ∨
  ∃ off, -1 ≤ off ≤ Zlen D + 1 ∧ from_peer iss D off packet (drop (Z.to_nat (header_len packet)) packet).
Definition no_fin (packet : bytes) : Prop := has (hdr_flags packet) TCP_FIN = false.

Lemma tx_flags_cases (flags : Z) payload m :
  0 ≤ flags < 256 → has TCP_PSH m = false → has (tx_flags flags payload) m = has flags m.
Proof.
  intros Hf Hm. unfold tx_flags. assert (u8 flags = flags) as Hu by (by apply wrap_small).
  destruct (negb _); [|by rewrite Hu]. rewrite (wrap_small 8).
  - by rewrite has_lor, Hm, orb_false_r.
  - split; [apply Z.lor_nonneg; unfold TCP_PSH; lia|]. apply Z.log2_lt_cancel.
    rewrite Z.log2_lor by (unfold TCP_PSH; lia). change (Z.log2 (2 ^ 8)) with 8.
    apply Z.max_lub_lt; [|done]. destruct (decide (flags = 0)) as [->|]; [done|]. apply Z.log2_lt_pow2; lia.
Qed.

Lemma sending_range ph : 0 ≤ TCP_FLAGS_SENDING (state_of ph) < 256.
Proof. by destruct ph. Qed.

(** A packet sent in a state is a segment of the stream. *)
Lemma tx_packet_sent iss D ph A c t len :
  snd_ok iss D ph A c → 0 ≤ len ≤ TCP_PATH_MTU → (TCP_CAN_SEND_DATA (state_of ph) = false → len = 0) →
  let p := tx_packet c (TCP_FLAGS_SENDING (state_of ph)) t (take (Z.to_nat len) (mjoin (tx_queue c))) in
  sent_packet iss D p ∧ (fin_sent ph = false → no_fin p).
Proof.
  intros [S1 S2 S3 S4 S5 S6 S7 S8 S9 S10] Hlen Hcan p.
  set (payload := take (Z.to_nat len) (mjoin (tx_queue c))) in *.
  destruct (tx_packet_fields c (TCP_FLAGS_SENDING (state_of ph)) t payload) as (_ & _ & Hseq & _ & Hfl & _ & _).
  destruct (tx_packet_payload c (TCP_FLAGS_SENDING (state_of ph)) t payload) as (Hh & Hp & _ & _). fold p in Hseq, Hfl, Hh, Hp.
  pose proof (λ m, tx_flags_cases _ payload m (sending_range ph)) as Hfc. rewrite <- Hfl in Hfc.
  split; [|intros Hfs; unfold no_fin; rewrite Hfc by done; by destruct ph].
  right. unfold from_peer, header_len. rewrite Hh, Hp, Hseq, !Hfc by done.
  rewrite be_combine_split4 by (rewrite S4; apply (wrap_range 32); lia). rewrite S4. unfold seqno.
  assert (payload = piece D A (Zlen payload) ∧ A + Zlen payload ≤ Zlen D ∧ Zlen payload ≤ len) as (Hpc & Hfit & Hle).
  { unfold piece. subst payload. rewrite S3, length_take, length_drop. split_and!; [|lia..].
    destruct (decide (Z.to_nat len ≤ length D - Z.to_nat A)%nat); [f_equal; lia|].
    rewrite !take_ge by (rewrite length_drop; lia). done. }
  unfold TCP_PATH_MTU in *.
  assert (∀ fin, (fin = true → A + Zlen payload = Zlen D) → genuine D A payload fin) as Hgen
    by (intros fin Hfin; split_and!; [lia|lia|lia|done|done]).
  assert (fin_sent ph = true → A = Zlen D ∧ payload = []) as Hend.
  { intros Hf. destruct (S6 Hf) as [Hq _]. subst payload. rewrite Hq in S3 |- *.
    assert (Zlen (drop (Z.to_nat A) D) = 0) as E by (by rewrite <- S3). rewrite length_drop in E.
    split; [lia|apply take_nil]. }
  assert (TCP_CAN_SEND_DATA (state_of ph) = false → payload = []) as Hnone
    by (intros Hc; subst payload; rewrite (Hcan Hc); apply take_0).
  destruct ph;
    [exists (-1)|exists A|exists (-1)|exists (-1)|exists A|exists A|exists (A + 1)|exists A|exists (A + 1)|exists A];
    (split; [lia|]); (split; [done|]); rewrite ?(S5 eq_refl);
    (split; [f_equal; eval_b2z; rewrite ?(S5 eq_refl); lia|]); cbv [has state_of];
    first [by split_and!; [|apply Hnone|]|by left; split; [apply Hnone|]
          |right; apply Hgen; done|right; apply Hgen; destruct (Hend eq_refl) as [-> ->]; cbn; lia].
Qed.

(** *** Connections and their traces *)

Definition log_ok (iss : Z) (w : world) : Prop :=
  Forall (sent_packet iss (accepted (log w))) (packets (log w)) ∧
  (closed (conn w) = false → Forall no_fin (packets (log w))).

(** A connection in a state, with [A] octets acknowledged. *)
Definition alive (iss : Z) (ph : phase) (A : Z) (w : world) : Prop :=
  snd_ok iss (accepted (log w)) ph A (conn w) ∧ log_ok iss w.

(** A connection that has been deleted. *)
Definition dead (iss : Z) (w : world) : Prop :=
  (deleted (conn w) = true ∧ tcp_state (conn w) = TCP_CLOSED ∧ closed (conn w) = true ∧ 0 ≤ snd_win (conn w)) ∧
  log_ok iss w.

(** Steps the sender's invariant does not see. *)
Definition quiet (w w' : world) : Prop :=
  snd_same (conn w) (conn w') ∧ accepted (log w') = accepted (log w) ∧ packets (log w') = packets (log w).

#[export] Instance quiet_preorder : PreOrder quiet.
Proof.
  split; [done|]. intros w1 w2 w3 (S1 & A1 & P1) (S2 & A2 & P2). split_and!; [by etrans|congruence..].
Qed.

Lemma quiet_upd f w : snd_same (conn w) (f (conn w)) → quiet w (upd f w).
Proof. done. Qed.

Lemma quiet_log w e ev : accepted [ev] = [] → packets [ev] = [] → quiet w (World (conn w) e (log w ++ [ev])).
Proof. intros Ha Hp. split_and!; [done|..]; cbn [log]; [rewrite accepted_app, Ha|rewrite packets_app, Hp]; apply app_nil_r. Qed.

Lemma quiet_discards n w e : quiet w (discards n (World (conn w) e (log w))).
Proof. split_and!; cbn; auto with tcp. Qed.

Lemma log_ok_quiet iss w w' : quiet w w' → log_ok iss w → log_ok iss w'.
Proof. intros ([] & Ha & Hp) [L1 L2]. unfold log_ok. rewrite Ha, Hp. split; [done|]. intros. apply L2. congruence. Qed.

Lemma log_ok_conn iss w w' : log w' = log w → closed (conn w') = closed (conn w) → log_ok iss w → log_ok iss w'.
Proof. unfold log_ok. by intros -> ->. Qed.

Lemma alive_quiet iss ph A w w' : quiet w w' → alive iss ph A w → alive iss ph A w'.
Proof.
  intros Q [Hok Hlog]. split; [|by eapply log_ok_quiet]. destruct Q as (S & -> & _). by eapply snd_ok_same.
Qed.

Lemma dead_quiet iss w w' : quiet w w' → dead iss w → dead iss w'.
Proof.
  intros Q [(? & ? & ? & ?) Hlog]. split; [|by eapply log_ok_quiet]. destruct Q as ([] & _). split_and!; congruence.
Qed.

(** Sending a packet. *)
Lemma log_ok_tx iss w e p :
  log_ok iss w → sent_packet iss (accepted (log w)) p → (closed (conn w) = false → no_fin p) →
  log_ok iss (World (conn w) e (log w ++ [EvTx p])).
Proof.
  intros [L1 L2] Hp Hf. unfold log_ok. cbn [log conn]. rewrite accepted_app, packets_app.
  change (accepted [EvTx p]) with ([] : bytes). change (packets [EvTx p]) with [p]. rewrite app_nil_r.
  split; [|intros Hc]; (apply Forall_app; split; [auto|]); constructor; auto.
Qed.

Lemma xmit_len_range c : 0 ≤ snd_win c →
  0 ≤ xmit_len c ≤ TCP_PATH_MTU ∧ xmit_len c ≤ Zlen (mjoin (tx_queue c)) ∧
  (TCP_CAN_SEND_DATA (tcp_state c) = false → xmit_len c = 0).
Proof.
  intros Hw. unfold xmit_len, tcp_xmit_win, TCP_PATH_MTU. destruct (TCP_CAN_SEND_DATA _); [|split_and!; [done..|lia|done]].
  cbn [negb]. set (win := if _ <? _ then _ else _).
  assert (0 ≤ win ≤ 1208) by (subst win; destruct (Z.ltb_spec (1280 - 40 - 20 - 12) (snd_win c)); lia).
  unfold tcp_process_tx_queue. rewrite process_tx_loop_keep by lia. cbn [fst]. split_and!; [lia..|done].
Qed.

Lemma xmit_payload c len :
  0 ≤ len → default [] (tcp_process_tx_queue c len (Some []) false).1.2 = take (Z.to_nat len) (mjoin (tx_queue c)).
Proof. intros. unfold tcp_process_tx_queue. by rewrite process_tx_loop_keep by lia. Qed.

(** The transmit path, once it knows what is in flight: either nothing is sent,
    or a packet with the flags and the data of the state. *)
Lemma tcp_xmit_cases w :
  0 ≤ snd_win (conn w) →
  tcp_xmit w = w ∨
  let w1 := upd (set_snd_sent (xmit_seq_len (conn w))) w in
  ∃ t, let w2 := upd (set_timer t) w1 in
  quiet w2 (tcp_xmit w) ∨
  ∃ w3 e p t', quiet w2 w3 ∧ quiet (World (conn w3) e (log w3 ++ [EvTx p])) (tcp_xmit w) ∧
    p = tx_packet (conn w3) (TCP_FLAGS_SENDING (tcp_state (conn w))) t'
          (take (Z.to_nat (xmit_len (conn w))) (mjoin (tx_queue (conn w3)))).
Proof.
  intros Hw. destruct (xmit_len_range (conn w) Hw) as ([Hlen _] & _ & _).
  remember (tcp_xmit w) as w' eqn:E. revert E. unfold tcp_xmit. destruct (timer_running _); [by left|].
  set (w1 := upd (set_snd_sent _) w). destruct (_ && _); [intros ->; right; exists (timer (conn w)); by left|].
  set (w2 := if negb _ then _ else w1).
  assert (∃ t, quiet (upd (set_timer t) w1) w2) as [t Q2].
  { subst w2. destruct (negb _); [by eexists; split_and!; [snd_simple|..]|]. by exists (timer (conn w)). }
  intros E. right. exists t. revert E. destruct (alloc_iob _ _) as [[ok n] e]. set (w3 := discards n _).
  assert (quiet (upd (set_timer t) w1) w3) as Q3 by (etrans; [exact Q2|apply quiet_discards]).
  destruct ok; [|intros ->; by left]. cbn [negb]. rewrite xmit_payload by done.
  set (w4 := upd (expand_rcv_win _) w3).
  assert (quiet (upd (set_timer t) w1) w4) as Q4 by (etrans; [exact Q3|]; apply quiet_upd; auto with tcp).
  assert (tx_queue (conn w4) = tx_queue (conn w3)) as <- by apply expand_rcv_win_same.
  set (p := tx_packet _ _ _ _).
  destruct (tcpip_tx_tcp p (peer (conn w4)) (ext w4)) as [[rc n'] e'].
  intros ->. right. exists w4, e', p, (now w4). split_and!; [done| |done].
  set (w5 := World (conn w4) e' (log w4 ++ [EvTx p])). etrans; [apply (quiet_discards n' w5 e')|].
  destruct rc; [|done]. apply quiet_upd. auto with tcp.
Qed.

Lemma snd_ok_sending iss D ph A c : snd_ok iss D ph A c → snd_ok iss D ph A (set_snd_sent (xmit_seq_len c) c).
Proof.
  intros [S1 S2 S3 S4 S5 S6 S7 S8 S9 S10]. split; try done. unfold sent_ok. tcp_simpl.
  destruct (xmit_len_range c S9) as ([L1 L2] & L3 & L4). unfold xmit_seq_len, TCP_PATH_MTU in *. rewrite S1 in *.
  rewrite (wrap_small 32 (xmit_len c)) by (unfold in_range; lia).
  destruct ph;
    match goal with |- context [has ?a ?b] => let v := eval vm_compute in (has a b) in change (has a b) with v end;
    cbn iota; try rewrite (L4 eq_refl); try rewrite (wrap_small 32 (0 + 1)) by done; lia.
Qed.

(** The transmit path keeps the state. *)
Lemma alive_xmit iss ph A w : alive iss ph A w → alive iss ph A (tcp_xmit w).
Proof.
  intros [Hok Hlog]. pose proof (snd_window _ _ _ _ _ Hok) as Hw. pose proof (snd_state _ _ _ _ _ Hok) as Hst.
  destruct (tcp_xmit_cases w Hw) as [->|[t Hx]]; [done|]. cbv zeta in Hx.
  set (w2 := upd (set_timer t) _) in Hx.
  assert (alive iss ph A w2) as Ha2.
  { split; [|done]. eapply snd_ok_same; [|by apply snd_ok_sending]. snd_simple. }
  destruct Hx as [Q|(w3 & e & p & t' & Q3 & Q4 & ->)]; [by eapply alive_quiet|].
  apply (alive_quiet _ _ _ _ _ Q4). pose proof (alive_quiet _ _ _ _ _ Q3 Ha2) as [Hok3 Hlog3].
  destruct (xmit_len_range (conn w) Hw) as (Hlen & _ & Hcan). rewrite Hst in Hcan |- *.
  destruct (tx_packet_sent iss _ ph A (conn w3) t' (xmit_len (conn w)) Hok3 Hlen Hcan) as [Hp Hf].
  assert (closed (conn w3) = false → fin_sent ph = false) as Hcf.
  { intros Hc. destruct (fin_sent ph) eqn:E; [|done]. destruct (snd_fin _ _ _ _ _ Hok3 E). congruence. }
  split; [|apply log_ok_tx; auto]. cbn [conn log]. rewrite accepted_app, app_nil_r. done.
Qed.

Lemma dead_xmit iss w : dead iss w → dead iss (tcp_xmit w).
Proof.
  intros [(Hd & Hst & Hc & Hw) Hlog]. destruct (tcp_xmit_cases w Hw) as [->|[t Hx]]; [done|]. cbv zeta in Hx.
  set (w2 := upd (set_timer t) _) in Hx. assert (dead iss w2) as Hd2 by done.
  destruct Hx as [Q|(w3 & e & p & t' & Q3 & Q4 & ->)]; [by eapply dead_quiet|].
  apply (dead_quiet _ _ _ Q4). pose proof (dead_quiet _ _ _ Q3 Hd2) as [(Hd3 & Hst3 & Hc3 & Hw3) Hlog3].
  split; [done|]. apply log_ok_tx; [done| |congruence]. left. rewrite Hst.
  destruct (tx_packet_fields (conn w3) (TCP_FLAGS_SENDING TCP_CLOSED) t'
    (take (Z.to_nat (xmit_len (conn w))) (mjoin (tx_queue (conn w3))))) as (_ & _ & _ & _ & -> & _).
  by rewrite tx_flags_cases.
Qed.

(** *** Close *)

(** Where a step takes a connection: along the transitions, or, if no SYN has
    been received, to deletion. *)
Definition evolves (iss : Z) (ph : phase) (A : Z) (w' : world) : Prop :=
  (∃ ph' A', alive iss ph' A' w' ∧ moves ph ph' ∧ A ≤ A') ∨ (dead iss w' ∧ synced ph = false).

Lemma transition_synced ph ph' : moves ph ph' → synced ph = true → synced ph' = true.
Proof. intros [Hr _]. revert Hr. induction 1 as [|? ? ? [] _ IH]; auto. Qed.

Lemma evolves_trans iss ph A w1 w2 :
  evolves iss ph A w1 → (∀ ph' A', alive iss ph' A' w1 → evolves iss ph' A' w2) → (dead iss w1 → dead iss w2) →
  evolves iss ph A w2.
Proof.
  intros [(ph' & A' & Ha & Hr & HA)|[Hd Hs]] Hnext Hdead; [|right; auto].
  destruct (Hnext _ _ Ha) as [(ph2 & A2 & Ha2 & Hr2 & HA2)|[Hd2 Hs2]].
  - left. exists ph2, A2. split_and!; [done|by etrans|lia].
  - right. split; [done|]. destruct (synced ph) eqn:E; [|done]. by rewrite (transition_synced _ _ Hr E) in Hs2.
Qed.

Lemma evolves_refl iss ph A w : alive iss ph A w → evolves iss ph A w.
Proof. intros. left. exists ph, A. by split_and!. Qed.

Lemma delete_conn_dead iss w t : closed (conn w) = true → 0 ≤ snd_win (conn w) → log_ok iss w → dead iss (upd (delete_conn t) w).
Proof. intros Hc Hw [Hlog _]. split; [done|]. split; [done|]. cbn. unfold closed in *. cbn. congruence. Qed.

(** The part of tcp_close after the notification of the application. *)
Lemma close_shutdown iss rc w :
  log_ok iss w →
  let '(n, e) := intf_shutdown rc (ext w) in
  let w1 := upd (λ tcp, set_flags (Z.lor (Tcp.flags tcp) TCP_XFER_CLOSED) tcp)
              (discards n (World (conn w) e (log w ++ [EvShutdown rc]))) in
  snd_same (set_flags (Z.lor (flags (conn w)) TCP_XFER_CLOSED) (conn w)) (conn w1) ∧
  closed (conn w1) = true ∧ accepted (log w1) = accepted (log w) ∧ log_ok iss w1.
Proof.
  intros Hlog. destruct (intf_shutdown rc (ext w)) as [n e]. set (w0 := discards n _). intros w1.
  assert (quiet w w0) as Q.
  { etrans; [by apply (quiet_log w e (EvShutdown rc))|]. set (w' := World _ _ _). apply (quiet_discards n w' e). }
  assert (closed (conn w1) = true) as Hc by (unfold closed; cbn [w1 upd conn]; tcp_simpl; rewrite has_lor; apply orb_true_r).
  destruct (log_ok_quiet _ _ _ Q Hlog) as [L1 _]. split_and!; [|done|apply Q|].
  - destruct Q as ([E1 E2 E3 E4 E5 E6 E7 E8] & _). split; try done.
    rewrite Hc. unfold closed. tcp_simpl. rewrite has_lor. symmetry. apply orb_true_r.
  - split; [done|]. rewrite Hc. done.
Qed.

Lemma snd_ok_close iss D ph A c :
  synced ph = true → snd_ok iss D ph A c → snd_ok iss D ph A (set_flags (Z.lor (flags c) TCP_XFER_CLOSED) c).
Proof.
  intros Hs [S1 S2 S3 S4 S5 S6 S7 S8 S9 S10]. split; try done; [|by rewrite Hs].
  intros Hf. split; [by apply S6|]. unfold closed. tcp_simpl. rewrite has_lor. apply orb_true_r.
Qed.

(** Closing a connection starts its FIN, or deletes it. *)
Lemma tcp_close_acked iss ph A rc w :
  alive iss ph A w →
  (∃ ph' A', alive iss ph' A' (tcp_close rc w) ∧ moves ph ph' ∧ A ≤ A' ∧ syn_acked ph' = true) ∨
  (dead iss (tcp_close rc w) ∧ synced ph = false).
Proof.
  intros [Hok Hlog]. pose proof (close_shutdown iss rc w Hlog) as Hc. unfold tcp_close.
  destruct (intf_shutdown rc (ext w)) as [n e]. set (w1 := upd _ (discards n _)) in *.
  destruct Hc as (Hsame & Hcl & Hacc & Hlog1). pose proof (snd_state _ _ _ _ _ Hok) as Hst.
  assert (tcp_state (conn w1) = state_of ph) as Hst1 by (rewrite (same_state _ _ Hsame); done).
  rewrite Hst1. fold (synced ph) (syn_acked ph). destruct (synced ph) eqn:Hs; cbn [negb].
  2:{ right. split; [|done]. apply delete_conn_dead; [done| |done]. rewrite (same_win _ _ Hsame). apply Hok. }
  assert (snd_ok iss (accepted (log w1)) ph A (conn w1)) as Hok1.
  { rewrite Hacc. eapply snd_ok_same; [exact Hsame|]. by apply snd_ok_close. }
  set (w2 := if negb (syn_acked ph) then _ else w1).
  assert (∃ ph' A', snd_ok iss (accepted (log w2)) ph' A' (conn w2) ∧ moves ph ph' ∧ A ≤ A' ∧
    closed (conn w2) = true ∧ syn_acked ph' = true ∧ log w2 = log w1) as (ph' & A' & Hok2 & Hr & HA & Hc2 & Ha & Hl).
  { subst w2. destruct (syn_acked ph) eqn:Ha; cbn [negb]; [by exists ph, A|].
    assert (in_range 32 (u32 (snd_seq (conn w1) + 1))) as Hrg by (apply wrap_range; lia).
    destruct (tcp_rx_ack_snd iss _ ph A (now w1) (conn w1) _ 0 Hok1 Hrg) as (ph' & A' & Hok' & Hr & _ & HA & Hc & Hsa & _); [lia|].
    exists ph', A'. split_and!; try done; [by etrans; [exact Hc|]|]. apply Hsa. rewrite wrap_sub_l.
    replace (_ + 1 - _) with 1 by lia. pose proof (snd_flight _ _ _ _ _ Hok1) as Hfl.
    change (u32 1) with 1. unfold sent_ok in Hfl. destruct ph; try done; lia. }
  destruct (start_fin_snd _ _ _ _ _ Hok2 Hc2 Ha) as (ph2 & Hok3 & Hr3 & Ha3 & _ & Hc3).
  left. exists ph2, A'. split_and!; [|by etrans|done|done]. split; [done|]. destruct Hlog1 as [L1 _].
  split; cbn [upd log conn]; [by rewrite Hl|congruence].
Qed.

Lemma tcp_close_alive iss ph A rc w : alive iss ph A w → evolves iss ph A (tcp_close rc w).
Proof. intros [(ph' & A' & ? & ? & ? & _)|?]%(tcp_close_acked _ _ _ rc); [left; by exists ph', A'|by right]. Qed.

(** Closing a connection whose state was reset deletes it. *)
Lemma tcp_close_reset iss rc w :
  log_ok iss w → 0 ≤ snd_win (conn w) → dead iss (tcp_close rc (upd (set_tcp_state TCP_CLOSED) w)).
Proof.
  intros Hlog Hw. pose proof (close_shutdown iss rc (upd (set_tcp_state TCP_CLOSED) w) Hlog) as Hc. unfold tcp_close.
  destruct (intf_shutdown rc _) as [n e]. set (w1 := upd _ (discards n _)) in *.
  destruct Hc as (Hsame & Hcl & Hacc & Hlog1). rewrite (same_state _ _ Hsame). cbn [negb].
  apply delete_conn_dead; [done| |done]. by rewrite (same_win _ _ Hsame).
Qed.

(** *** The application *)

Lemma genuine_app D D' off data fin : genuine D off data fin → fin = false → genuine (D ++ D') off data fin.
Proof.
  intros (G1 & G2 & G3 & G4 & _) ->. split_and!; [done| |done| |done].
  - rewrite length_app. lia.
  - rewrite G4 at 1. unfold piece. rewrite drop_app_le by lia. by rewrite take_app_le by (rewrite length_drop; lia).
Qed.

Lemma sent_packet_app iss D D' p : sent_packet iss D p → no_fin p → sent_packet iss (D ++ D') p.
Proof.
  intros [Hr|(off & Hoff & Hr & Hs & Hp)] Hf; [by left|]. right. exists off. rewrite length_app. split; [lia|].
  split_and!; [done|done|]. destruct (has (hdr_flags p) TCP_SYN); [done|].
  destruct Hp as [?|Hg]; [by left|right]. by apply genuine_app.
Qed.

(** New data joins the end of the queue. *)
Lemma tcp_xfer_deliver_alive iss ph A iobuf w :
  alive iss ph A w → closed (conn w) = false → alive iss ph A (tcp_xfer_deliver iobuf w).
Proof.
  intros [[S1 S2 S3 S4 S5 S6 S7 S8 S9 S10] [L1 L2]] Hc. unfold tcp_xfer_deliver. apply alive_xmit.
  set (w1 := World _ _ _).
  assert (accepted (log w1) = accepted (log w) ++ iobuf) as Ha.
  { cbn [w1 log upd]. rewrite accepted_app. unfold accepted at 2. cbn. by rewrite app_nil_r. }
  assert (packets (log w1) = packets (log w)) as Hp by (cbn [w1 log upd]; rewrite packets_app; apply app_nil_r).
  assert (mjoin (tx_queue (conn w1)) = mjoin (tx_queue (conn w)) ++ iobuf) as Hq.
  { cbn [w1 conn upd]. tcp_simpl. rewrite join_app. cbn. by rewrite app_nil_r. }
  split; [split|split]; rewrite ?Ha, ?Hp, ?Hq; try done.
  - rewrite length_app. lia.
  - rewrite S3. by rewrite drop_app_le by lia.
  - intros Hf. destruct (S6 Hf). congruence.
  - unfold sent_ok in *. rewrite Hq, length_app. cbn [w1 conn upd]. tcp_simpl. destruct ph; try done; lia.
  - specialize (L2 Hc). apply Forall_forall. intros p Hin. rewrite Forall_forall in L1, L2.
    apply sent_packet_app; auto.
Qed.

Lemma app_calls_alive iss w w' :
  app_calls w w' → (∀ ph A, alive iss ph A w → evolves iss ph A w') ∧ (dead iss w → dead iss w').
Proof.
  induction 1 as [w|w e w' _ IH|w w' _ IH|iobuf w w' Hc _ IH|rc w w' Hc _ IH].
  - split; [|done]. intros. by apply evolves_refl.
  - split; [intros ph A Ha|intros Hd]; by apply IH.
  - assert (quiet w (upd discard_one w)) by (apply quiet_upd; auto with tcp).
    split; [intros ph A Ha; apply IH; by eapply alive_quiet|intros Hd; apply IH; by eapply dead_quiet].
  - split; [|intros [(_ & _ & ? & _) _]; unfold closed in *; congruence].
    intros ph A Ha. apply IH. by apply tcp_xfer_deliver_alive.
  - split; [|intros [(_ & _ & ? & _) _]; unfold closed in *; congruence].
    intros ph A Ha. eapply evolves_trans; [by apply (tcp_close_alive iss ph A rc)| |].
    + intros ph' A' Ha'. apply IH. by apply alive_xmit.
    + intros Hd. apply IH. by apply dead_xmit.
Qed.

(** *** The receive path *)

Definition started (w : world) : Prop := tcp_state (conn w) = TCP_SYN_SENT → snd_sent (conn w) = 1.

(** A SYN. *)
Definition syn_phase (ph : phase) : phase :=
  match ph with SynSent => SynRcvd | SynAcked => Established | _ => ph end.

Lemma tcp_rx_syn_snd iss D ph A c seq options :
  snd_ok iss D ph A c → (ph = SynSent → snd_sent c = 1) →
  let c' := tcp_rx_syn c seq options in
  ∃ ph', snd_ok iss D ph' A c' ∧ moves ph ph' ∧ closed c' = closed c.
Proof.
  intros Hok Hst c'. set (st := Z.lor (TCP_STATE_SENT TCP_ACK) (TCP_STATE_RCVD TCP_SYN)).
  assert (∃ c1, snd_same c c1 ∧ (c' = c1 ∧ synced ph = true ∨
      c' = set_tcp_state (Z.lor (tcp_state c1) st) (tcp_rx_seq c1 1))) as (c1 & Hs & Hc).
  { subst c'. unfold tcp_rx_syn. rewrite (snd_state _ _ _ _ _ Hok). fold (synced ph).
    destruct (synced ph) eqn:Hs; cbn [negb].
    - exists c. split; [done|]. destruct (negb _); [by left|right]. done.
    - set (c1 := match wsopt options with Some _ => _ | None => _ end).
      assert (snd_same c c1 ∧ rcv_ack c1 = seq) as [Hs1 Ha].
      { subst c1. destruct (tsopt options), (wsopt options); split; try reflexivity; split; try done;
          unfold closed; tcp_simpl; rewrite has_lor; apply orb_false_r. }
      exists c1. split; [done|right]. rewrite Ha, Z.eqb_refl. done. }
  assert (snd_ok iss D ph A c1) as Hok1 by (by eapply snd_ok_same).
  destruct Hc as [[-> Hsy]|Hc].
  { exists ph. split_and!; [done|done|]. apply Hs. }
  pose proof (snd_ok_same _ _ _ _ _ _ (tcp_rx_seq_same c1 1) Hok1) as [S1 S2 S3 S4 S5 S6 S7 S8 S9 S10].
  assert (closed c' = closed c) as Hcl.
  { rewrite Hc. transitivity (closed (tcp_rx_seq c1 1)); [done|]. rewrite (same_closed _ _ (tcp_rx_seq_same c1 1)). apply Hs. }
  exists (syn_phase ph). split_and!; [|by destruct ph; first [reflexivity|apply moves_once; auto with tcp]|done].
  rewrite Hc. rewrite (snd_state _ _ _ _ _ Hok1).
  assert (ph = SynSent → snd_sent c1 = 1) as Hst1 by (intros E; rewrite (same_sent _ _ Hs); auto).
  split; tcp_simpl; try done; try (by destruct ph); try (destruct ph; apply S5 || done; fail).
  unfold sent_ok in *. tcp_simpl. destruct ph; cbn [syn_phase]; try done. by apply Hst1.
Qed.

Lemma tcp_rx_enqueue_alive iss ph A w seq fl iobuf :
  alive iss ph A w → alive iss ph A (upd (λ tcp, tcp_rx_enqueue tcp seq fl iobuf) w).
Proof.
  intros [Hok Hlog]. unfold upd, tcp_rx_enqueue.
  destruct (negb _ || _ || _ || _) eqn:E; [by destruct w|].
  rewrite !orb_false_iff, negb_false_iff, (snd_state _ _ _ _ _ Hok) in E. destruct E as [[[Hs _] _] _].
  fold (synced ph) in Hs. destruct Hok as [S1 S2 S3 S4 S5 S6 S7 S8 S9 S10].
  split; [|done]. split; try done. rewrite Hs. done.
Qed.

Lemma tcp_rx_data_alive iss ph A seq iobuf w : alive iss ph A w → evolves iss ph A (tcp_rx_data seq iobuf w).2.
Proof.
  intros Ha. unfold tcp_rx_data. destruct (_ <=? _); [by apply evolves_refl|].
  set (w1 := upd (λ tcp, tcp_rx_seq tcp _) w). set (data := drop _ iobuf).
  assert (quiet w (World (conn w1) (ext w1) (log w1 ++ [EvDeliver data]))) as Q.
  { etrans; [|by apply quiet_log]. apply quiet_upd. auto with tcp. }
  destruct (app_calls_alive iss _ _ (xfer_deliver_calls data (World (conn w1) (ext w1) (log w1 ++ [EvDeliver data]))))
    as [Hgo _]. apply Hgo. by eapply alive_quiet.
Qed.

(** A FIN. *)
Definition fin_phase (ph : phase) : phase :=
  match ph with
  | SynRcvd => SynRcvdFin | Established => CloseWait | FinWait1 => Closing | FinWait2 => TimeWait | _ => ph
  end.

Lemma tcp_rx_fin_alive iss ph A seq w : alive iss ph A w → synced ph = true → evolves iss ph A (tcp_rx_fin seq w).
Proof.
  intros [Hok Hlog] Hs. unfold tcp_rx_fin. destruct (negb _); [by apply evolves_refl|].
  set (w1 := upd _ (upd _ w)).
  assert (alive iss (fin_phase ph) A w1) as Ha1.
  { pose proof (snd_ok_same _ _ _ _ _ _ (tcp_rx_seq_same (conn w) 1) Hok) as [S1 S2 S3 S4 S5 S6 S7 S8 S9 S10].
    split; [|apply (log_ok_conn _ w); [done| |done]; apply (same_closed _ _ (tcp_rx_seq_same (conn w) 1))].
    split; cbn [w1 conn log upd]; tcp_simpl; try done; try (by destruct ph); try (destruct ph; apply S5 || done; fail).
    rewrite S1. by destruct ph. }
  assert (rtc transition ph (fin_phase ph)) as Hfin
    by (destruct ph; first [apply rtc_refl|apply rtc_once; auto with tcp]).
  destruct (tcp_close_acked _ _ _ None w1 Ha1) as [(ph' & A' & Ha' & [Hr _] & HA & Hack)|[_ Hs']].
  - left. exists ph', A'. split_and!; [done| |done]. split; [by etrans|]. right. by intros ->.
  - exfalso. revert Hs Hs'. clear. by destruct ph.
Qed.

Lemma evolves_synced iss ph A w :
  evolves iss ph A w → synced ph = true →
  ∃ ph' A', alive iss ph' A' w ∧ moves ph ph' ∧ A ≤ A' ∧ synced ph' = true.
Proof.
  intros [(ph' & A' & Ha & Hr & HA)|[_ ?]] Hs; [|congruence].
  exists ph', A'. split_and!; [done..|]. by eapply transition_synced.
Qed.

Lemma evolves_from iss ph A ph' A' w :
  moves ph ph' → A ≤ A' → synced ph' = true → evolves iss ph' A' w → evolves iss ph A w.
Proof.
  intros Hr HA Hs He. destruct (evolves_synced _ _ _ _ He Hs) as (ph2 & A2 & Ha & Hr2 & HA2 & _).
  left. exists ph2, A2. split_and!; [done|by etrans|lia].
Qed.

Lemma process_rx_loop_alive iss n ph A w w' :
  alive iss ph A w → process_rx_loop n w = Some w' → evolves iss ph A w'.
Proof.
  revert ph A w. induction n as [|n IH]; intros ph A w Ha; cbn [process_rx_loop];
    destruct (rx_queue (conn w)) as [|q rest] eqn:Eq; try (intros [= <-]; by apply evolves_refl);
    destruct (0 <? _); try (intros [= <-]; by apply evolves_refl).
  assert (synced ph = true) as Hs.
  { destruct (synced ph) eqn:Hs; [done|]. destruct (snd_open _ _ _ _ _ (proj1 Ha) Hs). congruence. }
  set (w1 := upd (set_rx_queue rest) w).
  assert (alive iss ph A w1) as Ha1.
  { eapply alive_quiet; [|exact Ha]. apply quiet_upd. split; try done. rewrite Eq. done. }
  pose proof (tcp_rx_data_alive iss ph A (q_seq q) (q_data q) w1 Ha1) as He.
  destruct (evolves_synced _ _ _ _ He Hs) as (ph2 & A2 & Ha2 & Hr2 & HA2 & Hs2).
  set (w2 := (tcp_rx_data _ _ w1).2) in *. set (w3 := if has (q_flags q) TCP_FIN then _ else w2).
  assert (evolves iss ph2 A2 w3) as He3.
  { subst w3. destruct (has (q_flags q) TCP_FIN); [by apply tcp_rx_fin_alive|by apply evolves_refl]. }
  destruct (evolves_synced _ _ _ _ He3 Hs2) as (ph3 & A3 & Ha3 & Hr3 & HA3 & Hs3).
  intros E. apply (evolves_from _ _ _ ph3 A3); [by etrans|lia|done|]. by apply (IH ph3 A3 w3).
Qed.

Lemma rx_finish_alive iss old w :
  (∀ ph A, alive iss ph A w → evolves iss ph A (rx_finish old w)) ∧ (dead iss w → dead iss (rx_finish old w)).
Proof.
  unfold rx_finish. set (w1 := if bool_decide _ then _ else _).
  set (w2 := if TCP_CLOSED_GRACEFULLY _ then _ else w1).
  assert (quiet w1 w2) as Q2 by (subst w2; destruct (TCP_CLOSED_GRACEFULLY _); [apply quiet_upd; snd_simple|done]).
  assert (quiet w (upd (set_process true) w)) as Q1 by (apply quiet_upd; snd_simple).
  assert ((∀ ph A, alive iss ph A w → alive iss ph A w2) ∧ (dead iss w → dead iss w2)) as [Ha2 Hd2].
  { split; [intros ph A Ha; apply (alive_quiet _ _ _ _ _ Q2)|intros Hd; apply (dead_quiet _ _ _ Q2)];
      subst w1; destruct (bool_decide _);
      [by eapply alive_quiet|by apply alive_xmit|by eapply dead_quiet|by apply dead_xmit]. }
  destruct (negb _); [|split; [intros; apply evolves_refl|]; auto].
  set (w3 := World _ _ _). assert (quiet w2 w3) as Q3 by (by apply quiet_log).
  destruct (app_calls_alive iss _ _ (xfer_window_changed_calls w3)) as [Ha3 Hd3].
  split; [intros ph A Ha; apply Ha3; eapply alive_quiet; [exact Q3|]; auto
         |intros Hd; apply Hd3; eapply dead_quiet; [exact Q3|]; auto].
Qed.

(** A reset in response to a packet. *)
Lemma tcp_header_flags src dest seq ack hlen fl win csum :
  length src = 2%nat → length dest = 2%nat → length seq = 4%nat → length ack = 4%nat →
  hdr_flags (tcp_header src dest seq ack [hlen] [fl] win csum) = fl.
Proof.
  intros. unfold hdr_flags, byte, tcp_header.
  do 4 (rewrite lookup_app_r by lia). replace (_ - _ - _ - _ - _)%nat with 1%nat by lia. done.
Qed.

Lemma tcp_xmit_reset_alive iss ph A st hdr w :
  20 ≤ Zlen hdr → alive iss ph A w → alive iss ph A (tcp_xmit_reset st hdr w).2.
Proof.
  intros Hl Ha. unfold tcp_xmit_reset. destruct (alloc_iob _ _) as [[ok n] e]. set (w1 := discards n _).
  assert (alive iss ph A w1) as [Hok Hlog] by (eapply alive_quiet; [apply quiet_discards|done]).
  destruct ok; [|done]. cbn [negb]. set (p := with_csum _). destruct (tcpip_tx_tcp p st (ext w1)) as [[rc n'] e'].
  cbn [snd]. set (w2 := World (conn w1) e' (log w1 ++ [EvTx p])).
  eapply (alive_quiet _ _ _ w2); [apply (quiet_discards n' w2 e')|].
  assert (hdr_flags p = Z.lor TCP_RST TCP_ACK) as Hp
    by (apply tcp_header_flags; unfold hdr_dest, hdr_src, hdr_ack, hdr_seq, field; rewrite length_take, length_drop; lia).
  split; [cbn [w2 conn log]; by rewrite accepted_app, app_nil_r|].
  apply log_ok_tx; [done|left; by rewrite Hp|]. unfold no_fin. by rewrite Hp.
Qed.

Lemma hdr_ack_range packet : is_bytes packet → in_range 32 (be_combine (hdr_ack packet)).
Proof.
  intros Hb. pose proof (be_combine_range (hdr_ack packet)) as Hr. unfold in_range. unfold hdr_ack, field in *.
  assert (2 ^ (8 * Zlen (take 4 (drop 8 packet))) ≤ 2 ^ 32).
  { apply Z.pow_le_mono_r; [lia|]. rewrite length_take. lia. }
  assert (is_bytes (take 4 (drop 8 packet))) as Hf by (apply Forall_take; by apply Forall_drop).
  specialize (Hr Hf). lia.
Qed.

(** Where handling a packet takes a connection: a reset may delete it. *)
Definition outcome (iss : Z) (ph : phase) (A : Z) (w' : world) : Prop :=
  (∃ ph' A', alive iss ph' A' w' ∧ moves ph ph' ∧ A ≤ A') ∨ dead iss w'.

Lemma evolves_outcome iss ph A w : evolves iss ph A w → outcome iss ph A w.
Proof. intros [?|[? _]]; [by left|by right]. Qed.

Lemma outcome_from iss ph A ph' A' w : moves ph ph' → A ≤ A' → outcome iss ph' A' w → outcome iss ph A w.
Proof.
  intros Hr HA [(ph2 & A2 & ? & ? & ?)|?]; [left|by right]. exists ph2, A2. split_and!; [done|by etrans|lia].
Qed.

(** From the RST on. *)
Lemma rx_rest_alive iss ph A (rst : bool) old seq fl payload w res w' :
  alive iss ph A w →
  (let '(rc, w) := if rst then tcp_rx_rst seq w else (Ok tt, w) in
   match rc with
   | Err e => Some (Err e, w)
   | Ok _ =>
       match tcp_process_rx_queue (upd (λ tcp, tcp_rx_enqueue tcp seq fl payload) w) with
       | None => None
       | Some w => Some (Ok tt, rx_finish old w)
       end
   end) = Some (res, w') → outcome iss ph A w'.
Proof.
  intros Ha. set (p := if rst then _ else _).
  assert (p = (Ok tt, w) ∨ ∃ e, p.1 = Err e ∧ dead iss p.2) as [->|(e & He & Hd)].
  { subst p. destruct rst; [|by left]. unfold tcp_rx_rst. cbv zeta. destruct (if has _ _ then _ else _); [by left|right].
    eexists. split; [done|]. cbn [snd]. apply tcp_close_reset; [apply Ha|]. apply (snd_window _ _ _ _ _ (proj1 Ha)). }
  2:{ destruct p as [rc w2]. cbn in He, Hd. subst rc. intros [= <- <-]. by right. }
  destruct (tcp_process_rx_queue _) as [w2|] eqn:E; [|done]. intros [= <- <-].
  apply evolves_outcome. destruct (rx_finish_alive iss old w2) as [Hf Hfd].
  eapply evolves_trans; [|exact Hf|exact Hfd]. eapply process_rx_loop_alive; [|exact E]. by apply tcp_rx_enqueue_alive.
Qed.

Lemma tcp_rx_parsed_alive iss ph A st packet options payload w rc w' :
  alive iss ph A w → started w → is_bytes packet → 20 ≤ Zlen packet →
  tcp_rx_parsed st packet options payload w = Some (rc, w') → outcome iss ph A w'.
Proof.
  intros [Hok Hlog] Hst Hb Hl. unfold tcp_rx_parsed. set (win := u32 _).
  assert (0 ≤ win) by (apply (wrap_range 32); lia).
  set (r := if has (hdr_flags packet) TCP_ACK then tcp_rx_ack _ _ _ _ else _).
  assert (∃ ph' A', snd_ok iss (accepted (log w)) ph' A' r.2 ∧ moves ph ph' ∧ A ≤ A' ∧
    closed r.2 = closed (conn w) ∧ (ph' = SynSent → snd_sent r.2 = 1)) as (ph' & A' & Hok' & Hr & HA & Hc & Hst').
  { assert (ph = SynSent → snd_sent (conn w) = 1) as Hst0.
    { intros ->. apply Hst. apply Hok. }
    subst r. destruct (has _ _); [|by exists ph, A].
    destruct (tcp_rx_ack_snd iss _ ph A (now w) (conn w) (be_combine (hdr_ack packet)) win Hok)
      as (ph' & A' & Hok' & Hr & _ & HA & Hc & _ & Hs); [by apply hdr_ack_range|done|].
    exists ph', A'. split_and!; [done..|]. intros E. rewrite Hs by done. apply Hst0.
    clear -Hr E. subst. destruct Hr as [Hr _]. apply rtc_inv_r in Hr as [->|(x & _ & Hx)]; [done|]. by inversion Hx. }
  destruct r as [rc0 c1]. cbn [snd] in *. set (w1 := World c1 (ext w) (log w)).
  assert (alive iss ph' A' w1) as Ha1 by (split; [done|by apply (log_ok_conn _ w)]).
  destruct rc0 as [[]|e]; [|intros [= <- <-]; left; exists ph', A'; split_and!; [by apply tcp_xmit_reset_alive|done..]].
  set (w2 := if _ && _ then _ else w1).
  assert (quiet w1 w2) as Q2 by (subst w2; destruct (_ && _); [apply quiet_upd; auto with tcp|done]).
  pose proof (alive_quiet _ _ _ _ _ Q2 Ha1) as Ha2.
  intros Hrun. apply (outcome_from _ _ _ ph' A'); [done|done|]. revert Hrun.
  destruct (has (hdr_flags packet) TCP_SYN); [|by apply rx_rest_alive].
  destruct (tcp_rx_syn_snd iss _ ph' A' (conn w2) (be_combine (hdr_seq packet)) options (proj1 Ha2))
    as (ph2 & Hok2 & Hr2 & Hc2); [intros E; rewrite (same_sent _ _ (proj1 Q2)); by apply Hst'|].
  intros Hrun. apply (outcome_from _ _ _ ph2 A'); [done|done|]. revert Hrun. apply rx_rest_alive.
  split; [done|]. by apply (log_ok_conn _ w2); [|done|apply Ha2].
Qed.

Lemma tcp_rx_alive iss ph A packet st csum w rc w' :
  alive iss ph A w → started w → is_bytes packet → tcp_rx packet st csum w = Some (rc, w') → outcome iss ph A w'.
Proof.
  intros Ha Hst Hb. assert (outcome iss ph A w) as Hsame by (left; by exists ph, A).
  unfold tcp_rx. destruct (rx_check packet csum) as [hlen|e] eqn:Hc; [|by intros [= <- <-]].
  assert (20 ≤ Zlen packet).
  { unfold rx_check, sizeof_tcp_header in Hc. destruct (Z.ltb_spec (Zlen packet) 20); [done|lia]. }
  destruct (tcp_rx_opts _ _) as [options|]; [|done]. destruct (tcp_demux _ _); [|by intros [= <- <-]].
  set (w1 := match tsopt options with Some _ => _ | None => w end).
  assert (quiet w w1 ∧ (started w1 ↔ started w)) as [Q Hs1].
  { subst w1. destruct (tsopt options); [|done]. split; [apply quiet_upd; snd_simple|done]. }
  eapply tcp_rx_parsed_alive; [by eapply alive_quiet|by apply Hs1|done|done].
Qed.

(** ** Histories *)

(** What happens to a connection until it is deleted: packets (of anyone, once
    the SYN has been sent), calls of the application, the transmission process,
    the retransmission timer and its timeout, the end of TIME_WAIT, shutdown. *)
Inductive tcp_event : world → world → Prop :=
| ev_packet packet st csum w rc w' :
    deleted (conn w) = false → started w → is_bytes packet →
    tcp_rx packet st csum w = Some (rc, w') → tcp_event w w'
| ev_app w w' : deleted (conn w) = false → app_calls w w' → tcp_event w w'
| ev_process w : deleted (conn w) = false → tcp_event w (tcp_xmit (upd (set_process false) w))
| ev_timer w over t :
    deleted (conn w) = false → tcp_event w (tcp_expired over (upd (set_timer t) w))
| ev_wait w t : deleted (conn w) = false → tcp_event w (tcp_wait_expired (upd (set_wait t) w))
| ev_shutdown w : deleted (conn w) = false → tcp_event w (tcp_shutdown w).

Lemma tcp_event_alive iss ph A w w' : alive iss ph A w → tcp_event w w' → outcome iss ph A w'.
Proof.
  intros Ha Hev. pose proof Ha as [Hok Hlog]. pose proof (snd_window _ _ _ _ _ Hok) as Hw.
  destruct Hev as [packet st csum w rc w' _ Hst Hb E|w w' _ Hc|w _|w over t _|w t _|w _].
  - by eapply tcp_rx_alive.
  - apply evolves_outcome. by apply (app_calls_alive iss w w' Hc).
  - left. exists ph, A. split_and!; [|done..]. apply alive_xmit. eapply alive_quiet; [|done]. apply quiet_upd. snd_simple.
  - unfold tcp_expired. destruct over; [right; by apply tcp_close_reset|].
    left. exists ph, A. split_and!; [|done..]. apply alive_xmit. eapply alive_quiet; [|done]. apply quiet_upd. snd_simple.
  - right. by apply tcp_close_reset.
  - right. by apply tcp_close_reset.
Qed.

Lemma tcp_history_alive iss ph A w w' : alive iss ph A w → rtc tcp_event w w' → outcome iss ph A w'.
Proof.
  intros Ha Hr. revert ph A Ha. induction Hr as [w|w1 w2 w3 He Hr IH]; intros ph A Ha; [left; by exists ph, A|].
  destruct (tcp_event_alive iss ph A w1 w2 Ha He) as [(ph' & A' & Ha' & Hr' & HA)|Hd].
  - eapply outcome_from; [exact Hr'|exact HA|]. by apply IH.
  - right. destruct Hr as [w2|w2 w2' w3 He2 Hr2]; [done|]. exfalso. destruct Hd as [(Hd & _) _]. destruct He2; congruence.
Qed.

(** A connection just opened. *)
Definition opened (random : Z) (w : world) : Prop :=
  ∃ conns st_peer st_local zalloc_ok t random' mtu conns',
    tcp_open conns st_peer st_local zalloc_ok t random random' mtu = (Ok tt, conn w :: conns') ∧ log w = [].

Lemma opened_alive random w : opened random w → alive (u32 random) SynSent 0 w.
Proof.
  intros (conns & st_peer & st_local & zok & t & random' & mtu & conns' & E & Hl). unfold tcp_open in E.
  destruct zok; [|done]. destruct (mtu =? 0); [done|]. destruct (tcpip_bind _ _ _) as [port|]; [|done].
  injection E as Ec _. cbn [negb] in Ec. split; rewrite ?Hl; [rewrite <- Ec|].
  - split; tcp_simpl; try done. unfold syn_acked. eval_b2z.
    rewrite !Z.add_0_r. symmetry. apply wrap_idemp.
  - unfold log_ok. rewrite Hl. split; [|intros _]; constructor.
Qed.
End sender.

(** a packet built by tcp_xmit passes the length and checksum tests of
    tcp_rx, and the header, the options and the payload the receiver extracts
    are those of the connection: ports, sequence and acknowledgement numbers,
    flags (with a push if there is data), window, timestamp, and in a SYN the
    segment size and the window scale. *)
Lemma tx_packet_roundtrip c fl t payload :
  is_bytes payload → in_range 16 (local_port c) → in_range 16 (st_port (peer c)) → in_range 32 (snd_seq c) →
  in_range 32 (rcv_ack c) → in_range 16 (Z.shiftr (rcv_win c) (rcv_win_scale c)) →
  let p := tx_packet c fl t payload in
  ∃ hlen options,
    rx_check p TCPIP_EMPTY_CSUM = Ok hlen ∧ drop (Z.to_nat hlen) p = payload ∧
    be_combine (hdr_src p) = local_port c ∧ le_combine (hdr_dest p) = st_port (peer c) ∧
    be_combine (hdr_seq p) = snd_seq c ∧ be_combine (hdr_ack p) = rcv_ack c ∧
    hdr_flags p = u8 (if decide (payload = []) then fl else Z.lor fl TCP_PSH) ∧
    be_combine (hdr_win p) = Z.shiftr (rcv_win c) (rcv_win_scale c) ∧
    tcp_rx_opts (drop (Z.to_nat sizeof_tcp_header) p) (hlen - sizeof_tcp_header) = Some options ∧
    (if has fl TCP_SYN
     then (λ opt, field opt 2 2) <$> mssopt options = Some (be_split 2 (mss c)) ∧
          (λ opt, byte opt 2) <$> wsopt options = Some TCP_RX_WINDOW_SCALE
     else mssopt options = None ∧ wsopt options = None) ∧
    (λ opt, field opt 2 4) <$> tsopt options =
      (if has fl TCP_SYN || has (flags c) TCP_TS_ENABLED then Some (be_split 4 t) else None).
Proof.
  intros Hb Hlp Hpp Hsq Hak Hwn p. pose proof (tx_packet_check c fl t payload Hb) as Hck.
  destruct (tx_packet_fields c fl t payload) as (Hsrc & Hdst & Hseq & Hack & Hfl & Hwin & _).
  destruct (tx_packet_payload c fl t payload) as (_ & Hpay & Hopt & _).
  destruct (tx_options_parse c fl t payload) as (options & Hpo & Hmss & Hts).
  fold p in Hck, Hsrc, Hdst, Hseq, Hack, Hfl, Hwin, Hpay, Hopt. clearbody p.
  exists (20 + Zlen (tx_options c fl t)), options. unfold sizeof_tcp_header.
  rewrite Hsrc, Hdst, Hseq, Hack, Hfl, Hwin, !be_combine_split, le_combine_split.
  change (Z.to_nat 20) with 20%nat. rewrite Hopt. replace (20 + Zlen (tx_options c fl t) - 20) with (Zlen (tx_options c fl t)) by lia.
  split_and!; try done; try (by apply (wrap_small 16)); try (by apply (wrap_small 32)).
  unfold tx_flags. destruct payload; [done|]. rewrite decide_False by done. done.
Qed.

Section witness.
#[local] Existing Instance i386.
#[local] Existing Instance bios_ticks.

End witness.

(** C16: for a connection just opened, whatever packets arrive and whatever the
    application, the timers and the memory allocator do: every packet sent that
    is not a reset is a segment of the stream of bytes accepted from the
    application, numbered from the initial sequence number, with a FIN only at
    its end; until the connection is deleted, the accepted bytes that are not
    acknowledged are exactly those in the transmit queue, no more than those are
    in flight, and the FIN is started only after all of them are acknowledged
    and the application has closed. *)
Theorem tcp_send_correct `{Platform, Ticks, TcpEnv} `{!XferPeer} random w0 w :
  opened random w0 → rtc tcp_event w0 w →
  let iss := u32 random in let D := accepted (log w) in
  (∀ p, p ∈ packets (log w) → sent_packet iss D p) ∧
  (deleted (conn w) = false →
   ∃ A syn fin, 0 ≤ A ≤ Zlen D ∧ mjoin (tx_queue (conn w)) = drop (Z.to_nat A) D ∧
     snd_seq (conn w) = u32 (iss + Z.b2z syn + A + Z.b2z fin) ∧ 0 ≤ snd_sent (conn w) ≤ Zlen D - A + 1 ∧
     syn = has (tcp_state (conn w)) (TCP_STATE_ACKED TCP_SYN) ∧
     fin = has (tcp_state (conn w)) (TCP_STATE_ACKED TCP_FIN) ∧
     (has (tcp_state (conn w)) (TCP_STATE_SENT TCP_FIN) = true → A = Zlen D ∧ has (flags (conn w)) TCP_XFER_CLOSED = true)).
Proof.
  intros Ho Hr iss D. destruct (tcp_history_alive iss SynSent 0 w0 w (opened_alive _ _ Ho) Hr)
    as [(ph & A & [Hok [L1 _]] & _)|[(Hd & _) [L1 _]]]; rewrite Forall_forall in L1; (split; [exact L1|]); [|congruence].
  intros _. destruct Hok as [S1 S2 S3 S4 S5 S6 S7 S8 S9 S10]. fold D in S2, S3.
  assert (Zlen (mjoin (tx_queue (conn w))) = Zlen D - A) as Hlen by (rewrite S3, length_drop; lia).
  exists A, (syn_acked ph), (fin_acked ph). rewrite S1. split_and!; try done; try lia.
  1,2: unfold sent_ok in S8; destruct ph; lia.
  intros Hf. destruct (S6 Hf) as [Hq Hc]. split; [|done].
  rewrite Hq in Hlen. change (Zlen (mjoin (M := list) [])) with 0 in Hlen. lia.
Qed.

(** *** The states of RFC 793 *)

(** The connection states of RFC 793, section 3.2, after an active OPEN. *)
Inductive rfc793_state : Set :=
| SYN_SENT | SYN_RECEIVED | ESTABLISHED | FIN_WAIT_1 | FIN_WAIT_2 | CLOSE_WAIT | CLOSING | LAST_ACK | TIME_WAIT
| CLOSED.

(** The edges of figure 6 between them, without those that delete the connection
    unfinished (CLOSE in SYN-SENT) or after the wait in TIME-WAIT.  The edge from
    SYN-RECEIVED to CLOSE-WAIT is in the text (section 3.9, eighth step for a
    segment that arrives). *)
Inductive rfc793_edge : rfc793_state → rfc793_state → Prop :=
| rcv_syn : rfc793_edge SYN_SENT SYN_RECEIVED
| rcv_syn_ack : rfc793_edge SYN_SENT ESTABLISHED
| rcv_ack_of_syn : rfc793_edge SYN_RECEIVED ESTABLISHED
| close_syn_received : rfc793_edge SYN_RECEIVED FIN_WAIT_1
| rcv_fin_syn_received : rfc793_edge SYN_RECEIVED CLOSE_WAIT
| close_established : rfc793_edge ESTABLISHED FIN_WAIT_1
| rcv_fin_established : rfc793_edge ESTABLISHED CLOSE_WAIT
| rcv_ack_of_fin : rfc793_edge FIN_WAIT_1 FIN_WAIT_2
| rcv_fin_1 : rfc793_edge FIN_WAIT_1 CLOSING
| rcv_fin_2 : rfc793_edge FIN_WAIT_2 TIME_WAIT
| close_close_wait : rfc793_edge CLOSE_WAIT LAST_ACK
| rcv_ack_closing : rfc793_edge CLOSING TIME_WAIT
| rcv_ack_last : rfc793_edge LAST_ACK CLOSED.
#[local] Hint Constructors rfc793_edge : tcp.

(** Which states of RFC 793 a value of tcp_state stands for.  There is a value of the
    code for a SYN-SENT connection whose SYN has been acknowledged by a packet that
    was not a SYN (RFC 793 drops such a packet); CLOSING and LAST-ACK are one value;
    and a connection that RFC 793 closes at the end of LAST-ACK is kept as if it were
    in TIME-WAIT. *)
Definition stands_for (state : Z) (s : rfc793_state) : Prop :=
  match s with
  | SYN_SENT => state = TCP_SYN_SENT ∨ state = Z.lor (TCP_STATE_SENT TCP_SYN) (TCP_STATE_ACKED TCP_SYN)
  | SYN_RECEIVED => state = TCP_SYN_RCVD
  | ESTABLISHED => state = TCP_ESTABLISHED
  | FIN_WAIT_1 => state = TCP_FIN_WAIT_1
  | FIN_WAIT_2 => state = TCP_FIN_WAIT_2
  | CLOSE_WAIT => state = TCP_CLOSE_WAIT
  | CLOSING | LAST_ACK => state = TCP_CLOSING_OR_LAST_ACK
  | TIME_WAIT | CLOSED => state = TCP_TIME_WAIT
  end.

(** The code's moves against the edges; [SynRcvdFin] is on the way to CLOSE-WAIT. *)
Definition simulates (ph : phase) (s : rfc793_state) : Prop :=
  if decide (ph = SynRcvdFin) then s = CLOSE_WAIT else stands_for (state_of ph) s.

Lemma transition_edge ph ph' s :
  transition ph ph' → simulates ph s → ∃ s', simulates ph' s' ∧ rtc rfc793_edge s s'.
Proof.
  intros [] Hs; destruct s; try (by vm_compute in Hs); try (by destruct Hs);
    first [by eexists CLOSED; split; [by vm_compute|apply rtc_once; auto with tcp]
          |by eexists SYN_RECEIVED; split; [by vm_compute|apply rtc_once; auto with tcp]
          |by eexists ESTABLISHED; split; [by vm_compute|apply rtc_once; auto with tcp]
          |by eexists SYN_SENT; split; [by vm_compute; auto|apply rtc_refl]
          |by eexists FIN_WAIT_1; split; [by vm_compute|apply rtc_once; auto with tcp]
          |by eexists FIN_WAIT_2; split; [by vm_compute|apply rtc_once; auto with tcp]
          |by eexists CLOSE_WAIT; split; [by vm_compute|first [apply rtc_refl|apply rtc_once; auto with tcp]]
          |by eexists LAST_ACK; split; [by vm_compute|apply rtc_once; auto with tcp]
          |by eexists CLOSING; split; [by vm_compute|apply rtc_once; auto with tcp]
          |by eexists TIME_WAIT; split; [by vm_compute|apply rtc_once; auto with tcp]].
Qed.

Lemma moves_edges ph ph' s :
  moves ph ph' → ph ≠ SynRcvdFin → stands_for (state_of ph) s →
  ph' ≠ SynRcvdFin ∧ ∃ s', stands_for (state_of ph') s' ∧ rtc rfc793_edge s s'.
Proof.
  intros [Hr [?|Hn]] Hph Hs; [done|]. split; [done|].
  assert (simulates ph s) as Hsim by (unfold simulates; by rewrite decide_False).
  assert (∃ s', simulates ph' s' ∧ rtc rfc793_edge s s') as (s' & Hs' & Hr').
  { clear -Hr Hsim. revert s Hsim. induction Hr as [ph|ph1 ph2 ph3 Ht _ IH]; intros s Hs; [by exists s|].
    destruct (transition_edge _ _ _ Ht Hs) as (s1 & Hs1 & Hr1). destruct (IH s1 Hs1) as (s2 & Hs2 & Hr2).
    exists s2. split; [done|]. by etrans. }
  exists s'. split; [|done]. unfold simulates in Hs'. by rewrite decide_False in Hs'.
Qed.

(** C17: the states of a connection refine those of RFC 793.  From its opening until
    it is deleted, whatever packets arrive once its SYN has been sent, whatever the
    application does and whichever timers expire, the value of tcp_state stands for a
    state that RFC 793 reaches from SYN-SENT, and every event takes it along edges of
    the state diagram, or deletes the connection.  The correspondence [stands_for]
    shows where the code deviates: CLOSING and LAST-ACK are one state, which always
    leads to TIME-WAIT, and a SYN-SENT connection can have its SYN acknowledged. *)
Theorem tcp_states_correct `{Platform, Ticks, TcpEnv} `{!XferPeer} random w0 w :
  opened random w0 → rtc tcp_event w0 w → deleted (conn w) = false →
  ∃ s, stands_for (tcp_state (conn w)) s ∧ rtc rfc793_edge SYN_SENT s ∧
    ∀ w', tcp_event w w' →
      deleted (conn w') = true ∧ tcp_state (conn w') = TCP_CLOSED ∨
      deleted (conn w') = false ∧ ∃ s', stands_for (tcp_state (conn w')) s' ∧ rtc rfc793_edge s s'.
Proof.
  intros Ho Hr Hd. destruct (tcp_history_alive _ SynSent 0 w0 w (opened_alive _ _ Ho) Hr)
    as [(ph & A & Ha & Ht & _)|[(? & _) _]]; [|congruence].
  destruct (moves_edges _ _ SYN_SENT Ht) as (Hph & s & Hs & Hrs); [done|by left|].
  exists s. rewrite (snd_state _ _ _ _ _ (proj1 Ha)). split_and!; [done|done|]. intros w' He.
  destruct (tcp_event_alive _ ph A w w' Ha He) as [(ph' & A' & Ha' & Ht' & _)|[(? & ? & _) _]]; [right|by left].
  destruct (moves_edges _ _ s Ht') as (_ & s' & Hs' & Hrs'); [done..|].
  split; [apply (snd_alive _ _ _ _ _ (proj1 Ha'))|]. exists s'. by rewrite (snd_state _ _ _ _ _ (proj1 Ha')).
Qed.

(** ** An example history *)

Module Example.
#[local] Existing Instance i386.
#[local] Existing Instance bios_ticks.

(** A packet of the peer without data. *)
Definition reply (off ack fl : Z) : bytes :=
  with_csum (λ csum,
    tcp_header (le_split 2 0x5000) (be_split 2 4096) (be_split 4 (seqno example_irs off)) (be_split 4 ack) [0x50]
      [fl] (be_split 2 1000) csum).

(** The SYN is sent and answered, the application sends five bytes and closes,
    and the data and then the FIN are acknowledged. *)
Definition w0 : world := World example_conn 0 [].
Definition w1 : world := tcp_expired false (upd (set_timer (timer_expired (timer (conn w0))).2) w0).
Definition w2 : world := example_run w1 (-1, reply (-1) 1001 (Z.lor TCP_SYN TCP_ACK)).
Definition w3 : world := tcp_xmit (upd (set_process false) w2).
Definition w4 : world := tcp_xfer_deliver [10; 20; 30; 40; 50] w3.
Definition w5 : world := tcp_xfer_close None w4.
Definition w6 : world := example_run w5 (0, reply 0 1006 TCP_ACK).
Definition w7 : world := tcp_xmit (upd (set_process false) w6).
Definition w8 : world := example_run w7 (0, reply 0 1007 TCP_ACK).

Lemma w0_opened : opened 1000 w0.
Proof. exists [], example_peer, None, true, 0, 4096, 1480, []. by vm_compute. Qed.

Lemma run_event w p :
  deleted (conn w) = false → started w → is_bytes p.2 →
  (∃ rc w', tcp_rx p.2 example_peer TCPIP_EMPTY_CSUM w = Some (rc, w')) → tcp_event w (example_run w p).
Proof.
  intros Hd Hs Hb (rc & w' & E). unfold example_run. rewrite E.
  exact (ev_packet p.2 example_peer TCPIP_EMPTY_CSUM w rc w' Hd Hs Hb E).
Qed.

Lemma send_event iobuf w :
  deleted (conn w) = false → closed (conn w) = false → tcp_event w (tcp_xfer_deliver iobuf w).
Proof. intros Hd Hc. apply ev_app; [done|]. apply (app_send iobuf); [done|apply app_none]. Qed.

Lemma close_event rc w : deleted (conn w) = false → closed (conn w) = false → tcp_event w (tcp_xfer_close rc w).
Proof. intros Hd Hc. apply ev_app; [done|]. apply (app_close rc); [done|apply app_none]. Qed.

Lemma history : rtc tcp_event w0 w8.
Proof.
  apply (rtc_l _ _ w1); [by apply ev_timer|].
  apply (rtc_l _ _ w2); [apply run_event; [by vm_compute..|by_decide|vm_compute; by eexists _, _]|].
  apply (rtc_l _ _ w3); [refine (ev_process w2 _); by vm_compute|].
  apply (rtc_l _ _ w4); [refine (send_event [10; 20; 30; 40; 50] w3 _ _); by vm_compute|].
  apply (rtc_l _ _ w5); [refine (close_event None w4 _ _); by vm_compute|].
  apply (rtc_l _ _ w6); [apply run_event; [by vm_compute..|by_decide|vm_compute; by eexists _, _]|].
  apply (rtc_l _ _ w7); [refine (ev_process w6 _); by vm_compute|].
  apply rtc_once. apply run_event; [by vm_compute..|by_decide|vm_compute; by eexists _, _].
Qed.

Lemma tcp_send_correct_witness :
  length (packets (log w8)) = 4%nat ∧ accepted (log w8) = [10; 20; 30; 40; 50] ∧
  (∀ p, p ∈ packets (log w8) → sent_packet 1000 [10; 20; 30; 40; 50] p) ∧
  ∃ A, A = 5 ∧ snd_seq (conn w8) = 1000 + 1 + A + 1.
Proof.
  split; [by vm_compute|]. split; [by vm_compute|].
  destruct (tcp_send_correct 1000 w0 w8 w0_opened history) as [Hp Hq].
  split; [intros p Hin; specialize (Hp p Hin); by vm_compute (accepted (log w8)) in Hp|].
  destruct Hq as (A & syn & fin & _ & _ & _ & _ & _ & _ & Hfin); [by vm_compute|].
  exists A. destruct Hfin as [-> _]; by vm_compute.
Defined.

Lemma tcp_states_correct_witness :
  ∃ s, stands_for (tcp_state (conn w8)) s ∧ rtc rfc793_edge SYN_SENT s ∧ s = FIN_WAIT_2.
Proof.
  destruct (tcp_states_correct 1000 w0 w8 w0_opened history) as (s & Hs & Hr & _); [by vm_compute|].
  exists s. split; [exact Hs|]. split; [exact Hr|]. vm_compute in Hs. destruct s; try discriminate Hs; [|done].
  destruct Hs as [Hs|Hs]; discriminate Hs.
Defined.
End Example.
