(* ===== verification/TcpStream.v ===== *)
(** * TCP: a stream from end to end

    The transmit and the receive path composed: whatever the network does with
    the packets of one connection, the application behind another one receives
    what the first one was given.  Also two inputs the code does not handle. *)

From S2P Require Import Prelude Tcpip Retry Tcp TcpReceive TcpSend.

Section receiver.
Context `{Platform, Ticks, TcpEnv} `{!XferPeer}.
Implicit Types (w : world) (c : tcp_connection).

(** ** Before the SYN *)

Definition unsynchronised (w : world) : Prop := fresh (conn w) ∧ delivered (log w) = [].

Lemma unsynchronised_step w w' : rx_step w w' → unsynchronised w → unsynchronised w'.
Proof.
  intros [[_ [k Hq] Hs Hf Hw _] Hd] [(Us & Uf & Uq & Uw) Ud].
  split; [|congruence]. split_and!; [congruence..| |auto]. by rewrite Hq, Uq, take_nil.
Qed.

Lemma tcp_close_unsynchronised rc w : unsynchronised w → unsynchronised (tcp_close rc w).
Proof.
  intros Hu. unfold tcp_close. destruct (intf_shutdown rc (ext w)) as [n e]. set (w1 := upd _ (discards n _)).
  assert (unsynchronised w1) as [(Us & Uf & Uq & Uw) Ud].
  { eapply unsynchronised_step; [|exact Hu]. etrans; [by apply (rx_step_log w e (EvShutdown rc))|].
    etrans; [apply discards_step|]. apply rx_step_upd. frame_same. }
  unfold rcvd in Us. rewrite Us. done.
Qed.

Lemma app_calls_unsynchronised w w' : app_calls w w' → unsynchronised w → unsynchronised w'.
Proof.
  induction 1 as [w|w e w' _ IH|w w' _ IH|iobuf w w' _ _ IH|rc w w' _ _ IH]; intros Hu; [done|..]; apply IH.
  - done.
  - eapply unsynchronised_step; [|done]. apply rx_step_upd, discard_one_frame.
  - eapply unsynchronised_step; [|done]. etrans; [|apply tcp_xmit_step]. etrans; [|by apply rx_step_log].
    etrans; apply rx_step_upd; frame_same.
  - eapply unsynchronised_step; [apply tcp_xmit_step|]. by apply tcp_close_unsynchronised.
Qed.

Lemma rx_finish_unsynchronised old w : unsynchronised w → unsynchronised (rx_finish old w).
Proof.
  intros Hu. unfold rx_finish. set (w1 := if bool_decide _ then _ else _).
  assert (rx_step w w1) as S1.
  { subst w1. destruct (bool_decide _); [apply rx_step_upd; frame_same|apply tcp_xmit_step]. }
  set (w2 := if TCP_CLOSED_GRACEFULLY _ then _ else w1).
  assert (rx_step w1 w2) as S2.
  { subst w2. destruct (TCP_CLOSED_GRACEFULLY _); [apply rx_step_upd; frame_same|done]. }
  assert (rx_step w w2) as S12 by (by etrans). destruct (negb _); [|by eapply unsynchronised_step].
  eapply app_calls_unsynchronised; [apply xfer_window_changed_calls|].
  eapply unsynchronised_step; [|exact Hu]. etrans; [exact S12|]. by apply rx_step_log.
Qed.

Context (irs : Z) (stream : bytes) (Hirs : in_range 32 irs).

(** Synchronised or not. *)
Definition receiving (w : world) : Prop := unsynchronised w ∨ ∃ R, recv_inv irs stream R w.

Lemma rx_parsed_unsynchronised off st packet options payload w rc w' :
  unsynchronised w → from_peer irs stream off packet payload →
  tcp_rx_parsed st packet options payload w = Some (rc, w') → receiving w'.
Proof using Hirs.
  intros Hu (Hrst & Hseq & Hfl). unfold tcp_rx_parsed. rewrite Hseq.
  pose proof (rx_ack_step (has (hdr_flags packet) TCP_ACK) (now w) w (be_combine (hdr_ack packet))
    (u32 (Z.shiftl (be_combine (hdr_win packet)) (snd_win_scale (conn w))))) as S1.
  destruct (if has (hdr_flags packet) TCP_ACK then _ else _) as [rc0 tcp]. set (w1 := World tcp _ _) in *.
  destruct rc0 as [[]|e].
  2:{ intros [= <- <-]. left. eapply unsynchronised_step; [|exact Hu]. etrans; [exact S1|apply tcp_xmit_reset_step]. }
  set (w2 := if _ && _ then _ else w1).
  assert (rx_step w w2) as S2.
  { etrans; [exact S1|]. subst w2. destruct (_ && _); [apply rx_step_upd; frame_same|done]. }
  pose proof (unsynchronised_step _ _ S2 Hu) as [Hf Hd]. rewrite Hrst. destruct (has (hdr_flags packet) TCP_SYN).
  - destruct Hfl as (-> & -> & Hfin).
    assert (seqno irs (-1) = irs) as -> by (unfold seqno; replace (irs + 1 + -1) with irs by lia; by apply wrap_small).
    pose proof (rx_syn_first irs stream w2 options Hf Hd Hirs) as Hinv.
    set (w3 := upd (λ tcp, tcp_rx_syn tcp irs options) w2) in *.
    assert (upd (λ tcp, tcp_rx_enqueue tcp (u32 (irs + 1)) (hdr_flags packet) []) w3 = w3) as ->.
    { unfold upd. rewrite rx_enqueue_empty by done. by destruct w3. }
    rewrite (process_rx_queue_idle irs stream 0 w3 Hinv). intros [= <- <-]. right. exists 0.
    eapply recv_inv_step; [|exact Hinv]. apply rx_finish_step. apply Hinv.
  - destruct Hf as (Us & Uf & Uq & Uw). unfold tcp_process_rx_queue, upd at 1 2.
    assert (tcp_rx_enqueue (conn w2) (seqno irs off) (hdr_flags packet) payload = conn w2) as ->.
    { unfold tcp_rx_enqueue. unfold rcvd in Us. by rewrite Us. }
    cbn [conn]. rewrite Uq. cbn [length process_rx_loop conn]. rewrite Uq. intros [= <- <-]. left.
    apply rx_finish_unsynchronised. destruct w2. done.
Qed.

Lemma tcp_rx_unsynchronised off packet st csum w rc w' :
  unsynchronised w → peer_packet irs stream off packet csum (conn w) →
  tcp_rx packet st csum w = Some (rc, w') → receiving w'.
Proof using Hirs.
  intros Hu Hpeer. unfold tcp_rx. destruct (rx_check packet csum) as [hlen|e] eqn:Hc; [|intros [= <- <-]; by left].
  destruct (tcp_rx_opts _ _) as [options|]; [|done].
  destruct (tcp_demux _ _) as [?|] eqn:Hd; [|intros [= <- <-]; by left].
  specialize (Hpeer hlen Hc (eq_sym (proj1 (tcp_demux_self (conn w) _) (mk_is_Some _ _ Hd)))).
  set (w1 := match tsopt options with Some _ => _ | None => w end).
  assert (rx_step w w1) as S1 by (subst w1; destruct (tsopt options); [apply rx_step_upd; frame_same|done]).
  apply (rx_parsed_unsynchronised off); [by eapply unsynchronised_step|done].
Qed.

(** ** The network *)

(** What happens to a connection that receives from a network: any packet that
    was sent, except resets, any number of times and in any order, corrupted in
    no way the checksum misses; and what the application and the timers do. *)
Inductive net_event (sent : list bytes) : world → world → Prop :=
| net_packet packet st csum w rc w' :
    packet ∈ sent → has (hdr_flags packet) TCP_RST = false →
    tcp_rx packet st csum w = Some (rc, w') → net_event sent w w'
| net_app w w' : app_calls w w' → net_event sent w w'
| net_process w : net_event sent w (tcp_xmit (upd (set_process false) w))
| net_timer w t : net_event sent w (tcp_expired false (upd (set_timer t) w)).

Lemma sent_peer_packet packet csum c :
  sent_packet irs stream packet → has (hdr_flags packet) TCP_RST = false →
  ∃ off, -1 ≤ off ≤ Zlen stream + 1 ∧ peer_packet irs stream off packet csum c.
Proof.
  intros [?|(off & Hoff & Hp)] Hr; [congruence|]. exists off. split; [done|]. intros hlen Hc _.
  assert (hlen = header_len packet) as ->; [|done].
  unfold rx_check in Hc. repeat case_match; try done. by injection Hc.
Qed.

Lemma receiving_step w w' : rx_step w w' → receiving w → receiving w'.
Proof.
  intros S [Hu|(R & Hr)]; [left; by eapply unsynchronised_step|right; exists R; by eapply recv_inv_step].
Qed.

Lemma net_event_receiving sent w w' :
  Forall (sent_packet irs stream) sent → Zlen stream < 2 ^ 30 - 2 →
  net_event sent w w' → receiving w → receiving w'.
Proof using Hirs.
  intros Hsent Hlen Hev. rewrite Forall_forall in Hsent.
  destruct Hev as [packet st csum w rc w' Hin Hrst E|w w' Hc|w|w t]; intros Hrec.
  - destruct (sent_peer_packet packet csum (conn w) (Hsent _ Hin) Hrst) as (off & Hoff & Hp).
    destruct Hrec as [Hu|(R & Hr)]; [by eapply tcp_rx_unsynchronised|right].
    pose proof (received_range _ _ _ _ (proj1 Hr)).
    destruct (tcp_rx_spec irs stream R w off packet st csum rc w' Hr Hp) as (R' & Hr' & _); [lia|done|]. by exists R'.
  - destruct Hrec as [Hu|(R & Hr)]; [left; by eapply app_calls_unsynchronised|right]. exists R.
    eapply recv_inv_step; [|done]. apply app_calls_step; [done|apply Hr].
  - eapply receiving_step; [|done]. etrans; [|apply tcp_xmit_step]. apply rx_step_upd. frame_same.
  - eapply receiving_step; [|done]. etrans; [|apply tcp_xmit_step]. apply rx_step_upd. frame_same.
Qed.
End receiver.

(** C18: a connection is opened and used in any way; another one, not yet
    synchronised, receives any of the packets the first one sent, in any order
    and any number of times: the data delivered to the application of the second
    is always a prefix of the data accepted from the application of the first,
    and once the second has taken a FIN, all of it.  The two ends may be
    different programs around the protocol. *)
Theorem tcp_end_to_end `{Platform, Ticks} (ES ER : TcpEnv) (AS : XferPeer (H1 := ES)) (AR : XferPeer (H1 := ER))
    random (s0 s : world (H1 := ES)) (r0 r : world (H1 := ER)) :
  opened random s0 → rtc tcp_event s0 s → Zlen (accepted (log s)) < 2 ^ 30 - 2 →
  fresh (conn r0) → delivered (log r0) = [] → rtc (net_event (packets (log s))) r0 r →
  delivered (log r) `prefix_of` accepted (log s) ∧
  (rcvd (conn r) TCP_FIN = true → delivered (log r) = accepted (log s)).
Proof.
  intros Ho Hs Hlen Hf Hd Hr. set (iss := u32 random). set (D := accepted (log s)) in *.
  assert (in_range 32 iss) as Hiss by (apply wrap_range; lia).
  assert (Forall (sent_packet iss D) (packets (log s))) as Hsent.
  { destruct (tcp_history_alive iss SynSent 0 s0 s (opened_alive _ _ Ho) Hs)
      as [(ph & A & [_ [L _]] & _)|[_ [L _]]]; done. }
  assert (receiving iss D r) as Hrec.
  { assert (receiving iss D r0) as Hr0 by (left; done). clear Hf Hd. revert Hr0.
    induction Hr as [|w1 w2 w3 He _ IH]; [done|]. intros Hr1. apply IH.
    by eapply net_event_receiving. }
  destruct Hrec as [[(_ & Uf & _) Ud]|(R & [HR _])].
  - rewrite Ud, Uf. split; [apply prefix_nil|done].
  - rewrite (received_data _ _ _ _ HR), (received_fin _ _ _ _ HR). split; [apply prefix_take|].
    intros ->%bool_decide_eq_true. apply take_ge. lia.
Qed.

(** The packets of the example connection arrive at another one, opened by the
    peer at the same time, and some of them twice. *)
Section witness.
#[local] Existing Instance i386.
#[local] Existing Instance bios_ticks.

Definition example_receiver : world :=
  World (Tcp 0 {| st_family := 1; st_flags := 0; st_port := 0x1000; st_pad := [10; 0; 0; 1] ++ replicate 22 0 |} 80 1460 TCP_SYN_SENT example_irs 1 0 0 65536 0 0 0 0
           TCP_MAX_WINDOW_SIZE [] [] false timer_init timer_init 1 0 false) 0 [].
Definition example_sent (i : nat) : bytes := default [] (packets (log Example.w8) !! i).
Definition example_arrivals : list (Z * bytes) := (λ i, (0, example_sent i)) <$> [0; 2; 2; 0; 3]%nat.

Lemma example_net_event w i :
  is_Some (packets (log Example.w8) !! i) → has (hdr_flags (example_sent i)) TCP_RST = false →
  (∃ rc w', tcp_rx (example_sent i) example_peer TCPIP_EMPTY_CSUM w = Some (rc, w')) →
  net_event (packets (log Example.w8)) w (example_run w (0, example_sent i)).
Proof.
  intros [p Hp] Hr (rc & w' & E). unfold example_run. cbn [snd]. rewrite E.
  eapply net_packet; [|exact Hr|exact E]. apply list_elem_of_lookup. exists i. unfold example_sent. by rewrite Hp.
Qed.

Lemma example_net_history :
  rtc (net_event (packets (log Example.w8))) example_receiver (foldl example_run example_receiver example_arrivals).
Proof.
  unfold example_arrivals. cbn [fmap list_fmap foldl].
  do 5 (eapply rtc_r; [|apply example_net_event; [vm_compute; by eexists|by vm_compute|vm_compute; by eexists _, _]]).
  apply rtc_refl.
Qed.

Lemma tcp_end_to_end_witness :
  let r := foldl example_run example_receiver example_arrivals in
  delivered (log r) = [10; 20; 30; 40; 50] ∧ rcvd (conn r) TCP_FIN = true.
Proof.
  intros r. destruct (tcp_end_to_end example_env example_env example_app example_app 1000 Example.w0 Example.w8
    example_receiver r Example.w0_opened Example.history) as [_ Hfin];
    [by vm_compute|by_decide|by vm_compute|exact example_net_history|].
  assert (rcvd (conn r) TCP_FIN = true) as Hf by (by vm_compute).
  split; [|exact Hf]. rewrite (Hfin Hf). by vm_compute.
Defined.
End witness.

(** ** Inputs the code does not handle *)

(** The options from [data] on, of which [len] bytes are left, lead over the options
    before it to one of which [P] holds. *)
Inductive reaches (P : bytes → Prop) (data : bytes) (len : Z) : Prop :=
| reaches_here :
    0 < len → byte data 0 ≠ TCP_OPTION_END → byte data 0 ≠ TCP_OPTION_NOP → P data → reaches P data len
| reaches_nop : 0 < len → byte data 0 = TCP_OPTION_NOP → reaches P (drop 1 data) (len - 1) → reaches P data len
| reaches_option :
    0 < len → byte data 0 ≠ TCP_OPTION_END → byte data 0 ≠ TCP_OPTION_NOP → 0 < byte data 1 →
    reaches P (drop (Z.to_nat (byte data 1)) data) (len - byte data 1) → reaches P data len.

(** An option of length zero, and one whose length is beyond the end of the packet. *)
Definition zero_length : bytes → Z → Prop := reaches (λ option, option !! 1%nat = Some 0).
Definition truncated : bytes → Z → Prop := reaches (λ option, option !! 1%nat = None).

Lemma rx_opts_zero_length fuel data len options :
  zero_length data len → rx_opts_loop fuel data len options = None.
Proof.
  intros Hz. revert fuel options. induction Hz as [data len Hl He Hn Hz|data len Hl Hn _ IH|data len Hl He Hn Hp _ IH];
    intros fuel; induction fuel as [|fuel IHf]; intros options; try done; cbn [rx_opts_loop];
    (destruct (Z.leb_spec len 0); [lia|]).
  - assert (byte data 1 = 0) as Hb by (unfold byte; by rewrite Hz).
    rewrite (proj2 (Z.eqb_neq _ _) He), (proj2 (Z.eqb_neq _ _) Hn), Hb.
    change (Z.to_nat 0) with 0%nat. rewrite drop_0, Z.sub_0_r. apply IHf.
  - rewrite Hn. cbn. apply IH.
  - rewrite (proj2 (Z.eqb_neq _ _) He), (proj2 (Z.eqb_neq _ _) Hn). apply IH.
Qed.

(** Every other list of options is worked off. *)
Lemma rx_opts_loop_returns fuel data len options :
  is_bytes data → ¬ zero_length data len → ¬ truncated data len →
  (Z.to_nat len < fuel)%nat → is_Some (rx_opts_loop fuel data len options).
Proof.
  revert data len options. induction fuel as [|fuel IH]; intros data len options Hb Hz Ht Hf; [lia|]. cbn [rx_opts_loop].
  destruct (Z.leb_spec len 0); [done|].
  destruct (Z.eqb_spec (byte data 0) TCP_OPTION_END) as [|He]; [done|].
  destruct (Z.eqb_spec (byte data 0) TCP_OPTION_NOP) as [Hn|Hn].
  { apply IH; [by apply Forall_drop| | |lia]; intros Hr; [apply Hz|apply Ht]; by apply reaches_nop. }
  assert (0 < byte data 1) as Hp.
  { destruct (data !! 1%nat) as [l|] eqn:E; [|by exfalso; apply Ht; apply reaches_here].
    unfold byte. rewrite E. cbn. pose proof (Forall_lookup_1 _ _ _ _ Hb E) as [? _].
    destruct (decide (l = 0)) as [->|]; [|lia]. exfalso. apply Hz. by apply reaches_here. }
  apply IH; [by apply Forall_drop| | |lia]; intros Hr; [apply Hz|apply Ht]; by apply reaches_option.
Qed.

(** A packet of 24 bytes between the given ports whose only option has kind MSS and
    length zero, with the checksum for a pseudo-header. *)
Definition zero_length_before (src port : Z) : bytes :=
  be_split 2 src ++ be_split 2 port ++ replicate 8 0 ++ [0x60; TCP_ACK; 0; 0].
Definition zero_length_after : bytes := [0; 0; TCP_OPTION_MSS; 0; 0; 0].
Definition zero_length_packet (src port : Z) (pshdr : bytes) : bytes :=
  let before := zero_length_before src port in
  before ++ le_split 2 (generic_tcpip_continue_chksum (tcpip_chksum (before ++ [0; 0] ++ zero_length_after)) pshdr) ++
  zero_length_after.

Lemma zero_length_packet_spec src port pshdr :
  is_bytes pshdr →
  let p := zero_length_packet src port pshdr in
  hdr_src p = be_split 2 src ∧ hdr_dest p = be_split 2 port ∧ rx_check p (tcpip_chksum pshdr) = Ok 24 ∧
  zero_length (drop 20 p) (24 - 20).
Proof.
  intros Hps p.
  assert (is_bytes (zero_length_before src port) ∧ length (zero_length_before src port) = 16%nat) as [Hb Hl].
  { split; [|done]. apply Forall_app; split; [apply be_split_bytes|].
    apply Forall_app; split; [apply be_split_bytes|by_decide]. }
  destruct (chksum_pseudo (zero_length_before src port) zero_length_after pshdr Hb ltac:(by_decide) Hps) as [_ Hc];
    [by rewrite Hl|].
  assert (Zlen p = 24) as Hlen by done. assert (hdr_hlen p = 0x60) as Hh by done.
  split; [done|]. split; [done|]. split; [|by apply reaches_here].
  unfold rx_check. rewrite Hlen, Hh. unfold p, zero_length_packet. rewrite Hc. done.
Qed.

(** C19: tcp_rx_opts returns on every list of options that does not lead to an option
    of length zero (or to one cut off by the end of the packet), and never returns on
    one that does: no number of iterations suffices.  The list is parsed before the
    packet is matched to a connection, so that tcp_rx does not return from any packet
    that passes its checks and has such a list, whatever the state of the connection;
    and for every pair of ports and every pseudo-header there is such a packet. *)
Theorem tcp_rx_opts_returns `{Platform, Ticks, TcpEnv} `{!XferPeer} :
  (∀ data len, is_bytes data → ¬ zero_length data len → ¬ truncated data len → is_Some (tcp_rx_opts data len)) ∧
  (∀ fuel data len options, zero_length data len → rx_opts_loop fuel data len options = None) ∧
  (∀ packet csum hlen st w,
     rx_check packet csum = Ok hlen → zero_length (drop 20 packet) (hlen - 20) → tcp_rx packet st csum w = None) ∧
  (∀ src port pshdr, is_bytes pshdr →
     ∃ packet, hdr_src packet = be_split 2 src ∧ hdr_dest packet = be_split 2 port ∧
       rx_check packet (tcpip_chksum pshdr) = Ok 24 ∧ zero_length (drop 20 packet) (24 - 20)).
Proof.
  split_and!.
  - intros data len Hb Hz Ht. apply rx_opts_loop_returns; [done..|lia].
  - exact rx_opts_zero_length.
  - intros packet csum hlen st w Hc Hz. unfold tcp_rx, tcp_rx_opts, sizeof_tcp_header. rewrite Hc.
    change (Z.to_nat 20) with 20%nat. by rewrite rx_opts_zero_length.
  - intros src port pshdr Hps. exists (zero_length_packet src port pshdr). by apply zero_length_packet_spec.
Qed.

(** A list with one option, and a packet to port 80 that is never done with. *)
Lemma tcp_rx_opts_returns_witness :
  is_Some (tcp_rx_opts [TCP_OPTION_MSS; 4; 5; 180] 4) ∧
  ∃ packet, hdr_dest packet = [0; 80] ∧
    ∀ st w, @tcp_rx i386 bios_ticks example_env example_app packet st (tcpip_chksum [10; 0; 0; 1]) w = None.
Proof.
  destruct (@tcp_rx_opts_returns i386 bios_ticks example_env example_app) as (Hret & _ & Hnot & Hex). split.
  - apply Hret; [by_decide| |]; intros [_ _ _ Hz|_ Hn _|_ _ _ _ [Hl _ _ _|Hl _ _|Hl _ _ _ _]];
      first [discriminate Hz|discriminate Hn|discriminate Hl].
  - destruct (Hex 1 80 [10; 0; 0; 1] ltac:(by_decide)) as (packet & _ & Hd & Hc & Hz).
    exists packet. split; [exact Hd|]. intros st w. exact (Hnot packet _ 24 st w Hc Hz).
Defined.

(** a SYN that arrives before the connection's own SYN has been sent, and
    then a close, leave the connection sending both its SYN and a FIN, which the
    code asserts never to happen. *)
Lemma syn_before_sent `{Platform, Ticks, TcpEnv} random w0 seq options rc :
  opened random w0 →
  let w := tcp_close rc (upd (λ tcp, tcp_rx_syn tcp seq options) w0) in
  has (TCP_FLAGS_SENDING (tcp_state (conn w))) TCP_SYN = true ∧
  has (TCP_FLAGS_SENDING (tcp_state (conn w))) TCP_FIN = true.
Proof.
  intros (conns & st_peer & st_local & zok & t & random' & mtu & conns' & E & Hl). unfold tcp_open in E.
  destruct zok; [|done]. destruct (mtu =? 0); [done|]. destruct (tcpip_bind _ _ _) as [port|]; [|done].
  injection E as Ec _. cbn [negb] in Ec. set (w1 := upd _ w0).
  assert (tcp_state (conn w1) = TCP_SYN_RCVD ∧ snd_sent (conn w1) = 0 ∧ tx_queue (conn w1) = []) as (E1 & E2 & E3).
  { subst w1. cbn [upd conn]. rewrite <- Ec. unfold tcp_rx_syn. tcp_simpl. cbn [negb].
    destruct (tsopt options), (wsopt options); tcp_simpl; rewrite Z.eqb_refl; done. }
  unfold tcp_close. destruct (intf_shutdown rc (ext w1)) as [n e]. set (w2 := upd _ (discards n _)).
  assert (tcp_state (conn w2) = TCP_SYN_RCVD ∧ snd_sent (conn w2) = 0 ∧ tx_queue (conn w2) = []) as (Hst & Hs & Hq).
  { destruct (discards_iter_same n (conn w1)). split_and!; cbn [w2 upd conn discards]; tcp_simpl; congruence. }
  set (c := conn w2) in *. rewrite Hst.
  change (has TCP_SYN_RCVD (TCP_STATE_RCVD TCP_SYN)) with true.
  change (has TCP_SYN_RCVD (TCP_STATE_ACKED TCP_SYN)) with false. cbn [negb]. set (w3 := upd _ w2).
  assert (conn w3 = c) as Hc.
  { cbn [w3 upd conn]. fold c. rewrite tcp_rx_ack_eq, Hs, wrap_sub_l. replace (_ + 1 - _) with 1 by lia.
    change (0 <? u32 1) with true. done. }
  change (has (TCP_FLAGS_SENDING (tcp_state (start_fin (conn w3)))) TCP_SYN = true ∧
          has (TCP_FLAGS_SENDING (tcp_state (start_fin (conn w3)))) TCP_FIN = true).
  rewrite Hc. unfold start_fin. rewrite Hq, Hst. done.
Qed.

