(* ===== verification/Ipv4.v ===== *)
(** * IPv4 (src/net/ipv4.c, src/net/fragment.c, src/include/ipxe/ip.h,
    src/include/ipxe/in.h, src/include/ipxe/fragment.h, src/include/ipxe/iobuf.h)

    Routing, the transmit and the receive path, and the reassembly of fragments,
    which works for any network protocol through its [fragment_reassembler].
    The network devices, the link layer and the memory allocator are an
    interface; the transport protocols are a table, as in Tcpip. *)

From S2P Require Import Prelude Tcpip Retry.

(** ** I/O buffers *)

(** The headroom and the contents; the space behind them is not observable. *)
Record io_buffer : Type := Iob { iob_headroom : Z; iob_data : bytes }.

Definition iob_len (iobuf : io_buffer) : Z := Zlen (iob_data iobuf).
Definition iob_push (data : bytes) (iobuf : io_buffer) : io_buffer :=
  Iob (iob_headroom iobuf - Zlen data) (data ++ iob_data iobuf).
Definition iob_pull (len : Z) (iobuf : io_buffer) : io_buffer :=
  Iob (iob_headroom iobuf + len) (drop (Z.to_nat len) (iob_data iobuf)).
Definition iob_unput (len : Z) (iobuf : io_buffer) : io_buffer :=
  Iob (iob_headroom iobuf) (take (Z.to_nat (iob_len iobuf - len)) (iob_data iobuf)).

(** ** Constants and headers *)

Definition IP_VER : Z := 0x40.
Definition IP_MASK_VER : Z := 0xf0.
Definition IP_MASK_HLEN : Z := 0x0f.
Definition IP_MASK_OFFSET : Z := 0x1fff.
Definition IP_MASK_MOREFRAGS : Z := 0x2000.
Definition IP_TOS : Z := 0.
Definition IP_TTL : Z := 64.
Definition INADDR_BROADCAST : Z := 0xffffffff.
Definition IN_CLASSA (addr : Z) : bool := Z.land addr 0x80000000 =? 0x00000000.
Definition IN_CLASSA_NET : Z := 0xff000000.
Definition IN_CLASSB (addr : Z) : bool := Z.land addr 0xc0000000 =? 0x80000000.
Definition IN_CLASSB_NET : Z := 0xffff0000.
Definition IN_CLASSC (addr : Z) : bool := Z.land addr 0xe0000000 =? 0xc0000000.
Definition IN_CLASSC_NET : Z := 0xffffff00.
Definition IN_MULTICAST (addr : Z) : bool := Z.land addr 0xf0000000 =? 0xe0000000.
Definition LL_MULTICAST : Z := 0x0001.
Definition LL_BROADCAST : Z := 0x0002.
Definition AF_INET : Z := 1.

(** Conversion between the byte orders. *)
Definition ntohl (x : Z) : Z := be_combine (le_split 4 x).
Definition htonl (x : Z) : Z := le_combine (be_split 4 x).

Definition sizeof_iphdr : Z := 20.

(** The fields of struct iphdr, by their offsets.  Addresses and the identifier
    are the numbers the code compares: the bytes in memory order. *)
Definition ip_verhdrlen (data : bytes) : Z := byte data 0.
Definition ip_len (data : bytes) : Z := be_combine (field data 2 2).
Definition ip_ident (data : bytes) : Z := le_combine (field data 4 2).
Definition ip_frags (data : bytes) : Z := be_combine (field data 6 2).
Definition ip_protocol (data : bytes) : Z := byte data 9.
Definition ip_src (data : bytes) : Z := le_combine (field data 12 4).
Definition ip_dest (data : bytes) : Z := le_combine (field data 16 4).

Definition iphdr (verhdrlen service len ident frags ttl protocol chksum src dest : Z) : bytes :=
  [verhdrlen; service] ++ be_split 2 len ++ be_split 2 ident ++ be_split 2 frags ++ [ttl; protocol] ++
  le_split 2 chksum ++ le_split 4 src ++ le_split 4 dest.

(** struct sockaddr_in: the address follows the port. *)
Definition sin_addr (sa : sockaddr_tcpip) : Z := le_combine (take 4 (st_pad sa)).
Definition sockaddr_in (port addr : Z) : sockaddr_tcpip := SockaddrTcpip AF_INET 0 port (le_split 4 addr ++ replicate 22 0).

(** ** The rest of the program *)

Class NetStack := {
  net_env : Type;
  net_device : Type;
  net_device_eq_dec :: EqDecision net_device;
  net_currticks : net_env → Z;
  netdev_is_open : net_device → net_env → bool;
  rx_stats_good : net_device → net_env → Z;
  rx_stats_bad : net_device → net_env → Z;
  ll_broadcast : net_device → bytes;
  ll_addr : net_device → bytes;
  (** netdev->ll_protocol->mc_hash ( AF_INET, &addr, buf ) *)
  mc_hash : net_device → Z → res bytes;
  (** net_tx ( iobuf, netdev, &ipv4_protocol, ll_dest, netdev->ll_addr ) *)
  net_tx : io_buffer → net_device → bytes → net_env → res unit * net_env;
  (** arp_tx ( iobuf, netdev, &ipv4_protocol, &next_hop, &src, netdev->ll_addr ) *)
  arp_tx : io_buffer → net_device → Z → Z → net_env → res unit * net_env;
  (** Whether an allocation succeeds. *)
  alloc_iob : Z → net_env → bool * net_env;
  zalloc_fragment : net_env → bool * net_env;
  malloc_miniroute : net_env → bool * net_env;
}.

Section ipv4.
Context `{Platform, Ticks, NetStack}.

(** ** State *)

Record ipv4_miniroute : Type := Miniroute {
  mr_netdev : net_device;
  mr_address : Z;
  mr_netmask : Z;
  mr_gateway : Z;
}.

Record fragment : Type := Fragment {
  fr_iobuf : io_buffer;
  fr_hdrlen : Z;
  fr_timer : retry_timer;
}.

(** The static variables of ipv4.c and the rest of the program. *)
Record ipv4_state : Type := Ipv4 {
  next_ident_high : Z;
  ipv4_miniroutes : list ipv4_miniroute;
  ipv4_stats : ip_statistics;
  reassembly : list fragment;
  net_ext : net_env;
}.

Definition set_ext (e : net_env) (s : ipv4_state) : ipv4_state :=
  Ipv4 (next_ident_high s) (ipv4_miniroutes s) (ipv4_stats s) (reassembly s) e.
Definition set_reassembly (l : list fragment) (s : ipv4_state) : ipv4_state :=
  Ipv4 (next_ident_high s) (ipv4_miniroutes s) (ipv4_stats s) l (net_ext s).
Definition set_miniroutes (l : list ipv4_miniroute) (s : ipv4_state) : ipv4_state :=
  Ipv4 (next_ident_high s) l (ipv4_stats s) (reassembly s) (net_ext s).
Definition upd_stats (f : ip_statistics → ip_statistics) (s : ipv4_state) : ipv4_state :=
  Ipv4 (next_ident_high s) (ipv4_miniroutes s) (f (ipv4_stats s)) (reassembly s) (net_ext s).
Definition count (c : ip_counter) : ipv4_state → ipv4_state := upd_stats (stat_add c 1).

(** ** Reassembly *)

(** The methods of struct fragment_reassembler; the list of buffers and the
    statistics are those of the state. *)
Record fragment_reassembler : Type := {
  is_fragment : fragment → io_buffer → Z → bool;
  fragment_offset : io_buffer → Z → Z;
  more_fragments : io_buffer → Z → bool;
}.

Definition FRAGMENT_TIMEOUT : Z := TICKS_PER_SEC / 2.

(** The buffer at position [i] of the list expires. *)
Definition fragment_expired (i : nat) (s : ipv4_state) : ipv4_state :=
  count reasm_fails (set_reassembly (delete i (reassembly s)) s).

Definition fragment_find (fragments : fragment_reassembler) (iobuf : io_buffer) (hdrlen : Z) (l : list fragment)
    : option (nat * fragment) :=
  list_find (λ fragment, is_fragment fragments fragment iobuf hdrlen = true) l.

(** The reassembled packet with its header length, or NULL. *)
Definition fragment_reassemble (fragments : fragment_reassembler) (iobuf : io_buffer) (hdrlen : Z) (s : ipv4_state)
    : option (io_buffer * Z) * ipv4_state :=
  let s := count reasm_reqds s in
  let found := fragment_find fragments iobuf hdrlen (reassembly s) in
  (* Drop out-of-order fragments *)
  let offset := fragment_offset fragments iobuf hdrlen in
  let expected_offset := match found with
                         | Some (_, fragment) => usize (iob_len (fr_iobuf fragment) - fr_hdrlen fragment)
                         | None => 0
                         end in
  if negb (offset =? expected_offset) then (None, count reasm_fails s)
  else
    match found with
    | None =>
        (* Create new fragment reassembly buffer *)
        let '(ok, e) := zalloc_fragment (net_ext s) in
        let s := set_ext e s in
        if negb ok then (None, count reasm_fails s)
        else
          let timer := start_timer_fixed (net_currticks (net_ext s)) FRAGMENT_TIMEOUT timer_init in
          (None, set_reassembly (Fragment iobuf hdrlen timer :: reassembly s) s)
    | Some (i, fragment) =>
        (* Check if this is the final fragment *)
        let more_frags := more_fragments fragments iobuf hdrlen in
        (* Extend fragment reassembly buffer *)
        let iobuf := iob_pull hdrlen iobuf in
        let new_len := usize (iob_headroom (fr_iobuf fragment) + iob_len (fr_iobuf fragment) + iob_len iobuf) in
        let '(ok, e) := alloc_iob new_len (net_ext s) in
        let s := set_ext e s in
        if negb ok then (None, count reasm_fails s)
        else
          let new_iobuf := Iob (iob_headroom (fr_iobuf fragment)) (iob_data (fr_iobuf fragment) ++ iob_data iobuf) in
          let timer := stop_timer (net_currticks (net_ext s)) (fr_timer fragment) in
          (* If this is the final fragment, return it *)
          if negb more_frags
          then (Some (new_iobuf, fr_hdrlen fragment), count reasm_oks (set_reassembly (delete i (reassembly s)) s))
          else
            let timer := start_timer_fixed (net_currticks (net_ext s)) FRAGMENT_TIMEOUT timer in
            (None, set_reassembly (<[i := Fragment new_iobuf (fr_hdrlen fragment) timer]> (reassembly s)) s)
    end.

(** *** IPv4 fragments *)

Definition ipv4_is_fragment (fragment : fragment) (iobuf : io_buffer) (hdrlen : Z) : bool :=
  (ip_src (iob_data iobuf) =? ip_src (iob_data (fr_iobuf fragment))) &&
  (ip_ident (iob_data iobuf) =? ip_ident (iob_data (fr_iobuf fragment))).
Definition ipv4_fragment_offset (iobuf : io_buffer) (hdrlen : Z) : Z :=
  Z.shiftl (Z.land (ip_frags (iob_data iobuf)) IP_MASK_OFFSET) 3.
Definition ipv4_more_fragments (iobuf : io_buffer) (hdrlen : Z) : bool :=
  negb (Z.land (ip_frags (iob_data iobuf)) IP_MASK_MOREFRAGS =? 0).

Definition ipv4_reassembler : fragment_reassembler := {|
  is_fragment := ipv4_is_fragment;
  fragment_offset := ipv4_fragment_offset;
  more_fragments := ipv4_more_fragments;
|}.

(** ** Routing *)

Definition add_ipv4_miniroute (netdev : net_device) (address netmask gateway : Z) (s : ipv4_state)
    : option ipv4_miniroute * ipv4_state :=
  let '(ok, e) := malloc_miniroute (net_ext s) in
  let s := set_ext e s in
  if negb ok then (None, s)
  else
    let miniroute := Miniroute netdev address netmask gateway in
    (* Add to end of list if we have a gateway, otherwise to start of list *)
    (Some miniroute,
     set_miniroutes (if negb (gateway =? 0) then ipv4_miniroutes s ++ [miniroute] else miniroute :: ipv4_miniroutes s) s).

(** The route to use and the next hop. *)
Fixpoint route_loop (routes : list ipv4_miniroute) (dest : Z) (e : net_env) : option (ipv4_miniroute * Z) :=
  match routes with
  | [] => None
  | miniroute :: rest =>
      if negb (netdev_is_open (mr_netdev miniroute) e) then route_loop rest dest e
      else
        let local := Z.land (Z.lxor dest (mr_address miniroute)) (mr_netmask miniroute) =? 0 in
        let has_gw := negb (mr_gateway miniroute =? 0) in
        if local || has_gw
        then Some (miniroute, if negb local then mr_gateway miniroute else dest)
        else route_loop rest dest e
  end.

Definition ipv4_route (dest : Z) (s : ipv4_state) : option (ipv4_miniroute * Z) :=
  route_loop (ipv4_miniroutes s) dest (net_ext s).

Definition ipv4_netdev (st_dest : sockaddr_tcpip) (s : ipv4_state) : option net_device :=
  match ipv4_route (sin_addr st_dest) s with
  | None => None
  | Some (miniroute, _) => Some (mr_netdev miniroute)
  end.

Definition ipv4_has_any_addr (netdev : net_device) (s : ipv4_state) : bool :=
  existsb (λ miniroute, bool_decide (mr_netdev miniroute = netdev)) (ipv4_miniroutes s).

Definition ipv4_has_addr (netdev : net_device) (addr : Z) (s : ipv4_state) : bool :=
  existsb (λ miniroute, bool_decide (mr_netdev miniroute = netdev) && (mr_address miniroute =? addr)) (ipv4_miniroutes s).

Definition ipv4_arp_check (netdev : net_device) (address : Z) (s : ipv4_state) : res unit :=
  if ipv4_has_addr netdev address s then Ok tt else Err ENOENT.

(** [fetch] gives the value of an IPv4 address setting of a device, zero if it
    has none. *)
Inductive ipv4_setting : Set := ip_setting | netmask_setting | gateway_setting.

Definition default_netmask (address netmask : Z) : Z :=
  if negb (netmask =? 0) then netmask
  else if IN_CLASSA (ntohl address) then htonl IN_CLASSA_NET
  else if IN_CLASSB (ntohl address) then htonl IN_CLASSB_NET
  else if IN_CLASSC (ntohl address) then htonl IN_CLASSC_NET
  else netmask.

Fixpoint create_routes_loop (fetch : net_device → ipv4_setting → Z) (netdevs : list net_device) (s : ipv4_state)
    : res unit * ipv4_state :=
  match netdevs with
  | [] => (Ok tt, s)
  | netdev :: rest =>
      let address := fetch netdev ip_setting in
      if address =? 0 then create_routes_loop fetch rest s
      else
        let netmask := default_netmask address (fetch netdev netmask_setting) in
        let gateway := fetch netdev gateway_setting in
        match add_ipv4_miniroute netdev address netmask gateway s with
        | (None, s) => (Err ENOMEM, s)
        | (Some _, s) => create_routes_loop fetch rest s
        end
  end.

Definition ipv4_create_routes (fetch : net_device → ipv4_setting → Z) (netdevs : list net_device) (s : ipv4_state)
    : res unit * ipv4_state :=
  create_routes_loop fetch netdevs (set_miniroutes [] s).

(** ** Transmission *)

Definition ipv4_pshdr_chksum (data : bytes) (csum : Z) : Z :=
  let hdrlen := Z.land (ip_verhdrlen data) IP_MASK_HLEN * 4 in
  let pshdr := le_split 4 (ip_src data) ++ le_split 4 (ip_dest data) ++ [0; ip_protocol data] ++
               be_split 2 (Zlen data - hdrlen) in
  generic_tcpip_continue_chksum csum pshdr.

(** The identifier of the next datagram. *)
Definition next_ident (netdev : net_device) (s : ipv4_state) : Z :=
  Z.lor (Z.lor (Z.shiftl (u8 (next_ident_high s + 1)) 8)
           (Z.shiftl (Z.land (rx_stats_bad netdev (net_ext s)) 0xf) 4))
    (Z.shiftl (Z.land (rx_stats_good netdev (net_ext s)) 0xf) 0).

(** The datagram for a segment: the transport-layer checksum, at an offset in
    the segment, is completed, then the header checksum filled in. *)
Definition tx_datagram (protocol ident src dest : Z) (segment : bytes) (trans_csum : option Z) : bytes :=
  let header := iphdr (Z.lor IP_VER (sizeof_iphdr / 4)) IP_TOS (sizeof_iphdr + Zlen segment) ident 0 IP_TTL protocol in
  let segment :=
    match trans_csum with
    | Some offset =>
        let csum := le_combine (field segment (Z.to_nat offset) 2) in
        store segment (Z.to_nat offset) (le_split 2 (ipv4_pshdr_chksum (header 0 src dest ++ segment) csum))
    | None => segment
    end in
  header (tcpip_chksum (header 0 src dest)) src dest ++ segment.

Definition ipv4_tx (iobuf : io_buffer) (protocol : tcpip_protocol (S := ipv4_state) (D := net_device) (B := io_buffer))
    (st_src : option sockaddr_tcpip) (st_dest : sockaddr_tcpip) (netdev : option net_device) (trans_csum : option Z) (s : ipv4_state)
    : res unit * ipv4_state :=
  let s := count out_requests s in
  let dest := sin_addr st_dest in
  (* Use routing table to identify next hop and transmitting netdev *)
  let src := match st_src with Some sin_src => sin_addr sin_src | None => 0 end in
  let route := if negb (dest =? INADDR_BROADCAST) && negb (IN_MULTICAST (ntohl dest)) then ipv4_route dest s else None in
  let '(next_hop, src, netmask, netdev) :=
    match route with
    | Some (miniroute, next_hop) => (next_hop, mr_address miniroute, mr_netmask miniroute, Some (mr_netdev miniroute))
    | None => (dest, src, 0, netdev)
    end in
  match netdev with
  | None => (Err ENETUNREACH, count out_no_routes s)
  | Some netdev =>
      let ident := next_ident netdev s in
      let s := Ipv4 (u8 (next_ident_high s + 1)) (ipv4_miniroutes s) (ipv4_stats s) (reassembly s) (net_ext s) in
      let datagram := tx_datagram (tp_proto protocol) ident src dest (iob_data iobuf) trans_csum in
      let iobuf := Iob (iob_headroom iobuf - sizeof_iphdr) datagram in
      (* Calculate link-layer destination address, if possible *)
      let '(ll_dest, s) :=
        if Z.land (Z.lxor next_hop INADDR_BROADCAST) (Z.lnot netmask) =? 0
        then (Ok (Some (ll_broadcast netdev)), count out_bcast_pkts s)
        else if IN_MULTICAST (ntohl next_hop)
        then (match mc_hash netdev next_hop with Ok ll => Ok (Some ll) | Err e => Err e end, count out_mcast_pkts s)
        else (Ok None, s) in
      match ll_dest with
      | Err e => (Err e, s)
      | Ok ll_dest =>
          let s := count out_transmits s in
          let s := upd_stats (stat_add out_octets (iob_len iobuf)) s in
          (* Hand off to link layer (via ARP if applicable) *)
          let '(rc, e) :=
            match ll_dest with
            | Some ll_dest => net_tx iobuf netdev ll_dest (net_ext s)
            | None => arp_tx iobuf netdev next_hop src (net_ext s)
            end in
          (rc, set_ext e s)
      end
  end.

(** ** Reception *)

(** The sanity checks: the header length and the packet truncated to its
    length, or the counter to increment. *)
Definition rx_header (data : bytes) : (Z * Z) + ip_counter :=
  let len := Zlen data in
  if len <? sizeof_iphdr then inr in_hdr_errors
  else if negb (Z.land (ip_verhdrlen data) IP_MASK_VER =? IP_VER) then inr in_hdr_errors
  else
    let hdrlen := Z.land (ip_verhdrlen data) IP_MASK_HLEN * 4 in
    if hdrlen <? sizeof_iphdr then inr in_hdr_errors
    else if len <? hdrlen then inr in_hdr_errors
    else if negb (tcpip_chksum (take (Z.to_nat hdrlen) data) =? 0) then inr in_hdr_errors
    else if ip_len data <? hdrlen then inr in_hdr_errors
    else if len <? ip_len data then inr in_truncated_pkts
    else inl (hdrlen, ip_len data).

(** Delivery to the transport layer. *)
Definition rx_deliver (protocols : list (tcpip_protocol (S := ipv4_state) (D := net_device) (B := io_buffer)))
    (iobuf : io_buffer) (hdrlen : Z) (netdev : net_device) (s : ipv4_state) : res unit * ipv4_state :=
  let data := iob_data iobuf in
  let src := sockaddr_in 0 (ip_src data) in
  let dest := sockaddr_in 0 (ip_dest data) in
  let pshdr_csum := ipv4_pshdr_chksum data TCPIP_EMPTY_CSUM in
  tcpip_rx (λ _ s, s) protocols (iob_pull hdrlen iobuf) netdev (ip_protocol data) src dest pshdr_csum upd_stats s.

Definition ipv4_rx (protocols : list (tcpip_protocol (S := ipv4_state) (D := net_device) (B := io_buffer)))
    (iobuf : io_buffer) (netdev : net_device) (flags : Z) (s : ipv4_state) : res unit * ipv4_state :=
  let s := count in_receives s in
  let s := upd_stats (stat_add in_octets (iob_len iobuf)) s in
  let s := if negb (Z.land flags LL_BROADCAST =? 0) then count in_bcast_pkts s
           else if negb (Z.land flags LL_MULTICAST =? 0) then count in_mcast_pkts s else s in
  match rx_header (iob_data iobuf) with
  | inr c => (Err EINVAL, count c s)
  | inl (hdrlen, len) =>
      (* Truncate packet to correct length *)
      let iobuf := iob_unput (iob_len iobuf - len) iobuf in
      (* Discard unicast packets not destined for us *)
      if (Z.land flags LL_MULTICAST =? 0) && ipv4_has_any_addr netdev s &&
         negb (ipv4_has_addr netdev (ip_dest (iob_data iobuf)) s)
      then (Err EINVAL, count in_addr_errors s)
      else if negb (Z.land (ip_frags (iob_data iobuf)) (Z.lor IP_MASK_OFFSET IP_MASK_MOREFRAGS) =? 0) then
        (* Perform fragment reassembly if applicable *)
        match fragment_reassemble ipv4_reassembler iobuf hdrlen s with
        | (None, s) => (Ok tt, s)
        | (Some (iobuf, hdrlen), s) => rx_deliver protocols iobuf hdrlen netdev s
        end
      else rx_deliver protocols iobuf hdrlen netdev s
  end.

(** The transport layer's table entry. *)
Definition ipv4_tcpip_protocol : tcpip_net_protocol (S := ipv4_state) (D := net_device) (B := io_buffer) := {|
  tn_sa_family := AF_INET;
  tn_header_len := sizeof_iphdr;
  tn_tx := ipv4_tx;
  tn_netdev := ipv4_netdev;
|}.

End ipv4.

(** ** Datagrams *)

(** The header of a datagram without options. *)
Abbreviation header len ident frags proto := (iphdr 0x45 IP_TOS len ident frags IP_TTL proto).

Lemma header_bytes len ident frags proto csum src dest :
  is_byte proto → is_bytes (header len ident frags proto csum src dest).
Proof.
  intros. unfold iphdr.
  repeat match goal with |- Forall _ (_ ++ _) => apply Forall_app; split end;
    first [apply be_split_bytes|apply le_split_bytes
          |apply Forall_cons; split; [done|]; apply Forall_cons; split; [done|]; by apply Forall_nil].
Qed.

Lemma header_fields len ident frags proto csum src dest rest :
  in_range 16 len → in_range 16 frags → in_range 32 src → in_range 32 dest →
  let data := header len ident frags proto csum src dest ++ rest in
  ip_verhdrlen data = 0x45 ∧ ip_len data = len ∧ ip_ident data = le_combine (be_split 2 ident) ∧
  ip_frags data = frags ∧ ip_protocol data = proto ∧ ip_src data = src ∧ ip_dest data = dest.
Proof.
  intros Hl Hf Hs Hd data.
  assert (field data 2 2 = be_split 2 len ∧ field data 4 2 = be_split 2 ident ∧ field data 6 2 = be_split 2 frags ∧
    field data 12 4 = le_split 4 src ∧ field data 16 4 = le_split 4 dest) as (E1 & E2 & E3 & E4 & E5) by done.
  unfold ip_len, ip_ident, ip_frags, ip_src, ip_dest. rewrite E1, E2, E3, E4, E5, !be_combine_split, !le_combine_split.
  split_and!; try reflexivity; by apply Z.mod_small.
Qed.

(** The pseudo-header. *)
Definition pseudo_header (src dest proto len : Z) : bytes :=
  le_split 4 src ++ le_split 4 dest ++ [0; proto] ++ be_split 2 len.

Lemma pseudo_header_bytes src dest proto len : is_byte proto → is_bytes (pseudo_header src dest proto len).
Proof.
  intros. unfold pseudo_header.
  repeat match goal with |- Forall _ (_ ++ _) => apply Forall_app; split end;
    first [apply be_split_bytes|apply le_split_bytes
          |apply Forall_cons; split; [done|]; apply Forall_cons; split; [done|]; by apply Forall_nil].
Qed.

Lemma pshdr_chksum_header len ident frags proto csum src dest rest c :
  in_range 16 len → in_range 16 frags → in_range 32 src → in_range 32 dest →
  ipv4_pshdr_chksum (header len ident frags proto csum src dest ++ rest) c =
    generic_tcpip_continue_chksum c (pseudo_header src dest proto (Zlen rest)).
Proof.
  intros Hl Hf Hs Hd. unfold ipv4_pshdr_chksum.
  destruct (header_fields len ident frags proto csum src dest rest Hl Hf Hs Hd) as (-> & _ & _ & _ & -> & -> & ->).
  change (Z.land 0x45 IP_MASK_HLEN * 4) with 20. rewrite length_app. unfold pseudo_header.
  change (length (header len ident frags proto csum src dest)) with 20%nat.
  replace (Z.of_nat (20 + length rest) - 20) with (Zlen rest) by lia. done.
Qed.

Lemma pshdr_chksum_empty len ident frags proto csum src dest rest :
  in_range 16 len → in_range 16 frags → in_range 32 src → in_range 32 dest →
  ipv4_pshdr_chksum (header len ident frags proto csum src dest ++ rest) TCPIP_EMPTY_CSUM =
    tcpip_chksum (pseudo_header src dest proto (Zlen rest)).
Proof. exact (λ Hl Hf Hs Hd, pshdr_chksum_header len ident frags proto csum src dest rest TCPIP_EMPTY_CSUM Hl Hf Hs Hd). Qed.

(** The header verifies. *)
Lemma header_chksum len ident frags proto src dest :
  is_byte proto →
  tcpip_chksum (header len ident frags proto (tcpip_chksum (header len ident frags proto 0 src dest)) src dest) = 0.
Proof.
  intros Hp. set (before := [0x45; IP_TOS] ++ be_split 2 len ++ be_split 2 ident ++ be_split 2 frags ++ [IP_TTL; proto]).
  set (after := le_split 4 src ++ le_split 4 dest).
  pose proof (header_bytes len ident frags proto 0 src dest Hp) as Hb.
  assert (∀ c, header len ident frags proto c src dest = before ++ le_split 2 c ++ after) as E
    by (intros c; unfold iphdr, before, after; rewrite <- !app_assoc; reflexivity).
  rewrite E, Forall_app in Hb. destruct Hb as [Hb1 Hb2]. rewrite !E.
  apply (chksum_verifies before after); [done| |reflexivity]. apply Forall_app in Hb2. apply Hb2.
Qed.

(** The sanity checks of a receiver pass, whatever padding follows. *)
Lemma rx_header_datagram len ident frags proto src dest segment padding :
  len = 20 + Zlen segment → in_range 16 len → in_range 16 frags → in_range 32 src → in_range 32 dest → is_byte proto →
  rx_header (header len ident frags proto (tcpip_chksum (header len ident frags proto 0 src dest)) src dest ++
             segment ++ padding) = inl (20, len).
Proof.
  intros Hlen Hr Hf Hs Hd Hp. unfold rx_header. pose proof (header_chksum len ident frags proto src dest Hp) as Hc.
  set (c := tcpip_chksum (header len ident frags proto 0 src dest)) in *. clearbody c.
  destruct (header_fields len ident frags proto c src dest (segment ++ padding) Hr Hf Hs Hd) as (-> & -> & _).
  change (Z.land 0x45 IP_MASK_HLEN * 4) with 20. change (Z.land 0x45 IP_MASK_VER =? IP_VER) with true.
  rewrite take_app_length' by done. rewrite Hc, !length_app. unfold sizeof_iphdr.
  change (length (header len ident frags proto c src dest)) with 20%nat. cbn [negb Z.eqb].
  repeat match goal with |- context [?a <? ?b] => destruct (Z.ltb_spec a b); [lia|] end. done.
Qed.

(** What arrives of a segment with a checksum: the same segment but for its
    checksum field, which verifies against the pseudo-header. *)
Lemma tx_datagram_eq proto ident src dest before after c :
  in_range 16 (20 + Zlen (before ++ le_split 2 c ++ after)) → in_range 32 src → in_range 32 dest → in_range 16 c →
  let segment := before ++ le_split 2 c ++ after in
  let len := 20 + Zlen segment in
  let c' := generic_tcpip_continue_chksum c (pseudo_header src dest proto (Zlen segment)) in
  tx_datagram proto ident src dest segment (Some (Zlen before)) =
    header len ident 0 proto (tcpip_chksum (header len ident 0 proto 0 src dest)) src dest ++
    before ++ le_split 2 c' ++ after.
Proof.
  intros Hl Hs Hd Hc segment len c'. unfold tx_datagram. change (Z.lor IP_VER (sizeof_iphdr / 4)) with 0x45.
  change (sizeof_iphdr + Zlen segment) with len. f_equal. rewrite Nat2Z.id.
  assert (field segment (length before) 2 = le_split 2 c) as ->.
  { unfold field, segment. rewrite drop_app_length. by rewrite take_app_length'. }
  rewrite le_combine_split. change (2 ^ (8 * Z.of_nat 2)) with (2 ^ 16). rewrite Z.mod_small by done.
  rewrite pshdr_chksum_header by done. fold c'. unfold store, segment.
  rewrite take_app_length, length_le_split. f_equal. f_equal.
  rewrite <- drop_drop, drop_app_length. by rewrite drop_app_length'.
Qed.

Section receive.
Context `{Platform, Ticks, NetStack}.

(** Steps that only count. *)
Definition counted (s s' : ipv4_state) : Prop := ∃ f, s' = upd_stats f s.

Lemma counted_refl s : counted s s.
Proof. exists id. by destruct s. Qed.
Lemma counted_upd f s s' : counted s s' → counted s (upd_stats f s').
Proof. intros [g ->]. exists (f ∘ g). by destruct s. Qed.

Lemma counted_same s s' : counted s s' →
  ipv4_miniroutes s' = ipv4_miniroutes s ∧ reassembly s' = reassembly s ∧ net_ext s' = net_ext s.
Proof. by intros [f ->]. Qed.

(** Whether a packet for an address is accepted. *)
Definition accepts (netdev : net_device) (flags dest : Z) (s : ipv4_state) : bool :=
  negb (Z.land flags LL_MULTICAST =? 0) || negb (ipv4_has_any_addr netdev s) || ipv4_has_addr netdev dest s.

(** The receive path up to reassembly. *)
Definition rx_accepted (protocols : list (tcpip_protocol (S := ipv4_state) (D := net_device) (B := io_buffer)))
    (iobuf : io_buffer) (hdrlen : Z) (netdev : net_device) (s : ipv4_state) : res unit * ipv4_state :=
  if negb (Z.land (ip_frags (iob_data iobuf)) (Z.lor IP_MASK_OFFSET IP_MASK_MOREFRAGS) =? 0) then
    match fragment_reassemble ipv4_reassembler iobuf hdrlen s with
    | (None, s) => (Ok tt, s)
    | (Some (iobuf, hdrlen), s) => rx_deliver protocols iobuf hdrlen netdev s
    end
  else rx_deliver protocols iobuf hdrlen netdev s.

Lemma ipv4_rx_accepted protocols headroom data netdev flags s hdrlen len :
  rx_header data = inl (hdrlen, len) → 0 ≤ len ≤ Zlen data →
  accepts netdev flags (ip_dest (take (Z.to_nat len) data)) s = true →
  ∃ s', counted s s' ∧
    ipv4_rx protocols (Iob headroom data) netdev flags s =
    rx_accepted protocols (Iob headroom (take (Z.to_nat len) data)) hdrlen netdev s'.
Proof.
  intros Hh Hlen Ha. unfold ipv4_rx. cbn [iob_data]. rewrite Hh.
  set (s1 := if negb (Z.land flags LL_BROADCAST =? 0) then _ else _).
  assert (counted s s1) as Hc.
  { subst s1. repeat case_match; repeat apply counted_upd; apply counted_refl. }
  exists s1. split; [done|].
  assert (iob_unput (iob_len (Iob headroom data) - len) (Iob headroom data) = Iob headroom (take (Z.to_nat len) data)) as ->.
  { unfold iob_unput, iob_len. cbn [iob_data iob_headroom]. do 2 f_equal. lia. }
  cbn [iob_data]. unfold accepts, ipv4_has_any_addr, ipv4_has_addr in *.
  destruct (counted_same _ _ Hc) as (-> & _ & _).
  destruct (Z.land flags LL_MULTICAST =? 0), (existsb _ (ipv4_miniroutes s)) eqn:E; cbn [andb negb orb] in *; try done.
  by rewrite Ha.
Qed.
End receive.

Section roundtrip.
Context `{Platform, Ticks}.

(** Reception of a datagram that is not a fragment. *)
Lemma ipv4_rx_plain (N : NetStack) protocols q headroom h segment padding netdev flags pshdr_csum (r : ipv4_state) :
  let data := h ++ segment in
  length h = 20%nat → rx_header (h ++ segment ++ padding) = inl (20, 20 + Zlen segment) → ip_frags data = 0 →
  find (λ tcpip, tp_proto tcpip =? ip_protocol data) protocols = Some q → accepts netdev flags (ip_dest data) r = true →
  ipv4_pshdr_chksum data TCPIP_EMPTY_CSUM = pshdr_csum →
  ∃ r', counted r r' ∧
    ipv4_rx protocols (Iob headroom (h ++ segment ++ padding)) netdev flags r =
    tp_rx q (Iob (headroom + 20) segment) netdev (sockaddr_in 0 (ip_src data)) (sockaddr_in 0 (ip_dest data)) pshdr_csum r'.
Proof.
  intros data Hh Hrx Hf Hq Ha Hps.
  assert (take (Z.to_nat (20 + Zlen segment)) (h ++ segment ++ padding) = data) as Htake.
  { rewrite app_assoc. apply take_app_length'. unfold data. rewrite length_app. lia. }
  destruct (ipv4_rx_accepted protocols headroom (h ++ segment ++ padding) netdev flags r _ _ Hrx) as (r' & Hc & ->).
  { rewrite !length_app. lia. }
  { by rewrite Htake. }
  rewrite Htake. unfold rx_accepted. cbn [iob_data]. rewrite Hf, Z.land_0_l. cbn [Z.eqb negb].
  unfold rx_deliver, iob_pull. cbn [iob_data iob_headroom]. rewrite Hps, tcpip_rx_find, Hq.
  change (Z.to_nat 20) with 20%nat. unfold data. rewrite drop_app_length' by done.
  eexists. split; [|reflexivity]. by apply counted_upd.
Qed.

Lemma ipv4_rx_datagram (N : NetStack) protocols q headroom ident proto src dest segment padding netdev flags
    (r : ipv4_state) :
  in_range 16 (20 + Zlen segment) → in_range 32 src → in_range 32 dest → is_byte proto →
  find (λ tcpip, tp_proto tcpip =? proto) protocols = Some q → accepts netdev flags dest r = true →
  let len := 20 + Zlen segment in
  ∃ r', counted r r' ∧
    ipv4_rx protocols (Iob headroom (header len ident 0 proto (tcpip_chksum (header len ident 0 proto 0 src dest)) src dest ++
                                     segment ++ padding)) netdev flags r =
    tp_rx q (Iob (headroom + 20) segment) netdev (sockaddr_in 0 src) (sockaddr_in 0 dest)
      (tcpip_chksum (pseudo_header src dest proto (Zlen segment))) r'.
Proof.
  intros Hlen Hs Hd Hp Hq Ha len. assert (in_range 16 0) as Hz by done.
  pose proof (rx_header_datagram len ident 0 proto src dest segment padding eq_refl Hlen Hz Hs Hd Hp) as Hrx.
  set (c := tcpip_chksum (header len ident 0 proto 0 src dest)) in *. clearbody c.
  destruct (header_fields len ident 0 proto c src dest segment Hlen Hz Hs Hd) as (_ & _ & _ & Ef & Ep & Es & Ed).
  pose proof (pshdr_chksum_empty len ident 0 proto c src dest segment Hlen Hz Hs Hd) as Eps.
  set (h := header len ident 0 proto c src dest) in *. assert (length h = 20%nat) as Hh by done. clearbody h.
  destruct (ipv4_rx_plain N protocols q headroom h segment padding netdev flags
    (tcpip_chksum (pseudo_header src dest proto (Zlen segment))) r Hh Hrx Ef) as (r' & Hc & E);
    [by rewrite Ep|by rewrite Ed|exact Eps|].
  rewrite Es, Ed in E. exists r'. split; [exact Hc|exact E].
Qed.

(** A segment carried from [ipv4_tx] to [ipv4_rx]. *)
Lemma ipv4_carries (NS NR : NetStack) (p : tcpip_protocol) before after headroom st_src st_dest netdev
    (s : ipv4_state (H1 := NS)) mr next_hop :
  let csum := tcpip_chksum (before ++ [0; 0] ++ after) in
  let segment := before ++ le_split 2 csum ++ after in
  let dest := sin_addr st_dest in
  is_bytes before → is_bytes after → Nat.even (length before) = true → 20 + Zlen segment < 2 ^ 16 →
  is_byte (tp_proto p) → in_range 32 dest → dest ≠ INADDR_BROADCAST → IN_MULTICAST (ntohl dest) = false →
  ipv4_route dest s = Some (mr, next_hop) → in_range 32 (mr_address mr) →
  Z.land (Z.lxor next_hop INADDR_BROADCAST) (Z.lnot (mr_netmask mr)) ≠ 0 → IN_MULTICAST (ntohl next_hop) = false →
  ∃ datagram csum' s1, in_range 16 csum' ∧
    ipv4_tx (Iob headroom segment) p st_src st_dest netdev (Some (Zlen before)) s =
      (let '(rc, e) := arp_tx (Iob (headroom - 20) datagram) (mr_netdev mr) next_hop (mr_address mr) (net_ext s) in
       (rc, set_ext e s1)) ∧
    ipv4_miniroutes s1 = ipv4_miniroutes s ∧ reassembly s1 = reassembly s ∧
    ∀ protocols q headroom' padding netdev' flags (r : ipv4_state (H1 := NR)),
      find (λ tcpip, tp_proto tcpip =? tp_proto p) protocols = Some q → accepts netdev' flags dest r = true →
      ∃ r' pshdr_csum, counted r r' ∧
        ipv4_rx protocols (Iob headroom' (datagram ++ padding)) netdev' flags r =
          tp_rx q (Iob (headroom' + 20) (before ++ le_split 2 csum' ++ after)) netdev' (sockaddr_in 0 (mr_address mr)) (sockaddr_in 0 dest)
            pshdr_csum r' ∧
        generic_tcpip_continue_chksum pshdr_csum (before ++ le_split 2 csum' ++ after) = 0.
Proof.
  intros csum segment dest Hb Ha He Hlen Hp Hd Hbc Hmc Hr Hsrc Hnb Hnm.
  set (ps := pseudo_header (mr_address mr) dest (tp_proto p) (Zlen segment)).
  destruct (chksum_pseudo before after ps Hb Ha (pseudo_header_bytes _ _ _ _ Hp) He) as [Hc' Hv].
  fold csum in Hc', Hv. set (csum' := generic_tcpip_continue_chksum csum ps) in *.
  set (s0 := count out_requests s). set (ident := next_ident (mr_netdev mr) s0).
  exists (tx_datagram (tp_proto p) ident (mr_address mr) dest segment (Some (Zlen before))), csum'.
  eexists. split; [done|]. split_and!.
  - unfold ipv4_tx. fold s0 dest. replace (dest =? INADDR_BROADCAST) with false by (symmetry; by apply Z.eqb_neq).
    rewrite Hmc. cbn [negb andb]. change (ipv4_route dest s0) with (ipv4_route dest s). rewrite Hr. fold ident. 
    rewrite (proj2 (Z.eqb_neq _ _) Hnb), Hnm. reflexivity.
  - done.
  - done.
  - assert (in_range 16 csum) as Hcs.
    { destruct (zeroed_csum 0xffff before after) as (sum & E & ? & _); [by vm_compute|done..|].
      subst csum. unfold tcpip_chksum, TCPIP_EMPTY_CSUM. rewrite E. unfold in_range. lia. }
    assert (in_range 16 (20 + Zlen segment)) as Hl by (split; [lia|done]).
    pose proof (tx_datagram_eq (tp_proto p) ident (mr_address mr) dest before after csum Hl Hsrc Hd Hcs) as Etx.
    cbv zeta in Etx. fold segment ps csum' in Etx. rewrite Etx. clear Etx. set (segment' := before ++ le_split 2 csum' ++ after) in *.
    assert (Zlen segment' = Zlen segment) as El by (unfold segment', segment; by rewrite !length_app).
    rewrite <- El in Hl |- *. intros protocols q headroom' padding netdev' flags r Hq Hacc.
    rewrite <- app_assoc.
    destruct (ipv4_rx_datagram NR protocols q headroom' ident (tp_proto p) (mr_address mr) dest segment' padding netdev'
      flags r Hl Hsrc Hd Hp Hq Hacc) as (r' & Hcr & E).
    exists r'. eexists. split; [done|]. split; [exact E|]. rewrite El. exact Hv.
Qed.
(** C20: a segment with a checksum at an even offset, given to ipv4_tx for a
    destination with a route, is handed to ARP for the next hop as one datagram;
    wherever the datagram arrives (followed by any padding) at a device that
    accepts its destination, ipv4_rx passes the segment to the protocol of its
    number, with the addresses of both ends, unchanged but for the checksum,
    which verifies together with the pseudo-header checksum passed along. *)
Theorem ipv4_roundtrip (NS NR : NetStack) (p : tcpip_protocol) before after headroom st_src st_dest netdev
    (s : ipv4_state (H1 := NS)) mr next_hop :
  let csum := tcpip_chksum (before ++ [0; 0] ++ after) in
  let segment := before ++ le_split 2 csum ++ after in
  let dest := sin_addr st_dest in
  is_bytes before → is_bytes after → Nat.even (length before) = true → 20 + Zlen segment < 2 ^ 16 →
  is_byte (tp_proto p) → in_range 32 dest → dest ≠ INADDR_BROADCAST → IN_MULTICAST (ntohl dest) = false →
  ipv4_route dest s = Some (mr, next_hop) → in_range 32 (mr_address mr) →
  Z.land (Z.lxor next_hop INADDR_BROADCAST) (Z.lnot (mr_netmask mr)) ≠ 0 → IN_MULTICAST (ntohl next_hop) = false →
  ∃ datagram csum' s1, in_range 16 csum' ∧
    ipv4_tx (Iob headroom segment) p st_src st_dest netdev (Some (Zlen before)) s =
      (let '(rc, e) := arp_tx (Iob (headroom - 20) datagram) (mr_netdev mr) next_hop (mr_address mr) (net_ext s) in
       (rc, set_ext e s1)) ∧
    ipv4_miniroutes s1 = ipv4_miniroutes s ∧ reassembly s1 = reassembly s ∧
    ∀ protocols q headroom' padding netdev' flags (r : ipv4_state (H1 := NR)),
      find (λ tcpip, tp_proto tcpip =? tp_proto p) protocols = Some q → accepts netdev' flags dest r = true →
      ∃ r' pshdr_csum, counted r r' ∧
        ipv4_rx protocols (Iob headroom' (datagram ++ padding)) netdev' flags r =
          tp_rx q (Iob (headroom' + 20) (before ++ le_split 2 csum' ++ after)) netdev' (sockaddr_in 0 (mr_address mr)) (sockaddr_in 0 dest)
            pshdr_csum r' ∧
        generic_tcpip_continue_chksum pshdr_csum (before ++ le_split 2 csum' ++ after) = 0.
Proof. apply ipv4_carries. Qed.
End roundtrip.

(** ** Reassembly *)

(** What fragment_reassemble relies on: fragments of a datagram are recognised
    by a key in their header, which is that of the first fragment in a buffer. *)
Class ReassemblerLaws `{Platform, Ticks, NetStack} (R : fragment_reassembler) := {
  frag_key : bytes → Z * Z;
  frag_min : Z;
  frag_min_nonneg : 0 ≤ frag_min;
  frag_key_app d d' : frag_min ≤ Zlen d → frag_key (d ++ d') = frag_key d;
  is_fragment_key fragment iobuf hdrlen :
    is_fragment R fragment iobuf hdrlen = true ↔ frag_key (iob_data iobuf) = frag_key (iob_data (fr_iobuf fragment));
}.

#[export] Instance ipv4_reassembler_laws `{Platform, Ticks, NetStack} : ReassemblerLaws ipv4_reassembler.
Proof.
  refine {| frag_key d := (ip_src d, ip_ident d); frag_min := 20 |}.
  - lia.
  - intros d d' Hl. unfold ip_src, ip_ident, field.
    rewrite !drop_app_le, !take_app_le by (rewrite ?length_drop; lia). done.
  - intros fragment iobuf hdrlen. cbn. unfold ipv4_is_fragment. rewrite andb_true_iff, !Z.eqb_eq.
    split; [by intros [-> ->]|by intros [= -> ->]].
Defined.

Section reassembly.
Context `{Platform, Ticks, NetStack} (R : fragment_reassembler) `{!ReassemblerLaws R}.

(** The payload of the datagram with each key, and what else its header says. *)
Context (payload : Z * Z → bytes) (header_ok : Z * Z → bytes → Prop).
Context (Hheader : ∀ k d d', frag_min ≤ Zlen d → header_ok k (d ++ d') ↔ header_ok k d).
Implicit Types (s : ipv4_state) (f : fragment).

(** A fragment, as the methods of the reassembler see it, carries a piece of the
    payload of its datagram, and says whether it is the last; one at the beginning is
    not. *)
Definition piece_of (iobuf : io_buffer) (hdrlen : Z) : Prop :=
  let data := iob_data iobuf in
  let total := payload (frag_key data) in
  let off := fragment_offset R iobuf hdrlen in
  let len := Zlen data - hdrlen in
  frag_min ≤ hdrlen ≤ Zlen data ∧ 0 ≤ off ∧ off + len ≤ Zlen total < 2 ^ 31 ∧
  drop (Z.to_nat hdrlen) data = take (Z.to_nat len) (drop (Z.to_nat off) total) ∧
  more_fragments R iobuf hdrlen = bool_decide (off + len < Zlen total) ∧ (off = 0 → len < Zlen total) ∧
  header_ok (frag_key data) data.

Definition fragment_key (f : fragment) : Z * Z := frag_key (iob_data (fr_iobuf f)).
Definition fragment_len (f : fragment) : Z := iob_len (fr_iobuf f) - fr_hdrlen f.

(** A buffer holds a beginning of the payload. *)
Definition buffer_ok (f : fragment) : Prop :=
  frag_min ≤ fr_hdrlen f ∧ 0 ≤ fragment_len f < Zlen (payload (fragment_key f)) ∧
  Zlen (payload (fragment_key f)) < 2 ^ 31 ∧
  drop (Z.to_nat (fr_hdrlen f)) (iob_data (fr_iobuf f)) =
    take (Z.to_nat (fragment_len f)) (payload (fragment_key f)) ∧
  header_ok (fragment_key f) (iob_data (fr_iobuf f)).

Definition reassembling (s : ipv4_state) : Prop :=
  Forall buffer_ok (reassembly s) ∧ NoDup (fragment_key <$> reassembly s).

(** How much of a datagram is held. *)
Definition held_in (l : list fragment) (k : Z * Z) : option Z :=
  match list_find (λ f, fragment_key f = k) l with Some (_, f) => Some (fragment_len f) | None => None end.
Definition held (s : ipv4_state) (k : Z * Z) : option Z := held_in (reassembly s) k.

Lemma fragment_find_key iobuf hdrlen l :
  fragment_find R iobuf hdrlen l = list_find (λ f, fragment_key f = frag_key (iob_data iobuf)) l.
Proof.
  unfold fragment_find. induction l as [|f l IH]; [done|]. cbn.
  destruct (decide (is_fragment R f iobuf hdrlen = true)) as [Hf|Hf], (decide (fragment_key f = frag_key (iob_data iobuf))) as [Hk|Hk]; try done.
  - rewrite is_fragment_key in Hf. unfold fragment_key in Hk. congruence.
  - rewrite is_fragment_key in Hf. unfold fragment_key in Hk. congruence.
  - by rewrite IH.
Qed.

Lemma held_elem l k f : NoDup (fragment_key <$> l) → f ∈ l → fragment_key f = k → held_in l k = Some (fragment_len f).
Proof.
  intros Hnd Hf Hk. unfold held_in. destruct (list_find _ l) as [[i g]|] eqn:E.
  - apply list_find_Some in E as (Hi & Hg & _). apply list_elem_of_lookup in Hf as [j Hj].
    assert (i = j) as ->; [|by rewrite Hi in Hj; injection Hj as ->].
    eapply NoDup_lookup; [exact Hnd| |]; rewrite list_lookup_fmap; [by rewrite Hi|by rewrite Hj; cbn; rewrite Hk, Hg].
  - apply list_find_None in E. rewrite Forall_forall in E. by destruct (E f Hf).
Qed.

Lemma held_none l k : held_in l k = None ↔ k ∉ fragment_key <$> l.
Proof.
  unfold held_in. destruct (list_find _ l) as [[i g]|] eqn:E.
  - apply list_find_Some in E as (Hi & Hg & _). split; [done|]. intros Hn. destruct Hn.
    apply list_elem_of_fmap. exists g. split; [done|]. apply list_elem_of_lookup. by exists i.
  - apply list_find_None in E. split; [|done]. intros _ Hin. apply list_elem_of_fmap in Hin as (f & Hk & Hf).
    rewrite Forall_forall in E. by destruct (E f Hf).
Qed.

Lemma held_ext l l' k :
  NoDup (fragment_key <$> l) → NoDup (fragment_key <$> l') →
  (∀ f, fragment_key f = k → f ∈ l ↔ f ∈ l') → held_in l k = held_in l' k.
Proof.
  intros Hl Hl' Hiff. destruct (held_in l' k) as [n|] eqn:E.
  - unfold held_in in E. destruct (list_find _ l') as [[i f]|] eqn:Ef; [|done]. injection E as <-.
    apply list_find_Some in Ef as (Hi & Hk & _). apply held_elem; [done| |done]. apply Hiff; [done|].
    apply list_elem_of_lookup. by exists i.
  - apply held_none in E. apply held_none. intros (f & Hk & Hf)%list_elem_of_fmap. destruct E.
    apply list_elem_of_fmap. exists f. split; [done|]. by apply Hiff.
Qed.

Lemma reassembling_add s f l :
  reassembling s → buffer_ok f → held s (fragment_key f) = None → l = f :: reassembly s →
  Forall buffer_ok l ∧ NoDup (fragment_key <$> l) ∧ held_in l (fragment_key f) = Some (fragment_len f) ∧
  ∀ k, k ≠ fragment_key f → held_in l k = held s k.
Proof.
  intros [Hb Hn] Hf Hh ->. apply held_none in Hh.
  assert (NoDup (fragment_key <$> f :: reassembly s)) as Hn' by (apply NoDup_cons; done).
  split_and!; [by constructor|done|apply held_elem; [done|left|done]|].
  intros k Hk. apply held_ext; [done..|]. intros g Hg. rewrite elem_of_cons. split; [|by right].
  intros [->|?]; [congruence|done].
Qed.

Lemma reassembling_insert s i f f' l :
  reassembling s → reassembly s !! i = Some f → buffer_ok f' → fragment_key f' = fragment_key f →
  l = <[i := f']> (reassembly s) →
  Forall buffer_ok l ∧ NoDup (fragment_key <$> l) ∧ held_in l (fragment_key f) = Some (fragment_len f') ∧
  ∀ k, k ≠ fragment_key f → held_in l k = held s k.
Proof.
  intros [Hb Hn] Hi Hf' Hk ->.
  assert (fragment_key <$> <[i := f']> (reassembly s) = fragment_key <$> reassembly s) as Ek.
  { rewrite list_fmap_insert, Hk. apply list_insert_id. by rewrite list_lookup_fmap, Hi. }
  pose proof (lookup_lt_Some _ _ _ Hi) as Hlt.
  assert (<[i := f']> (reassembly s) !! i = Some f') as Hi' by (by apply list_lookup_insert_eq).
  split_and!; [by apply Forall_insert|by rewrite Ek| |].
  - apply held_elem; [by rewrite Ek|apply list_elem_of_lookup; by exists i|done].
  - intros k Hne. apply held_ext; [by rewrite Ek|done|]. intros g Hg. rewrite !list_elem_of_lookup.
    split; intros [j Hj]; exists j.
    + destruct (decide (i = j)) as [->|]; [congruence|]. by rewrite list_lookup_insert_ne in Hj.
    + destruct (decide (i = j)) as [->|]; [congruence|]. by rewrite list_lookup_insert_ne.
Qed.

Lemma reassembling_delete s i f l :
  reassembling s → reassembly s !! i = Some f → l = delete i (reassembly s) →
  Forall buffer_ok l ∧ NoDup (fragment_key <$> l) ∧ held_in l (fragment_key f) = None ∧
  ∀ k, k ≠ fragment_key f → held_in l k = held s k.
Proof.
  intros [Hb Hn] Hi ->. rewrite <- (take_drop_middle _ _ _ Hi) in Hb, Hn.
  rewrite Forall_app, Forall_cons in Hb. destruct Hb as (Hb1 & _ & Hb2).
  rewrite fmap_app, fmap_cons, NoDup_app, NoDup_cons in Hn. destruct Hn as (Hn1 & Hd & Hx & Hn2).
  assert (delete i (reassembly s) = take i (reassembly s) ++ drop (S i) (reassembly s)) as -> by apply delete_take_drop.
  assert (NoDup (fragment_key <$> take i (reassembly s) ++ drop (S i) (reassembly s))) as Hn'.
  { rewrite fmap_app, NoDup_app. split_and!; [done| |done]. intros x Hx1 Hx2. apply (Hd x Hx1). by right. }
  split_and!; [by apply Forall_app|done| |].
  - apply held_none. rewrite fmap_app, elem_of_app. intros [Hin|Hin]; [|done]. apply (Hd _ Hin). left.
  - intros k Hk. apply held_ext; [done| |].
    + rewrite <- (take_drop_middle _ _ _ Hi), fmap_app, fmap_cons, NoDup_app, NoDup_cons. done.
    + intros g Hg. rewrite <- (take_drop_middle _ _ _ Hi) at 3. rewrite !elem_of_app, elem_of_cons.
      split; [tauto|]. intros [?|[->|?]]; [tauto|congruence|tauto].
Qed.

(** What a fragment does to the reassembly of its datagram. *)
Definition reassembled (iobuf : io_buffer) (hdrlen : Z) (s : ipv4_state) (r : option (io_buffer * Z)) (s' : ipv4_state)
    : Prop :=
  let k := frag_key (iob_data iobuf) in
  let off := fragment_offset R iobuf hdrlen in
  let len := Zlen (iob_data iobuf) - hdrlen in
  (∀ k', k' ≠ k → held s' k' = held s k') ∧
  match r with
  | Some (packet, hl) =>
      held s k = Some off ∧ more_fragments R iobuf hdrlen = false ∧ held s' k = None ∧
      frag_key (iob_data packet) = k ∧ header_ok k (iob_data packet) ∧ drop (Z.to_nat hl) (iob_data packet) = payload k
  | None =>
      held s' k = held s k ∨
      off = default 0 (held s k) ∧ more_fragments R iobuf hdrlen = true ∧ held s' k = Some (off + len)
  end.

Definition memory_available : Prop :=
  (∀ e, (zalloc_fragment e).1 = true) ∧ ∀ len e, (alloc_iob len e).1 = true.

Definition advances (iobuf : io_buffer) (hdrlen : Z) (s : ipv4_state) (r : option (io_buffer * Z)) (s' : ipv4_state)
    : Prop :=
  let k := frag_key (iob_data iobuf) in
  let off := fragment_offset R iobuf hdrlen in
  memory_available → off = default 0 (held s k) →
  if more_fragments R iobuf hdrlen then held s' k = Some (off + Zlen (iob_data iobuf) - hdrlen) else is_Some r.

(** The first fragment of a datagram. *)
Lemma reassemble_first s f l iobuf hdrlen :
  reassembling s → piece_of iobuf hdrlen → held s (frag_key (iob_data iobuf)) = None →
  fragment_offset R iobuf hdrlen = 0 → fr_iobuf f = iobuf → fr_hdrlen f = hdrlen → l = f :: reassembly s →
  more_fragments R iobuf hdrlen = true ∧ Forall buffer_ok l ∧ NoDup (fragment_key <$> l) ∧
  held_in l (frag_key (iob_data iobuf)) = Some (Zlen (iob_data iobuf) - hdrlen) ∧
  ∀ k, k ≠ frag_key (iob_data iobuf) → held_in l k = held s k.
Proof.
  intros Hr (Hh & _ & Hlen & Hd & Hm & Hz & Ho) Hheld Hoff <- <- Hl. rewrite Hoff in *. cbn in Hm. rewrite drop_0 in Hd.
  specialize (Hz eq_refl). fold (fragment_key f) in *. split; [rewrite Hm; by apply bool_decide_eq_true|].
  apply (reassembling_add s f l); [done| |done|done]. unfold buffer_ok, fragment_len, iob_len.
  split_and!; [lia|lia|lia|lia|exact Hd|exact Ho].
Qed.

(** The buffer extended by the next fragment. *)
Lemma reassemble_next s i f iobuf hdrlen headroom :
  reassembling s → piece_of iobuf hdrlen → reassembly s !! i = Some f →
  fragment_key f = frag_key (iob_data iobuf) → fragment_offset R iobuf hdrlen = fragment_len f →
  let d := iob_data (fr_iobuf f) ++ drop (Z.to_nat hdrlen) (iob_data iobuf) in
  let n := fragment_len f + (Zlen (iob_data iobuf) - hdrlen) in
  frag_key d = frag_key (iob_data iobuf) ∧ Zlen d - fr_hdrlen f = n ∧
  drop (Z.to_nat (fr_hdrlen f)) d = take (Z.to_nat n) (payload (frag_key (iob_data iobuf))) ∧
  more_fragments R iobuf hdrlen = bool_decide (n < Zlen (payload (frag_key (iob_data iobuf)))) ∧
  header_ok (frag_key (iob_data iobuf)) d ∧
  (n < Zlen (payload (frag_key (iob_data iobuf))) → ∀ t, buffer_ok (Fragment (Iob headroom d) (fr_hdrlen f) t)).
Proof.
  intros [Hb _] (Hh & _ & Hlen & Hd & Hm & _ & _) Hi Hk Hoff d n. rewrite Forall_forall in Hb.
  assert (f ∈ reassembly s) as Hin by (apply list_elem_of_lookup; by exists i).
  destruct (Hb f Hin) as (Hmin & Hfl & Hpl & Hfd & Hho). pose proof frag_min_nonneg. rewrite Hk in Hfd, Hfl, Hho.
  rewrite Hoff in *. set (k := frag_key (iob_data iobuf)) in *.
  assert (frag_key d = k) as Hkd.
  { unfold d. rewrite frag_key_app; [exact Hk|]. unfold fragment_len, iob_len in Hfl. lia. }
  assert (Zlen d - fr_hdrlen f = n) as Hn.
  { unfold d, n, fragment_len, iob_len. rewrite length_app, length_drop. lia. }
  assert (drop (Z.to_nat (fr_hdrlen f)) d = take (Z.to_nat n) (payload k)) as Hdd.
  { unfold d. rewrite drop_app_le by (unfold fragment_len, iob_len in Hfl; lia). rewrite Hfd, Hd.
    replace (Z.to_nat n) with (Z.to_nat (fragment_len f) + Z.to_nat (Zlen (iob_data iobuf) - hdrlen))%nat by lia.
    apply take_take_drop. }
  assert (header_ok k d) as Hhd.
  { unfold d. apply Hheader; [|exact Hho]. unfold fragment_len, iob_len in Hfl. lia. }
  split_and!; [done..|]. intros Hlt t. unfold buffer_ok, fragment_key, fragment_len, iob_len. cbn [fr_iobuf fr_hdrlen iob_data].
  rewrite Hkd, Hn. split_and!; [done|lia|lia|lia|done|done].
Qed.

Lemma expected_offset f s i :
  reassembling s → reassembly s !! i = Some f → usize (iob_len (fr_iobuf f) - fr_hdrlen f) = fragment_len f.
Proof.
  intros [Hb _] Hi. rewrite Forall_forall in Hb.
  destruct (Hb f) as (_ & Hfl & Hpl & _ & _); [apply list_elem_of_lookup; by exists i|].
  apply usize_small. unfold fragment_len in Hfl. split; [apply Hfl|]. destruct Hfl as [_ Hfl]. eapply Z.lt_trans; [exact Hfl|]. eapply Z.lt_trans; [exact Hpl|]. done.
Qed.

Lemma held_find s i f k :
  list_find (λ f, fragment_key f = k) (reassembly s) = Some (i, f) →
  held s k = Some (fragment_len f) ∧ reassembly s !! i = Some f ∧ fragment_key f = k.
Proof. intros E. unfold held, held_in. rewrite E. apply list_find_Some in E as (? & ? & _). done. Qed.

Lemma held_not_found s k :
  list_find (λ f, fragment_key f = k) (reassembly s) = None → held s k = None.
Proof. intros E. unfold held, held_in. by rewrite E. Qed.

(** The whole function. *)
Lemma reassemble_step s iobuf hdrlen r s' :
  reassembling s → piece_of iobuf hdrlen → fragment_reassemble R iobuf hdrlen s = (r, s') →
  reassembling s' ∧ reassembled iobuf hdrlen s r s' ∧ advances iobuf hdrlen s r s'.
Proof.
  intros Hr Hg. unfold fragment_reassemble. rewrite fragment_find_key. cbn [reassembly count upd_stats].
  set (k := frag_key (iob_data iobuf)).
  assert (∀ e, let s1 := set_ext e (count reasm_reqds s) in
    reassembling (count reasm_fails s1) ∧ reassembled iobuf hdrlen s None (count reasm_fails s1)) as Hdrop.
  { intros e s1. split; [done|]. split; [done|]. by left. }
  destruct (list_find _ (reassembly s)) as [[i f]|] eqn:Ef.
  - destruct (held_find s i f k Ef) as (Hh & Hi & Hk). rewrite (expected_offset f s i Hr Hi).
    destruct (Z.eqb_spec (fragment_offset R iobuf hdrlen) (fragment_len f)) as [Hoff|Hoff]; cbn [negb].
    2:{ intros [= <- <-]. destruct (Hdrop (net_ext s)) as [? ?]. split_and!; [done..|].
        intros _ E. fold k in E. rewrite Hh in E. done. }
    destruct (alloc_iob _ _) as [ok e] eqn:Ea. destruct ok; cbn [negb].
    2:{ intros [= <- <-]. destruct (Hdrop e) as [? ?]. split_and!; [done..|].
        intros [_ Hal] _. specialize (Hal (usize (iob_headroom (fr_iobuf f) + iob_len (fr_iobuf f) + iob_len (iob_pull hdrlen iobuf))) (net_ext s)).
        cbn [net_ext count upd_stats] in Ea. rewrite Ea in Hal. done. }
    destruct (reassemble_next s i f iobuf hdrlen (iob_headroom (fr_iobuf f)) Hr Hg Hi Hk Hoff)
      as (Hkd & Hn & Hd & Hm & Hho & Hok). fold k in Hkd, Hd, Hm, Hho, Hok.
    cbn [iob_data iob_pull] in *. set (d := iob_data (fr_iobuf f) ++ drop (Z.to_nat hdrlen) (iob_data iobuf)) in *.
    unfold reassembled, advances. fold k. rewrite Hh. cbn [default].
    destruct (more_fragments R iobuf hdrlen) eqn:Emore; cbn [negb]; intros [= <- <-].
    + symmetry in Hm. apply bool_decide_eq_true in Hm.
      set (f' := Fragment _ (fr_hdrlen f) _).
      destruct (reassembling_insert s i f f' _ Hr Hi (Hok Hm _) (eq_trans Hkd (eq_sym Hk)) eq_refl) as (R1 & R2 & R3 & R4).
      rewrite Hk in R3, R4. unfold fragment_len, iob_len in R3. cbn [f' fr_iobuf fr_hdrlen iob_data] in R3. rewrite Hn in R3.
      split_and!; [by split|exact R4| |].
      * right. rewrite Hoff. split_and!; [done|done|exact R3].
      * intros _ _. unfold held. cbn [reassembly set_reassembly set_ext]. rewrite Hoff. etrans; [exact R3|]. f_equal. lia.
    + symmetry in Hm. apply bool_decide_eq_false in Hm.
      destruct (reassembling_delete s i f _ Hr Hi eq_refl) as (R1 & R2 & R3 & R4). rewrite Hk in R3, R4.
      split_and!; [by split|exact R4|by rewrite Hoff|done|exact R3|exact Hkd|exact Hho| |done].
      cbn [iob_data]. rewrite Hd. apply take_ge. lia.
  - pose proof (held_not_found s k Ef) as Hh.
    destruct (Z.eqb_spec (fragment_offset R iobuf hdrlen) 0) as [Hoff|Hoff]; cbn [negb].
    2:{ intros [= <- <-]. destruct (Hdrop (net_ext s)) as [? ?]. split_and!; [done..|].
        intros _ E. fold k in E. rewrite Hh in E. done. }
    destruct (zalloc_fragment _) as [ok e] eqn:Ea. destruct ok; cbn [negb].
    2:{ intros [= <- <-]. destruct (Hdrop e) as [? ?]. split_and!; [done..|].
        intros [Hz _] _. specialize (Hz (net_ext s)). cbn [net_ext count upd_stats] in Ea. rewrite Ea in Hz. done. }
    intros [= <- <-]. unfold reassembled, advances. fold k. rewrite Hh. cbn [default].
    set (f' := Fragment iobuf hdrlen _).
    destruct (reassemble_first s f' _ iobuf hdrlen Hr Hg Hh Hoff eq_refl eq_refl eq_refl) as (Hm & R1 & R2 & R3 & R4).
    fold k in R3, R4.
    split_and!; [by split|exact R4|right; split_and!; [done|done|]|].
    + unfold held. cbn [reassembly set_reassembly set_ext]. rewrite Hoff. exact R3.
    + intros _ _. rewrite Hm. unfold held. cbn [reassembly set_reassembly set_ext]. rewrite Hoff. exact R3.
Qed.

Lemma reassembling_expire s i : reassembling s → reassembling (fragment_expired i s).
Proof.
  intros Hr. unfold fragment_expired. destruct (reassembly s !! i) as [f|] eqn:Hi.
  - destruct (reassembling_delete s i f _ Hr Hi eq_refl) as (? & ? & _). by split.
  - assert (delete i (reassembly s) = reassembly s) as E; [|by split; cbn; rewrite E; apply Hr].
    apply lookup_ge_None in Hi. rewrite delete_take_drop, take_ge, drop_ge, app_nil_r by lia. done.
Qed.

(** What happens to the buffers: fragments arrive, in any order, timers expire, and
    the rest of the state changes. *)
Inductive reassembly_event (fragment : io_buffer → Z → Prop) : ipv4_state → ipv4_state → Prop :=
| ev_fragment iobuf hdrlen r s s' :
    fragment iobuf hdrlen → fragment_reassemble R iobuf hdrlen s = (r, s') → reassembly_event fragment s s'
| ev_expired i s : reassembly_event fragment s (fragment_expired i s)
| ev_other s s' : reassembly s' = reassembly s → reassembly_event fragment s s'.

Lemma reassembling_history s s' : reassembling s → rtc (reassembly_event piece_of) s s' → reassembling s'.
Proof.
  intros Hr Hh. induction Hh as [|s1 s2 s3 He _ IH]; [done|]. apply IH.
  destruct He as [iobuf hdrlen r s1 s2 Hg E|i s1|s1 s2 E].
  - by destruct (reassemble_step s1 iobuf hdrlen r s2 Hr Hg E).
  - by apply reassembling_expire.
  - unfold reassembling. by rewrite E.
Qed.
End reassembly.

(** *** Datagrams of IPv4 *)

(** A datagram, with the fields of its header that identify it (RFC 791, section
    2.3): fragments belong together if they agree in all four. *)
Record datagram : Type := Datagram {
  dg_src : Z;
  dg_dest : Z;
  dg_protocol : Z;
  dg_ident : Z;
  dg_payload : bytes;
}.

Definition belongs (d : datagram) (data : bytes) : Prop :=
  ip_src data = dg_src d ∧ ip_dest data = dg_dest d ∧ ip_protocol data = dg_protocol d ∧ ip_ident data = dg_ident d.

(** The offset in units of eight octets is the low 13 bits of octets 6 and 7, most
    significant octet first; the more-fragments flag is the third bit of octet 6
    (RFC 791, section 3.1). *)
Definition rfc791_offset (data : bytes) : Z := 8 * (256 * (byte data 6 mod 32) + byte data 7).
Definition rfc791_more (data : bytes) : bool := Z.odd (byte data 6 / 32).

(** A fragment of a datagram carries the piece of its payload that its offset says,
    and says whether it is the last one; it is not the whole datagram. *)
Definition genuine_fragment (d : datagram) (iobuf : io_buffer) (hdrlen : Z) : Prop :=
  let data := iob_data iobuf in
  let off := rfc791_offset data in
  let len := Zlen data - hdrlen in
  is_bytes data ∧ 20 ≤ hdrlen ≤ Zlen data ∧ belongs d data ∧ Zlen (dg_payload d) < 2 ^ 16 ∧
  off + len ≤ Zlen (dg_payload d) ∧
  drop (Z.to_nat hdrlen) data = take (Z.to_nat len) (drop (Z.to_nat off) (dg_payload d)) ∧
  rfc791_more data = bool_decide (off + len < Zlen (dg_payload d)) ∧ (off = 0 → len < Zlen (dg_payload d)).

(** How much of a datagram is held. *)
Definition held_of `{Platform, Ticks, NetStack} (s : ipv4_state) (d : datagram) : option Z :=
  match list_find (λ f, belongs d (iob_data (fr_iobuf f))) (reassembly s) with
  | Some (_, f) => Some (iob_len (fr_iobuf f) - fr_hdrlen f)
  | None => None
  end.

(** The reassembler looks only at the source and the identification. *)
Definition dg_key (d : datagram) : Z * Z := (dg_src d, dg_ident d).

Section datagrams.
Context `{Platform, Ticks, NetStack} (traffic : list datagram).
Context (Hdistinct : NoDup (dg_key <$> traffic)).
Implicit Types (s : ipv4_state).

Definition find_datagram (k : Z * Z) : option datagram := snd <$> list_find (λ d, dg_key d = k) traffic.
Definition payload_of (k : Z * Z) : bytes := match find_datagram k with Some d => dg_payload d | None => [] end.
Definition header_of (k : Z * Z) (data : bytes) : Prop :=
  match find_datagram k with Some d => belongs d data | None => False end.

Lemma find_datagram_key d : d ∈ traffic → find_datagram (dg_key d) = Some d.
Proof using Hdistinct.
  intros Hd. unfold find_datagram. destruct (list_find _ traffic) as [[i d']|] eqn:E.
  - apply list_find_Some in E as (Hi & Hk & _). apply list_elem_of_lookup in Hd as [j Hj].
    assert (i = j) as ->; [|by rewrite Hi in Hj; injection Hj as ->].
    eapply NoDup_lookup; [exact Hdistinct| |]; rewrite list_lookup_fmap; [by rewrite Hi|by rewrite Hj; cbn; rewrite Hk].
  - apply list_find_None in E. rewrite Forall_forall in E. by destruct (E d Hd).
Qed.

Lemma header_of_app k d d' :
  frag_min (R := ipv4_reassembler) ≤ Zlen d → header_of k (d ++ d') ↔ header_of k d.
Proof using Type.
  change frag_min with 20. intros Hl. unfold header_of. destruct (find_datagram k) as [dg|]; [|done]. unfold belongs.
  unfold ip_src, ip_dest, ip_ident, field, ip_protocol, byte.
  rewrite !drop_app_le, !take_app_le, lookup_app_l by (rewrite ?length_drop; lia). done.
Qed.

Lemma land_bit x k : 0 ≤ k → (Z.land x (2 ^ k) =? 0) = negb (Z.testbit x k).
Proof using Type.
  intros Hk. assert (Z.land x (2 ^ k) = if Z.testbit x k then 2 ^ k else 0) as ->.
  { apply Z.bits_inj'. intros n Hn. rewrite Z.land_spec, Z.pow2_bits_eqb by done.
    destruct (Z.eqb_spec k n) as [->|Hne]; [destruct (Z.testbit x n) eqn:E; by rewrite ?Z.pow2_bits_true, ?Z.bits_0 by done|].
    rewrite andb_false_r. destruct (Z.testbit x k); [by rewrite Z.pow2_bits_false by done|by rewrite Z.bits_0]. }
  pose proof (Z.pow_pos_nonneg 2 k). destruct (Z.testbit x k); [apply Z.eqb_neq; lia|done].
Qed.

Lemma rfc791_frags data :
  is_bytes data → 20 ≤ Zlen data →
  Z.shiftl (Z.land (ip_frags data) IP_MASK_OFFSET) 3 = rfc791_offset data ∧
  negb (Z.land (ip_frags data) IP_MASK_MOREFRAGS =? 0) = rfc791_more data.
Proof using Type.
  intros Hb Hl. unfold rfc791_offset, rfc791_more.
  destruct (lookup_lt_is_Some_2 data 6) as [b6 E6]; [lia|]. destruct (lookup_lt_is_Some_2 data 7) as [b7 E7]; [lia|].
  assert (is_byte b6 ∧ is_byte b7) as [H6 H7] by (split; by eapply (Forall_lookup_1 _ _ _ _ Hb)).
  assert (ip_frags data = 256 * b6 + b7) as ->.
  { unfold ip_frags, field. rewrite (drop_S _ _ _ E6), (drop_S _ _ _ E7). unfold be_combine. cbn [take rev]. rewrite take_0.
    cbn [rev app le_combine]. lia. }
  unfold byte. rewrite E6, E7. cbn [from_option id]. unfold in_range in *. split.
  - change IP_MASK_OFFSET with (2 ^ 13 - 1). rewrite land_mask, Z.shiftl_mul_pow2 by lia.
    change (2 ^ 13) with 8192. change (2 ^ 3) with 8. Z.div_mod_to_equations. lia.
  - change IP_MASK_MOREFRAGS with (2 ^ 13). rewrite land_bit, Z.testbit_odd, Z.shiftr_div_pow2 by lia.
    assert ((256 * b6 + b7) / 2 ^ 13 = b6 / 32) as ->.
    { change (2 ^ 13) with (256 * 32). rewrite <- Z.div_div by lia. f_equal. Z.div_mod_to_equations. lia. }
    by destruct (Z.odd _).
Qed.

Lemma genuine_piece d iobuf hdrlen :
  d ∈ traffic → genuine_fragment d iobuf hdrlen →
  piece_of ipv4_reassembler payload_of header_of iobuf hdrlen ∧ frag_key (iob_data iobuf) = dg_key d ∧
  fragment_offset ipv4_reassembler iobuf hdrlen = rfc791_offset (iob_data iobuf) ∧
  more_fragments ipv4_reassembler iobuf hdrlen = rfc791_more (iob_data iobuf).
Proof using Hdistinct.
  intros Hd (Hb & Hh & Hbel & Hmax & Hlen & Hdata & Hm & Hz).
  destruct (rfc791_frags (iob_data iobuf)) as [Eo Em]; [done|lia|].
  assert (frag_key (iob_data iobuf) = dg_key d) as Hk by (destruct Hbel as (E1 & _ & _ & E4); cbn; by rewrite E1, E4).
  assert (0 ≤ rfc791_offset (iob_data iobuf)) as Hoff.
  { unfold rfc791_offset. pose proof (byte_range (iob_data iobuf) 6 Hb). pose proof (byte_range (iob_data iobuf) 7 Hb).
    pose proof (Z.mod_pos_bound (byte (iob_data iobuf) 6) 32). unfold in_range in *. lia. }
  split_and!; [|done|exact Eo|exact Em]. unfold piece_of. cbn [fragment_offset more_fragments ipv4_reassembler].
  unfold ipv4_fragment_offset, ipv4_more_fragments. rewrite Hk, Eo, Em. unfold payload_of, header_of.
  rewrite find_datagram_key by done. change frag_min with 20. split_and!; try done; lia.
Qed.

Lemma held_of_key s d :
  d ∈ traffic → reassembling ipv4_reassembler payload_of header_of s → held_of s d = held ipv4_reassembler s (dg_key d).
Proof using Hdistinct.
  intros Hd [Hb _]. unfold held_of, held, held_in, fragment_len.
  assert (list_find (λ f, belongs d (iob_data (fr_iobuf f))) (reassembly s)
          = list_find (λ f, fragment_key ipv4_reassembler f = dg_key d) (reassembly s)) as ->; [|done].
  induction Hb as [|f l (_ & _ & _ & _ & Hho) _ IH]; [done|]. cbn [list_find]. rewrite IH.
  assert (belongs d (iob_data (fr_iobuf f)) ↔ fragment_key ipv4_reassembler f = dg_key d) as Hiff.
  { split; [intros (E1 & _ & _ & E4); unfold fragment_key; cbn; by rewrite E1, E4|].
    intros E. rewrite E in Hho. unfold header_of in Hho. by rewrite find_datagram_key in Hho. }
  destruct (decide (belongs d _)), (decide (fragment_key _ f = _)); tauto || done.
Qed.
End datagrams.

(** C21: the reassembly of IPv4 datagrams.  Fragments, as RFC 791 defines them, of any
    number of datagrams of up to 65535 bytes arrive in whatever order, buffers expire
    and allocations fail; no two of the datagrams have the same source and
    identification, which is all that the code compares.  Then a packet is returned
    only with the source, destination, protocol and identification of its datagram and
    its complete payload, by the last fragment of it; a fragment affects only the
    datagram it belongs to; and if it continues what is held of it, and memory is
    available, it is added, and the datagram is returned if it is the last. *)
Theorem reassembly_correct `{Platform, Ticks, NetStack} (traffic : list datagram) s0 s d iobuf hdrlen r s' :
  NoDup (dg_key <$> traffic) →
  reassembly s0 = [] →
  rtc (reassembly_event ipv4_reassembler (λ iobuf hdrlen, ∃ d, d ∈ traffic ∧ genuine_fragment d iobuf hdrlen)) s0 s →
  d ∈ traffic → genuine_fragment d iobuf hdrlen → fragment_reassemble ipv4_reassembler iobuf hdrlen s = (r, s') →
  let off := rfc791_offset (iob_data iobuf) in
  let more := rfc791_more (iob_data iobuf) in
  let len := Zlen (iob_data iobuf) - hdrlen in
  (∀ d', d' ∈ traffic → d' ≠ d → held_of s' d' = held_of s d') ∧
  match r with
  | Some (packet, hl) =>
      held_of s d = Some off ∧ more = false ∧ held_of s' d = None ∧
      belongs d (iob_data packet) ∧ drop (Z.to_nat hl) (iob_data packet) = dg_payload d
  | None =>
      held_of s' d = held_of s d ∨ off = default 0 (held_of s d) ∧ more = true ∧ held_of s' d = Some (off + len)
  end ∧
  (memory_available → off = default 0 (held_of s d) →
   if more then held_of s' d = Some (off + len) else is_Some r).
Proof.
  intros Hnd Hz Hh Hd Hg E off more len.
  assert (reassembling ipv4_reassembler (payload_of traffic) (header_of traffic) s) as Hr.
  { eapply (reassembling_history ipv4_reassembler (payload_of traffic) (header_of traffic) (header_of_app traffic)); [unfold reassembling; rewrite Hz; split; constructor|].
    eapply rtc_subrel; [|exact Hh]. intros s1 s2 [iobuf' hdrlen' r' s3 s4 (d' & Hd' & Hg') E'|i s3|s3 s4 E'].
    - eapply ev_fragment; [|exact E']. by destruct (genuine_piece traffic Hnd d' iobuf' hdrlen' Hd' Hg').
    - apply ev_expired.
    - by apply ev_other. }
  destruct (genuine_piece traffic Hnd d iobuf hdrlen Hd Hg) as (Hp & Hk & Eo & Em).
  destruct (reassemble_step ipv4_reassembler (payload_of traffic) (header_of traffic) (header_of_app traffic) s iobuf hdrlen r s' Hr Hp E) as (Hr' & [Ho Hres] & Hadv).
  unfold advances in Hadv. rewrite Hk, Eo, Em in *. fold off more len in Hres, Hadv.
  rewrite !(held_of_key traffic Hnd) by done. split; [|split].
  - intros d' Hd' Hne. rewrite !(held_of_key traffic Hnd) by done. apply Ho. intros Ekey. apply Hne.
    assert (Some d' = Some d) as [= ->]; [|done].
    rewrite <- (find_datagram_key traffic Hnd d'), <- (find_datagram_key traffic Hnd d), Ekey by done. done.
  - destruct r as [[packet hl]|]; [|exact Hres]. destruct Hres as (R1 & R2 & R3 & _ & R4 & R5).
    unfold header_of, payload_of in R4, R5. rewrite find_datagram_key in R4, R5 by done. done.
  - intros Hm Hoff. specialize (Hadv Hm Hoff). destruct more; [|done]. rewrite Hadv. f_equal. unfold len. lia.
Qed.

(** ** Routing *)

Section routing.
Context `{Platform, Ticks, NetStack}.
Implicit Types (s : ipv4_state) (mr : ipv4_miniroute).

(** The routes the settings ask for, in the order of the devices. *)
Definition configured_route (fetch : net_device → ipv4_setting → Z) (netdev : net_device) : list ipv4_miniroute :=
  let address := fetch netdev ip_setting in
  if address =? 0 then []
  else [Miniroute netdev address (default_netmask address (fetch netdev netmask_setting)) (fetch netdev gateway_setting)].
Definition configured (fetch : net_device → ipv4_setting → Z) (netdevs : list net_device) : list ipv4_miniroute :=
  mjoin (configured_route fetch <$> netdevs).

Definition on_link mr (dest : Z) : Prop := Z.land (Z.lxor dest (mr_address mr)) (mr_netmask mr) = 0.

(** Routes without a gateway come first, the latest of them first. *)
Definition table_of (rs : list ipv4_miniroute) : list ipv4_miniroute :=
  reverse (filter (λ mr, mr_gateway mr = 0) rs) ++ filter (λ mr, mr_gateway mr ≠ 0) rs.

Lemma table_of_snoc rs mr :
  table_of (rs ++ [mr]) = if negb (mr_gateway mr =? 0) then table_of rs ++ [mr] else mr :: table_of rs.
Proof.
  unfold table_of. rewrite !filter_app, !filter_cons, !filter_nil.
  destruct (Z.eqb_spec (mr_gateway mr) 0) as [E|E]; cbn [negb].
  - rewrite (decide_True _ _ E), decide_False by (intros Hn; by apply Hn). rewrite app_nil_r, reverse_snoc. done.
  - rewrite (decide_False _ _ E), decide_True by done. rewrite app_nil_r, app_assoc. done.
Qed.

Lemma create_routes_loop_table fetch netdevs rs s s' :
  ipv4_miniroutes s = table_of rs → create_routes_loop fetch netdevs s = (Ok tt, s') →
  ipv4_miniroutes s' = table_of (rs ++ configured fetch netdevs).
Proof.
  revert rs s. induction netdevs as [|netdev netdevs IH]; intros rs s Hs; cbn [create_routes_loop].
  { intros [= <-]. unfold configured. cbn. by rewrite app_nil_r. }
  unfold configured. rewrite fmap_cons, mjoin_cons. fold (configured fetch netdevs). unfold configured_route at 1.
  destruct (fetch netdev ip_setting =? 0); [by apply IH|].
  unfold add_ipv4_miniroute. destruct (malloc_miniroute (net_ext s)) as [ok e]. destruct ok; [|done]. cbn [negb].
  rewrite app_assoc. apply IH. rewrite table_of_snoc. cbn [ipv4_miniroutes set_miniroutes set_ext mr_gateway].
  by rewrite Hs.
Qed.

(** The first usable route of a table. *)
Lemma route_loop_spec routes dest e :
  match route_loop routes dest e with
  | Some (mr, hop) =>
      ∃ before after, routes = before ++ mr :: after ∧ netdev_is_open (mr_netdev mr) e = true ∧
        (on_link mr dest ∧ hop = dest ∨ ¬ on_link mr dest ∧ mr_gateway mr ≠ 0 ∧ hop = mr_gateway mr) ∧
        ∀ mr', mr' ∈ before → netdev_is_open (mr_netdev mr') e = true → ¬ on_link mr' dest ∧ mr_gateway mr' = 0
  | None => ∀ mr', mr' ∈ routes → netdev_is_open (mr_netdev mr') e = true → ¬ on_link mr' dest ∧ mr_gateway mr' = 0
  end.
Proof.
  induction routes as [|mr routes IH]; cbn [route_loop]; [by intros mr' ?%elem_of_nil|].
  assert (netdev_is_open (mr_netdev mr) e = false ∨ ¬ on_link mr dest ∧ mr_gateway mr = 0 →
    match route_loop routes dest e with
    | Some (mr1, hop) =>
        ∃ before after, mr :: routes = before ++ mr1 :: after ∧ netdev_is_open (mr_netdev mr1) e = true ∧
          (on_link mr1 dest ∧ hop = dest ∨ ¬ on_link mr1 dest ∧ mr_gateway mr1 ≠ 0 ∧ hop = mr_gateway mr1) ∧
          ∀ mr', mr' ∈ before → netdev_is_open (mr_netdev mr') e = true → ¬ on_link mr' dest ∧ mr_gateway mr' = 0
    | None => ∀ mr', mr' ∈ mr :: routes → netdev_is_open (mr_netdev mr') e = true → ¬ on_link mr' dest ∧ mr_gateway mr' = 0
    end) as Hskip.
  { intros Hs. destruct (route_loop routes dest e) as [[mr1 hop]|].
    - destruct IH as (before & after & -> & Ho & Hl & Hb). exists (mr :: before), after. split_and!; [done|done|done|].
      intros mr' [->|Hin]%elem_of_cons Hop; [destruct Hs as [?|?]; [congruence|done]|auto].
    - intros mr' [->|Hin]%elem_of_cons Hop; [destruct Hs as [?|?]; [congruence|done]|auto]. }
  destruct (netdev_is_open (mr_netdev mr) e) eqn:Ho; cbn [negb]; [|by apply Hskip; left].
  destruct (Z.eqb_spec (Z.land (Z.lxor dest (mr_address mr)) (mr_netmask mr)) 0) as [Hl|Hl];
    [|destruct (Z.eqb_spec (mr_gateway mr) 0) as [Hg|Hg]]; cbn [negb orb]; [|by apply Hskip; right|];
    (exists [], routes; split_and!; [done|done| |by intros mr' ?%elem_of_nil]); [by left|by right].
Qed.

Lemma elem_of_table_of rs mr : mr ∈ table_of rs ↔ mr ∈ rs.
Proof.
  unfold table_of. rewrite elem_of_app, elem_of_reverse, !list_elem_of_filter.
  destruct (decide (mr_gateway mr = 0)); naive_solver.
Qed.

(** C22: after the routing table is built from the settings of the devices, a
    destination is routed through an open configured device that has it on link
    or has a gateway; it is sent directly whenever an open device without a
    gateway has it on link, to a gateway only if it is not on the chosen
    device's link; and it has no route exactly if no open device reaches it. *)
Theorem routing_correct fetch netdevs s s' dest :
  ipv4_create_routes fetch netdevs s = (Ok tt, s') →
  let usable mr := mr ∈ configured fetch netdevs ∧ netdev_is_open (mr_netdev mr) (net_ext s') = true in
  match ipv4_route dest s' with
  | Some (mr, hop) =>
      usable mr ∧
      (on_link mr dest ∧ hop = dest ∨
       ¬ on_link mr dest ∧ mr_gateway mr ≠ 0 ∧ hop = mr_gateway mr ∧
       ∀ mr', usable mr' → mr_gateway mr' = 0 → ¬ on_link mr' dest)
  | None => ∀ mr, usable mr → ¬ on_link mr dest ∧ mr_gateway mr = 0
  end.
Proof.
  intros E usable. apply (create_routes_loop_table _ _ []) in E; [|done]. cbn [app] in E.
  unfold ipv4_route. rewrite E. pose proof (route_loop_spec (table_of (configured fetch netdevs)) dest (net_ext s')) as Hr.
  destruct (route_loop _ _ _) as [[mr hop]|].
  - destruct Hr as (before & after & Et & Ho & Hl & Hb).
    assert (mr ∈ configured fetch netdevs) as Hin.
    { apply elem_of_table_of. rewrite Et, elem_of_app, elem_of_cons. auto. }
    split; [done|]. destruct Hl as [?|(Hn & Hg & Hh)]; [by left|right]. split_and!; [done..|].
    intros mr' [Hin' Hop'] Hg'. apply Hb; [|done].
    unfold table_of in Et. assert (mr' ∈ reverse (filter (λ mr, mr_gateway mr = 0) (configured fetch netdevs))) as Hf.
    { rewrite elem_of_reverse, list_elem_of_filter. done. }
    apply app_eq_inv in Et as [(k & Ek & Ek2)|(k & Ek & _)].
    + destruct k as [|x k]; [rewrite app_nil_r in Ek; by rewrite <- Ek|]. injection Ek2 as <- _. destruct Hg.
      assert (mr ∈ reverse (filter (λ mr, mr_gateway mr = 0) (configured fetch netdevs))) as Hmr
        by (rewrite Ek, elem_of_app, elem_of_cons; auto).
      rewrite elem_of_reverse, list_elem_of_filter in Hmr. apply Hmr.
    + rewrite Ek, elem_of_app. by left.
  - intros mr [Hin Hop]. apply Hr; [|done]. by apply elem_of_table_of.
Qed.
End routing.

(** ** An example network *)

Module Example.
#[local] Existing Instance i386.
#[local] Existing Instance bios_ticks.

(** The environment records what is sent, and to which next hop. *)
#[export] Instance example_net : NetStack := {|
  net_env := list (io_buffer * Z);
  net_device := Z;
  net_currticks e := 0;
  netdev_is_open dev e := true;
  rx_stats_good dev e := 7;
  rx_stats_bad dev e := 1;
  ll_broadcast dev := replicate 6 255;
  ll_addr dev := replicate 6 0;
  mc_hash dev addr := Err ENOTSUP;
  net_tx iobuf dev ll_dest e := (Ok tt, e ++ [(iobuf, INADDR_BROADCAST)]);
  arp_tx iobuf dev next_hop src e := (Ok tt, e ++ [(iobuf, next_hop)]);
  alloc_iob len e := (true, e);
  zalloc_fragment e := (true, e);
  malloc_miniroute e := (true, e);
|}.

Definition eth0 : net_device := 0.
Definition addr (a b c d : Z) : Z := le_combine [a; b; c; d].

(** Two hosts of a network, the first with a gateway. *)
Definition fetch (host : Z) (dev : Z) (setting : ipv4_setting) : Z :=
  match setting with
  | ip_setting => addr 10 0 0 host
  | netmask_setting => addr 255 255 255 0
  | gateway_setting => if host =? 1 then addr 10 0 0 254 else 0
  end.
Definition empty : ipv4_state := Ipv4 0 [] (λ _, 0) [] [].
Definition host (n : Z) : ipv4_state := (ipv4_create_routes (fetch n) [eth0] empty).2.

Definition udp : tcpip_protocol (S := ipv4_state) (D := net_device) (B := io_buffer) :=
  {| tp_proto := 17; tp_rx iobuf dev st_src st_dest csum s := (Ok tt, set_ext [(iobuf, sin_addr st_src)] s) |}.
Definition before : bytes := [0; 53; 4; 0; 0; 11].
Definition after : bytes := [1; 2; 3].
Definition segment : bytes := before ++ le_split 2 (tcpip_chksum (before ++ [0; 0] ++ after)) ++ after.
Definition to_host2 : sockaddr_tcpip := sockaddr_in 0 (addr 10 0 0 2).
Definition on_eth0 : ipv4_miniroute := Miniroute eth0 (addr 10 0 0 1) (addr 255 255 255 0) (addr 10 0 0 254).

Lemma ipv4_roundtrip_witness :
  ∃ datagram csum',
    net_ext (ipv4_tx (Iob 100 segment) udp None to_host2 None (Some 6) (host 1)).2 = [(Iob 80 datagram, addr 10 0 0 2)] ∧
    net_ext (ipv4_rx [udp] (Iob 14 (datagram ++ [0; 0; 0; 0])) eth0 0 (host 2)).2 =
      [(Iob 34 (before ++ le_split 2 csum' ++ after), addr 10 0 0 1)].
Proof.
  destruct (ipv4_roundtrip example_net example_net udp before after 100 None to_host2 None (host 1) on_eth0 (addr 10 0 0 2))
    as (datagram & csum' & s1 & _ & Htx & _ & _ & Hrx);
    [by_decide|by_decide|by vm_compute|by vm_compute|by_decide|by_decide|by vm_compute|by vm_compute|by vm_compute
    |by_decide|by vm_compute|by vm_compute|].
  exists datagram, csum'. split.
  - change 6 with (Zlen before). unfold segment. rewrite Htx. reflexivity.
  - destruct (Hrx [udp] udp 14 [0; 0; 0; 0] eth0 0 (host 2)) as (r' & ps & _ & -> & _); [done|by vm_compute|].
    reflexivity.
Defined.

(** A datagram in two fragments, and a fragment of another one in between. *)
Definition fragment_of (ident frags proto : Z) (data : bytes) : io_buffer :=
  Iob 0 (header (20 + Zlen data) ident frags proto 0 (addr 10 0 0 2) (addr 10 0 0 1) ++ data).
Definition datagram_of (ident proto : Z) (data : bytes) : datagram :=
  Datagram (addr 10 0 0 2) (addr 10 0 0 1) proto (le_combine (be_split 2 ident)) data.
Definition dgram5 : datagram := datagram_of 5 17 [1; 2; 3; 4; 5; 6; 7; 8; 9; 10].
Definition dgram6 : datagram := datagram_of 6 17 [11; 12; 13; 14; 15; 16; 17; 18; 19].
Definition reassemble (iobuf : io_buffer) (s : ipv4_state) : option (io_buffer * Z) * ipv4_state :=
  fragment_reassemble ipv4_reassembler iobuf 20 s.
Definition s1 : ipv4_state := (reassemble (fragment_of 5 0x2000 17 [1; 2; 3; 4; 5; 6; 7; 8]) empty).2.
Definition s2 : ipv4_state := (reassemble (fragment_of 6 0x2000 17 [11; 12; 13; 14; 15; 16; 17; 18]) s1).2.
Definition s3 : option (io_buffer * Z) * ipv4_state := reassemble (fragment_of 5 1 17 [9; 10]) s2.

Lemma reassembly_correct_witness :
  held_of s3.2 dgram6 = Some 8 ∧ (λ r, drop 20 (iob_data r.1)) <$> s3.1 = Some [1; 2; 3; 4; 5; 6; 7; 8; 9; 10].
Proof.
  destruct (reassembly_correct [dgram5; dgram6] empty s2 dgram5 (fragment_of 5 1 17 [9; 10]) 20 s3.1 s3.2) as (Ho & Hr & _).
  - by_decide.
  - done.
  - apply (rtc_l _ _ s1); [|apply rtc_once]; (eapply ev_fragment; [|apply surjective_pairing]);
      [exists dgram5; split; [left|by_decide]|exists dgram6; split; [right; left|by_decide]].
  - left.
  - by_decide.
  - apply surjective_pairing.
  - split.
    + rewrite (Ho dgram6); [by vm_compute|right; left|by vm_compute].
    + assert (∃ r, s3.1 = Some r ∧ r.2 = 20) as ([packet hl] & E & Ehl) by (vm_compute; by eexists).
      rewrite E in Hr |- *. destruct Hr as (_ & _ & _ & _ & Hp). cbn [fst snd] in *. rewrite Ehl in Hp.
      cbn. f_equal. exact Hp.
Defined.

(** Two datagrams that RFC 791 tells apart by their protocol only: the last fragment of
    the one is taken for the last fragment of the other. *)
Lemma reassembly_ignores_protocol :
  let d17 := datagram_of 5 17 [1; 2; 3; 4; 5; 6; 7; 8; 9; 10] in
  let d6 := datagram_of 5 6 [11; 12; 13; 14; 15; 16; 17; 18; 19; 20] in
  let first := fragment_of 5 0x2000 17 [1; 2; 3; 4; 5; 6; 7; 8] in
  let last := fragment_of 5 1 6 [19; 20] in
  genuine_fragment d17 first 20 ∧ genuine_fragment d6 last 20 ∧
  (λ r, drop 20 (iob_data r.1)) <$> (reassemble last (reassemble first empty).2).1 = Some [1; 2; 3; 4; 5; 6; 7; 8; 19; 20].
Proof. split; [by_decide|]. split; [by_decide|]. by vm_compute. Qed.

(** A destination on link, and one behind the gateway. *)
Lemma routing_correct_witness :
  (∃ mr, ipv4_route (addr 10 0 0 9) (host 1) = Some (mr, addr 10 0 0 9) ∧ on_link mr (addr 10 0 0 9)) ∧
  ∃ mr, ipv4_route (addr 192 168 0 1) (host 1) = Some (mr, addr 10 0 0 254) ∧ ¬ on_link mr (addr 192 168 0 1).
Proof.
  assert (ipv4_create_routes (fetch 1) [eth0] empty = (Ok tt, host 1)) as E by (by vm_compute).
  split.
  - pose proof (routing_correct (fetch 1) [eth0] empty (host 1) (addr 10 0 0 9) E) as Hr. cbv zeta in Hr.
    assert (∃ mr, ipv4_route (addr 10 0 0 9) (host 1) = Some (mr, addr 10 0 0 9)) as [mr Emr] by (vm_compute; by eexists).
    rewrite Emr in Hr. exists mr. split; [done|]. destruct Hr as [_ [[Hl _]|(_ & _ & Hh & _)]]; [done|].
    exfalso. vm_compute in Emr. injection Emr as <-. by vm_compute in Hh.
  - pose proof (routing_correct (fetch 1) [eth0] empty (host 1) (addr 192 168 0 1) E) as Hr. cbv zeta in Hr.
    assert (∃ mr, ipv4_route (addr 192 168 0 1) (host 1) = Some (mr, addr 10 0 0 254)) as [mr Emr] by (vm_compute; by eexists).
    rewrite Emr in Hr. exists mr. split; [done|]. destruct Hr as [_ [[_ Hh]|(Hn & _)]]; [|done]. by vm_compute in Hh.
Defined.
End Example.
