(* ===== verification/Udp.v ===== *)
(** * UDP (src/net/udp.c, src/include/ipxe/udp.h)

    Opening and closing of connections, and the transmit and receive paths,
    over any network protocol of the table; then, with IPv4 below, a datagram
    from one application to another. *)

From S2P Require Import Prelude Tcpip Retry Ipv4.

Definition IP_UDP : Z := 17.
Definition sizeof_udp_header : Z := 8.

(** The data transfer interface of a connection is known by a number. *)
Record udp_connection : Type := Udp {
  udp_xfer : Z;
  udp_local : sockaddr_tcpip;
  udp_peer : sockaddr_tcpip;
}.

Definition empty_sockaddr : sockaddr_tcpip := SockaddrTcpip 0 0 0 (replicate 26 0).
Definition set_port (port : Z) (sa : sockaddr_tcpip) : sockaddr_tcpip :=
  SockaddrTcpip (st_family sa) (st_flags sa) port (st_pad sa).

(** The state [S] of the rest of the program: it contains the list of
    connections, and behind their interfaces the applications. *)
Class UdpEnv (S : Type) := {
  udp_conns : S → list udp_connection;
  set_udp_conns : list udp_connection → S → S;
  (** Whether the allocation of a connection succeeds. *)
  zalloc_udp : S → bool * S;
  (** xfer_deliver ( &udp->xfer, iobuf, &meta ), with the addresses in meta. *)
  xfer_deliver : Z → io_buffer → sockaddr_tcpip → sockaddr_tcpip → S → res unit * S;
  (** intf_shutdown ( &udp->xfer, rc ) *)
  intf_shutdown : Z → option errno → S → S;
}.

Section udp.
Context `{Platform} {S D : Type} `{!UdpEnv S}.

Definition udp_port_available (conns : list udp_connection) (port : Z) : res Z :=
  if existsb (λ udp, st_port (udp_local udp) =? htons port) conns then Err EADDRINUSE else Ok port.

(** [random] is the random number tcpip_bind draws. *)
Definition udp_open_common (xfer : Z) (st_peer st_local : option sockaddr_tcpip) (promisc : bool) (random : Z) (s : S)
    : res unit * S :=
  let '(ok, s) := zalloc_udp s in
  if negb ok then (Err ENOMEM, s)
  else
    let udp := Udp xfer (default empty_sockaddr st_local) (default empty_sockaddr st_peer) in
    if promisc then (Ok tt, set_udp_conns (udp :: udp_conns s) s)
    else
      (* Bind to local port *)
      match tcpip_bind st_local (udp_port_available (udp_conns s)) random with
      | Err rc => (Err rc, s)
      | Ok port =>
          let udp := Udp xfer (set_port (htons port) (udp_local udp)) (udp_peer udp) in
          (Ok tt, set_udp_conns (udp :: udp_conns s) s)
      end.

Definition udp_open (xfer : Z) (peer : sockaddr_tcpip) (local : option sockaddr_tcpip) (random : Z) (s : S)
    : res unit * S := udp_open_common xfer (Some peer) local false random s.
Definition udp_open_promisc (xfer : Z) (random : Z) (s : S) : res unit * S :=
  udp_open_common xfer None None true random s.

Definition udp_close (xfer : Z) (rc : option errno) (s : S) : S :=
  let s := intf_shutdown xfer rc s in
  set_udp_conns (filter (λ udp, udp_xfer udp ≠ xfer) (udp_conns s)) s.

Definition udp_demux (local : sockaddr_tcpip) (conns : list udp_connection) : option udp_connection :=
  find (λ udp,
    ((st_family (udp_local udp) =? st_family local) || (st_family (udp_local udp) =? 0)) &&
    ((st_port (udp_local udp) =? st_port local) || (st_port (udp_local udp) =? 0)) &&
    (bool_decide (st_pad (udp_local udp) = st_pad local) || bool_decide (st_pad (udp_local udp) = st_pad empty_sockaddr)))
    conns.

(** The fields of struct udp_header; the ports stay in network order. *)
Definition udp_src (data : bytes) : Z := le_combine (field data 0 2).
Definition udp_dest (data : bytes) : Z := le_combine (field data 2 2).
Definition udp_len (data : bytes) : Z := be_combine (field data 4 2).
Definition udp_chksum (data : bytes) : Z := le_combine (field data 6 2).
Definition udp_header (src dest len chksum : Z) : bytes :=
  le_split 2 src ++ le_split 2 dest ++ be_split 2 len ++ le_split 2 chksum.

Definition udp_rx (iobuf : io_buffer) (netdev : D) (st_src st_dest : sockaddr_tcpip) (pshdr_csum : Z) (s : S)
    : res unit * S :=
  let data := iob_data iobuf in
  (* Sanity check packet *)
  if iob_len iobuf <? sizeof_udp_header then (Err EINVAL, s)
  else
    let ulen := udp_len data in
    if ulen <? sizeof_udp_header then (Err EINVAL, s)
    else if iob_len iobuf <? ulen then (Err EINVAL, s)
    else if negb (udp_chksum data =? 0) &&
            negb (generic_tcpip_continue_chksum pshdr_csum (take (Z.to_nat ulen) data) =? 0) then (Err EINVAL, s)
    else
      (* Parse parameters from header and strip header *)
      let st_src := set_port (udp_src data) st_src in
      let st_dest := set_port (udp_dest data) st_dest in
      match udp_demux st_dest (udp_conns s) with
      | None => (Err ENOTCONN, s)
      | Some udp =>
          let iobuf := iob_pull sizeof_udp_header (iob_unput (iob_len iobuf - ulen) iobuf) in
          xfer_deliver (udp_xfer udp) iobuf st_src st_dest s
      end.

Definition udp_protocol : tcpip_protocol (S := S) (D := D) (B := io_buffer) :=
  {| tp_proto := IP_UDP; tp_rx := udp_rx |}.

Definition iob_ensure_headroom (iobuf : io_buffer) (len : Z) : res unit :=
  if len <=? iob_headroom iobuf then Ok tt else Err ENOBUFS.

Definition udp_tx (protocols : list (tcpip_net_protocol (S := S) (D := D) (B := io_buffer))) (udp : udp_connection)
    (iobuf : io_buffer) (src dest : option sockaddr_tcpip) (netdev : option D) (s : S) : res unit * S :=
  (* Check we can accommodate the header *)
  match iob_ensure_headroom iobuf MAX_LL_NET_HEADER_LEN with
  | Err rc => (Err rc, s)
  | Ok _ =>
      (* Fill in default values if not explicitly provided *)
      let src := default (udp_local udp) src in
      let dest := default (udp_peer udp) dest in
      (* Add the UDP header *)
      let len := sizeof_udp_header + iob_len iobuf in
      let header chksum := udp_header (st_port src) (st_port dest) len chksum in
      let chksum := tcpip_chksum (header 0 ++ iob_data iobuf) in
      let iobuf := iob_push (header chksum) iobuf in
      (* Send it to the next layer for processing *)
      tcpip_tx (λ _ s, s) protocols iobuf udp_protocol (Some src) dest netdev (Some 6) s
  end.

(** The data transfer interface: [meta] holds the addresses and the device. *)
Definition udp_xfer_alloc_iob (alloc_iob : Z → S → bool * S) (len : Z) (s : S) : option io_buffer * S :=
  let '(ok, s) := alloc_iob (MAX_LL_NET_HEADER_LEN + len) s in
  (if ok then Some (Iob MAX_LL_NET_HEADER_LEN []) else None, s).
Definition udp_xfer_deliver (protocols : list (tcpip_net_protocol (S := S) (D := D) (B := io_buffer)))
    (udp : udp_connection) (iobuf : io_buffer) (meta : option sockaddr_tcpip * option sockaddr_tcpip * option D) (s : S)
    : res unit * S :=
  let '(src, dest, netdev) := meta in udp_tx protocols udp iobuf src dest netdev s.
End udp.

(** ** Datagrams *)

Lemma udp_header_fields src dest len chksum rest :
  in_range 16 src → in_range 16 dest → in_range 16 len → in_range 16 chksum →
  let data := udp_header src dest len chksum ++ rest in
  udp_src data = src ∧ udp_dest data = dest ∧ udp_len data = len ∧ udp_chksum data = chksum.
Proof.
  intros Hs Hd Hl Hc data.
  assert (field data 0 2 = le_split 2 src ∧ field data 2 2 = le_split 2 dest ∧ field data 4 2 = be_split 2 len ∧
    field data 6 2 = le_split 2 chksum) as (E1 & E2 & E3 & E4) by done.
  unfold udp_src, udp_dest, udp_len, udp_chksum. rewrite E1, E2, E3, E4, be_combine_split, !le_combine_split.
  split_and!; by apply Z.mod_small.
Qed.

(** A received segment whose length and checksum are right. *)
Lemma udp_rx_segment `{Platform} {S D} `{!UdpEnv S} headroom src dest chksum data (netdev : D) st_src st_dest
    pshdr_csum udp (s : S) :
  in_range 16 src → in_range 16 dest → in_range 16 (8 + Zlen data) → in_range 16 chksum →
  let segment := udp_header src dest (8 + Zlen data) chksum ++ data in
  generic_tcpip_continue_chksum pshdr_csum segment = 0 → udp_demux (set_port dest st_dest) (udp_conns s) = Some udp →
  udp_rx (Iob headroom segment) netdev st_src st_dest pshdr_csum s =
    xfer_deliver (udp_xfer udp) (Iob (headroom + 8) data) (set_port src st_src) (set_port dest st_dest) s.
Proof.
  intros Hs Hd Hl Hc segment Hck Hdm. unfold udp_rx. cbn [iob_data].
  destruct (udp_header_fields src dest (8 + Zlen data) chksum data Hs Hd Hl Hc) as (E1 & E2 & E3 & E4).
  fold segment in E1, E2, E3, E4. rewrite E1, E2, E3, E4.
  assert (Zlen segment = 8 + Zlen data) as El by (unfold segment; rewrite length_app; change (length (udp_header _ _ _ _)) with 8%nat; lia).
  unfold iob_len, sizeof_udp_header. cbn [iob_data]. rewrite El.
  repeat match goal with |- context [?a <? ?b] => destruct (Z.ltb_spec a b); [lia|] end.
  rewrite take_ge by lia. rewrite Hck, andb_false_r, Hdm. f_equal.
  unfold iob_unput, iob_pull, iob_len. cbn [iob_data iob_headroom]. rewrite El. f_equal.
  rewrite take_ge by lia. unfold segment. by rewrite drop_app_length'.
Qed.

Section over_ipv4.
Context `{Platform, Ticks}.

(** C23: data given to udp_tx for a destination with an IPv4 route leaves as one
    datagram for the next hop; when it arrives at a host that accepts its
    address and has a connection for its port, exactly the data is delivered to
    that connection, with the sender's address and port. *)
Theorem udp_over_ipv4 (NS NR : NetStack) (US : UdpEnv (ipv4_state (H1 := NS))) (UR : UdpEnv (ipv4_state (H1 := NR)))
    udp data headroom src dest netdev (s : ipv4_state (H1 := NS)) mr next_hop :
  let from := default (udp_local udp) src in
  let to := default (udp_peer udp) dest in
  is_bytes data → 28 + Zlen data < 2 ^ 16 → MAX_LL_NET_HEADER_LEN ≤ headroom →
  in_range 16 (st_port from) → in_range 16 (st_port to) → st_family to = AF_INET →
  in_range 32 (sin_addr to) → sin_addr to ≠ INADDR_BROADCAST → IN_MULTICAST (ntohl (sin_addr to)) = false →
  ipv4_route (sin_addr to) s = Some (mr, next_hop) → in_range 32 (mr_address mr) →
  Z.land (Z.lxor next_hop INADDR_BROADCAST) (Z.lnot (mr_netmask mr)) ≠ 0 → IN_MULTICAST (ntohl next_hop) = false →
  (∀ f (r : ipv4_state (H1 := NR)), udp_conns (upd_stats f r) = udp_conns r) →
  ∃ datagram s1,
    udp_tx [ipv4_tcpip_protocol] udp (Iob headroom data) src dest netdev s =
      (let '(rc, e) := arp_tx (Iob (headroom - 28) datagram) (mr_netdev mr) next_hop (mr_address mr) (net_ext s) in
       (rc, set_ext e s1)) ∧
    ∀ protocols headroom' padding netdev' flags (r : ipv4_state (H1 := NR)) udp',
      find (λ tcpip, tp_proto tcpip =? IP_UDP) protocols = Some udp_protocol → accepts netdev' flags (sin_addr to) r = true →
      udp_demux (sockaddr_in (st_port to) (sin_addr to)) (udp_conns r) = Some udp' →
      ∃ r', counted r r' ∧
        ipv4_rx protocols (Iob headroom' (datagram ++ padding)) netdev' flags r =
          xfer_deliver (udp_xfer udp') (Iob (headroom' + 28) data) (sockaddr_in (st_port from) (mr_address mr))
            (sockaddr_in (st_port to) (sin_addr to)) r'.
Proof.
  intros from to Hb Hlen Hh Hpf Hpt Hfam Hd Hnb Hnm Hr Hsrc Hhb Hhm Hstat.
  set (before := le_split 2 (st_port from) ++ le_split 2 (st_port to) ++ be_split 2 (8 + Zlen data)).
  assert (∀ c, udp_header (st_port from) (st_port to) (8 + Zlen data) c ++ data = before ++ le_split 2 c ++ data) as Eh
    by (intros c; unfold udp_header, before; by rewrite <- !app_assoc).
  assert (is_bytes before) as Hbb.
  { unfold before. repeat match goal with |- Forall _ (_ ++ _) => apply Forall_app; split end;
      first [apply le_split_bytes|apply be_split_bytes]. }
  assert (∀ c, Zlen (before ++ le_split 2 c ++ data) = 8 + Zlen data) as El
    by (intros c; rewrite !length_app; change (length before) with 6%nat; rewrite length_le_split; lia).
  destruct (ipv4_carries NS NR udp_protocol before data (headroom - 8) (Some from) to netdev s mr next_hop)
    as (datagram & csum' & s1 & Hcs & Htx & _ & _ & Hrx); [done|done|reflexivity| | |done..|].
  { rewrite El. lia. }
  { by vm_compute. }
  exists datagram, s1. split.
  - unfold udp_tx, iob_ensure_headroom. cbn [iob_headroom]. fold from to.
    destruct (Z.leb_spec MAX_LL_NET_HEADER_LEN headroom); [|lia].
    unfold tcpip_tx. cbn [find_net_protocol tn_sa_family ipv4_tcpip_protocol]. rewrite Hfam. change (AF_INET =? AF_INET) with true.
    cbn [tn_tx ipv4_tcpip_protocol]. unfold iob_push, iob_len, sizeof_udp_header. cbn [iob_data iob_headroom].
    rewrite !Eh. change (Zlen (udp_header _ _ _ _)) with 8. change 6 with (Zlen before).
    etrans; [exact Htx|]. replace (headroom - 8 - 20) with (headroom - 28) by lia. done.
  - intros protocols headroom' padding netdev' flags r udp' Hf Hacc Hdm.
    destruct (Hrx protocols udp_protocol headroom' padding netdev' flags r Hf Hacc) as (r' & ps & Hc & -> & Hck).
    exists r'. split; [done|]. rewrite <- Eh in Hck |- *.
    assert (udp_conns r' = udp_conns r) as Ecs by (destruct Hc as [f ->]; apply Hstat).
    etrans; [apply (udp_rx_segment (headroom' + 20) (st_port from) (st_port to) csum' data netdev' _ _ ps udp' r');
      [done|done|split; lia|done|exact Hck|by rewrite Ecs]|].
    by replace (headroom' + 20 + 8) with (headroom' + 28) by lia.
Qed.
End over_ipv4.

(** ** An example *)

Module Udp_example.
#[local] Existing Instance i386.
#[local] Existing Instance bios_ticks.

(** The environment holds the connections and records what is sent and
    delivered, with the address it is sent to or comes from. *)
#[export] Instance example_udp_net : NetStack := {|
  net_env := list udp_connection * list (io_buffer * Z);
  net_device := Z;
  net_currticks e := 0;
  netdev_is_open dev e := true;
  rx_stats_good dev e := 7;
  rx_stats_bad dev e := 1;
  ll_broadcast dev := replicate 6 255;
  ll_addr dev := replicate 6 0;
  mc_hash dev addr := Err ENOTSUP;
  net_tx iobuf dev ll_dest e := (Ok tt, (e.1, e.2 ++ [(iobuf, INADDR_BROADCAST)]));
  arp_tx iobuf dev next_hop src e := (Ok tt, (e.1, e.2 ++ [(iobuf, next_hop)]));
  alloc_iob len e := (true, e);
  zalloc_fragment e := (true, e);
  malloc_miniroute e := (true, e);
|}.

#[export] Instance example_udp : UdpEnv ipv4_state := {|
  udp_conns s := (net_ext s).1;
  set_udp_conns l s := set_ext (l, (net_ext s).2) s;
  zalloc_udp s := (true, s);
  xfer_deliver xfer iobuf src dest s := (Ok tt, set_ext ((net_ext s).1, (net_ext s).2 ++ [(iobuf, sin_addr src)]) s);
  intf_shutdown xfer rc s := s;
|}.

Definition addr (a b c d : Z) : Z := le_combine [a; b; c; d].
Definition eth0 : net_device := 0.
Definition route (n : Z) : ipv4_miniroute := Miniroute eth0 (addr 10 0 0 n) (addr 255 255 255 0) 0.
Definition server : sockaddr_tcpip := sockaddr_in (htons 69) (addr 10 0 0 2).
(** A host with a connection to the server, and the server itself. *)
Definition client : ipv4_state := (udp_open 1 server None 2000 (Ipv4 0 [route 1] (λ _, 0) [] ([], []))).2.
Definition listener : ipv4_state :=
  (udp_open 3 empty_sockaddr (Some (SockaddrTcpip 0 0 (htons 69) (replicate 26 0))) 0 (Ipv4 0 [route 2] (λ _, 0) [] ([], []))).2.
Definition connection : udp_connection := default (Udp 0 empty_sockaddr empty_sockaddr) (head (udp_conns client)).
Definition request : bytes := [0; 1; 97; 0].

Lemma udp_over_ipv4_witness :
  ∃ datagram,
    (net_ext (udp_tx [ipv4_tcpip_protocol] connection (Iob 100 request) None None None client).2).2 =
      [(Iob 72 datagram, addr 10 0 0 2)] ∧
    (net_ext (ipv4_rx [udp_protocol] (Iob 14 (datagram ++ [0; 0])) eth0 0 listener).2).2 =
      [(Iob 42 request, addr 10 0 0 1)].
Proof.
  destruct (udp_over_ipv4 example_udp_net example_udp_net example_udp example_udp connection request 100 None None None client
    (route 1) (addr 10 0 0 2)) as (datagram & s1 & Htx & Hrx);
    [by_decide|by vm_compute|by vm_compute|by_decide|by_decide|by vm_compute|by_decide|by vm_compute|by vm_compute
    |by vm_compute|by_decide|by vm_compute|by vm_compute|done|].
  exists datagram. split.
  - rewrite Htx. reflexivity.
  - destruct (Hrx [udp_protocol] 14 [0; 0] eth0 0 listener (Udp 3 (SockaddrTcpip 0 0 (htons 69) (replicate 26 0)) empty_sockaddr))
      as (r' & Hc & ->); [done|by vm_compute|by vm_compute|]. destruct Hc as [f ->]. reflexivity.
Defined.
End Udp_example.
