(* ===== verification/TcpIpv4.v ===== *)
(** * TCP over IPv4

    The packets tcp_xmit builds, carried by IPv4: what tcp_rx is given at the
    other end, and that its checks accept it. *)

From S2P Require Import Prelude Tcpip Retry Tcp TcpReceive TcpSend Ipv4.

Definition IP_TCP : Z := 6.

(** The parts of a packet around its checksum. *)
Definition csum_before (c : tcp_connection) (fl t : Z) (payload : bytes) : bytes :=
  be_split 2 (local_port c) ++ le_split 2 (st_port (peer c)) ++ be_split 4 (snd_seq c) ++ be_split 4 (rcv_ack c) ++
  [u8 (Z.shiftl (sizeof_tcp_header + Zlen (tx_options c fl t)) 2)] ++ [tx_flags fl payload] ++
  be_split 2 (Z.shiftr (rcv_win c) (rcv_win_scale c)).
Definition csum_after (c : tcp_connection) (fl t : Z) (payload : bytes) : bytes :=
  [0; 0] ++ tx_options c fl t ++ payload.

Lemma tx_packet_csum c fl t payload :
  let before := csum_before c fl t payload in
  let after := csum_after c fl t payload in
  tx_packet c fl t payload = before ++ le_split 2 (tcpip_chksum (before ++ [0; 0] ++ after)) ++ after.
Proof.
  intros before after. unfold tx_packet, with_csum. cbv zeta beta. fold (tx_flags fl payload).
  assert (∀ csum, tcp_header (be_split 2 (local_port c)) (le_split 2 (st_port (peer c))) (be_split 4 (snd_seq c))
      (be_split 4 (rcv_ack c)) [u8 (Z.shiftl (sizeof_tcp_header + Zlen (tx_options c fl t)) 2)] [tx_flags fl payload]
      (be_split 2 (Z.shiftr (rcv_win c) (rcv_win_scale c))) csum ++ tx_options c fl t ++ payload =
    before ++ csum ++ after) as E.
  { intros csum. unfold tcp_header, before, csum_before, after, csum_after. rewrite <- !app_assoc. done. }
  rewrite !E. done.
Qed.

Lemma csum_before_bytes c fl t payload : is_bytes (csum_before c fl t payload).
Proof.
  unfold csum_before. set (hlen := u8 (Z.shiftl _ 2)). set (f := tx_flags fl payload).
  assert (is_byte hlen ∧ is_byte f) as [Hh Hf] by (split; apply wrap_range; lia). clearbody hlen f.
  repeat match goal with |- Forall _ (_ ++ _) => apply Forall_app; split end;
    first [apply be_split_bytes|apply le_split_bytes|constructor; [done|constructor]].
Qed.

Lemma csum_after_bytes c fl t payload : is_bytes payload → is_bytes (csum_after c fl t payload).
Proof.
  intros. apply Forall_app; split; [by_decide|]. apply Forall_app; split; [apply tx_options_bytes|done].
Qed.

(** A packet with another checksum. *)
Lemma with_other_csum before after c c' :
  length before = 16%nat →
  let p := before ++ le_split 2 c ++ after in
  let p' := before ++ le_split 2 c' ++ after in
  hdr_src p' = hdr_src p ∧ hdr_dest p' = hdr_dest p ∧ hdr_seq p' = hdr_seq p ∧ hdr_ack p' = hdr_ack p ∧
  hdr_hlen p' = hdr_hlen p ∧ hdr_flags p' = hdr_flags p ∧ hdr_win p' = hdr_win p ∧ Zlen p' = Zlen p ∧
  ∀ n, (18 ≤ n)%nat → drop n p' = drop n p.
Proof.
  intros Hb p p'.
  assert (∀ o n, (o + n ≤ 16)%nat → field p' o n = field p o n) as Hf.
  { intros o n Hn. unfold field, p, p'. rewrite !drop_app_le, !take_app_le by (rewrite ?length_drop; lia). done. }
  assert (∀ i, (i < 16)%nat → byte p' i = byte p i) as Hy.
  { intros i Hi. unfold byte, p, p'. by rewrite !lookup_app_l by lia. }
  unfold hdr_src, hdr_dest, hdr_seq, hdr_ack, hdr_hlen, hdr_flags, hdr_win. rewrite !Hf, !Hy by lia. split_and!; try done.
  - unfold p, p'. by rewrite !length_app.
  - intros n Hn. unfold p, p'. rewrite !drop_app_ge, !length_le_split by (rewrite ?length_le_split; lia). done.
Qed.

(** The checks of tcp_rx depend on the length, the header length and the sum. *)
Lemma rx_check_eq p ps q qs hlen :
  rx_check q qs = Ok hlen → Zlen p = Zlen q → hdr_hlen p = hdr_hlen q → generic_tcpip_continue_chksum ps p = 0 →
  rx_check p ps = Ok hlen.
Proof. unfold rx_check. intros E -> -> ->. repeat case_match; try done. Qed.

Section over_ipv4.
Context `{Platform, Ticks}.

(** C24: a packet that tcp_xmit passes to the network layer for a peer with an
    IPv4 route leaves as one datagram; at a host that accepts its address,
    ipv4_rx passes to the TCP protocol a packet that the checks of tcp_rx accept
    and that has the header, the options and the payload of the one sent. *)
Theorem tcp_over_ipv4 (NS NR : NetStack) (tcp : tcpip_protocol (B := io_buffer)) c fl t payload headroom
    (s : ipv4_state (H1 := NS)) mr next_hop :
  let p := tx_packet c fl t payload in
  let dest := sin_addr (peer c) in
  is_bytes payload → Zlen payload ≤ TCP_PATH_MTU → tp_proto tcp = IP_TCP → st_family (peer c) = AF_INET →
  in_range 32 dest → dest ≠ INADDR_BROADCAST → IN_MULTICAST (ntohl dest) = false →
  ipv4_route dest s = Some (mr, next_hop) → in_range 32 (mr_address mr) →
  Z.land (Z.lxor next_hop INADDR_BROADCAST) (Z.lnot (mr_netmask mr)) ≠ 0 → IN_MULTICAST (ntohl next_hop) = false →
  ∃ datagram s1,
    tcpip_tx (λ _ s, s) [ipv4_tcpip_protocol] (Iob headroom p) tcp None (peer c) None (Some 16) s =
      (let '(rc, e) := arp_tx (Iob (headroom - 20) datagram) (mr_netdev mr) next_hop (mr_address mr) (net_ext s) in
       (rc, set_ext e s1)) ∧
    ∀ protocols q headroom' padding netdev' flags (r : ipv4_state (H1 := NR)),
      find (λ tcpip, tp_proto tcpip =? IP_TCP) protocols = Some q → accepts netdev' flags dest r = true →
      ∃ r' p' pshdr_csum hlen, counted r r' ∧
        ipv4_rx protocols (Iob headroom' (datagram ++ padding)) netdev' flags r =
          tp_rx q (Iob (headroom' + 20) p') netdev' (sockaddr_in 0 (mr_address mr)) (sockaddr_in 0 dest) pshdr_csum r' ∧
        rx_check p' pshdr_csum = Ok hlen ∧ drop (Z.to_nat hlen) p' = payload ∧
        (hdr_src p' = hdr_src p ∧ hdr_dest p' = hdr_dest p ∧ hdr_seq p' = hdr_seq p ∧ hdr_ack p' = hdr_ack p ∧
         hdr_flags p' = hdr_flags p ∧ hdr_win p' = hdr_win p) ∧
        drop (Z.to_nat sizeof_tcp_header) p' = drop (Z.to_nat sizeof_tcp_header) p.
Proof.
  intros p dest Hb Hlen Htcp Hfam Hd Hnb Hnm Hr Hsrc Hhb Hhm. unfold TCP_PATH_MTU in Hlen.
  set (before := csum_before c fl t payload). set (after := csum_after c fl t payload).
  pose proof (csum_before_bytes c fl t payload) as Hbb. pose proof (csum_after_bytes c fl t payload Hb) as Hba.
  fold before in Hbb. fold after in Hba. pose proof (tx_packet_csum c fl t payload) as Ep. cbv zeta in Ep.
  fold before after p in Ep. pose proof (tx_packet_check c fl t payload Hb) as Hck. fold p in Hck.
  destruct (tx_packet_payload c fl t payload) as (_ & Hpay & _ & Hpl). fold p in Hpay, Hpl.
  pose proof (tx_options_length c fl t) as Hol. rewrite !elem_of_cons, elem_of_nil in Hol.
  assert (length before = 16%nat) as Hb16 by done. clearbody before after p.
  destruct (ipv4_carries NS NR tcp before after headroom None (peer c) None s mr next_hop)
    as (datagram & csum' & s1 & _ & Htx & _ & _ & Hrx); [done|done|by rewrite Hb16| | |done..|].
  { rewrite <- Ep, Hpl. lia. }
  { by rewrite Htcp. }
  set (csum := tcpip_chksum (before ++ [0; 0] ++ after)) in *. clearbody csum.
  destruct (with_other_csum before after csum csum' Hb16) as (E1 & E2 & E3 & E4 & E5 & E6 & E7 & E8 & E9).
  rewrite <- Ep in E1, E2, E3, E4, E5, E6, E7, E8, E9. set (p' := before ++ le_split 2 csum' ++ after) in *.
  exists datagram, s1. split.
  - unfold tcpip_tx. cbn [find_net_protocol tn_sa_family ipv4_tcpip_protocol]. rewrite Hfam.
    change (AF_INET =? AF_INET) with true. cbn [tn_tx ipv4_tcpip_protocol]. rewrite Hb16, <- Ep in Htx. exact Htx.
  - intros protocols q headroom' padding netdev' flags r Hf Hacc. rewrite <- Htcp in Hf.
    destruct (Hrx protocols q headroom' padding netdev' flags r Hf Hacc) as (r' & ps & Hc & -> & Hsum).
    exists r', p', ps. eexists. split_and!; try done.
    + eapply rx_check_eq; [exact Hck|done|done|done].
    + rewrite E9 by lia. exact Hpay.
    + apply E9. unfold sizeof_tcp_header. lia.
Qed.
End over_ipv4.

(** A SYN of the example connection travels between the example hosts. *)
Section witness.
#[local] Existing Instance i386.
#[local] Existing Instance bios_ticks.
Import Ipv4.Example.

Definition example_tcp : tcpip_protocol (S := ipv4_state) (D := net_device) (B := io_buffer) :=
  {| tp_proto := 6; tp_rx iobuf dev st_src st_dest csum s := (Ok tt, set_ext [(iobuf, csum)] s) |}.

Lemma tcp_over_ipv4_witness :
  ∃ datagram p' pshdr_csum,
    net_ext (tcpip_tx (λ _ s, s) [ipv4_tcpip_protocol] (Iob 100 (tx_packet example_conn TCP_SYN 77 [])) example_tcp None
      example_peer None (Some 16) (host 1)).2 = [(Iob 80 datagram, addr 10 0 0 2)] ∧
    net_ext (ipv4_rx [example_tcp] (Iob 14 (datagram ++ [0; 0])) eth0 0 (host 2)).2 = [(Iob 34 p', pshdr_csum)] ∧
    rx_check p' pshdr_csum = Ok 40.
Proof.
  destruct (tcp_over_ipv4 example_net example_net example_tcp example_conn TCP_SYN 77 [] 100 (host 1) on_eth0 (addr 10 0 0 2))
    as (datagram & s1 & Htx & Hrx);
    [by_decide|by vm_compute|done|by vm_compute|by_decide|by vm_compute|by vm_compute|by vm_compute|by_decide
    |by vm_compute|by vm_compute|].
  destruct (Hrx [example_tcp] example_tcp 14 [0; 0] eth0 0 (host 2))
    as (r' & p' & ps & hlen & _ & E & Hck & Hp & _ & Hopt); [done|by vm_compute|].
  exists datagram, p', ps. split; [|split].
  - change example_peer with (peer example_conn). rewrite Htx. reflexivity.
  - rewrite E. reflexivity.
  - rewrite Hck. f_equal. assert (Zlen (drop (Z.to_nat sizeof_tcp_header) p') = 20) as Hl by (rewrite Hopt; by vm_compute).
    rewrite length_drop in Hl. assert (Zlen (drop (Z.to_nat hlen) p') = 0) as Hl' by (by rewrite Hp). rewrite length_drop in Hl'.
    change (Z.to_nat sizeof_tcp_header) with 20%nat in Hl. unfold rx_check, sizeof_tcp_header in Hck. repeat case_match; try done. injection Hck as <-. lia.
Defined.
End witness.
