(* ===== verification/Deflate.v ===== *)
(** * DEFLATE decompression (crypto/deflate.c, include/ipxe/deflate.h)

    The decompressor as the source has it: a state machine whose labels are
    those of deflate_inflate, run until it returns because the data is complete,
    because it is blocked waiting for input, or because of an error; a pair of
    accumulators holding the same bits in both orders; and Huffman alphabets
    represented by symbol sets, a quick lookup table and a table of raw symbols.
    Inflate.v states RFC 1951 and proves that the machine implements it. *)

From S2P Require Import Prelude.

(** ** Data *)

Inductive deflate_format : Set := DEFLATE_RAW | DEFLATE_ZLIB.

Definition DEFLATE_HEADER_BITS : Z := 3.
Definition DEFLATE_HEADER_BTYPE_LSB : Z := 1.
Definition DEFLATE_LITERAL_LEN_BITS : Z := 16.
Definition DEFLATE_DYNAMIC_BITS : Z := 14.
Definition DEFLATE_DYNAMIC_HLIT_LSB : Z := 0.
Definition DEFLATE_DYNAMIC_HLIT_MASK : Z := 0x1f.
Definition DEFLATE_DYNAMIC_HDIST_LSB : Z := 5.
Definition DEFLATE_DYNAMIC_HDIST_MASK : Z := 0x1f.
Definition DEFLATE_DYNAMIC_HCLEN_LSB : Z := 10.
Definition DEFLATE_DYNAMIC_HCLEN_MASK : Z := 0x0f.
Definition DEFLATE_CODELEN_BITS : Z := 3.
Definition DEFLATE_HUFFMAN_BITS : Z := 15.
Definition DEFLATE_HUFFMAN_QL_BITS : Z := 7.
Definition DEFLATE_HUFFMAN_QL_SHIFT : Z := 16 - DEFLATE_HUFFMAN_QL_BITS.
Definition DEFLATE_LITLEN_END : Z := 256.
Definition DEFLATE_LITLEN_MAX_CODE : Z := 287.
Definition DEFLATE_DISTANCE_MAX_CODE : Z := 31.
Definition DEFLATE_CODELEN_MAX_CODE : Z := 18.
Definition ZLIB_HEADER_BITS : Z := 16.
Definition ZLIB_HEADER_CM_LSB : Z := 0.
Definition ZLIB_HEADER_CM_MASK : Z := 0x0f.
Definition ZLIB_HEADER_CM_DEFLATE : Z := 8.
Definition ZLIB_HEADER_FDICT_BIT : Z := 13.
Definition ZLIB_ADLER32_BITS : Z := 32.

(** A set of symbols of one length. The pointer into the raw symbol table is an
    index, which can be negative once adjusted. *)
Record deflate_huf_symbols := HufSymbols {
  hs_bits : Z;
  hs_shift : Z;
  hs_freq : Z;
  hs_start : Z;
  hs_raw : Z;
}.

Definition huf_zero : deflate_huf_symbols := HufSymbols 0 0 0 0 0.

(** The array of raw symbols that follows the alphabet is its last field. *)
Record deflate_alphabet := Alphabet {
  huf : list deflate_huf_symbols;
  lookup_table : list Z;
  raw : list Z;
}.

(** The points at which the decompressor is resumed and the other labels of
    deflate_inflate. *)
Inductive label : Set :=
| zlib_header | block_header | literal_block | literal_len | literal_nlen | literal_data
| static_block | dynamic_header | dynamic_codelen | dynamic_litlen_distance
| dynamic_litlen_distance_extra | construct_alphabets | lzhuf_litlen | lzhuf_litlen_extra
| lzhuf_distance | lzhuf_distance_extra | block_done | zlib_footer | zlib_adler32 | finished.

(** The accumulator fields of the decompressor. *)
Record bit_buffer := BitBuffer {
  accumulator : Z;
  rotalumucca : Z;
  bits : Z;
}.

Record deflate := Deflate {
  resume : option label;
  format : deflate_format;
  buffer : bit_buffer;
  header : Z;
  remaining : Z;
  length_index : Z;
  length_target : Z;
  length_ : Z;
  extra_bits : Z;
  dup_len : Z;
  dup_distance : Z;
  litlen : deflate_alphabet;
  litlen_count : Z;
  distance_codelen : deflate_alphabet;
  distance_count : Z;
  lengths : bytes;
}.

Record deflate_chunk := Chunk {
  chunk_data : bytes;
  chunk_offset : Z;
  chunk_len : Z;
}.

Definition deflate_chunk_init (data : bytes) (offset len : Z) : deflate_chunk := Chunk data offset len.

Definition deflate_finished (d : deflate) : bool := bool_decide (resume d = None).

(** *** Field updates *)

Definition set_resume (x : option label) (d : deflate) : deflate :=
  Deflate x (format d) (buffer d) (header d) (remaining d) (length_index d) (length_target d) (length_ d)
    (extra_bits d) (dup_len d) (dup_distance d) (litlen d) (litlen_count d) (distance_codelen d)
    (distance_count d) (lengths d).
Definition set_buffer (x : bit_buffer) (d : deflate) : deflate :=
  Deflate (resume d) (format d) x (header d) (remaining d) (length_index d) (length_target d) (length_ d)
    (extra_bits d) (dup_len d) (dup_distance d) (litlen d) (litlen_count d) (distance_codelen d)
    (distance_count d) (lengths d).
Definition set_header (x : Z) (d : deflate) : deflate :=
  Deflate (resume d) (format d) (buffer d) x (remaining d) (length_index d) (length_target d) (length_ d)
    (extra_bits d) (dup_len d) (dup_distance d) (litlen d) (litlen_count d) (distance_codelen d)
    (distance_count d) (lengths d).
Definition set_remaining (x : Z) (d : deflate) : deflate :=
  Deflate (resume d) (format d) (buffer d) (header d) x (length_index d) (length_target d) (length_ d)
    (extra_bits d) (dup_len d) (dup_distance d) (litlen d) (litlen_count d) (distance_codelen d)
    (distance_count d) (lengths d).
Definition set_length_index (x : Z) (d : deflate) : deflate :=
  Deflate (resume d) (format d) (buffer d) (header d) (remaining d) x (length_target d) (length_ d)
    (extra_bits d) (dup_len d) (dup_distance d) (litlen d) (litlen_count d) (distance_codelen d)
    (distance_count d) (lengths d).
Definition set_length_target (x : Z) (d : deflate) : deflate :=
  Deflate (resume d) (format d) (buffer d) (header d) (remaining d) (length_index d) x (length_ d)
    (extra_bits d) (dup_len d) (dup_distance d) (litlen d) (litlen_count d) (distance_codelen d)
    (distance_count d) (lengths d).
Definition set_length (x : Z) (d : deflate) : deflate :=
  Deflate (resume d) (format d) (buffer d) (header d) (remaining d) (length_index d) (length_target d) x
    (extra_bits d) (dup_len d) (dup_distance d) (litlen d) (litlen_count d) (distance_codelen d)
    (distance_count d) (lengths d).
Definition set_extra_bits (x : Z) (d : deflate) : deflate :=
  Deflate (resume d) (format d) (buffer d) (header d) (remaining d) (length_index d) (length_target d) (length_ d)
    x (dup_len d) (dup_distance d) (litlen d) (litlen_count d) (distance_codelen d)
    (distance_count d) (lengths d).
Definition set_dup_len (x : Z) (d : deflate) : deflate :=
  Deflate (resume d) (format d) (buffer d) (header d) (remaining d) (length_index d) (length_target d) (length_ d)
    (extra_bits d) x (dup_distance d) (litlen d) (litlen_count d) (distance_codelen d)
    (distance_count d) (lengths d).
Definition set_dup_distance (x : Z) (d : deflate) : deflate :=
  Deflate (resume d) (format d) (buffer d) (header d) (remaining d) (length_index d) (length_target d) (length_ d)
    (extra_bits d) (dup_len d) x (litlen d) (litlen_count d) (distance_codelen d)
    (distance_count d) (lengths d).
Definition set_litlen (x : deflate_alphabet) (d : deflate) : deflate :=
  Deflate (resume d) (format d) (buffer d) (header d) (remaining d) (length_index d) (length_target d) (length_ d)
    (extra_bits d) (dup_len d) (dup_distance d) x (litlen_count d) (distance_codelen d)
    (distance_count d) (lengths d).
Definition set_litlen_count (x : Z) (d : deflate) : deflate :=
  Deflate (resume d) (format d) (buffer d) (header d) (remaining d) (length_index d) (length_target d) (length_ d)
    (extra_bits d) (dup_len d) (dup_distance d) (litlen d) x (distance_codelen d)
    (distance_count d) (lengths d).
Definition set_distance_codelen (x : deflate_alphabet) (d : deflate) : deflate :=
  Deflate (resume d) (format d) (buffer d) (header d) (remaining d) (length_index d) (length_target d) (length_ d)
    (extra_bits d) (dup_len d) (dup_distance d) (litlen d) (litlen_count d) x
    (distance_count d) (lengths d).
Definition set_distance_count (x : Z) (d : deflate) : deflate :=
  Deflate (resume d) (format d) (buffer d) (header d) (remaining d) (length_index d) (length_target d) (length_ d)
    (extra_bits d) (dup_len d) (dup_distance d) (litlen d) (litlen_count d) (distance_codelen d)
    x (lengths d).
Definition set_lengths (x : bytes) (d : deflate) : deflate :=
  Deflate (resume d) (format d) (buffer d) (header d) (remaining d) (length_index d) (length_target d) (length_ d)
    (extra_bits d) (dup_len d) (dup_distance d) (litlen d) (litlen_count d) (distance_codelen d)
    (distance_count d) x.

(** ** Tables *)

(** The value at an index of an array. *)
Definition get (l : list Z) (i : Z) : Z := default 0 (l !! Z.to_nat i).

(** The bits of a byte in reverse order: one iteration per value of [bit],
    until it is shifted out of its eight bits. *)
Fixpoint reverse_loop (fuel : nat) (i bit byte : Z) : Z :=
  match fuel with
  | O => byte
  | S fuel =>
      if bit =? 0 then byte
      else
        let byte := u8 (Z.shiftl byte 1) in
        let byte := if Z.land i bit =? 0 then byte else Z.lor byte 1 in
        reverse_loop fuel i (u8 (Z.shiftl bit 1)) byte
  end.

(** Entry zero is never assigned and keeps its initial value. *)
Definition deflate_reverse : list Z :=
  Eval vm_compute in 0 :: map (λ i, reverse_loop 9 i 1 0) (seqZ 1 255).

Fixpoint base_loop (n : nat) (i per base : Z) : list Z * Z :=
  match n with
  | O => ([], base)
  | S n =>
      let bits := i / per in
      let bits := if bits =? 0 then bits else bits - 1 in
      let '(table, last) := base_loop n (i + 1) per (base + Z.shiftl 1 bits) in
      (base :: table, last)
  end.

Definition deflate_litlen_base : list Z := Eval vm_compute in map u8 (base_loop 28 0 4 3).1.

(** Codes 30 and 31 are never initialised. *)
Definition deflate_distance_base : list Z := Eval vm_compute in map u16 (base_loop 30 0 2 1).1 ++ [0; 0].

Definition deflate_codelen_map : list Z :=
  [16; 17; 18; 0; 8; 7; 9; 6; 10; 5; 11; 4; 12; 3; 13; 2; 14; 1; 15].

(** Length pairs and repetition counts of the static alphabets. *)
Definition deflate_static_length_patterns : list (Z * Z) :=
  [(0x88, ((143 - 0) + 1) / 2); (0x99, ((255 - 144) + 1) / 2); (0x77, ((279 - 256) + 1) / 2);
   (0x88, ((287 - 280) + 1) / 2); (0x55, ((31 - 0) + 1) / 2)].

(** ** Huffman code lengths *)

Definition deflate_set_length (index bits : Z) (lengths : bytes) : bytes :=
  let i := index / 2 in
  <[Z.to_nat i := u8 (Z.lor (get lengths i) (Z.shiftl bits (4 * (index mod 2))))]> lengths.

Definition deflate_length (lengths : bytes) (index : Z) : Z :=
  Z.land (Z.shiftr (get lengths (index / 2)) (4 * (index mod 2))) 0x0f.

(** ** Huffman alphabets *)

Definition set_hs_freq (x : Z) (s : deflate_huf_symbols) : deflate_huf_symbols :=
  HufSymbols (hs_bits s) (hs_shift s) x (hs_start s) (hs_raw s).
Definition set_hs_raw (x : Z) (s : deflate_huf_symbols) : deflate_huf_symbols :=
  HufSymbols (hs_bits s) (hs_shift s) (hs_freq s) (hs_start s) x.

(** The symbol set of a length of at least one bit. *)
Definition huf_sym (bits : Z) (syms : list deflate_huf_symbols) : deflate_huf_symbols :=
  default huf_zero (syms !! Z.to_nat (bits - 1)).
Definition upd_huf_sym (bits : Z) (s : deflate_huf_symbols) (syms : list deflate_huf_symbols)
    : list deflate_huf_symbols :=
  <[Z.to_nat (bits - 1) := s]> syms.

(** Count one symbol. *)
Definition count_symbol (lengths : bytes) (offset : Z) (syms : list deflate_huf_symbols) (raw : Z)
    : list deflate_huf_symbols :=
  let bits := deflate_length lengths (raw + offset) in
  if bits =? 0 then syms
  else let s := huf_sym bits syms in upd_huf_sym bits (set_hs_freq (u16 (hs_freq s + 1)) s) syms.

(** Populate the symbol sets from length [bits] on; the result is the value of
    [huf] after the loop. *)
Fixpoint populate_loop (bits huf cum_freq : Z) (syms : list deflate_huf_symbols)
    : res Z * list deflate_huf_symbols :=
  match syms with
  | [] => (Ok huf, [])
  | s :: rest =>
      let shift := 16 - bits in
      let s := HufSymbols bits shift (hs_freq s) (u32 (Z.shiftl huf shift)) cum_freq in
      let huf := u32 (huf + hs_freq s) in
      if Z.shiftl 1 bits <? huf then (Err EINVAL, s :: rest)
      else
        let '(r, rest) := populate_loop (bits + 1) (u32 (Z.shiftl huf 1)) (u32 (cum_freq + hs_freq s)) rest in
        (r, s :: rest)
  end.

(** Store one raw symbol. *)
Definition store_symbol (lengths : bytes) (offset : Z) (a : list deflate_huf_symbols * list Z) (sym : Z)
    : list deflate_huf_symbols * list Z :=
  let '(syms, raw) := a in
  let bits := deflate_length lengths (sym + offset) in
  if bits =? 0 then (syms, raw)
  else
    let s := huf_sym bits syms in
    (upd_huf_sym bits (set_hs_raw (hs_raw s + 1) s) syms, <[Z.to_nat (hs_raw s) := u16 sym]> raw).

(** Fill the quick lookup table from a prefix on. *)
Definition fill_lookup (prefix value : Z) (table : list Z) : list Z :=
  take (Z.to_nat prefix) table ++ replicate (length table - Z.to_nat prefix) value.

(** Adjust the symbol set of one length and populate the lookup table. *)
Definition adjust_symbols (a : list deflate_huf_symbols * list Z) (bits : Z)
    : list deflate_huf_symbols * list Z :=
  let '(syms, table) := a in
  let s := huf_sym bits syms in
  let adjustment := Z.shiftr (hs_start s) (hs_shift s) in
  (upd_huf_sym bits (set_hs_raw (hs_raw s - hs_freq s - adjustment) s) syms,
   fill_lookup (Z.shiftr (hs_start s) DEFLATE_HUFFMAN_QL_SHIFT) (bits - 1) table).

Definition deflate_alphabet_init (lengths : bytes) (a : deflate_alphabet) (count offset : Z)
    : res unit * deflate_alphabet :=
  (* Clear symbol table *)
  let syms := replicate (Z.to_nat DEFLATE_HUFFMAN_BITS) huf_zero in
  (* Count number of symbols with each Huffman-coded length *)
  let syms := foldl (count_symbol lengths offset) syms (seqZ 0 count) in
  (* Populate Huffman-coded symbol table *)
  let '(r, syms) := populate_loop 1 0 0 syms in
  match r with
  | Err e => (Err e, Alphabet syms (lookup_table a) (raw a))
  | Ok huf =>
      let complete := huf =? Z.shiftl 1 (DEFLATE_HUFFMAN_BITS + 1) in
      (* Populate raw symbol table *)
      let '(syms, raw) := foldl (store_symbol lengths offset) (syms, raw a) (seqZ 0 count) in
      (* Adjust raw pointers and populate quick lookup table *)
      let '(syms, table) := foldl adjust_symbols (syms, lookup_table a) (seqZ 1 DEFLATE_HUFFMAN_BITS) in
      (* Check that there are no invalid codes *)
      (if complete then Ok tt else Err EINVAL, Alphabet syms table raw)
  end.

(** ** The bit stream *)

(** The number of iterations is at most the number of bits wanted. *)
Fixpoint accumulate_loop (fuel : nat) (target : Z) (b : bit_buffer) (input : deflate_chunk)
    : bit_buffer * deflate_chunk :=
  match fuel with
  | O => (b, input)
  | S fuel =>
      if bits b <? target then
        if chunk_len input <=? chunk_offset input then (b, input)
        else
          let byte := get (chunk_data input) (chunk_offset input) in
          let input := Chunk (chunk_data input) (chunk_offset input + 1) (chunk_len input) in
          let b := BitBuffer (u32 (Z.lor (accumulator b) (Z.shiftl byte (bits b))))
                     (u32 (Z.lor (rotalumucca b) (Z.shiftl (get deflate_reverse byte) (24 - bits b))))
                     (bits b + 8) in
          accumulate_loop fuel target b input
      else (b, input)
  end.

Definition deflate_accumulate (b : bit_buffer) (input : deflate_chunk) (target : Z)
    : Z * bit_buffer * deflate_chunk :=
  let '(b, input) := accumulate_loop (Z.to_nat target) target b input in
  (bits b - target, b, input).

Definition deflate_consume (b : bit_buffer) (count : Z) : Z * bit_buffer :=
  (Z.land (accumulator b) (Z.shiftl 1 count - 1),
   BitBuffer (Z.shiftr (accumulator b) count) (u32 (Z.shiftl (rotalumucca b) count)) (bits b - count)).

Definition deflate_extract (b : bit_buffer) (input : deflate_chunk) (target : Z)
    : Z * bit_buffer * deflate_chunk :=
  if target =? 0 then (0, b, input)
  else
    let '(excess, b, input) := deflate_accumulate b input target in
    if excess <? 0 then (excess, b, input)
    else let '(data, b) := deflate_consume b target in (data, b, input).

(** [while ( huf < huf_sym->start ) huf_sym--]; the first set starts at zero. *)
Fixpoint find_huf_sym (h : Z) (syms : list deflate_huf_symbols) (i : nat) : deflate_huf_symbols :=
  let s := default huf_zero (syms !! i) in
  match i with
  | O => s
  | S i' => if h <? hs_start s then find_huf_sym h syms i' else s
  end.

Definition deflate_decode (b : bit_buffer) (input : deflate_chunk) (a : deflate_alphabet)
    : Z * bit_buffer * deflate_chunk :=
  let '(_, b, input) := deflate_accumulate b input DEFLATE_HUFFMAN_BITS in
  (* Normalise the bit-reversed accumulated value to 16 bits *)
  let h := u16 (Z.shiftr (rotalumucca b) 16) in
  (* Find symbol set for this length *)
  let lookup_index := Z.shiftr h DEFLATE_HUFFMAN_QL_SHIFT in
  let s := find_huf_sym h (huf a) (Z.to_nat (get (lookup_table a) lookup_index)) in
  (* Calculate number of excess bits, and return if not yet complete *)
  let excess := bits b - hs_bits s in
  if excess <? 0 then (excess, b, input)
  else
    (* Consume bits *)
    let '(_, b) := deflate_consume b (hs_bits s) in
    (* Look up raw symbol *)
    (get (raw a) (hs_raw s + Z.shiftr h (hs_shift s)), b, input).

Definition deflate_discard_to_byte (b : bit_buffer) : bit_buffer :=
  (deflate_consume b (Z.land (bits b) 7)).2.

(** ** The state machine *)

(** What a call returns: the status and the final state. *)
Abbreviation returned := (res unit * deflate * deflate_chunk * deflate_chunk)%type.

Section machine.
Context `{Platform}.

(** The source of a copy: the output buffer itself, read as it is written, or
    other memory. *)
Inductive copy_source :=
| Own
| Other (mem : bytes).

Fixpoint copy_loop (copy_len : nat) (data : bytes) (out_offset : Z) (start : copy_source) (offset : Z) : bytes :=
  match copy_len with
  | O => data
  | S copy_len =>
      let byte := get (match start with Own => data | Other mem => mem end) offset in
      copy_loop copy_len (<[Z.to_nat out_offset := byte]> data) (out_offset + 1) start (offset + 1)
  end.

Definition deflate_copy (out : deflate_chunk) (start : copy_source) (offset len : Z) : deflate_chunk :=
  let out_offset := chunk_offset out in
  let data :=
    if out_offset <? chunk_len out then
      let copy_len := chunk_len out - out_offset in
      let copy_len := if len <? copy_len then len else copy_len in
      copy_loop (Z.to_nat copy_len) (chunk_data out) out_offset start offset
    else chunk_data out in
  Chunk data (usize (chunk_offset out + len)) (chunk_len out).

(** A step of the machine goes to a label or returns. *)
Inductive outcome :=
| Goto (l : label) (d : deflate) (input out : deflate_chunk)
| Return (rc : res unit) (d : deflate) (input out : deflate_chunk).

(** Extract bits and continue, or return with the resume point set. *)
Definition extract (target : Z) (l : label) (d : deflate) (input out : deflate_chunk)
    (k : Z → deflate → deflate_chunk → outcome) : outcome :=
  let '(data, b, input) := deflate_extract (buffer d) input target in
  let d := set_buffer b d in
  if data <? 0 then Return (Ok tt) (set_resume (Some l) d) input out else k data d input.

(** The same for a Huffman-coded symbol. *)
Definition decode (a : deflate_alphabet) (l : label) (d : deflate) (input out : deflate_chunk)
    (k : Z → deflate → deflate_chunk → outcome) : outcome :=
  let '(code, b, input) := deflate_decode (buffer d) input a in
  let d := set_buffer b d in
  if code <? 0 then Return (Ok tt) (set_resume (Some l) d) input out else k code d input.

Definition at_zlib_header (d : deflate) (input out : deflate_chunk) : outcome :=
  extract ZLIB_HEADER_BITS zlib_header d input out (λ header d input,
    let cm := Z.land (Z.shiftr header ZLIB_HEADER_CM_LSB) ZLIB_HEADER_CM_MASK in
    if negb (cm =? ZLIB_HEADER_CM_DEFLATE) then Return (Err ENOTSUP) d input out
    else if negb (Z.land header (Z.shiftl 1 ZLIB_HEADER_FDICT_BIT) =? 0) then Return (Err ENOTSUP) d input out
    else Goto block_header d input out).

Definition at_block_header (d : deflate) (input out : deflate_chunk) : outcome :=
  extract DEFLATE_HEADER_BITS block_header d input out (λ header d input,
    let d := set_header header d in
    let btype := Z.shiftr header DEFLATE_HEADER_BTYPE_LSB in
    match btype with
    | 0 => Goto literal_block d input out
    | 1 => Goto static_block d input out
    | 2 => Goto dynamic_header d input out
    | _ => Return (Err ENOTSUP) d input out
    end).

Definition at_literal_block (d : deflate) (input out : deflate_chunk) : outcome :=
  Goto literal_len (set_buffer (deflate_discard_to_byte (buffer d)) d) input out.

Definition at_literal_len (d : deflate) (input out : deflate_chunk) : outcome :=
  extract DEFLATE_LITERAL_LEN_BITS literal_len d input out (λ len d input,
    Goto literal_nlen (set_remaining len d) input out).

Definition at_literal_nlen (d : deflate) (input out : deflate_chunk) : outcome :=
  extract DEFLATE_LITERAL_LEN_BITS literal_nlen d input out (λ nlen d input,
    if negb (Z.land (Z.lxor (remaining d) (Z.lnot nlen)) (Z.shiftl 1 DEFLATE_LITERAL_LEN_BITS - 1) =? 0)
    then Return (Err EINVAL) d input out
    else Goto literal_data d input out).

Definition at_literal_data (d : deflate) (input out : deflate_chunk) : outcome :=
  (* Calculate available amount of literal data *)
  let in_remaining := usize (chunk_len input - chunk_offset input) in
  let len := remaining d in
  let len := if in_remaining <? len then in_remaining else len in
  (* Copy data to output buffer *)
  let out := deflate_copy out (Other (chunk_data input)) (chunk_offset input) len in
  (* Consume data from input buffer *)
  let input := Chunk (chunk_data input) (usize (chunk_offset input + len)) (chunk_len input) in
  let d := set_remaining (remaining d - len) d in
  (* Finish processing if we are blocked *)
  if negb (remaining d =? 0) then Return (Ok tt) (set_resume (Some literal_data) d) input out
  else Goto block_done d input out.

(** The patterns are stored one after the other at the start of the lengths. *)
Fixpoint fill_patterns (patterns : list (Z * Z)) (offset : nat) (lengths : bytes) : bytes :=
  match patterns with
  | [] => lengths
  | (fill, count) :: patterns =>
      fill_patterns patterns (offset + Z.to_nat count) (store lengths offset (replicate (Z.to_nat count) fill))
  end.

Definition at_static_block (d : deflate) (input out : deflate_chunk) : outcome :=
  let d := set_lengths (fill_patterns deflate_static_length_patterns 0 (lengths d)) d in
  let d := set_distance_count 32 (set_litlen_count 288 d) in
  Goto construct_alphabets d input out.

(** [memset ( &deflate->lengths, 0, sizeof ( deflate->lengths ) )]. *)
Definition clear_lengths (d : deflate) : deflate := set_lengths (replicate (length (lengths d)) 0) d.

Definition at_dynamic_header (d : deflate) (input out : deflate_chunk) : outcome :=
  extract DEFLATE_DYNAMIC_BITS dynamic_header d input out (λ header d input,
    let hlit := Z.land (Z.shiftr header DEFLATE_DYNAMIC_HLIT_LSB) DEFLATE_DYNAMIC_HLIT_MASK in
    let hdist := Z.land (Z.shiftr header DEFLATE_DYNAMIC_HDIST_LSB) DEFLATE_DYNAMIC_HDIST_MASK in
    let hclen := Z.land (Z.shiftr header DEFLATE_DYNAMIC_HCLEN_LSB) DEFLATE_DYNAMIC_HCLEN_MASK in
    let d := set_distance_count (hdist + 1) (set_litlen_count (hlit + 257) d) in
    let d := set_length_target (hclen + 4) (set_length_index 0 d) in
    (* Prepare for decoding code length code lengths *)
    Goto dynamic_codelen (clear_lengths d) input out).

(** The code length alphabet has been read: construct it and prepare for the
    literal/length and distance code lengths. *)
Definition codelens_done (d : deflate) (input out : deflate_chunk) : outcome :=
  let '(rc, a) := deflate_alphabet_init (lengths d) (distance_codelen d) (DEFLATE_CODELEN_MAX_CODE + 1) 0 in
  let d := set_distance_codelen a d in
  match rc with
  | Err e => Return (Err e) d input out
  | Ok _ =>
      let d := clear_lengths d in
      let d := set_length_target (litlen_count d + distance_count d) (set_length_index 0 d) in
      Goto dynamic_litlen_distance (set_length 0 d) input out
  end.

(** Each turn of the loop goes back to the label at which it resumes. *)
Definition at_dynamic_codelen (d : deflate) (input out : deflate_chunk) : outcome :=
  if length_index d <? length_target d then
    extract DEFLATE_CODELEN_BITS dynamic_codelen d input out (λ len d input,
      let index := get deflate_codelen_map (length_index d) in
      let d := set_length_index (length_index d + 1) d in
      Goto dynamic_codelen (set_lengths (deflate_set_length index len (lengths d)) d) input out)
  else codelens_done d input out.

Definition at_dynamic_litlen_distance (d : deflate) (input out : deflate_chunk) : outcome :=
  decode (distance_codelen d) dynamic_litlen_distance d input out (λ len d input,
    let d :=
      if len <? 16 then set_dup_len 1 (set_extra_bits 0 (set_length len d))
      else
        let index := len - 16 in
        let d := set_extra_bits (get [2; 3; 7] index) (set_dup_len (get [3; 3; 11] index) d) in
        if index =? 0 then d else set_length 0 d in
    Goto dynamic_litlen_distance_extra d input out).

(** [while ( ( length_index < length_target ) && dup_len-- )]. *)
Fixpoint store_lengths (dup_len : nat) (d : deflate) : deflate :=
  match dup_len with
  | O => d
  | S dup_len =>
      if length_index d <? length_target d then
        store_lengths dup_len
          (set_length_index (length_index d + 1)
             (set_lengths (deflate_set_length (length_index d) (length_ d) (lengths d)) d))
      else d
  end.

Definition at_dynamic_litlen_distance_extra (d : deflate) (input out : deflate_chunk) : outcome :=
  extract (extra_bits d) dynamic_litlen_distance_extra d input out (λ extra d input,
    let d := store_lengths (Z.to_nat (dup_len d + extra)) d in
    if length_index d <? length_target d then Goto dynamic_litlen_distance d input out
    else Goto construct_alphabets d input out).

Definition at_construct_alphabets (d : deflate) (input out : deflate_chunk) : outcome :=
  let distance_offset := litlen_count d in
  let '(rc, a) := deflate_alphabet_init (lengths d) (litlen d) (litlen_count d) 0 in
  let d := set_litlen a d in
  match rc with
  | Err e => Return (Err e) d input out
  | Ok _ =>
      (* Handle degenerate case of a single distance code *)
      let '(d, distance_offset, count) :=
        if distance_count d =? 1 then (set_lengths (<[0%nat := 0x11]> (lengths d)) d, 0, 2)
        else (d, distance_offset, distance_count d) in
      let '(rc, a) := deflate_alphabet_init (lengths d) (distance_codelen d) count distance_offset in
      let d := set_distance_codelen a d in
      match rc with
      | Err e => Return (Err e) d input out
      | Ok _ => Goto lzhuf_litlen d input out
      end
  end.

(** Each turn of the loop goes back to the label at which it resumes. *)
Definition at_lzhuf_litlen (d : deflate) (input out : deflate_chunk) : outcome :=
  decode (litlen d) lzhuf_litlen d input out (λ code d input,
    if code <? DEFLATE_LITLEN_END then
      (* Literal value: copy to output buffer *)
      Goto lzhuf_litlen d input (deflate_copy out (Other [u8 code]) 0 1)
    else if code =? DEFLATE_LITLEN_END then Goto block_done d input out
    else
      (* Length code: process extra bits *)
      let extra := code - DEFLATE_LITLEN_END - 1 in
      let d :=
        if extra <? 28 then
          let bits := extra / 4 in
          let bits := if bits =? 0 then bits else bits - 1 in
          set_dup_len (get deflate_litlen_base extra) (set_extra_bits bits d)
        else set_dup_len 258 (set_extra_bits 0 d) in
      Goto lzhuf_litlen_extra d input out).

Definition at_lzhuf_litlen_extra (d : deflate) (input out : deflate_chunk) : outcome :=
  extract (extra_bits d) lzhuf_litlen_extra d input out (λ extra d input,
    Goto lzhuf_distance (set_dup_len (dup_len d + extra) d) input out).

Definition at_lzhuf_distance (d : deflate) (input out : deflate_chunk) : outcome :=
  decode (distance_codelen d) lzhuf_distance d input out (λ code d input,
    let bits := code / 2 in
    let bits := if bits =? 0 then bits else bits - 1 in
    let d := set_dup_distance (get deflate_distance_base code) (set_extra_bits bits d) in
    Goto lzhuf_distance_extra d input out).

Definition at_lzhuf_distance_extra (d : deflate) (input out : deflate_chunk) : outcome :=
  extract (extra_bits d) lzhuf_distance_extra d input out (λ extra d input,
    let dup_distance := dup_distance d + extra in
    (* Sanity check *)
    if chunk_offset out <? dup_distance then Return (Err EINVAL) d input out
    else
      (* Copy data, allowing for overlap *)
      Goto lzhuf_litlen d input (deflate_copy out Own (chunk_offset out - dup_distance) (dup_len d))).

Definition at_block_done (d : deflate) (input out : deflate_chunk) : outcome :=
  if Z.land (header d) (Z.shiftl 1 0) =? 0 then Goto block_header d input out
  else match format d with
       | DEFLATE_RAW => Goto finished d input out
       | DEFLATE_ZLIB => Goto zlib_footer d input out
       end.

Definition at_zlib_footer (d : deflate) (input out : deflate_chunk) : outcome :=
  Goto zlib_adler32 (set_buffer (deflate_discard_to_byte (buffer d)) d) input out.

Definition at_zlib_adler32 (d : deflate) (input out : deflate_chunk) : outcome :=
  let '(excess, b, input) := deflate_accumulate (buffer d) input ZLIB_ADLER32_BITS in
  let d := set_buffer b d in
  if excess <? 0 then Return (Ok tt) (set_resume (Some zlib_adler32) d) input out
  else Goto finished d input out.

Definition at_finished (d : deflate) (input out : deflate_chunk) : outcome :=
  Return (Ok tt) (set_resume None d) input out.

(** The code at a label. *)
Definition step (l : label) : deflate → deflate_chunk → deflate_chunk → outcome :=
  match l with
  | zlib_header => at_zlib_header
  | block_header => at_block_header
  | literal_block => at_literal_block
  | literal_len => at_literal_len
  | literal_nlen => at_literal_nlen
  | literal_data => at_literal_data
  | static_block => at_static_block
  | dynamic_header => at_dynamic_header
  | dynamic_codelen => at_dynamic_codelen
  | dynamic_litlen_distance => at_dynamic_litlen_distance
  | dynamic_litlen_distance_extra => at_dynamic_litlen_distance_extra
  | construct_alphabets => at_construct_alphabets
  | lzhuf_litlen => at_lzhuf_litlen
  | lzhuf_litlen_extra => at_lzhuf_litlen_extra
  | lzhuf_distance => at_lzhuf_distance
  | lzhuf_distance_extra => at_lzhuf_distance_extra
  | block_done => at_block_done
  | zlib_footer => at_zlib_footer
  | zlib_adler32 => at_zlib_adler32
  | finished => at_finished
  end.

Fixpoint run (fuel : nat) (l : label) (d : deflate) (input out : deflate_chunk) : option returned :=
  match fuel with
  | O => None
  | S fuel =>
      match step l d input out with
      | Return rc d input out => Some (rc, d, input, out)
      | Goto l d input out => run fuel l d input out
      end
  end.

(** Where a call starts. *)
Definition entry (d : deflate) : label :=
  match resume d with
  | Some l => l
  | None => match format d with DEFLATE_RAW => block_header | DEFLATE_ZLIB => zlib_header end
  end.

(** Bits accumulated or still in the input; sixteen steps for each are enough. *)
Definition bits_left (d : deflate) (input : deflate_chunk) : Z :=
  bits (buffer d) + 8 * (chunk_len input - chunk_offset input).

Definition deflate_inflate (d : deflate) (input out : deflate_chunk) : option returned :=
  run (Z.to_nat (16 * bits_left d input + 16)) (entry d) d input out.

Definition zero_alphabet (count : Z) : deflate_alphabet :=
  Alphabet (replicate (Z.to_nat DEFLATE_HUFFMAN_BITS) huf_zero)
    (replicate (Z.to_nat (Z.shiftl 1 DEFLATE_HUFFMAN_QL_BITS)) 0) (replicate (Z.to_nat count) 0).

Definition deflate_init (format : deflate_format) : deflate :=
  Deflate None format (BitBuffer 0 0 0) 0 0 0 0 0 0 0 0
    (zero_alphabet (DEFLATE_LITLEN_MAX_CODE + 1)) 0 (zero_alphabet (DEFLATE_DISTANCE_MAX_CODE + 1)) 0
    (replicate (Z.to_nat (((DEFLATE_LITLEN_MAX_CODE + 1) + (DEFLATE_DISTANCE_MAX_CODE + 1) + 1) / 2)) 0).

End machine.

#[global] Arguments outcome : clear implicits.

(** Reduce the fields of an updated decompressor. *)
Ltac dsimpl :=
  cbn [resume format buffer header remaining length_index length_target length_ extra_bits dup_len dup_distance
       litlen litlen_count distance_codelen distance_count lengths
       set_resume set_buffer set_header set_remaining set_length_index set_length_target set_length set_extra_bits
       set_dup_len set_dup_distance set_litlen set_litlen_count set_distance_codelen set_distance_count set_lengths
       clear_lengths] in *.
