(* ===== verification/Huffman.v ===== *)
(** * Bit streams and Huffman codes of the decompressor

    The two accumulators of crypto/deflate.c hold the bits that were read from
    the input and not yet used, in both orders; [reads] relates them and the
    unread input to the sequence of bits ahead. A Huffman alphabet constructed
    from code lengths is shown to be the canonical code of RFC 1951, section
    3.2.2: it is accepted exactly when the lengths form a complete code, and
    decoding finds the symbol whose code comes next. *)

From S2P Require Import Prelude Deflate.

(** ** Sequences of bits *)

(** The value of bits, the least or the most significant one first. *)
Fixpoint lval (l : list bool) : Z :=
  match l with
  | [] => 0
  | x :: l => Z.b2z x + 2 * lval l
  end.

Fixpoint mval (l : list bool) : Z :=
  match l with
  | [] => 0
  | x :: l => Z.b2z x * 2 ^ Zlen l + mval l
  end.

(** The low bits of a value, the least or the most significant one first. *)
Fixpoint lsb (n : nat) (v : Z) : list bool :=
  match n with
  | O => []
  | S n => Z.odd v :: lsb n (v / 2)
  end.

Definition msb (n : nat) (v : Z) : list bool := rev (lsb n v).

(** The bits of bytes in the order of the stream. *)
Fixpoint bits_of (data : bytes) : list bool :=
  match data with
  | [] => []
  | x :: data => lsb 8 x ++ bits_of data
  end.

Lemma length_lsb n v : length (lsb n v) = n.
Proof. revert v. induction n as [|n IH]; intros v; cbn; [done|]. by rewrite IH. Qed.

Lemma length_msb n v : length (msb n v) = n.
Proof. unfold msb. by rewrite length_rev, length_lsb. Qed.

Lemma bits_of_app d1 d2 : bits_of (d1 ++ d2) = bits_of d1 ++ bits_of d2.
Proof. induction d1 as [|x d1 IH]; [done|]. cbn [app bits_of]. by rewrite IH, app_assoc. Qed.

Lemma length_bits_of d : length (bits_of d) = (8 * length d)%nat.
Proof. induction d as [|x d IH]; [done|]. cbn [bits_of length]. rewrite length_app, length_lsb, IH. lia. Qed.

Lemma pow2_pos (n : nat) : 0 < 2 ^ Z.of_nat n.
Proof. apply Z.pow_pos_nonneg; lia. Qed.

Lemma pow2_S (n : nat) : 2 ^ Z.of_nat (S n) = 2 * 2 ^ Z.of_nat n.
Proof. rewrite Nat2Z.inj_succ, Z.pow_succ_r by lia. done. Qed.

Lemma pow2_split (a b : Z) : 0 ≤ a ≤ b → 2 ^ b = 2 ^ a * 2 ^ (b - a).
Proof. intros. rewrite <- Z.pow_add_r by lia. f_equal. lia. Qed.

Lemma b2z_range x : 0 ≤ Z.b2z x ≤ 1.
Proof. by destruct x. Qed.

Lemma lval_range l : 0 ≤ lval l < 2 ^ Zlen l.
Proof.
  induction l as [|x l IH]; [done|]. cbn [lval length]. rewrite pow2_S. pose proof (b2z_range x). lia.
Qed.

Lemma mval_range l : 0 ≤ mval l < 2 ^ Zlen l.
Proof.
  induction l as [|x l IH]; [done|]. cbn [mval length]. rewrite pow2_S. pose proof (b2z_range x). nia.
Qed.

Lemma lval_app l1 l2 : lval (l1 ++ l2) = lval l1 + 2 ^ Zlen l1 * lval l2.
Proof.
  induction l1 as [|x l1 IH]; [cbn [app lval length]; lia|].
  cbn [app lval length]. rewrite IH, pow2_S. lia.
Qed.

Lemma mval_app l1 l2 : mval (l1 ++ l2) = mval l1 * 2 ^ Zlen l2 + mval l2.
Proof.
  induction l1 as [|x l1 IH]; [cbn [app mval length]; lia|].
  cbn [app mval]. rewrite IH, length_app, Nat2Z.inj_add, Z.pow_add_r by lia. lia.
Qed.

Lemma mval_rev l : mval (rev l) = lval l.
Proof.
  induction l as [|x l IH]; [done|]. cbn [rev lval]. rewrite mval_app, IH. cbn. lia.
Qed.

Lemma lval_lsb n v : lval (lsb n v) = v mod 2 ^ Z.of_nat n.
Proof.
  revert v. induction n as [|n IH]; intros v; [cbn; by rewrite Z.mod_1_r|].
  cbn [lsb lval]. rewrite IH, pow2_S. pose proof (pow2_pos n).
  rewrite Z.rem_mul_r, Zmod_odd by lia. by destruct (Z.odd v).
Qed.

Lemma mval_msb n v : mval (msb n v) = v mod 2 ^ Z.of_nat n.
Proof. unfold msb. rewrite mval_rev. apply lval_lsb. Qed.

Lemma lsb_lval l : lsb (length l) (lval l) = l.
Proof.
  induction l as [|x l IH]; [done|]. cbn [length lval lsb].
  rewrite Z.odd_add_mul_2. f_equal; [by destruct x|].
  replace ((Z.b2z x + 2 * lval l) / 2) with (lval l); [done|].
  apply (Z.div_unique _ _ _ (Z.b2z x)); [destruct x; cbn; lia|lia].
Qed.

Lemma msb_mval l : msb (length l) (mval l) = l.
Proof.
  unfold msb. assert (mval l = lval (rev l)) as -> by (by rewrite <- mval_rev, rev_involutive).
  rewrite <- (length_rev l), lsb_lval. apply rev_involutive.
Qed.

Lemma mval_inj l1 l2 : length l1 = length l2 → mval l1 = mval l2 → l1 = l2.
Proof. intros Hl Hv. by rewrite <- (msb_mval l1), <- (msb_mval l2), Hl, Hv. Qed.

(** The leading bits. *)
Lemma mval_take n l : (n ≤ length l)%nat → mval l / 2 ^ Z.of_nat (length l - n) = mval (take n l).
Proof.
  intros Hn. rewrite <- (take_drop n l) at 1. rewrite mval_app, length_drop.
  pose proof (mval_range (drop n l)) as Hr. rewrite length_drop in Hr.
  rewrite Z.div_add_l by lia. rewrite Z.div_small; lia.
Qed.


(** ** The accumulators *)

(** A buffer holds the given bits. *)
Definition holds (b : bit_buffer) (l : list bool) : Prop :=
  bits b = Zlen l ∧ accumulator b = lval l ∧ rotalumucca b = mval l * 2 ^ (32 - Zlen l) ∧ (length l ≤ 32)%nat.

(** A chunk of bytes within a buffer, and the part not yet read. *)
Definition chunk_ok `{Platform} (c : deflate_chunk) : Prop :=
  0 ≤ chunk_offset c ≤ chunk_len c ∧ chunk_len c ≤ Zlen (chunk_data c) ∧
  in_range size_bits (chunk_len c) ∧ is_bytes (chunk_data c).

Definition unread (c : deflate_chunk) : bytes :=
  drop (Z.to_nat (chunk_offset c)) (take (Z.to_nat (chunk_len c)) (chunk_data c)).

Lemma reverse_spec x : is_byte x → get deflate_reverse x = mval (lsb 8 x).
Proof.
  intros Hx. assert (Forall (λ x, get deflate_reverse x = mval (lsb 8 x)) (seqZ 0 256)) as Hall by by_decide.
  exact (Forall_seqZ_lookup _ _ x Hall Hx).
Qed.

(** The buffer after one more byte. *)
Definition load (b : bit_buffer) (x : Z) : bit_buffer :=
  BitBuffer (u32 (Z.lor (accumulator b) (Z.shiftl x (bits b))))
    (u32 (Z.lor (rotalumucca b) (Z.shiftl (get deflate_reverse x) (24 - bits b)))) (bits b + 8).

Lemma load_holds b l x : holds b l → (length l ≤ 24)%nat → is_byte x → holds (load b x) (l ++ lsb 8 x).
Proof.
  intros (Hb & Ha & Hr & _) Hl Hx. unfold holds, load. cbn [bits accumulator rotalumucca].
  pose proof (lval_range (l ++ lsb 8 x)) as Hv. pose proof (mval_range (l ++ lsb 8 x)) as Hm.
  rewrite reverse_spec, Hb, Ha, Hr by done. rewrite length_app, length_lsb in *.
  rewrite Nat2Z.inj_add in *. split_and!; [lia| | |lia].
  - rewrite lor_shift by (lia || apply lval_range). rewrite lval_app, lval_lsb in *.
    rewrite Z.mod_small in * by done. rewrite Z.mul_comm with (n := x). apply wrap_small.
    split; [lia|]. eapply Z.lt_le_trans; [apply Hv|]. apply Z.pow_le_mono_r; lia.
  - rewrite Z.lor_comm. rewrite <- Z.shiftl_mul_pow2 by lia.
    pose proof (mval_range (lsb 8 x)) as Hs. rewrite length_lsb in Hs.
    rewrite lor_shift; [|lia|].
    + rewrite (Z.shiftl_mul_pow2 _ (24 - _)) by lia. rewrite mval_app, length_lsb in *.
      replace (32 - Zlen l) with (8 + (24 - Zlen l)) by lia. rewrite Z.pow_add_r by lia.
      replace (32 - (Zlen l + Z.of_nat 8)) with (24 - Zlen l) by lia.
      rewrite wrap_small; [change (Z.of_nat 8) with 8; ring|]. split; [change (Z.of_nat 8) with 8 in *; nia|].
      replace (2 ^ 32) with (2 ^ (Zlen l + Z.of_nat 8) * 2 ^ (24 - Zlen l)) by (rewrite <- Z.pow_add_r by lia; f_equal; lia).
      change (Z.of_nat 8) with 8 in *. assert (0 < 2 ^ (24 - Zlen l)) by (apply Z.pow_pos_nonneg; lia). nia.
    + rewrite Z.shiftl_mul_pow2 by lia. rewrite (pow2_split (24 - Zlen l) (32 - Zlen l)) by lia.
      replace (32 - Zlen l - (24 - Zlen l)) with 8 by lia.
      assert (0 < 2 ^ (24 - Zlen l)) by (apply Z.pow_pos_nonneg; lia). change (Z.of_nat 8) with 8 in *. nia.
Qed.

Lemma consume_holds b c l :
  holds b (c ++ l) →
  ∃ b', deflate_consume b (Zlen c) = (lval c, b') ∧ holds b' l.
Proof.
  intros (Hb & Ha & Hr & Hn). unfold deflate_consume. eexists. split; [f_equal|].
  - rewrite Z.shiftl_1_l, land_mask, Ha, lval_app by lia. rewrite Z.mul_comm, Z.mod_add by (pose proof (pow2_pos (length c)); lia).
    apply Z.mod_small, lval_range.
  - unfold holds. cbn [bits accumulator rotalumucca]. rewrite length_app in *. split_and!; [lia| | |lia].
    + rewrite Z.shiftr_div_pow2, Ha, lval_app by lia. pose proof (lval_range c).
      rewrite Z.mul_comm, Z.div_add by lia. rewrite Z.div_small; lia.
    + rewrite Z.shiftl_mul_pow2, Hr, mval_app by lia. pose proof (mval_range l).
      replace ((mval c * 2 ^ Zlen l + mval l) * 2 ^ (32 - Z.of_nat (length c + length l)) * 2 ^ Zlen c)
        with (mval l * 2 ^ (32 - Zlen l) + mval c * 2 ^ 32).
      2: { replace (2 ^ 32) with (2 ^ Zlen l * 2 ^ (32 - Z.of_nat (length c + length l)) * 2 ^ Zlen c)
             by (rewrite <- !Z.pow_add_r by lia; f_equal; lia).
           replace (32 - Zlen l) with ((32 - Z.of_nat (length c + length l)) + Zlen c) by lia.
           rewrite Z.pow_add_r by lia. ring. }
      unfold wrap. rewrite Z.mod_add by lia. apply Z.mod_small. split; [nia|].
      rewrite (pow2_split (Zlen l) 32) by lia.
      assert (0 < 2 ^ (32 - Zlen l)) by (apply Z.pow_pos_nonneg; lia). nia.
Qed.

Section stream.
Context `{Platform}.

(** The bits ahead: those in the buffer, then those of the unread input. *)
Definition reads (b : bit_buffer) (c : deflate_chunk) (l s : list bool) : Prop :=
  holds b l ∧ chunk_ok c ∧ s = l ++ bits_of (unread c).

(** A chunk after [n] more bytes. *)
Definition advanced (n : nat) (c : deflate_chunk) : deflate_chunk :=
  Chunk (chunk_data c) (chunk_offset c + Z.of_nat n) (chunk_len c).

Lemma length_unread c : chunk_ok c → Zlen (unread c) = chunk_len c - chunk_offset c.
Proof. intros (? & ? & _). unfold unread. rewrite length_drop, length_take. lia. Qed.

Lemma unread_bytes c : chunk_ok c → is_bytes (unread c).
Proof. intros (_ & _ & _ & ?). unfold unread. by apply Forall_drop, Forall_take. Qed.

Lemma unread_advanced n c : chunk_ok c → unread (advanced n c) = drop n (unread c).
Proof.
  intros (? & _). unfold unread, advanced. cbn [chunk_data chunk_offset chunk_len].
  rewrite drop_drop. f_equal. lia.
Qed.

Lemma advanced_ok n c : chunk_ok c → (n ≤ length (unread c))%nat → chunk_ok (advanced n c).
Proof.
  intros Hc Hn. pose proof (length_unread c Hc). destruct Hc as (? & ? & ? & ?).
  unfold chunk_ok, advanced. cbn [chunk_data chunk_offset chunk_len]. split_and!; done || lia.
Qed.

Lemma unread_cons c :
  chunk_ok c → chunk_offset c < chunk_len c →
  unread c = get (chunk_data c) (chunk_offset c) :: unread (advanced 1 c).
Proof.
  intros Hc Hlt. pose proof Hc as (? & ? & _). rewrite unread_advanced by done. unfold unread, get.
  destruct (lookup_lt_is_Some_2 (chunk_data c) (Z.to_nat (chunk_offset c))) as [x Hx]; [lia|].
  rewrite Hx. cbn [default]. rewrite (drop_S _ x) at 1 by (rewrite lookup_take_lt by lia; done).
  rewrite drop_drop. do 2 f_equal. lia.
Qed.

(** Whether a target number of bits can be accumulated without overflow. *)
Definition target_ok (target : Z) (l : list bool) : Prop :=
  0 ≤ target ∧ (target ≤ 25 ∨ (target ≤ 32 ∧ (8 | Zlen l))).

Lemma accumulate_loop_spec fuel target b c l s :
  reads b c l s → target_ok target l → target ≤ Zlen l + 8 * Z.of_nat fuel →
  ∃ b' n l', accumulate_loop fuel target b c = (b', advanced n c) ∧ reads b' (advanced n c) l' s ∧
    (target ≤ Zlen l' ∨ unread (advanced n c) = []) ∧
    Zlen l' = Zlen l + 8 * Z.of_nat n ∧ Zlen l' ≤ Z.max (Zlen l) (target + 7) ∧ (n ≤ length (unread c))%nat.
Proof.
  revert b c l. induction fuel as [|fuel IH]; intros b c l (Hb & Hc & Hs) Ht Hf.
  - exists b, 0%nat, l. assert (advanced 0 c = c) as -> by (destruct c; unfold advanced; cbn; f_equal; lia).
    cbn [accumulate_loop]. split_and!; [done|done|lia|lia|lia|lia].
  - assert (advanced 0 c = c) as H0 by (destruct c; unfold advanced; cbn; f_equal; lia).
    assert (bits b = Zlen l) as Hbl by apply Hb.
    assert (reads b c l s) as Hreads by done.
    cbn [accumulate_loop]. case (Z.ltb_spec (bits b) target) as [Hlt|Hge].
    2: { exists b, 0%nat, l. rewrite H0. split_and!; [done|done|lia|lia|lia|lia]. }
    case (Z.leb_spec (chunk_len c) (chunk_offset c)) as [Hle|Hgt].
    { exists b, 0%nat, l. rewrite H0. split_and!; [done|done| |lia|lia|lia].
      right. apply length_zero_iff_nil. pose proof (length_unread c Hc). lia. }
    pose proof (unread_cons c Hc Hgt) as Hu. set (x := get (chunk_data c) (chunk_offset c)) in *.
    assert (is_byte x) as Hx.
    { pose proof (unread_bytes c Hc) as Hbs. rewrite Hu in Hbs. by inversion Hbs. }
    assert ((length l ≤ 24)%nat) as Hl24.
    { destruct Ht as [? [?|[? [q Hq]]]]; lia. }
    pose proof (load_holds b l x Hb Hl24 Hx) as Hload.
    pose proof (advanced_ok 1 c Hc ltac:(rewrite Hu; cbn; lia)) as Hc1.
    destruct (IH (load b x) (advanced 1 c) (l ++ lsb 8 x)) as (b' & n & l' & Heq & Hr & Hend & Hn & Hmax & Hun).
    + split_and!; [exact Hload|exact Hc1|]. rewrite Hs, Hu. cbn [bits_of]. by rewrite app_assoc.
    + destruct Ht as [? Ht]. split; [done|]. rewrite length_app, length_lsb.
      destruct Ht as [?|[? [q Hq]]]; [by left|right]. split; [done|]. exists (q + 1). lia.
    + rewrite length_app, length_lsb. lia.
    + rewrite length_app, length_lsb in Hn, Hmax. exists b', (S n), l'.
      assert (advanced n (advanced 1 c) = advanced (S n) c) as Ha
        by (unfold advanced; cbn [chunk_data chunk_offset chunk_len]; f_equal; lia).
      rewrite Ha in *. split_and!; [exact Heq|done|done|lia|lia|]. rewrite Hu. cbn [length]. lia.
Qed.

Lemma accumulate_spec target b c l s :
  reads b c l s → target_ok target l →
  ∃ b' n l', deflate_accumulate b c target = (Zlen l' - target, b', advanced n c) ∧
    reads b' (advanced n c) l' s ∧ (target ≤ Zlen l' ∨ unread (advanced n c) = []) ∧
    Zlen l' = Zlen l + 8 * Z.of_nat n ∧ Zlen l' ≤ Z.max (Zlen l) (target + 7) ∧ (n ≤ length (unread c))%nat.
Proof.
  intros Hr Ht. unfold deflate_accumulate.
  destruct (accumulate_loop_spec (Z.to_nat target) target b c l s Hr Ht) as (b' & n & l' & -> & Hr' & Hrest).
  { destruct Ht as [? _]. lia. }
  exists b', n, l'. split_and!; [|done|apply Hrest..]. assert (bits b' = Zlen l') as -> by apply Hr'. done.
Qed.

(** Either all bits of the input are in the buffer and too few, or the bits at
    the head of the stream are extracted. *)
Lemma extract_spec target b c l s :
  reads b c l s → 0 ≤ target ≤ 16 → (length l ≤ 23)%nat →
  ∃ v b' n l', deflate_extract b c target = (v, b', advanced n c) ∧ (length l' ≤ 23)%nat ∧ (n ≤ length (unread c))%nat ∧
    Zlen l' mod 8 = (Zlen l - (if v <? 0 then 0 else target)) mod 8 ∧
    ((v < 0 ∧ Zlen s < target ∧ l' = s ∧ reads b' (advanced n c) l' s ∧ unread (advanced n c) = []) ∨
     (∃ s', s = lsb (Z.to_nat target) v ++ s' ∧ 0 ≤ v < 2 ^ target ∧ reads b' (advanced n c) l' s' ∧
        (target ≠ 0 → Zlen l' ≤ Z.max (Zlen l - target) 7))).
Proof.
  intros Hr Ht Hl. unfold deflate_extract. case (Z.eqb_spec target 0) as [->|Hne].
  { exists 0, b, 0%nat, l. assert (advanced 0 c = c) as -> by (destruct c; unfold advanced; cbn; f_equal; lia).
    split_and!; [done|done|lia|f_equal; case_match; lia|]. right. exists s. by split_and!. }
  destruct (accumulate_spec target b c l s Hr) as (b' & n & l' & -> & Hr' & Hend & Hn & Hmax & Hun).
  { split; [lia|]. left. lia. }
  case (Z.ltb_spec (Zlen l' - target) 0) as [Hlt|Hge].
  - eexists _, b', n, l'. split_and!; [done|lia|done| |].
    + case (Z.ltb_spec (Zlen l' - target) 0) as [_|?]; [|lia].
      rewrite Hn, Z.mul_comm, Z.mod_add by lia. f_equal. lia.
    + left. destruct Hend as [?|Hend]; [lia|]. assert (s = l') as ->.
      { destruct Hr' as (_ & _ & ->). by rewrite Hend, app_nil_r. }
      split_and!; done || lia.
  - destruct Hr' as (Hh & Hc & Hs).
    set (tn := Z.to_nat target). rewrite <- (take_drop tn l') in Hh.
    assert (Zlen (take tn l') = target) as Hlen by (rewrite length_take; lia).
    destruct (consume_holds b' _ _ Hh) as (b'' & Hcons & Hh'). rewrite Hlen in Hcons. rewrite Hcons.
    pose proof (lval_range (take tn l')) as Hv. rewrite Hlen in Hv.
    eexists _, b'', n, (drop tn l'). split_and!; [done|rewrite length_drop; lia|done| |].
    + rewrite length_drop. case (Z.ltb_spec (lval (take tn l')) 0) as [?|_]; [lia|].
      replace (Z.of_nat (length l' - tn)) with (Zlen l - target + Z.of_nat n * 8) by lia. by rewrite Z.mod_add.
    + right. exists (drop tn l' ++ bits_of (unread (advanced n c))). split_and!; [|lia|lia| |].
      * rewrite Hs. rewrite <- (take_drop tn l') at 1. rewrite <- app_assoc. f_equal.
        rewrite <- (lsb_lval (take tn l')) at 1. f_equal. lia.
      * by split_and!.
      * intros _. rewrite length_drop. lia.
Qed.

End stream.

(** ** Canonical codes (RFC 1951, 3.2.2) *)

(** The symbols with a given code length, in order. *)
Definition symbols (L : list Z) (b : Z) : list Z :=
  filter (λ sym, L !! Z.to_nat sym = Some b) (seqZ 0 (Zlen L)).

Definition bl_count (L : list Z) (b : Z) : Z := if b =? 0 then 0 else Zlen (symbols L b).

(** The numerical value of the smallest code of each length. *)
Fixpoint next_code (L : list Z) (b : nat) : Z :=
  match b with
  | O => 0
  | S b' => 2 * (next_code L b' + bl_count L (Z.of_nat b'))
  end.

(** The code of a symbol: its length in bits, most significant first. *)
Definition huff (L : list Z) (sym : Z) (c : list bool) : Prop :=
  ∃ (b k : nat), (1 ≤ b ≤ 15)%nat ∧ symbols L (Z.of_nat b) !! k = Some sym ∧
    c = msb b (next_code L b + Z.of_nat k).

(** The codes of lengths up to [b], as a share of [2 ^ 15]. *)
Fixpoint kraft (L : list Z) (b : nat) : Z :=
  match b with
  | O => 0
  | S b' => kraft L b' + bl_count L (Z.of_nat b) * 2 ^ (15 - Z.of_nat b)
  end.

(** The codes use up all sequences of bits. *)
Definition complete (L : list Z) : Prop := kraft L 15 = 2 ^ 15.

#[export] Instance complete_dec L : Decision (complete L).
Proof. unfold complete. apply _. Defined.

Lemma bl_count_nonneg L b : 0 ≤ bl_count L b.
Proof. unfold bl_count. case_match; lia. Qed.

Lemma kraft_mono L b n : kraft L b ≤ kraft L (b + n).
Proof.
  induction n as [|n IH]; [by rewrite Nat.add_0_r|]. rewrite Nat.add_succ_r. cbn [kraft].
  pose proof (bl_count_nonneg L (Z.of_nat (S (b + n)))).
  assert (0 ≤ 2 ^ (15 - Z.of_nat (S (b + n)))) by (apply Z.pow_nonneg; lia). nia.
Qed.

Lemma kraft_le L b b' : (b ≤ b')%nat → kraft L b ≤ kraft L b'.
Proof. intros. replace b' with (b + (b' - b))%nat by lia. apply kraft_mono. Qed.

(** The smallest code of each length comes after all shorter codes. *)
Lemma next_code_kraft L b :
  (b ≤ 15)%nat → next_code L (S b) * 2 ^ (15 - Z.of_nat b) = 2 * kraft L b.
Proof.
  induction b as [|b IH]; intros Hb; [done|].
  assert (2 ^ (15 - Z.of_nat b) = 2 * 2 ^ (15 - Z.of_nat (S b))) as Hp.
  { rewrite <- Z.pow_succ_r by lia. f_equal. lia. }
  specialize (IH ltac:(lia)). rewrite Hp in IH. cbn [kraft].
  change (next_code L (S (S b))) with (2 * (next_code L (S b) + bl_count L (Z.of_nat (S b)))). lia.
Qed.

Lemma next_code_nonneg L b : 0 ≤ next_code L b.
Proof. induction b as [|b IH]; [done|]. cbn [next_code]. pose proof (bl_count_nonneg L (Z.of_nat b)). lia. Qed.

(** The first code of a length, normalised to 16 bits. *)
Definition start_of (L : list Z) (b : nat) : Z := next_code L b * 2 ^ (16 - Z.of_nat b).

Lemma start_of_kraft L b : (b ≤ 15)%nat → start_of L (S b) = 2 * kraft L b.
Proof. intros. unfold start_of. rewrite <- next_code_kraft by done. do 2 f_equal. lia. Qed.

Lemma start_of_S L b :
  (b ≤ 15)%nat → start_of L (S b) = start_of L b + bl_count L (Z.of_nat b) * 2 ^ (16 - Z.of_nat b).
Proof.
  intros. unfold start_of. cbn [next_code].
  replace (16 - Z.of_nat b) with (Z.succ (16 - Z.of_nat (S b))) by lia. rewrite Z.pow_succ_r by lia. lia.
Qed.

Lemma start_of_le L b b' : (b ≤ b')%nat → (b' ≤ 16)%nat → start_of L b ≤ start_of L b'.
Proof.
  intros Hle. induction Hle as [|b' Hle IH]; intros Hb; [done|].
  rewrite start_of_S by lia. specialize (IH ltac:(lia)).
  pose proof (bl_count_nonneg L (Z.of_nat b')).
  assert (0 < 2 ^ (16 - Z.of_nat b')) by (apply Z.pow_pos_nonneg; lia). nia.
Qed.

(** *** Growing a list of lengths *)

Lemma filter_Forall_ext {A} (P Q : A → Prop) `{∀ x, Decision (P x)} `{∀ x, Decision (Q x)} l :
  Forall (λ x, P x ↔ Q x) l → filter P l = filter Q l.
Proof.
  induction 1 as [|x l Hx _ IH]; [done|]. rewrite !filter_cons, IH.
  case_decide; case_decide; tauto || done.
Qed.

Lemma symbols_snoc L x b :
  symbols (L ++ [x]) b = symbols L b ++ (if decide (x = b) then [Zlen L] else []).
Proof.
  unfold symbols. rewrite length_app, Nat2Z.inj_add. cbn [length].
  rewrite seqZ_app by lia. rewrite filter_app. f_equal.
  - apply filter_Forall_ext. apply Forall_forall. intros sym Hsym. apply elem_of_seqZ in Hsym.
    by rewrite lookup_app_l by lia.
  - change (seqZ (0 + Zlen L) (Z.of_nat 1)) with [Zlen L]. rewrite filter_cons, filter_nil.
    rewrite lookup_app_r, Nat2Z.id, Nat.sub_diag by lia. cbn [lookup list_lookup].
    case_decide as H1; case_decide as H2; simplify_eq; done.
Qed.

Lemma symbols_nil b : symbols [] b = [].
Proof. done. Qed.

Lemma symbols_range L b k sym : symbols L b !! k = Some sym → 0 ≤ sym < Zlen L.
Proof.
  intros Hk. apply list_elem_of_lookup_2 in Hk. unfold symbols in Hk.
  rewrite list_elem_of_filter, elem_of_seqZ in Hk. lia.
Qed.

(** Symbols of shorter lengths. *)
Fixpoint cum_count (L : list Z) (b : nat) : Z :=
  match b with
  | O => 0
  | S b' => cum_count L b' + bl_count L (Z.of_nat b')
  end.

Lemma cum_count_le L b b' : (b ≤ b')%nat → cum_count L b ≤ cum_count L b'.
Proof.
  intros Hle. induction Hle as [|b' Hle IH]; [done|]. cbn [cum_count].
  pose proof (bl_count_nonneg L (Z.of_nat b')). lia.
Qed.

Lemma bl_count_snoc L x b : 1 ≤ b → bl_count (L ++ [x]) b = bl_count L b + (if decide (x = b) then 1 else 0).
Proof.
  intros. unfold bl_count. rewrite (proj2 (Z.eqb_neq b 0)) by lia.
  rewrite symbols_snoc, length_app. case_decide; cbn; lia.
Qed.

Lemma bl_count_nil b : bl_count [] b = 0.
Proof. unfold bl_count. by case_match. Qed.

Lemma cum_count_snoc L x b :
  cum_count (L ++ [x]) b = cum_count L b + (if decide (1 ≤ x < Z.of_nat b) then 1 else 0).
Proof.
  induction b as [|b IH]; cbn [cum_count]; [case_decide; lia|].
  rewrite IH. destruct (decide (b = 0%nat)) as [->|].
  { change (bl_count (L ++ [x]) (Z.of_nat 0)) with 0. change (bl_count L (Z.of_nat 0)) with 0.
    repeat case_decide; lia. }
  rewrite bl_count_snoc by lia. repeat case_decide; lia.
Qed.

Lemma cum_count_total L b : cum_count L b ≤ Zlen L.
Proof.
  induction L as [|x L IH] using rev_ind.
  - cut (cum_count [] b = 0); [cbn; lia|]. induction b as [|b IH]; [done|]. cbn [cum_count]. rewrite IH.
    unfold bl_count. case_match; done.
  - rewrite cum_count_snoc, length_app. cbn [length]. case_decide; lia.
Qed.

(** ** Construction of an alphabet *)

(** The symbol sets as a function of the length. *)
Definition sets (f : Z → deflate_huf_symbols) : list deflate_huf_symbols := map f (seqZ 1 15).

Lemma sets_ext f g : (∀ b, 1 ≤ b ≤ 15 → f b = g b) → sets f = sets g.
Proof. intros Hfg. apply map_ext_in. intros b Hb. apply Hfg. apply list_elem_of_In, elem_of_seqZ in Hb. lia. Qed.

Lemma lookup_sets f (i : nat) : (i < 15)%nat → sets f !! i = Some (f (Z.of_nat i + 1)).
Proof.
  intros Hi. unfold sets. rewrite list_lookup_fmap. rewrite lookup_seqZ_lt by lia. cbn. do 2 f_equal. lia.
Qed.

Lemma huf_sym_sets b f : 1 ≤ b ≤ 15 → huf_sym b (sets f) = f b.
Proof. intros Hb. unfold huf_sym. rewrite lookup_sets by lia. cbn. f_equal. lia. Qed.

Lemma upd_sets b s f :
  1 ≤ b ≤ 15 → upd_huf_sym b s (sets f) = sets (λ j, if decide (j = b) then s else f j).
Proof.
  intros Hb. unfold upd_huf_sym. apply list_eq. intros i.
  destruct (decide (i < 15)%nat) as [Hi|Hi].
  - rewrite lookup_sets by done. destruct (decide (i = Z.to_nat (b - 1))) as [->|Hne].
    + rewrite list_lookup_insert_eq by (unfold sets; rewrite length_map, length_seqZ; lia).
      rewrite decide_True by lia. done.
    + rewrite list_lookup_insert_ne by done. rewrite lookup_sets by done. by rewrite decide_False by lia.
  - rewrite !lookup_ge_None_2; unfold sets; rewrite ?length_insert, ?length_map, ?length_seqZ; lia || done.
Qed.

(** The code lengths an alphabet is constructed from. *)
Definition code_lengths (lengths : bytes) (count offset : Z) : list Z :=
  map (λ raw, deflate_length lengths (raw + offset)) (seqZ 0 count).

Lemma length_code_lengths lengths count offset : 0 ≤ count → Zlen (code_lengths lengths count offset) = count.
Proof. intros. unfold code_lengths. rewrite length_map, length_seqZ. lia. Qed.

Lemma code_lengths_S lengths (n : nat) offset :
  code_lengths lengths (Z.of_nat (S n)) offset =
  code_lengths lengths (Z.of_nat n) offset ++ [deflate_length lengths (Z.of_nat n + offset)].
Proof.
  unfold code_lengths. replace (Z.of_nat (S n)) with (Z.of_nat n + 1) by lia.
  rewrite seqZ_app by lia. rewrite map_app. done.
Qed.

Lemma seqZ_S (n : nat) : seqZ 0 (Z.of_nat (S n)) = seqZ 0 (Z.of_nat n) ++ [Z.of_nat n].
Proof. replace (Z.of_nat (S n)) with (Z.of_nat n + 1) by lia. by rewrite seqZ_app by lia. Qed.

Lemma deflate_length_range lengths i : 0 ≤ deflate_length lengths i ≤ 15.
Proof.
  unfold deflate_length. change 0x0f with (2 ^ 4 - 1). rewrite land_mask by lia.
  pose proof (Z.mod_pos_bound (Z.shiftr (get lengths (i / 2)) (4 * (i mod 2))) (2 ^ 4)). lia.
Qed.

Lemma bl_count_le_length L b : bl_count L b ≤ Zlen L.
Proof.
  unfold bl_count. case_match; [lia|]. unfold symbols.
  pose proof (length_filter (λ sym, L !! Z.to_nat sym = Some b) (seqZ 0 (Zlen L))).
  rewrite length_seqZ in *. lia.
Qed.

Lemma count_symbols lengths offset (n : nat) :
  Z.of_nat n < 65536 →
  foldl (count_symbol lengths offset) (replicate (Z.to_nat DEFLATE_HUFFMAN_BITS) huf_zero) (seqZ 0 (Z.of_nat n)) =
  sets (λ b, HufSymbols 0 0 (bl_count (code_lengths lengths (Z.of_nat n) offset) b) 0 0).
Proof.
  induction n as [|n IH]; intros Hn; [done|].
  rewrite seqZ_S, foldl_app, IH, code_lengths_S by lia. cbn [foldl]. unfold count_symbol.
  set (x := deflate_length lengths (Z.of_nat n + offset)).
  pose proof (deflate_length_range lengths (Z.of_nat n + offset)) as Hx. fold x in Hx.
  set (L := code_lengths lengths (Z.of_nat n) offset).
  case (Z.eqb_spec x 0) as [Hx0|Hx0].
  - apply sets_ext. intros b Hb. rewrite bl_count_snoc, decide_False by lia. f_equal. lia.
  - rewrite huf_sym_sets by lia. rewrite upd_sets by lia. apply sets_ext. intros b Hb. cbn [hs_freq set_hs_freq].
    rewrite bl_count_snoc by lia. case_decide as Hd; case_decide; try congruence; [|by rewrite Z.add_0_r].
    subst. unfold set_hs_freq. cbn. f_equal. apply wrap_small.
    pose proof (bl_count_le_length L x). pose proof (bl_count_nonneg L x).
    unfold L in *. rewrite length_code_lengths in * by lia. unfold in_range. lia.
Qed.

(** The symbol sets after the second loop. *)
Definition built (L : list Z) (b : Z) : deflate_huf_symbols :=
  HufSymbols b (16 - b) (bl_count L b) (start_of L (Z.to_nat b)) (cum_count L (Z.to_nat b)).

Lemma next_code_bound L b : (1 ≤ b ≤ 16)%nat → kraft L (b - 1) ≤ 2 ^ 15 → next_code L b ≤ 2 ^ Z.of_nat b.
Proof.
  intros Hb Hk. destruct b as [|b]; [lia|]. rewrite Nat.sub_succ, Nat.sub_0_r in Hk.
  pose proof (next_code_kraft L b ltac:(lia)) as Hn.
  assert (2 ^ Z.of_nat (S b) * 2 ^ (15 - Z.of_nat b) = 2 ^ 16) as Hp.
  { rewrite <- Z.pow_add_r by lia. f_equal. lia. }
  assert (0 < 2 ^ (15 - Z.of_nat b)) by (apply Z.pow_pos_nonneg; lia). nia.
Qed.

Lemma full_kraft L b :
  (1 ≤ b ≤ 15)%nat → (next_code L b + bl_count L (Z.of_nat b) ≤ 2 ^ Z.of_nat b) ↔ (kraft L b ≤ 2 ^ 15).
Proof.
  intros Hb. pose proof (next_code_kraft L b ltac:(lia)) as Hn.
  change (next_code L (S b)) with (2 * (next_code L b + bl_count L (Z.of_nat b))) in Hn.
  assert (2 ^ Z.of_nat b * 2 ^ (15 - Z.of_nat b) = 2 ^ 15) as Hp.
  { rewrite <- Z.pow_add_r by lia. f_equal. lia. }
  assert (0 < 2 ^ (15 - Z.of_nat b)) by (apply Z.pow_pos_nonneg; lia). nia.
Qed.

Lemma populate_spec L (e n b : nat) :
  (e ≤ 15)%nat → Zlen L < 65536 → (b + n = S e)%nat → (1 ≤ b)%nat → kraft L (b - 1) ≤ 2 ^ 15 →
  ∃ r syms,
    populate_loop (Z.of_nat b) (next_code L b) (cum_count L b)
      (map (λ j, HufSymbols 0 0 (bl_count L j) 0 0) (seqZ (Z.of_nat b) (Z.of_nat n))) = (r, syms) ∧
    (r = Ok (next_code L (S e)) ∧ syms = map (built L) (seqZ (Z.of_nat b) (Z.of_nat n)) ∧ kraft L e ≤ 2 ^ 15 ∨
     r = Err EINVAL ∧ 2 ^ 15 < kraft L e).
Proof.
  intros He HL. revert b. induction n as [|n IH]; intros b Hbn Hb Hk.
  { assert (b = S e) as -> by lia. rewrite Nat.sub_succ, Nat.sub_0_r in Hk.
    eexists _, _. split; [reflexivity|]. left. split_and!; [reflexivity|reflexivity|exact Hk]. }
  rewrite seqZ_cons by lia. cbn [map populate_loop hs_freq].
  replace (Z.pred (Z.of_nat (S n))) with (Z.of_nat n) by lia.
  replace (Z.succ (Z.of_nat b)) with (Z.of_nat (S b)) by lia.
  replace (Z.of_nat b + 1) with (Z.of_nat (S b)) by lia.
  pose proof (next_code_bound L b ltac:(lia) Hk) as Hnb. pose proof (next_code_nonneg L b) as Hn0.
  pose proof (bl_count_le_length L (Z.of_nat b)) as Hbl. pose proof (bl_count_nonneg L (Z.of_nat b)) as Hbl0.
  assert (2 ^ Z.of_nat b ≤ 2 ^ 15) as Hpb by (apply Z.pow_le_mono_r; lia).
  rewrite (wrap_small 32 (next_code L b + _)) by (unfold in_range; lia).
  rewrite Z.shiftl_1_l. pose proof (full_kraft L b ltac:(lia)) as Hfull.
  case (Z.ltb_spec (2 ^ Z.of_nat b) (next_code L b + bl_count L (Z.of_nat b))) as [Hover|Hfits].
  { eexists _, _. split; [done|]. right. split; [done|].
    pose proof (kraft_le L b e ltac:(lia)). lia. }
  apply Hfull in Hfits as Hk'.
  rewrite (Z.shiftl_mul_pow2 _ 1) by lia.
  rewrite (wrap_small 32 (_ * 2 ^ 1)) by (unfold in_range; lia).
  pose proof (cum_count_total L b) as Hc. pose proof (cum_count_total L (S b)) as Hc'.
  assert (0 ≤ cum_count L b) as Hc0 by (apply (cum_count_le L 0 b); lia).
  rewrite (wrap_small 32 (cum_count L b + _)) by (unfold in_range; lia).
  destruct (IH (S b) ltac:(lia) ltac:(lia)) as (r & syms & Heq & Hr).
  { by replace (S b - 1)%nat with b by lia. }
  replace ((next_code L b + bl_count L (Z.of_nat b)) * 2 ^ 1) with (next_code L (S b)) by (cbn [next_code]; lia).
  change (cum_count L b + bl_count L (Z.of_nat b)) with (cum_count L (S b)). rewrite Heq.
  eexists _, _. split; [done|]. destruct Hr as [(-> & -> & ?)|(-> & ?)]; [left|right; done].
  split_and!; [done| |done]. f_equal. unfold built. rewrite Nat2Z.id. f_equal.
  rewrite Z.shiftl_mul_pow2 by lia. apply wrap_small. change (next_code L b * 2 ^ (16 - Z.of_nat b)) with (start_of L b).
  destruct b as [|b]; [lia|]. rewrite start_of_kraft by lia.
  rewrite Nat.sub_succ, Nat.sub_0_r in Hk. unfold in_range.
  pose proof (kraft_le L 0 b ltac:(lia)). cbn [kraft] in *. lia.
Qed.

Lemma bl_count_prefix L1 L2 b : bl_count L1 b ≤ bl_count (L1 ++ L2) b.
Proof.
  revert L1. induction L2 as [|x L2 IH]; intros L1; [by rewrite app_nil_r|].
  rewrite cons_middle, app_assoc. etransitivity; [|apply IH].
  destruct (decide (1 ≤ b)); [rewrite bl_count_snoc by done; case_decide; lia|].
  destruct (decide (b = 0)) as [->|]; [done|]. unfold bl_count. case_match; [done|].
  rewrite symbols_snoc, length_app. lia.
Qed.

(** The raw symbols of each length stored so far. *)
Definition stored (L L1 : list Z) (rawt : list Z) : Prop :=
  ∀ (b k : nat) sym, (1 ≤ b ≤ 15)%nat → symbols L1 (Z.of_nat b) !! k = Some sym →
    rawt !! (Z.to_nat (cum_count L b) + k)%nat = Some sym.

Lemma cum_count_nonneg L b : 0 ≤ cum_count L b.
Proof. apply (cum_count_le L 0 b). lia. Qed.

(** Ranges of the raw symbol table for different lengths do not overlap. *)
Lemma stored_apart L L1 L2 (b b' k : nat) sym :
  L = L1 ++ Z.of_nat b :: L2 → (1 ≤ b)%nat → (1 ≤ b')%nat → symbols L1 (Z.of_nat b') !! k = Some sym →
  cum_count L b' + Z.of_nat k ≠ cum_count L b + bl_count L1 (Z.of_nat b).
Proof.
  intros HL Hb Hb' Hk.
  assert (bl_count L1 (Z.of_nat b) < bl_count L (Z.of_nat b)) as Hlt.
  { pose proof (bl_count_prefix (L1 ++ [Z.of_nat b]) L2 (Z.of_nat b)) as Hp.
    rewrite bl_count_snoc, decide_True, <- app_assoc in Hp by lia. cbn [app] in Hp. rewrite <- HL in Hp. lia. }
  assert (Z.of_nat k < bl_count L1 (Z.of_nat b')) as Hk'.
  { apply lookup_lt_Some in Hk. unfold bl_count. rewrite (proj2 (Z.eqb_neq _ 0)) by lia. lia. }
  pose proof (bl_count_prefix L1 (Z.of_nat b :: L2) (Z.of_nat b')) as Hp. rewrite <- HL in Hp.
  pose proof (bl_count_nonneg L1 (Z.of_nat b)).
  destruct (lt_eq_lt_dec b b') as [[Hlt'| ->]|Hlt'].
  - pose proof (cum_count_le L (S b) b' ltac:(lia)) as Hc. cbn [cum_count] in Hc. lia.
  - lia.
  - pose proof (cum_count_le L (S b') b ltac:(lia)) as Hc. cbn [cum_count] in Hc. lia.
Qed.

Lemma stored_snoc L L1 L2 (b : nat) rawt :
  L = L1 ++ Z.of_nat b :: L2 → (1 ≤ b)%nat → Zlen L ≤ Zlen rawt → Zlen L < 65536 → stored L L1 rawt →
  stored L (L1 ++ [Z.of_nat b]) (<[Z.to_nat (cum_count L b + bl_count L1 (Z.of_nat b)) := u16 (Zlen L1)]> rawt).
Proof.
  intros HL Hb Hlen Hsmall Hst b' k sym Hb' Hk. rewrite symbols_snoc in Hk.
  pose proof (cum_count_nonneg L b) as Hc0. pose proof (cum_count_nonneg L b') as Hc0'.
  pose proof (bl_count_nonneg L1 (Z.of_nat b)) as Hn0.
  apply lookup_app_Some in Hk as [Hk|[Hge Hk]].
  - pose proof (stored_apart L L1 L2 b b' k sym HL Hb ltac:(lia) Hk).
    rewrite list_lookup_insert_ne by lia. by apply Hst.
  - case_decide as Heq; [|done]. apply Nat2Z.inj in Heq as <-.
    assert (Zlen (symbols L1 (Z.of_nat b)) = bl_count L1 (Z.of_nat b)) as Hbl.
    { unfold bl_count. by rewrite (proj2 (Z.eqb_neq _ 0)) by lia. }
    apply list_lookup_singleton_Some in Hk as [Hk <-].
    replace (Z.to_nat (cum_count L b) + k)%nat with (Z.to_nat (cum_count L b + bl_count L1 (Z.of_nat b))) by lia.
    rewrite wrap_small by (unfold in_range; rewrite HL, length_app in Hsmall; lia).
    apply list_lookup_insert_eq. pose proof (cum_count_total L (S b)) as Ht. cbn [cum_count] in Ht.
    pose proof (bl_count_prefix (L1 ++ [Z.of_nat b]) L2 (Z.of_nat b)) as Hp.
    rewrite bl_count_snoc, decide_True, <- app_assoc in Hp by lia. cbn [app] in Hp. rewrite <- HL in Hp. lia.
Qed.

(** The symbol sets while the raw symbols are being stored. *)
Definition storing (L L1 : list Z) (b : Z) : deflate_huf_symbols :=
  set_hs_raw (cum_count L (Z.to_nat b) + bl_count L1 b) (built L b).

Lemma code_lengths_prefix lengths (n m : nat) offset :
  (n ≤ m)%nat → ∃ L2, code_lengths lengths (Z.of_nat m) offset = code_lengths lengths (Z.of_nat n) offset ++ L2.
Proof.
  induction 1 as [|m Hle [L2 IH]]; [exists []; by rewrite app_nil_r|].
  eexists. by rewrite code_lengths_S, IH, <- app_assoc.
Qed.

Lemma store_symbols lengths offset (m n : nat) rawt :
  let L := code_lengths lengths (Z.of_nat m) offset in
  (n ≤ m)%nat → Z.of_nat m < 65536 → Z.of_nat m ≤ Zlen rawt →
  ∃ rawt', foldl (store_symbol lengths offset) (sets (built L), rawt) (seqZ 0 (Z.of_nat n)) =
             (sets (storing L (code_lengths lengths (Z.of_nat n) offset)), rawt') ∧
           stored L (code_lengths lengths (Z.of_nat n) offset) rawt' ∧ length rawt' = length rawt.
Proof.
  intros L Hn Hm Hr. assert (Zlen L = Z.of_nat m) as HlenL by (apply length_code_lengths; lia).
  induction n as [|n IH].
  { exists rawt. split_and!; [|by intros b k sym _|done]. change (seqZ 0 (Z.of_nat 0)) with (@nil Z). cbn [foldl].
    f_equal. apply sets_ext. intros b Hb.
    unfold storing. change (code_lengths lengths (Z.of_nat 0) offset) with (@nil Z).
    by rewrite bl_count_nil, Z.add_0_r. }
  destruct IH as (rawt1 & Heq & Hst & Hlen); [lia|].
  destruct (code_lengths_prefix lengths (S n) m offset Hn) as [L2 HL2]. fold L in HL2.
  rewrite seqZ_S, foldl_app, Heq, code_lengths_S in *. cbn [foldl store_symbol].
  set (L1 := code_lengths lengths (Z.of_nat n) offset) in *.
  assert (Zlen L1 = Z.of_nat n) as HlenL1 by (apply length_code_lengths; lia).
  set (x := deflate_length lengths (Z.of_nat n + offset)) in *.
  pose proof (deflate_length_range lengths (Z.of_nat n + offset)) as Hx. fold x in Hx.
  rewrite <- app_assoc in HL2. cbn [app] in HL2.
  case (Z.eqb_spec x 0) as [Hx0|Hx0].
  - exists rawt1. split_and!; [f_equal; apply sets_ext; intros b Hb| |done].
    + unfold storing. by rewrite bl_count_snoc, decide_False, Z.add_0_r by lia.
    + intros b k sym Hb Hk. rewrite symbols_snoc, decide_False, app_nil_r in Hk by lia. by apply Hst.
  - rewrite huf_sym_sets by lia. cbn [storing set_hs_raw hs_raw].
    rewrite upd_sets by lia. eexists. split_and!; [f_equal; apply sets_ext; intros b Hb| |by rewrite length_insert].
    + unfold storing. rewrite bl_count_snoc by lia. case_decide as Hd; case_decide; try congruence.
      * subst b. unfold set_hs_raw. cbn. f_equal. lia.
      * by rewrite Z.add_0_r.
    + replace x with (Z.of_nat (Z.to_nat x)) in * by lia. rewrite Nat2Z.id.
      rewrite <- HlenL1. apply (stored_snoc L L1 L2); done || lia.
Qed.

(** The finished symbol sets: raw pointers are indexed by codes. *)
Definition adjusted (L : list Z) (b : Z) : deflate_huf_symbols :=
  set_hs_raw (cum_count L (Z.to_nat b) - next_code L (Z.to_nat b)) (built L b).

(** The lookup table entry of a prefix is the greatest length up to [m] whose
    codes start at or below it. *)
Definition looks_up (L : list Z) (m : nat) (table : list Z) : Prop :=
  ∀ p, (p < 128)%nat → ∃ b : nat, table !! p = Some (Z.of_nat b - 1) ∧ (1 ≤ b ≤ m)%nat ∧
    ∀ b', (b < b' ≤ m)%nat → Z.of_nat p < start_of L b' / 2 ^ DEFLATE_HUFFMAN_QL_SHIFT.

Lemma start_of_shift L b : (b ≤ 16)%nat → Z.shiftr (start_of L b) (16 - Z.of_nat b) = next_code L b.
Proof.
  intros. rewrite Z.shiftr_div_pow2 by lia. unfold start_of. apply Z.div_mul.
  apply Z.pow_nonzero; lia.
Qed.

Lemma start_of_nonneg L b : 0 ≤ start_of L b.
Proof. unfold start_of. pose proof (next_code_nonneg L b). assert (0 ≤ 2 ^ (16 - Z.of_nat b)) by (apply Z.pow_nonneg; lia). nia. Qed.

Lemma looks_up_fill L m table :
  length table = 128%nat → (m = 0%nat ∨ looks_up L m table) →
  looks_up L (S m) (fill_lookup (Z.shiftr (start_of L (S m)) DEFLATE_HUFFMAN_QL_SHIFT) (Z.of_nat m) table).
Proof.
  intros Hlen Hold p Hp. pose proof (start_of_nonneg L (S m)) as Hs0.
  rewrite Z.shiftr_div_pow2 by done. set (q := start_of L (S m) / 2 ^ DEFLATE_HUFFMAN_QL_SHIFT).
  assert (0 ≤ q) as Hq by (apply Z.div_pos; done).
  unfold fill_lookup. rewrite Hlen. destruct (decide (Z.of_nat p < q)) as [Hlt|Hge].
  - destruct Hold as [->|Hold]; [change q with 0 in Hlt; lia|].
    destruct (Hold p Hp) as (b & Hb & Hbm & Hmax). exists b. split_and!; [|lia..|].
    + rewrite lookup_app_l by (rewrite length_take; lia). by rewrite lookup_take_lt by lia.
    + intros b' Hb'. destruct (decide (b' = S m)) as [->|]; [done|]. apply Hmax. lia.
  - exists (S m). split_and!; [|lia..|lia].
    rewrite lookup_app_r by (rewrite length_take; lia). rewrite lookup_replicate_2; [f_equal; lia|].
    rewrite length_take. lia.
Qed.

Lemma length_fill_lookup p v table : length (fill_lookup p v table) = length table.
Proof. unfold fill_lookup. rewrite length_app, length_take, length_replicate. lia. Qed.

Lemma adjusted_storing L (b : nat) :
  (b ≤ 15)%nat → let s := storing L L (Z.of_nat b) in
  set_hs_raw (hs_raw s - hs_freq s - Z.shiftr (hs_start s) (hs_shift s)) s = adjusted L (Z.of_nat b).
Proof.
  intros Hb s. unfold s, adjusted, storing, built, set_hs_raw. cbn [hs_bits hs_shift hs_freq hs_start hs_raw].
  rewrite Nat2Z.id, start_of_shift by lia. f_equal. lia.
Qed.

Lemma adjust_spec L (m : nat) table :
  length table = 128%nat → (m ≤ 15)%nat →
  ∃ table', foldl adjust_symbols (sets (storing L L), table) (seqZ 1 (Z.of_nat m)) =
              (sets (λ b, if decide (b ≤ Z.of_nat m) then adjusted L b else storing L L b), table') ∧
            (m = 0%nat ∨ looks_up L m table') ∧ length table' = 128%nat.
Proof.
  intros Hlen. induction m as [|m IH]; intros Hm.
  { exists table. split_and!; [|by left|done]. change (seqZ 1 (Z.of_nat 0)) with (@nil Z). reflexivity. }
  destruct IH as (table1 & Heq & Hlk & Hlen1); [lia|].
  replace (seqZ 1 (Z.of_nat (S m))) with (seqZ 1 (Z.of_nat m) ++ [Z.of_nat (S m)]).
  2: { replace (Z.of_nat (S m)) with (Z.of_nat m + 1) at 2 by lia. rewrite seqZ_app by lia. f_equal.
       change (seqZ (1 + Z.of_nat m) 1) with [1 + Z.of_nat m]. f_equal. lia. }
  rewrite foldl_app, Heq. cbn [foldl adjust_symbols]. rewrite huf_sym_sets by lia. rewrite decide_False by lia.
  rewrite adjusted_storing, upd_sets by lia.
  assert (hs_start (storing L L (Z.of_nat (S m))) = start_of L (S m)) as -> by (cbn [storing built set_hs_raw hs_start]; by rewrite Nat2Z.id).
  replace (Z.of_nat (S m) - 1) with (Z.of_nat m) by lia.
  eexists. split_and!; [f_equal; apply sets_ext; intros b Hb| |by rewrite length_fill_lookup].
  - case_decide as Hd; [subst b; by rewrite decide_True by lia|]. case_decide; case_decide; done || lia.
  - right. by apply looks_up_fill.
Qed.

(** ** Alphabets represent code lengths *)

Definition represents (a : deflate_alphabet) (L : list Z) : Prop :=
  huf a = sets (adjusted L) ∧ looks_up L 15 (lookup_table a) ∧ stored L L (raw a).

(** The space reserved for an alphabet of up to [count] symbols. *)
Definition alphabet_room (count : Z) (a : deflate_alphabet) : Prop :=
  length (lookup_table a) = 128%nat ∧ Zlen (raw a) = count.

Lemma alphabet_init_spec lengths a room count offset :
  0 ≤ count ≤ room → room < 65536 → alphabet_room room a →
  let L := code_lengths lengths count offset in
  ∃ a', deflate_alphabet_init lengths a count offset = (if decide (complete L) then Ok tt else Err EINVAL, a') ∧
        alphabet_room room a' ∧ (complete L → represents a' L).
Proof.
  intros Hc Hroom [Hlk Hraw]. assert (∃ n, count = Z.of_nat n) as [n ->] by (exists (Z.to_nat count); lia).
  intros L. unfold deflate_alphabet_init.
  assert (Zlen L = Z.of_nat n) as HlenL by (apply length_code_lengths; lia).
  rewrite count_symbols by lia. fold L. unfold sets.
  destruct (populate_spec L 15 15 1 ltac:(lia) ltac:(lia) ltac:(lia) ltac:(lia) ltac:(done)) as (r & syms & Heq & Hr).
  change (Z.of_nat 1) with 1 in Heq. change (Z.of_nat 15) with 15 in Heq.
  change (next_code L 1) with 0 in Heq. change (cum_count L 1) with 0 in Heq. rewrite Heq. clear Heq.
  destruct Hr as [(-> & -> & Hk)|(-> & Hk)].
  2: { assert (¬ complete L) as Hnc by (unfold complete; lia).
       eexists. rewrite decide_False by exact Hnc. split; [reflexivity|]. split; [done|]. intros Hc'. by destruct Hnc. }
  destruct (store_symbols lengths offset n n (raw a) ltac:(lia) ltac:(lia) ltac:(lia)) as (raw' & Hst & Hstored & Hraw').
  fold L in Hst, Hstored. change (map (built L) (seqZ (Z.of_nat 1) (Z.of_nat 15))) with (sets (built L)). rewrite Hst.
  destruct (adjust_spec L 15 (lookup_table a) Hlk ltac:(lia)) as (table' & Hadj & Hlook & Hlen).
  change (Z.of_nat 15) with DEFLATE_HUFFMAN_BITS in Hadj. rewrite Hadj.
  pose proof (next_code_kraft L 15 ltac:(lia)) as Hnk.
  change (2 ^ (15 - Z.of_nat 15)) with 1 in Hnk. rewrite Z.mul_1_r in Hnk.
  eexists. split_and!; [f_equal| |].
  - rewrite Hnk. change (Z.shiftl 1 (DEFLATE_HUFFMAN_BITS + 1)) with (2 * 2 ^ 15).
    destruct (decide (complete L)) as [Hd|Hd]; unfold complete in Hd;
      [rewrite (proj2 (Z.eqb_eq _ _)) by lia|rewrite (proj2 (Z.eqb_neq _ _)) by lia]; reflexivity.
  - split; cbn [lookup_table raw]; [done|lia].
  - intros _. split_and!; cbn [huf lookup_table raw]; [|by destruct Hlook|done].
    apply sets_ext. intros b Hb. by rewrite decide_True by (change DEFLATE_HUFFMAN_BITS with 15; lia).
Qed.

(** ** Decoding *)

(** The accumulated bits normalised to 16 bits. *)
Definition hval (l : list bool) : Z := mval l * 2 ^ (32 - Zlen l) / 2 ^ 16.

Lemma hval_range l : (length l ≤ 32)%nat → 0 ≤ hval l < 2 ^ 16.
Proof.
  intros Hl. pose proof (mval_range l) as Hm. pose proof (pow2_split (Zlen l) 32 ltac:(lia)) as Hp.
  assert (0 < 2 ^ (32 - Zlen l)) by (apply Z.pow_pos_nonneg; lia). unfold hval.
  split; [apply Z.div_pos; nia|]. apply Z.div_lt_upper_bound; [lia|]. change (2 ^ 16 * 2 ^ 16) with (2 ^ 32). nia.
Qed.

Lemma hval_top l (b : nat) :
  (b ≤ length l ≤ 32)%nat → (b ≤ 16)%nat → hval l / 2 ^ (16 - Z.of_nat b) = mval (take b l).
Proof.
  intros Hl Hb. unfold hval. rewrite Z.div_div by (lia || apply Z.pow_pos_nonneg; lia).
  rewrite <- Z.pow_add_r by lia. rewrite <- (mval_take b l) by lia.
  replace (16 + (16 - Z.of_nat b)) with (Z.of_nat (length l - b) + (32 - Zlen l)) by lia.
  rewrite Z.pow_add_r by lia. apply Z.div_mul_cancel_r; apply Z.pow_nonzero; lia.
Qed.

(** The length whose codes include a normalised value. *)
Definition chosen (L : list Z) (h : Z) (b : nat) : Prop :=
  (1 ≤ b ≤ 15)%nat ∧ start_of L b ≤ h ∧ ∀ b', (b < b' ≤ 15)%nat → h < start_of L b'.

Lemma chosen_unique L h b b' : chosen L h b → chosen L h b' → b = b'.
Proof.
  intros (Hb & Hs & Hm) (Hb' & Hs' & Hm'). destruct (lt_eq_lt_dec b b') as [[Hlt|Heq]|Hlt]; [|done|].
  - specialize (Hm b' ltac:(lia)). lia.
  - specialize (Hm' b ltac:(lia)). lia.
Qed.

Lemma find_huf_sym_spec L h (i : nat) :
  (i < 15)%nat → 0 ≤ h →
  ∃ b : nat, find_huf_sym h (sets (adjusted L)) i = adjusted L (Z.of_nat b) ∧ (1 ≤ b ≤ S i)%nat ∧
    start_of L b ≤ h ∧ ∀ b', (b < b' ≤ S i)%nat → h < start_of L b'.
Proof.
  intros Hi Hh. induction i as [|i IH]; unfold find_huf_sym; fold find_huf_sym; rewrite lookup_sets by lia; cbn [default from_option id].
  - exists 1%nat. split_and!; [done|lia..|exact Hh|lia].
  - replace (Z.of_nat (S i) + 1) with (Z.of_nat (S (S i))) by lia.
    assert (hs_start (adjusted L (Z.of_nat (S (S i)))) = start_of L (S (S i))) as Hs
      by (cbn [adjusted built set_hs_raw hs_start]; by rewrite Nat2Z.id).
    rewrite Hs. case (Z.ltb_spec h (start_of L (S (S i)))) as [Hlt|Hge].
    + destruct IH as (b & Heq & Hb & Hst & Hmax); [lia|]. exists b. split_and!; [done|lia..|done|].
      intros b' Hb'. destruct (decide (b' = S (S i))) as [->|]; [done|]. apply Hmax. lia.
    + exists (S (S i)). split_and!; [done|lia..|done|lia].
Qed.

(** The quick lookup followed by the search finds the length. *)
Lemma lookup_spec L a h :
  represents a L → 0 ≤ h < 2 ^ 16 →
  ∃ b : nat, chosen L h b ∧
    find_huf_sym h (huf a) (Z.to_nat (get (lookup_table a) (Z.shiftr h DEFLATE_HUFFMAN_QL_SHIFT))) =
    adjusted L (Z.of_nat b).
Proof.
  intros (Hhuf & Hlook & _) Hh. rewrite Hhuf, Z.shiftr_div_pow2 by done.
  assert (0 ≤ h / 2 ^ DEFLATE_HUFFMAN_QL_SHIFT < 128) as Hq.
  { change (2 ^ DEFLATE_HUFFMAN_QL_SHIFT) with 512. change (2 ^ 16) with 65536 in Hh.
    split; [apply Z.div_pos; lia|apply Z.div_lt_upper_bound; lia]. }
  destruct (Hlook (Z.to_nat (h / 2 ^ DEFLATE_HUFFMAN_QL_SHIFT)) ltac:(lia)) as (b0 & Hb0 & Hr0 & Hm0).
  unfold get. rewrite Hb0. cbn [default from_option id].
  replace (Z.to_nat (Z.of_nat b0 - 1)) with (b0 - 1)%nat by lia.
  destruct (find_huf_sym_spec L h (b0 - 1) ltac:(lia) ltac:(lia)) as (b & Hf & Hb & Hs & Hm).
  exists b. split; [|exact Hf]. split_and!; [lia..|done|]. intros b' Hb'.
  destruct (decide (b' ≤ S (b0 - 1))%nat); [apply Hm; lia|].
  specialize (Hm0 b' ltac:(lia)). rewrite Z2Nat.id in Hm0 by lia.
  destruct (decide (start_of L b' ≤ h)) as [Hle|]; [|lia].
  apply (Z.div_le_mono _ _ (2 ^ DEFLATE_HUFFMAN_QL_SHIFT)) in Hle; [lia|done].
Qed.

(** *** Codes and the lengths chosen for them *)

Lemma complete_kraft L b : complete L → (b ≤ 15)%nat → kraft L b ≤ 2 ^ 15.
Proof. intros Hc Hb. unfold complete in Hc. rewrite <- Hc. by apply kraft_le. Qed.

Lemma symbols_lookup_lt L (b k : nat) sym :
  (1 ≤ b)%nat → symbols L (Z.of_nat b) !! k = Some sym → Z.of_nat k < bl_count L (Z.of_nat b).
Proof.
  intros Hb Hk. apply lookup_lt_Some in Hk. unfold bl_count. rewrite (proj2 (Z.eqb_neq _ 0)) by lia. lia.
Qed.

(** The value of the code of the [k]th symbol of a length fits in it. *)
Lemma code_value L (b k : nat) :
  complete L → (1 ≤ b ≤ 15)%nat → Z.of_nat k < bl_count L (Z.of_nat b) →
  mval (msb b (next_code L b + Z.of_nat k)) = next_code L b + Z.of_nat k.
Proof.
  intros Hc Hb Hk. rewrite mval_msb. apply Z.mod_small.
  pose proof (next_code_nonneg L b). pose proof (full_kraft L b Hb) as [_ Hf].
  specialize (Hf (complete_kraft L b Hc ltac:(lia))). lia.
Qed.

Lemma start_between L (b : nat) h k :
  (b ≤ 15)%nat → h / 2 ^ (16 - Z.of_nat b) = next_code L b + k →
  (0 ≤ k → start_of L b ≤ h) ∧ (k < bl_count L (Z.of_nat b) → h < start_of L (S b)).
Proof.
  intros Hb Hh. rewrite start_of_S by done. unfold start_of.
  assert (0 < 2 ^ (16 - Z.of_nat b)) as Hp by (apply Z.pow_pos_nonneg; lia).
  pose proof (Z.div_mod h (2 ^ (16 - Z.of_nat b)) ltac:(lia)) as Hdm.
  pose proof (Z.mod_pos_bound h (2 ^ (16 - Z.of_nat b)) Hp). rewrite Hh in Hdm. split; intros; nia.
Qed.

Lemma code_chosen L sym c l :
  complete L → huff L sym c → (length l ≤ 32)%nat → c `prefix_of` l → chosen L (hval l) (length c).
Proof.
  intros Hc (b & k & Hb & Hk & ->) Hl [l' Hpre].
  pose proof (symbols_lookup_lt L b k sym ltac:(lia) Hk) as Hkb. rewrite length_msb.
  assert (length l = (b + length l')%nat) as Hlen by (rewrite Hpre, length_app, length_msb; done).
  pose proof (hval_top l b ltac:(lia) ltac:(lia)) as Htop.
  rewrite Hpre in Htop at 2. rewrite take_app_length' in Htop by (by rewrite length_msb).
  rewrite code_value in Htop by done.
  destruct (start_between L b (hval l) (Z.of_nat k) ltac:(lia) Htop) as [Hlo Hhi].
  split_and!; [lia..|apply Hlo; lia|]. intros b' Hb'. specialize (Hhi Hkb).
  pose proof (start_of_le L (S b) b' ltac:(lia) ltac:(lia)). lia.
Qed.

(** No code is a prefix of another. *)
Lemma huff_prefix_free L sym1 c1 sym2 c2 x1 x2 :
  complete L → huff L sym1 c1 → huff L sym2 c2 → c1 ++ x1 = c2 ++ x2 → sym1 = sym2 ∧ c1 = c2.
Proof.
  intros Hc H1 H2 Heq.
  assert (length c1 ≤ 15 ∧ length c2 ≤ 15)%nat as [Hl1 Hl2].
  { destruct H1 as (b1 & k1 & ? & _ & ->), H2 as (b2 & k2 & ? & _ & ->). rewrite !length_msb. lia. }
  assert (length c1 = length c2) as Hlen.
  { set (l := take 15 (c1 ++ x1)).
    assert (c1 `prefix_of` l ∧ c2 `prefix_of` l) as [Hp1 Hp2].
    { unfold l. split; [rewrite take_app_ge by done|rewrite Heq, take_app_ge by done]; eexists; done. }
    assert (length l ≤ 32)%nat by (unfold l; rewrite length_take; lia).
    eapply (chosen_unique L (hval l)); eapply code_chosen; done. }
  apply app_inj_1 in Heq as [-> _]; [|done]. split; [|done].
  destruct H1 as (b1 & k1 & Hb1 & Hs1 & Hc1), H2 as (b2 & k2 & Hb2 & Hs2 & Hc2).
  assert (b1 = b2) as -> by (apply (f_equal length) in Hc1, Hc2; rewrite length_msb in *; lia).
  rewrite Hc1 in Hc2. apply (f_equal mval) in Hc2.
  rewrite !code_value in Hc2 by (done || eapply symbols_lookup_lt; done || lia).
  assert (k1 = k2) as -> by lia. congruence.
Qed.

(** The bits chosen form a code, and the raw symbol found is the one it encodes. *)
Lemma chosen_code L a l (b : nat) :
  complete L → represents a L → (length l ≤ 32)%nat → chosen L (hval l) b → (b ≤ length l)%nat →
  ∃ sym, huff L sym (take b l) ∧ 0 ≤ sym < Zlen L ∧
    get (raw a) (hs_raw (adjusted L (Z.of_nat b)) + Z.shiftr (hval l) (hs_shift (adjusted L (Z.of_nat b)))) = sym.
Proof.
  intros Hc (_ & _ & Hst) Hl (Hb & Hlo & Hhi) Hbl.
  set (k := hval l / 2 ^ (16 - Z.of_nat b) - next_code L b).
  assert (hval l / 2 ^ (16 - Z.of_nat b) = next_code L b + k) as Hk by lia.
  assert (0 < 2 ^ (16 - Z.of_nat b)) as Hp by (apply Z.pow_pos_nonneg; lia).
  assert (hval l < start_of L (S b)) as Hhi'.
  { destruct (decide (b = 15%nat)) as [->|]; [|apply Hhi; lia].
    rewrite start_of_kraft by lia. unfold complete in Hc. rewrite Hc. by apply hval_range. }
  assert (0 ≤ k < bl_count L (Z.of_nat b)) as Hkr.
  { rewrite start_of_S in Hhi' by lia. unfold start_of in *.
    pose proof (Z.div_mod (hval l) (2 ^ (16 - Z.of_nat b)) ltac:(lia)) as Hdm.
    pose proof (Z.mod_pos_bound (hval l) (2 ^ (16 - Z.of_nat b)) Hp). rewrite Hk in Hdm. split; nia. }
  destruct (lookup_lt_is_Some_2 (symbols L (Z.of_nat b)) (Z.to_nat k)) as [sym Hsym].
  { unfold bl_count in Hkr. rewrite (proj2 (Z.eqb_neq _ 0)) in Hkr by lia. lia. }
  exists sym. split_and!; [|by apply (symbols_range L _ _ _ Hsym)..|].
  - exists b, (Z.to_nat k). split_and!; [lia..|done|]. rewrite Z2Nat.id by lia. rewrite <- Hk, hval_top by lia.
    rewrite <- (msb_mval (take b l)) at 1. by rewrite length_take, Nat.min_l by lia.
  - cbn [adjusted built set_hs_raw hs_raw hs_shift]. rewrite Nat2Z.id, Z.shiftr_div_pow2, Hk by lia.
    unfold get. replace (Z.to_nat (cum_count L b - next_code L b + (next_code L b + k)))
      with (Z.to_nat (cum_count L b) + Z.to_nat k)%nat by (pose proof (cum_count_nonneg L b); lia).
    by rewrite (Hst b (Z.to_nat k) sym).
Qed.

Section decode.
Context `{Platform}.

(** Either the next code is decoded, or all the input has been read and no code
    is complete. *)
Lemma decode_spec L a b c l s :
  complete L → represents a L → reads b c l s → (length l ≤ 23)%nat →
  ∃ v b' n l', deflate_decode b c a = (v, b', advanced n c) ∧ (length l' ≤ 23)%nat ∧ (n ≤ length (unread c))%nat ∧
    ((v < 0 ∧ l' = s ∧ reads b' (advanced n c) l' s ∧ unread (advanced n c) = [] ∧
        ∀ sym code, huff L sym code → ¬ code `prefix_of` s) ∨
     (∃ code s', 0 ≤ v < Zlen L ∧ huff L v code ∧ s = code ++ s' ∧ reads b' (advanced n c) l' s')).
Proof.
  intros Hc Ha Hr Hl. unfold deflate_decode.
  destruct (accumulate_spec DEFLATE_HUFFMAN_BITS b c l s Hr) as (b' & n & l' & -> & Hr' & Hend & Hn & Hmax & Hun).
  { unfold target_ok. change DEFLATE_HUFFMAN_BITS with 15. lia. }
  change DEFLATE_HUFFMAN_BITS with 15 in *. destruct Hr' as (Hh & Hok & Hs).
  assert (u16 (Z.shiftr (rotalumucca b') 16) = hval l') as ->.
  { destruct Hh as (_ & _ & -> & Hl32). rewrite Z.shiftr_div_pow2 by lia. apply wrap_small, hval_range. lia. }
  assert (bits b' = Zlen l') as -> by apply Hh.
  destruct (lookup_spec L a (hval l') Ha) as (bl & Hch & ->); [apply hval_range; lia|].
  change (hs_bits (adjusted L (Z.of_nat bl))) with (Z.of_nat bl).
  pose proof Hch as (Hbl & _).
  case (Z.ltb_spec (Zlen l' - Z.of_nat bl) 0) as [Hlt|Hge].
  - assert (unread (advanced n c) = []) as Hnil by (destruct Hend; [lia|done]).
    assert (l' = s) as <- by (rewrite Hs, Hnil; by rewrite app_nil_r).
    eexists _, b', n, l'. split_and!; [done|lia|done|]. left. split_and!; [lia|done|by split_and!|done|].
    intros sym code Hcode Hpre.
    pose proof (code_chosen L sym code l' Hc Hcode ltac:(lia) Hpre) as Hch'.
    pose proof (chosen_unique _ _ _ _ Hch Hch') as ->. apply prefix_length in Hpre. lia.
  - destruct (chosen_code L a l' bl Hc Ha ltac:(lia) Hch ltac:(lia)) as (sym & Hcode & Hsr & ->).
    rewrite <- (take_drop bl l') in Hh. destruct (consume_holds _ _ _ Hh) as (b'' & Hcons & Hh').
    rewrite length_take, Nat.min_l in Hcons by lia. rewrite Hcons.
    exists sym, b'', n, (drop bl l'). split_and!; [done|rewrite length_drop; lia|done|]. right.
    exists (take bl l'), (drop bl l' ++ bits_of (unread (advanced n c))). split_and!; [lia..|done| |].
    + by rewrite app_assoc, take_drop.
    + by split_and!.
Qed.

(** C25: Constructing a Huffman alphabet from code lengths succeeds exactly for
    complete codes, and then the alphabet implements the canonical code of those
    lengths: decoding consumes the next code of the stream and returns its
    symbol, whether or not more input follows it, or leaves the stream as it is
    when the bits available do not contain a whole code. *)
Theorem huffman_correct lengths a room count offset :
  0 ≤ count ≤ room → room < 65536 → alphabet_room room a →
  let L := code_lengths lengths count offset in
  ∃ a', deflate_alphabet_init lengths a count offset = (if decide (complete L) then Ok tt else Err EINVAL, a') ∧
    (complete L → ∀ b c l s, reads b c l s → (length l ≤ 23)%nat →
       ∃ v b' c' l', deflate_decode b c a' = (v, b', c') ∧
         ((∃ code s', 0 ≤ v ∧ huff L v code ∧ s = code ++ s' ∧ reads b' c' l' s') ∨
          (v < 0 ∧ reads b' c' l' s ∧ ∀ sym code, huff L sym code → ¬ code `prefix_of` s))).
Proof.
  intros Hcount Hroom Ha L.
  destruct (alphabet_init_spec lengths a room count offset Hcount Hroom Ha) as (a' & Heq & _ & Hrep).
  exists a'. split; [exact Heq|]. intros Hc b c l s Hr Hl.
  destruct (decode_spec L a' b c l s Hc (Hrep Hc) Hr Hl) as (v & b' & n & l' & Hdec & _ & _ & Hcases).
  exists v, b', (advanced n c), l'. split; [exact Hdec|].
  destruct Hcases as [(? & -> & ? & _ & ?)|(code & s' & ? & ? & ? & ?)]; [right; done|left].
  exists code, s'. split_and!; [lia|done..].
Qed.

End decode.

(** Three symbols of one, two and two bits. *)
Lemma huffman_correct_witness :
  complete (code_lengths [0x21; 0x02] 3 0) ∧
  ∃ a', deflate_alphabet_init [0x21; 0x02] (zero_alphabet 32) 3 0 =
          (if decide (complete (code_lengths [0x21; 0x02] 3 0)) then Ok tt else Err EINVAL, a').
Proof.
  split; [by vm_compute|].
  destruct (huffman_correct (H := i386) [0x21; 0x02] (zero_alphabet 32) 32 3 0) as (a' & Heq & _).
  - lia.
  - lia.
  - by split; vm_compute.
  - exists a'. exact Heq.
Defined.
