(* ===== verification/DeflateTotal.v ===== *)
(** * The decompressor returns on every input and stays within its buffers

    An invariant of the state machine of Deflate.v that holds at every label for
    arbitrary input, valid or not: the accumulators hold the same bits in both
    orders and never overflow, alphabets are complete where they are used, and
    counts fit the arrays. With it, every step of the machine uses up input or
    moves forward, so that a call returns. *)

From S2P Require Import Prelude Deflate Huffman.

(** The bits in a buffer. *)
Definition held (b : bit_buffer) : list bool := lsb (Z.to_nat (bits b)) (accumulator b).

Lemma holds_held b l : holds b l → held b = l.
Proof.
  intros (Hb & Ha & _ & _). unfold held. rewrite Hb, Ha, Nat2Z.id. apply lsb_lval.
Qed.

(** A buffer ready for another extraction. *)
Definition buffer_ok (b : bit_buffer) : Prop := holds b (held b) ∧ (length (held b) ≤ 23)%nat.

Section total.
Context `{Platform}.

(** The bits ahead of the decompressor within the current chunk. *)
Definition stream (b : bit_buffer) (c : deflate_chunk) : list bool := held b ++ bits_of (unread c).

Lemma length_stream b c :
  holds b (held b) → chunk_ok c → Zlen (stream b c) = bits b + 8 * (chunk_len c - chunk_offset c).
Proof.
  intros (Hb & _) Hc. unfold stream. rewrite length_app, length_bits_of.
  pose proof (length_unread c Hc). lia.
Qed.

Lemma reads_held b c l s : reads b c l s → held b = l ∧ stream b c = s ∧ chunk_ok c ∧ holds b (held b).
Proof.
  intros (Hh & Hc & ->). pose proof (holds_held b l Hh) as Hl. unfold stream. rewrite Hl. done.
Qed.

Lemma held_reads b c : holds b (held b) → chunk_ok c → reads b c (held b) (stream b c).
Proof. intros. by split_and!. Qed.

(** A chunk read to its end, and one from which bytes have been read. *)
Definition read_on (c c' : deflate_chunk) : Prop := ∃ n, c' = advanced n c ∧ (n ≤ length (unread c))%nat.

(** ** Extracting bits and codes *)

(** What [extract] does: it blocks, having read all input, or continues with the
    bits at the head of the stream. *)
Lemma extract_cases t l d c out k :
  buffer_ok (buffer d) → chunk_ok c → 0 ≤ t ≤ 16 →
  (∃ b' c', extract t l d c out k = Return (Ok tt) (set_resume (Some l) (set_buffer b' d)) c' out ∧
     read_on c c' ∧ chunk_ok c' ∧ buffer_ok b' ∧ unread c' = [] ∧
     stream b' c' = stream (buffer d) c ∧ Zlen (stream (buffer d) c) < t ∧
     Zlen (held b') mod 8 = Zlen (held (buffer d)) mod 8) ∨
  (∃ v b' c', extract t l d c out k = k v (set_buffer b' d) c' ∧
     read_on c c' ∧ chunk_ok c' ∧ buffer_ok b' ∧ 0 ≤ v < 2 ^ t ∧
     stream (buffer d) c = lsb (Z.to_nat t) v ++ stream b' c' ∧
     Zlen (held b') mod 8 = (Zlen (held (buffer d)) - t) mod 8 ∧
     (t ≠ 0 → Zlen (held b') ≤ Z.max (Zlen (held (buffer d)) - t) 7)).
Proof.
  intros [Hb Hl] Hc Ht. unfold extract.
  destruct (extract_spec t _ c _ _ (held_reads _ c Hb Hc) Ht Hl) as (v & b' & n & l' & -> & Hl' & Hn & Hmod & Hcases).
  destruct Hcases as [(Hv & Hs & Heq & Hr & Hun)|(s' & Hs & Hv & Hr & Hmax)];
    destruct (reads_held _ _ _ _ Hr) as (Hh & Hst & Hc' & Hb').
  - left. exists b', (advanced n c). rewrite (proj2 (Z.ltb_lt v 0)) in * by lia. rewrite Hh in *.
    unfold buffer_ok. rewrite Hh. split_and!; try done; [by exists n|by rewrite Hmod; f_equal; lia].
  - right. exists v, b', (advanced n c). rewrite (proj2 (Z.ltb_ge v 0)) in * by lia. rewrite Hst.
    unfold buffer_ok. rewrite Hh in *. split_and!; try done; [by exists n|lia..].
Qed.

(** The same for [decode] with a complete code. *)
Lemma decode_cases L a l d c out k :
  complete L → represents a L → buffer_ok (buffer d) → chunk_ok c →
  (∃ b' c', decode a l d c out k = Return (Ok tt) (set_resume (Some l) (set_buffer b' d)) c' out ∧
     read_on c c' ∧ chunk_ok c' ∧ buffer_ok b' ∧ unread c' = [] ∧
     stream b' c' = stream (buffer d) c ∧
     ∀ sym code, huff L sym code → ¬ code `prefix_of` stream (buffer d) c) ∨
  (∃ v code b' c', decode a l d c out k = k v (set_buffer b' d) c' ∧
     read_on c c' ∧ chunk_ok c' ∧ buffer_ok b' ∧ 0 ≤ v < Zlen L ∧ huff L v code ∧
     stream (buffer d) c = code ++ stream b' c').
Proof.
  intros HL Ha [Hb Hl] Hc. unfold decode.
  destruct (decode_spec L a _ c _ _ HL Ha (held_reads _ c Hb Hc) Hl) as (v & b' & n & l' & -> & Hl' & Hn & Hcases).
  destruct Hcases as [(Hv & Heq & Hr & Hun & Hno)|(code & s' & Hv & Hcode & Hs & Hr)];
    destruct (reads_held _ _ _ _ Hr) as (Hh & Hst & Hc' & Hb').
  - left. exists b', (advanced n c). rewrite (proj2 (Z.ltb_lt v 0)) in * by lia.
    unfold buffer_ok. rewrite Hh in *. split_and!; try done. by exists n.
  - right. exists v, code, b', (advanced n c). rewrite (proj2 (Z.ltb_ge v 0)) in * by lia. rewrite Hst.
    unfold buffer_ok. rewrite Hh in *. split_and!; try done; [by exists n|lia..].
Qed.

Lemma discard_spec b :
  buffer_ok b →
  let b' := deflate_discard_to_byte b in
  holds b' (held b') ∧ held b' = drop (length (held b) mod 8) (held b).
Proof.
  intros [Hb Hl] b'. assert (bits b = Zlen (held b)) as Hbits by apply Hb.
  set (n := (length (held b) mod 8)%nat). assert (n ≤ length (held b))%nat as Hn by (apply Nat.Div0.mod_le).
  rewrite <- (take_drop n (held b)) in Hb. destruct (consume_holds _ _ _ Hb) as (b1 & Hcons & Hh).
  assert (b' = b1) as ->.
  { unfold b', deflate_discard_to_byte. change 7 with (2 ^ 3 - 1). rewrite land_mask, Hbits by lia.
    change (2 ^ 3) with 8. replace (Zlen (held b) mod 8) with (Zlen (take n (held b))); [by rewrite Hcons|].
    rewrite length_take, Nat.min_l by done. unfold n. by rewrite Nat2Z.inj_mod. }
  rewrite (holds_held _ _ Hh). split; [|done]. by rewrite (holds_held _ _ Hh) in Hh || exact Hh.
Qed.

(** ** The invariant *)

(** How full the buffer is at a label, and where it is on a byte boundary. *)
Definition aligned (n : Z) (b : bit_buffer) : Prop :=
  holds b (held b) ∧ (8 | Zlen (held b)) ∧ Zlen (held b) ≤ n.

Definition buffer_at (l : label) (b : bit_buffer) : Prop :=
  match l with
  | literal_len | literal_nlen => aligned 16 b
  | literal_data => aligned 0 b
  | zlib_adler32 => aligned 32 b
  | finished => holds b (held b)
  | _ => buffer_ok b
  end.

(** The arrays have the sizes of the source, and counts fit them. *)
Definition room (d : deflate) : Prop :=
  length (lengths d) = 160%nat ∧ alphabet_room 288 (litlen d) ∧ alphabet_room 32 (distance_codelen d) ∧
  0 ≤ litlen_count d ≤ 288 ∧ 0 ≤ distance_count d ≤ 32.

(** The alphabets in use are complete codes. *)
Definition codelens_ok (d : deflate) : Prop :=
  ∃ Lc, complete Lc ∧ represents (distance_codelen d) Lc ∧ Zlen Lc ≤ 19.

Definition codes_ok (d : deflate) : Prop :=
  ∃ Ll Ld, complete Ll ∧ represents (litlen d) Ll ∧ Zlen Ll ≤ 288 ∧
           complete Ld ∧ represents (distance_codelen d) Ld ∧ Zlen Ld ≤ 32.

Definition fields_at (l : label) (d : deflate) : Prop :=
  match l with
  | literal_nlen | literal_data => 0 ≤ remaining d < 65536
  | dynamic_litlen_distance => codelens_ok d
  | dynamic_litlen_distance_extra => codelens_ok d ∧ 0 ≤ extra_bits d ≤ 16
  | lzhuf_litlen => codes_ok d
  | lzhuf_distance => codes_ok d ∧ 0 ≤ dup_len d
  | lzhuf_litlen_extra | lzhuf_distance_extra => codes_ok d ∧ 0 ≤ dup_len d ∧ 0 ≤ extra_bits d ≤ 16
  | _ => True
  end.

Definition wf (l : label) (d : deflate) : Prop :=
  buffer_at l (buffer d) ∧ room d ∧ fields_at l d.

(** The output buffer is changed within its length only. *)
Definition within (out out' : deflate_chunk) : Prop :=
  chunk_len out' = chunk_len out ∧ length (chunk_data out') = length (chunk_data out) ∧
  drop (Z.to_nat (chunk_len out)) (chunk_data out') = drop (Z.to_nat (chunk_len out)) (chunk_data out) ∧
  (0 ≤ chunk_offset out → 0 ≤ chunk_offset out').

#[global] Instance within_preorder : PreOrder within.
Proof.
  split; [by intros out|]. intros o1 o2 o3 (H1 & H2 & H3 & H4) (H1' & H2' & H3' & H4').
  unfold within. rewrite <- H3, <- H1, H3', H1', H2', H2. rewrite H1 in *. by eauto 10.
Qed.

#[global] Instance read_on_preorder_ok : Reflexive read_on.
Proof. intros c. exists 0%nat. destruct c. unfold advanced. cbn. split; [f_equal; lia|lia]. Qed.

Lemma read_on_trans c1 c2 c3 : chunk_ok c1 → read_on c1 c2 → read_on c2 c3 → read_on c1 c3.
Proof.
  intros Hc (n & -> & Hn) (m & -> & Hm). exists (n + m)%nat. rewrite unread_advanced, length_drop in Hm by done.
  split; [unfold advanced; cbn; f_equal; lia|lia].
Qed.

(** Labels ordered so that a step that uses no bits goes down. *)
Definition rank (l : label) : Z :=
  match l with
  | literal_block | static_block | dynamic_litlen_distance_extra | lzhuf_distance_extra => 14
  | literal_len | construct_alphabets | lzhuf_litlen_extra => 13
  | literal_nlen | lzhuf_litlen => 12
  | literal_data | dynamic_codelen => 11
  | dynamic_litlen_distance | lzhuf_distance => 10
  | block_done => 3
  | block_header | zlib_footer => 2
  | zlib_adler32 => 1
  | zlib_header | dynamic_header | finished => 0
  end.

Definition measure (l : label) (d : deflate) (c : deflate_chunk) : Z := 16 * Zlen (stream (buffer d) c) + rank l.

(** What every step achieves. *)
Definition progress (l : label) (d : deflate) (c out : deflate_chunk) (o : outcome) : Prop :=
  match o with
  | Goto l' d' c' out' =>
      wf l' d' ∧ chunk_ok c' ∧ read_on c c' ∧ within out out' ∧ measure l' d' c' < measure l d c
  | Return rc d' c' out' =>
      chunk_ok c' ∧ read_on c c' ∧ within out out' ∧
      (rc = Ok tt → resume d' = None ∨ ∃ l', resume d' = Some l' ∧ wf l' d' ∧ unread c' = [])
  end.

Lemma rank_range l : 0 ≤ rank l < 16.
Proof. destruct l; cbn; lia. Qed.

(** *** Copying *)

Lemma copy_loop_within n data off start i (m : Z) :
  0 ≤ off → off + Z.of_nat n ≤ m →
  length (copy_loop n data off start i) = length data ∧
  drop (Z.to_nat m) (copy_loop n data off start i) = drop (Z.to_nat m) data.
Proof.
  revert data off i. induction n as [|n IH]; intros data off i Hoff Hm; [done|].
  cbn [copy_loop]. set (x := get _ _).
  destruct (IH (<[Z.to_nat off:=x]> data) (off + 1) (i + 1)) as [Hlen Hdrop]; [lia|lia|].
  rewrite Hlen, Hdrop, length_insert. split; [done|]. rewrite drop_insert_lt by lia. done.
Qed.

Lemma deflate_copy_within out start i len :
  0 ≤ len → 0 ≤ chunk_offset out → within out (deflate_copy out start i len).
Proof.
  intros Hlen Hoff. unfold deflate_copy. unfold within. cbn [chunk_len chunk_data chunk_offset].
  assert (0 ≤ usize (chunk_offset out + len)) as Hpos.
  { apply wrap_range. destruct size_bits_cases as [[_ ->]|[_ ->]]; lia. }
  case (Z.ltb_spec (chunk_offset out) (chunk_len out)) as [Hlt|Hge]; [|done].
  set (n := if len <? chunk_len out - chunk_offset out then len else chunk_len out - chunk_offset out).
  assert (0 ≤ n ≤ chunk_len out - chunk_offset out) by (unfold n; case_match; lia).
  edestruct (copy_loop_within (Z.to_nat n) (chunk_data out) (chunk_offset out) start i (chunk_len out)) as [-> ->];
    [lia|lia|done].
Qed.

(** *** Steps that extract bits or decode a code *)

Lemma fields_at_buffer l r b d : fields_at l (set_resume r (set_buffer b d)) = fields_at l d.
Proof. by destruct l. Qed.

Lemma extract_progress t l d c out k :
  buffer_ok (buffer d) → chunk_ok c → room d → fields_at l d → 0 ≤ t ≤ 16 →
  (∀ b', buffer_ok b' → Zlen (held b') < t → Zlen (held b') mod 8 = Zlen (held (buffer d)) mod 8 → buffer_at l b') →
  (∀ v b' c', read_on c c' → chunk_ok c' → buffer_ok b' → 0 ≤ v < 2 ^ t →
     Zlen (stream (buffer d) c) = t + Zlen (stream b' c') →
     Zlen (held b') mod 8 = (Zlen (held (buffer d)) - t) mod 8 →
     (t ≠ 0 → Zlen (held b') ≤ Z.max (Zlen (held (buffer d)) - t) 7) →
     progress l d c out (k v (set_buffer b' d) c')) →
  progress l d c out (extract t l d c out k).
Proof.
  intros Hb Hc Hroom Hf Ht Hblock Hk.
  destruct (extract_cases t l d c out k Hb Hc Ht)
    as [(b' & c' & -> & Hon & Hc' & Hb' & Hun & Hs & Hlt & Hmod)|(v & b' & c' & -> & Hon & Hc' & Hb' & Hv & Hs & Hmod & Hmax)].
  - split_and!; [done..|reflexivity|]. intros _. right. exists l. split_and!; [done| |done].
    split_and!; [|done|by rewrite fields_at_buffer]. apply Hblock; [done| |done].
    rewrite <- Hs in Hlt. unfold stream in Hlt. rewrite Hun, app_nil_r in Hlt. exact Hlt.
  - apply Hk; try done. rewrite Hs, length_app, length_lsb. lia.
Qed.

Lemma decode_progress L a l d c out k :
  complete L → represents a L → buffer_ok (buffer d) → chunk_ok c → room d → fields_at l d →
  (∀ b', buffer_ok b' → buffer_at l b') →
  (∀ v b' c', read_on c c' → chunk_ok c' → buffer_ok b' → 0 ≤ v < Zlen L →
     Zlen (stream b' c') < Zlen (stream (buffer d) c) →
     progress l d c out (k v (set_buffer b' d) c')) →
  progress l d c out (decode a l d c out k).
Proof.
  intros HL Ha Hb Hc Hroom Hf Hblock Hk.
  destruct (decode_cases L a l d c out k HL Ha Hb Hc)
    as [(b' & c' & -> & Hon & Hc' & Hb' & Hun & Hs & _)|(v & code & b' & c' & -> & Hon & Hc' & Hb' & Hv & Hcode & Hs)].
  - split_and!; [done..|reflexivity|]. intros _. right. exists l. split_and!; [done| |done].
    split_and!; [|done|by rewrite fields_at_buffer]. by apply Hblock.
  - apply Hk; try done. rewrite Hs, length_app. destruct Hcode as (b & kk & Hbb & _ & ->).
    rewrite length_msb. lia.
Qed.

(** Solve the goals left by a step to a label. *)
Ltac goto_tac :=
  unfold progress, wf, measure, room in *; dsimpl;
  cbn [buffer_at fields_at rank] in *; dsimpl;
  split_and!; try done; try lia; try reflexivity; try tauto.

Lemma zlib_header_progress d c out :
  wf zlib_header d → chunk_ok c → progress zlib_header d c out (at_zlib_header d c out).
Proof.
  intros (Hb & Hroom & _) Hc. unfold at_zlib_header, ZLIB_HEADER_BITS.
  apply extract_progress; [exact Hb|exact Hc|exact Hroom|exact I|lia|intros b' Hb' _ _; exact Hb'|].
  intros v b' c' Hon Hc' Hb' Hv Hs _ _. repeat case_match; goto_tac.
Qed.

Lemma block_header_progress d c out :
  wf block_header d → chunk_ok c → progress block_header d c out (at_block_header d c out).
Proof.
  intros (Hb & Hroom & _) Hc. unfold at_block_header, DEFLATE_HEADER_BITS.
  apply extract_progress; [exact Hb|exact Hc|exact Hroom|exact I|lia|intros b' Hb' _ _; exact Hb'|].
  intros v b' c' Hon Hc' Hb' Hv Hs _ _. cbv zeta. repeat case_match; goto_tac.
Qed.

Lemma discard_aligned b : buffer_ok b → aligned 16 (deflate_discard_to_byte b).
Proof.
  intros Hb. destruct (discard_spec b Hb) as [Hh Heq]. destruct Hb as [_ Hl]. split_and!; [done|..].
  - rewrite Heq, length_drop. pose proof (Nat.Div0.div_mod (length (held b)) 8).
    exists (Z.of_nat (length (held b) / 8)). lia.
  - rewrite Heq, length_drop. pose proof (Nat.Div0.div_mod (length (held b)) 8).
    pose proof (Nat.mod_upper_bound (length (held b)) 8). lia.
Qed.

Lemma discard_stream b c : buffer_ok b → Zlen (stream (deflate_discard_to_byte b) c) ≤ Zlen (stream b c).
Proof.
  intros Hb. destruct (discard_spec b Hb) as [_ Heq]. unfold stream. rewrite Heq, !length_app, length_drop. lia.
Qed.

Lemma literal_block_progress d c out :
  wf literal_block d → chunk_ok c → progress literal_block d c out (at_literal_block d c out).
Proof.
  intros (Hb & Hroom & _) Hc. unfold at_literal_block.
  pose proof (discard_aligned _ Hb). pose proof (discard_stream _ c Hb). goto_tac.
Qed.

Lemma aligned_ok n b : aligned n b → n ≤ 23 → buffer_ok b.
Proof. intros (? & _ & ?) ?. split; [done|lia]. Qed.

Lemma aligned_weaken n m b : aligned n b → n ≤ m → aligned m b.
Proof. intros (? & ? & ?) ?. split_and!; done || lia. Qed.

(** Extraction of 16 bits from a byte boundary keeps to byte boundaries. *)
Lemma aligned_blocked b b' :
  aligned 16 b → buffer_ok b' → Zlen (held b') < 16 → Zlen (held b') mod 8 = Zlen (held b) mod 8 → aligned 16 b'.
Proof.
  intros (_ & Hd & _) [Hh _] Hlt Hmod. split_and!; [done| |lia].
  apply Z.mod_divide; [lia|]. rewrite Hmod. by apply Z.mod_divide; [lia|].
Qed.

Lemma aligned_extracted b b' :
  aligned 16 b → buffer_ok b' → Zlen (held b') mod 8 = (Zlen (held b) - 16) mod 8 →
  Zlen (held b') ≤ Z.max (Zlen (held b) - 16) 7 → aligned 0 b'.
Proof.
  intros (_ & [q Hq] & Hle) [Hh _] Hmod Hmax.
  assert (Zlen (held b') mod 8 = 0) as Hz.
  { rewrite Hmod, Hq. replace (q * 8 - 16) with ((q - 2) * 8) by lia. by apply Z.mod_mul. }
  rewrite Z.mod_small in Hz by lia. split_and!; [done|rewrite Hz; by exists 0|lia].
Qed.

Lemma literal_len_progress d c out :
  wf literal_len d → chunk_ok c → progress literal_len d c out (at_literal_len d c out).
Proof.
  intros (Hb & Hroom & _) Hc. unfold at_literal_len, DEFLATE_LITERAL_LEN_BITS.
  apply extract_progress; [by eapply aligned_ok|exact Hc|exact Hroom|exact I|lia
                          |intros b' ???; by eapply aligned_blocked|].
  intros v b' c' Hon Hc' Hb' Hv Hs Hmod Hmax.
  pose proof (aligned_weaken 0 16 _ (aligned_extracted _ _ Hb Hb' Hmod (Hmax ltac:(lia))) ltac:(lia)). goto_tac.
Qed.

Lemma literal_nlen_progress d c out :
  wf literal_nlen d → chunk_ok c → progress literal_nlen d c out (at_literal_nlen d c out).
Proof.
  intros (Hb & Hroom & Hf) Hc. unfold at_literal_nlen, DEFLATE_LITERAL_LEN_BITS.
  apply extract_progress; [by eapply aligned_ok|exact Hc|exact Hroom|exact Hf|lia
                          |intros b' ???; by eapply aligned_blocked|].
  intros v b' c' Hon Hc' Hb' Hv Hs Hmod Hmax.
  pose proof (aligned_extracted _ _ Hb Hb' Hmod (Hmax ltac:(lia))).
  case_match; goto_tac.
Qed.

Lemma literal_data_progress d c out :
  wf literal_data d → chunk_ok c → 0 ≤ chunk_offset out →
  progress literal_data d c out (at_literal_data d c out).
Proof.
  intros (Hb & Hroom & Hrem) Hc Hout. cbn [fields_at buffer_at] in *. unfold at_literal_data.
  pose proof Hc as (Hoff & Hlen & Hin & Hbytes). pose proof (length_unread c Hc) as Hun.
  rewrite (wrap_small _ (chunk_len c - chunk_offset c)) by (unfold in_range in *; lia).
  set (len := if _ <? remaining d then _ else remaining d).
  assert (0 ≤ len ≤ chunk_len c - chunk_offset c ∧ len ≤ remaining d) as Hl by (unfold len; case_match; lia).
  assert (len = chunk_len c - chunk_offset c ∨ len = remaining d) as Hl' by (unfold len; case_match; lia).
  rewrite (wrap_small _ (chunk_offset c + len)) by (unfold in_range in *; lia).
  assert (Chunk (chunk_data c) (chunk_offset c + len) (chunk_len c) = advanced (Z.to_nat len) c) as ->
    by (unfold advanced; f_equal; lia).
  assert (chunk_ok (advanced (Z.to_nat len) c)) as Hc' by (apply advanced_ok; [done|lia]).
  assert (read_on c (advanced (Z.to_nat len) c)) as Hon by (exists (Z.to_nat len); split; [done|lia]).
  pose proof (deflate_copy_within out (Other (chunk_data c)) (chunk_offset c) len ltac:(lia) Hout) as Hw.
  pose proof (length_unread _ Hc') as Hun'. rewrite unread_advanced, length_drop in Hun' by done. dsimpl.
  case (Z.eqb_spec (remaining d - len) 0) as [Hz|Hnz]; cbn [negb].
  - assert (buffer_ok (buffer d)) as Hbo by (by eapply aligned_ok).
    assert (Zlen (stream (buffer d) (advanced (Z.to_nat len) c)) ≤ Zlen (stream (buffer d) c)).
    { unfold stream. rewrite !length_app, !length_bits_of, unread_advanced, length_drop by done. lia. }
    goto_tac.
  - split_and!; try done. intros _. right. exists literal_data. split_and!; [done| |].
    + split_and!; [done|done|]. cbn [fields_at]. dsimpl. lia.
    + apply length_zero_iff_nil. rewrite unread_advanced, length_drop by done. lia.
Qed.

(** The patterns fill the lengths from the start. *)
Lemma fill_patterns_spec patterns pre l :
  fill_patterns patterns (length pre) (pre ++ l) =
  pre ++ mjoin (map (λ '(fill, count), replicate (Z.to_nat count) fill) patterns) ++
  drop (length (mjoin (map (λ '(fill, count), replicate (Z.to_nat count) fill) patterns))) l.
Proof.
  revert pre l. induction patterns as [|[fill count] patterns IH]; intros pre l; [done|].
  cbn [fill_patterns map]. rewrite mjoin_cons. set (x := replicate (Z.to_nat count) fill).
  assert (store (pre ++ l) (length pre) x = (pre ++ x) ++ drop (length x) l) as ->.
  { unfold store. rewrite take_app_length, drop_app_ge by lia.
    replace (length pre + length x - length pre)%nat with (length x) by lia. by rewrite app_assoc. }
  replace (length pre + Z.to_nat count)%nat with (length (pre ++ x)) by (unfold x; rewrite length_app, length_replicate; lia).
  rewrite IH, <- !app_assoc, drop_drop, length_app. done.
Qed.

Definition static_lengths : bytes :=
  mjoin (map (λ '(fill, count), replicate (Z.to_nat count) fill) deflate_static_length_patterns).

Lemma fill_static l : length l = 160%nat → fill_patterns deflate_static_length_patterns 0 l = static_lengths.
Proof.
  intros Hl. rewrite (fill_patterns_spec _ [] l). cbn [app]. fold static_lengths.
  rewrite drop_ge by (rewrite Hl; vm_compute; lia). apply app_nil_r.
Qed.

Lemma static_block_progress d c out :
  wf static_block d → chunk_ok c → progress static_block d c out (at_static_block d c out).
Proof.
  intros (Hb & Hroom & _) Hc. unfold at_static_block. dsimpl.
  rewrite fill_static by apply Hroom. goto_tac.
Qed.

Lemma land_small x k : 0 ≤ k → 0 ≤ Z.land x (2 ^ k - 1) < 2 ^ k.
Proof. intros. rewrite land_mask by done. apply Z.mod_pos_bound. by apply Z.pow_pos_nonneg. Qed.

Lemma dynamic_header_progress d c out :
  wf dynamic_header d → chunk_ok c → progress dynamic_header d c out (at_dynamic_header d c out).
Proof.
  intros (Hb & Hroom & _) Hc. unfold at_dynamic_header, DEFLATE_DYNAMIC_BITS.
  apply extract_progress; [exact Hb|exact Hc|exact Hroom|exact I|lia|intros b' Hb' _ _; exact Hb'|].
  intros v b' c' Hon Hc' Hb' Hv Hs _ _.
  pose proof (land_small (Z.shiftr v DEFLATE_DYNAMIC_HLIT_LSB) 5 ltac:(lia)).
  pose proof (land_small (Z.shiftr v DEFLATE_DYNAMIC_HDIST_LSB) 5 ltac:(lia)).
  unfold DEFLATE_DYNAMIC_HLIT_MASK, DEFLATE_DYNAMIC_HDIST_MASK. change 0x1f with (2 ^ 5 - 1).
  goto_tac. rewrite length_replicate. tauto.
Qed.

Lemma codelens_done_progress d c out :
  wf dynamic_codelen d → chunk_ok c → progress dynamic_codelen d c out (codelens_done d c out).
Proof.
  intros (Hb & Hroom & _) Hc. unfold codelens_done. pose proof Hroom as (Hlen & Hll & Hdd & Hlc & Hdc).
  destruct (alphabet_init_spec (lengths d) (distance_codelen d) 32 (DEFLATE_CODELEN_MAX_CODE + 1) 0)
    as (a & -> & Ha & Hrep); [unfold DEFLATE_CODELEN_MAX_CODE; lia|lia|done|].
  case_decide as Hcomp; [|goto_tac].
  assert (codelens_ok (set_distance_codelen a d)) as Hok.
  { eexists. split_and!; [exact Hcomp|exact (Hrep Hcomp)|]. by rewrite length_code_lengths. }
  unfold codelens_ok in Hok. goto_tac. by rewrite length_replicate.
Qed.

Lemma length_set_length i b l : length (deflate_set_length i b l) = length l.
Proof. unfold deflate_set_length. apply length_insert. Qed.

Lemma dynamic_codelen_progress d c out :
  wf dynamic_codelen d → chunk_ok c → progress dynamic_codelen d c out (at_dynamic_codelen d c out).
Proof.
  intros Hwf Hc. unfold at_dynamic_codelen. case_match; [|by apply codelens_done_progress].
  destruct Hwf as (Hb & Hroom & _). unfold DEFLATE_CODELEN_BITS.
  apply extract_progress; [exact Hb|exact Hc|exact Hroom|exact I|lia|intros b' Hb' _ _; exact Hb'|].
  intros v b' c' Hon Hc' Hb' Hv Hs _ _. goto_tac. rewrite length_set_length. tauto.
Qed.

Lemma dynamic_litlen_distance_progress d c out :
  wf dynamic_litlen_distance d → chunk_ok c →
  progress dynamic_litlen_distance d c out (at_dynamic_litlen_distance d c out).
Proof.
  intros (Hb & Hroom & Lc & Hcomp & Hrep & HLc) Hc. unfold at_dynamic_litlen_distance.
  eapply decode_progress; [exact Hcomp|exact Hrep|exact Hb|exact Hc|exact Hroom| |intros b' Hb'; exact Hb'|].
  { exists Lc. done. }
  intros v b' c' Hon Hc' Hb' Hv Hs.
  assert (0 ≤ get [2; 3; 7] (v - 16) ≤ 16).
  { assert (v < 16 ∨ v = 16 ∨ v = 17 ∨ v = 18) as [?|[->|[->| ->]]] by lia; [|by_decide..].
    unfold get. replace (Z.to_nat (v - 16)) with 0%nat by lia. by_decide. }
  assert (codelens_ok d) as Hok by (exists Lc; done).
  case_match; [|case_match]; goto_tac.
Qed.

Lemma store_lengths_frame n d :
  ∃ i ls, store_lengths n d = set_length_index i (set_lengths ls d) ∧ length ls = length (lengths d).
Proof.
  revert d. induction n as [|n IH]; intros d; cbn [store_lengths].
  { exists (length_index d), (lengths d). by destruct d. }
  case_match; [|exists (length_index d), (lengths d); by destruct d].
  destruct (IH (set_length_index (length_index d + 1) (set_lengths (deflate_set_length (length_index d) (length_ d) (lengths d)) d)))
    as (i & ls & -> & Hls). exists i, ls. split; [done|]. rewrite Hls. dsimpl. apply length_set_length.
Qed.

Lemma dynamic_litlen_distance_extra_progress d c out :
  wf dynamic_litlen_distance_extra d → chunk_ok c →
  progress dynamic_litlen_distance_extra d c out (at_dynamic_litlen_distance_extra d c out).
Proof.
  intros (Hb & Hroom & Hok & Hex) Hc. unfold at_dynamic_litlen_distance_extra.
  apply extract_progress; [exact Hb|exact Hc|exact Hroom|by split|exact Hex|intros b' Hb' _ _; exact Hb'|].
  intros v b' c' Hon Hc' Hb' Hv Hs _ _.
  destruct (store_lengths_frame (Z.to_nat (dup_len (set_buffer b' d) + v)) (set_buffer b' d)) as (i & ls & -> & Hls).
  dsimpl. case_match; goto_tac; rewrite Hls; tauto.
Qed.

Lemma construct_alphabets_progress d c out :
  wf construct_alphabets d → chunk_ok c → progress construct_alphabets d c out (at_construct_alphabets d c out).
Proof.
  intros (Hb & Hroom & _) Hc. unfold at_construct_alphabets. pose proof Hroom as (Hlen & Hll & Hdd & Hlc & Hdc).
  destruct (alphabet_init_spec (lengths d) (litlen d) 288 (litlen_count d) 0) as (a & -> & Ha & Hrep);
    [lia|lia|done|]. case_decide as Hcomp; [|goto_tac]. dsimpl.
  set (p := if distance_count d =? 1 then _ else _).
  assert (∃ ls off n, p = (set_lengths ls (set_litlen a d), off, n) ∧ length ls = 160%nat ∧ 0 ≤ n ≤ 32)
    as (ls & off & n & -> & Hls & Hn).
  { unfold p. case_match.
    - eexists _, _, _. split_and!; [reflexivity|by rewrite length_insert|lia..].
    - exists (lengths d), (litlen_count d), (distance_count d). split_and!; [by destruct d|done|lia..]. }
  dsimpl. destruct (alphabet_init_spec ls (distance_codelen d) 32 n off) as (a' & -> & Ha' & Hrep'); [lia|lia|done|].
  case_decide as Hcomp'; [|goto_tac].
  assert (codes_ok (set_distance_codelen a' (set_litlen a d))) as Hok.
  { eexists _, _. split_and!; [exact Hcomp|exact (Hrep Hcomp)| |exact Hcomp'|exact (Hrep' Hcomp')|];
      rewrite length_code_lengths; lia. }
  unfold codes_ok in *. goto_tac.
Qed.

Lemma get_nonneg l i : Forall (λ x, 0 ≤ x) l → 0 ≤ get l i.
Proof.
  intros Hl. unfold get. destruct (l !! Z.to_nat i) as [x|] eqn:Hx; [|done]. cbn.
  by eapply (Forall_lookup_1 _ _ _ _ Hl).
Qed.

Lemma litlen_extra_bits x : 0 ≤ x < 28 → 0 ≤ (if x / 4 =? 0 then x / 4 else x / 4 - 1) ≤ 5.
Proof. intros. case (Z.eqb_spec (x / 4) 0) as [?|?]; Z.div_mod_to_equations; lia. Qed.

Lemma distance_extra_bits x : 0 ≤ x < 32 → 0 ≤ (if x / 2 =? 0 then x / 2 else x / 2 - 1) ≤ 14.
Proof. intros. case (Z.eqb_spec (x / 2) 0) as [?|?]; Z.div_mod_to_equations; lia. Qed.

Lemma lzhuf_litlen_progress d c out :
  wf lzhuf_litlen d → chunk_ok c → 0 ≤ chunk_offset out →
  progress lzhuf_litlen d c out (at_lzhuf_litlen d c out).
Proof.
  intros (Hb & Hroom & Hok) Hc Hout. pose proof Hok as (Ll & Ld & Hcl & Hrl & HLl & _). unfold at_lzhuf_litlen.
  eapply decode_progress; [exact Hcl|exact Hrl|exact Hb|exact Hc|exact Hroom|exact Hok|intros b' Hb'; exact Hb'|].
  intros v b' c' Hon Hc' Hb' Hv Hs. unfold DEFLATE_LITLEN_END.
  case (Z.ltb_spec v 256) as [?|?].
  { pose proof (deflate_copy_within out (Other [u8 v]) 0 1 ltac:(lia) Hout). goto_tac. }
  case (Z.eqb_spec v 256) as [?|?]; [goto_tac|].
  assert (0 ≤ get deflate_litlen_base (v - 256 - 1)) by (apply get_nonneg; by_decide).
  case (Z.ltb_spec (v - 256 - 1) 28) as [?|?]; [|goto_tac].
  pose proof (litlen_extra_bits (v - 256 - 1) ltac:(lia)). goto_tac.
Qed.

Lemma lzhuf_litlen_extra_progress d c out :
  wf lzhuf_litlen_extra d → chunk_ok c → progress lzhuf_litlen_extra d c out (at_lzhuf_litlen_extra d c out).
Proof.
  intros (Hb & Hroom & Hok & Hdup & Hex) Hc. unfold at_lzhuf_litlen_extra.
  apply extract_progress; [exact Hb|exact Hc|exact Hroom|exact (conj Hok (conj Hdup Hex))|exact Hex|intros b' Hb' _ _; exact Hb'|].
  intros v b' c' Hon Hc' Hb' Hv Hs _ _. goto_tac.
Qed.

Lemma lzhuf_distance_progress d c out :
  wf lzhuf_distance d → chunk_ok c → progress lzhuf_distance d c out (at_lzhuf_distance d c out).
Proof.
  intros (Hb & Hroom & Hok & Hdup) Hc. pose proof Hok as (Ll & Ld & _ & _ & _ & Hcd & Hrd & HLd). unfold at_lzhuf_distance.
  eapply decode_progress; [exact Hcd|exact Hrd|exact Hb|exact Hc|exact Hroom|by split|intros b' Hb'; exact Hb'|].
  intros v b' c' Hon Hc' Hb' Hv Hs. pose proof (distance_extra_bits v ltac:(lia)). goto_tac.
Qed.

Lemma lzhuf_distance_extra_progress d c out :
  wf lzhuf_distance_extra d → chunk_ok c → 0 ≤ chunk_offset out →
  progress lzhuf_distance_extra d c out (at_lzhuf_distance_extra d c out).
Proof.
  intros (Hb & Hroom & Hok & Hdup & Hex) Hc Hout. unfold at_lzhuf_distance_extra.
  apply extract_progress; [exact Hb|exact Hc|exact Hroom|exact (conj Hok (conj Hdup Hex))|exact Hex|intros b' Hb' _ _; exact Hb'|].
  intros v b' c' Hon Hc' Hb' Hv Hs _ _. dsimpl. case_match; [goto_tac|].
  pose proof (deflate_copy_within out Own (chunk_offset out - (dup_distance d + v)) (dup_len d) Hdup Hout). goto_tac.
Qed.

Lemma block_done_progress d c out :
  wf block_done d → chunk_ok c → progress block_done d c out (at_block_done d c out).
Proof.
  intros (Hb & Hroom & _) Hc. unfold at_block_done. cbn [buffer_at] in Hb. pose proof (proj1 Hb).
  repeat case_match; goto_tac.
Qed.

Lemma zlib_footer_progress d c out :
  wf zlib_footer d → chunk_ok c → progress zlib_footer d c out (at_zlib_footer d c out).
Proof.
  intros (Hb & Hroom & _) Hc. unfold at_zlib_footer.
  pose proof (aligned_weaken _ 32 _ (discard_aligned _ Hb) ltac:(lia)).
  pose proof (discard_stream _ c Hb). goto_tac.
Qed.

(** Accumulating the checksum: the bits are read and stay in the buffer. *)
Lemma adler_cases b c :
  aligned 32 b → chunk_ok c →
  ∃ x b' c', deflate_accumulate b c ZLIB_ADLER32_BITS = (x, b', c') ∧ read_on c c' ∧ chunk_ok c' ∧
    aligned 32 b' ∧ stream b' c' = stream b c ∧ x = Zlen (held b') - 32 ∧ (32 ≤ Zlen (held b') ∨ unread c' = []).
Proof.
  intros (Hh & Hd & Hle) Hc. unfold ZLIB_ADLER32_BITS.
  destruct (accumulate_spec 32 b c _ _ (held_reads b c Hh Hc)) as (b' & n & l' & -> & Hr & Hend & Hn & Hmax & Hun).
  { split; [lia|]. right. split; [lia|done]. }
  destruct (reads_held _ _ _ _ Hr) as (Hh' & Hst & Hc' & Hb'). eexists _, b', _. rewrite <- Hh' in *.
  split_and!; [done|by exists n|done| |done|done|done].
  split_and!; [done| |].
  - rewrite Hn. apply Z.divide_add_r; [done|]. by exists (Z.of_nat n); lia.
  - destruct Hd as [q Hq]. assert (Zlen (held b') ≤ 39) by lia. lia.
Qed.

Lemma zlib_adler32_progress d c out :
  wf zlib_adler32 d → chunk_ok c → progress zlib_adler32 d c out (at_zlib_adler32 d c out).
Proof.
  intros (Hb & Hroom & _) Hc. unfold at_zlib_adler32.
  destruct (adler_cases _ c Hb Hc) as (x & b' & c' & -> & Hon & Hc' & Hb' & Hs & -> & Hend).
  case (Z.ltb_spec (Zlen (held b') - 32) 0) as [Hlt|Hge].
  - split_and!; [done..|reflexivity|]. intros _. right. exists zlib_adler32. split_and!; [done|by split_and!|].
    destruct Hend; [lia|done].
  - pose proof (proj1 Hb'). assert (Zlen (stream b' c') = Zlen (stream (buffer d) c)) by (by rewrite Hs). goto_tac.
Qed.

Lemma step_progress l d c out :
  wf l d → chunk_ok c → 0 ≤ chunk_offset out → progress l d c out (step l d c out).
Proof.
  intros Hwf Hc Hout. destruct l; cbn [step].
  - by apply zlib_header_progress.
  - by apply block_header_progress.
  - by apply literal_block_progress.
  - by apply literal_len_progress.
  - by apply literal_nlen_progress.
  - by apply literal_data_progress.
  - by apply static_block_progress.
  - by apply dynamic_header_progress.
  - by apply dynamic_codelen_progress.
  - by apply dynamic_litlen_distance_progress.
  - by apply dynamic_litlen_distance_extra_progress.
  - by apply construct_alphabets_progress.
  - by apply lzhuf_litlen_progress.
  - by apply lzhuf_litlen_extra_progress.
  - by apply lzhuf_distance_progress.
  - by apply lzhuf_distance_extra_progress.
  - by apply block_done_progress.
  - by apply zlib_footer_progress.
  - by apply zlib_adler32_progress.
  - split_and!; [done|reflexivity|reflexivity|]. intros _. by left.
Qed.

(** ** Calls *)

(** A decompressor between calls. *)
Definition deflate_ok (d : deflate) : Prop := wf (entry d) d.

(** What a call promises on any input. *)
Definition call_ok (c out : deflate_chunk) (r : returned) : Prop :=
  let '(rc, d', c', out') := r in
  chunk_ok c' ∧ read_on c c' ∧ within out out' ∧
  (rc = Ok tt → deflate_finished d' = false → deflate_ok d' ∧ unread c' = []).

Lemma run_total fuel l d c out :
  wf l d → chunk_ok c → 0 ≤ chunk_offset out → measure l d c < Z.of_nat fuel →
  ∃ r, run fuel l d c out = Some r ∧ call_ok c out r.
Proof.
  revert l d c out. induction fuel as [|fuel IH]; intros l d c out Hwf Hc Hout Hm.
  { unfold measure in Hm. pose proof (rank_range l). lia. }
  cbn [run]. pose proof (step_progress l d c out Hwf Hc Hout) as Hp.
  destruct (step l d c out) as [l' d' c' out'|rc d' c' out'].
  - destruct Hp as (Hwf' & Hc' & Hon & Hw & Hm').
    destruct (IH l' d' c' out' Hwf' Hc' ltac:(apply Hw; lia) ltac:(lia)) as ([[[rc d''] c''] out''] & Hr & Hcall).
    exists (rc, d'', c'', out''). split; [done|]. destruct Hcall as (? & ? & ? & ?).
    split_and!; [done|by eapply read_on_trans|by etransitivity|done].
  - destruct Hp as (Hc' & Hon & Hw & Hres). eexists. split; [done|]. split_and!; [done..|].
    intros Hok Hfin. unfold deflate_finished in Hfin. apply bool_decide_eq_false in Hfin.
    destruct (Hres Hok) as [?|(l' & Hl' & Hwf' & Hun)]; [done|]. split; [|done].
    unfold deflate_ok, entry. by rewrite Hl'.
Qed.

Lemma wf_init fmt : deflate_ok (deflate_init fmt).
Proof.
  assert (buffer_ok (BitBuffer 0 0 0)).
  { unfold buffer_ok. change (held (BitBuffer 0 0 0)) with (@nil bool). unfold holds. split_and!; try reflexivity; cbn; lia. }
  assert (room (deflate_init fmt)) by (split_and!; by_decide).
  by destruct fmt; split_and!.
Qed.

Lemma deflate_ok_holds d : deflate_ok d → holds (buffer d) (held (buffer d)).
Proof.
  intros (Hb & _ & _). destruct (entry d); cbn [buffer_at] in Hb; apply Hb.
Qed.

Lemma inflate_call d c out :
  deflate_ok d → chunk_ok c → 0 ≤ chunk_offset out →
  ∃ r, deflate_inflate d c out = Some r ∧ call_ok c out r.
Proof.
  intros Hd Hc Hout. apply run_total; [done..|]. unfold measure, bits_left.
  pose proof (rank_range (entry d)). rewrite length_stream by (done || by apply deflate_ok_holds).
  pose proof Hc as (? & _). assert (0 ≤ bits (buffer d)).
  { destruct (deflate_ok_holds d Hd) as (-> & _). lia. }
  lia.
Qed.

(** C26: A call of deflate_inflate on any input returns, with valid data or not:
    the fuel of the model is enough. It reads within the input chunk and writes
    nothing beyond the end of the output buffer. A call that returns without
    error has either finished or consumed all of its input and left the
    decompressor in a state from which the next call satisfies the same. *)
Theorem inflate_total fmt :
  deflate_ok (deflate_init fmt) ∧
  ∀ d c out, deflate_ok d → chunk_ok c → 0 ≤ chunk_offset out →
    ∃ rc d' c' out', deflate_inflate d c out = Some (rc, d', c', out') ∧
      chunk_data c' = chunk_data c ∧ chunk_offset c ≤ chunk_offset c' ≤ chunk_len c ∧
      within out out' ∧
      (rc = Ok tt → deflate_finished d' = false → deflate_ok d' ∧ chunk_offset c' = chunk_len c).
Proof.
  split; [apply wf_init|]. intros d c out Hd Hc Hout.
  destruct (inflate_call d c out Hd Hc Hout) as ([[[rc d'] c'] out'] & Heq & Hc' & (n & -> & Hn) & Hw & Hnext).
  exists rc, d', (advanced n c), out'. split; [exact Heq|].
  pose proof (length_unread c Hc). pose proof (length_unread _ Hc') as Hl'. cbn [advanced chunk_data chunk_offset chunk_len] in *.
  split_and!; [done|lia|lia|apply Hw..|]. intros Hok Hfin. destruct (Hnext Hok Hfin) as [Hd' Hun]. split; [done|].
  rewrite Hun in Hl'. cbn [length] in Hl'. lia.
Qed.

End total.

(** Two bytes of a stream that stops within the header of a dynamic block. *)
Lemma inflate_total_witness :
  ∃ rc d' c' out',
    deflate_inflate (H := i386) (deflate_init DEFLATE_RAW) (Chunk [0x05; 0xe0] 0 2) (Chunk [7; 7] 0 1) =
      Some (rc, d', c', out') ∧ within (Chunk [7; 7] 0 1) out'.
Proof.
  destruct (inflate_total (H := i386) DEFLATE_RAW) as [Hok Hcall].
  destruct (Hcall (deflate_init DEFLATE_RAW) (Chunk [0x05; 0xe0] 0 2) (Chunk [7; 7] 0 1) Hok)
    as (rc & d' & c' & out' & Heq & _ & _ & Hw & _).
  - split_and!; [by vm_compute..|by_decide|by_decide].
  - done.
  - exists rc, d', c', out'. exact (conj Heq Hw).
Defined.
