(* ===== verification/Inflate.v ===== *)
(** * The decompressor implements RFC 1951 and RFC 1950

    The DEFLATE and ZLIB formats as relations between the bits of a stream and
    the bytes it stands for, written from the RFCs, and the proof that the state
    machine of Deflate.v decompresses every valid stream, however the input is
    cut into chunks. *)

From S2P Require Import Prelude Deflate Huffman DeflateTotal.

(** ** The format *)

(** Extra bits and base values of the length codes from 257 on and of the
    distance codes (RFC 1951, 3.2.5). *)
Definition length_codes : list (nat * Z) :=
  [(0%nat, 3); (0%nat, 4); (0%nat, 5); (0%nat, 6); (0%nat, 7); (0%nat, 8); (0%nat, 9); (0%nat, 10);
   (1%nat, 11); (1%nat, 13); (1%nat, 15); (1%nat, 17); (2%nat, 19); (2%nat, 23); (2%nat, 27); (2%nat, 31);
   (3%nat, 35); (3%nat, 43); (3%nat, 51); (3%nat, 59); (4%nat, 67); (4%nat, 83); (4%nat, 99); (4%nat, 115);
   (5%nat, 131); (5%nat, 163); (5%nat, 195); (5%nat, 227); (0%nat, 258)].

Definition distance_codes : list (nat * Z) :=
  [(0%nat, 1); (0%nat, 2); (0%nat, 3); (0%nat, 4); (1%nat, 5); (1%nat, 7); (2%nat, 9); (2%nat, 13);
   (3%nat, 17); (3%nat, 25); (4%nat, 33); (4%nat, 49); (5%nat, 65); (5%nat, 97); (6%nat, 129); (6%nat, 193);
   (7%nat, 257); (7%nat, 385); (8%nat, 513); (8%nat, 769); (9%nat, 1025); (9%nat, 1537); (10%nat, 2049);
   (10%nat, 3073); (11%nat, 4097); (11%nat, 6145); (12%nat, 8193); (12%nat, 12289); (13%nat, 16385);
   (13%nat, 24577)].

(** A duplicated string: each byte is the one a distance back, so that the
    string may overlap its copy. *)
Fixpoint copy_back (len distance : nat) (out : bytes) : bytes :=
  match len with
  | O => out
  | S len => copy_back len distance (out ++ [default 0 (out !! (length out - distance)%nat)])
  end.

(** Compressed data with given literal/length and distance code lengths, up to
    the end-of-block code: output so far, bits, final output, bits left. *)
Inductive compressed (Ll Ld : list Z) : bytes → list bool → bytes → list bool → Prop :=
| comp_end out c rest :
    huff Ll 256 c → compressed Ll Ld out (c ++ rest) out rest
| comp_literal out x c bs out' rest :
    huff Ll x c → x < 256 → compressed Ll Ld (out ++ [x]) bs out' rest →
    compressed Ll Ld out (c ++ bs) out' rest
| comp_copy out len_code c eb len e dist_code dc deb dist de bs out' rest :
    huff Ll len_code c → 257 ≤ len_code → length_codes !! Z.to_nat (len_code - 257) = Some (eb, len) →
    0 ≤ e < 2 ^ Z.of_nat eb →
    huff Ld dist_code dc → distance_codes !! Z.to_nat dist_code = Some (deb, dist) →
    0 ≤ de < 2 ^ Z.of_nat deb → dist + de ≤ Zlen out →
    compressed Ll Ld (copy_back (Z.to_nat (len + e)) (Z.to_nat (dist + de)) out) bs out' rest →
    compressed Ll Ld out (c ++ lsb eb e ++ dc ++ lsb deb de ++ bs) out' rest.

(** Fixed codes (3.2.6). *)
Definition fixed_litlen : list Z := replicate 144 8 ++ replicate 112 9 ++ replicate 24 7 ++ replicate 8 8.
Definition fixed_distance : list Z := replicate 32 5.

(** What a code length code stands for, given the lengths before it: extra bits,
    least number of repetitions, and the length repeated (3.2.7). *)
Definition run_of (sym : Z) (acc : list Z) : option (nat * Z * Z) :=
  if sym <? 16 then Some (0%nat, 1, sym)
  else if sym =? 16 then (λ prev, (2%nat, 3, prev)) <$> last acc
  else if sym =? 17 then Some (3%nat, 3, 0)
  else if sym =? 18 then Some (7%nat, 11, 0)
  else None.

Inductive code_length_seq (Lc : list Z) (total : Z) : list Z → list bool → list Z → list bool → Prop :=
| cl_done acc rest : Zlen acc = total → code_length_seq Lc total acc rest acc rest
| cl_run acc sym c eb n v e bs L rest :
    huff Lc sym c → run_of sym acc = Some (eb, n, v) → 0 ≤ e < 2 ^ Z.of_nat eb → Zlen acc + n + e ≤ total →
    code_length_seq Lc total (acc ++ replicate (Z.to_nat (n + e)) v) bs L rest →
    code_length_seq Lc total acc (c ++ lsb eb e ++ bs) L rest.

(** The order in which the lengths of the code length codes appear. *)
Definition codelen_order : list nat :=
  [16; 17; 18; 0; 8; 7; 9; 6; 10; 5; 11; 4; 12; 3; 13; 2; 14; 1; 15]%nat.

Definition codelen_lengths (cl : list Z) : list Z :=
  foldl (λ L '(i, v), <[i := v]> L) (replicate 19 0) (zip codelen_order cl).

(** The distance codes RFC 1951 allows (3.2.7): a complete code, a single code, of one
    bit, or none at all for a block without distances. *)
Definition rfc1951_distances (Ld : list Z) : Prop :=
  complete Ld ∨ (∃ i j, Ld = replicate i 0 ++ 1 :: replicate j 0) ∨ Forall (λ l, l = 0) Ld.

(** Those the decompressor accepts: the last two cases only when a single code length
    is transmitted (HDIST is zero). *)
Definition valid_distances (Ld : list Z) : Prop := complete Ld ∨ Ld = [1] ∨ Ld = [0].

(** Exactly what is missing: several code lengths of which at most one is not zero. *)
Lemma rfc1951_distances_accepted Ld :
  rfc1951_distances Ld → Ld ≠ [] →
  valid_distances Ld ∨ (2 ≤ length Ld)%nat ∧ (length (filter (λ l : Z, l ≠ 0%Z) Ld) ≤ 1)%nat.
Proof.
  assert (∀ L, Forall (λ l, l = 0%Z) L → filter (λ l : Z, l ≠ 0%Z) L = []) as Hf.
  { intros L HL. induction HL as [|l L -> _ IH]; [done|]. by rewrite filter_cons_False by auto. }
  intros [Hc|[(i & j & ->)|Hz]] Hne; [by left; left| |].
  - destruct (decide (i = 0%nat ∧ j = 0%nat)) as [[-> ->]|Hij]; [left; right; by left|right].
    rewrite length_app, filter_app, filter_cons_True, !Hf by (done || by apply Forall_replicate).
    cbn [length app]. rewrite !length_replicate. lia.
  - destruct Ld as [|x [|y Ld]]; [done| |].
    + left. right. right. by apply Forall_inv in Hz as ->.
    + right. rewrite Hf by done. cbn. lia.
Qed.

(** The header of a block with dynamic codes: bits, code lengths, bits left. *)
Inductive dynamic_codes : list bool → list Z → list Z → list bool → Prop :=
| dynamic_codes_intro hlit hdist hclen cl bs L rest :
    0 ≤ hlit ≤ 29 → 0 ≤ hdist ≤ 31 → 0 ≤ hclen ≤ 15 →
    Zlen cl = hclen + 4 → Forall (λ x, 0 ≤ x < 8) cl → complete (codelen_lengths cl) →
    code_length_seq (codelen_lengths cl) (hlit + 257 + (hdist + 1)) [] bs L rest →
    complete (take (Z.to_nat (hlit + 257)) L) → valid_distances (drop (Z.to_nat (hlit + 257)) L) →
    dynamic_codes (lsb 5 hlit ++ lsb 5 hdist ++ lsb 4 hclen ++ mjoin (map (lsb 3) cl) ++ bs)
      (take (Z.to_nat (hlit + 257)) L) (drop (Z.to_nat (hlit + 257)) L) rest.

(** The contents of a block after its header (3.2.4 to 3.2.7). *)
Inductive block_body : Z → bytes → list bool → bytes → list bool → Prop :=
| body_stored out pad data rest :
    (length pad < 8)%nat → (8 | Zlen rest) → is_bytes data → Zlen data < 65536 →
    block_body 0 out (pad ++ lsb 16 (Zlen data) ++ lsb 16 (65535 - Zlen data) ++ bits_of data ++ rest)
      (out ++ data) rest
| body_fixed out bs out' rest :
    compressed fixed_litlen fixed_distance out bs out' rest → block_body 1 out bs out' rest
| body_dynamic out bs Ll Ld bs' out' rest :
    dynamic_codes bs Ll Ld bs' → compressed Ll Ld out bs' out' rest → block_body 2 out bs out' rest.

(** A sequence of blocks up to the final one (3.2.3). *)
Inductive blocks : bytes → list bool → bytes → list bool → Prop :=
| blocks_final out type bs out' rest :
    0 ≤ type ≤ 2 → block_body type out bs out' rest → blocks out (true :: lsb 2 type ++ bs) out' rest
| blocks_more out type bs out1 bs1 out' rest :
    0 ≤ type ≤ 2 → block_body type out bs out1 bs1 → blocks out1 bs1 out' rest →
    blocks out (false :: lsb 2 type ++ bs) out' rest.

(** A stream in either format: the ZLIB format has a header of two bytes, which
    names DEFLATE and no preset dictionary, and a checksum after the data (RFC
    1950, 2.2). *)
Inductive zlib_end : list bool → list bool → Prop :=
| zlib_end_intro pad adler rest :
    (length pad < 8)%nat → length adler = 32%nat → (8 | Zlen rest) → zlib_end (pad ++ adler ++ rest) rest.

Inductive inflates : deflate_format → list bool → bytes → list bool → Prop :=
| inflates_raw bs out rest : blocks [] bs out rest → inflates DEFLATE_RAW bs out rest
| inflates_zlib hdr bs out bs' rest :
    0 ≤ hdr < 65536 → hdr mod 16 = 8 → Z.testbit hdr 13 = false →
    blocks [] bs out bs' → zlib_end bs' rest → inflates DEFLATE_ZLIB (lsb 16 hdr ++ bs) out rest.

(** ** The output buffer *)

(** A buffer of which [len] bytes may be written, after the output [h]. *)
Definition outbuf (buf : bytes) (len : nat) (h : bytes) : bytes :=
  take len h ++ drop (Nat.min len (length h)) buf.

Definition holds_out (buf : bytes) (len : nat) (out : deflate_chunk) (h : bytes) : Prop :=
  (len ≤ length buf)%nat ∧ chunk_len out = Z.of_nat len ∧ chunk_offset out = Zlen h ∧
  chunk_data out = outbuf buf len h.

Lemma outbuf_full buf len h y : (len ≤ length h)%nat → outbuf buf len (h ++ y) = outbuf buf len h.
Proof.
  intros Hl. unfold outbuf. rewrite take_app_le, length_app by done. do 2 f_equal. lia.
Qed.

Lemma outbuf_lookup buf len h i : (i < length h)%nat → (i < len)%nat → outbuf buf len h !! i = h !! i.
Proof.
  intros Hi Hl. unfold outbuf. rewrite lookup_app_l by (rewrite length_take; lia). by apply lookup_take_lt.
Qed.

Lemma outbuf_snoc buf len h x :
  (length h < len ≤ length buf)%nat → <[length h := x]> (outbuf buf len h) = outbuf buf len (h ++ [x]).
Proof.
  intros Hl. unfold outbuf. rewrite length_app. cbn [length]. rewrite !Nat.min_r by lia.
  rewrite !take_ge by (rewrite ?length_app; cbn; lia).
  rewrite insert_app_r_alt, Nat.sub_diag by lia. rewrite <- app_assoc. f_equal.
  destruct (lookup_lt_is_Some_2 buf (length h)) as [y Hy]; [lia|].
  rewrite (drop_S _ _ _ Hy). cbn. do 2 f_equal. lia.
Qed.

Section copying.
Context `{Platform}.

(** Copying from other memory. *)
Lemma copy_loop_other buf len mem n h off :
  (length h + n ≤ len ≤ length buf)%nat → 0 ≤ off → off + Z.of_nat n ≤ Zlen mem →
  copy_loop n (outbuf buf len h) (Zlen h) (Other mem) off =
  outbuf buf len (h ++ take n (drop (Z.to_nat off) mem)).
Proof.
  revert h off. induction n as [|n IH]; intros h off Hn Hoff Hmem.
  { cbn [copy_loop take]. by rewrite app_nil_r. }
  cbn [copy_loop]. rewrite Nat2Z.id, outbuf_snoc by lia.
  replace (Zlen h + 1) with (Zlen (h ++ [get mem off])) by (rewrite length_app; cbn; lia).
  rewrite IH by (rewrite ?length_app; cbn; lia). rewrite <- app_assoc. do 2 f_equal.
  destruct (lookup_lt_is_Some_2 mem (Z.to_nat off)) as [y Hy]; [lia|].
  rewrite (drop_S _ _ _ Hy). cbn [take app]. unfold get. rewrite Hy. cbn. do 3 f_equal. lia.
Qed.

Lemma copy_other buf len out h mem off n :
  holds_out buf len out h → 0 ≤ off → 0 ≤ n → off + n ≤ Zlen mem → in_range size_bits (Zlen h + n) →
  holds_out buf len (deflate_copy out (Other mem) off n) (h ++ take (Z.to_nat n) (drop (Z.to_nat off) mem)).
Proof.
  intros (Hbuf & Hlen & Hoff & Hdata) Ho Hn Hm Hr. unfold deflate_copy, holds_out.
  cbn [chunk_len chunk_offset chunk_data]. rewrite Hlen, Hoff, Hdata. split_and!; [done|done| |].
  - rewrite wrap_small by done. rewrite length_app, length_take, length_drop. lia.
  - case (Z.ltb_spec (Zlen h) (Z.of_nat len)) as [Hlt|Hge]; [|by rewrite outbuf_full by lia].
    case (Z.ltb_spec n (Z.of_nat len - Zlen h)) as [Hs|Hs]; rewrite copy_loop_other by lia; [done|].
    set (m := Z.to_nat (Z.of_nat len - Zlen h)). set (src := drop (Z.to_nat off) mem).
    replace (take (Z.to_nat n) src) with (take m src ++ drop m (take (Z.to_nat n) src)).
    + rewrite app_assoc, (outbuf_full _ _ (h ++ take m src)); [done|].
      rewrite length_app, length_take. unfold src. rewrite length_drop. lia.
    + rewrite <- (take_drop m (take (Z.to_nat n) src)) at 2. rewrite take_take, Nat.min_l by lia. done.
Qed.

(** Copying from the output itself. *)
Lemma length_copy_back n dist h : length (copy_back n dist h) = (length h + n)%nat.
Proof. revert h. induction n as [|n IH]; intros h; cbn [copy_back]; [lia|]. rewrite IH, length_app. cbn. lia. Qed.

Lemma copy_back_prefix n dist h : h `prefix_of` copy_back n dist h.
Proof.
  revert h. induction n as [|n IH]; intros h; cbn [copy_back]; [done|].
  etransitivity; [|apply IH]. by eexists.
Qed.

Lemma copy_back_add n m dist h : copy_back (n + m) dist h = copy_back m dist (copy_back n dist h).
Proof. revert h. induction n as [|n IH]; intros h; [done|]. cbn [Nat.add copy_back]. apply IH. Qed.

Lemma copy_loop_own buf len n h (dist : nat) :
  (length h + n ≤ len ≤ length buf)%nat → (1 ≤ dist ≤ length h)%nat →
  copy_loop n (outbuf buf len h) (Zlen h) Own (Zlen h - Z.of_nat dist) = outbuf buf len (copy_back n dist h).
Proof.
  revert h. induction n as [|n IH]; intros h Hn Hd; [done|].
  cbn [copy_loop copy_back]. unfold get.
  replace (Z.to_nat (Zlen h - Z.of_nat dist)) with (length h - dist)%nat by lia.
  rewrite outbuf_lookup by lia. rewrite Nat2Z.id, outbuf_snoc by lia. set (x := default 0 _).
  replace (Zlen h + 1) with (Zlen (h ++ [x])) by (rewrite length_app; cbn; lia).
  replace (Zlen h - Z.of_nat dist + 1) with (Zlen (h ++ [x]) - Z.of_nat dist) by (rewrite length_app; cbn; lia).
  apply IH; rewrite length_app; cbn; lia.
Qed.

Lemma copy_own buf len out h n (dist : Z) :
  holds_out buf len out h → 0 ≤ n → 1 ≤ dist ≤ Zlen h → in_range size_bits (Zlen h + n) →
  holds_out buf len (deflate_copy out Own (chunk_offset out - dist) n) (copy_back (Z.to_nat n) (Z.to_nat dist) h).
Proof.
  intros (Hbuf & Hlen & Hoff & Hdata) Hn Hd Hr. unfold deflate_copy, holds_out.
  cbn [chunk_len chunk_offset chunk_data]. rewrite Hlen, Hoff, Hdata. split_and!; [done|done| |].
  - rewrite wrap_small by done. rewrite length_copy_back. lia.
  - replace (Zlen h - dist) with (Zlen h - Z.of_nat (Z.to_nat dist)) by lia.
    case (Z.ltb_spec (Zlen h) (Z.of_nat len)) as [Hlt|Hge].
    2: { destruct (copy_back_prefix (Z.to_nat n) (Z.to_nat dist) h) as [y ->]. by rewrite outbuf_full by lia. }
    case (Z.ltb_spec n (Z.of_nat len - Zlen h)) as [Hs|Hs]; rewrite copy_loop_own by lia; [done|].
    set (m := Z.to_nat (Z.of_nat len - Zlen h)).
    replace (Z.to_nat n) with (m + (Z.to_nat n - m))%nat by lia. rewrite copy_back_add.
    destruct (copy_back_prefix (Z.to_nat n - m) (Z.to_nat dist) (copy_back m (Z.to_nat dist) h)) as [y ->].
    rewrite outbuf_full; [done|]. rewrite length_copy_back. lia.
Qed.

End copying.

(** ** Facts about the format *)

Lemma compressed_prefix Ll Ld out bs out' rest : compressed Ll Ld out bs out' rest → out `prefix_of` out'.
Proof.
  induction 1 as [|out x c bs out' rest _ _ _ IH|out lc c eb len e dc' dc deb dist de bs out' rest _ _ _ _ _ _ _ _ _ IH];
    [done| |].
  - etransitivity; [|exact IH]. by eexists.
  - etransitivity; [apply copy_back_prefix|exact IH].
Qed.

Lemma block_body_prefix type out bs out' rest : block_body type out bs out' rest → out `prefix_of` out'.
Proof. destruct 1; [by eexists|by eapply compressed_prefix..]. Qed.

Lemma blocks_prefix out bs out' rest : blocks out bs out' rest → out `prefix_of` out'.
Proof.
  induction 1 as [|out type bs out1 bs1 out' rest _ Hb _ IH]; [by eapply block_body_prefix|].
  etransitivity; [by eapply block_body_prefix|exact IH].
Qed.

Lemma blocks_inv out bs out' rest :
  blocks out bs out' rest →
  ∃ (f : bool) type bs1 out1 rest1, bs = f :: lsb 2 type ++ bs1 ∧ 0 ≤ type ≤ 2 ∧
    block_body type out bs1 out1 rest1 ∧ (if f then out' = out1 ∧ rest = rest1 else blocks out1 rest1 out' rest).
Proof. destruct 1; [exists true|exists false]; by eauto 10. Qed.

Lemma stored_inv out bs out' rest :
  block_body 0 out bs out' rest →
  ∃ pad data, (length pad < 8)%nat ∧ (8 | Zlen rest) ∧ is_bytes data ∧ Zlen data < 65536 ∧
    bs = pad ++ lsb 16 (Zlen data) ++ lsb 16 (65535 - Zlen data) ++ bits_of data ++ rest ∧ out' = out ++ data.
Proof. inversion 1; subst. by eauto 10. Qed.

Lemma zlib_end_inv T rest :
  zlib_end T rest →
  ∃ pad adler, T = pad ++ adler ++ rest ∧ (length pad < 8)%nat ∧ length adler = 32%nat ∧ (8 | Zlen rest).
Proof. destruct 1. by eauto 10. Qed.

Lemma dynamic_inv out bs out' rest :
  block_body 2 out bs out' rest →
  ∃ hlit hdist hclen cl bs1 L bs2,
    bs = lsb 5 hlit ++ lsb 5 hdist ++ lsb 4 hclen ++ mjoin (map (lsb 3) cl) ++ bs1 ∧
    0 ≤ hlit ≤ 29 ∧ 0 ≤ hdist ≤ 31 ∧ 0 ≤ hclen ≤ 15 ∧ Zlen cl = hclen + 4 ∧ Forall (λ x, 0 ≤ x < 8) cl ∧
    complete (codelen_lengths cl) ∧
    code_length_seq (codelen_lengths cl) (hlit + 257 + (hdist + 1)) [] bs1 L bs2 ∧
    complete (take (Z.to_nat (hlit + 257)) L) ∧ valid_distances (drop (Z.to_nat (hlit + 257)) L) ∧
    compressed (take (Z.to_nat (hlit + 257)) L) (drop (Z.to_nat (hlit + 257)) L) out bs2 out' rest.
Proof.
  inversion 1 as [| |? ? Ll Ld bs' ? ? Hdyn Hcomp]; subst. destruct Hdyn.
  eexists _, _, _, _, _, _, _. split; [reflexivity|]. by eauto 20.
Qed.

Lemma code_length_seq_inv Lc total acc T L T' :
  code_length_seq Lc total acc T L T' →
  (Zlen acc = total ∧ L = acc ∧ T' = T) ∨
  (∃ sym c eb n v e bs, huff Lc sym c ∧ run_of sym acc = Some (eb, n, v) ∧ 0 ≤ e < 2 ^ Z.of_nat eb ∧
     Zlen acc + n + e ≤ total ∧ T = c ++ lsb eb e ++ bs ∧
     code_length_seq Lc total (acc ++ replicate (Z.to_nat (n + e)) v) bs L T').
Proof. destruct 1; [by left|right]. by eauto 15. Qed.

Lemma run_of_range sym acc eb n v :
  run_of sym acc = Some (eb, n, v) → 0 ≤ sym → Forall (λ x, 0 ≤ x < 16) acc →
  (eb ≤ 7)%nat ∧ 1 ≤ n ∧ 0 ≤ v < 16.
Proof.
  unfold run_of. intros Hr Hs Ha.
  case (Z.ltb_spec sym 16) as [?|?]; [simplify_eq; lia|].
  case (Z.eqb_spec sym 16) as [?|?].
  { destruct (last acc) as [p|] eqn:Hl; simplify_eq/=. apply last_Some in Hl as [acc' ->].
    apply Forall_app in Ha as [_ Ha]. inversion Ha; subst. lia. }
  repeat case_match; simplify_eq; lia.
Qed.

(** Two fields side by side. *)
Lemma lsb_app a b v w :
  0 ≤ v < 2 ^ Z.of_nat a → lsb a v ++ lsb b w = lsb (a + b) (v + 2 ^ Z.of_nat a * w).
Proof.
  revert v w. induction a as [|a IH]; intros v w Hv.
  { cbn [lsb app Nat.add]. f_equal. change (2 ^ Z.of_nat 0) with 1 in *. lia. }
  cbn [lsb app Nat.add]. rewrite pow2_S in *. f_equal.
  - rewrite <- Z.mul_assoc. by rewrite Z.odd_add_mul_2.
  - rewrite IH by (Z.div_mod_to_equations; lia). f_equal.
    replace (v + 2 * 2 ^ Z.of_nat a * w) with (v + (2 ^ Z.of_nat a * w) * 2) by ring. by rewrite Z.div_add by lia.
Qed.

(** The tables of the code agree with those of the RFC. *)
Lemma litlen_tables x eb len :
  length_codes !! Z.to_nat x = Some (eb, len) → 0 ≤ x →
  (if x <? 28 then (if x / 4 =? 0 then x / 4 else x / 4 - 1, get deflate_litlen_base x) else (0, 258)) =
  (Z.of_nat eb, len) ∧ x < 29 ∧ (eb ≤ 5)%nat ∧ 3 ≤ len ≤ 258.
Proof.
  intros Hx Hx0. assert (x < 29) as Hlt by (apply lookup_lt_Some in Hx; change (length length_codes) with 29%nat in Hx; lia).
  assert (Forall (λ x, from_option (λ p : nat * Z, bool_decide (
    (if x <? 28 then (if x / 4 =? 0 then x / 4 else x / 4 - 1, get deflate_litlen_base x) else (0, 258)) =
    (Z.of_nat p.1, p.2) ∧ x < 29 ∧ (p.1 ≤ 5)%nat ∧ 3 ≤ p.2 ≤ 258)) true (length_codes !! Z.to_nat x) = true) (seqZ 0 29))
    as Hall by by_decide.
  apply Forall_seqZ_lookup with (x := x) in Hall; [|lia].
  rewrite Hx in Hall. by apply bool_decide_eq_true in Hall.
Qed.

Lemma distance_tables x eb dist :
  distance_codes !! Z.to_nat x = Some (eb, dist) → 0 ≤ x →
  (if x / 2 =? 0 then x / 2 else x / 2 - 1) = Z.of_nat eb ∧ get deflate_distance_base x = dist ∧ (eb ≤ 14)%nat ∧ 1 ≤ dist.
Proof.
  intros Hx Hx0. assert (x < 30) as Hlt by (apply lookup_lt_Some in Hx; change (length distance_codes) with 30%nat in Hx; lia).
  assert (Forall (λ x, from_option (λ p : nat * Z, bool_decide (
    (if x / 2 =? 0 then x / 2 else x / 2 - 1) = Z.of_nat p.1 ∧ get deflate_distance_base x = p.2 ∧
    (p.1 ≤ 14)%nat ∧ 1 ≤ p.2)) true (distance_codes !! Z.to_nat x) = true) (seqZ 0 30)) as Hall by by_decide.
  apply Forall_seqZ_lookup with (x := x) in Hall; [|lia].
  rewrite Hx in Hall. by apply bool_decide_eq_true in Hall.
Qed.

(** *** Code lengths, two to a byte *)

Definition entries_are (ls : bytes) (L : list Z) : Prop :=
  length ls = 160%nat ∧ is_bytes ls ∧ (length L ≤ 320)%nat ∧ ∀ i, 0 ≤ i < 320 → deflate_length ls i = get L i.

Lemma deflate_length_eq ls i :
  deflate_length ls i = if i mod 2 =? 0 then get ls (i / 2) mod 16 else (get ls (i / 2) / 16) mod 16.
Proof.
  unfold deflate_length. change 0x0f with (2 ^ 4 - 1).
  pose proof (Z.mod_pos_bound i 2 ltac:(lia)). rewrite land_mask, Z.shiftr_div_pow2 by lia.
  assert (i mod 2 = 0 ∨ i mod 2 = 1) as [-> | ->] by lia; [|done].
  change (2 ^ (4 * 0)) with 1. by rewrite Z.div_1_r.
Qed.

Lemma get_insert_eq l i x : 0 ≤ i < Zlen l → get (<[Z.to_nat i := x]> l) i = x.
Proof. intros. unfold get. by rewrite list_lookup_insert_eq by lia. Qed.

Lemma get_insert_ne l i j x : 0 ≤ i → 0 ≤ j → i ≠ j → get (<[Z.to_nat i := x]> l) j = get l j.
Proof. intros. unfold get. by rewrite list_lookup_insert_ne by lia. Qed.

Lemma get_byte l i : is_bytes l → is_byte (get l i).
Proof.
  intros Hl. unfold get. destruct (l !! Z.to_nat i) as [x|] eqn:Hx; [by eapply (Forall_lookup_1 _ _ _ _ Hl)|done].
Qed.

(** Setting half of a byte that is still zero. *)
Lemma set_half x b :
  is_byte x → 0 ≤ b < 16 →
  (x mod 16 = 0 → u8 (Z.lor x (Z.shiftl b 0)) mod 16 = b ∧ (u8 (Z.lor x (Z.shiftl b 0)) / 16) mod 16 = (x / 16) mod 16) ∧
  ((x / 16) mod 16 = 0 → u8 (Z.lor x (Z.shiftl b 4)) mod 16 = x mod 16 ∧ (u8 (Z.lor x (Z.shiftl b 4)) / 16) mod 16 = b).
Proof.
  intros Hx Hb.
  assert (Forall (λ x, Forall (λ b,
    (x mod 16 = 0 → u8 (Z.lor x (Z.shiftl b 0)) mod 16 = b ∧ (u8 (Z.lor x (Z.shiftl b 0)) / 16) mod 16 = (x / 16) mod 16) ∧
    ((x / 16) mod 16 = 0 → u8 (Z.lor x (Z.shiftl b 4)) mod 16 = x mod 16 ∧ (u8 (Z.lor x (Z.shiftl b 4)) / 16) mod 16 = b))
    (seqZ 0 16)) (seqZ 0 256)) as Hall by by_decide.
  exact (Forall_seqZ_lookup _ _ b (Forall_seqZ_lookup _ _ x Hall Hx) Hb).
Qed.

Lemma set_length_entry ls i b :
  length ls = 160%nat → is_bytes ls → 0 ≤ i < 320 → 0 ≤ b < 16 → deflate_length ls i = 0 →
  ∀ j, 0 ≤ j < 320 → deflate_length (deflate_set_length i b ls) j = if decide (j = i) then b else deflate_length ls j.
Proof.
  intros Hls Hbs Hi Hb Hz j Hj. unfold deflate_set_length. rewrite !deflate_length_eq in *.
  destruct (decide (j / 2 = i / 2)) as [Heq|Hne].
  2: { rewrite get_insert_ne by (Z.div_mod_to_equations; lia). rewrite decide_False; [done|]. by intros ->. }
  rewrite Heq, get_insert_eq by (Z.div_mod_to_equations; lia).
  destruct (set_half (get ls (i / 2)) b (get_byte _ _ Hbs) Hb) as [Hlo Hhi].
  pose proof (Z.mod_pos_bound i 2 ltac:(lia)). pose proof (Z.mod_pos_bound j 2 ltac:(lia)).
  assert (i mod 2 = 0 ∨ i mod 2 = 1) as [Him|Him] by lia; rewrite Him in *;
    [change (4 * 0) with 0; destruct (Hlo Hz) as [H1 H2]|change (4 * 1) with 4; destruct (Hhi Hz) as [H1 H2]];
    rewrite H1, H2; case_decide as Hd; subst; rewrite ?Him; try done;
    case (Z.eqb_spec (j mod 2) 0) as [?|?]; try done; destruct Hd; Z.div_mod_to_equations; lia.
Qed.

Lemma set_length_bytes i b ls : is_bytes ls → is_bytes (deflate_set_length i b ls).
Proof. intros. unfold deflate_set_length. apply Forall_insert; [done|]. by apply wrap_range. Qed.

Lemma entries_snoc ls L b :
  entries_are ls L → (length L < 320)%nat → 0 ≤ b < 16 →
  entries_are (deflate_set_length (Zlen L) b ls) (L ++ [b]).
Proof.
  intros (Hls & Hbs & HL & He) Hlt Hb. split_and!; [by rewrite length_set_length|by apply set_length_bytes|rewrite length_app; cbn; lia|].
  intros i Hi. rewrite set_length_entry; [|done|done|lia|done| |done].
  - rewrite He by done. unfold get. case_decide as Hd; [subst i; by rewrite Nat2Z.id, list_lookup_middle|].
    destruct (decide (Z.to_nat i < length L)%nat) as [Hl|Hl]; [by rewrite lookup_app_l by done|].
    rewrite !lookup_ge_None_2; [done|rewrite length_app; cbn; lia|lia].
  - rewrite He by lia. unfold get. by rewrite Nat2Z.id, lookup_ge_None_2 by lia.
Qed.

Lemma entries_insert ls L i b :
  entries_are ls L → L !! i = Some 0 → 0 ≤ b < 16 →
  entries_are (deflate_set_length (Z.of_nat i) b ls) (<[i := b]> L).
Proof.
  intros (Hls & Hbs & HL & He) Hi0 Hb. pose proof (lookup_lt_Some _ _ _ Hi0) as Hi.
  split_and!; [by rewrite length_set_length|by apply set_length_bytes|by rewrite length_insert|].
  intros j Hj. rewrite set_length_entry; [|done|done|lia|done| |done].
  - rewrite He by done. unfold get. case_decide as Hd.
    + subst j. by rewrite Nat2Z.id, list_lookup_insert_eq.
    + by rewrite list_lookup_insert_ne by lia.
  - rewrite He by lia. unfold get. by rewrite Nat2Z.id, Hi0.
Qed.

Lemma entries_code_lengths ls L (n off : nat) :
  entries_are ls L → (off + n ≤ length L)%nat →
  code_lengths ls (Z.of_nat n) (Z.of_nat off) = take n (drop off L).
Proof.
  intros (_ & _ & HL & He) Hn. apply list_eq. intros i. unfold code_lengths. rewrite list_lookup_fmap.
  destruct (decide (i < n)%nat) as [Hi|Hi].
  - rewrite lookup_seqZ_lt by lia. cbn [fmap option_fmap option_map]. rewrite lookup_take_lt, lookup_drop by done.
    destruct (lookup_lt_is_Some_2 L (off + i)) as [x Hx]; [lia|]. rewrite He by lia. unfold get.
    replace (Z.to_nat (0 + Z.of_nat i + Z.of_nat off)) with (off + i)%nat by lia. by rewrite Hx.
  - rewrite lookup_seqZ_ge by lia. rewrite lookup_ge_None_2; [done|]. rewrite length_take. lia.
Qed.

Lemma entries_compute ls L :
  length ls = 160%nat → is_bytes ls → (length L ≤ 320)%nat →
  Forall (λ i, deflate_length ls i = get L i) (seqZ 0 320) → entries_are ls L.
Proof. intros ??? Hall. split_and!; [done..|]. intros i Hi. exact (Forall_seqZ_lookup _ _ i Hall Hi). Qed.

Lemma entries_zero : entries_are (replicate 160 0) [].
Proof. apply entries_compute; by_decide. Qed.

Lemma entries_zero_codelen : entries_are (replicate 160 0) (replicate 19 0).
Proof. apply entries_compute; by_decide. Qed.

Lemma entries_static : entries_are static_lengths (fixed_litlen ++ fixed_distance).
Proof. apply entries_compute; by_decide. Qed.

Lemma fixed_complete : complete fixed_litlen ∧ complete fixed_distance.
Proof. split; by vm_compute. Qed.

(** Repeating a code length. *)
Lemma store_lengths_spec n d acc :
  entries_are (lengths d) acc → length_index d = Zlen acc → length_target d ≤ 320 →
  Zlen acc + Z.of_nat n ≤ length_target d → 0 ≤ length_ d < 16 →
  ∃ ls, store_lengths n d = set_length_index (Zlen acc + Z.of_nat n) (set_lengths ls d) ∧
        entries_are ls (acc ++ replicate n (length_ d)).
Proof.
  revert d acc. induction n as [|n IH]; intros d acc He Hi Ht Hn Hv; cbn [store_lengths replicate].
  { exists (lengths d). rewrite app_nil_r, Z.add_0_r, <- Hi. split; [by destruct d|done]. }
  rewrite (proj2 (Z.ltb_lt _ _)) by lia.
  edestruct (IH (set_length_index (length_index d + 1) (set_lengths (deflate_set_length (length_index d) (length_ d) (lengths d)) d))
             (acc ++ [length_ d])) as (ls & -> & Hls); dsimpl; rewrite ?length_app; cbn [length]; try lia.
  - rewrite Hi. apply entries_snoc; [done|lia|done].
  - exists ls. split; [|by rewrite <- app_assoc in Hls]. unfold set_length_index, set_lengths. cbn. f_equal. lia.
Qed.

(** *** The lengths of the code length codes *)

Lemma zip_snoc {A B} (l : list A) (k : list B) x y :
  l !! length k = Some x → zip l (k ++ [y]) = zip l k ++ [(x, y)].
Proof.
  revert l. induction k as [|z k IH]; intros [|w l] Hx; simplify_eq/=; [by destruct l|]. f_equal. by apply IH.
Qed.

Lemma codelen_lengths_snoc cl x i :
  codelen_order !! length cl = Some i → codelen_lengths (cl ++ [x]) = <[i := x]> (codelen_lengths cl).
Proof. intros Hi. unfold codelen_lengths. by rewrite (zip_snoc _ _ _ _ Hi), foldl_app. Qed.

Lemma codelen_lengths_zero cl i :
  (i < 19)%nat → i ∉ take (length cl) codelen_order → codelen_lengths cl !! i = Some 0.
Proof.
  intros Hi. induction cl as [|x cl IH] using rev_ind; intros Hnot.
  { unfold codelen_lengths. cbn [zip zip_with foldl]. by apply lookup_replicate_2. }
  rewrite length_app, Nat.add_1_r in Hnot. destruct (codelen_order !! length cl) as [j|] eqn:Hj.
  - rewrite (codelen_lengths_snoc _ _ _ Hj), (take_S_r _ _ _ Hj), not_elem_of_app in *. destruct Hnot as [Hnot Hne].
    rewrite list_lookup_insert_ne by set_solver. by apply IH.
  - assert (codelen_lengths (cl ++ [x]) = codelen_lengths cl) as ->.
    { unfold codelen_lengths. f_equal. apply lookup_ge_None_1 in Hj.
      revert Hj. generalize codelen_order. clear. intros l.
      revert l. induction cl as [|y cl IH]; intros [|w l] Hl; try done; [cbn in Hl; lia|]. cbn. f_equal. apply IH. cbn in Hl. lia. }
    apply IH. apply lookup_ge_None_1 in Hj. rewrite take_ge in * by lia. done.
Qed.

Lemma codelen_order_facts (k i : nat) :
  codelen_order !! k = Some i → (i < 19)%nat ∧ (i ∉ take k codelen_order) ∧ get deflate_codelen_map (Z.of_nat k) = Z.of_nat i.
Proof.
  intros Hk. assert (NoDup codelen_order) as Hnd by by_decide.
  assert (Forall (λ i, (i < 19)%nat) codelen_order) as Hall by by_decide.
  split_and!; [by eapply (Forall_lookup_1 _ _ _ _ Hall)| |].
  - intros Hin. apply list_elem_of_lookup_1 in Hin as [j Hj]. apply lookup_take_Some in Hj as [Hj Hlt].
    pose proof (NoDup_lookup _ _ _ _ Hnd Hj Hk). lia.
  - unfold get. rewrite Nat2Z.id. change deflate_codelen_map with (Z.of_nat <$> codelen_order).
    by rewrite list_lookup_fmap, Hk.
Qed.

(** *** Single distance codes *)

Lemma huff_single sym c : huff [1] sym c → huff [1; 1] sym c.
Proof.
  intros (b & k & Hb & Hk & ->).
  assert (Forall (λ b, b = 1 ∨ symbols [1] b = []) (seqZ 0 16)) as Hall by by_decide.
  apply Forall_seqZ_lookup with (x := Z.of_nat b) in Hall as [Hb1|Hnil]; [|by rewrite Hnil in Hk|lia].
  assert (b = 1%nat) as -> by lia. exists 1%nat, k. split_and!; [lia..| |done].
  destruct k; [exact Hk|done].
Qed.

Lemma huff_zero sym c : ¬ huff [0] sym c.
Proof.
  intros (b & k & Hb & Hk & _).
  assert (Forall (λ b, b = 0 ∨ symbols [0] b = []) (seqZ 0 16)) as Hall by by_decide.
  apply Forall_seqZ_lookup with (x := Z.of_nat b) in Hall as [Hb0|Hnil]; [lia|by rewrite Hnil in Hk|lia].
Qed.

Lemma compressed_mono Ll Ld Ld' out bs out' rest :
  (∀ sym c, huff Ld sym c → huff Ld' sym c) → compressed Ll Ld out bs out' rest → compressed Ll Ld' out bs out' rest.
Proof.
  intros Hd. induction 1; [by constructor|by econstructor|].
  eapply comp_copy; try done. by apply Hd.
Qed.

Lemma two_codes_complete : complete [1; 1].
Proof. by vm_compute. Qed.

(** A single code is never complete. *)
Lemma single_incomplete x : 0 ≤ x < 16 → ¬ complete [x].
Proof.
  intros Hx. assert (Forall (λ x, ¬ complete [x]) (seqZ 0 16)) as Hall by by_decide.
  exact (Forall_seqZ_lookup _ _ x Hall Hx).
Qed.

(** ** Simulation *)

Section correct.
Context `{Platform}.

(** The stream: its format, the bytes it stands for, the bits after it. *)
Variables (fmt : deflate_format) (D : bytes) (rest : list bool).
(** The output buffer. *)
Variables (buf : bytes) (len : nat).
Hypothesis D_size : in_range size_bits (Zlen D).

(** What follows the last block, and what follows a block. *)
Definition ending (T : list bool) : Prop :=
  match fmt with DEFLATE_RAW => T = rest | DEFLATE_ZLIB => zlib_end T rest end.

Definition following (final : bool) (h : bytes) (T : list bool) : Prop :=
  if final then D = h ∧ ending T else ∃ T', blocks h T D T' ∧ ending T'.

Abbreviation final d := (Z.odd (header d)).

Definition codes_are (d : deflate) (Ll Ld : list Z) : Prop :=
  complete Ll ∧ represents (litlen d) Ll ∧ complete Ld ∧ represents (distance_codelen d) Ld.

(** Code lengths still to be read, and the data they are for. *)
Definition lengths_ahead (d : deflate) (Lc acc : list Z) (h : bytes) (T : list bool) : Prop :=
  ∃ L T1 h' T', code_length_seq Lc (litlen_count d + distance_count d) acc T L T1 ∧
    complete (take (Z.to_nat (litlen_count d)) L) ∧ valid_distances (drop (Z.to_nat (litlen_count d)) L) ∧
    compressed (take (Z.to_nat (litlen_count d)) L) (drop (Z.to_nat (litlen_count d)) L) h T1 h' T' ∧
    following (final d) h' T'.

(** The code lengths read so far. *)
Definition lengths_so_far (d : deflate) (Lc acc : list Z) : Prop :=
  complete Lc ∧ represents (distance_codelen d) Lc ∧ entries_are (lengths d) acc ∧
  Forall (λ x, 0 ≤ x < 16) acc ∧ length_index d = Zlen acc ∧
  length_target d = litlen_count d + distance_count d ∧ Zlen acc < length_target d ∧ length_target d ≤ 320 ∧
  0 ≤ litlen_count d.

(** A string to duplicate of which the length is known. *)
Definition distance_ahead (d : deflate) (Ll Ld : list Z) (n : Z) (h : bytes) (T : list bool) : Prop :=
  ∃ dist_code dc deb dist de bs h' T', huff Ld dist_code dc ∧
    distance_codes !! Z.to_nat dist_code = Some (deb, dist) ∧ 0 ≤ de < 2 ^ Z.of_nat deb ∧ dist + de ≤ Zlen h ∧
    T = dc ++ lsb deb de ++ bs ∧ 0 ≤ n ∧
    compressed Ll Ld (copy_back (Z.to_nat n) (Z.to_nat (dist + de)) h) bs h' T' ∧ following (final d) h' T'.

(** What the rest of the stream is at each label, with [h] the output so far. *)
Definition expects (l : label) (d : deflate) (h : bytes) (T : list bool) : Prop :=
  match l with
  | zlib_header =>
      ∃ hdr T', 0 ≤ hdr < 65536 ∧ hdr mod 16 = 8 ∧ Z.testbit hdr 13 = false ∧ T = lsb 16 hdr ++ T' ∧ following false h T'
  | block_header => following false h T
  | literal_block => ∃ h' T', block_body 0 h T h' T' ∧ following (final d) h' T'
  | literal_len =>
      ∃ data T', is_bytes data ∧ Zlen data < 65536 ∧
        T = lsb 16 (Zlen data) ++ lsb 16 (65535 - Zlen data) ++ bits_of data ++ T' ∧ following (final d) (h ++ data) T'
  | literal_nlen =>
      ∃ data T', is_bytes data ∧ Zlen data < 65536 ∧ remaining d = Zlen data ∧
        T = lsb 16 (65535 - Zlen data) ++ bits_of data ++ T' ∧ following (final d) (h ++ data) T'
  | literal_data =>
      ∃ data T', is_bytes data ∧ remaining d = Zlen data ∧ T = bits_of data ++ T' ∧ following (final d) (h ++ data) T'
  | static_block => ∃ h' T', block_body 1 h T h' T' ∧ following (final d) h' T'
  | dynamic_header => ∃ h' T', block_body 2 h T h' T' ∧ following (final d) h' T'
  | dynamic_codelen =>
      ∃ cl1 cl2 bs, length_index d = Zlen cl1 ∧ length_target d = Zlen (cl1 ++ cl2) ∧ Zlen (cl1 ++ cl2) ≤ 19 ∧
        Forall (λ x, 0 ≤ x < 8) (cl1 ++ cl2) ∧ complete (codelen_lengths (cl1 ++ cl2)) ∧
        entries_are (lengths d) (codelen_lengths cl1) ∧ T = mjoin (map (lsb 3) cl2) ++ bs ∧
        0 < litlen_count d + distance_count d ≤ 320 ∧ 0 ≤ litlen_count d ∧
        lengths_ahead d (codelen_lengths (cl1 ++ cl2)) [] h bs
  | dynamic_litlen_distance =>
      ∃ Lc acc, lengths_so_far d Lc acc ∧ length_ d = default 0 (last acc) ∧ lengths_ahead d Lc acc h T
  | dynamic_litlen_distance_extra =>
      ∃ Lc acc eb e bs, lengths_so_far d Lc acc ∧ extra_bits d = Z.of_nat eb ∧ (eb ≤ 7)%nat ∧ 0 ≤ length_ d < 16 ∧
        0 ≤ e < 2 ^ Z.of_nat eb ∧ 1 ≤ dup_len d ∧ Zlen acc + dup_len d + e ≤ length_target d ∧
        T = lsb eb e ++ bs ∧ lengths_ahead d Lc (acc ++ replicate (Z.to_nat (dup_len d + e)) (length_ d)) h bs
  | construct_alphabets =>
      ∃ Ll Ld h' T', Zlen Ll = litlen_count d ∧ Zlen Ld = distance_count d ∧ entries_are (lengths d) (Ll ++ Ld) ∧
        Forall (λ x, 0 ≤ x < 16) Ld ∧ complete Ll ∧ valid_distances Ld ∧
        compressed Ll Ld h T h' T' ∧ following (final d) h' T'
  | lzhuf_litlen =>
      ∃ Ll Ld h' T', codes_are d Ll Ld ∧ compressed Ll Ld h T h' T' ∧ following (final d) h' T'
  | lzhuf_litlen_extra =>
      ∃ Ll Ld eb e bs, codes_are d Ll Ld ∧ extra_bits d = Z.of_nat eb ∧ (eb ≤ 5)%nat ∧ 0 ≤ e < 2 ^ Z.of_nat eb ∧
        T = lsb eb e ++ bs ∧ distance_ahead d Ll Ld (dup_len d + e) h bs
  | lzhuf_distance => ∃ Ll Ld, codes_are d Ll Ld ∧ distance_ahead d Ll Ld (dup_len d) h T
  | lzhuf_distance_extra =>
      ∃ Ll Ld deb de bs h' T', codes_are d Ll Ld ∧ extra_bits d = Z.of_nat deb ∧ (deb ≤ 14)%nat ∧
        0 ≤ de < 2 ^ Z.of_nat deb ∧ 1 ≤ dup_distance d ∧ dup_distance d + de ≤ Zlen h ∧ 0 ≤ dup_len d ∧
        T = lsb deb de ++ bs ∧
        compressed Ll Ld (copy_back (Z.to_nat (dup_len d)) (Z.to_nat (dup_distance d + de)) h) bs h' T' ∧
        following (final d) h' T'
  | block_done => following (final d) h T
  | zlib_footer => D = h ∧ zlib_end T rest
  | zlib_adler32 => D = h ∧ ∃ adler, length adler = 32%nat ∧ T = adler ++ rest
  | finished => D = h
  end.

(** Bytes of later chunks. *)
Variable future : bytes.

(** The state of the machine at a label agrees with the stream. *)
Definition agrees (l : label) (d : deflate) (c out : deflate_chunk) : Prop :=
  format d = fmt ∧ ∃ h, h `prefix_of` D ∧ holds_out buf len out h ∧
    expects l d h (stream (buffer d) c ++ bits_of future).

(** What a step achieves on a valid stream: a label at which the state agrees,
    or a return, finished or blocked for want of a later chunk. *)
Definition advances (o : outcome) : Prop :=
  match o with
  | Goto l' d' c' out' => agrees l' d' c' out'
  | Return rc d' c' out' =>
      rc = Ok tt ∧
      ((resume d' = None ∧ holds_out buf len out' D) ∨
       (∃ l', resume d' = Some l' ∧ agrees l' d' c' out' ∧ future ≠ []))
  end.

Lemma expects_resume l d r b h T : expects l (set_resume r (set_buffer b d)) h T = expects l d h T.
Proof. by destruct l. Qed.

Lemma lsb_inj n v1 v2 : 0 ≤ v1 < 2 ^ Z.of_nat n → 0 ≤ v2 < 2 ^ Z.of_nat n → lsb n v1 = lsb n v2 → v1 = v2.
Proof.
  intros H1 H2 Heq. apply (f_equal lval) in Heq. rewrite !lval_lsb in Heq. by rewrite !Z.mod_small in Heq.
Qed.

(** Extracting a field of the stream. *)
Lemma extract_advances (t : nat) e T' l d c out k h :
  buffer_ok (buffer d) → chunk_ok c → (t ≤ 16)%nat → 0 ≤ e < 2 ^ Z.of_nat t →
  stream (buffer d) c ++ bits_of future = lsb t e ++ T' →
  format d = fmt → h `prefix_of` D → holds_out buf len out h →
  expects l d h (stream (buffer d) c ++ bits_of future) →
  (∀ b' c', chunk_ok c' → buffer_ok b' → stream b' c' ++ bits_of future = T' → advances (k e (set_buffer b' d) c')) →
  advances (extract (Z.of_nat t) l d c out k).
Proof.
  intros Hb Hc Ht He HT Hf Hh Hout Hexp Hk.
  destruct (extract_cases (Z.of_nat t) l d c out k Hb Hc ltac:(lia))
    as [(b' & c' & -> & Hon & Hc' & Hb' & Hun & Hs & Hlt & Hmod)|(v & b' & c' & -> & Hon & Hc' & Hb' & Hv & Hs & _ & _)].
  - split; [done|]. right. exists l. split_and!; [done| |].
    + split; [done|]. exists h. split_and!; [done..|]. rewrite expects_resume. dsimpl. by rewrite Hs.
    + intros ->. rewrite app_nil_r in HT. apply (f_equal length) in HT. rewrite length_app, length_lsb in HT. lia.
  - rewrite Nat2Z.id in Hs. rewrite Hs, <- app_assoc in HT. apply app_inj_1 in HT as [HT1 HT2]; [|by rewrite !length_lsb].
    apply lsb_inj in HT1 as ->; [|done..]. by apply Hk.
Qed.

(** Decoding a code of the stream. *)
Lemma decode_advances L sym code T' a l d c out k h :
  complete L → represents a L → buffer_ok (buffer d) → chunk_ok c → huff L sym code →
  stream (buffer d) c ++ bits_of future = code ++ T' →
  format d = fmt → h `prefix_of` D → holds_out buf len out h →
  expects l d h (stream (buffer d) c ++ bits_of future) →
  (∀ b' c', chunk_ok c' → buffer_ok b' → 0 ≤ sym < Zlen L → stream b' c' ++ bits_of future = T' →
     advances (k sym (set_buffer b' d) c')) →
  advances (decode a l d c out k).
Proof.
  intros HL Ha Hb Hc Hcode HT Hf Hh Hout Hexp Hk.
  destruct (decode_cases L a l d c out k HL Ha Hb Hc)
    as [(b' & c' & -> & Hon & Hc' & Hb' & Hun & Hs & Hno)|(v & code' & b' & c' & -> & Hon & Hc' & Hb' & Hv & Hcode' & Hs)].
  - split; [done|]. right. exists l. split_and!; [done| |].
    + split; [done|]. exists h. split_and!; [done..|]. rewrite expects_resume. dsimpl. by rewrite Hs.
    + intros ->. apply (Hno sym code Hcode). rewrite app_nil_r in HT. rewrite HT. by eexists.
  - rewrite Hs, <- app_assoc in HT. destruct (huff_prefix_free _ _ _ _ _ _ _ HL Hcode' Hcode HT) as [-> ->].
    apply app_inv_head in HT. by apply Hk.
Qed.

(** The step leads to a label with the output unchanged. *)
Ltac arrives := split; [done|]; eexists; split_and!; [eassumption|eassumption|]; cbn [expects]; dsimpl.

Lemma zlib_header_advances d c out :
  wf zlib_header d → chunk_ok c → agrees zlib_header d c out → advances (at_zlib_header d c out).
Proof.
  intros (Hb & _) Hc (Hf & h & Hh & Hout & Hexp). pose proof Hexp as (hdr & T' & Hr & Hcm & Hdict & HT & Hnext).
  unfold at_zlib_header. change ZLIB_HEADER_BITS with (Z.of_nat 16).
  eapply (extract_advances 16 hdr T'); try done; try lia. intros b' c' Hc' Hb' Hs.
  unfold ZLIB_HEADER_CM_LSB, ZLIB_HEADER_CM_MASK, ZLIB_HEADER_CM_DEFLATE, ZLIB_HEADER_FDICT_BIT.
  rewrite Z.shiftr_0_r. change 0x0f with (2 ^ 4 - 1). rewrite land_mask by lia. change (2 ^ 4) with 16.
  rewrite Hcm. cbn [Z.eqb Pos.eqb negb].
  assert (Z.land hdr (Z.shiftl 1 13) = 0) as ->.
  { rewrite Z.shiftl_1_l. apply Z.bits_inj'. intros n Hn. rewrite Z.land_spec, Z.pow2_bits_eqb, Z.bits_0 by lia.
    case (Z.eqb_spec 13 n) as [<-|]; [by rewrite Hdict|by rewrite andb_false_r]. }
  cbn [Z.eqb negb]. arrives. by rewrite Hs.
Qed.

(** The header of a block. *)
Lemma header_bits (f : bool) type :
  0 ≤ type ≤ 2 → let e := Z.b2z f + 2 * type in
  f :: lsb 2 type = lsb 3 e ∧ 0 ≤ e < 2 ^ Z.of_nat 3 ∧ Z.shiftr e 1 = type ∧ Z.odd e = f.
Proof. intros Ht e. unfold e. assert (type = 0 ∨ type = 1 ∨ type = 2) as [->|[->| ->]] by lia; by destruct f. Qed.

Lemma block_header_body d c out (f : bool) type bs h h1 T1 :
  wf block_header d → chunk_ok c → format d = fmt → h `prefix_of` D → holds_out buf len out h →
  stream (buffer d) c ++ bits_of future = f :: lsb 2 type ++ bs → 0 ≤ type ≤ 2 →
  expects block_header d h (stream (buffer d) c ++ bits_of future) →
  block_body type h bs h1 T1 → following f h1 T1 → advances (at_block_header d c out).
Proof.
  intros (Hb & _) Hc Hf Hh Hout HT Ht Hexp Hbody Hnext.
  destruct (header_bits f type Ht) as (Hbits & Hr & Hshift & Hodd). set (e := Z.b2z f + 2 * type) in *.
  unfold at_block_header. change DEFLATE_HEADER_BITS with (Z.of_nat 3).
  eapply (extract_advances 3 e bs); try done; try lia; [by rewrite HT, <- Hbits|]. intros b' c' Hc' Hb' Hs.
  unfold DEFLATE_HEADER_BTYPE_LSB. rewrite Hshift.
  assert (type = 0 ∨ type = 1 ∨ type = 2) as [->|[->| ->]] by lia; arrives; exists h1, T1; rewrite Hs, Hodd; done.
Qed.

Lemma block_header_advances d c out :
  wf block_header d → chunk_ok c → agrees block_header d c out → advances (at_block_header d c out).
Proof.
  intros Hwf Hc (Hf & h & Hh & Hout & Hexp). pose proof Hexp as (T' & Hblocks & Hend).
  destruct (blocks_inv _ _ _ _ Hblocks) as (f & type & bs & h1 & T1 & HT & Ht & Hbody & Hrest).
  eapply (block_header_body d c out f type); try done. destruct f; [|by exists T'].
  destruct Hrest as [-> ->]. by split.
Qed.

(** *** Stored blocks *)

Lemma stream_mod8 b c : (8 | Zlen (stream b c ++ bits_of future) - Zlen (held b)).
Proof.
  unfold stream. rewrite !length_app, !length_bits_of. exists (Zlen (unread c) + Zlen future). lia.
Qed.

(** Skipping to a byte boundary. *)
Lemma discard_pad b c pad X :
  buffer_ok b → stream b c ++ bits_of future = pad ++ X → (length pad < 8)%nat → (8 | Zlen X) →
  stream (deflate_discard_to_byte b) c ++ bits_of future = X.
Proof.
  intros Hb HT Hpad [q Hq]. destruct (discard_spec b Hb) as [_ Heq].
  destruct (stream_mod8 b c) as [p Hp]. rewrite HT, length_app in Hp.
  assert (length (held b) mod 8 = length pad)%nat as Hmod.
  { apply Nat2Z.inj. rewrite Nat2Z.inj_mod. change (Z.of_nat 8) with 8.
    replace (Zlen (held b)) with (Zlen pad + (q - p) * 8) by lia. rewrite Z.mod_add by lia. apply Z.mod_small. lia. }
  assert (length pad ≤ length (held b))%nat as Hle by (rewrite <- Hmod; apply Nat.Div0.mod_le).
  unfold stream in *. rewrite Heq, Hmod.
  rewrite <- drop_app_le, <- drop_app_le by (rewrite ?length_app; lia). rewrite HT. apply drop_app_length.
Qed.

Lemma literal_block_advances d c out :
  wf literal_block d → chunk_ok c → agrees literal_block d c out → advances (at_literal_block d c out).
Proof.
  intros (Hb & _) Hc (Hf & h & Hh & Hout & h' & T' & Hbody & Hnext).
  destruct (stored_inv _ _ _ _ Hbody) as (pad & data & Hpad & Hrest & Hdata & Hlen & HT & ->).
  apply discard_pad in HT; [|done|done|].
  - unfold at_literal_block. arrives. exists data, T'. rewrite HT. done.
  - rewrite !length_app, !length_lsb, length_bits_of. destruct Hrest as [q Hq]. exists (4 + Zlen data + q). lia.
Qed.

Lemma literal_len_advances d c out :
  wf literal_len d → chunk_ok c → agrees literal_len d c out → advances (at_literal_len d c out).
Proof.
  intros (Hb & _) Hc (Hf & h & Hh & Hout & Hexp). pose proof Hexp as (data & T' & Hdata & Hlen & HT & Hnext).
  unfold at_literal_len. change DEFLATE_LITERAL_LEN_BITS with (Z.of_nat 16).
  eapply (extract_advances 16 (Zlen data)); try done; try lia; [by eapply aligned_ok|].
  intros b' c' Hc' Hb' Hs. arrives. exists data, T'. rewrite Hs. done.
Qed.

Lemma literal_nlen_advances d c out :
  wf literal_nlen d → chunk_ok c → agrees literal_nlen d c out → advances (at_literal_nlen d c out).
Proof.
  intros (Hb & _) Hc (Hf & h & Hh & Hout & Hexp). pose proof Hexp as (data & T' & Hdata & Hlen & Hrem & HT & Hnext).
  unfold at_literal_nlen. change DEFLATE_LITERAL_LEN_BITS with (Z.of_nat 16).
  eapply (extract_advances 16 (65535 - Zlen data)); try done; try lia; [by eapply aligned_ok|].
  intros b' c' Hc' Hb' Hs. dsimpl. rewrite Hrem.
  assert (Z.land (Z.lxor (Zlen data) (Z.lnot (65535 - Zlen data))) (Z.shiftl 1 (Z.of_nat 16) - 1) = 0) as ->.
  { rewrite Z.shiftl_1_l, land_mask by lia. unfold Z.lnot.
    replace (Z.pred (- (65535 - Zlen data))) with (Zlen data + (-1) * 2 ^ 16) by lia.
    apply Z.bits_inj'. intros n Hn. rewrite Z.bits_0. destruct (decide (n < 16)).
    - rewrite Z.mod_pow2_bits_low, Z.lxor_spec by lia.
      rewrite <- (Z.mod_pow2_bits_low (Zlen data + -1 * 2 ^ 16) 16) by lia. rewrite Z.mod_add by lia.
      rewrite Z.mod_pow2_bits_low by lia. apply xorb_nilpotent.
    - by rewrite Z.mod_pow2_bits_high by lia. }
  cbn [Z.eqb negb]. arrives. exists data, T'. rewrite Hs. done.
Qed.

Lemma following_prefix f h T : following f h T → h `prefix_of` D.
Proof. destruct f; [by intros [-> _]|]. intros (T' & Hb & _). by eapply blocks_prefix. Qed.

Lemma prefix_size h : h `prefix_of` D → in_range size_bits (Zlen h).
Proof. intros Hp. apply prefix_length in Hp. unfold in_range in *. lia. Qed.

Lemma bits_of_inj a b x y :
  is_bytes a → is_bytes b → length a = length b → bits_of a ++ x = bits_of b ++ y → a = b ∧ x = y.
Proof.
  intros Ha. revert b. induction Ha as [|u a Hu Ha IH]; intros [|v b] Hb Hl Heq; try done.
  inversion Hb as [|? ? Hv Hb']; subst. cbn [bits_of] in Heq. rewrite <- !app_assoc in Heq.
  apply app_inj_1 in Heq as [Huv Heq]; [|by rewrite !length_lsb]. apply lsb_inj in Huv as ->; [|done..].
  destruct (IH b Hb' ltac:(cbn in Hl; lia) Heq) as [-> ->]. done.
Qed.

Lemma take_data c n :
  chunk_ok c → (n ≤ length (unread c))%nat → take n (drop (Z.to_nat (chunk_offset c)) (chunk_data c)) = take n (unread c).
Proof.
  intros Hc Hn. pose proof (length_unread c Hc). destruct Hc as (? & ? & _). unfold unread in *.
  rewrite <- (take_drop (Z.to_nat (chunk_len c)) (chunk_data c)) at 1.
  rewrite drop_app_le by (rewrite length_take; lia). rewrite take_app_le by lia. done.
Qed.

Lemma literal_data_advances d c out :
  wf literal_data d → chunk_ok c → agrees literal_data d c out → advances (at_literal_data d c out).
Proof.
  intros (Hb & _ & Hrem) Hc (Hf & h & Hh & Hout & data & T' & Hdata & Hr & HT & Hnext). cbn [fields_at buffer_at] in *.
  unfold at_literal_data. pose proof Hc as (Hoff & Hlen & Hin & Hbytes). pose proof (length_unread c Hc) as Hun.
  assert (held (buffer d) = []) as Hnil by (apply length_zero_iff_nil; destruct Hb as (_ & _ & ?); lia).
  unfold stream in HT. rewrite Hnil in HT. cbn [app] in HT.
  rewrite (wrap_small _ (chunk_len c - chunk_offset c)) by (unfold in_range in *; lia). rewrite Hr.
  set (m := Nat.min (length (unread c)) (length data)).
  assert ((if chunk_len c - chunk_offset c <? Zlen data then chunk_len c - chunk_offset c else Zlen data) = Z.of_nat m) as ->
    by (case_match; lia).
  rewrite (wrap_small _ (chunk_offset c + Z.of_nat m)) by (unfold in_range in *; lia).
  change (Chunk (chunk_data c) (chunk_offset c + Z.of_nat m) (chunk_len c)) with (advanced m c).
  pose proof (following_prefix _ _ _ Hnext) as Hpre.
  assert (take m (unread c) = take m data ∧ bits_of (drop m (unread c)) ++ bits_of future = bits_of (drop m data) ++ T')
    as [Htake Hrest].
  { rewrite <- (take_drop m (unread c)), <- (take_drop m data), !bits_of_app, <- !app_assoc in HT.
    apply bits_of_inj in HT; [done|by apply Forall_take, unread_bytes|by apply Forall_take|]. rewrite !length_take. lia. }
  assert (h ++ take m data `prefix_of` D) as Hpre'.
  { etransitivity; [|exact Hpre]. exists (drop m data). by rewrite <- app_assoc, take_drop. }
  pose proof (copy_other buf len out h (chunk_data c) (chunk_offset c) (Z.of_nat m) Hout ltac:(lia) ltac:(lia) ltac:(lia)) as Hcopy.
  rewrite Nat2Z.id, take_data, Htake in Hcopy by (done || lia).
  specialize (Hcopy ltac:(apply prefix_size in Hpre'; rewrite length_app, length_take, Nat2Z.inj_add in Hpre';
                          replace (Z.of_nat (m `min` length data)) with (Z.of_nat m) in Hpre' by lia; exact Hpre')).
  dsimpl. case (Z.eqb_spec (Zlen data - Z.of_nat m) 0) as [Hz|Hnz]; cbn [negb].
  - rewrite (take_ge data m) in Hcopy by lia. rewrite (drop_ge data m) in Hrest by lia.
    split; [done|]. exists (h ++ data). split_and!; [done|done|]. cbn [expects]. dsimpl.
    unfold stream. rewrite Hnil, unread_advanced by done. cbn [app]. by rewrite Hrest.
  - split; [done|]. right. exists literal_data. split_and!; [done| |].
    + split; [done|]. exists (h ++ take m data). split_and!; [done|done|]. cbn [expects]. dsimpl.
      exists (drop m data), T'. split_and!; [by apply Forall_drop|rewrite length_drop; lia| |].
      * unfold stream. rewrite Hnil, unread_advanced by done. done.
      * by rewrite <- app_assoc, take_drop.
    + intros ->. apply (f_equal length) in Hrest. rewrite !length_app, !length_bits_of, !length_drop in Hrest. cbn in Hrest. lia.
Qed.

(** *** Compressed blocks *)

Lemma compressed_inv Ll Ld h bs h' T' :
  compressed Ll Ld h bs h' T' →
  (∃ c, huff Ll 256 c ∧ bs = c ++ T' ∧ h' = h) ∨
  (∃ x c bs1, huff Ll x c ∧ x < 256 ∧ bs = c ++ bs1 ∧ compressed Ll Ld (h ++ [x]) bs1 h' T') ∨
  (∃ lc c eb n e bs1, huff Ll lc c ∧ 257 ≤ lc ∧ length_codes !! Z.to_nat (lc - 257) = Some (eb, n) ∧
     0 ≤ e < 2 ^ Z.of_nat eb ∧ bs = c ++ lsb eb e ++ bs1 ∧
     ∃ dist_code dc deb dist de bs2, huff Ld dist_code dc ∧
       distance_codes !! Z.to_nat dist_code = Some (deb, dist) ∧ 0 ≤ de < 2 ^ Z.of_nat deb ∧ dist + de ≤ Zlen h ∧
       bs1 = dc ++ lsb deb de ++ bs2 ∧
       compressed Ll Ld (copy_back (Z.to_nat (n + e)) (Z.to_nat (dist + de)) h) bs2 h' T').
Proof. destruct 1; [left|right; left|right; right]; by eauto 25. Qed.

Lemma huff_range L sym c : huff L sym c → 0 ≤ sym < Zlen L.
Proof. intros (b & k & _ & Hk & _). by eapply symbols_range. Qed.

Lemma lzhuf_litlen_advances d c out :
  wf lzhuf_litlen d → chunk_ok c → agrees lzhuf_litlen d c out → advances (at_lzhuf_litlen d c out).
Proof.
  intros (Hb & _) Hc (Hf & h & Hh & Hout & Hexp).
  pose proof Hexp as (Ll & Ld & h' & T' & Hcodes & Hcomp & Hnext). pose proof Hcodes as (Hcl & Hrl & _).
  pose proof (following_prefix _ _ _ Hnext) as Hpre. unfold at_lzhuf_litlen, DEFLATE_LITLEN_END.
  apply compressed_inv in Hcomp as [(code & Hcode & HT & ->)|[(x & code & bs & Hcode & Hx & HT & Hcomp)|
    (lc & code & eb & n & e & bs & Hcode & Hlc & Htab & He & HT & Hdist)]];
    (eapply (decode_advances Ll _ code) with (h := h); [exact Hcl|exact Hrl|exact Hb|exact Hc|exact Hcode|exact HT|done|done|done|exact Hexp|]);
    intros b' c' Hc' Hb' Hsym Hs.
  - cbn [Z.ltb Z.eqb Z.compare Pos.compare Pos.compare_cont Pos.eqb]. arrives. by rewrite Hs.
  - rewrite (proj2 (Z.ltb_lt x 256)) by done. rewrite (wrap_small 8 x) by (unfold in_range; lia).
    pose proof (compressed_prefix _ _ _ _ _ _ Hcomp) as Hp1.
    assert (h ++ [x] `prefix_of` D) as Hp2 by (by etransitivity).
    pose proof (copy_other buf len out h [x] 0 1 Hout ltac:(lia) ltac:(lia) ltac:(cbn; lia)
      ltac:(apply prefix_size in Hp2; rewrite length_app in Hp2; cbn in Hp2; by replace (Zlen h + 1) with (Z.of_nat (length h + 1)) by lia)) as Hcopy.
    cbn in Hcopy. arrives. exists Ll, Ld, h', T'. by rewrite Hs.
  - rewrite (proj2 (Z.ltb_ge lc 256)), (proj2 (Z.eqb_neq lc 256)) by lia.
    replace (lc - 256 - 1) with (lc - 257) by lia.
    destruct (litlen_tables (lc - 257) eb n Htab ltac:(lia)) as (Htables & _ & Heb & Hn).
    destruct Hdist as (dist_code & dc & deb & dist & de & bs2 & Hdist).
    assert (∀ d', codes_are d' Ll Ld → final d' = final d → extra_bits d' = Z.of_nat eb → dup_len d' = n →
            expects lzhuf_litlen_extra d' h (stream b' c' ++ bits_of future)) as Hgo.
    { intros d' Hcd Hfin Heb' Hn'. cbn [expects]. exists Ll, Ld, eb, e, bs. split_and!; try done || lia.
      exists dist_code, dc, deb, dist, de, bs2, h', T'. rewrite Hfin, Hn'. split_and!; try apply Hdist; done || lia. }
    destruct (lc - 257 <? 28); injection Htables as Hx1 Hx2; (split; [done|]); exists h; split_and!; try done;
      apply Hgo; dsimpl; done.
Qed.

Lemma lzhuf_litlen_extra_advances d c out :
  wf lzhuf_litlen_extra d → chunk_ok c → agrees lzhuf_litlen_extra d c out → advances (at_lzhuf_litlen_extra d c out).
Proof.
  intros (Hb & _) Hc (Hf & h & Hh & Hout & Hexp).
  pose proof Hexp as (Ll & Ld & eb & e & bs & Hcodes & Heb & Hle & He & HT & Hdist).
  unfold at_lzhuf_litlen_extra. rewrite Heb.
  eapply (extract_advances eb e bs) with (h := h); try done; try lia.
  intros b' c' Hc' Hb' Hs. dsimpl. arrives. exists Ll, Ld. by rewrite Hs.
Qed.

Lemma lzhuf_distance_advances d c out :
  wf lzhuf_distance d → chunk_ok c → agrees lzhuf_distance d c out → advances (at_lzhuf_distance d c out).
Proof.
  intros (Hb & _) Hc (Hf & h & Hh & Hout & Hexp).
  pose proof Hexp as (Ll & Ld & Hcodes & dist_code & dc & deb & dist & de & bs & h' & T' & Hcode & Htab & Hde & Hd & HT & Hn & Hcomp & Hnext).
  pose proof Hcodes as (_ & _ & Hcd & Hrd). unfold at_lzhuf_distance.
  eapply (decode_advances Ld _ dc) with (h := h);
    [exact Hcd|exact Hrd|exact Hb|exact Hc|exact Hcode|exact HT|done|done|done|exact Hexp|].
  intros b' c' Hc' Hb' Hsym Hs. destruct (distance_tables dist_code deb dist Htab ltac:(lia)) as (-> & -> & Hdeb & Hdist).
  arrives. exists Ll, Ld, deb, de, bs, h', T'. rewrite Hs. split_and!; done || lia.
Qed.

Lemma lzhuf_distance_extra_advances d c out :
  wf lzhuf_distance_extra d → chunk_ok c → agrees lzhuf_distance_extra d c out →
  advances (at_lzhuf_distance_extra d c out).
Proof.
  intros (Hb & _) Hc (Hf & h & Hh & Hout & Hexp).
  pose proof Hexp as (Ll & Ld & deb & de & bs & h' & T' & Hcodes & Heb & Hle & Hde & Hd1 & Hd & Hn & HT & Hcomp & Hnext).
  unfold at_lzhuf_distance_extra. rewrite Heb.
  eapply (extract_advances deb de bs) with (h := h); try done; try lia.
  intros b' c' Hc' Hb' Hs. dsimpl. pose proof Hout as (_ & _ & Hoff & _).
  rewrite (proj2 (Z.ltb_ge (chunk_offset out) _)) by lia.
  pose proof (compressed_prefix _ _ _ _ _ _ Hcomp) as Hp1.
  pose proof (following_prefix _ _ _ Hnext) as Hp2.
  assert (copy_back (Z.to_nat (dup_len d)) (Z.to_nat (dup_distance d + de)) h `prefix_of` D) as Hp by (by etransitivity).
  pose proof (prefix_size _ Hp) as Hsz. rewrite length_copy_back, Nat2Z.inj_add, Z2Nat.id in Hsz by lia.
  pose proof (copy_own buf len out h (dup_len d) (dup_distance d + de) Hout Hn ltac:(lia) Hsz) as Hcopy.
  arrives. exists Ll, Ld, h', T'. by rewrite Hs.
Qed.

(** Ends of blocks and of the stream. *)
Lemma block_done_advances d c out :
  chunk_ok c → agrees block_done d c out → advances (at_block_done d c out).
Proof.
  intros Hc (Hf & h & Hh & Hout & Hexp). cbn [expects] in Hexp. unfold at_block_done.
  assert (Z.land (header d) (Z.shiftl 1 0) = Z.b2z (final d)) as ->.
  { change (Z.shiftl 1 0) with (2 ^ 1 - 1). rewrite land_mask by lia. change (2 ^ 1) with 2. rewrite Zmod_odd. by destruct (final d). }
  destruct (final d); cbn [Z.b2z Z.eqb]; [|by arrives].
  destruct Hexp as [HD Hend].
  assert (format d = DEFLATE_RAW ∨ format d = DEFLATE_ZLIB ∧ zlib_end (stream (buffer d) c ++ bits_of future) rest)
    as [-> | [-> Hz]] by (rewrite Hf; unfold ending in Hend; destruct fmt; auto); by arrives.
Qed.

Lemma zlib_footer_advances d c out :
  wf zlib_footer d → chunk_ok c → agrees zlib_footer d c out → advances (at_zlib_footer d c out).
Proof.
  intros (Hb & _) Hc (Hf & h & Hh & Hout & HD & Hend). unfold at_zlib_footer.
  destruct (zlib_end_inv _ _ Hend) as (pad & adler & HT & Hpad & Hadler & Hrest).
  apply discard_pad in HT; [|done|done|].
  - arrives. split; [done|]. exists adler. by rewrite HT.
  - rewrite length_app, Hadler. destruct Hrest as [q Hq]. exists (4 + q). lia.
Qed.

Lemma zlib_adler32_advances d c out :
  wf zlib_adler32 d → chunk_ok c → agrees zlib_adler32 d c out → advances (at_zlib_adler32 d c out).
Proof.
  intros (Hb & _) Hc (Hf & h & Hh & Hout & HD & adler & Hadler & HT). unfold at_zlib_adler32.
  destruct (adler_cases _ c Hb Hc) as (x & b' & c' & -> & Hon & Hc' & Hb' & Hs & -> & Hend).
  case (Z.ltb_spec (Zlen (held b') - 32) 0) as [Hlt|Hge]; [|by arrives].
  split; [done|]. right. exists zlib_adler32. split_and!; [done| |].
  - arrives. split; [done|]. exists adler. by rewrite Hs.
  - intros ->. rewrite app_nil_r, <- Hs in HT. unfold stream in HT. destruct Hend as [?|Hend]; [lia|].
    rewrite Hend in HT. apply (f_equal length) in HT. rewrite !length_app in HT. cbn in HT. lia.
Qed.

(** Construction of the alphabets. *)
Lemma static_block_advances d c out :
  wf static_block d → agrees static_block d c out → advances (at_static_block d c out).
Proof.
  intros (_ & Hroom & _) (Hf & h & Hh & Hout & h' & T' & Hbody & Hnext).
  assert (compressed fixed_litlen fixed_distance h (stream (buffer d) c ++ bits_of future) h' T') as Hcomp
    by (by inversion Hbody).
  unfold at_static_block. rewrite fill_static by apply Hroom. destruct fixed_complete as [Hcl Hcd].
  arrives. exists fixed_litlen, fixed_distance, h', T'.
  split_and!; [done|done|exact entries_static|by_decide|exact Hcl|by left|done|done].
Qed.

Lemma construct_alphabets_advances d c out :
  wf construct_alphabets d → agrees construct_alphabets d c out → advances (at_construct_alphabets d c out).
Proof.
  intros (_ & Hroom & _) (Hf & h & Hh & Hout & Ll & Ld & h' & T' & Hll & Hld & He & Hsmall & Hcl & Hvd & Hcomp & Hnext).
  pose proof Hroom as (Hlen & Hal & Had & Hlc & Hdc). unfold at_construct_alphabets.
  assert (code_lengths (lengths d) (litlen_count d) 0 = Ll) as HLl.
  { rewrite <- Hll. change 0 with (Z.of_nat 0). rewrite (entries_code_lengths _ _ _ _ He) by (rewrite length_app; lia).
    rewrite drop_0. apply take_app_length. }
  destruct (alphabet_init_spec (lengths d) (litlen d) 288 (litlen_count d) 0) as (a & -> & Ha & Hrep); [lia|lia|done|].
  rewrite HLl in *. rewrite decide_True by done. dsimpl.
  case (Z.eqb_spec (distance_count d) 1) as [H1|Hn1]; dsimpl.
  - assert (code_lengths (<[0%nat:=0x11]> (lengths d)) 2 0 = [1; 1]) as HLd.
    { destruct (lengths d) as [|x ls]; [done|]. by vm_compute. }
    destruct (alphabet_init_spec (<[0%nat:=0x11]> (lengths d)) (distance_codelen d) 32 2 0) as (a' & -> & Ha' & Hrep'); [lia|lia|done|].
    rewrite HLd in *. pose proof two_codes_complete as H2. rewrite decide_True by done.
    arrives. exists Ll, [1; 1], h', T'. split_and!; [split_and!; dsimpl; auto| |done].
    eapply compressed_mono; [|exact Hcomp]. intros sym code Hcode.
    destruct Hvd as [Hvd|[->| ->]]; [|exact (huff_single _ _ Hcode)|exact (False_ind _ (huff_zero _ _ Hcode))].
    destruct Ld as [|x [|y Ld]]; cbn [length] in Hld; try lia. inversion Hsmall as [|? ? Hx _]; subst.
    exact (False_ind _ (single_incomplete x Hx Hvd)).
  - assert (code_lengths (lengths d) (distance_count d) (litlen_count d) = Ld) as HLd.
    { rewrite <- Hll, <- Hld. rewrite (entries_code_lengths _ _ _ _ He) by (rewrite length_app; lia).
      rewrite drop_app_length. by apply take_ge. }
    destruct (alphabet_init_spec (lengths d) (distance_codelen d) 32 (distance_count d) (litlen_count d)) as (a' & -> & Ha' & Hrep'); [lia|lia|done|].
    rewrite HLd in *. assert (complete Ld) as Hcd by (destruct Hvd as [?|[->| ->]]; [done|cbn in Hld; lia..]).
    rewrite decide_True by done. arrives. exists Ll, Ld, h', T'. split_and!; [split_and!; dsimpl; auto|done|done].
Qed.

(** *** Dynamic code lengths *)

Lemma dynamic_fields hlit hdist hclen :
  0 ≤ hlit < 32 → 0 ≤ hdist < 32 → 0 ≤ hclen < 16 →
  let e := hlit + 2 ^ 5 * (hdist + 2 ^ 5 * hclen) in
  lsb 5 hlit ++ lsb 5 hdist ++ lsb 4 hclen = lsb 14 e ∧ 0 ≤ e < 2 ^ Z.of_nat 14 ∧
  Z.land (Z.shiftr e DEFLATE_DYNAMIC_HLIT_LSB) DEFLATE_DYNAMIC_HLIT_MASK = hlit ∧
  Z.land (Z.shiftr e DEFLATE_DYNAMIC_HDIST_LSB) DEFLATE_DYNAMIC_HDIST_MASK = hdist ∧
  Z.land (Z.shiftr e DEFLATE_DYNAMIC_HCLEN_LSB) DEFLATE_DYNAMIC_HCLEN_MASK = hclen.
Proof.
  intros H1 H2 H3 e. unfold DEFLATE_DYNAMIC_HLIT_LSB, DEFLATE_DYNAMIC_HDIST_LSB, DEFLATE_DYNAMIC_HCLEN_LSB,
    DEFLATE_DYNAMIC_HLIT_MASK, DEFLATE_DYNAMIC_HDIST_MASK, DEFLATE_DYNAMIC_HCLEN_MASK.
  change 0x1f with (2 ^ 5 - 1). change 0x0f with (2 ^ 4 - 1). rewrite !land_mask, !Z.shiftr_div_pow2 by lia.
  rewrite !lsb_app by done. unfold e. change (Z.of_nat 5) with 5.
  change (2 ^ 5) with 32. change (2 ^ 4) with 16. change (2 ^ 10) with 1024. change (2 ^ 0) with 1.
  change (2 ^ Z.of_nat 14) with 16384. split_and!; [done|..]; Z.div_mod_to_equations; lia.
Qed.

Lemma dynamic_header_advances d c out :
  wf dynamic_header d → chunk_ok c → agrees dynamic_header d c out → advances (at_dynamic_header d c out).
Proof.
  intros (Hb & Hroom & _) Hc (Hf & h & Hh & Hout & Hexp). pose proof Hexp as (h' & T' & Hbody & Hnext).
  destruct (dynamic_inv _ _ _ _ Hbody)
    as (hlit & hdist & hclen & cl & bs & L & bs2 & HT & H1 & H2 & H3 & Hcl & Hsmall & Hcomp & Hseq & Hc1 & Hc2 & Hdata).
  destruct (dynamic_fields hlit hdist hclen ltac:(lia) ltac:(lia) ltac:(lia)) as (Hbits & He & Hf1 & Hf2 & Hf3).
  rewrite !app_assoc in HT. rewrite <- (app_assoc (lsb 5 hlit)), Hbits, <- !app_assoc in HT.
  unfold at_dynamic_header. change DEFLATE_DYNAMIC_BITS with (Z.of_nat 14).
  eapply (extract_advances 14 _ _) with (h := h); try done; try lia.
  intros b' c' Hc' Hb' Hs. rewrite Hf1, Hf2, Hf3.
  arrives. exists [], cl, bs. cbn [app length]. assert (length (lengths d) = 160%nat) as -> by apply Hroom.
  split_and!; [done|lia|lia|done|done|exact entries_zero_codelen|by rewrite Hs|lia..|].
  exists L, bs2, h', T'. done.
Qed.

Lemma code_length_seq_length Lc total acc T L T' : code_length_seq Lc total acc T L T' → Zlen L = total.
Proof. induction 1; done. Qed.

Lemma codelens_done_advances d c out :
  wf dynamic_codelen d → agrees dynamic_codelen d c out → length_target d ≤ length_index d →
  advances (codelens_done d c out).
Proof.
  intros (_ & Hroom & _) (Hf & h & Hh & Hout & cl1 & cl2 & bs & Hi & Ht & H19 & Hsmall & Hcomp & He & HT & Htot & Hlc & Hah) Hend.
  assert (cl2 = []) as -> by (destruct cl2; [done|]; rewrite length_app in Ht; cbn in Ht; lia).
  rewrite app_nil_r in *. cbn [map] in HT. rewrite mjoin_nil in HT. cbn [app] in HT.
  assert (length (codelen_lengths cl1) = 19%nat) as Hlen.
  { unfold codelen_lengths. assert (∀ l L, length (foldl (λ (L : list Z) '(i, v), <[i := v]> L) L l) = length L) as Hfold.
    { induction l as [|[i v] l IH]; intros L; [done|]. cbn [foldl]. by rewrite IH, length_insert. }
    by rewrite Hfold. }
  assert (code_lengths (lengths d) (DEFLATE_CODELEN_MAX_CODE + 1) 0 = codelen_lengths cl1) as HLc.
  { change (DEFLATE_CODELEN_MAX_CODE + 1) with (Z.of_nat 19). change 0 with (Z.of_nat 0).
    rewrite (entries_code_lengths _ _ _ _ He) by lia. rewrite drop_0. apply take_ge. lia. }
  pose proof Hroom as (Hl160 & _ & Had & _). unfold codelens_done.
  destruct (alphabet_init_spec (lengths d) (distance_codelen d) 32 (DEFLATE_CODELEN_MAX_CODE + 1) 0)
    as (a & -> & Ha & Hrep); [unfold DEFLATE_CODELEN_MAX_CODE; lia|lia|done|].
  rewrite HLc in *. rewrite decide_True by done. arrives.
  exists (codelen_lengths cl1), []. split_and!; [|done|].
  - unfold lengths_so_far. dsimpl. rewrite Hl160.
    split_and!; [exact Hcomp|by apply Hrep|exact entries_zero|constructor|done|done|cbn [length]; lia|lia|lia].
  - by rewrite HT.
Qed.

Lemma dynamic_codelen_advances d c out :
  wf dynamic_codelen d → chunk_ok c → agrees dynamic_codelen d c out → advances (at_dynamic_codelen d c out).
Proof.
  intros Hwf Hc Hag. unfold at_dynamic_codelen.
  case (Z.ltb_spec (length_index d) (length_target d)) as [Hlt|Hge]; [|by apply codelens_done_advances].
  destruct Hwf as (Hb & _). destruct Hag as (Hf & h & Hh & Hout & Hexp).
  pose proof Hexp as (cl1 & cl2 & bs & Hi & Ht & H19 & Hsmall & Hcomp & He & HT & Htot & Hlc & Hah).
  destruct cl2 as [|x cl2]; [rewrite app_nil_r in Ht; lia|].
  assert (0 ≤ x < 8) as Hx by (apply Forall_app in Hsmall as [_ Hs]; by inversion Hs).
  cbn [map] in HT. rewrite mjoin_cons, <- app_assoc in HT.
  change DEFLATE_CODELEN_BITS with (Z.of_nat 3).
  eapply (extract_advances 3 x) with (h := h); try done; try lia.
  intros b' c' Hc' Hb' Hs. destruct (codelen_order !! length cl1) as [i|] eqn:Hord.
  2: { apply lookup_ge_None_1 in Hord. change (length codelen_order) with 19%nat in Hord. rewrite length_app in H19. cbn in H19. lia. }
  destruct (codelen_order_facts _ _ Hord) as (Hi19 & Hnot & Hmap). dsimpl. rewrite Hi, Hmap.
  arrives. rewrite (cons_middle x cl1 cl2), app_assoc in *. exists (cl1 ++ [x]), cl2, bs.
  split_and!; try done; try lia; [rewrite length_app; cbn; lia|].
  rewrite (codelen_lengths_snoc _ _ _ Hord). apply entries_insert; [done|by apply codelen_lengths_zero|lia].
Qed.

(** The fields set for a code length code are those of the RFC. *)
Lemma dynamic_litlen_distance_advances d c out :
  wf dynamic_litlen_distance d → chunk_ok c → agrees dynamic_litlen_distance d c out →
  advances (at_dynamic_litlen_distance d c out).
Proof.
  intros (Hb & _) Hc (Hf & h & Hh & Hout & Hexp).
  pose proof Hexp as (Lc & acc & Hsofar & Hlast & L & T1 & h' & T' & Hseq & Hahead).
  pose proof Hsofar as (Hcc & Hrc & He & Hsmall & Hi & Ht & Hlt & H320 & Hlc).
  apply code_length_seq_inv in Hseq as [(Heq & _ & _)|(sym & code & eb & n & v & e & bs & Hcode & Hrun & Her & Htot & HT & Hseq)];
    [lia|].
  unfold at_dynamic_litlen_distance. eapply (decode_advances Lc _ code) with (h := h);
    [exact Hcc|exact Hrc|exact Hb|exact Hc|exact Hcode|exact HT|done|done|done|exact Hexp|].
  intros b' c' Hc' Hb' Hsym Hs.
  destruct (run_of_range _ _ _ _ _ Hrun ltac:(lia) Hsmall) as (Heb & Hn & Hv).
  assert (∀ d', lengths_so_far d' Lc acc → final d' = final d → litlen_count d' = litlen_count d →
            distance_count d' = distance_count d → length_target d' = length_target d →
            extra_bits d' = Z.of_nat eb → dup_len d' = n → length_ d' = v →
            expects dynamic_litlen_distance_extra d' h (stream b' c' ++ bits_of future)) as Hgo.
  { intros d' Hsf Hfin Hlc' Hdc' Ht' Heb' Hn' Hv'. cbn [expects]. exists Lc, acc, eb, e, bs.
    rewrite Hv', Hn', Ht', Ht. split_and!; try done || lia.
    exists L, T1, h', T'. rewrite Hlc', Hdc', Hfin. done. }
  unfold run_of in Hrun. unfold lengths_so_far in Hsofar.
  case (Z.ltb_spec sym 16) as [Hs16|Hs16].
  { simplify_eq. split; [done|]. exists h. split_and!; try done. apply Hgo; done. }
  case (Z.eqb_spec sym 16) as [->|].
  { destruct (last acc) as [p|] eqn:Hl; simplify_eq/=. split; [done|]. exists h. split_and!; try done. apply Hgo; done. }
  case (Z.eqb_spec sym 17) as [->|].
  { simplify_eq. split; [done|]. exists h. split_and!; try done. apply Hgo; done. }
  case (Z.eqb_spec sym 18) as [->|]; [|done].
  simplify_eq. split; [done|]. exists h. split_and!; try done. apply Hgo; done.
Qed.

Lemma dynamic_litlen_distance_extra_advances d c out :
  wf dynamic_litlen_distance_extra d → chunk_ok c → agrees dynamic_litlen_distance_extra d c out →
  advances (at_dynamic_litlen_distance_extra d c out).
Proof.
  intros (Hb & Hroom & _) Hc (Hf & h & Hh & Hout & Hexp).
  pose proof Hexp as (Lc & acc & eb & e & bs & Hsofar & Heb & Hle & Hv & Her & Hn & Htot & HT & Hah).
  pose proof Hsofar as (Hcc & Hrc & He & Hsmall & Hi & Ht & Hlt & H320 & Hlc).
  unfold at_dynamic_litlen_distance_extra. rewrite Heb.
  eapply (extract_advances eb e bs) with (h := h); try done; try lia.
  intros b' c' Hc' Hb' Hs. dsimpl. set (m := Z.to_nat (dup_len d + e)) in *.
  destruct (store_lengths_spec m (set_buffer b' d) acc) as (ls & -> & Hls); [done|done|done|dsimpl; lia|done|].
  dsimpl. set (acc' := acc ++ replicate m (length_ d)) in *.
  assert (Zlen acc' = Zlen acc + Z.of_nat m) as Hacc' by (unfold acc'; rewrite length_app, length_replicate; lia).
  assert (Forall (λ x, 0 ≤ x < 16) acc') as Hsmall' by (apply Forall_app; split; [done|by apply Forall_replicate]).
  case (Z.ltb_spec (Zlen acc + Z.of_nat m) (length_target d)) as [Hmore|Hdone].
  - arrives. exists Lc, acc'. unfold lengths_so_far. dsimpl. rewrite Hs. split_and!; try done; try lia.
    unfold acc'. replace m with (S (pred m)) by lia. by rewrite replicate_S_end, app_assoc, last_snoc.
  - destruct Hah as (L & T1 & h' & T' & Hseq & Hc1 & Hc2 & Hcomp & Hnext).
    apply code_length_seq_inv in Hseq as [(_ & -> & ->)|(sym & code & eb' & n & v & e' & bs' & Hcode & Hrun & ? & ? & _)].
    2: { destruct (run_of_range _ _ _ _ _ Hrun ltac:(by apply huff_range in Hcode; lia) Hsmall'). lia. }
    pose proof Hroom as (_ & _ & _ & _ & Hdc).
    arrives. eexists _, _, h', T'. rewrite Hs. split_and!; [| | | |exact Hc1|exact Hc2|exact Hcomp|exact Hnext].
    + rewrite length_take. lia.
    + rewrite length_drop. lia.
    + by rewrite take_drop.
    + by apply Forall_drop.
Qed.

Lemma step_advances l d c out :
  wf l d → chunk_ok c → agrees l d c out → advances (step l d c out).
Proof.
  intros Hwf Hc Hag. destruct l; cbn [step].
  - by apply zlib_header_advances.
  - by apply block_header_advances.
  - by apply literal_block_advances.
  - by apply literal_len_advances.
  - by apply literal_nlen_advances.
  - by apply literal_data_advances.
  - by apply static_block_advances.
  - by apply dynamic_header_advances.
  - by apply dynamic_codelen_advances.
  - by apply dynamic_litlen_distance_advances.
  - by apply dynamic_litlen_distance_extra_advances.
  - by apply construct_alphabets_advances.
  - by apply lzhuf_litlen_advances.
  - by apply lzhuf_litlen_extra_advances.
  - by apply lzhuf_distance_advances.
  - by apply lzhuf_distance_extra_advances.
  - by apply block_done_advances.
  - by apply zlib_footer_advances.
  - by apply zlib_adler32_advances.
  - destruct Hag as (_ & h & _ & Hout & HD). cbn [expects] in HD. subst h. split; [done|]. by left.
Qed.

Lemma run_advances fuel l d c out r :
  wf l d → chunk_ok c → agrees l d c out → run fuel l d c out = Some r →
  let '(rc, d', c', out') := r in advances (Return rc d' c' out').
Proof.
  revert l d c out. induction fuel as [|fuel IH]; intros l d c out Hwf Hc Hag Hrun; [done|].
  cbn [run] in Hrun. pose proof (step_advances l d c out Hwf Hc Hag) as Hadv.
  assert (0 ≤ chunk_offset out) as Hoff by (destruct Hag as (_ & h & _ & (_ & _ & -> & _) & _); lia).
  pose proof (step_progress l d c out Hwf Hc Hoff) as Hp.
  destruct (step l d c out) as [l' d' c' out'|rc d' c' out'].
  - destruct Hp as (Hwf' & Hc' & _). by eapply IH.
  - simplify_eq. exact Hadv.
Qed.

End correct.

(** ** Decompression of a sequence of chunks *)

Section chunks.
Context `{Platform}.

(** A caller that passes chunks of input as they arrive, until the decompressor
    has finished or fails. *)
Fixpoint inflate_chunks (d : deflate) (chunks : list bytes) (out : deflate_chunk)
    : option (res unit * deflate * deflate_chunk) :=
  match chunks with
  | [] => Some (Ok tt, d, out)
  | data :: chunks =>
      match deflate_inflate d (deflate_chunk_init data 0 (Zlen data)) out with
      | None => None
      | Some (Err e, d, _, out) => Some (Err e, d, out)
      | Some (Ok _, d, _, out) => if deflate_finished d then Some (Ok tt, d, out) else inflate_chunks d chunks out
      end
  end.

(** Between two calls, the bits held and those to come continue the stream. *)
Definition awaits (fmt : deflate_format) (D : bytes) (rest : list bool) (buf : bytes) (len : nat)
    (d : deflate) (out : deflate_chunk) (future : bytes) : Prop :=
  deflate_ok d ∧ format d = fmt ∧ ∃ h, h `prefix_of` D ∧ holds_out buf len out h ∧
    expects fmt D rest (entry d) d h (held (buffer d) ++ bits_of future).

Lemma inflate_once fmt D rest buf len d out data future :
  in_range size_bits (Zlen D) → is_bytes data → in_range size_bits (Zlen data) →
  awaits fmt D rest buf len d out (data ++ future) →
  ∃ d' c' out', deflate_inflate d (deflate_chunk_init data 0 (Zlen data)) out = Some (Ok tt, d', c', out') ∧
    ((deflate_finished d' = true ∧ holds_out buf len out' D) ∨
     (deflate_finished d' = false ∧ awaits fmt D rest buf len d' out' future ∧ future ≠ [])).
Proof.
  intros HD Hdata Hsz (Hok & Hf & h & Hh & Hout & Hexp).
  set (c := deflate_chunk_init data 0 (Zlen data)).
  assert (chunk_ok c) as Hc by (split_and!; cbn; done || lia).
  assert (unread c = data) as Hun.
  { unfold unread. cbn. rewrite drop_0, Nat2Z.id. by apply take_ge. }
  assert (0 ≤ chunk_offset out) as Hoff by (destruct Hout as (_ & _ & -> & _); lia).
  assert (agrees fmt D rest buf len future (entry d) d c out) as Hag.
  { split; [done|]. exists h. split_and!; [done..|]. unfold stream. by rewrite Hun, <- app_assoc, <- bits_of_app. }
  destruct (inflate_call d c out Hok Hc Hoff) as ([[[rc d'] c'] out'] & Hrun & Hc' & _ & _ & Hnext).
  pose proof (run_advances fmt D rest buf len HD future _ _ _ _ _ _ Hok Hc Hag Hrun) as [-> Hret].
  exists d', c', out'. split; [exact Hrun|]. unfold deflate_finished in *.
  destruct Hret as [[Hres Hout']|(l' & Hres & (Hf' & h' & Hh' & Hout' & Hexp') & Hfut)]; [left|right].
  - split; [by apply bool_decide_eq_true|done].
  - assert (bool_decide (resume d' = None) = false) as Hfin by (apply bool_decide_eq_false; by rewrite Hres).
    destruct (Hnext eq_refl Hfin) as [Hok' Hun']. split_and!; [done| |done].
    split_and!; [done|done|]. exists h'. split_and!; [done..|]. unfold entry. rewrite Hres.
    unfold stream in Hexp'. by rewrite Hun', app_nil_r in Hexp'.
Qed.

Lemma inflate_all fmt D rest buf len chunks d out more :
  in_range size_bits (Zlen D) → Forall (λ data, is_bytes data ∧ in_range size_bits (Zlen data)) chunks →
  awaits fmt D rest buf len d out (mjoin chunks ++ more) →
  ∃ d' out' h, inflate_chunks d chunks out = Some (Ok tt, d', out') ∧ holds_out buf len out' h ∧ h `prefix_of` D ∧
    (chunks ≠ [] → deflate_finished d' = true ∧ h = D ∨ deflate_finished d' = false ∧ more ≠ []).
Proof.
  intros HD Hch. revert d out. induction Hch as [|data chunks [Hdata Hsz] Hch IH]; intros d out Haw.
  { destruct Haw as (_ & _ & h & Hh & Hout & _). exists d, out, h. by split_and!. }
  rewrite mjoin_cons, <- app_assoc in Haw.
  destruct (inflate_once _ _ _ _ _ _ _ _ _ HD Hdata Hsz Haw) as (d' & c' & out' & Hcall & Hres).
  cbn [inflate_chunks]. rewrite Hcall. destruct Hres as [[Hfin Hout']|(Hfin & Haw' & Hfut)]; rewrite Hfin.
  - exists d', out', D. split_and!; [done..|]. intros _. by left.
  - destruct (IH d' out' Haw') as (d'' & out'' & h & Heq & Hout'' & Hh & Hend).
    exists d'', out'', h. split_and!; [done..|]. intros _.
    destruct chunks as [|data' chunks]; [|by apply Hend]. cbn [inflate_chunks] in Heq. simplify_eq. right.
    split; [done|]. by cbn [mjoin list_join app] in Hfut.
Qed.

Lemma init_awaits fmt bs D rest buf len future :
  inflates fmt bs D rest → bs = bits_of future → (len ≤ length buf)%nat →
  awaits fmt D rest buf len (deflate_init fmt) (deflate_chunk_init buf 0 (Z.of_nat len)) future.
Proof.
  intros Hinf -> Hlen. split_and!; [apply wf_init|done|]. exists []. split_and!; [apply prefix_nil| |].
  - split_and!; [done..|]. unfold outbuf. cbn [length]. by rewrite take_nil, Nat.min_0_r.
  - change (held (buffer (deflate_init fmt))) with (@nil bool). cbn [app].
    destruct Hinf as [bs out rest Hb|hdr bs out bs' rest Hr Hcm Hd Hb Hend]; cbn [expects entry resume deflate_init format].
    + by exists rest.
    + exists hdr, bs. split_and!; [lia..|done|done|done|]. by exists bs'.
Qed.

(** C27: Decompression of a stream succeeds however the input is cut into chunks, if the
    stream is valid according to RFC 1951 and RFC 1950 and the distance codes of each of
    its dynamic blocks form a complete code or consist of a single code length
    ([valid_distances]; streams with several code lengths of which at most one is not
    zero are valid as well, but the code refuses them).  When the whole stream has been
    passed the decompressor has finished and the output is the data the stream stands
    for, as far as it fits in the output buffer, with the offset giving its full
    length; while more of the stream is to come, the output is a prefix of that
    data. *)
Theorem inflate_correct fmt chunks more D rest buf len :
  chunks ≠ [] → Forall (λ data, is_bytes data ∧ in_range size_bits (Zlen data)) chunks →
  in_range size_bits (Zlen D) → (len ≤ length buf)%nat →
  inflates fmt (bits_of (mjoin chunks ++ more)) D rest →
  ∃ d out h,
    inflate_chunks (deflate_init fmt) chunks (deflate_chunk_init buf 0 (Z.of_nat len)) = Some (Ok tt, d, out) ∧
    chunk_offset out = Zlen h ∧ chunk_data out = take len h ++ drop (Nat.min len (length h)) buf ∧
    (deflate_finished d = true ∧ h = D ∨ deflate_finished d = false ∧ h `prefix_of` D ∧ more ≠ []).
Proof.
  intros Hne Hch HD Hlen Hinf.
  pose proof (init_awaits fmt _ D rest buf len _ Hinf eq_refl Hlen) as Haw.
  destruct (inflate_all _ _ _ _ _ _ _ _ _ HD Hch Haw) as (d & out & h & Heq & (_ & _ & Hoff & Hdata) & Hh & Hend).
  exists d, out, h. split_and!; [done..|]. destruct (Hend Hne) as [?|[? ?]]; [by left|right; done].
Qed.

End chunks.

(** ** Examples *)

Module Inflate_example.

#[local] Existing Instance i386.

(** A ZLIB stream: the eight letters are two literals and a copy of six. *)
Definition zlib_stream : bytes := [120; 156; 75; 76; 132; 0; 0; 13; 172; 3; 9].

Lemma fixed_code (b k : nat) sym :
  (1 ≤ b ≤ 15)%nat → symbols fixed_litlen (Z.of_nat b) !! k = Some sym →
  huff fixed_litlen sym (msb b (next_code fixed_litlen b + Z.of_nat k)).
Proof. intros Hb Hk. by exists b, k. Qed.

Lemma zlib_stream_inflates : inflates DEFLATE_ZLIB (bits_of (zlib_stream ++ [])) (replicate 8 97) [].
Proof.
  assert (huff fixed_litlen 97 (msb 8 145)) as Ha by (apply (fixed_code 8 97); [lia|by vm_compute]).
  assert (huff fixed_litlen 260 (msb 7 4)) as Hl by (apply (fixed_code 7 4); [lia|by vm_compute]).
  assert (huff fixed_litlen 256 (msb 7 0)) as He by (apply (fixed_code 7 0); [lia|by vm_compute]).
  assert (huff fixed_distance 0 (msb 5 0)) as Hd by (exists 5%nat, 0%nat; split_and!; [lia..|by vm_compute|by vm_compute]).
  refine (inflates_zlib 40056 (true :: lsb 2 1 ++ msb 8 145 ++ msb 8 145 ++ msb 7 4 ++ lsb 0 0 ++ msb 5 0 ++ lsb 0 0 ++
            msb 7 0 ++ (replicate 2 false ++ bits_of [13; 172; 3; 9] ++ []))
            (replicate 8 97) _ [] _ _ _ _ _); [lia|done|done| |].
  - apply blocks_final; [lia|]. apply body_fixed.
    eapply (comp_literal _ _ [] 97); [exact Ha|lia|]. eapply (comp_literal _ _ [97] 97); [exact Ha|lia|].
    eapply (comp_copy _ _ [97; 97] 260 _ 0 6 0 0 _ 0 1 0); [exact Hl|lia|done|cbn; lia|exact Hd|done|cbn; lia|cbn; lia|].
    apply (comp_end _ _ (replicate 8 97)). exact He.
  - apply (zlib_end_intro (replicate 2 false) (bits_of [13; 172; 3; 9]) []); [cbn; lia|done|by exists 0].
Qed.

Lemma inflate_correct_witness :
  inflate_chunks (deflate_init DEFLATE_ZLIB) [[120; 156; 75]; [76; 132; 0; 0; 13; 172; 3]; [9]]
    (deflate_chunk_init (replicate 10 0) 0 5) ≠ None ∧
  ∃ d out h,
    inflate_chunks (deflate_init DEFLATE_ZLIB) [[120; 156; 75]; [76; 132; 0; 0; 13; 172; 3]; [9]]
      (deflate_chunk_init (replicate 10 0) 0 (Z.of_nat 5)) = Some (Ok tt, d, out) ∧
    chunk_offset out = Zlen h ∧ chunk_data out = take 5 h ++ drop (Nat.min 5 (length h)) (replicate 10 0) ∧
    (deflate_finished d = true ∧ h = replicate 8 97 ∨
     deflate_finished d = false ∧ h `prefix_of` replicate 8 97 ∧ [] ≠ @nil Z).
Proof.
  split; [by vm_compute|].
  apply (inflate_correct DEFLATE_ZLIB [[120; 156; 75]; [76; 132; 0; 0; 13; 172; 3]; [9]] [] (replicate 8 97) []).
  - done.
  - by_decide.
  - by_decide.
  - cbn; lia.
  - exact zlib_stream_inflates.
Defined.

(** A stream that uses a single distance code, the second one, encoded in one
    bit as RFC 1951 prescribes, is rejected: the special case for a single
    distance code looks at how many code lengths there are, not at how many
    codes are used. *)
Definition single_distance_stream : bytes := [13; 193; 1; 9; 0; 0; 0; 128; 160; 173; 254; 63; 81; 200; 2].

Lemma single_distance_rejected :
  (λ r, r.1.1) <$> inflate_chunks (deflate_init DEFLATE_RAW) [single_distance_stream]
                     (deflate_chunk_init (replicate 8 0) 0 8) = Some (Err EINVAL).
Proof. by vm_compute. Qed.

End Inflate_example.
