(* ===== verification/Cipher.v ===== *)
(** * Cipher algorithms and cipher-block chaining (src/include/ipxe/crypto.h,
    src/crypto/cbc.c, src/include/ipxe/cbc.h)

    [cipher_algorithm] is the structure of that name for a cipher that processes a block at a
    time, [BlockCipher] what its users rely on.  Cipher-block chaining is written
    over the memory it reads and writes, so that encrypting or decrypting a buffer
    in place is part of the model, and verified against the interface. *)

From S2P Require Import Prelude.
From Stdlib Require Import Btauto.

(** ** The interface *)

(** The operations; [cipher_encrypt] and [cipher_decrypt] take the source block
    and return the contents of the destination. *)
Class cipher_algorithm := {
  ctx : Type;
  blocksize : nat;
  cipher_setkey : ctx → bytes → res ctx;
  cipher_encrypt : ctx → bytes → ctx * bytes;
  cipher_decrypt : ctx → bytes → ctx * bytes;
}.

Definition is_block_of (n : nat) (b : bytes) : Prop := length b = n ∧ is_bytes b.

(** The laws: a key makes a context encrypt with [E key]; decryption with [D key]
    may change the context (which from then on can only decrypt) and undoes
    encryption. *)
Class BlockCipher (C : cipher_algorithm) := {
  ctx_ok : ctx → Prop;
  valid_key : bytes → Prop;
  keyed_ctx : bytes → bool → ctx → Prop;
  E : bytes → bytes → bytes;
  D : bytes → bytes → bytes;
  blocksize_law : (0 < blocksize ∧ blocksize mod 4 = 0)%nat;
  setkey_law c key :
    ctx_ok c → is_bytes key →
    match cipher_setkey c key with
    | Ok c' => valid_key key ∧ keyed_ctx key false c'
    | Err e => e = EINVAL ∧ ¬ valid_key key
    end;
  encrypt_law key c b :
    keyed_ctx key false c → is_block_of blocksize b → cipher_encrypt c b = (c, E key b);
  decrypt_law key dec c b :
    keyed_ctx key dec c → is_block_of blocksize b →
    ∃ c', cipher_decrypt c b = (c', D key b) ∧ keyed_ctx key true c';
  E_block key b : valid_key key → is_block_of blocksize b → is_block_of blocksize (E key b);
  D_block key b : valid_key key → is_block_of blocksize b → is_block_of blocksize (D key b);
  D_E key b : valid_key key → is_block_of blocksize b → D key (E key b) = b;
}.

(** ** Exclusive or of blocks *)

(** A bitwise exclusive or of arrays. *)
Abbreviation xor_bytes := (zip_with Z.lxor).

(** The dwords of [dst] are combined with those of [src]; bytes beyond the last
    whole dword are left alone. *)
Definition cbc_xor (src dst : bytes) (len : nat) : bytes :=
  let n := (len / 4)%nat in
  le_bytes (xor_bytes (le_dwords n dst) (le_dwords n src)) ++ drop (4 * n) dst.

(** ** The mode of operation *)

Section cbc.
Context `{cipher_algorithm}.

(** while ( len ): [n] blocks are left. *)
Fixpoint cbc_encrypt_loop (n : nat) (m : mem) (c : ctx) (cbc_ctx : bytes) (src dst : Z) : mem * ctx * bytes :=
  match n with
  | O => (m, c, cbc_ctx)
  | S n =>
      let cbc_ctx := cbc_xor (mem_read m src blocksize) cbc_ctx blocksize in
      let '(c, out) := cipher_encrypt c cbc_ctx in
      let m := mem_write m dst out in
      let cbc_ctx := mem_read m dst blocksize in
      cbc_encrypt_loop n m c cbc_ctx (src + Z.of_nat blocksize) (dst + Z.of_nat blocksize)
  end.

(** [len] is a multiple of the block size, as the assertion says. *)
Definition cbc_encrypt (m : mem) (c : ctx) (src dst : Z) (len : nat) (cbc_ctx : bytes) : mem * ctx * bytes :=
  cbc_encrypt_loop (len / blocksize) m c cbc_ctx src dst.

Fixpoint cbc_decrypt_loop (n : nat) (m : mem) (c : ctx) (cbc_ctx : bytes) (src dst : Z) : mem * ctx * bytes :=
  match n with
  | O => (m, c, cbc_ctx)
  | S n =>
      let next_cbc_ctx := mem_read m src blocksize in
      let '(c, out) := cipher_decrypt c (mem_read m src blocksize) in
      let m := mem_write m dst out in
      let m := mem_write m dst (cbc_xor cbc_ctx (mem_read m dst blocksize) blocksize) in
      let cbc_ctx := next_cbc_ctx in
      cbc_decrypt_loop n m c cbc_ctx (src + Z.of_nat blocksize) (dst + Z.of_nat blocksize)
  end.

Definition cbc_decrypt (m : mem) (c : ctx) (src dst : Z) (len : nat) (cbc_ctx : bytes) : mem * ctx * bytes :=
  cbc_decrypt_loop (len / blocksize) m c cbc_ctx src dst.

Definition cbc_setkey (c : ctx) (key : bytes) : res ctx := cipher_setkey c key.
Definition cbc_setiv (iv cbc_ctx : bytes) : bytes := take blocksize iv.
End cbc.

(** ** Making a cipher of a mode: CBC_CIPHER *)

Record cbc_context `{cipher_algorithm} : Type := Cbc_context {
  raw_ctx : ctx;
  cbc_ctx : bytes;
}.

Section cbc_cipher.
Context `{cipher_algorithm}.

Definition cbc_name_setkey (c : cbc_context) (key : bytes) : res cbc_context :=
  raw_ctx ← cbc_setkey (raw_ctx c) key; Ok (Cbc_context _ raw_ctx (cbc_ctx c)).

Definition cbc_name_setiv (c : cbc_context) (iv : bytes) : cbc_context :=
  Cbc_context _ (raw_ctx c) (cbc_setiv iv (cbc_ctx c)).

Definition cbc_name_encrypt (m : mem) (c : cbc_context) (src dst : Z) (len : nat) : mem * cbc_context :=
  let '(m, raw_ctx, cbc_ctx) := cbc_encrypt m (raw_ctx c) src dst len (cbc_ctx c) in
  (m, Cbc_context _ raw_ctx cbc_ctx).

Definition cbc_name_decrypt (m : mem) (c : cbc_context) (src dst : Z) (len : nat) : mem * cbc_context :=
  let '(m, raw_ctx, cbc_ctx) := cbc_decrypt m (raw_ctx c) src dst len (cbc_ctx c) in
  (m, Cbc_context _ raw_ctx cbc_ctx).
End cbc_cipher.

(** ** Bytes *)

(** Equations between sums of bits. *)
Ltac xor_solve := apply Z.bits_inj'; intros ? _; rewrite ?Z.lxor_spec, ?Z.bits_0; btauto.

Lemma lxor_byte a b : is_byte a → is_byte b → is_byte (Z.lxor a b).
Proof.
  unfold in_range. intros Ha Hb. split; [apply Z.lxor_nonneg; lia|].
  destruct (decide (Z.lxor a b = 0)) as [->|]; [lia|].
  assert (0 ≤ Z.lxor a b) by (apply Z.lxor_nonneg; lia).
  apply Z.log2_lt_pow2; [lia|].
  pose proof (Z.log2_lxor a b ltac:(lia) ltac:(lia)).
  assert (∀ x, 0 ≤ x < 2 ^ 8 → Z.log2 x < 8) as Hl.
  { intros x Hx. destruct (decide (x = 0)) as [->|]; [done|]. apply Z.log2_lt_pow2; lia. }
  pose proof (Hl a Ha). pose proof (Hl b Hb). lia.
Qed.

Create HintDb bytes.
#[export] Hint Resolve lxor_byte : bytes.

Lemma xor_bytes_bytes s t : is_bytes s → is_bytes t → is_bytes (xor_bytes s t).
Proof.
  intros Hs. revert t. induction Hs as [|x s Hx _ IH]; intros [|y t] Ht; try constructor.
  all: apply Forall_cons in Ht as [Hy Ht]; auto with bytes.
Qed.

Lemma xor_bytes_cancel s t : length s = length t → xor_bytes (xor_bytes s t) t = s.
Proof.
  revert t. induction s as [|x s IH]; intros [|y t] H; try done. cbn. f_equal; [xor_solve|]. apply IH. cbn in H. lia.
Qed.

Lemma xor_bytes_comm s t : xor_bytes s t = xor_bytes t s.
Proof. revert t. induction s as [|x s IH]; intros [|y t]; cbn; try done. f_equal; [xor_solve|apply IH]. Qed.

Lemma xor_is_block n s t : is_block_of n s → is_block_of n t → is_block_of n (xor_bytes s t).
Proof.
  intros [? ?] [? ?]. split; [rewrite length_zip_with; lia|by apply xor_bytes_bytes].
Qed.

Lemma add_shift_lxor a x : is_byte a → a + 256 * x = Z.lxor a (Z.shiftl x 8).
Proof.
  unfold in_range. intros Ha. rewrite <- Z.add_nocarry_lxor; [rewrite Z.shiftl_mul_pow2; lia|].
  apply Z.bits_inj'. intros n Hn. rewrite Z.land_spec, Z.bits_0.
  destruct (decide (n < 8)); [by rewrite Z.shiftl_spec_low, andb_false_r|].
  rewrite <- (Z.mod_small a (2 ^ 8)) by lia. by rewrite Z.mod_pow2_bits_high by lia.
Qed.

Lemma le_combine_xor s t :
  is_bytes s → is_bytes t → length s = length t →
  Z.lxor (le_combine s) (le_combine t) = le_combine (xor_bytes s t).
Proof.
  intros Hs. revert t. induction Hs as [|x s Hx _ IH]; intros [|y t] Ht Hl; try done.
  apply Forall_cons in Ht as [Hy Ht]. cbn [le_combine zip_with].
  rewrite <- (IH t Ht) by (cbn in Hl; lia). rewrite !add_shift_lxor by auto with bytes.
  rewrite Z.shiftl_lxor. xor_solve.
Qed.

Lemma cbc_xor_correct src dst len :
  is_block_of len src → is_block_of len dst → (len mod 4 = 0)%nat →
  cbc_xor src dst len = xor_bytes dst src.
Proof.
  intros [Hls Hs] [Hld Hd] Hm. unfold cbc_xor.
  assert (len = (len / 4) * 4)%nat as Hlen by (pose proof (Nat.div_mod_eq len 4); lia).
  rewrite (drop_ge dst), app_nil_r by lia. rewrite Hlen in Hls, Hld. clear Hlen Hm. revert src dst Hls Hs Hld Hd.
  induction (len / 4)%nat as [|n IH]; intros src dst Hls Hs Hld Hd; [by destruct dst|].
  cbn [dwords zip_with].
  change (le_split 4 (Z.lxor (le_combine (take 4 dst)) (le_combine (take 4 src))) ++
    le_bytes (xor_bytes (le_dwords n (drop 4 dst)) (le_dwords n (drop 4 src))) = xor_bytes dst src).
  rewrite IH by (rewrite ?length_drop; auto using Forall_drop; lia).
  rewrite le_combine_xor by (auto using Forall_take; rewrite !length_take; lia).
  assert (length (xor_bytes (take 4 dst) (take 4 src)) = 4%nat) as H4 by (rewrite length_zip_with, !length_take; lia).
  rewrite <- H4 at 1. rewrite le_split_combine by auto using xor_bytes_bytes, Forall_take.
  rewrite <- zip_with_app by (rewrite !length_take; lia). by rewrite !take_drop.
Qed.

(** ** Chaining as NIST SP 800-38A defines it *)

Fixpoint cbc_enc (e : bytes → bytes) (iv : bytes) (ps : list bytes) : list bytes :=
  match ps with
  | [] => []
  | p :: ps => let c := e (xor_bytes p iv) in c :: cbc_enc e c ps
  end.

Fixpoint cbc_dec (d : bytes → bytes) (iv : bytes) (cs : list bytes) : list bytes :=
  match cs with
  | [] => []
  | c :: cs => xor_bytes (d c) iv :: cbc_dec d c cs
  end.

(** The chaining value after some ciphertext. *)
Definition chain (iv : bytes) (cs : list bytes) : bytes := default iv (last cs).

Lemma cbc_enc_app e iv ps qs : cbc_enc e iv (ps ++ qs) = cbc_enc e iv ps ++ cbc_enc e (chain iv (cbc_enc e iv ps)) qs.
Proof.
  revert iv. induction ps as [|p ps IH]; intros iv; [done|]. cbn. f_equal. rewrite IH.
  unfold chain. rewrite last_cons. by destruct (last _).
Qed.
Lemma cbc_dec_app d iv cs ds : cbc_dec d iv (cs ++ ds) = cbc_dec d iv cs ++ cbc_dec d (chain iv cs) ds.
Proof.
  revert iv. induction cs as [|c cs IH]; intros iv; [done|]. cbn [app cbc_dec]. rewrite IH.
  unfold chain. rewrite last_cons. by destruct (last cs).
Qed.

Lemma cbc_dec_enc `{BlockCipher} key iv ps :
  valid_key key → is_block_of blocksize iv → Forall (is_block_of blocksize) ps →
  cbc_dec (D key) iv (cbc_enc (E key) iv ps) = ps.
Proof.
  intros Hk Hiv Hps. revert iv Hiv. induction Hps as [|p ps Hp _ IH]; intros iv Hiv; [done|]. cbn [cbc_enc cbc_dec].
  assert (is_block_of blocksize (xor_bytes p iv)) as Hx by by apply xor_is_block.
  rewrite D_E, xor_bytes_cancel by (done || destruct Hp as [-> _], Hiv as [-> _]; done).
  f_equal. apply IH. by apply E_block.
Qed.

Lemma cbc_enc_blocks `{BlockCipher} key iv ps :
  valid_key key → is_block_of blocksize iv → Forall (is_block_of blocksize) ps →
  Forall (is_block_of blocksize) (cbc_enc (E key) iv ps).
Proof.
  intros Hk Hiv Hps. revert iv Hiv. induction Hps as [|p ps Hp _ IH]; intros iv Hiv; [constructor|]. cbn [cbc_enc].
  assert (is_block_of blocksize (E key (xor_bytes p iv))) by by apply E_block, xor_is_block.
  constructor; auto.
Qed.

Lemma chain_block n iv cs : is_block_of n iv → Forall (is_block_of n) cs → is_block_of n (chain iv cs).
Proof.
  intros Hiv Hcs. unfold chain. destruct (last cs) as [c|] eqn:Hl; [|done]. cbn.
  apply last_Some in Hl as [cs' ->]. apply Forall_app in Hcs as [_ Hc]. by apply Forall_cons in Hc as [? _].
Qed.

(** ** Chaining over memory *)

Lemma lookup_mem_write m a bs x :
  mem_write m a bs !! x = if decide (a ≤ x < a + Zlen bs) then bs !! Z.to_nat (x - a) else m !! x.
Proof.
  revert a. induction bs as [|b bs IH]; intros a; cbn [mem_write length]; [by rewrite decide_False by lia|].
  destruct (decide (x = a)) as [->|Hx].
  { rewrite lookup_insert_eq, decide_True by lia. by rewrite Z.sub_diag. }
  rewrite lookup_insert_ne, IH by done. destruct (decide (a + 1 ≤ x < a + 1 + Zlen bs)).
  - rewrite decide_True by lia. by replace (Z.to_nat (x - a)) with (S (Z.to_nat (x - (a + 1)))) by lia.
  - by rewrite decide_False by lia.
Qed.

Lemma mem_write_app m a bs cs : mem_write (mem_write m a bs) (a + Zlen bs) cs = mem_write m a (bs ++ cs).
Proof.
  apply map_eq. intros x. rewrite !lookup_mem_write, length_app.
  destruct (decide (a ≤ x < a + Zlen bs)), (decide (a + Zlen bs ≤ x < a + Zlen bs + Zlen cs));
    rewrite ?(decide_True (P := a ≤ x < _)), ?(decide_False (P := a ≤ x < _)) by lia; try lia; try done.
  - by rewrite lookup_app_l by lia.
  - rewrite lookup_app_r by lia. f_equal. lia.
Qed.

Lemma mem_write_over m a bs cs : length bs = length cs → mem_write (mem_write m a bs) a cs = mem_write m a cs.
Proof.
  intros Hl. apply map_eq. intros x. rewrite !lookup_mem_write, Hl. by case_decide.
Qed.

(** The blocks at an address. *)
Fixpoint mem_blocks (bs n : nat) (m : mem) (a : Z) : list bytes :=
  match n with O => [] | S n => mem_read m a bs :: mem_blocks bs n m (a + Z.of_nat bs) end.

Lemma mem_read_app m a n k : mem_read m a (n + k) = mem_read m a n ++ mem_read m (a + Z.of_nat n) k.
Proof.
  revert a. induction n as [|n IH]; intros a; cbn [Nat.add mem_read app]; [by rewrite Z.add_0_r|].
  rewrite IH. do 3 f_equal. lia.
Qed.

Lemma mjoin_mem_blocks bs n m a : mjoin (mem_blocks bs n m a) = mem_read m a (n * bs).
Proof.
  revert a. induction n as [|n IH]; intros a; [done|]. cbn [mem_blocks Nat.mul].
  by rewrite mjoin_cons, mem_read_app, IH.
Qed.

Lemma mem_blocks_ext bs n m m' a :
  (∀ x, a ≤ x < a + Z.of_nat (n * bs) → mem_get m x = mem_get m' x) → mem_blocks bs n m a = mem_blocks bs n m' a.
Proof.
  revert a. induction n as [|n IH]; intros a Hm; [done|]. cbn [mem_blocks]. f_equal.
  - apply mem_read_ext. intros. apply Hm. lia.
  - apply IH. intros. apply Hm. lia.
Qed.

Lemma mem_blocks_bytes bs n m a :
  is_bytes (mem_read m a (n * bs)) → Forall (is_block_of bs) (mem_blocks bs n m a).
Proof.
  revert a. induction n as [|n IH]; intros a Hb; [constructor|]. cbn [Nat.mul mem_blocks] in *.
  rewrite mem_read_app, Forall_app in Hb. destruct Hb. constructor; [|by apply IH].
  split; [apply length_mem_read|done].
Qed.

(** The source and the destination are the same buffer or do not meet. *)
Definition in_place_or_apart (src dst : Z) (len : nat) : Prop :=
  src = dst ∨ src + Z.of_nat len ≤ dst ∨ dst + Z.of_nat len ≤ src.

Lemma length_cbc_enc e iv ps : length (cbc_enc e iv ps) = length ps.
Proof. revert iv. induction ps; intros; cbn; auto. Qed.
Lemma length_cbc_dec d iv cs : length (cbc_dec d iv cs) = length cs.
Proof. revert iv. induction cs; intros; cbn; auto. Qed.

Section cbc_memory.
Context `{BlockCipher} (key : bytes) (Hkey : valid_key key).
Local Abbreviation block := (is_block_of blocksize).
Local Abbreviation blocks := (mem_blocks blocksize).

Lemma blocks_after_write n m src dst b :
  length b = blocksize → in_place_or_apart src dst (S n * blocksize) →
  blocks n (mem_write m dst b) (src + Z.of_nat blocksize) = blocks n m (src + Z.of_nat blocksize).
Proof.
  intros Hb Hd. apply mem_blocks_ext. intros x Hx. rewrite mem_get_write, decide_False; [done|].
  destruct Hd as [->|]; lia.
Qed.

Lemma in_place_or_apart_S n src dst :
  in_place_or_apart src dst (S n * blocksize) →
  in_place_or_apart (src + Z.of_nat blocksize) (dst + Z.of_nat blocksize) (n * blocksize).
Proof. unfold in_place_or_apart. lia. Qed.

Lemma chain_cons iv c cs : chain c cs = chain iv (c :: cs).
Proof. unfold chain. rewrite last_cons. by destruct (last cs). Qed.

Lemma cbc_encrypt_loop_correct n m c iv src dst :
  keyed_ctx key false c → block iv → is_bytes (mem_read m src (n * blocksize)) →
  in_place_or_apart src dst (n * blocksize) →
  let cs := cbc_enc (E key) iv (blocks n m src) in
  cbc_encrypt_loop n m c iv src dst = (mem_write m dst (mjoin cs), c, chain iv cs).
Proof.
  intros Hc. revert m iv src dst. induction n as [|n IH]; intros m iv src dst Hiv Hb Hd; [done|].
  cbn [Nat.mul] in Hb. rewrite mem_read_app, Forall_app in Hb. destruct Hb as [Hp Hb].
  assert (block (mem_read m src blocksize)) as Hp' by (split; [apply length_mem_read|done]).
  assert (block (xor_bytes iv (mem_read m src blocksize))) as Hx by by apply xor_is_block.
  pose proof (E_block key _ Hkey Hx) as He. pose proof blocksize_law as [_ Hbs].
  cbn [cbc_encrypt_loop]. rewrite cbc_xor_correct by done. rewrite (encrypt_law key) by done.
  rewrite mem_read_write_eq by (symmetry; apply He). cbn [mem_blocks cbc_enc]. rewrite (xor_bytes_comm _ iv).
  set (c0 := E key _) in *. destruct He as [Hl Hc0].
  rewrite IH; [|done|..|by apply in_place_or_apart_S].
  - rewrite blocks_after_write by done. rewrite mjoin_cons, <- mem_write_app, Hl. by rewrite <- chain_cons.
  - rewrite <- mjoin_mem_blocks, blocks_after_write by done. by rewrite mjoin_mem_blocks.
Qed.

Lemma cbc_decrypt_loop_correct n m dec c iv src dst :
  keyed_ctx key dec c → block iv → is_bytes (mem_read m src (n * blocksize)) →
  in_place_or_apart src dst (n * blocksize) →
  let cs := blocks n m src in
  ∃ c', cbc_decrypt_loop n m c iv src dst = (mem_write m dst (mjoin (cbc_dec (D key) iv cs)), c', chain iv cs) ∧
    ∃ dec', keyed_ctx key dec' c'.
Proof.
  revert m dec c iv src dst. induction n as [|n IH]; intros m dec c iv src dst Hc Hiv Hb Hd; [by eauto|].
  cbn [Nat.mul] in Hb. rewrite mem_read_app, Forall_app in Hb. destruct Hb as [Hp Hb].
  assert (block (mem_read m src blocksize)) as Hp' by (split; [apply length_mem_read|done]).
  pose proof (D_block key _ Hkey Hp') as HD0.
  pose proof blocksize_law as [_ Hbs]. destruct (decrypt_law key dec c _ Hc Hp') as (c' & Hdec & Hc').
  cbn [cbc_decrypt_loop mem_blocks cbc_dec]. rewrite Hdec. set (d0 := D key _) in *.
  rewrite mem_read_write_eq by (symmetry; apply HD0). rewrite cbc_xor_correct by done.
  pose proof (xor_is_block _ _ _ HD0 Hiv) as Hx. destruct Hx as [Hl Hx].
  rewrite mem_write_over by (rewrite Hl; apply HD0).
  assert (∀ b, length b = blocksize → blocks n (mem_write m dst b) (src + Z.of_nat blocksize) =
    blocks n m (src + Z.of_nat blocksize)) as Hw by (intros; by apply blocks_after_write).
  edestruct (IH (mem_write m dst (xor_bytes d0 iv)) true c' (mem_read m src blocksize)) as (c'' & -> & Hc'');
    [done|done|..|by apply in_place_or_apart_S|].
  - rewrite <- mjoin_mem_blocks, Hw by done. by rewrite mjoin_mem_blocks.
  - rewrite Hw by done. exists c''. split; [|done].
    rewrite mjoin_cons, <- mem_write_app, Hl. by rewrite <- chain_cons.
Qed.
End cbc_memory.

(** ** Sequences of calls *)

(** A call works on a memory of its own: between calls, other code may change it
    in any way. *)
Record call : Type := Call { c_mem : mem; c_src : Z; c_dst : Z; c_len : nat }.

Definition call_ok `{cipher_algorithm} (k : call) : Prop :=
  (c_len k mod blocksize = 0)%nat ∧ is_bytes (mem_read (c_mem k) (c_src k) (c_len k)) ∧
  in_place_or_apart (c_src k) (c_dst k) (c_len k).

(** The blocks a call reads, and those at its destination in a memory. *)
Definition call_input `{cipher_algorithm} (k : call) : list bytes :=
  mem_blocks blocksize (c_len k / blocksize) (c_mem k) (c_src k).
Definition call_output `{cipher_algorithm} (k : call) (m : mem) : list bytes :=
  mem_blocks blocksize (c_len k / blocksize) m (c_dst k).

(** Nothing but the destination changes. *)
Definition call_frame (k : call) (m : mem) : Prop :=
  ∀ x, ¬ (c_dst k ≤ x < c_dst k + Z.of_nat (c_len k)) → m !! x = c_mem k !! x.

(** Calls of an encryption or decryption function in a row; the memories they
    leave behind. *)
Fixpoint calls {C} (f : mem → C → Z → Z → nat → mem * C) (c : C) (ks : list call) : C * list mem :=
  match ks with
  | [] => (c, [])
  | k :: ks =>
      let '(m, c) := f (c_mem k) c (c_src k) (c_dst k) (c_len k) in
      let '(c, ms) := calls f c ks in
      (c, m :: ms)
  end.

Section cbc_calls.
Context `{BlockCipher} (key : bytes) (Hkey : valid_key key).
Local Abbreviation block := (is_block_of blocksize).

Lemma call_len k : call_ok k → (c_len k / blocksize * blocksize = c_len k)%nat.
Proof. intros (Hm & _). pose proof (Nat.div_mod_eq (c_len k) blocksize). lia. Qed.

Lemma call_input_blocks k : call_ok k → Forall block (call_input k).
Proof. intros Hk. apply mem_blocks_bytes. rewrite call_len by done. apply Hk. Qed.

(** Blocks written to a destination are read back from it. *)
Lemma mem_blocks_write (m : mem) a (bs : list bytes) n :
  n = length bs → Forall block bs → mem_blocks blocksize n (mem_write m a (mjoin bs)) a = bs.
Proof.
  intros -> Hb. revert m a. induction Hb as [|b bs [Hl _] _ IH]; intros m a; [done|].
  cbn [length mem_blocks]. rewrite mjoin_cons, <- mem_write_app. f_equal; [|rewrite Hl; apply IH].
  rewrite mem_read_write_ne by lia. by apply mem_read_write_eq.
Qed.

Lemma mem_write_frame k bs :
  call_ok k → length bs = (c_len k / blocksize)%nat → Forall block bs →
  call_frame k (mem_write (c_mem k) (c_dst k) (mjoin bs)).
Proof.
  intros Hk Hl Hb x Hx. rewrite lookup_mem_write, decide_False; [done|].
  assert (length (mjoin bs) = (length bs * blocksize)%nat) as ->; [|rewrite Hl, call_len; done].
  clear -Hb. induction Hb as [|b bs [Hl _] _ IH]; [done|]. rewrite mjoin_cons, length_app, Hl, IH. done.
Qed.

Lemma cbc_dec_blocks iv cs : block iv → Forall block cs → Forall block (cbc_dec (D key) iv cs).
Proof.
  intros Hiv Hcs. revert iv Hiv. induction Hcs as [|c cs Hc _ IH]; intros iv Hiv; [constructor|].
  constructor; [|by apply IH]. apply xor_is_block; [by apply D_block|done].
Qed.

Lemma length_call_input k : length (call_input k) = (c_len k / blocksize)%nat.
Proof. unfold call_input. generalize (c_src k). induction (c_len k / blocksize)%nat; intros; cbn; auto. Qed.

(** Encryption calls produce the chained ciphertext of all their input. *)
Lemma calls_encrypt ks c iv :
  keyed_ctx key false c → block iv → Forall call_ok ks →
  ∃ ms, calls cbc_name_encrypt (Cbc_context _ c iv) ks =
      (Cbc_context _ c (chain iv (cbc_enc (E key) iv (mjoin (call_input <$> ks)))), ms) ∧
    mjoin (zip_with call_output ks ms) = cbc_enc (E key) iv (mjoin (call_input <$> ks)) ∧
    Forall2 call_frame ks ms.
Proof.
  intros Hc Hiv Hks. revert iv Hiv. induction Hks as [|k ks Hk _ IH]; intros iv Hiv; [by exists []|].
  pose proof (call_input_blocks k Hk) as Hin. pose proof Hk as (_ & Hb & Hp).
  cbn [calls cbc_name_encrypt raw_ctx cbc_ctx]. unfold cbc_name_encrypt at 1, cbc_encrypt. cbn [raw_ctx cbc_ctx].
  rewrite (cbc_encrypt_loop_correct key Hkey) by (rewrite ?call_len; done).
  fold (call_input k). set (cs := cbc_enc (E key) iv (call_input k)).
  assert (Forall block cs) as Hcs by by apply cbc_enc_blocks.
  destruct (IH (chain iv cs)) as (ms & -> & Hout & Hf); [by apply chain_block|].
  eexists. split; [|split].
  - cbn [fmap list_fmap]. rewrite mjoin_cons, cbc_enc_app. fold cs. do 2 f_equal.
    unfold chain. rewrite last_app. by destruct (last (cbc_enc _ _ _)).
  - cbn [zip_with fmap list_fmap]. rewrite !mjoin_cons, cbc_enc_app, Hout. f_equal.
    apply mem_blocks_write; [|done]. subst cs. by rewrite length_cbc_enc, length_call_input.
  - constructor; [|done]. apply mem_write_frame; [done| |done]. subst cs.
    by rewrite length_cbc_enc, length_call_input.
Qed.

Lemma calls_decrypt ks dec c iv :
  keyed_ctx key dec c → block iv → Forall call_ok ks →
  ∃ c' ms, calls cbc_name_decrypt (Cbc_context _ c iv) ks =
      (Cbc_context _ c' (chain iv (mjoin (call_input <$> ks))), ms) ∧
    mjoin (zip_with call_output ks ms) = cbc_dec (D key) iv (mjoin (call_input <$> ks)) ∧
    Forall2 call_frame ks ms.
Proof.
  intros Hc Hiv Hks. revert dec c Hc iv Hiv.
  induction Hks as [|k ks Hk _ IH]; intros dec c Hc iv Hiv; [by exists c, []|].
  pose proof (call_input_blocks k Hk) as Hin. pose proof Hk as (_ & Hb & Hp).
  cbn [calls]. unfold cbc_name_decrypt at 1, cbc_decrypt. cbn [raw_ctx cbc_ctx].
  edestruct (cbc_decrypt_loop_correct key Hkey (c_len k / blocksize) (c_mem k) dec c iv (c_src k) (c_dst k))
    as (c' & -> & dec' & Hc'); [done|done|by rewrite call_len|by rewrite call_len|].
  fold (call_input k). set (ps := cbc_dec (D key) iv (call_input k)).
  assert (Forall block ps) as Hps by by apply cbc_dec_blocks.
  destruct (IH dec' c' Hc' (chain iv (call_input k))) as (c'' & ms & -> & Hout & Hf); [by apply chain_block|].
  do 2 eexists. split; [|split].
  - cbn [fmap list_fmap]. rewrite mjoin_cons. do 2 f_equal.
    unfold chain. rewrite last_app. by destruct (last (mjoin _)).
  - cbn [zip_with fmap list_fmap]. rewrite !mjoin_cons, cbc_dec_app, Hout. f_equal.
    apply mem_blocks_write; [|done]. subst ps. by rewrite length_cbc_dec, length_call_input.
  - constructor; [|done]. apply mem_write_frame; [done| |done]. subst ps.
    by rewrite length_cbc_dec, length_call_input.
Qed.
End cbc_calls.
