(* ===== verification/Aes.v ===== *)
(** * AES (src/crypto/axtls/aes.c, src/crypto/axtls_aes.c, src/include/ipxe/aes.h,
    src/crypto/axtls/crypto.h)

    The axTLS implementation of the block cipher, on dwords in host order, and
    the iPXE cipher algorithm built on it.  An array of dwords is a list, a
    pointer into one an index; a [uint8_t] table is read with [byte]. *)

From S2P Require Import Prelude Cipher.

(** ** Arithmetic *)

Definition rot1 (x : Z) : Z := Z.lor (u32 (Z.shiftl x 24)) (Z.shiftr x 8).
Definition rot2 (x : Z) : Z := Z.lor (u32 (Z.shiftl x 16)) (Z.shiftr x 16).
Definition rot3 (x : Z) : Z := Z.lor (u32 (Z.shiftl x 8)) (Z.shiftr x 24).

Definition mt : Z := 0x80808080.
Definition mh : Z := 0xfefefefe.
Definition mm : Z := 0x1b1b1b1b.

(** Four doublings at once. *)
Definition mul2 (x : Z) : Z :=
  let t := Z.land x mt in
  Z.lxor (Z.land (u32 (x + x)) mh) (Z.land (u32 (t - Z.shiftr t 7)) mm).

Definition inv_mix_col (x : Z) : Z :=
  let f2 := mul2 x in
  let f4 := mul2 f2 in
  let f8 := mul2 f4 in
  let f9 := Z.lxor x f8 in
  let f8 := Z.lxor (Z.lxor f2 f4) f8 in
  let f2 := Z.lxor f2 f9 in
  let f4 := Z.lxor f4 f9 in
  let f8 := Z.lxor f8 (rot3 f2) in
  let f8 := Z.lxor f8 (rot2 f4) in
  Z.lxor f8 (rot1 f9).

(** ** Tables *)

Definition aes_sbox : bytes := [
  0x63; 0x7C; 0x77; 0x7B; 0xF2; 0x6B; 0x6F; 0xC5; 0x30; 0x01; 0x67; 0x2B; 0xFE; 0xD7; 0xAB; 0x76;
  0xCA; 0x82; 0xC9; 0x7D; 0xFA; 0x59; 0x47; 0xF0; 0xAD; 0xD4; 0xA2; 0xAF; 0x9C; 0xA4; 0x72; 0xC0;
  0xB7; 0xFD; 0x93; 0x26; 0x36; 0x3F; 0xF7; 0xCC; 0x34; 0xA5; 0xE5; 0xF1; 0x71; 0xD8; 0x31; 0x15;
  0x04; 0xC7; 0x23; 0xC3; 0x18; 0x96; 0x05; 0x9A; 0x07; 0x12; 0x80; 0xE2; 0xEB; 0x27; 0xB2; 0x75;
  0x09; 0x83; 0x2C; 0x1A; 0x1B; 0x6E; 0x5A; 0xA0; 0x52; 0x3B; 0xD6; 0xB3; 0x29; 0xE3; 0x2F; 0x84;
  0x53; 0xD1; 0x00; 0xED; 0x20; 0xFC; 0xB1; 0x5B; 0x6A; 0xCB; 0xBE; 0x39; 0x4A; 0x4C; 0x58; 0xCF;
  0xD0; 0xEF; 0xAA; 0xFB; 0x43; 0x4D; 0x33; 0x85; 0x45; 0xF9; 0x02; 0x7F; 0x50; 0x3C; 0x9F; 0xA8;
  0x51; 0xA3; 0x40; 0x8F; 0x92; 0x9D; 0x38; 0xF5; 0xBC; 0xB6; 0xDA; 0x21; 0x10; 0xFF; 0xF3; 0xD2;
  0xCD; 0x0C; 0x13; 0xEC; 0x5F; 0x97; 0x44; 0x17; 0xC4; 0xA7; 0x7E; 0x3D; 0x64; 0x5D; 0x19; 0x73;
  0x60; 0x81; 0x4F; 0xDC; 0x22; 0x2A; 0x90; 0x88; 0x46; 0xEE; 0xB8; 0x14; 0xDE; 0x5E; 0x0B; 0xDB;
  0xE0; 0x32; 0x3A; 0x0A; 0x49; 0x06; 0x24; 0x5C; 0xC2; 0xD3; 0xAC; 0x62; 0x91; 0x95; 0xE4; 0x79;
  0xE7; 0xC8; 0x37; 0x6D; 0x8D; 0xD5; 0x4E; 0xA9; 0x6C; 0x56; 0xF4; 0xEA; 0x65; 0x7A; 0xAE; 0x08;
  0xBA; 0x78; 0x25; 0x2E; 0x1C; 0xA6; 0xB4; 0xC6; 0xE8; 0xDD; 0x74; 0x1F; 0x4B; 0xBD; 0x8B; 0x8A;
  0x70; 0x3E; 0xB5; 0x66; 0x48; 0x03; 0xF6; 0x0E; 0x61; 0x35; 0x57; 0xB9; 0x86; 0xC1; 0x1D; 0x9E;
  0xE1; 0xF8; 0x98; 0x11; 0x69; 0xD9; 0x8E; 0x94; 0x9B; 0x1E; 0x87; 0xE9; 0xCE; 0x55; 0x28; 0xDF;
  0x8C; 0xA1; 0x89; 0x0D; 0xBF; 0xE6; 0x42; 0x68; 0x41; 0x99; 0x2D; 0x0F; 0xB0; 0x54; 0xBB; 0x16 ].

Definition aes_isbox : bytes := [
  0x52; 0x09; 0x6a; 0xd5; 0x30; 0x36; 0xa5; 0x38; 0xbf; 0x40; 0xa3; 0x9e; 0x81; 0xf3; 0xd7; 0xfb;
  0x7c; 0xe3; 0x39; 0x82; 0x9b; 0x2f; 0xff; 0x87; 0x34; 0x8e; 0x43; 0x44; 0xc4; 0xde; 0xe9; 0xcb;
  0x54; 0x7b; 0x94; 0x32; 0xa6; 0xc2; 0x23; 0x3d; 0xee; 0x4c; 0x95; 0x0b; 0x42; 0xfa; 0xc3; 0x4e;
  0x08; 0x2e; 0xa1; 0x66; 0x28; 0xd9; 0x24; 0xb2; 0x76; 0x5b; 0xa2; 0x49; 0x6d; 0x8b; 0xd1; 0x25;
  0x72; 0xf8; 0xf6; 0x64; 0x86; 0x68; 0x98; 0x16; 0xd4; 0xa4; 0x5c; 0xcc; 0x5d; 0x65; 0xb6; 0x92;
  0x6c; 0x70; 0x48; 0x50; 0xfd; 0xed; 0xb9; 0xda; 0x5e; 0x15; 0x46; 0x57; 0xa7; 0x8d; 0x9d; 0x84;
  0x90; 0xd8; 0xab; 0x00; 0x8c; 0xbc; 0xd3; 0x0a; 0xf7; 0xe4; 0x58; 0x05; 0xb8; 0xb3; 0x45; 0x06;
  0xd0; 0x2c; 0x1e; 0x8f; 0xca; 0x3f; 0x0f; 0x02; 0xc1; 0xaf; 0xbd; 0x03; 0x01; 0x13; 0x8a; 0x6b;
  0x3a; 0x91; 0x11; 0x41; 0x4f; 0x67; 0xdc; 0xea; 0x97; 0xf2; 0xcf; 0xce; 0xf0; 0xb4; 0xe6; 0x73;
  0x96; 0xac; 0x74; 0x22; 0xe7; 0xad; 0x35; 0x85; 0xe2; 0xf9; 0x37; 0xe8; 0x1c; 0x75; 0xdf; 0x6e;
  0x47; 0xf1; 0x1a; 0x71; 0x1d; 0x29; 0xc5; 0x89; 0x6f; 0xb7; 0x62; 0x0e; 0xaa; 0x18; 0xbe; 0x1b;
  0xfc; 0x56; 0x3e; 0x4b; 0xc6; 0xd2; 0x79; 0x20; 0x9a; 0xdb; 0xc0; 0xfe; 0x78; 0xcd; 0x5a; 0xf4;
  0x1f; 0xdd; 0xa8; 0x33; 0x88; 0x07; 0xc7; 0x31; 0xb1; 0x12; 0x10; 0x59; 0x27; 0x80; 0xec; 0x5f;
  0x60; 0x51; 0x7f; 0xa9; 0x19; 0xb5; 0x4a; 0x0d; 0x2d; 0xe5; 0x7a; 0x9f; 0x93; 0xc9; 0x9c; 0xef;
  0xa0; 0xe0; 0x3b; 0x4d; 0xae; 0x2a; 0xf5; 0xb0; 0xc8; 0xeb; 0xbb; 0x3c; 0x83; 0x53; 0x99; 0x61;
  0x17; 0x2b; 0x04; 0x7e; 0xba; 0x77; 0xd6; 0x26; 0xe1; 0x69; 0x14; 0x63; 0x55; 0x21; 0x0c; 0x7d ].

Definition Rcon : bytes := [
  0x01; 0x02; 0x04; 0x08; 0x10; 0x20; 0x40; 0x80; 0x1b; 0x36; 0x6c; 0xd8; 0xab; 0x4d; 0x9a; 0x2f;
  0x5e; 0xbc; 0x63; 0xc6; 0x97; 0x35; 0x6a; 0xd4; 0xb3; 0x7d; 0xfa; 0xef; 0xc5; 0x91 ].

(** A table entry, at an index computed as an integer. *)
Definition entry (table : bytes) (x : Z) : Z := byte table (Z.to_nat x).

(** Doubling in GF(2^8). *)
Definition AES_xtime (x : Z) : Z :=
  u8 (if Z.land x 0x80 =? 0 then u32 (Z.shiftl x 1) else Z.lxor (u32 (Z.shiftl x 1)) 0x1b).

(** ** The context *)

Definition AES_MAXROUNDS : nat := 14.
Definition AES_BLOCKSIZE : nat := 16.

Record AES_CTX : Type := Aes_ctx {
  rounds : nat;
  key_size : nat;
  ks : list Z;
  iv : bytes;
}.

Inductive AES_MODE : Set := AES_MODE_128 | AES_MODE_256.

(** ** Key schedule *)

(** The dword whose bytes are at an offset of the key. *)
Definition load_word (key : bytes) (o : nat) : Z :=
  Z.lor (Z.lor (Z.lor (u32 (Z.shiftl (byte key o) 24)) (u32 (Z.shiftl (byte key (o + 1)) 16)))
    (u32 (Z.shiftl (byte key (o + 2)) 8))) (byte key (o + 3)).

(** for (i = 0; i < words; i+=2): [n] iterations are left. *)
Fixpoint load_key (n i : nat) (W : list Z) (key : bytes) : list Z :=
  match n with
  | O => W
  | S n =>
      let W := <[i := load_word key 0]> W in
      let W := <[(i + 1)%nat := load_word key 4]> W in
      load_key n (i + 2) W (drop 8 key)
  end.

(** for (i = words; i<ii; i++): [n] iterations are left, [ip] is the offset into
    [Rcon]. *)
Fixpoint expand_loop (n words i ip : nat) (W : list Z) : list Z :=
  match n with
  | O => W
  | S n =>
      let tmp := word W (i - 1) in
      let '(tmp, ip) :=
        if (i mod words =? 0)%nat then
          let tmp2 := u32 (Z.shiftl (entry aes_sbox (Z.land tmp 0xff)) 8) in
          let tmp2 := Z.lor tmp2 (u32 (Z.shiftl (entry aes_sbox (Z.land (Z.shiftr tmp 8) 0xff)) 16)) in
          let tmp2 := Z.lor tmp2 (u32 (Z.shiftl (entry aes_sbox (Z.land (Z.shiftr tmp 16) 0xff)) 24)) in
          let tmp2 := Z.lor tmp2 (entry aes_sbox (Z.shiftr tmp 24)) in
          (Z.lxor tmp2 (u32 (Z.shiftl (byte Rcon ip) 24)), S ip)
        else (tmp, ip) in
      let tmp :=
        if ((words =? 8) && (i mod words =? 4))%nat then
          let tmp2 := entry aes_sbox (Z.land tmp 0xff) in
          let tmp2 := Z.lor tmp2 (u32 (Z.shiftl (entry aes_sbox (Z.land (Z.shiftr tmp 8) 0xff)) 8)) in
          let tmp2 := Z.lor tmp2 (u32 (Z.shiftl (entry aes_sbox (Z.land (Z.shiftr tmp 16) 0xff)) 16)) in
          Z.lor tmp2 (u32 (Z.shiftl (entry aes_sbox (Z.shiftr tmp 24)) 24))
        else tmp in
      expand_loop n words (S i) ip (<[i := Z.lxor (word W (i - words)) tmp]> W)
  end.

Definition AES_set_key (ctx : AES_CTX) (key iv : bytes) (mode : AES_MODE) : AES_CTX :=
  let '(rounds, words) :=
    match mode with
    | AES_MODE_128 => (10, 4)%nat
    | AES_MODE_256 => (14, 8)%nat
    end in
  let W := load_key (words / 2) 0 (ks ctx) key in
  let ii := (4 * (rounds + 1))%nat in
  let W := expand_loop (ii - words) words words 0 W in
  (* copy the iv across *)
  Aes_ctx rounds words W (take 16 iv).

(** for (i= ctx->rounds*4; i > 4; i--): [n] iterations are left. *)
Fixpoint convert_loop (n k : nat) (ks : list Z) : list Z :=
  match n with
  | O => ks
  | S n =>
      let w := word ks k in
      let w := inv_mix_col w in
      convert_loop n (S k) (<[k := w]> ks)
  end.

Definition AES_convert_key (ctx : AES_CTX) : AES_CTX :=
  Aes_ctx (rounds ctx) (key_size ctx) (convert_loop (rounds ctx * 4 - 4) 4 (ks ctx)) (iv ctx).

(** ** Encryption of a block *)

(** data[row] = tmp[row] ^ *(k++) for the four rows. *)
Definition key_addition (tmp ks : list Z) (k : nat) : list Z :=
  (λ row, Z.lxor (word tmp row) (word ks (k + row))) <$> seq 0 4.

Definition encrypt_row (mix : bool) (data : list Z) (row : nat) : Z :=
  let a0 := entry aes_sbox (Z.land (Z.shiftr (word data (row mod 4)) 24) 0xFF) in
  let a1 := entry aes_sbox (Z.land (Z.shiftr (word data ((row + 1) mod 4)) 16) 0xFF) in
  let a2 := entry aes_sbox (Z.land (Z.shiftr (word data ((row + 2) mod 4)) 8) 0xFF) in
  let a3 := entry aes_sbox (Z.land (word data ((row + 3) mod 4)) 0xFF) in
  (* Perform MixColumn iff not last round *)
  let '(a0, a1, a2, a3) :=
    if mix then
      let tmp1 := Z.lxor (Z.lxor (Z.lxor a0 a1) a2) a3 in
      let old_a0 := a0 in
      let a0 := Z.lxor a0 (Z.lxor tmp1 (AES_xtime (Z.lxor a0 a1))) in
      let a1 := Z.lxor a1 (Z.lxor tmp1 (AES_xtime (Z.lxor a1 a2))) in
      let a2 := Z.lxor a2 (Z.lxor tmp1 (AES_xtime (Z.lxor a2 a3))) in
      let a3 := Z.lxor a3 (Z.lxor tmp1 (AES_xtime (Z.lxor a3 old_a0))) in
      (a0, a1, a2, a3)
    else (a0, a1, a2, a3) in
  Z.lor (Z.lor (Z.lor (u32 (Z.shiftl a0 24)) (u32 (Z.shiftl a1 16))) (u32 (Z.shiftl a2 8))) a3.

(** The rounds: [n] are left. *)
Fixpoint encrypt_loop (n curr_rnd rounds : nat) (ks : list Z) (k : nat) (data : list Z) : list Z :=
  match n with
  | O => data
  | S n =>
      let tmp := encrypt_row (curr_rnd <? rounds - 1)%nat data <$> seq 0 4 in
      let data := key_addition tmp ks k in
      encrypt_loop n (S curr_rnd) rounds ks (k + 4) data
  end.

Definition AES_encrypt (ctx : AES_CTX) (data : list Z) : list Z :=
  (* Pre-round key addition *)
  let data := key_addition data (ks ctx) 0 in
  (* Encrypt one block *)
  encrypt_loop (rounds ctx) 0 (rounds ctx) (ks ctx) 4 data.

(** ** Decryption of a block *)

(** [row] counts from 4 down to 1. *)
Definition decrypt_row (mix : bool) (data : list Z) (row : nat) : Z :=
  let a0 := entry aes_isbox (Z.land (Z.shiftr (word data ((row + 3) mod 4)) 24) 0xFF) in
  let a1 := entry aes_isbox (Z.land (Z.shiftr (word data ((row + 2) mod 4)) 16) 0xFF) in
  let a2 := entry aes_isbox (Z.land (Z.shiftr (word data ((row + 1) mod 4)) 8) 0xFF) in
  let a3 := entry aes_isbox (Z.land (word data (row mod 4)) 0xFF) in
  (* Perform MixColumn iff not last round *)
  if mix then
    let xt0 := AES_xtime (Z.lxor a0 a1) in
    let xt1 := AES_xtime (Z.lxor a1 a2) in
    let xt2 := AES_xtime (Z.lxor a2 a3) in
    let xt3 := AES_xtime (Z.lxor a3 a0) in
    let xt4 := AES_xtime (Z.lxor xt0 xt1) in
    let xt5 := AES_xtime (Z.lxor xt1 xt2) in
    let xt6 := AES_xtime (Z.lxor xt4 xt5) in
    let xt0 := Z.lxor xt0 (Z.lxor (Z.lxor (Z.lxor (Z.lxor a1 a2) a3) xt4) xt6) in
    let xt1 := Z.lxor xt1 (Z.lxor (Z.lxor (Z.lxor (Z.lxor a0 a2) a3) xt5) xt6) in
    let xt2 := Z.lxor xt2 (Z.lxor (Z.lxor (Z.lxor (Z.lxor a0 a1) a3) xt4) xt6) in
    let xt3 := Z.lxor xt3 (Z.lxor (Z.lxor (Z.lxor (Z.lxor a0 a1) a2) xt5) xt6) in
    Z.lor (Z.lor (Z.lor (u32 (Z.shiftl xt0 24)) (u32 (Z.shiftl xt1 16))) (u32 (Z.shiftl xt2 8))) xt3
  else
    Z.lor (Z.lor (Z.lor (u32 (Z.shiftl a0 24)) (u32 (Z.shiftl a1 16))) (u32 (Z.shiftl a2 8))) a3.

(** The rounds: [n] are left.  The key pointer moves down through the schedule;
    the four dwords below it are added to the four rows. *)
Fixpoint decrypt_loop (n curr_rnd rounds : nat) (ks : list Z) (k : nat) (data : list Z) : list Z :=
  match n with
  | O => data
  | S n =>
      let tmp := decrypt_row (curr_rnd <? rounds - 1)%nat data <$> seq 1 4 in
      let data := key_addition tmp ks (k - 4) in
      decrypt_loop n (S curr_rnd) rounds ks (k - 4) data
  end.

Definition AES_decrypt (ctx : AES_CTX) (data : list Z) : list Z :=
  let k := ((rounds ctx + 1) * 4)%nat in
  (* pre-round key addition *)
  let data := key_addition data (ks ctx) (k - 4) in
  (* Decrypt one block *)
  decrypt_loop (rounds ctx) 0 (rounds ctx) (ks ctx) (k - 4) data.

(** ** axTLS cipher-block chaining *)

(** The loop over the blocks of the message: [n] are left. *)
Fixpoint AES_cbc_encrypt_loop (n : nat) (ctx : AES_CTX) (tout : list Z) (msg : bytes) : list Z * bytes :=
  match n with
  | O => (tout, [])
  | S n =>
      let msg_32 := be_dwords 4 msg in
      let tin := zip_with Z.lxor msg_32 tout in
      let tout := AES_encrypt ctx tin in
      let '(last, out) := AES_cbc_encrypt_loop n ctx tout (drop AES_BLOCKSIZE msg) in
      (last, be_bytes tout ++ out)
  end.

Definition AES_cbc_encrypt (ctx : AES_CTX) (msg : bytes) (length : Z) : AES_CTX * bytes :=
  let tout := be_dwords 4 (iv ctx) in
  let '(tout, out) := AES_cbc_encrypt_loop (Z.to_nat (length / 16)) ctx tout msg in
  (Aes_ctx (rounds ctx) (key_size ctx) (ks ctx) (be_bytes tout), out).

Fixpoint AES_cbc_decrypt_loop (n : nat) (ctx : AES_CTX) (xor : list Z) (msg : bytes) : list Z * bytes :=
  match n with
  | O => (xor, [])
  | S n =>
      let tin := be_dwords 4 msg in
      let data := AES_decrypt ctx tin in
      let tout := zip_with Z.lxor data xor in
      let '(last, out) := AES_cbc_decrypt_loop n ctx tin (drop AES_BLOCKSIZE msg) in
      (last, be_bytes tout ++ out)
  end.

Definition AES_cbc_decrypt (ctx : AES_CTX) (msg : bytes) (length : Z) : AES_CTX * bytes :=
  let xor := be_dwords 4 (iv ctx) in
  let '(xor, out) := AES_cbc_decrypt_loop (Z.to_nat (length / 16)) ctx xor msg in
  (Aes_ctx (rounds ctx) (key_size ctx) (ks ctx) (be_bytes xor), out).

(** ** The cipher algorithm *)

Record aes_context : Type := Aes_context {
  axtls_ctx : AES_CTX;
  decrypting : bool;
}.

Definition aes_setkey (ctx : aes_context) (key : bytes) : res aes_context :=
  let set mode :=
    (* IV is not a relevant concept at this stage; use a dummy value *)
    let iv := iv (axtls_ctx ctx) in
    Ok (Aes_context (AES_set_key (axtls_ctx ctx) key iv mode) false) in
  if (length key =? 128 / 8)%nat then set AES_MODE_128
  else if (length key =? 256 / 8)%nat then set AES_MODE_256
  else Err EINVAL.

Definition aes_setiv (ctx : aes_context) (_ : bytes) : aes_context := ctx.

(** The dwords of the source are converted to host order one by one into the
    destination, processed there and converted back. *)
Definition aes_call_axtls (axtls_ctx : AES_CTX) (src : bytes) (func : AES_CTX → list Z → list Z) : bytes :=
  let dstl := be_dwords 4 src in
  let dstl := func axtls_ctx dstl in
  be_bytes dstl.

(** The assertions only report misuse: a length that is not a block, encryption
    with a context that has decrypted. *)
Definition aes_encrypt (ctx : aes_context) (src : bytes) : aes_context * bytes :=
  (ctx, aes_call_axtls (axtls_ctx ctx) src AES_encrypt).

Definition aes_decrypt (ctx : aes_context) (src : bytes) : aes_context * bytes :=
  let ctx :=
    if decrypting ctx then ctx
    else Aes_context (AES_convert_key (axtls_ctx ctx)) true in
  (ctx, aes_call_axtls (axtls_ctx ctx) src AES_decrypt).

(** Basic AES algorithm *)
Definition aes_algorithm : cipher_algorithm := {|
  ctx := aes_context;
  blocksize := AES_BLOCKSIZE;
  cipher_setkey := aes_setkey;
  cipher_encrypt := aes_encrypt;
  cipher_decrypt := aes_decrypt;
|}.

(** AES with cipher-block chaining *)
Definition aes_cbc_context : Type := cbc_context (H := aes_algorithm).
Definition aes_cbc_setkey : aes_cbc_context → bytes → res aes_cbc_context := cbc_name_setkey (H := aes_algorithm).
Definition aes_cbc_setiv : aes_cbc_context → bytes → aes_cbc_context := cbc_name_setiv (H := aes_algorithm).
Definition aes_cbc_encrypt : mem → aes_cbc_context → Z → Z → nat → mem * aes_cbc_context :=
  cbc_name_encrypt (H := aes_algorithm).
Definition aes_cbc_decrypt : mem → aes_cbc_context → Z → Z → nat → mem * aes_cbc_context :=
  cbc_name_decrypt (H := aes_algorithm).
