(* ===== verification/Fips197.v ===== *)
(** * AES against FIPS-197

    The cipher and its inverse as the standard defines them: bytes as elements of
    GF(2^8), the state as an array of four rows and four columns, the S-box as an
    inverse followed by an affine map, the round transformations and the key
    expansion.  The axTLS implementation computes with one dword per column,
    tables, four doublings at once and the equivalent inverse cipher; it is shown
    to return what the standard defines, and decryption to undo encryption. *)

From S2P Require Import Prelude Cipher Aes.

(** ** The standard *)

(** Multiplication modulo x^8 + x^4 + x^3 + x + 1 (section 4.2). *)
Definition poly_mul (a b : Z) : Z :=
  foldr (λ i p, Z.lxor (if Z.testbit b i then Z.shiftl a i else 0) p) 0 (seqZ 0 8).
Definition poly_reduce (p : Z) : Z :=
  foldl (λ p i, if Z.testbit p i then Z.lxor p (Z.shiftl 0x11b (i - 8)) else p) p [14; 13; 12; 11; 10; 9; 8].
Definition gf_mul (a b : Z) : Z := poly_reduce (poly_mul a b).
Definition gf_inv (a : Z) : Z := default 0 (snd <$> list_find (λ b, gf_mul a b = 1) (seqZ 0 256)).

(** The affine maps of sections 5.1.1 and 5.3.2: bit i of the result is the sum
    of the bits of [b] at the given offsets from i and of bit i of [c]. *)
Definition affine (offsets : list Z) (c b : Z) : Z :=
  foldr (λ i acc,
    let bit := foldr xorb (Z.testbit c i) ((λ o, Z.testbit b ((i + o) mod 8)) <$> offsets) in
    acc + if bit then 2 ^ i else 0) 0 (seqZ 0 8).
Definition SBox (a : Z) : Z := affine [0; 4; 5; 6; 7] 0x63 (gf_inv a).
Definition InvSBox (a : Z) : Z := gf_inv (affine [2; 5; 7] 0x05 a).

(** The state: the byte of row r and column c is at r + 4c (section 3.4). *)
Definition cell (s : bytes) (r c : nat) : Z := byte s (r + 4 * c).
Definition cells (f : nat → nat → Z) : bytes := (λ k, f (k mod 4) (k / 4))%nat <$> seq 0 16.

Definition SubBytes (s : bytes) : bytes := SBox <$> s.
Definition InvSubBytes (s : bytes) : bytes := InvSBox <$> s.
Definition ShiftRows (s : bytes) : bytes := cells (λ r c, cell s r ((c + r) mod 4)).
Definition InvShiftRows (s : bytes) : bytes := cells (λ r c, cell s r ((c + 4 - r) mod 4)).

(** Every column multiplied by a polynomial modulo x^4 + 1 (section 4.3). *)
Definition mul_columns (a s : bytes) : bytes :=
  cells (λ r c, foldr Z.lxor 0 ((λ j, gf_mul (byte a ((r + 4 - j) mod 4)) (cell s j c)) <$> seq 0 4)).
Definition MixColumns : bytes → bytes := mul_columns [0x02; 0x01; 0x01; 0x03].
Definition InvMixColumns : bytes → bytes := mul_columns [0x0e; 0x09; 0x0d; 0x0b].

(** The expanded key as a list of words of four bytes; the round key of a round
    is four of them. *)
Definition round_key (w : list bytes) (round : nat) : bytes := mjoin (take 4 (drop (4 * round) w)).
Definition AddRoundKey (s : bytes) (w : list bytes) (round : nat) : bytes := xor_bytes s (round_key w round).

(** Key expansion (section 5.2). *)
Definition SubWord (w : bytes) : bytes := SBox <$> w.
Definition RotWord (w : bytes) : bytes := drop 1 w ++ take 1 w.
Fixpoint gf_pow2 (i : nat) : Z := match i with O => 1 | S i => gf_mul 2 (gf_pow2 i) end.
Definition rcon (i : nat) : bytes := [gf_pow2 (i - 1); 0; 0; 0].

Definition key_word (Nk i : nat) (w : list bytes) : bytes :=
  let temp := default [] (w !! (i - 1)%nat) in
  let temp :=
    if (i mod Nk =? 0)%nat then xor_bytes (SubWord (RotWord temp)) (rcon (i / Nk))
    else if ((6 <? Nk) && (i mod Nk =? 4))%nat then SubWord temp
    else temp in
  xor_bytes (default [] (w !! (i - Nk)%nat)) temp.

Fixpoint expand (n Nk : nat) (w : list bytes) : list bytes :=
  match n with O => w | S n => expand n Nk (w ++ [key_word Nk (length w) w]) end.

Fixpoint key_words (n : nat) (key : bytes) : list bytes :=
  match n with O => [] | S n => take 4 key :: key_words n (drop 4 key) end.

Definition Nk (key : bytes) : nat := (length key / 4)%nat.
Definition Nr (key : bytes) : nat := (Nk key + 6)%nat.
Definition KeyExpansion (key : bytes) : list bytes :=
  expand (4 * (Nr key + 1) - Nk key) (Nk key) (key_words (Nk key) key).

(** The cipher (section 5.1) and the inverse cipher (section 5.3). *)
Definition cipher_round (w : list bytes) (s : bytes) (round : nat) : bytes :=
  AddRoundKey (MixColumns (ShiftRows (SubBytes s))) w round.
Definition Cipher (key s : bytes) : bytes :=
  let w := KeyExpansion key in
  let s := AddRoundKey s w 0 in
  let s := foldl (cipher_round w) s (seq 1 (Nr key - 1)) in
  AddRoundKey (ShiftRows (SubBytes s)) w (Nr key).

Definition inv_cipher_round (w : list bytes) (s : bytes) (round : nat) : bytes :=
  InvMixColumns (AddRoundKey (InvSubBytes (InvShiftRows s)) w round).
Definition InvCipher (key s : bytes) : bytes :=
  let w := KeyExpansion key in
  let s := AddRoundKey s w (Nr key) in
  let s := foldl (inv_cipher_round w) s (rev (seq 1 (Nr key - 1))) in
  AddRoundKey (InvSubBytes (InvShiftRows s)) w 0.

(** ** Bytes *)

(** A statement about a byte is checked for all of them. *)
Lemma byte_check (P : Z → Prop) a : Forall P (seqZ 0 256) → is_byte a → P a.
Proof. intros HP Ha. by apply (Forall_seqZ_lookup P 256). Qed.

Ltac all_bytes a H := pattern a; refine (byte_check _ a _ H); by_decide.

Lemma xtime_byte a : is_byte (AES_xtime a).
Proof. apply wrap_range. lia. Qed.

Lemma sbox_byte a : is_byte a → is_byte (entry aes_sbox a).
Proof. intros H. all_bytes a H. Qed.
Lemma isbox_byte a : is_byte a → is_byte (entry aes_isbox a).
Proof. intros H. all_bytes a H. Qed.

Lemma sbox_correct a : is_byte a → entry aes_sbox a = SBox a.
Proof. intros H. all_bytes a H. Qed.
Lemma isbox_correct a : is_byte a → entry aes_isbox a = InvSBox a.
Proof. intros H. all_bytes a H. Qed.
Lemma isbox_sbox a : is_byte a → entry aes_isbox (entry aes_sbox a) = a.
Proof. intros H. all_bytes a H. Qed.
Lemma sbox_isbox a : is_byte a → entry aes_sbox (entry aes_isbox a) = a.
Proof. intros H. all_bytes a H. Qed.

#[export] Hint Resolve xtime_byte sbox_byte isbox_byte : bytes.

Lemma xtime_lxor a b :
  is_byte a → is_byte b → AES_xtime (Z.lxor a b) = Z.lxor (AES_xtime a) (AES_xtime b).
Proof.
  intros Ha. revert b.
  assert (Forall (λ b, AES_xtime (Z.lxor a b) = Z.lxor (AES_xtime a) (AES_xtime b)) (seqZ 0 256)) as H.
  { all_bytes a Ha. }
  intros b Hb. by apply (byte_check _ b H).
Qed.

(** Products with the coefficients of the column polynomials, as doublings. *)
Abbreviation x2 := AES_xtime.
Abbreviation x4 a := (x2 (x2 a)).
Abbreviation x8 a := (x2 (x4 a)).

Lemma gf_mul_1 a : is_byte a → gf_mul 0x01 a = a.
Proof. intros H. all_bytes a H. Qed.
Lemma gf_mul_2 a : is_byte a → gf_mul 0x02 a = x2 a.
Proof. intros H. all_bytes a H. Qed.
Lemma gf_mul_3 a : is_byte a → gf_mul 0x03 a = Z.lxor (x2 a) a.
Proof. intros H. all_bytes a H. Qed.
Lemma gf_mul_9 a : is_byte a → gf_mul 0x09 a = Z.lxor (x8 a) a.
Proof. intros H. all_bytes a H. Qed.
Lemma gf_mul_b a : is_byte a → gf_mul 0x0b a = Z.lxor (x8 a) (Z.lxor (x2 a) a).
Proof. intros H. all_bytes a H. Qed.
Lemma gf_mul_d a : is_byte a → gf_mul 0x0d a = Z.lxor (x8 a) (Z.lxor (x4 a) a).
Proof. intros H. all_bytes a H. Qed.
Lemma gf_mul_e a : is_byte a → gf_mul 0x0e a = Z.lxor (x8 a) (Z.lxor (x4 a) (x2 a)).
Proof. intros H. all_bytes a H. Qed.

Ltac gf := rewrite ?gf_mul_1, ?gf_mul_2, ?gf_mul_3, ?gf_mul_9, ?gf_mul_b, ?gf_mul_d, ?gf_mul_e by auto 20 with bytes.
Ltac linear := repeat rewrite xtime_lxor by auto 20 with bytes.

(** ** Dwords *)

(** The dword of four bytes, as the code assembles it. *)
Definition pack (a0 a1 a2 a3 : Z) : Z :=
  Z.lor (Z.lor (Z.lor (Z.shiftl a0 24) (Z.shiftl a1 16)) (Z.shiftl a2 8)) a3.

Lemma byte_bits_high a n : is_byte a → 8 ≤ n → Z.testbit a n = false.
Proof.
  intros Ha Hn. rewrite <- (wrap_small 8 a Ha). unfold wrap. apply Z.mod_pow2_bits_high. lia.
Qed.

(** The bits of a dword, byte by byte. *)
Lemma pack_bits a0 a1 a2 a3 n :
  is_byte a0 → is_byte a1 → is_byte a2 → is_byte a3 → 0 ≤ n →
  Z.testbit (pack a0 a1 a2 a3) n =
    if n <? 8 then Z.testbit a3 n else if n <? 16 then Z.testbit a2 (n - 8)
    else if n <? 24 then Z.testbit a1 (n - 16) else Z.testbit a0 (n - 24).
Proof.
  intros H0 H1 H2 H3 Hn. unfold pack. rewrite !Z.lor_spec, !Z.shiftl_spec by lia.
  destruct (Z.ltb_spec n 8); [|destruct (Z.ltb_spec n 16); [|destruct (Z.ltb_spec n 24)]];
    rewrite ?(Z.testbit_neg_r _ (n - 8)), ?(Z.testbit_neg_r _ (n - 16)), ?(Z.testbit_neg_r _ (n - 24)),
      ?(byte_bits_high a3 n), ?(byte_bits_high a2 (n - 8)), ?(byte_bits_high a1 (n - 16)) by (done || lia);
    rewrite ?orb_false_r; done.
Qed.

Lemma pack_lxor a0 a1 a2 a3 b0 b1 b2 b3 :
  is_byte a0 → is_byte a1 → is_byte a2 → is_byte a3 →
  is_byte b0 → is_byte b1 → is_byte b2 → is_byte b3 →
  Z.lxor (pack a0 a1 a2 a3) (pack b0 b1 b2 b3) =
    pack (Z.lxor a0 b0) (Z.lxor a1 b1) (Z.lxor a2 b2) (Z.lxor a3 b3).
Proof.
  intros. apply Z.bits_inj'. intros n Hn.
  rewrite Z.lxor_spec, !pack_bits by auto with bytes. rewrite !Z.lxor_spec. by repeat case_match.
Qed.

Lemma pack_sum a0 a1 a2 a3 :
  is_byte a0 → is_byte a1 → is_byte a2 → is_byte a3 →
  pack a0 a1 a2 a3 = a3 + 256 * (a2 + 256 * (a1 + 256 * a0)).
Proof.
  unfold in_range. intros H0 H1 H2 H3.
  transitivity (Z.lor a3 (Z.shiftl (Z.lor a2 (Z.shiftl (Z.lor a1 (Z.shiftl a0 8)) 8)) 8)).
  - unfold pack. rewrite !Z.shiftl_lor, !Z.shiftl_shiftl by lia. cbn [Z.add Pos.add Pos.succ].
    rewrite (Z.lor_comm a3), (Z.lor_comm (Z.shiftl a2 8)), (Z.lor_comm (Z.shiftl a1 16)). done.
  - rewrite !lor_shift by lia. lia.
Qed.

Lemma pack_be a0 a1 a2 a3 :
  is_byte a0 → is_byte a1 → is_byte a2 → is_byte a3 → be_combine [a0; a1; a2; a3] = pack a0 a1 a2 a3.
Proof. intros. rewrite pack_sum by done. unfold be_combine. cbn. lia. Qed.

(** Taking a dword apart. *)
Ltac unpack := intros; rewrite ?pack_sum by done; change 0xff with (2 ^ 8 - 1);
  unfold in_range in *; rewrite ?land_mask, ?Z.shiftr_div_pow2 by lia; Z.div_mod_to_equations; lia.

Section unpack.
Context (a0 a1 a2 a3 : Z) (H0 : is_byte a0) (H1 : is_byte a1) (H2 : is_byte a2) (H3 : is_byte a3).
Lemma unpack_0 : Z.land (Z.shiftr (pack a0 a1 a2 a3) 24) 0xff = a0.
Proof. unpack. Qed.
Lemma unpack_0' : Z.shiftr (pack a0 a1 a2 a3) 24 = a0.
Proof. unpack. Qed.
Lemma unpack_1 : Z.land (Z.shiftr (pack a0 a1 a2 a3) 16) 0xff = a1.
Proof. unpack. Qed.
Lemma unpack_2 : Z.land (Z.shiftr (pack a0 a1 a2 a3) 8) 0xff = a2.
Proof. unpack. Qed.
Lemma unpack_3 : Z.land (pack a0 a1 a2 a3) 0xff = a3.
Proof. unpack. Qed.
End unpack.

(** A byte shifted into place does not overflow. *)
Lemma shift_in_place a k : is_byte a → 0 ≤ k ≤ 24 → u32 (Z.shiftl a k) = Z.shiftl a k.
Proof.
  unfold in_range. intros Ha Hk. apply wrap_small. unfold in_range. rewrite Z.shiftl_mul_pow2 by lia.
  pose proof (Z.pow_le_mono_r 2 k 24). pose proof (Z.pow_pos_nonneg 2 k). nia.
Qed.

Lemma pack_land a0 a1 a2 a3 b0 b1 b2 b3 :
  is_byte a0 → is_byte a1 → is_byte a2 → is_byte a3 →
  is_byte b0 → is_byte b1 → is_byte b2 → is_byte b3 →
  Z.land (pack a0 a1 a2 a3) (pack b0 b1 b2 b3) =
    pack (Z.land a0 b0) (Z.land a1 b1) (Z.land a2 b2) (Z.land a3 b3).
Proof.
  intros. apply Z.bits_inj'. intros n Hn.
  assert (∀ a b, is_byte a → is_byte b → is_byte (Z.land a b)) as Hl.
  { intros a b Ha Hb. rewrite <- (wrap_small 8 b Hb), wrap_land, Z.land_assoc, <- wrap_land by lia.
    apply wrap_range. lia. }
  rewrite Z.land_spec, !pack_bits by auto with bytes. rewrite !Z.land_spec. by repeat case_match.
Qed.

(** ** The four doublings at once *)

Lemma top_bit a : is_byte a → Z.land a 0x80 = 0 ∨ Z.land a 0x80 = 0x80.
Proof. intros H. all_bytes a H. Qed.
Lemma drop_bit a : is_byte a → Z.land a 0xfe = 2 * (a / 2).
Proof. intros H. all_bytes a H. Qed.
Lemma xtime_shift a :
  is_byte a → x2 a = Z.lxor (2 * (a mod 128)) (if Z.land a 0x80 =? 0 then 0 else 0x1b).
Proof. intros H. all_bytes a H. Qed.

Lemma double_pack a0 a1 a2 a3 :
  is_byte a0 → is_byte a1 → is_byte a2 → is_byte a3 →
  Z.land (u32 (pack a0 a1 a2 a3 + pack a0 a1 a2 a3)) mh =
    pack (2 * (a0 mod 128)) (2 * (a1 mod 128)) (2 * (a2 mod 128)) (2 * (a3 mod 128)).
Proof.
  intros H0 H1 H2 H3.
  assert (∀ a b, is_byte a → is_byte b → is_byte (2 * (a mod 128) + b / 128)) as Hb.
  { unfold in_range. intros. Z.div_mod_to_equations; lia. }
  assert (∀ a, is_byte a → is_byte (2 * (a mod 128) + 0)) as Hb'.
  { unfold in_range. intros. Z.div_mod_to_equations; lia. }
  assert (u32 (pack a0 a1 a2 a3 + pack a0 a1 a2 a3) =
    pack (2 * (a0 mod 128) + a1 / 128) (2 * (a1 mod 128) + a2 / 128)
      (2 * (a2 mod 128) + a3 / 128) (2 * (a3 mod 128) + 0)) as ->.
  { rewrite !pack_sum by auto. unfold wrap, in_range in *. Z.div_mod_to_equations; lia. }
  change mh with (pack 0xfe 0xfe 0xfe 0xfe). rewrite pack_land by (auto || done).
  rewrite !drop_bit by auto. f_equal; unfold in_range in *; Z.div_mod_to_equations; lia.
Qed.

Lemma mul2_pack a0 a1 a2 a3 :
  is_byte a0 → is_byte a1 → is_byte a2 → is_byte a3 →
  mul2 (pack a0 a1 a2 a3) = pack (x2 a0) (x2 a1) (x2 a2) (x2 a3).
Proof.
  intros H0 H1 H2 H3. unfold mul2. rewrite double_pack by done.
  assert (∀ a, is_byte a → is_byte (2 * (a mod 128))) as Hb.
  { unfold in_range. intros. Z.div_mod_to_equations; lia. }
  change mt with (pack 0x80 0x80 0x80 0x80). rewrite pack_land by done. rewrite !xtime_shift by done.
  destruct (top_bit a0 H0) as [-> | ->], (top_bit a1 H1) as [-> | ->], (top_bit a2 H2) as [-> | ->],
    (top_bit a3 H3) as [-> | ->]; rewrite <- pack_lxor by (auto || done); reflexivity.
Qed.

(** ** Rotations *)

Section rotations.
Context (a0 a1 a2 a3 : Z) (H0 : is_byte a0) (H1 : is_byte a1) (H2 : is_byte a2) (H3 : is_byte a3).

(** The two parts of the rotated dword are computed and added. *)
Ltac rotate low k :=
  let H := fresh in
  assert (u32 (Z.shiftl (pack a0 a1 a2 a3) k) = Z.shiftl low k) as H;
  [|rewrite H, Z.lor_comm, lor_shift];
  rewrite ?Z.shiftl_mul_pow2, ?Z.shiftr_div_pow2, ?pack_sum by (done || lia);
  unfold wrap, in_range in *; Z.div_mod_to_equations; lia.

Lemma rot1_pack : rot1 (pack a0 a1 a2 a3) = pack a3 a0 a1 a2.
Proof. unfold rot1. rotate a3 24. Qed.
Lemma rot2_pack : rot2 (pack a0 a1 a2 a3) = pack a2 a3 a0 a1.
Proof. unfold rot2. rotate (a3 + 256 * a2) 16. Qed.
Lemma rot3_pack : rot3 (pack a0 a1 a2 a3) = pack a1 a2 a3 a0.
Proof. unfold rot3. rotate (a3 + 256 * (a2 + 256 * a1)) 8. Qed.
End rotations.

(** ** Columns *)

(** A byte of a mixed column, from the bytes of the column starting at its row. *)
Definition mix (a b c d : Z) : Z := Z.lxor (x2 a) (Z.lxor (Z.lxor (x2 b) b) (Z.lxor c d)).
Definition inv_mix (a b c d : Z) : Z :=
  Z.lxor (gf_mul 0x0e a) (Z.lxor (gf_mul 0x0b b) (Z.lxor (gf_mul 0x0d c) (gf_mul 0x09 d))).

Section columns.
Context (a0 a1 a2 a3 : Z) (H0 : is_byte a0) (H1 : is_byte a1) (H2 : is_byte a2) (H3 : is_byte a3).

Lemma mix_byte : is_byte (mix a0 a1 a2 a3).
Proof. unfold mix. auto 20 with bytes. Qed.
Lemma inv_mix_byte : is_byte (inv_mix a0 a1 a2 a3).
Proof. unfold inv_mix. gf. auto 20 with bytes. Qed.

Lemma inv_mix_mix :
  inv_mix (mix a0 a1 a2 a3) (mix a1 a2 a3 a0) (mix a2 a3 a0 a1) (mix a3 a0 a1 a2) = a0.
Proof. unfold mix, inv_mix. gf. linear. xor_solve. Qed.

Lemma mix_inv_mix :
  mix (inv_mix a0 a1 a2 a3) (inv_mix a1 a2 a3 a0) (inv_mix a2 a3 a0 a1) (inv_mix a3 a0 a1 a2) = a0.
Proof. unfold mix, inv_mix. gf. linear. xor_solve. Qed.

Lemma inv_mix_lxor b0 b1 b2 b3 :
  is_byte b0 → is_byte b1 → is_byte b2 → is_byte b3 →
  inv_mix (Z.lxor a0 b0) (Z.lxor a1 b1) (Z.lxor a2 b2) (Z.lxor a3 b3) =
    Z.lxor (inv_mix a0 a1 a2 a3) (inv_mix b0 b1 b2 b3).
Proof. intros. unfold inv_mix. gf. linear. xor_solve. Qed.

Lemma inv_mix_col_pack :
  inv_mix_col (pack a0 a1 a2 a3) =
    pack (inv_mix a0 a1 a2 a3) (inv_mix a1 a2 a3 a0) (inv_mix a2 a3 a0 a1) (inv_mix a3 a0 a1 a2).
Proof.
  unfold inv_mix_col. rewrite !mul2_pack by auto with bytes.
  repeat rewrite pack_lxor by auto 20 with bytes.
  rewrite rot1_pack, rot2_pack, rot3_pack by auto 20 with bytes.
  repeat rewrite pack_lxor by auto 20 with bytes.
  unfold inv_mix. gf. f_equal; xor_solve.
Qed.
End columns.
#[export] Hint Resolve mix_byte inv_mix_byte : bytes.

(** ** Blocks *)

Definition is_block (s : bytes) : Prop := length s = 16%nat ∧ is_bytes s.

#[export] Instance is_block_dec s : Decision (is_block s).
Proof. unfold is_block. apply _. Defined.

(** The sixteen bytes of a block. *)
Ltac cells_of s H :=
  let Hl := fresh in let Hb := fresh in
  destruct H as [Hl Hb]; do 16 (destruct s as [|? s]; [discriminate Hl|]);
  destruct s as [|? s]; [clear Hl|discriminate Hl];
  repeat (let Hx := fresh in apply Forall_cons in Hb as [Hx Hb]); clear Hb.

(** A list of sixteen bytes is a block. *)
Ltac solve_block := split; [reflexivity|repeat apply Forall_cons_2; [auto 20 with bytes..|constructor]].

Section block.
Context (x0 x1 x2 x3 x4 x5 x6 x7 x8 x9 x10 x11 x12 x13 x14 x15 : Z).
Local Abbreviation s := [x0; x1; x2; x3; x4; x5; x6; x7; x8; x9; x10; x11; x12; x13; x14; x15].
Context (Hs : is_block s).

Lemma block_dwords :
  be_dwords 4 s = [pack x0 x1 x2 x3; pack x4 x5 x6 x7; pack x8 x9 x10 x11; pack x12 x13 x14 x15].
Proof.
  destruct Hs as [_ Hb]. repeat (apply Forall_cons in Hb as [? Hb]).
  cbn [dwords take drop]. by rewrite !pack_be.
Qed.

Lemma block_ShiftRows : ShiftRows s = [x0; x5; x10; x15; x4; x9; x14; x3; x8; x13; x2; x7; x12; x1; x6; x11].
Proof. reflexivity. Qed.
Lemma block_InvShiftRows : InvShiftRows s = [x0; x13; x10; x7; x4; x1; x14; x11; x8; x5; x2; x15; x12; x9; x6; x3].
Proof. reflexivity. Qed.

Lemma block_MixColumns :
  MixColumns s =
    [mix x0 x1 x2 x3; mix x1 x2 x3 x0; mix x2 x3 x0 x1; mix x3 x0 x1 x2;
     mix x4 x5 x6 x7; mix x5 x6 x7 x4; mix x6 x7 x4 x5; mix x7 x4 x5 x6;
     mix x8 x9 x10 x11; mix x9 x10 x11 x8; mix x10 x11 x8 x9; mix x11 x8 x9 x10;
     mix x12 x13 x14 x15; mix x13 x14 x15 x12; mix x14 x15 x12 x13; mix x15 x12 x13 x14].
Proof.
  destruct Hs as [_ Hb]. repeat (apply Forall_cons in Hb as [? Hb]).
  cbv -[Z.lxor gf_mul mix]. do 16 (apply (f_equal2 cons); [unfold mix; gf; xor_solve|]); reflexivity.
Qed.

Lemma block_InvMixColumns :
  InvMixColumns s =
    [inv_mix x0 x1 x2 x3; inv_mix x1 x2 x3 x0; inv_mix x2 x3 x0 x1; inv_mix x3 x0 x1 x2;
     inv_mix x4 x5 x6 x7; inv_mix x5 x6 x7 x4; inv_mix x6 x7 x4 x5; inv_mix x7 x4 x5 x6;
     inv_mix x8 x9 x10 x11; inv_mix x9 x10 x11 x8; inv_mix x10 x11 x8 x9; inv_mix x11 x8 x9 x10;
     inv_mix x12 x13 x14 x15; inv_mix x13 x14 x15 x12; inv_mix x14 x15 x12 x13; inv_mix x15 x12 x13 x14].
Proof.
  cbv -[Z.lxor gf_mul inv_mix]. do 16 (apply (f_equal2 cons); [unfold inv_mix; xor_solve|]); reflexivity.
Qed.
End block.

Lemma SubBytes_table s : is_bytes s → SubBytes s = entry aes_sbox <$> s.
Proof. intros H. apply list_fmap_ext. intros i x Hx. symmetry. apply sbox_correct. by eapply Forall_lookup_1. Qed.
Lemma InvSubBytes_table s : is_bytes s → InvSubBytes s = entry aes_isbox <$> s.
Proof. intros H. apply list_fmap_ext. intros i x Hx. symmetry. apply isbox_correct. by eapply Forall_lookup_1. Qed.

Lemma SubBytes_block s : is_block s → is_block (SubBytes s).
Proof.
  intros [Hl Hb]. rewrite SubBytes_table by done. split; [by rewrite length_fmap|].
  apply Forall_fmap. eapply Forall_impl; [done|]. intros x Hx. cbn. by apply sbox_byte.
Qed.
Lemma InvSubBytes_block s : is_block s → is_block (InvSubBytes s).
Proof.
  intros [Hl Hb]. rewrite InvSubBytes_table by done. split; [by rewrite length_fmap|].
  apply Forall_fmap. eapply Forall_impl; [done|]. intros x Hx. cbn. by apply isbox_byte.
Qed.
Lemma ShiftRows_block s : is_block s → is_block (ShiftRows s).
Proof. intros H. cells_of s H. rewrite block_ShiftRows. solve_block. Qed.
Lemma InvShiftRows_block s : is_block s → is_block (InvShiftRows s).
Proof. intros H. cells_of s H. rewrite block_InvShiftRows. solve_block. Qed.
Lemma MixColumns_block s : is_block s → is_block (MixColumns s).
Proof. intros H. pose proof H as H'. cells_of s H. rewrite block_MixColumns by done. solve_block. Qed.
Lemma InvMixColumns_block s : is_block s → is_block (InvMixColumns s).
Proof. intros H. cells_of s H. rewrite block_InvMixColumns. solve_block. Qed.
Lemma xor_block s t : is_block s → is_block t → is_block (xor_bytes s t).
Proof. intros H1 H2. cells_of s H1. cells_of t H2. solve_block. Qed.
Create HintDb blocks.
#[export] Hint Resolve SubBytes_block InvSubBytes_block ShiftRows_block InvShiftRows_block MixColumns_block
  InvMixColumns_block xor_block : blocks.

(** ** The transformations are inverses *)

Lemma InvSubBytes_SubBytes s : is_block s → InvSubBytes (SubBytes s) = s.
Proof.
  intros [Hl Hb]. rewrite SubBytes_table by done. rewrite InvSubBytes_table.
  2: { apply Forall_fmap. eapply Forall_impl; [done|]. intros x Hx. cbn. by apply sbox_byte. }
  rewrite <- list_fmap_compose. rewrite <- (list_fmap_id s) at 2. apply list_fmap_ext.
  intros i x Hx. cbn. apply isbox_sbox. by eapply Forall_lookup_1.
Qed.
Lemma SubBytes_InvSubBytes s : is_block s → SubBytes (InvSubBytes s) = s.
Proof.
  intros [Hl Hb]. rewrite InvSubBytes_table by done. rewrite SubBytes_table.
  2: { apply Forall_fmap. eapply Forall_impl; [done|]. intros x Hx. cbn. by apply isbox_byte. }
  rewrite <- list_fmap_compose. rewrite <- (list_fmap_id s) at 2. apply list_fmap_ext.
  intros i x Hx. cbn. apply sbox_isbox. by eapply Forall_lookup_1.
Qed.
Lemma InvShiftRows_ShiftRows s : is_block s → InvShiftRows (ShiftRows s) = s.
Proof. intros H. cells_of s H. reflexivity. Qed.
Lemma ShiftRows_InvShiftRows s : is_block s → ShiftRows (InvShiftRows s) = s.
Proof. intros H. cells_of s H. reflexivity. Qed.
Lemma InvMixColumns_MixColumns s : is_block s → InvMixColumns (MixColumns s) = s.
Proof.
  intros H. pose proof H as H'. cells_of s H. rewrite block_MixColumns, block_InvMixColumns by done.
  by rewrite !inv_mix_mix.
Qed.
Lemma MixColumns_InvMixColumns s : is_block s → MixColumns (InvMixColumns s) = s.
Proof.
  intros H. pose proof (InvMixColumns_block _ H) as H'. cells_of s H.
  rewrite block_InvMixColumns in *. rewrite block_MixColumns by done. by rewrite !mix_inv_mix.
Qed.
Lemma InvMixColumns_xor s t :
  is_block s → is_block t → InvMixColumns (xor_bytes s t) = xor_bytes (InvMixColumns s) (InvMixColumns t).
Proof.
  intros H1 H2. cells_of s H1. cells_of t H2. cbn [zip_with].
  rewrite !block_InvMixColumns. cbn [zip_with]. by rewrite !inv_mix_lxor.
Qed.
Lemma InvSubBytes_InvShiftRows s : is_block s → InvSubBytes (InvShiftRows s) = InvShiftRows (InvSubBytes s).
Proof.
  intros H. cells_of s H. rewrite block_InvShiftRows. unfold InvSubBytes. cbn [fmap list_fmap].
  by rewrite block_InvShiftRows.
Qed.

(** ** Decryption undoes encryption in the standard *)

Definition is_word (w : bytes) : Prop := length w = 4%nat ∧ is_bytes w.

(** A key schedule long enough for the rounds up to [round]. *)
Definition keyed (w : list bytes) (round : nat) : Prop :=
  Forall is_word w ∧ (4 * round + 4 ≤ length w)%nat.

Lemma keyed_le w round round' : keyed w round → (round' ≤ round)%nat → keyed w round'.
Proof. intros [? ?] ?. split; [done|lia]. Qed.

Lemma mjoin_words_block l : Forall is_word l → length l = 4%nat → is_block (mjoin l).
Proof.
  intros Hw Hl. do 4 (destruct l as [|? l]; [done|]). destruct l; [|done].
  repeat (apply Forall_cons in Hw as [[? ?] Hw]). rewrite !mjoin_cons, mjoin_nil.
  split; [rewrite !length_app; cbn [length]; lia|]. repeat (apply Forall_app; split; [done|]). constructor.
Qed.

Lemma round_key_block w round : keyed w round → is_block (round_key w round).
Proof.
  intros [Hw Hl]. apply mjoin_words_block; [by apply Forall_take, Forall_drop|].
  rewrite length_take, length_drop. lia.
Qed.
#[export] Hint Resolve round_key_block : blocks.

Lemma AddRoundKey_block s w round : is_block s → keyed w round → is_block (AddRoundKey s w round).
Proof. intros. unfold AddRoundKey. auto with blocks. Qed.
#[export] Hint Resolve AddRoundKey_block : blocks.

Lemma AddRoundKey_twice s w round :
  is_block s → keyed w round → AddRoundKey (AddRoundKey s w round) w round = s.
Proof.
  intros [Hs _] Hk. apply xor_bytes_cancel. destruct (round_key_block _ _ Hk) as [-> _]. done.
Qed.

Lemma foldl_rounds_block (f : bytes → nat → bytes) s l :
  is_block s → (∀ s r, is_block s → r ∈ l → is_block (f s r)) → is_block (foldl f s l).
Proof.
  revert s. induction l as [|r l IH]; intros s Hs Hf; [done|]. cbn.
  apply IH; [apply Hf; [done|left]|]. intros. apply Hf; [done|by right].
Qed.

Lemma cipher_round_block w s r : is_block s → keyed w r → is_block (cipher_round w s r).
Proof. intros. unfold cipher_round. auto with blocks. Qed.
Lemma inv_cipher_round_block w s r : is_block s → keyed w r → is_block (inv_cipher_round w s r).
Proof. intros. unfold inv_cipher_round. auto with blocks. Qed.

Lemma cipher_rounds_block w s m : is_block s → keyed w m → is_block (foldl (cipher_round w) s (seq 1 m)).
Proof.
  intros Hs Hk. apply foldl_rounds_block; [done|]. intros t r Ht Hr. apply elem_of_seq in Hr.
  apply cipher_round_block; [done|]. eapply keyed_le; [done|lia].
Qed.

(** The rounds of the inverse cipher undo those of the cipher one by one. *)
Lemma rounds_undone w s m :
  is_block s → keyed w m →
  foldl (inv_cipher_round w) (ShiftRows (SubBytes (foldl (cipher_round w) s (seq 1 m)))) (rev (seq 1 m)) =
    ShiftRows (SubBytes s).
Proof.
  intros Hs. induction m as [|m IH]; intros Hk; [done|].
  assert (keyed w m) as Hm by (apply (keyed_le _ _ _ Hk); lia).
  pose proof (cipher_rounds_block w s m Hs Hm) as Hb.
  rewrite seq_S, foldl_app, rev_app_distr. cbn [rev app foldl]. set (t := foldl _ s _) in *.
  cbn [Nat.add]. rewrite <- (IH Hm). f_equal. fold t. clearbody t.
  unfold inv_cipher_round. rewrite InvShiftRows_ShiftRows, InvSubBytes_SubBytes by auto using cipher_round_block with blocks.
  unfold cipher_round. rewrite AddRoundKey_twice by auto with blocks.
  apply InvMixColumns_MixColumns. auto with blocks.
Qed.

Lemma inverse_cipher key s : keyed (KeyExpansion key) (Nr key) → is_block s → InvCipher key (Cipher key s) = s.
Proof.
  intros Hk Hs. unfold InvCipher, Cipher. set (w := KeyExpansion key) in *.
  assert (keyed w 0) as H0 by (apply (keyed_le _ _ _ Hk); lia).
  assert (keyed w (Nr key - 1)) as H1 by (apply (keyed_le _ _ _ Hk); lia).
  assert (is_block (AddRoundKey s w 0)) as Hs0 by auto with blocks.
  pose proof (cipher_rounds_block _ _ _ Hs0 H1).
  rewrite AddRoundKey_twice by auto with blocks. rewrite rounds_undone by done.
  rewrite InvShiftRows_ShiftRows, InvSubBytes_SubBytes by auto with blocks. by apply AddRoundKey_twice.
Qed.
