(* ===== verification/AesCorrect.v ===== *)
(** * The AES implementation computes the FIPS-197 cipher

    The key schedule, the rounds of [AES_encrypt] and [AES_decrypt] on packed
    columns, and the cipher algorithm of axtls_aes.c, against the definitions of
    Fips197.v. *)

From S2P Require Import Prelude Cipher Aes Fips197.
From Stdlib Require Import Btauto.

(** ** Arrays *)

Lemma word_insert_eq W i x : (i < length W)%nat → word (<[i := x]> W) i = x.
Proof. intros. unfold word. by rewrite list_lookup_insert_eq. Qed.
Lemma word_insert_ne W i j x : i ≠ j → word (<[i := x]> W) j = word W j.
Proof. intros. unfold word. by rewrite list_lookup_insert_ne. Qed.

(** ** Key schedule *)

(** The dwords of an expanded key. *)
Definition schedule (W : list Z) (w : list bytes) : Prop :=
  ∀ i x, w !! i = Some x → word W i = be_combine x.

Lemma schedule_snoc W w x :
  schedule W w → (length w < length W)%nat → schedule (<[length w := be_combine x]> W) (w ++ [x]).
Proof.
  intros HW Hl i y Hy. apply lookup_app_Some in Hy as [Hy|[Hi Hy]].
  - pose proof (lookup_lt_Some _ _ _ Hy). rewrite word_insert_ne by lia. by apply HW.
  - apply list_lookup_singleton_Some in Hy as [? <-]. replace i with (length w) by lia.
    by apply word_insert_eq.
Qed.

Lemma is_word_pack x : is_word x → ∃ a0 a1 a2 a3,
  x = [a0; a1; a2; a3] ∧ is_byte a0 ∧ is_byte a1 ∧ is_byte a2 ∧ is_byte a3 ∧ be_combine x = pack a0 a1 a2 a3.
Proof.
  intros [Hl Hb]. do 4 (destruct x as [|? x]; [done|]). destruct x; [|done].
  repeat (apply Forall_cons in Hb as [? Hb]). do 4 eexists. split_and!; try done. by apply pack_be.
Qed.

Lemma load_word_correct key o : is_bytes key → load_word key o = pack (byte key o) (byte key (o + 1)) (byte key (o + 2)) (byte key (o + 3)).
Proof.
  intros Hb. assert (∀ i, is_byte (byte key i)) as H.
  { intros i. unfold byte. destruct (key !! i) eqn:Hi; cbn; [by eapply Forall_lookup_1|done]. }
  unfold load_word. by rewrite !shift_in_place by (auto || lia).
Qed.

Lemma load_key_length n i W key : length (load_key n i W key) = length W.
Proof. revert i W key. induction n as [|n IH]; intros; [done|]. cbn. by rewrite IH, !length_insert. Qed.

Lemma load_key_schedule n W key w :
  is_bytes key → length key = (8 * n)%nat → schedule W w → (length w + 2 * n ≤ length W)%nat →
  schedule (load_key n (length w) W key) (w ++ key_words (2 * n) key).
Proof.
  revert W key w. induction n as [|n IH]; intros W key w Hb Hk HW Hl.
  { cbn. by rewrite app_nil_r. }
  do 8 (destruct key as [|? key]; [cbn [length] in Hk; lia|]). cbn [load_key].
  replace (2 * S n)%nat with (S (S (2 * n)))%nat by lia. cbn [key_words take drop].
  rewrite !load_word_correct by done. unfold byte. cbn [lookup list_lookup Nat.add default].
  rewrite <- !pack_be by (repeat (apply Forall_cons in Hb as [? Hb]); done).
  pose proof (schedule_snoc W w [z; z0; z1; z2] HW ltac:(lia)) as H1.
  epose proof (schedule_snoc _ _ [z3; z4; z5; z6] H1 ltac:(rewrite length_app, length_insert; cbn [length]; lia)) as H2.
  rewrite (cons_middle [z; _; _; _]), (cons_middle [z3; _; _; _]), !app_assoc.
  rewrite length_app in H2. cbn [length] in H2.
  specialize (IH _ key _ (Forall_drop _ 8 _ Hb) ltac:(cbn [length] in Hk; lia) H2).
  rewrite !length_app in IH. cbn [length] in IH. replace (length w + 2)%nat with (length w + 1 + 1)%nat by lia.
  apply IH. rewrite !length_insert. lia.
Qed.

Lemma Rcon_correct k : (k < 30)%nat → byte Rcon k = gf_pow2 k ∧ is_byte (gf_pow2 k).
Proof.
  intros Hk. assert (Forall (λ k, byte Rcon k = gf_pow2 k ∧ is_byte (gf_pow2 k)) (seq 0 30)) as H by by_decide.
  rewrite Forall_forall in H. apply H, elem_of_seq. lia.
Qed.

Lemma SubWord_table x : is_bytes x → SubWord x = entry aes_sbox <$> x.
Proof. apply SubBytes_table. Qed.

Ltac lor_solve := apply Z.bits_inj'; intros ? _; rewrite ?Z.lor_spec; btauto.

Lemma xor_words x y : is_word x → is_word y → be_combine (xor_bytes x y) = Z.lxor (be_combine x) (be_combine y).
Proof.
  intros (a0 & a1 & a2 & a3 & -> & ? & ? & ? & ? & ->)%is_word_pack.
  intros (b0 & b1 & b2 & b3 & -> & ? & ? & ? & ? & ->)%is_word_pack.
  rewrite pack_lxor by done. apply pack_be; auto with bytes.
Qed.

Lemma xor_is_word x y : is_word x → is_word y → is_word (xor_bytes x y).
Proof.
  intros (a0 & a1 & a2 & a3 & -> & ? & ? & ? & ? & _)%is_word_pack.
  intros (b0 & b1 & b2 & b3 & -> & ? & ? & ? & ? & _)%is_word_pack.
  split; [done|]. repeat apply Forall_cons_2; auto with bytes.
Qed.
Lemma SubWord_is_word x : is_word x → is_word (SubWord x).
Proof.
  intros (a0 & a1 & a2 & a3 & -> & ? & ? & ? & ? & _)%is_word_pack.
  rewrite SubWord_table by (repeat apply Forall_cons_2; auto; constructor).
  split; [done|]. repeat apply Forall_cons_2; auto with bytes.
Qed.
Lemma RotWord_is_word x : is_word x → is_word (RotWord x).
Proof.
  intros (a0 & a1 & a2 & a3 & -> & ? & ? & ? & ? & _)%is_word_pack.
  split; [done|]. repeat apply Forall_cons_2; auto with bytes.
Qed.
Lemma rcon_is_word k : (k ≤ 30)%nat → is_word (rcon k).
Proof.
  intros. split; [done|]. unfold rcon. repeat apply Forall_cons_2; try done. apply Rcon_correct. lia.
Qed.
Create HintDb words.
#[export] Hint Resolve xor_is_word SubWord_is_word RotWord_is_word rcon_is_word : words.

(** The two substitutions of the key expansion. *)
Lemma rot_sub_correct x :
  is_word x →
  let tmp := be_combine x in
  Z.lor (Z.lor (Z.lor (u32 (Z.shiftl (entry aes_sbox (Z.land tmp 0xff)) 8))
    (u32 (Z.shiftl (entry aes_sbox (Z.land (Z.shiftr tmp 8) 0xff)) 16)))
    (u32 (Z.shiftl (entry aes_sbox (Z.land (Z.shiftr tmp 16) 0xff)) 24)))
    (entry aes_sbox (Z.shiftr tmp 24)) = be_combine (SubWord (RotWord x)).
Proof.
  intros Hx tmp. subst tmp. pose proof (RotWord_is_word _ Hx) as [_ Hr]. revert Hr.
  destruct (is_word_pack _ Hx) as (a0 & a1 & a2 & a3 & -> & ? & ? & ? & ? & ->). intros Hr.
  rewrite unpack_0', unpack_1, unpack_2, unpack_3 by done. rewrite !shift_in_place by (auto with bytes || lia).
  rewrite SubWord_table by done. cbn [RotWord drop take app fmap list_fmap].
  rewrite pack_be by auto with bytes. unfold pack. lor_solve.
Qed.

Lemma sub_correct x :
  is_word x →
  let tmp := be_combine x in
  Z.lor (Z.lor (Z.lor (entry aes_sbox (Z.land tmp 0xff))
    (u32 (Z.shiftl (entry aes_sbox (Z.land (Z.shiftr tmp 8) 0xff)) 8)))
    (u32 (Z.shiftl (entry aes_sbox (Z.land (Z.shiftr tmp 16) 0xff)) 16)))
    (u32 (Z.shiftl (entry aes_sbox (Z.shiftr tmp 24)) 24)) = be_combine (SubWord x).
Proof.
  intros Hx tmp. subst tmp. pose proof Hx as [_ Hb]. revert Hb.
  destruct (is_word_pack _ Hx) as (a0 & a1 & a2 & a3 & -> & ? & ? & ? & ? & ->). intros Hb.
  rewrite unpack_0', unpack_1, unpack_2, unpack_3 by done. rewrite !shift_in_place by (auto with bytes || lia).
  rewrite SubWord_table by done. cbn [fmap list_fmap].
  rewrite pack_be by auto with bytes. unfold pack. lor_solve.
Qed.

Lemma rcon_dword k : (k < 30)%nat → u32 (Z.shiftl (byte Rcon k) 24) = be_combine (rcon (S k)).
Proof.
  intros Hk. destruct (Rcon_correct k Hk) as [-> Hb]. rewrite shift_in_place by (done || lia).
  unfold rcon. rewrite Nat.sub_succ, Nat.sub_0_r, pack_be by (done || (unfold in_range; lia)).
  unfold pack. by rewrite !Z.lor_0_r.
Qed.

Lemma pred_div i k : (0 < k)%nat → (0 < i)%nat →
  (i / k = if i mod k =? 0 then S ((i - 1) / k) else (i - 1) / k)%nat.
Proof.
  intros Hk Hi. pose proof (Nat.div_mod_eq i k). pose proof (Nat.mod_upper_bound i k ltac:(lia)).
  destruct (Nat.eqb_spec (i mod k) 0) as [Hm|Hm].
  - destruct (i / k)%nat as [|q]; [lia|]. rewrite Nat.mul_succ_r in *. f_equal.
    apply (Nat.div_unique (i - 1) k q (k - 1)); lia.
  - apply (Nat.div_unique (i - 1) k (i / k) (i mod k - 1)); lia.
Qed.

Lemma key_word_is_word words w :
  (words = 4 ∨ words = 8)%nat → Forall is_word w → (words ≤ length w < 60)%nat →
  is_word (key_word words (length w) w).
Proof.
  intros Hw Hf Hl. unfold key_word.
  destruct (lookup_lt_is_Some_2 w (length w - 1) ltac:(lia)) as [x Hx].
  destruct (lookup_lt_is_Some_2 w (length w - words) ltac:(lia)) as [y Hy]. rewrite Hx, Hy. cbn [default].
  pose proof (Forall_lookup_1 _ _ _ _ Hf Hx). pose proof (Forall_lookup_1 _ _ _ _ Hf Hy).
  assert (is_word (rcon (length w / words))).
  { apply rcon_is_word. apply Nat.Div0.div_le_upper_bound. lia. }
  repeat case_match; auto with words.
Qed.

Lemma expand_words n words w :
  (words = 4 ∨ words = 8)%nat → Forall is_word w → (words ≤ length w)%nat → (length w + n ≤ 60)%nat →
  Forall is_word (expand n words w) ∧ length (expand n words w) = (length w + n)%nat.
Proof.
  intros Hw. revert w. induction n as [|n IH]; intros w Hf Hl Hn; [split; [done|cbn; lia]|]. cbn [expand].
  assert (length (w ++ [key_word words (length w) w]) = S (length w)) as Hs by (rewrite length_app; cbn; lia).
  destruct (IH (w ++ [key_word words (length w) w])) as [? ?]; [|lia..|split; [done|lia]].
  apply Forall_app_2; [done|]. apply Forall_cons_2; [|constructor]. apply key_word_is_word; auto; lia.
Qed.

(** One iteration computes the next word of the expansion. *)
Lemma expand_step words W w :
  (words = 4 ∨ words = 8)%nat → Forall is_word w → (words ≤ length w < 60)%nat → schedule W w →
  (∀ n, expand_loop (S n) words (length w) ((length w - 1) / words) W =
    expand_loop n words (S (length w)) (length w / words)
      (<[length w := be_combine (key_word words (length w) w)]> W))%nat.
Proof.
  intros Hw Hf Hl HW n. cbn [expand_loop].
  destruct (lookup_lt_is_Some_2 w (length w - 1) ltac:(lia)) as [x Hx].
  destruct (lookup_lt_is_Some_2 w (length w - words) ltac:(lia)) as [y Hy].
  pose proof (Forall_lookup_1 _ _ _ _ Hf Hx) as Hxw. pose proof (Forall_lookup_1 _ _ _ _ Hf Hy) as Hyw.
  rewrite (HW _ _ Hx), (HW _ _ Hy). unfold key_word. rewrite Hx, Hy. cbn [default].
  assert ((length w - 1) / words < 30)%nat as Hip by (apply Nat.Div0.div_lt_upper_bound; lia).
  assert (((words =? 8) = (6 <? words))%nat) as -> by (destruct Hw as [-> | ->]; done).
  rewrite (pred_div (length w)) by lia. destruct (Nat.eqb_spec (length w mod words) 0) as [Hm|Hm].
  - rewrite rot_sub_correct, rcon_dword by done. rewrite Hm. cbn [Nat.eqb]. rewrite andb_false_r.
    by rewrite !xor_words by auto with words lia.
  - destruct ((6 <? words) && (length w mod words =? 4))%nat; [rewrite sub_correct by done|];
      by rewrite xor_words by auto with words.
Qed.

Lemma expand_loop_schedule n words W w :
  (words = 4 ∨ words = 8)%nat → Forall is_word w → (words ≤ length w)%nat → (length w + n ≤ 60)%nat →
  (length w + n ≤ length W)%nat → schedule W w →
  schedule (expand_loop n words (length w) ((length w - 1) / words) W) (expand n words w).
Proof.
  intros Hw. revert W w. induction n as [|n IH]; intros W w Hf Hl Hn HlW HW; [done|].
  rewrite expand_step by (done || lia). cbn [expand].
  pose proof (schedule_snoc W w (key_word words (length w) w) HW ltac:(lia)) as H1.
  pose proof (key_word_is_word words w Hw Hf ltac:(lia)) as Hk.
  assert (length (w ++ [key_word words (length w) w]) = S (length w)) as Hs by (rewrite length_app; cbn; lia).
  pose proof (Forall_app_2 _ _ _ Hf (Forall_cons_2 _ _ _ Hk (Forall_nil_2 _))) as Hf'.
  epose proof (IH _ _ Hf' _ _ _ H1) as IH'. rewrite Hs, Nat.sub_succ, Nat.sub_0_r in IH'. exact IH'.
  Unshelve. all: rewrite ?length_insert, Hs; lia.
Qed.

Lemma expand_loop_length n words i ip W : length (expand_loop n words i ip W) = length W.
Proof.
  revert i ip W. induction n as [|n IH]; intros; [done|]. cbn [expand_loop].
  destruct (i mod words =? 0)%nat; by rewrite IH, length_insert.
Qed.

(** ** The key in a context *)

(** A context holds the expanded key of a cipher key. *)
Definition expanded (ctx : AES_CTX) (key : bytes) : Prop :=
  rounds ctx = Nr key ∧ (4 * (rounds ctx + 1) ≤ length (ks ctx))%nat ∧ schedule (ks ctx) (KeyExpansion key).

Definition is_key (key : bytes) : Prop := (length key = 16 ∨ length key = 32)%nat ∧ is_bytes key.

#[export] Instance is_key_dec key : Decision (is_key key).
Proof. unfold is_key. apply _. Defined.

Lemma key_words_words n key : length key = (4 * n)%nat → is_bytes key →
  Forall is_word (key_words n key) ∧ length (key_words n key) = n.
Proof.
  revert key. induction n as [|n IH]; intros key Hl Hb; [split; [constructor|done]|]. cbn [key_words].
  destruct (IH (drop 4 key)) as [? ?]; [rewrite length_drop; lia|by apply Forall_drop|].
  split; [|cbn; lia]. apply Forall_cons_2; [|done].
  split; [rewrite length_take; lia|by apply Forall_take].
Qed.

Lemma Nk_cases key : is_key key → (Nk key = 4 ∨ Nk key = 8)%nat ∧ length key = (4 * Nk key)%nat.
Proof. unfold Nk. intros [[-> | ->] _]; cbn; auto. Qed.

Lemma KeyExpansion_keyed key : is_key key → keyed (KeyExpansion key) (Nr key).
Proof.
  intros Hk. destruct (Nk_cases key Hk) as [HN Hl]. destruct Hk as [_ Hb].
  destruct (key_words_words _ _ Hl Hb) as [Hf Hlen]. unfold KeyExpansion, keyed, Nr in *.
  edestruct (expand_words (4 * (Nk key + 6 + 1) - Nk key) (Nk key) (key_words (Nk key) key)) as [? ->];
    [done|done|lia..|]. split; [done|lia].
Qed.

Lemma AES_set_key_expanded ctx key iv mode :
  is_key key → length (ks ctx) = ((AES_MAXROUNDS + 1) * 8)%nat →
  mode = (if length key =? 16 then AES_MODE_128 else AES_MODE_256)%nat →
  expanded (AES_set_key ctx key iv mode) key ∧ length (ks (AES_set_key ctx key iv mode)) = length (ks ctx).
Proof.
  intros Hk Hks ->. pose proof Hk as [_ Hb]. destruct (Nk_cases key Hk) as [HN Hl].
  destruct (key_words_words _ _ Hl Hb) as [Hf Hlen].
  set (n := (Nk key / 2)%nat). set (m := (4 * (Nr key + 1) - Nk key)%nat).
  set (W := expand_loop m (Nk key) (Nk key) 0 (load_key n 0 (ks ctx) key)).
  assert (AES_set_key ctx key iv (if length key =? 16 then AES_MODE_128 else AES_MODE_256)%nat =
    Aes_ctx (Nr key) (Nk key) W (take 16 iv)) as ->.
  { subst W m n. unfold Nr, Nk. destruct Hk as [[-> | ->] _]; reflexivity. }
  assert (schedule (load_key n 0 (ks ctx) key) (key_words (Nk key) key)) as HW.
  { assert (2 * n = Nk key)%nat as Hn by (subst n; destruct HN as [-> | ->]; done).
    rewrite <- Hn. apply (load_key_schedule n (ks ctx) key []); [done|lia|intros ? ? ?; done|].
    rewrite Hks, Hn. unfold AES_MAXROUNDS. cbn [length]. lia. }
  unfold expanded. cbn [rounds ks]. subst W.
  rewrite expand_loop_length, load_key_length, Hks. unfold KeyExpansion, Nr, AES_MAXROUNDS in *.
  split_and!; [done|lia| |done].
  pose proof (expand_loop_schedule m (Nk key) (load_key n 0 (ks ctx) key) (key_words (Nk key) key) HN Hf
    ltac:(lia) ltac:(lia) ltac:(rewrite load_key_length; lia) HW) as He.
  rewrite Hlen in He. rewrite (Nat.div_small (Nk key - 1)) in He by lia. exact He.
Qed.

(** ** Rounds *)

Lemma dwords_mjoin l : Forall is_word l → be_dwords (length l) (mjoin l) = be_combine <$> l.
Proof.
  induction 1 as [|x l [Hx _] _ IH]; [done|]. cbn [length dwords]. rewrite mjoin_cons, take_app_length', drop_app_length' by done.
  by rewrite IH.
Qed.

(** The dwords of a round key, where the schedule has them. *)
Definition at_round (W : list Z) (k : nat) (rk : bytes) : Prop :=
  ∀ row, (row < 4)%nat → word W (k + row) = word (be_dwords 4 rk) row.

Lemma schedule_round W w round : schedule W w → keyed w round → at_round W (4 * round) (round_key w round).
Proof.
  intros HW [Hf Hl] row Hr. unfold round_key.
  assert (length (take 4 (drop (4 * round) w)) = 4%nat) as Hlen by (rewrite length_take, length_drop; lia).
  pose proof (dwords_mjoin (take 4 (drop (4 * round) w)) ltac:(by apply Forall_take, Forall_drop)) as Hd.
  rewrite Hlen in Hd. rewrite Hd. unfold word at 2. rewrite list_lookup_fmap, lookup_take_lt, lookup_drop by done.
  destruct (lookup_lt_is_Some_2 w (4 * round + row) ltac:(lia)) as [x Hx]. rewrite Hx. cbn. by apply HW.
Qed.

Lemma key_addition_correct s W k rk :
  is_block s → is_block rk → at_round W k rk →
  key_addition (be_dwords 4 s) W k = be_dwords 4 (xor_bytes s rk).
Proof.
  intros Hs Hr HW. unfold key_addition. cbn [seq fmap list_fmap]. rewrite (HW 0%nat), (HW 1%nat), (HW 2%nat), (HW 3%nat) by lia.
  pose proof (xor_block _ _ Hs Hr) as Hx. pose proof Hs as Hs'. pose proof Hr as Hr'.
  cells_of s Hs'. cells_of rk Hr'. cbn [zip_with] in *. rewrite !block_dwords by done.
  cbn [word lookup list_lookup default]. unfold word. cbn. by rewrite !pack_lxor.
Qed.

(** The four bytes a row of the cipher or of its inverse takes from the columns. *)
Section row.
Context (data : list Z) (c0 c1 c2 c3 : nat) (a0 a1 a2 a3 p1 p2 p3 q0 q2 q3 r0 r1 r3 t0 t1 t2 : Z).
Context (Hp : is_bytes [a0; p1; p2; p3]) (Hq : is_bytes [q0; a1; q2; q3]) (Hr : is_bytes [r0; r1; a2; r3])
  (Ht : is_bytes [t0; t1; t2; a3]).
Context (Wp : word data c0 = pack a0 p1 p2 p3) (Wq : word data c1 = pack q0 a1 q2 q3)
  (Wr : word data c2 = pack r0 r1 a2 r3) (Wt : word data c3 = pack t0 t1 t2 a3).

Lemma row_bytes :
  (Z.land (Z.shiftr (word data c0) 24) 0xFF = a0 ∧ Z.land (Z.shiftr (word data c1) 16) 0xFF = a1 ∧
   Z.land (Z.shiftr (word data c2) 8) 0xFF = a2 ∧ Z.land (word data c3) 0xFF = a3) ∧
  is_byte a0 ∧ is_byte a1 ∧ is_byte a2 ∧ is_byte a3.
Proof.
  rewrite Wp, Wq, Wr, Wt. rewrite !Forall_cons in *. destruct_and!.
  by rewrite unpack_0, unpack_1, unpack_2, unpack_3.
Qed.
End row.

Lemma encrypt_row_correct (m : bool) data row a0 a1 a2 a3 p1 p2 p3 q0 q2 q3 r0 r1 r3 t0 t1 t2 :
  word data (row mod 4) = pack a0 p1 p2 p3 → word data ((row + 1) mod 4) = pack q0 a1 q2 q3 →
  word data ((row + 2) mod 4) = pack r0 r1 a2 r3 → word data ((row + 3) mod 4) = pack t0 t1 t2 a3 →
  is_bytes [a0; p1; p2; p3] → is_bytes [q0; a1; q2; q3] → is_bytes [r0; r1; a2; r3] → is_bytes [t0; t1; t2; a3] →
  let b0 := entry aes_sbox a0 in let b1 := entry aes_sbox a1 in
  let b2 := entry aes_sbox a2 in let b3 := entry aes_sbox a3 in
  encrypt_row m data row =
    if m then pack (mix b0 b1 b2 b3) (mix b1 b2 b3 b0) (mix b2 b3 b0 b1) (mix b3 b0 b1 b2)
    else pack b0 b1 b2 b3.
Proof.
  intros Wp Wq Wr Wt Hp Hq Hr Ht b0 b1 b2 b3.
  destruct (row_bytes _ _ _ _ _ _ _ _ _ _ _ _ _ _ _ _ _ _ _ _ _ Hp Hq Hr Ht Wp Wq Wr Wt)
    as ((H0 & H1 & H2 & H3) & ? & ? & ? & ?).
  unfold encrypt_row. rewrite H0, H1, H2, H3. fold b0 b1 b2 b3.
  assert (is_byte b0 ∧ is_byte b1 ∧ is_byte b2 ∧ is_byte b3) as (? & ? & ? & ?)
    by (subst b0 b1 b2 b3; auto with bytes). clearbody b0 b1 b2 b3.
  destruct m; rewrite !shift_in_place by (auto 20 with bytes || lia); fold (pack b0 b1 b2 b3); [|done].
  unfold pack, mix. linear.
  repeat first [apply (f_equal2 Z.lor)|apply (f_equal (λ x, Z.shiftl x _))]; xor_solve.
Qed.

(** The rounds of the cipher, on the dwords of the columns. *)
Ltac solve_bytes := repeat apply Forall_cons_2; [assumption..|constructor].

Lemma encrypt_rows m s :
  is_block s →
  encrypt_row m (be_dwords 4 s) <$> seq 0 4 =
    be_dwords 4 ((if m then MixColumns else id) (ShiftRows (SubBytes s))).
Proof.
  intros Hs. pose proof Hs as Hs'. pose proof Hs as [_ Hb].
  assert (is_block (ShiftRows (SubBytes s))) as Hx by auto with blocks.
  assert (is_block ((if m then MixColumns else id) (ShiftRows (SubBytes s)))) as Hy
    by (destruct m; [|unfold id]; auto with blocks).
  rewrite SubBytes_table in * by done. cells_of s Hs'. cbn [fmap list_fmap] in *.
  rewrite block_ShiftRows in *. rewrite block_dwords by done. cbn [seq fmap list_fmap].
  destruct m; [rewrite block_MixColumns in * by done|unfold id in *]; rewrite block_dwords by done;
    do 4 (apply (f_equal2 cons); [etransitivity; [eapply encrypt_row_correct;
      [reflexivity|reflexivity|reflexivity|reflexivity|solve_bytes..]|reflexivity]|]); reflexivity.
Qed.

Lemma encrypt_loop_S n curr R W k data :
  encrypt_loop (S n) curr R W k data =
    encrypt_loop n (S curr) R W (k + 4) (key_addition (encrypt_row (curr <? R - 1)%nat data <$> seq 0 4) W k).
Proof. reflexivity. Qed.

Lemma encrypt_loop_correct R W w n curr s :
  schedule W w → keyed w R → (S n + curr = R)%nat → is_block s →
  encrypt_loop (S n) curr R W (4 * S curr) (be_dwords 4 s) =
    be_dwords 4 (AddRoundKey (ShiftRows (SubBytes (foldl (cipher_round w) s (seq (S curr) n)))) w R).
Proof.
  intros HW Hk. revert curr s. induction n as [|n IH]; intros curr s Hn Hs; rewrite encrypt_loop_S.
  all: assert (keyed w (S curr)) as Hc by (apply (keyed_le _ _ _ Hk); lia).
  all: rewrite encrypt_rows by done.
  - rewrite (proj2 (Nat.ltb_ge _ _)) by lia. unfold id. replace R with (S curr) by lia.
    apply key_addition_correct; auto using schedule_round with blocks.
  - rewrite (proj2 (Nat.ltb_lt _ _)) by lia.
    rewrite (key_addition_correct _ _ _ (round_key w (S curr))) by auto using schedule_round with blocks.
    replace (4 * S curr + 4)%nat with (4 * S (S curr))%nat by lia.
    apply (IH (S curr)); [lia|]. by apply cipher_round_block.
Qed.

Lemma AES_encrypt_correct ctx key s :
  is_key key → expanded ctx key → is_block s → AES_encrypt ctx (be_dwords 4 s) = be_dwords 4 (Cipher key s).
Proof.
  intros Hkey (HR & _ & HW) Hs. pose proof (KeyExpansion_keyed _ Hkey) as Hk. unfold AES_encrypt, Cipher.
  assert (keyed (KeyExpansion key) 0) as H0 by (apply (keyed_le _ _ _ Hk); lia). rewrite HR.
  rewrite (key_addition_correct _ _ 0 (round_key (KeyExpansion key) 0))
    by (auto with blocks || exact (schedule_round _ _ 0 HW H0)).
  assert (Nr key = S (Nr key - 1)) as Hn by (unfold Nr; lia). rewrite Hn at 1.
  apply (encrypt_loop_correct (Nr key) _ _ (Nr key - 1) 0); [done..|lia|auto with blocks].
Qed.

(** ** Decryption *)

Lemma convert_loop_length n k W : length (convert_loop n k W) = length W.
Proof. revert k W. induction n as [|n IH]; intros; [done|]. cbn. by rewrite IH, length_insert. Qed.

Lemma convert_loop_word n k W i :
  (k + n ≤ length W)%nat →
  word (convert_loop n k W) i = if decide (k ≤ i < k + n)%nat then inv_mix_col (word W i) else word W i.
Proof.
  revert k W. induction n as [|n IH]; intros k W Hl; [by rewrite decide_False by lia|]. cbn [convert_loop].
  rewrite IH by (rewrite length_insert; lia). destruct (decide (i = k)) as [->|Hi].
  - rewrite decide_False, decide_True by lia. apply word_insert_eq. lia.
  - rewrite word_insert_ne by done. by repeat case_decide; try lia.
Qed.

Lemma inv_mix_col_dwords rk row :
  is_block rk → (row < 4)%nat →
  inv_mix_col (word (be_dwords 4 rk) row) = word (be_dwords 4 (InvMixColumns rk)) row.
Proof.
  intros Hr Hrow. pose proof (InvMixColumns_block _ Hr) as Hi. pose proof Hr as Hr'. cells_of rk Hr'.
  rewrite block_InvMixColumns in *. rewrite !block_dwords by done. unfold word.
  do 4 (destruct row as [|row]; [apply inv_mix_col_pack; done|]). lia.
Qed.

Lemma decrypt_row_correct (m : bool) data row a0 a1 a2 a3 p1 p2 p3 q0 q2 q3 r0 r1 r3 t0 t1 t2 :
  word data ((row + 3) mod 4) = pack a0 p1 p2 p3 → word data ((row + 2) mod 4) = pack q0 a1 q2 q3 →
  word data ((row + 1) mod 4) = pack r0 r1 a2 r3 → word data (row mod 4) = pack t0 t1 t2 a3 →
  is_bytes [a0; p1; p2; p3] → is_bytes [q0; a1; q2; q3] → is_bytes [r0; r1; a2; r3] → is_bytes [t0; t1; t2; a3] →
  let b0 := entry aes_isbox a0 in let b1 := entry aes_isbox a1 in
  let b2 := entry aes_isbox a2 in let b3 := entry aes_isbox a3 in
  decrypt_row m data row =
    if m then pack (inv_mix b0 b1 b2 b3) (inv_mix b1 b2 b3 b0) (inv_mix b2 b3 b0 b1) (inv_mix b3 b0 b1 b2)
    else pack b0 b1 b2 b3.
Proof.
  intros Wp Wq Wr Wt Hp Hq Hr Ht b0 b1 b2 b3.
  destruct (row_bytes _ _ _ _ _ _ _ _ _ _ _ _ _ _ _ _ _ _ _ _ _ Hp Hq Hr Ht Wp Wq Wr Wt)
    as ((H0 & H1 & H2 & H3) & ? & ? & ? & ?).
  unfold decrypt_row. rewrite H0, H1, H2, H3. fold b0 b1 b2 b3.
  assert (is_byte b0 ∧ is_byte b1 ∧ is_byte b2 ∧ is_byte b3) as (? & ? & ? & ?)
    by (subst b0 b1 b2 b3; auto with bytes). clearbody b0 b1 b2 b3.
  destruct m; rewrite !shift_in_place by (auto 20 with bytes || lia); fold (pack b0 b1 b2 b3); [|done].
  unfold pack, inv_mix. gf. linear.
  repeat first [apply (f_equal2 Z.lor)|apply (f_equal (λ x, Z.shiftl x _))]; xor_solve.
Qed.

Lemma decrypt_rows m s :
  is_block s →
  decrypt_row m (be_dwords 4 s) <$> seq 1 4 =
    be_dwords 4 ((if m then InvMixColumns else id) (InvSubBytes (InvShiftRows s))).
Proof.
  intros Hs. pose proof Hs as Hs'. pose proof Hs as [_ Hb].
  assert (is_block (InvShiftRows (InvSubBytes s))) as Hx by auto with blocks.
  assert (is_block ((if m then InvMixColumns else id) (InvShiftRows (InvSubBytes s)))) as Hy
    by (destruct m; [|unfold id]; auto with blocks).
  rewrite InvSubBytes_InvShiftRows by done.
  rewrite InvSubBytes_table in * by done. cells_of s Hs'. cbn [fmap list_fmap] in *.
  rewrite block_InvShiftRows in *. rewrite block_dwords by done. cbn [seq fmap list_fmap].
  destruct m; [rewrite block_InvMixColumns in * by done|unfold id in *]; rewrite block_dwords by done;
    do 4 (apply (f_equal2 cons); [etransitivity; [eapply decrypt_row_correct;
      [reflexivity|reflexivity|reflexivity|reflexivity|solve_bytes..]|reflexivity]|]); reflexivity.
Qed.

Lemma decrypt_loop_S n curr R W k data :
  decrypt_loop (S n) curr R W k data =
    decrypt_loop n (S curr) R W (k - 4) (key_addition (decrypt_row (curr <? R - 1)%nat data <$> seq 1 4) W (k - 4)).
Proof. reflexivity. Qed.

(** The schedule of the equivalent inverse cipher: the inner round keys mixed. *)
Definition inv_schedule (W : list Z) (w : list bytes) (R : nat) : Prop :=
  at_round W 0 (round_key w 0) ∧ at_round W (4 * R) (round_key w R) ∧
  ∀ r, (0 < r < R)%nat → at_round W (4 * r) (InvMixColumns (round_key w r)).

Lemma decrypt_loop_correct R W w n curr s :
  inv_schedule W w R → keyed w R → (S n + curr = R)%nat → is_block s →
  decrypt_loop (S n) curr R W (4 * S n) (be_dwords 4 s) =
    be_dwords 4 (AddRoundKey (InvSubBytes (InvShiftRows (foldl (inv_cipher_round w) s (rev (seq 1 n))))) w 0).
Proof.
  intros (HW0 & _ & HW) Hk. revert curr s. induction n as [|n IH]; intros curr s Hn Hs; rewrite decrypt_loop_S.
  all: rewrite decrypt_rows by done.
  - rewrite (proj2 (Nat.ltb_ge _ _)) by lia. unfold id.
    assert (keyed w 0) by (apply (keyed_le _ _ _ Hk); lia).
    apply key_addition_correct; auto with blocks.
  - rewrite (proj2 (Nat.ltb_lt _ _)) by lia. replace (4 * S (S n) - 4)%nat with (4 * S n)%nat by lia.
    assert (keyed w (S n)) by (apply (keyed_le _ _ _ Hk); lia).
    rewrite (key_addition_correct _ _ _ (InvMixColumns (round_key w (S n)))) by (auto with blocks || apply HW; lia).
    rewrite <- InvMixColumns_xor by auto with blocks. fold (AddRoundKey (InvSubBytes (InvShiftRows s)) w (S n)).
    fold (inv_cipher_round w s (S n)). etransitivity; [apply IH; [lia|by apply inv_cipher_round_block]|].
    rewrite seq_S, rev_app_distr. cbn [rev app foldl Nat.add]. reflexivity.
Qed.

Lemma convert_key_schedule ctx key :
  is_key key → expanded ctx key → inv_schedule (ks (AES_convert_key ctx)) (KeyExpansion key) (rounds ctx).
Proof.
  intros Hkey (HR & Hl & HW). pose proof (KeyExpansion_keyed _ Hkey) as Hk.
  unfold AES_convert_key. cbn [ks]. rewrite <- HR in Hk.
  assert (rounds ctx > 1)%nat by (rewrite HR; unfold Nr; lia).
  split_and!.
  - intros row Hr. rewrite convert_loop_word, decide_False by lia.
    apply (schedule_round _ _ 0); [done|by apply (keyed_le _ _ _ Hk); lia|done].
  - intros row Hr. rewrite convert_loop_word, decide_False by lia. by apply schedule_round.
  - intros r Hr row Hrow. rewrite convert_loop_word, decide_True by lia.
    assert (keyed (KeyExpansion key) r) by (apply (keyed_le _ _ _ Hk); lia).
    rewrite (schedule_round _ _ r HW) by done. apply inv_mix_col_dwords; auto with blocks.
Qed.

Lemma AES_decrypt_correct ctx key s :
  is_key key → rounds ctx = Nr key → inv_schedule (ks ctx) (KeyExpansion key) (rounds ctx) → is_block s →
  AES_decrypt ctx (be_dwords 4 s) = be_dwords 4 (InvCipher key s).
Proof.
  intros Hkey HR HW Hs. pose proof (KeyExpansion_keyed _ Hkey) as Hk. unfold AES_decrypt, InvCipher.
  rewrite HR in *. replace ((Nr key + 1) * 4 - 4)%nat with (4 * Nr key)%nat by lia.
  rewrite (key_addition_correct _ _ _ (round_key (KeyExpansion key) (Nr key))) by (auto with blocks || apply HW).
  assert (Nr key = S (Nr key - 1)) as Hn by (unfold Nr; lia). rewrite Hn at 1 3.
  apply (decrypt_loop_correct (Nr key) _ _ (Nr key - 1) 0); [done..|lia|auto with blocks].
Qed.

(** ** The cipher algorithm *)

(** A context with a key, ready to encrypt ([dec] false) or to decrypt. *)
Definition aes_keyed (key : bytes) (dec : bool) (ctx : aes_context) : Prop :=
  is_key key ∧
  if dec then decrypting ctx = true ∧ rounds (axtls_ctx ctx) = Nr key ∧
    inv_schedule (ks (axtls_ctx ctx)) (KeyExpansion key) (rounds (axtls_ctx ctx))
  else decrypting ctx = false ∧ expanded (axtls_ctx ctx) key.

Lemma aes_setkey_keyed ctx key :
  length (ks (axtls_ctx ctx)) = ((AES_MAXROUNDS + 1) * 8)%nat → is_bytes key →
  match aes_setkey ctx key with
  | Ok ctx' => aes_keyed key false ctx' ∧ length (ks (axtls_ctx ctx')) = length (ks (axtls_ctx ctx))
  | Err e => e = EINVAL ∧ ¬ is_key key
  end.
Proof.
  intros Hl Hb. unfold aes_setkey. change (128 / 8)%nat with 16%nat. change (256 / 8)%nat with 32%nat.
  destruct (Nat.eqb_spec (length key) 16) as [H16|H16]; [|destruct (Nat.eqb_spec (length key) 32) as [H32|H32]].
  - assert (is_key key) as Hk by (split; [by left|done]).
    destruct (AES_set_key_expanded (axtls_ctx ctx) key (iv (axtls_ctx ctx)) AES_MODE_128 Hk Hl) as [He Hlen];
      [rewrite H16; reflexivity|].
    split; [split; [exact Hk|split; [reflexivity|exact He]]|exact Hlen].
  - assert (is_key key) as Hk by (split; [by right|done]).
    destruct (AES_set_key_expanded (axtls_ctx ctx) key (iv (axtls_ctx ctx)) AES_MODE_256 Hk Hl) as [He Hlen];
      [rewrite H32; reflexivity|].
    split; [split; [exact Hk|split; [reflexivity|exact He]]|exact Hlen].
  - split; [done|]. intros [[]]; lia.
Qed.

Lemma Cipher_block key s : is_key key → is_block s → is_block (Cipher key s).
Proof.
  intros Hkey Hs. pose proof (KeyExpansion_keyed _ Hkey) as Hk. unfold Cipher.
  apply AddRoundKey_block; [|done]. apply ShiftRows_block, SubBytes_block, cipher_rounds_block.
  - apply AddRoundKey_block; [done|]. apply (keyed_le _ _ _ Hk). lia.
  - apply (keyed_le _ _ _ Hk). lia.
Qed.

Lemma InvCipher_block key s : is_key key → is_block s → is_block (InvCipher key s).
Proof.
  intros Hkey Hs. pose proof (KeyExpansion_keyed _ Hkey) as Hk. unfold InvCipher.
  apply AddRoundKey_block; [|apply (keyed_le _ _ _ Hk); lia].
  apply InvSubBytes_block, InvShiftRows_block, foldl_rounds_block; [by apply AddRoundKey_block|].
  intros t r Ht Hr. rewrite list_elem_of_In, <- in_rev, <- list_elem_of_In, elem_of_seq in Hr.
  apply inv_cipher_round_block; [done|]. apply (keyed_le _ _ _ Hk). lia.
Qed.

Lemma be_bytes_block s : is_block s → be_bytes (be_dwords 4 s) = s.
Proof. intros [Hl Hb]. by apply be_bytes_dwords. Qed.

Lemma aes_encrypt_keyed key ctx s :
  aes_keyed key false ctx → is_block s → aes_encrypt ctx s = (ctx, Cipher key s).
Proof.
  intros (Hk & _ & He) Hs. unfold aes_encrypt, aes_call_axtls.
  rewrite (AES_encrypt_correct _ key) by done. by rewrite be_bytes_block by (apply Cipher_block; assumption).
Qed.

(** The first decryption converts the key; from then on the context is left alone. *)
Lemma aes_decrypt_keyed key dec ctx s :
  aes_keyed key dec ctx → is_block s →
  ∃ ctx', aes_decrypt ctx s = (ctx', InvCipher key s) ∧ aes_keyed key true ctx'.
Proof.
  intros [Hk Hc] Hs. unfold aes_decrypt, aes_call_axtls. eexists. split.
  - f_equal. destruct dec.
    + destruct Hc as (-> & HR & HW). rewrite (AES_decrypt_correct _ key) by done.
      by apply be_bytes_block, InvCipher_block.
    + destruct Hc as (-> & He). cbn [axtls_ctx]. rewrite (AES_decrypt_correct _ key);
        [by apply be_bytes_block, InvCipher_block|done|apply He|exact (convert_key_schedule _ _ Hk He)|done].
  - split; [done|]. destruct dec.
    + destruct Hc as (Hd & HR & HW). rewrite Hd. exact (conj Hd (conj HR HW)).
    + destruct Hc as (-> & He). cbn [axtls_ctx decrypting]. split; [done|]. split; [apply He|exact (convert_key_schedule _ _ Hk He)].
Qed.

(** The context as an array of the C type. *)
Definition aes_ctx_ok (ctx : aes_context) : Prop :=
  length (ks (axtls_ctx ctx)) = ((AES_MAXROUNDS + 1) * 8)%nat.

(** AES keeps the promises of a block cipher. *)
#[export] Instance aes_block_cipher : BlockCipher aes_algorithm.
Proof.
  refine {| ctx_ok := aes_ctx_ok : ctx (cipher_algorithm := aes_algorithm) → Prop; valid_key := is_key; keyed_ctx := aes_keyed;
    E := Cipher; D := InvCipher |}.
  - split; [apply Nat.lt_0_succ|reflexivity].
  - intros c key Hc Hb. pose proof (aes_setkey_keyed c key Hc Hb) as H.
    change (cipher_setkey c key) with (aes_setkey c key). destruct (aes_setkey c key) as [c'|e]; [|exact H].
    destruct H as [Hk _]. split; [apply Hk|exact Hk].
  - exact aes_encrypt_keyed.
  - exact aes_decrypt_keyed.
  - exact Cipher_block.
  - exact InvCipher_block.
  - intros key b Hk Hb. apply inverse_cipher; [by apply KeyExpansion_keyed|exact Hb].
Defined.

(** ** axTLS cipher-block chaining *)

Lemma dwords_xor s t :
  is_block s → is_block t → zip_with Z.lxor (be_dwords 4 s) (be_dwords 4 t) = be_dwords 4 (xor_bytes s t).
Proof.
  intros Hs Ht. pose proof (xor_block _ _ Hs Ht) as Hx. pose proof Hs as Hs'. pose proof Ht as Ht'.
  cells_of s Hs'. cells_of t Ht'. cbn [zip_with] in *. rewrite !block_dwords by done. cbn [zip_with].
  by rewrite !pack_lxor.
Qed.

Lemma dwords_prefix s rest : is_block s → be_dwords 4 (s ++ rest) = be_dwords 4 s.
Proof. intros H. cells_of s H. reflexivity. Qed.

Lemma drop_block s rest : is_block s → drop AES_BLOCKSIZE (s ++ rest) = rest.
Proof. intros [Hl _]. by rewrite drop_app_length' by done. Qed.

Lemma AES_cbc_encrypt_loop_correct ctx key iv ps :
  is_key key → expanded ctx key → is_block iv → Forall is_block ps →
  AES_cbc_encrypt_loop (length ps) ctx (be_dwords 4 iv) (mjoin ps) =
    (be_dwords 4 (chain iv (cbc_enc (Cipher key) iv ps)), mjoin (cbc_enc (Cipher key) iv ps)).
Proof.
  intros Hk He Hiv Hps. revert iv Hiv. induction Hps as [|p ps Hp _ IH]; intros iv Hiv; [done|].
  assert (is_block (xor_bytes p iv)) as Hx by auto with blocks.
  cbn [length AES_cbc_encrypt_loop cbc_enc]. rewrite !mjoin_cons, dwords_prefix, dwords_xor, drop_block by done.
  rewrite (AES_encrypt_correct ctx key) by done. pose proof (Cipher_block key _ Hk Hx) as Hc.
  rewrite IH, be_bytes_block by done. f_equal. by rewrite (chain_cons iv).
Qed.

Lemma AES_cbc_decrypt_loop_correct ctx key iv cs :
  is_key key → rounds ctx = Nr key → inv_schedule (ks ctx) (KeyExpansion key) (rounds ctx) →
  is_block iv → Forall is_block cs →
  AES_cbc_decrypt_loop (length cs) ctx (be_dwords 4 iv) (mjoin cs) =
    (be_dwords 4 (chain iv cs), mjoin (cbc_dec (InvCipher key) iv cs)).
Proof.
  intros Hk HR HW Hiv Hcs. revert iv Hiv. induction Hcs as [|c cs Hc _ IH]; intros iv Hiv; [done|].
  pose proof (InvCipher_block key _ Hk Hc) as Hd.
  cbn [length AES_cbc_decrypt_loop cbc_dec]. rewrite !mjoin_cons, dwords_prefix, drop_block by done.
  rewrite (AES_decrypt_correct ctx key) by done. rewrite dwords_xor by done.
  rewrite IH, be_bytes_block by auto with blocks. f_equal. by rewrite (chain_cons iv).
Qed.

Lemma length_mjoin_is_block ps : Forall is_block ps → length (mjoin ps) = (16 * length ps)%nat.
Proof.
  induction 1 as [|p ps [Hp _] _ IH]; [done|]. rewrite mjoin_cons, length_app, Hp, IH. cbn [length]. lia.
Qed.

Lemma blocks_count ps : Forall is_block ps → Z.to_nat (Zlen (mjoin ps) / 16) = length ps.
Proof. intros H. rewrite length_mjoin_is_block by done. Z.div_mod_to_equations; lia. Qed.

(** ** Theorems *)

(** Calls of a block operation in a row. *)
Fixpoint process {C} (f : C → bytes → C * bytes) (c : C) (bs : list bytes) : C * list bytes :=
  match bs with
  | [] => (c, [])
  | b :: bs =>
      let '(c, out) := f c b in
      let '(c, outs) := process f c bs in
      (c, out :: outs)
  end.

Lemma process_encrypt key ctx bs :
  aes_keyed key false ctx → Forall is_block bs → process aes_encrypt ctx bs = (ctx, Cipher key <$> bs).
Proof.
  intros Hc. induction 1 as [|b bs Hb _ IH]; [done|]. cbn [process].
  by rewrite (aes_encrypt_keyed key), IH by done.
Qed.

Lemma process_decrypt key dec ctx bs :
  aes_keyed key dec ctx → Forall is_block bs → (process aes_decrypt ctx bs).2 = InvCipher key <$> bs.
Proof.
  intros Hc Hbs. revert dec ctx Hc. induction Hbs as [|b bs Hb _ IH]; intros dec ctx Hc; [done|]. cbn [process].
  destruct (aes_decrypt_keyed key dec ctx b Hc Hb) as (ctx' & -> & Hc').
  specialize (IH _ _ Hc'). destruct (process aes_decrypt ctx' bs) as [c outs]. cbn in *. by rewrite IH.
Qed.

(** C28: AES in iPXE is the AES of FIPS-197.  A key of 16 or 32 bytes is accepted,
    any other refused with EINVAL.  With the key set, every block encrypts to the
    Cipher of the standard and leaves the context as it was; every block decrypts to
    the InvCipher, the first decryption converting the key schedule; and decrypting
    what was encrypted gives back the blocks. *)
Theorem aes_correct ctx key blocks :
  aes_ctx_ok ctx → is_bytes key → Forall is_block blocks →
  match aes_setkey ctx key with
  | Err e => e = EINVAL ∧ length key ≠ 16%nat ∧ length key ≠ 32%nat
  | Ok ctx' =>
      (length key = 16%nat ∨ length key = 32%nat) ∧
      process aes_encrypt ctx' blocks = (ctx', Cipher key <$> blocks) ∧
      (process aes_decrypt ctx' blocks).2 = InvCipher key <$> blocks ∧
      (process aes_decrypt ctx' (process aes_encrypt ctx' blocks).2).2 = blocks
  end.
Proof.
  intros Hc Hb Hbs. pose proof (aes_setkey_keyed ctx key Hc Hb) as H.
  destruct (aes_setkey ctx key) as [ctx'|e].
  - destruct H as [Hk _]. pose proof Hk as [Hkey _]. split; [apply Hkey|].
    rewrite (process_encrypt key) by done. cbn [snd]. split; [done|]. split; [by apply (process_decrypt key false)|].
    rewrite (process_decrypt key false); [|done|apply Forall_fmap; eapply Forall_impl; [done|];
      intros b ?; by apply Cipher_block]. rewrite <- list_fmap_compose. rewrite <- (list_fmap_id blocks) at 2.
    apply list_fmap_ext. intros i b Hi. cbn. apply inverse_cipher; [by apply KeyExpansion_keyed|].
    by eapply Forall_lookup_1.
  - destruct H as [-> Hk]. split; [done|]. split; intros Hl; apply Hk; split; auto.
Qed.

Lemma aes_correct_witness :
  ∃ ctx, (process aes_encrypt ctx [(λ x, x * 17) <$> seqZ 0 16]).2 =
    [[0x69; 0xc4; 0xe0; 0xd8; 0x6a; 0x7b; 0x04; 0x30; 0xd8; 0xcd; 0xb7; 0x80; 0x70; 0xb4; 0xc5; 0x5a]] ∧
    (process aes_decrypt ctx (process aes_encrypt ctx [(λ x, x * 17) <$> seqZ 0 16]).2).2 = [(λ x, x * 17) <$> seqZ 0 16].
Proof.
  pose (ctx := Aes_context (Aes_ctx 0 0 (replicate 120 0) (replicate 16 0)) false).
  pose proof (aes_correct ctx (seqZ 0 16) [(λ x, x * 17) <$> seqZ 0 16] eq_refl ltac:(by_decide) ltac:(by_decide)) as H.
  destruct (aes_setkey ctx (seqZ 0 16)) as [ctx'|e] eqn:Hs; [|by vm_compute in Hs].
  exists ctx'. split; [|apply H]. vm_compute in Hs. injection Hs as <-. by vm_compute.
Defined.
