(* ===== verification/AesCbc.v ===== *)
(** * AES in cipher-block chaining mode

    The aes_cbc algorithm: the generic chaining of Cipher.v over the block cipher
    of Aes.v, by the interface between them, and the chaining routines that axTLS
    brings along. *)

From S2P Require Import Prelude Cipher Aes Fips197 AesCorrect.

#[local] Existing Instance aes_algorithm.

(** The mode for a key. *)
Definition mode_of (key : bytes) : AES_MODE := if (length key =? 16)%nat then AES_MODE_128 else AES_MODE_256.

Lemma aes_cbc_setkey_ok c key :
  aes_ctx_ok (raw_ctx c) → is_key key →
  ∃ raw, aes_cbc_setkey c key = Ok (Cbc_context _ raw (cbc_ctx c)) ∧ aes_keyed key false raw.
Proof.
  intros Hc Hk. pose proof (aes_setkey_keyed (raw_ctx c) key Hc ltac:(apply Hk)) as H.
  unfold aes_cbc_setkey, cbc_name_setkey, cbc_setkey.
  change (cipher_setkey (raw_ctx c) key) with (aes_setkey (raw_ctx c) key).
  destruct (aes_setkey (raw_ctx c) key) as [raw|e]; [|by destruct H].
  exists raw. split; [reflexivity|apply H].
Qed.

Lemma take_block (iv : bytes) : is_block iv → take AES_BLOCKSIZE iv = iv.
Proof. intros [Hl _]. apply take_ge. by rewrite Hl. Qed.

Lemma axtls_cbc_encrypt ctx key iv ps :
  length (ks ctx) = ((AES_MAXROUNDS + 1) * 8)%nat → is_key key → is_block iv → Forall is_block ps →
  (AES_cbc_encrypt (AES_set_key ctx key iv (mode_of key)) (mjoin ps) (Zlen (mjoin ps))).2 =
    mjoin (cbc_enc (Cipher key) iv ps).
Proof.
  intros Hc Hk Hiv Hps. destruct (AES_set_key_expanded ctx key iv _ Hk Hc eq_refl) as [He _].
  unfold AES_cbc_encrypt. rewrite blocks_count by done.
  assert (Aes.iv (AES_set_key ctx key iv (mode_of key)) = iv) as ->.
  { unfold AES_set_key. destruct (mode_of key); by apply take_block. }
  by rewrite (AES_cbc_encrypt_loop_correct _ key) by done.
Qed.

Lemma axtls_cbc_decrypt ctx key iv cs :
  length (ks ctx) = ((AES_MAXROUNDS + 1) * 8)%nat → is_key key → is_block iv → Forall is_block cs →
  (AES_cbc_decrypt (AES_convert_key (AES_set_key ctx key iv (mode_of key))) (mjoin cs) (Zlen (mjoin cs))).2 =
    mjoin (cbc_dec (InvCipher key) iv cs).
Proof.
  intros Hc Hk Hiv Hcs. destruct (AES_set_key_expanded ctx key iv _ Hk Hc eq_refl) as [He _].
  pose proof (convert_key_schedule _ _ Hk He) as HW.
  unfold AES_cbc_decrypt. rewrite blocks_count by done. cbn [Aes.iv AES_convert_key].
  assert (Aes.iv (AES_set_key ctx key iv (mode_of key)) = iv) as ->.
  { unfold AES_set_key. destruct (mode_of key); by apply take_block. }
  rewrite (AES_cbc_decrypt_loop_correct _ key); [done|done|apply He|exact HW|done|done].
Qed.

(** C29: AES-CBC.  A message encrypted in any number of calls, each in place or
    between buffers that do not meet, becomes its chained ciphertext under the
    FIPS-197 cipher as SP 800-38A defines it; the bytes outside the destinations
    keep their values.  Decrypting that ciphertext with the same key and vector, in
    any other split into calls, gives back the message.  The axTLS chaining routines
    compute the same ciphertext and plaintext. *)
Theorem aes_cbc_correct (c c' : aes_cbc_context) key iv (ks : list call) :
  aes_ctx_ok (raw_ctx c) → aes_ctx_ok (raw_ctx c') → is_key key → is_block iv → Forall call_ok ks →
  let message := mjoin (call_input <$> ks) in
  let ciphertext := cbc_enc (Cipher key) iv message in
  ∃ k k', aes_cbc_setkey c key = Ok k ∧ aes_cbc_setkey c' key = Ok k' ∧
    let sent := (calls aes_cbc_encrypt (aes_cbc_setiv k iv) ks).2 in
    mjoin (zip_with call_output ks sent) = ciphertext ∧ Forall2 call_frame ks sent ∧
    (∀ ks', Forall call_ok ks' → mjoin (call_input <$> ks') = ciphertext →
      let received := (calls aes_cbc_decrypt (aes_cbc_setiv k' iv) ks').2 in
      mjoin (zip_with call_output ks' received) = message ∧ Forall2 call_frame ks' received) ∧
    let axtls := AES_set_key (axtls_ctx (raw_ctx c)) key iv (mode_of key) in
    (AES_cbc_encrypt axtls (mjoin message) (Zlen (mjoin message))).2 = mjoin ciphertext ∧
    (AES_cbc_decrypt (AES_convert_key axtls) (mjoin ciphertext) (Zlen (mjoin ciphertext))).2 = mjoin message.
Proof.
  intros Hc Hc' Hk Hiv Hks message ciphertext.
  assert (Forall is_block message) as Hm.
  { subst message. clear -Hks. induction Hks as [|k ks Hk _ IH]; [constructor|].
    cbn [fmap list_fmap]. rewrite mjoin_cons. apply Forall_app_2; [exact (@call_input_blocks aes_algorithm k Hk)|done]. }
  pose proof (cbc_enc_blocks key iv message Hk Hiv Hm) as Hct.
  pose proof (cbc_dec_enc key iv message Hk Hiv Hm) as Hround.
  destruct (aes_cbc_setkey_ok c key Hc Hk) as (raw & Hs & Hraw).
  destruct (aes_cbc_setkey_ok c' key Hc' Hk) as (raw' & Hs' & Hraw').
  do 2 eexists. split; [exact Hs|]. split; [exact Hs'|].
  unfold aes_cbc_setiv, cbc_name_setiv, cbc_setiv. cbn [raw_ctx cbc_ctx].
  change (take blocksize iv) with (take AES_BLOCKSIZE iv). rewrite take_block by done.
  destruct (@calls_encrypt aes_algorithm aes_block_cipher key Hk ks raw iv Hraw Hiv Hks) as (ms & He & Hout & Hf).
  unfold aes_cbc_encrypt, aes_cbc_context. rewrite He. split; [exact Hout|]. split; [exact Hf|]. split.
  - intros ks' Hks' Hin.
    destruct (@calls_decrypt aes_algorithm aes_block_cipher key Hk ks' false raw' iv Hraw' Hiv Hks') as (c'' & ms' & Hd & Hout' & Hf').
    unfold aes_cbc_decrypt, aes_cbc_context. rewrite Hd. split; [|exact Hf'].
    cbn [snd]. rewrite Hout', Hin. exact Hround.
  - split; [by apply axtls_cbc_encrypt|]. rewrite axtls_cbc_decrypt by done. f_equal. exact Hround.
Qed.

(** Example F.2.1 of SP 800-38A, encrypted in place. *)
Definition example_key : bytes := [0x2b; 0x7e; 0x15; 0x16; 0x28; 0xae; 0xd2; 0xa6; 0xab; 0xf7; 0x15; 0x88; 0x09; 0xcf; 0x4f; 0x3c].
Definition example_block : bytes := [0x6b; 0xc1; 0xbe; 0xe2; 0x2e; 0x40; 0x9f; 0x96; 0xe9; 0x3d; 0x7e; 0x11; 0x73; 0x93; 0x17; 0x2a].
Definition example_context : aes_cbc_context :=
  Cbc_context _ (Aes_context (Aes_ctx 0 0 (replicate 120 0) (replicate 16 0)) false) (replicate 16 0).

Definition example_call : call := Call (mem_write ∅ 64 example_block) 64 64 16.

Lemma example_ciphertext :
  match aes_cbc_setkey example_context example_key with
  | Ok k =>
      mjoin (zip_with call_output [example_call] (calls aes_cbc_encrypt (aes_cbc_setiv k (seqZ 0 16)) [example_call]).2)
  | Err _ => []
  end = [[0x76; 0x49; 0xab; 0xac; 0x81; 0x19; 0xb2; 0x46; 0xce; 0xe9; 0x8e; 0x9b; 0x12; 0xe9; 0x19; 0x7d]].
Proof. by vm_compute. Qed.

Lemma aes_cbc_correct_witness :
  let ks := [example_call] in
  ∃ k, aes_cbc_setkey example_context example_key = Ok k ∧
    let out := mjoin (zip_with call_output ks (calls aes_cbc_encrypt (aes_cbc_setiv k (seqZ 0 16)) ks).2) in
    out = [[0x76; 0x49; 0xab; 0xac; 0x81; 0x19; 0xb2; 0x46; 0xce; 0xe9; 0x8e; 0x9b; 0x12; 0xe9; 0x19; 0x7d]] ∧
    out = cbc_enc (Cipher example_key) (seqZ 0 16) (mjoin (call_input <$> ks)).
Proof.
  intros ks.
  destruct (aes_cbc_correct example_context example_context example_key (seqZ 0 16) ks eq_refl eq_refl)
    as (k & k' & Hk & _ & H & _); [split; [by left|by_decide]|split; [done|by_decide]|..].
  { apply Forall_singleton. split; [reflexivity|]. split; [|by left]. by_decide. }
  exists k. split; [exact Hk|]. split; [|exact H].
  pose proof example_ciphertext as Hc. rewrite Hk in Hc. exact Hc.
Defined.
