(* ===== verification/AesWrap.v ===== *)
(** * AES key wrap (src/crypto/aes_wrap.c)

    Wrapping and unwrapping of a key as RFC 3394 defines them, over the memory the
    code works in: the wrapped key is built in place in the destination buffer. *)

From S2P Require Import Prelude Cipher Aes Fips197 AesCorrect.
From Stdlib Require Import Btauto.

(** ** Operations *)

(** for ( i = 1; i <= nblk; i++ ): [n] blocks are left; [A] and [R] are pointers. *)
Fixpoint wrap_loop (n : nat) (i nblk j : Z) (m : mem) (c : aes_context) (A R : Z) : mem * aes_context :=
  match n with
  | O => (m, c)
  | S n =>
      let B := mem_read m A 8 ++ mem_read m R 8 in
      let '(c, B) := aes_encrypt c B in
      let m := mem_write m A (take 8 B) in
      let m := mem_write m (A + 7) [u8 (Z.lxor (mem_get m (A + 7)) (nblk * j + i))] in
      let m := mem_write m R (drop 8 B) in
      wrap_loop n (i + 1) nblk j m c A (R + 8)
  end.

(** for ( j = 0; j < 6; j++ ): the values of [j] that are left. *)
Fixpoint wrap_rounds (js : list Z) (nblk : nat) (m : mem) (c : aes_context) (dest : Z) : mem * aes_context :=
  match js with
  | [] => (m, c)
  | j :: js =>
      let R := dest + 8 in
      let '(m, c) := wrap_loop nblk 1 (Z.of_nat nblk) j m c dest R in
      wrap_rounds js nblk m c dest
  end.

(** [cipher_setkey] with its return code ignored. *)
Definition set_kek (c : aes_context) (kek : bytes) : aes_context :=
  match aes_setkey c (take 16 kek) with Ok c => c | Err _ => c end.

(** [aes_ctx] is what malloc returned for the context. *)
Definition aes_wrap (aes_ctx : option aes_context) (m : mem) (kek : bytes) (src dest : Z) (nblk : nat) : Z * mem :=
  match aes_ctx with
  | None => (-1, m)
  | Some c =>
      let c := set_kek c kek in
      (* Set up *)
      let m := mem_write m dest (replicate 8 0xA6) in
      let m := mem_write m (dest + 8) (mem_read m src (nblk * 8)) in
      (* Wrap *)
      let '(m, c) := wrap_rounds [0; 1; 2; 3; 4; 5] nblk m c dest in
      (0, m)
  end.

(** for ( i = nblk; i >= 1; i-- ): [n] is [i]; [A] is the array. *)
Fixpoint unwrap_loop (n : nat) (nblk j : Z) (m : mem) (c : aes_context) (A : bytes) (R : Z) : mem * aes_context * bytes :=
  match n with
  | O => (m, c, A)
  | S n' =>
      let B := A ++ mem_read m R 8 in
      let B := <[7%nat := u8 (Z.lxor (byte B 7) (nblk * j + Z.of_nat n))]> B in
      let '(c, B) := aes_decrypt c B in
      let A := take 8 B in
      let m := mem_write m R (drop 8 B) in
      unwrap_loop n' nblk j m c A (R - 8)
  end.

(** for ( j = 5; j >= 0; j-- ): the values of [j] that are left. *)
Fixpoint unwrap_rounds (js : list Z) (nblk : nat) (m : mem) (c : aes_context) (A : bytes) (dest : Z) : mem * aes_context * bytes :=
  match js with
  | [] => (m, c, A)
  | j :: js =>
      let R := dest + (Z.of_nat nblk - 1) * 8 in
      let '(m, c, A) := unwrap_loop nblk (Z.of_nat nblk) j m c A R in
      unwrap_rounds js nblk m c A dest
  end.

Definition aes_unwrap (aes_ctx : option aes_context) (m : mem) (kek : bytes) (src dest : Z) (nblk : nat) : Z * mem :=
  match aes_ctx with
  | None => (-1, m)
  | Some c =>
      let c := set_kek c kek in
      (* Set up *)
      let A := mem_read m src 8 in
      let m := mem_write m dest (mem_read m (src + 8) (nblk * 8)) in
      (* Unwrap *)
      let '(m, c, A) := unwrap_rounds [5; 4; 3; 2; 1; 0] nblk m c A dest in
      (* Check IV *)
      (if forallb (λ a, a =? 0xA6) (take 8 A) then 0 else -1, m)
  end.

(** ** RFC 3394 *)

(** The passes, with the encoding of the step number as a parameter: the standard
    uses 64 bits. *)
Section passes.
Context (step : Z → bytes) (e d : bytes → bytes).

(** One pass over the blocks, from register [i] on (section 2.2.1). *)
Fixpoint wrap_pass (n j i : Z) (A : bytes) (Rs : list bytes) : bytes * list bytes :=
  match Rs with
  | [] => (A, [])
  | R :: Rs =>
      let B := e (A ++ R) in
      let A := xor_bytes (take 8 B) (step (n * j + i)) in
      let '(A, Rs) := wrap_pass n j (i + 1) A Rs in
      (A, drop 8 B :: Rs)
  end.

(** One pass in the other direction (section 2.2.2). *)
Fixpoint unwrap_pass (n j i : Z) (A : bytes) (Rs : list bytes) : bytes * list bytes :=
  match Rs with
  | [] => (A, [])
  | R :: Rs =>
      let '(A, Rs) := unwrap_pass n j (i + 1) A Rs in
      let B := d (xor_bytes A (step (n * j + i)) ++ R) in
      (take 8 B, drop 8 B :: Rs)
  end.

Definition wrap_passes (js : list Z) (A : bytes) (Rs : list bytes) : bytes * list bytes :=
  foldl (λ '(A, Rs) j, wrap_pass (Zlen Rs) j 1 A Rs) (A, Rs) js.
Definition unwrap_passes (js : list Z) (A : bytes) (Rs : list bytes) : bytes * list bytes :=
  foldl (λ '(A, Rs) j, unwrap_pass (Zlen Rs) j 1 A Rs) (A, Rs) js.
End passes.

(** The standard: key wrap and unwrap with 64-bit step numbers.  Unwrapping gives
    the integrity check value and the plaintext. *)
Definition IV : bytes := replicate 8 0xA6.
Definition rfc3394_wrap (K : bytes) (P : list bytes) : bytes * list bytes :=
  wrap_passes (be_split 8) (Cipher K) [0; 1; 2; 3; 4; 5] IV P.
Definition rfc3394_unwrap (K : bytes) (A : bytes) (C : list bytes) : bytes * list bytes :=
  unwrap_passes (be_split 8) (InvCipher K) [5; 4; 3; 2; 1; 0] A C.

(** The code adds the step number to the last byte only. *)
Definition byte_step (t : Z) : bytes := replicate 7 0 ++ [u8 t].

Lemma byte_step_small t : 0 ≤ t < 256 → byte_step t = be_split 8 t.
Proof.
  intros Ht. unfold byte_step, be_split. cbn [le_split]. rewrite (Z.div_small t) by done.
  rewrite wrap_small by done. by rewrite (Z.mod_small t) by done.
Qed.

(** ** Passes *)

Local Abbreviation half := (is_block_of 8).

Lemma half_app A R : half A → half R → is_block (A ++ R).
Proof. intros [? ?] [? ?]. split; [rewrite length_app; lia|by apply Forall_app_2]. Qed.
Lemma take_half B : is_block B → half (take 8 B).
Proof. intros [? ?]. split; [rewrite length_take; lia|by apply Forall_take]. Qed.
Lemma drop_half B : is_block B → half (drop 8 B).
Proof. intros [? ?]. split; [rewrite length_drop; lia|by apply Forall_drop]. Qed.
Create HintDb halves.
#[export] Hint Resolve half_app take_half drop_half xor_is_block : halves.

Lemma half_be_split t : half (be_split 8 t).
Proof. split; [apply length_be_split|apply be_split_bytes]. Qed.
Lemma half_byte_step t : half (byte_step t).
Proof.
  split; [done|]. apply Forall_app_2; [by_decide|]. apply Forall_singleton, wrap_range. lia.
Qed.
#[export] Hint Resolve half_be_split half_byte_step : halves.

Section inverse.
Context (step : Z → bytes) (Hstep : ∀ t, half (step t)) (e d : bytes → bytes).
Context (He : ∀ b, is_block b → is_block (e b)) (Hde : ∀ b, is_block b → d (e b) = b).

Lemma wrap_pass_halves n j i A Rs :
  half A → Forall half Rs →
  half (wrap_pass step e n j i A Rs).1 ∧ Forall half (wrap_pass step e n j i A Rs).2 ∧
  length (wrap_pass step e n j i A Rs).2 = length Rs.
Proof.
  intros HA HRs. revert i A HA. induction HRs as [|R Rs HR _ IH]; intros i A HA; [done|]. cbn [wrap_pass].
  destruct (IH (i + 1) (xor_bytes (take 8 (e (A ++ R))) (step (n * j + i)))) as (H1 & H2 & H3); [auto 10 with halves|].
  destruct (wrap_pass _ _ _ _ _ _ Rs) as [A' Rs']. cbn in *. split; [done|]. split; [|lia].
  constructor; [auto with halves|done].
Qed.

Lemma unwrap_wrap_pass n j i A Rs :
  half A → Forall half Rs →
  unwrap_pass step d n j i (wrap_pass step e n j i A Rs).1 (wrap_pass step e n j i A Rs).2 = (A, Rs).
Proof.
  intros HA HRs. revert i A HA. induction HRs as [|R Rs HR _ IH]; intros i A HA; [done|]. cbn [wrap_pass].
  assert (is_block (A ++ R)) as Hb by auto with halves. pose proof (He _ Hb) as HB.
  set (A1 := xor_bytes _ _). assert (half A1) as H1 by (subst A1; auto with halves).
  specialize (IH (i + 1) A1 H1). destruct (wrap_pass _ _ _ _ _ A1 Rs) as [A' Rs']. cbn [fst snd unwrap_pass] in *.
  rewrite IH. subst A1. rewrite xor_bytes_cancel.
  2: { destruct (take_half _ HB) as [-> _], (Hstep (n * j + i)) as [-> _]. done. }
  rewrite take_drop, Hde by done. destruct HA as [Hl _].
  by rewrite take_app_length', drop_app_length' by done.
Qed.

Lemma unwrap_wrap_passes js A Rs :
  half A → Forall half Rs →
  unwrap_passes step d (rev js) (wrap_passes step e js A Rs).1 (wrap_passes step e js A Rs).2 = (A, Rs).
Proof.
  revert A Rs. induction js as [|j js IH]; intros A Rs HA HRs; [done|].
  unfold wrap_passes, unwrap_passes in *. cbn [foldl rev]. rewrite foldl_app. cbn [foldl].
  destruct (wrap_pass_halves (Zlen Rs) j 1 A Rs HA HRs) as (H1 & H2 & H3).
  pose proof (unwrap_wrap_pass (Zlen Rs) j 1 A Rs HA HRs) as Hp.
  destruct (wrap_pass step e (Zlen Rs) j 1 A Rs) as [A' Rs']. cbn [fst snd] in *.
  rewrite IH by done. by rewrite H3.
Qed.
End inverse.

(** ** Buffers in memory *)

Lemma read_mid m a pre b post k n :
  k = a + Zlen pre → n = length b → mem_read (mem_write m a (pre ++ b ++ post)) k n = b.
Proof.
  intros -> ->. rewrite <- mem_write_app, <- mem_write_app.
  rewrite mem_read_write_ne by lia. by apply mem_read_write_eq.
Qed.

Lemma write_mid m a pre b b' post k :
  k = a + Zlen pre → length b' = length b →
  mem_write (mem_write m a (pre ++ b ++ post)) k b' = mem_write m a (pre ++ b' ++ post).
Proof.
  intros -> Hl. apply map_eq. intros x. rewrite !lookup_mem_write, !length_app, Hl.
  destruct (decide (a + Zlen pre ≤ x < a + Zlen pre + Zlen b)) as [Hx|Hx].
  - rewrite decide_True by lia. rewrite lookup_app_r, lookup_app_l by lia. f_equal. lia.
  - case_decide as Hy; [|done]. destruct (decide (x < a + Zlen pre)).
    + by rewrite !lookup_app_l by lia.
    + rewrite !lookup_app_r by lia. do 2 f_equal. lia.
Qed.

Lemma read_front m a b post n : n = length b → mem_read (mem_write m a (b ++ post)) a n = b.
Proof. intros ->. apply (read_mid m a []); cbn [length]; lia. Qed.
Lemma write_front m a b b' post :
  length b' = length b → mem_write (mem_write m a (b ++ post)) a b' = mem_write m a (b' ++ post).
Proof. intros. apply (write_mid m a []); [cbn [length]; lia|done]. Qed.

(** A[7] ^= t. *)
Lemma lxor_u8 b t : is_byte b → u8 (Z.lxor b t) = Z.lxor b (u8 t).
Proof.
  intros Hb. rewrite <- (wrap_small 8 b Hb) at 2. rewrite !wrap_land by lia.
  apply Z.bits_inj'. intros n _. rewrite !Z.land_spec, !Z.lxor_spec, !Z.land_spec. btauto.
Qed.

Lemma add_step B t :
  half B → <[7%nat := u8 (Z.lxor (byte B 7) t)]> B = xor_bytes B (byte_step t).
Proof.
  intros [Hl Hb]. do 8 (destruct B as [|? B]; [done|]). destruct B; [|done].
  repeat (apply Forall_cons in Hb as [? Hb]). unfold byte. cbn. by rewrite !Z.lxor_0_r, lxor_u8.
Qed.

Lemma write_step m a A t post :
  half A →
  mem_write (mem_write m a (A ++ post)) (a + 7) [u8 (Z.lxor (mem_get (mem_write m a (A ++ post)) (a + 7)) t)] =
    mem_write m a (xor_bytes A (byte_step t) ++ post).
Proof.
  intros HA. rewrite <- add_step by done. destruct HA as [Hl Hb].
  assert (mem_get (mem_write m a (A ++ post)) (a + 7) = byte A 7) as ->.
  { rewrite mem_get_write, length_app, decide_True by lia. unfold byte.
    rewrite lookup_app_l by lia. do 2 f_equal. lia. }
  set (x := u8 _). clearbody x. do 8 (destruct A as [|? A]; [done|]). destruct A; [|done].
  exact (write_mid m a [z; z0; z1; z2; z3; z4; z5] [z6] [x] post (a + 7) eq_refl eq_refl).
Qed.

Lemma length_mjoin_halves Rs : Forall half Rs → length (mjoin Rs) = (8 * length Rs)%nat.
Proof.
  induction 1 as [|R Rs [HR _] _ IH]; [done|]. rewrite mjoin_cons, length_app, HR, IH. cbn [length]. lia.
Qed.

(** One iteration, with the buffer as the check value, the registers before, the
    register at hand and those after it. *)
Lemma wrap_step key nblk j m c a i A pre R post n :
  aes_keyed key false c → half A → half R →
  let B := Cipher key (A ++ R) in
  wrap_loop (S n) i nblk j (mem_write m a (A ++ pre ++ R ++ post)) c a (a + 8 + Zlen pre) =
    wrap_loop n (i + 1) nblk j
      (mem_write m a (xor_bytes (take 8 B) (byte_step (nblk * j + i)) ++ pre ++ drop 8 B ++ post)) c a (a + 8 + Zlen pre + 8).
Proof.
  intros Hc HA HR B. pose proof Hc as [Hkey _]. pose proof (half_app _ _ HA HR) as Hb.
  pose proof (Cipher_block key _ Hkey Hb) as HB. fold B in HB.
  pose proof (take_half _ HB) as Ht. pose proof (drop_half _ HB) as Hd.
  assert (∀ X : bytes, half X → a + 8 + Zlen pre = a + Zlen (X ++ pre)) as Hk.
  { intros X [HX _]. rewrite length_app, HX. lia. }
  cbn [wrap_loop]. rewrite (read_front m a A) by (symmetry; apply HA).
  rewrite (app_assoc A pre), (read_mid m a (A ++ pre) R post) by (try apply Hk; try symmetry; try apply HR; done).
  rewrite (aes_encrypt_keyed key) by done. fold B. rewrite <- app_assoc.
  rewrite (write_front m a A (take 8 B)) by (destruct Ht as [-> _], HA as [-> _]; done).
  rewrite write_step by done. set (A1 := xor_bytes _ _).
  assert (half A1) as H1 by (subst A1; auto with halves).
  rewrite (app_assoc A1 pre), (write_mid m a (A1 ++ pre) R (drop 8 B) post) by
    (try apply Hk; try done; destruct Hd as [-> _], HR as [-> _]; done).
  by rewrite <- app_assoc.
Qed.

Lemma wrap_loop_correct key nblk j m c a i A pre todo :
  aes_keyed key false c → half A → Forall half todo →
  let '(A', todo') := wrap_pass byte_step (Cipher key) nblk j i A todo in
  wrap_loop (length todo) i nblk j (mem_write m a (A ++ pre ++ mjoin todo)) c a (a + 8 + Zlen pre) =
    (mem_write m a (A' ++ pre ++ mjoin todo'), c).
Proof.
  intros Hc HA Htodo. revert i A HA pre.
  induction Htodo as [|R todo HR _ IH]; intros i A HA pre; [done|].
  pose proof Hc as [Hkey _]. pose proof (Cipher_block key _ Hkey (half_app _ _ HA HR)) as HB.
  cbn [wrap_pass length]. rewrite mjoin_cons, (wrap_step key) by done. cbn zeta. set (B := Cipher key (A ++ R)) in *.
  set (A1 := xor_bytes _ _). assert (half A1) as H1 by (subst A1; auto with halves).
  specialize (IH (i + 1) A1 H1 (pre ++ drop 8 B)). destruct (wrap_pass _ _ _ _ _ A1 todo) as [A' todo'].
  rewrite mjoin_cons, !app_assoc in *. rewrite <- IH. f_equal. rewrite length_app.
  destruct (drop_half _ HB) as [-> _]. lia.
Qed.

Lemma wrap_rounds_correct key m c a js A Rs :
  aes_keyed key false c → half A → Forall half Rs →
  let '(A', Rs') := wrap_passes byte_step (Cipher key) js A Rs in
  wrap_rounds js (length Rs) (mem_write m a (A ++ mjoin Rs)) c a = (mem_write m a (A' ++ mjoin Rs'), c).
Proof.
  intros Hc. revert A Rs. induction js as [|j js IH]; intros A Rs HA HRs; [done|].
  pose proof Hc as [Hkey _]. unfold wrap_passes in *. cbn [foldl wrap_rounds].
  pose proof (wrap_loop_correct key (Zlen Rs) j m c a 1 A [] Rs Hc HA HRs) as Hl.
  pose proof (wrap_pass_halves byte_step half_byte_step (Cipher key) (λ b, Cipher_block key b Hkey) (Zlen Rs) j 1 A Rs HA HRs)
    as (H1 & H2 & H3).
  destruct (wrap_pass _ _ (Zlen Rs) j 1 A Rs) as [A' Rs']. cbn [app length fst snd] in *.
  rewrite Z.add_0_r in Hl. rewrite Hl, <- H3. by apply IH.
Qed.

Lemma mjoin_snoc (Rs : list bytes) R : mjoin (Rs ++ [R]) = mjoin Rs ++ R.
Proof. rewrite join_app. cbn. by rewrite app_nil_r. Qed.

Lemma unwrap_pass_snoc step d n j i A Rs R :
  unwrap_pass step d n j i A (Rs ++ [R]) =
    let B := d (xor_bytes A (step (n * j + (i + Zlen Rs))) ++ R) in
    let '(A', Rs') := unwrap_pass step d n j i (take 8 B) Rs in (A', Rs' ++ [drop 8 B]).
Proof.
  revert i. induction Rs as [|R' Rs IH]; intros i; cbn [app unwrap_pass length]; [by rewrite Z.add_0_r|].
  rewrite IH. cbn zeta. replace (i + 1 + Zlen Rs) with (i + Z.of_nat (S (length Rs))) by lia.
  by destruct (unwrap_pass _ _ _ _ (i + 1) _ Rs).
Qed.

Lemma unwrap_pass_halves key n j i A Rs :
  is_key key → half A → Forall half Rs →
  half (unwrap_pass byte_step (InvCipher key) n j i A Rs).1 ∧
  Forall half (unwrap_pass byte_step (InvCipher key) n j i A Rs).2 ∧
  length (unwrap_pass byte_step (InvCipher key) n j i A Rs).2 = length Rs.
Proof.
  intros Hkey HA HRs. revert i. induction HRs as [|R Rs HR _ IH]; intros i; [done|]. cbn [unwrap_pass].
  destruct (IH (i + 1)) as (H1 & H2 & H3). destruct (unwrap_pass _ _ _ _ (i + 1) A Rs) as [A' Rs']. cbn [fst snd] in *.
  assert (is_block (InvCipher key (xor_bytes A' (byte_step (n * j + i)) ++ R))) as HB.
  { apply InvCipher_block; [done|]. auto with halves. }
  split; [auto with halves|]. split; [constructor; auto with halves|]. cbn [length]. lia.
Qed.

Lemma unwrap_step key nblk j m dec c a A pre R post n k :
  aes_keyed key dec c → half A → half R → k = a + Zlen pre →
  let B := InvCipher key (xor_bytes A (byte_step (nblk * j + Z.of_nat (S n))) ++ R) in
  ∃ c', aes_keyed key true c' ∧
  unwrap_loop (S n) nblk j (mem_write m a (pre ++ R ++ post)) c A k =
    unwrap_loop n nblk j (mem_write m a (pre ++ drop 8 B ++ post)) c' (take 8 B) (k - 8).
Proof.
  intros Hc HA HR Hk B. pose proof Hc as [Hkey _]. cbn [unwrap_loop].
  rewrite (read_mid m a pre R post) by (try symmetry; try apply HR; done).
  assert (∀ t, <[7%nat := u8 (Z.lxor (byte (A ++ R) 7) t)]> (A ++ R) = xor_bytes A (byte_step t) ++ R) as Hs.
  { intros t. rewrite <- add_step by done. destruct HA as [Hl _]. rewrite insert_app_l by lia. do 4 f_equal.
    unfold byte. by rewrite lookup_app_l by lia. }
  rewrite Hs. set (t := byte_step _) in *. assert (is_block (xor_bytes A t ++ R)) as Hb by (subst t; auto with halves).
  destruct (aes_decrypt_keyed key dec c _ Hc Hb) as (c' & -> & Hc'). fold B. exists c'. split; [done|].
  pose proof (InvCipher_block key _ Hkey Hb) as HB. fold B in HB.
  rewrite (write_mid m a pre R (drop 8 B) post); [done|done|].
  destruct (drop_half _ HB) as [-> _], HR as [-> _]. done.
Qed.

Lemma unwrap_loop_correct key nblk j m dec c a A Rs post :
  aes_keyed key dec c → half A → Forall half Rs →
  let '(A', Rs') := unwrap_pass byte_step (InvCipher key) nblk j 1 A Rs in
  ∃ c' dec', aes_keyed key dec' c' ∧
    unwrap_loop (length Rs) nblk j (mem_write m a (mjoin Rs ++ post)) c A (a + (Zlen Rs - 1) * 8) =
      (mem_write m a (mjoin Rs' ++ post), c', A').
Proof.
  revert dec c A post. induction Rs as [|R Rs IH] using rev_ind; intros dec c A post Hc HA HRs; [by exists c, dec|].
  apply Forall_app in HRs as [HRs HR]. apply Forall_cons in HR as [HR _]. pose proof Hc as [Hkey _].
  rewrite unwrap_pass_snoc. cbn zeta. rewrite mjoin_snoc, length_app, <- app_assoc, Nat.add_1_r.
  replace (a + (Z.of_nat (S (length Rs)) - 1) * 8) with (a + Zlen (mjoin Rs)) by (rewrite length_mjoin_halves by done; lia).
  destruct (unwrap_step key nblk j m dec c a A (mjoin Rs) R post (length Rs) _ Hc HA HR eq_refl) as (c' & Hc' & ->).
  replace (Z.of_nat (S (length Rs))) with (1 + Zlen Rs) by lia. set (B := InvCipher key _).
  assert (is_block B) as HB by (apply InvCipher_block; [done|]; auto with halves).
  specialize (IH true c' (take 8 B) (drop 8 B ++ post) Hc' ltac:(auto with halves) HRs).
  destruct (unwrap_pass _ _ _ _ _ (take 8 B) Rs) as [A' Rs']. destruct IH as (c'' & dec' & Hc'' & Heq).
  exists c'', dec'. split; [done|]. rewrite mjoin_snoc, <- app_assoc, <- Heq. f_equal.
  rewrite length_mjoin_halves by done. lia.
Qed.

Lemma unwrap_rounds_correct key m dec c a js A Rs :
  aes_keyed key dec c → half A → Forall half Rs →
  let '(A', Rs') := unwrap_passes byte_step (InvCipher key) js A Rs in
  half A' ∧ Forall half Rs' ∧ length Rs' = length Rs ∧
  ∃ c', unwrap_rounds js (length Rs) (mem_write m a (mjoin Rs)) c A a = (mem_write m a (mjoin Rs'), c', A').
Proof.
  revert dec c A Rs. induction js as [|j js IH]; intros dec c A Rs Hc HA HRs; [by split_and!; eauto|].
  pose proof Hc as [Hkey _]. unfold unwrap_passes in *. cbn [foldl unwrap_rounds].
  pose proof (unwrap_loop_correct key (Zlen Rs) j m dec c a A Rs [] Hc HA HRs) as Hl.
  pose proof (unwrap_pass_halves key (Zlen Rs) j 1 A Rs Hkey HA HRs) as (H1 & H2 & H3).
  destruct (unwrap_pass _ _ (Zlen Rs) j 1 A Rs) as [A' Rs']. cbn [fst snd] in *. rewrite !app_nil_r in Hl.
  destruct Hl as (c' & dec' & Hc' & ->). specialize (IH dec' c' A' Rs' Hc' H1 H2).
  rewrite <- H3. exact IH.
Qed.

(** With fewer than 256 steps the last byte is the whole step number. *)
Lemma wrap_pass_ext s1 s2 e n j i A Rs :
  (∀ k, i ≤ k < i + Zlen Rs → s1 (n * j + k) = s2 (n * j + k)) →
  wrap_pass s1 e n j i A Rs = wrap_pass s2 e n j i A Rs.
Proof.
  revert i A. induction Rs as [|R Rs IH]; intros i A Hs; [done|]. cbn [wrap_pass length] in *.
  rewrite Hs by lia. rewrite IH; [done|]. intros. apply Hs. lia.
Qed.

Lemma unwrap_pass_ext s1 s2 d n j i A Rs :
  (∀ k, i ≤ k < i + Zlen Rs → s1 (n * j + k) = s2 (n * j + k)) →
  unwrap_pass s1 d n j i A Rs = unwrap_pass s2 d n j i A Rs.
Proof.
  revert i. induction Rs as [|R Rs IH]; intros i Hs; [done|]. cbn [unwrap_pass length] in *.
  rewrite Hs by lia. rewrite IH; [done|]. intros. apply Hs. lia.
Qed.

Lemma length_wrap_pass s e n j i A Rs : length (wrap_pass s e n j i A Rs).2 = length Rs.
Proof.
  revert i A. induction Rs as [|R Rs IH]; intros i A; [done|]. cbn [wrap_pass].
  specialize (IH (i + 1) (xor_bytes (take 8 (e (A ++ R))) (s (n * j + i)))).
  destruct (wrap_pass _ _ _ _ _ _ Rs). cbn in *. lia.
Qed.
Lemma length_unwrap_pass s d n j i A Rs : length (unwrap_pass s d n j i A Rs).2 = length Rs.
Proof.
  revert i. induction Rs as [|R Rs IH]; intros i; [done|]. cbn [unwrap_pass].
  specialize (IH (i + 1)). destruct (unwrap_pass _ _ _ _ _ _ Rs). cbn in *. lia.
Qed.

Lemma small_steps n j i k : 0 ≤ j ≤ 5 → 6 * n < 256 → 1 ≤ i → i ≤ k < 1 + n → byte_step (n * j + k) = be_split 8 (n * j + k).
Proof. intros. apply byte_step_small. nia. Qed.

Lemma wrap_passes_rfc e js A Rs :
  Forall (λ j, 0 ≤ j ≤ 5) js → 6 * Zlen Rs < 256 →
  wrap_passes byte_step e js A Rs = wrap_passes (be_split 8) e js A Rs.
Proof.
  intros Hjs. revert A Rs. induction Hjs as [|j js Hj _ IH]; intros A Rs Hn; [done|].
  unfold wrap_passes in *. cbn [foldl].
  rewrite (wrap_pass_ext byte_step (be_split 8)) by (intros; apply (small_steps _ _ 1); lia).
  pose proof (length_wrap_pass (be_split 8) e (Zlen Rs) j 1 A Rs) as Hl. destruct (wrap_pass _ _ _ _ _ _ _) as [A' Rs'].
  cbn in Hl. apply IH. by rewrite Hl.
Qed.

Lemma unwrap_passes_rfc d js A Rs :
  Forall (λ j, 0 ≤ j ≤ 5) js → 6 * Zlen Rs < 256 →
  unwrap_passes byte_step d js A Rs = unwrap_passes (be_split 8) d js A Rs.
Proof.
  intros Hjs. revert A Rs. induction Hjs as [|j js Hj _ IH]; intros A Rs Hn; [done|].
  unfold unwrap_passes in *. cbn [foldl].
  rewrite (unwrap_pass_ext byte_step (be_split 8)) by (intros; apply (small_steps _ _ 1); lia).
  pose proof (length_unwrap_pass (be_split 8) d (Zlen Rs) j 1 A Rs) as Hl. destruct (unwrap_pass _ _ _ _ _ _ _) as [A' Rs'].
  cbn in Hl. apply IH. by rewrite Hl.
Qed.

Lemma wrap_passes_halves key js A Rs :
  is_key key → half A → Forall half Rs →
  half (wrap_passes byte_step (Cipher key) js A Rs).1 ∧
  Forall half (wrap_passes byte_step (Cipher key) js A Rs).2 ∧
  length (wrap_passes byte_step (Cipher key) js A Rs).2 = length Rs.
Proof.
  intros Hkey. revert A Rs. induction js as [|j js IH]; intros A Rs HA HRs; [done|].
  unfold wrap_passes in *. cbn [foldl].
  pose proof (wrap_pass_halves byte_step half_byte_step (Cipher key) (λ b, Cipher_block key b Hkey) (Zlen Rs) j 1 A Rs HA HRs)
    as (H1 & H2 & H3).
  destruct (wrap_pass _ _ (Zlen Rs) j 1 A Rs) as [A' Rs']. cbn [fst snd] in *. rewrite <- H3. by apply IH.
Qed.

(** ** Theorems *)

Lemma set_kek_keyed ctx kek : aes_ctx_ok ctx → is_block kek → aes_keyed kek false (set_kek ctx kek).
Proof.
  intros Hc [Hl Hb]. unfold set_kek. rewrite take_ge by lia.
  pose proof (aes_setkey_keyed ctx kek Hc Hb) as H. destruct (aes_setkey ctx kek); [apply H|].
  destruct H as [_ H]. destruct H. split; [by left|done].
Qed.

Lemma half_IV : half IV.
Proof. split; [done|by_decide]. Qed.

Lemma IV_check A : half A → forallb (λ a, a =? 0xA6) (take 8 A) = bool_decide (A = IV).
Proof.
  intros [Hl _]. rewrite take_ge by lia. apply eq_bool_prop_intro. rewrite bool_decide_spec.
  rewrite Is_true_true, forallb_forall. split.
  - intros H. apply list_eq_same_length with (n := 8%nat); [done|done|]. intros i x y Hi Hx Hy.
    apply list_elem_of_lookup_2, list_elem_of_In in Hx. specialize (H _ Hx). apply Z.eqb_eq in H.
    unfold IV in Hy. apply lookup_replicate in Hy as [-> _]. done.
  - intros -> x Hx. apply list_elem_of_In, elem_of_replicate in Hx as [-> _]. done.
Qed.

Lemma aes_wrap_spec ctx m kek src dest P :
  aes_ctx_ok ctx → is_block kek → Forall half P →
  mem_read (mem_write m dest IV) src (length P * 8) = mjoin P →
  let '(A, C) := wrap_passes byte_step (Cipher kek) [0; 1; 2; 3; 4; 5] IV P in
  aes_wrap (Some ctx) m kek src dest (length P) = (0, mem_write m dest (A ++ mjoin C)).
Proof.
  intros Hc Hk HP Hin. unfold aes_wrap. change (replicate 8 0xA6) with IV. rewrite Hin.
  change (dest + 8) with (dest + Zlen IV). rewrite mem_write_app.
  pose proof (wrap_rounds_correct kek m _ dest [0; 1; 2; 3; 4; 5] IV P (set_kek_keyed _ _ Hc Hk) half_IV HP) as H.
  destruct (wrap_passes _ _ _ _ P) as [A C]. by rewrite H.
Qed.

Lemma aes_unwrap_spec ctx m kek src dest A C :
  aes_ctx_ok ctx → is_block kek → half A → Forall half C →
  mem_read m src (8 + length C * 8) = A ++ mjoin C →
  let '(A', P) := unwrap_passes byte_step (InvCipher kek) [5; 4; 3; 2; 1; 0] A C in
  aes_unwrap (Some ctx) m kek src dest (length C) = (if decide (A' = IV) then 0 else -1, mem_write m dest (mjoin P)).
Proof.
  intros Hc Hk HA HC Hin. rewrite mem_read_app in Hin.
  apply app_inj_1 in Hin as [HinA HinC]; [|rewrite length_mem_read; symmetry; apply HA].
  unfold aes_unwrap. change (src + 8) with (src + Z.of_nat 8). rewrite HinA, HinC.
  pose proof (unwrap_rounds_correct kek m false _ dest [5; 4; 3; 2; 1; 0] A C (set_kek_keyed _ _ Hc Hk) HA HC) as H.
  destruct (unwrap_passes _ _ _ _ C) as [A' P]. destruct H as (HA' & _ & _ & c' & ->).
  rewrite IV_check by done. by case_bool_decide; case_decide.
Qed.

(** C30: AES key wrap with a 128-bit key.  Data that does not lie in the first eight
    bytes of the destination is wrapped into the destination, and nothing else changes;
    with at most 42 blocks the result is that of RFC 3394.  Unwrapping it, between
    buffers that may overlap in any way, succeeds and gives back the data, whatever its
    length.  Unwrapping anything of at most 42 blocks yields the plaintext of RFC 3394
    and fails exactly when its check value is not the one wrapping starts from.
    Without memory for the context both fail and change nothing. *)
Theorem aes_wrap_correct ctx ctx' m kek src dest (P : list bytes) :
  aes_ctx_ok ctx → aes_ctx_ok ctx' → is_block kek → Forall (is_block_of 8) P →
  mem_read m src (length P * 8) = mjoin P →
  dest + 8 ≤ src ∨ src + Z.of_nat (length P * 8) ≤ dest →
  (∃ A C, aes_wrap (Some ctx) m kek src dest (length P) = (0, mem_write m dest (A ++ mjoin C)) ∧
    (6 * Zlen P < 256 → rfc3394_wrap kek P = (A, C)) ∧
    (∀ m' src' dest', mem_read m' src' (8 + length P * 8) = A ++ mjoin C →
      aes_unwrap (Some ctx') m' kek src' dest' (length P) = (0, mem_write m' dest' (mjoin P)))) ∧
  (∀ m' src' dest' A C, is_block_of 8 A → Forall (is_block_of 8) C → 6 * Zlen C < 256 →
    mem_read m' src' (8 + length C * 8) = A ++ mjoin C →
    let '(A', P') := rfc3394_unwrap kek A C in
    aes_unwrap (Some ctx') m' kek src' dest' (length C) =
      (if decide (A' = IV) then 0 else -1, mem_write m' dest' (mjoin P'))) ∧
  aes_wrap None m kek src dest (length P) = (-1, m) ∧ aes_unwrap None m kek src dest (length P) = (-1, m).
Proof.
  intros Hc Hc' Hk HP Hin Hd. split; [|split; [|done]].
  - pose proof (aes_wrap_spec ctx m kek src dest P Hc Hk HP) as Hw. assert (is_key kek) as Hkey.
    { destruct Hk. split; [by left|done]. }
    pose proof (unwrap_wrap_passes byte_step half_byte_step (Cipher kek) (InvCipher kek)
      (λ b, Cipher_block kek b Hkey) (λ b, inverse_cipher kek b (KeyExpansion_keyed _ Hkey))
      [0; 1; 2; 3; 4; 5] IV P half_IV HP) as Hr.
    pose proof (wrap_passes_halves kek [0; 1; 2; 3; 4; 5] IV P Hkey half_IV HP) as (HA & HC & Hl).
    pose proof (wrap_passes_rfc (Cipher kek) [0; 1; 2; 3; 4; 5] IV P ltac:(by_decide)) as Hrfc.
    destruct (wrap_passes byte_step _ _ _ P) as [A C]. cbn [fst snd] in *. exists A, C. split; [|split].
    + apply Hw. rewrite mem_read_write_ne; [done|]. cbn [length IV replicate]. lia.
    + intros Hn. unfold rfc3394_wrap. symmetry. by apply Hrfc.
    + intros m' src' dest' Hin'. rewrite <- Hl in *.
      pose proof (aes_unwrap_spec ctx' m' kek src' dest' A C Hc' Hk HA HC Hin') as Hu.
      cbn [rev app] in Hr. rewrite Hr in Hu. by rewrite decide_True in Hu by done.
  - intros m' src' dest' A C HA HC Hn Hin'.
    pose proof (aes_unwrap_spec ctx' m' kek src' dest' A C Hc' Hk HA HC Hin') as Hu.
    rewrite unwrap_passes_rfc in Hu by (done || by_decide). exact Hu.
Qed.

(** The example of section 4.1 of RFC 3394. *)
Definition example_ctx : aes_context := Aes_context (Aes_ctx 0 0 (replicate 120 0) (replicate 16 0)) false.
Definition example_data : list bytes := [(λ x, x * 17) <$> seqZ 0 8; (λ x, x * 17) <$> seqZ 8 8].
Definition example_mem : mem := mem_write ∅ 256 (mjoin example_data).

Lemma aes_wrap_correct_witness :
  ∃ m, aes_wrap (Some example_ctx) example_mem (seqZ 0 16) 256 512 2 = (0, m) ∧
    mem_read m 512 24 = [0x1f; 0xa6; 0x8b; 0x0a; 0x81; 0x12; 0xb4; 0x47; 0xae; 0xf3; 0x4b; 0xd8; 0xfb; 0x5a; 0x7b; 0x82;
      0x9d; 0x3e; 0x86; 0x23; 0x71; 0xd2; 0xcf; 0xe5] ∧
    aes_unwrap (Some example_ctx) m (seqZ 0 16) 512 512 2 = (0, mem_write m 512 (mjoin example_data)).
Proof.
  assert (Forall (is_block_of 8) example_data) as HP by (repeat constructor; by_decide).
  destruct (aes_wrap_correct example_ctx example_ctx example_mem (seqZ 0 16) 256 512 example_data)
    as ((A & C & Hw & Hr & Hu) & _); [done|done|split; [done|by_decide]|done|by vm_compute|by right|].
  change (length example_data) with 2%nat in *. pose proof Hw as Hc.
  exists (mem_write example_mem 512 (A ++ mjoin C)). split; [done|].
  assert (mem_read (mem_write example_mem 512 (A ++ mjoin C)) 512 24 =
    mem_read (aes_wrap (Some example_ctx) example_mem (seqZ 0 16) 256 512 2).2 512 24) as Hm by (by rewrite Hc).
  assert (length (A ++ mjoin C) = 24%nat) as Hl.
  { destruct (wrap_passes_halves (seqZ 0 16) [0; 1; 2; 3; 4; 5] IV example_data) as (H1 & H2 & H3);
      [split; [by left|by_decide]|apply half_IV|done|].
    pose proof (aes_wrap_spec example_ctx example_mem (seqZ 0 16) 256 512 example_data) as Hs.
    assert (wrap_passes byte_step (Cipher (seqZ 0 16)) [0; 1; 2; 3; 4; 5] IV example_data = (A, C)) as Heq.
    { rewrite wrap_passes_rfc by (by_decide || by vm_compute). by apply Hr. }
    rewrite Heq in *. cbn [fst snd] in *. rewrite length_app, length_mjoin_halves, H3 by done. destruct H1 as [-> _]. done. }
  split; [rewrite Hm; by vm_compute|]. apply Hu. by apply mem_read_write_eq.
Defined.

(** Wrapping in place does not wrap the data, although the code documents that
    source and destination may be the same buffer: the check value is stored over
    the first block before the data is moved, so that the wrapped key contains the
    check value in its place, and unwrapping it succeeds with that block lost. *)
Lemma aes_wrap_in_place ctx ctx' m kek buf (R : bytes) (P : list bytes) :
  aes_ctx_ok ctx → aes_ctx_ok ctx' → is_block kek → Forall (is_block_of 8) (R :: P) →
  mem_read m buf (S (length P) * 8) = mjoin (R :: P) →
  ∃ m', aes_wrap (Some ctx) m kek buf buf (S (length P)) = (0, m') ∧
    aes_unwrap (Some ctx') m' kek buf buf (S (length P)) = (0, mem_write m' buf (mjoin (IV :: P))).
Proof.
  intros Hc Hc' Hk HRP Hin. apply Forall_cons in HRP as [HR HP].
  assert (is_key kek) as Hkey by (destruct Hk; split; [by left|done]).
  pose proof (Forall_cons_2 _ _ _ half_IV HP) as HIP.
  pose proof (aes_wrap_spec ctx m kek buf buf (IV :: P) Hc Hk HIP) as Hw.
  pose proof (unwrap_wrap_passes byte_step half_byte_step (Cipher kek) (InvCipher kek)
    (λ b, Cipher_block kek b Hkey) (λ b, inverse_cipher kek b (KeyExpansion_keyed _ Hkey))
    [0; 1; 2; 3; 4; 5] IV (IV :: P) half_IV HIP) as Hr.
  pose proof (wrap_passes_halves kek [0; 1; 2; 3; 4; 5] IV (IV :: P) Hkey half_IV HIP) as (HA & HC & Hl).
  destruct (wrap_passes byte_step _ _ _ (IV :: P)) as [A C]. cbn [fst snd rev app] in *.
  exists (mem_write m buf (A ++ mjoin C)). split.
  - apply Hw. cbn [length]. change (S (length P) * 8)%nat with (8 + length P * 8)%nat in *.
    rewrite mjoin_cons in *. rewrite mem_read_app in *.
    apply app_inj_1 in Hin as [_ Hin]; [|rewrite length_mem_read; symmetry; apply HR].
    rewrite mem_read_write_eq, mem_read_write_ne by (done || (cbn; lia)). by rewrite Hin.
  - pose proof (aes_unwrap_spec ctx' (mem_write m buf (A ++ mjoin C)) kek buf buf A C Hc' Hk HA HC) as Hu.
    rewrite Hr in Hu. rewrite decide_True, Hl in Hu by done. apply Hu.
    apply mem_read_write_eq. rewrite length_app, length_mjoin_halves, Hl by done. destruct HA as [-> _]. lia.
Qed.

Lemma aes_wrap_in_place_witness :
  ∃ m, aes_wrap (Some example_ctx) example_mem (seqZ 0 16) 256 256 2 = (0, m) ∧
    aes_unwrap (Some example_ctx) m (seqZ 0 16) 256 256 2 =
      (0, mem_write m 256 (mjoin [IV; (λ x, x * 17) <$> seqZ 8 8])).
Proof.
  apply (aes_wrap_in_place example_ctx example_ctx example_mem (seqZ 0 16) 256
    ((λ x, x * 17) <$> seqZ 0 8) [(λ x, x * 17) <$> seqZ 8 8]);
    [done|done|split; [done|by_decide]|repeat constructor; by_decide|by vm_compute].
Defined.
