(* ===== verification/Arc4.v ===== *)
(** * The ARC4 stream cipher (src/crypto/arc4.c, src/include/ipxe/arc4.h)

    The implementation keeps the permutation in an array of bytes and works with
    masks; it is compared with RC4 as usually defined, over a function on the
    residues modulo 256. *)

From S2P Require Import Prelude Cipher.

(** ** Operations *)

Record arc4_ctx : Type := Arc4_ctx {
  ctx_i : Z;
  ctx_j : Z;
  state : bytes;
}.

Definition SWAP (ary : bytes) (i j : Z) : bytes :=
  let temp := byte ary (Z.to_nat i) in
  let ary := <[Z.to_nat i := byte ary (Z.to_nat j)]> ary in
  <[Z.to_nat j := temp]> ary.

(** for ( i = j = 0; i < 256; i++ ) *)
Definition setkey_step (key : bytes) (s : bytes * Z) (i : Z) : bytes * Z :=
  let '(St, j) := s in
  let j := Z.land (j + byte St (Z.to_nat i) + byte key (Z.to_nat i mod length key)) 0xff in
  (SWAP St i j, j).

Definition arc4_setkey (ctx : arc4_ctx) (key : bytes) : arc4_ctx :=
  let St := foldl (λ St i, <[Z.to_nat i := u8 i]> St) (state ctx) (seqZ 0 256) in
  let '(St, j) := foldl (setkey_step key) (St, 0) (seqZ 0 256) in
  Arc4_ctx 0 0 St.

(** while ( len-- ): [src] is what is left of the source, or [None] for a NULL
    pointer; the bytes stored at the destination are returned. *)
Fixpoint arc4_xor_loop (len : nat) (i j : Z) (St : bytes) (src : option bytes) : Z * Z * bytes * bytes :=
  match len with
  | O => (i, j, St, [])
  | S len =>
      let i := Z.land (i + 1) 0xff in
      let j := Z.land (j + byte St (Z.to_nat i)) 0xff in
      let St := SWAP St i j in
      match src with
      | Some src =>
          let out := Z.lxor (byte src 0)
            (byte St (Z.to_nat (Z.land (byte St (Z.to_nat i) + byte St (Z.to_nat j)) 0xff))) in
          let '(i, j, St, dst) := arc4_xor_loop len i j St (Some (drop 1 src)) in
          (i, j, St, out :: dst)
      | None => arc4_xor_loop len i j St None
      end
  end.

Definition arc4_xor (ctx : arc4_ctx) (src : option bytes) (len : nat) : arc4_ctx * bytes :=
  let '(i, j, St, dst) := arc4_xor_loop len (ctx_i ctx) (ctx_j ctx) (state ctx) src in
  (Arc4_ctx i j St, dst).

Definition arc4_setiv (ctx : arc4_ctx) (_ : bytes) : arc4_ctx := ctx.

(** [ctx] is the uninitialised context on the stack. *)
Definition arc4_skip (ctx : arc4_ctx) (key : bytes) (skip : nat) (src : bytes) (msglen : nat) : bytes :=
  let ctx := arc4_setkey ctx key in
  let '(ctx, _) := arc4_xor ctx None skip in
  (arc4_xor ctx (Some src) msglen).2.

(** ** RC4 *)

Definition swap (St : Z → Z) (i j : Z) : Z → Z :=
  λ x, if decide (x = i) then St j else if decide (x = j) then St i else St x.

(** Key scheduling. *)
Definition ksa_step (key : bytes) (s : (Z → Z) * Z) (i : Z) : (Z → Z) * Z :=
  let '(St, j) := s in
  let j := (j + St i + byte key (Z.to_nat i mod length key)) mod 256 in
  (swap St i j, j).
Definition ksa (key : bytes) : Z → Z := (foldl (ksa_step key) (λ x, x, 0) (seqZ 0 256)).1.

(** The generator: its state after a byte of output, and the byte. *)
Definition prga (s : Z * Z * (Z → Z)) : Z * Z * (Z → Z) * Z :=
  let '(i, j, St) := s in
  let i := (i + 1) mod 256 in
  let j := (j + St i) mod 256 in
  let St := swap St i j in
  (i, j, St, St ((St i + St j) mod 256)).

Fixpoint stream (n : nat) (s : Z * Z * (Z → Z)) : bytes :=
  match n with O => [] | S n => let '(s, k) := prga s in k :: stream n s end.
Fixpoint advance (n : nat) (s : Z * Z * (Z → Z)) : Z * Z * (Z → Z) :=
  match n with O => s | S n => advance n (prga s).1 end.

Definition rc4_stream (key : bytes) (n : nat) : bytes := stream n (0, 0, ksa key).

(** ** Correspondence *)

(** The array holds the permutation. *)
Definition holds_perm (a : bytes) (St : Z → Z) : Prop :=
  length a = 256%nat ∧ (∀ x, 0 ≤ x < 256 → byte a (Z.to_nat x) = St x) ∧ (∀ x, 0 ≤ x < 256 → 0 ≤ St x < 256).

Lemma byte_insert_eq (l : bytes) i x : (i < length l)%nat → byte (<[i := x]> l) i = x.
Proof. intros. unfold byte. by rewrite list_lookup_insert_eq. Qed.
Lemma byte_insert_ne (l : bytes) i k x : i ≠ k → byte (<[i := x]> l) k = byte l k.
Proof. intros. unfold byte. by rewrite list_lookup_insert_ne. Qed.

Lemma SWAP_holds a St i j :
  holds_perm a St → 0 ≤ i < 256 → 0 ≤ j < 256 → holds_perm (SWAP a i j) (swap St i j).
Proof.
  intros (Hl & Ha & Hr) Hi Hj. unfold SWAP, swap. split_and!.
  - by rewrite !length_insert.
  - intros x Hx. destruct (decide (x = j)) as [->|Hxj].
    + rewrite byte_insert_eq by (rewrite length_insert; lia). rewrite Ha by done.
      by destruct (decide (j = i)) as [->|].
    + rewrite byte_insert_ne by lia. destruct (decide (x = i)) as [->|Hxi].
      * rewrite byte_insert_eq by lia. by apply Ha.
      * rewrite byte_insert_ne by lia. by apply Ha.
  - intros x Hx. repeat case_decide; auto.
Qed.

Lemma SWAP_perm a i j : 0 ≤ i < Zlen a → 0 ≤ j < Zlen a → SWAP a i j ≡ₚ a.
Proof.
  intros Hi Hj. unfold SWAP, byte.
  destruct (lookup_lt_is_Some_2 a (Z.to_nat i) ltac:(lia)) as [x Hx].
  destruct (lookup_lt_is_Some_2 a (Z.to_nat j) ltac:(lia)) as [y Hy].
  rewrite Hx, Hy. cbn [default]. by apply Permutation_insert_swap.
Qed.

Lemma land_255 x : Z.land x 0xff = x mod 256.
Proof. change 0xff with (2 ^ 8 - 1). by apply land_mask. Qed.

Lemma mod_256 x : 0 ≤ x mod 256 < 256.
Proof. apply Z.mod_pos_bound. lia. Qed.

Lemma length_setkey_init xs l : length (foldl (λ St i, <[Z.to_nat i := u8 i]> St) l xs) = length l.
Proof. revert l. induction xs as [|i xs IH]; intros l; [done|]. cbn. by rewrite IH, length_insert. Qed.


Lemma setkey_init_lookup n l k :
  (n ≤ 256)%nat → length l = 256%nat →
  byte (foldl (λ St i, <[Z.to_nat i := u8 i]> St) l (seqZ 0 (Z.of_nat n))) k =
    if decide (k < n)%nat then Z.of_nat k else byte l k.
Proof.
  intros Hn Hl. induction n as [|n IH]; [done|]. rewrite seqZ_S, foldl_app. cbn [foldl].
  rewrite Z.add_0_l, Nat2Z.id. destruct (decide (k = n)) as [->|Hk].
  - rewrite decide_True by lia. rewrite byte_insert_eq.
    + apply wrap_small. unfold in_range. lia.
    + rewrite length_setkey_init. lia.
  - rewrite byte_insert_ne, IH by lia. by repeat case_decide; try lia.
Qed.

Lemma setkey_init l :
  length l = 256%nat → foldl (λ St i, <[Z.to_nat i := u8 i]> St) l (seqZ 0 256) = seqZ 0 256.
Proof.
  intros Hl. apply list_eq_same_length with (n := 256%nat); [done|by rewrite length_setkey_init|].
  intros i x y Hi Hx Hy. apply lookup_seqZ in Hy as [-> _].
  pose proof (setkey_init_lookup 256 l i ltac:(lia) Hl) as H. rewrite decide_True in H by lia.
  unfold byte in H. change (Z.of_nat 256) with 256 in H. rewrite Hx in H. cbn in H. lia.
Qed.

Lemma setkey_loop key xs a St j :
  holds_perm a St → 0 ≤ j < 256 → Forall (λ i, 0 ≤ i < 256) xs →
  let s := foldl (setkey_step key) (a, j) xs in
  let s' := foldl (ksa_step key) (St, j) xs in
  holds_perm s.1 s'.1 ∧ s.2 = s'.2 ∧ s.1 ≡ₚ a.
Proof.
  intros Ha Hj Hxs. revert a St j Ha Hj. induction Hxs as [|i xs Hi _ IH]; intros a St j Ha Hj; [done|].
  cbn [foldl setkey_step ksa_step]. pose proof Ha as (Hl & Hab & Hr). rewrite Hab, land_255 by done.
  set (j' := (_ mod 256)). assert (0 ≤ j' < 256) as Hj' by apply mod_256.
  destruct (IH (SWAP a i j') (swap St i j') j') as (H1 & H2 & H3); [by apply SWAP_holds|done|].
  split; [done|]. split; [done|]. etrans; [exact H3|]. apply SWAP_perm; lia.
Qed.

(** The permutation survives: the array always holds each byte once. *)
Definition arc4_ok (ctx : arc4_ctx) : Prop :=
  0 ≤ ctx_i ctx < 256 ∧ 0 ≤ ctx_j ctx < 256 ∧ state ctx ≡ₚ seqZ 0 256.

(** A context in the state of the generator. *)
Definition arc4_at (ctx : arc4_ctx) (s : Z * Z * (Z → Z)) : Prop :=
  arc4_ok ctx ∧ ctx_i ctx = s.1.1 ∧ ctx_j ctx = s.1.2 ∧ holds_perm (state ctx) s.2.

Lemma arc4_setkey_at ctx key : length (state ctx) = 256%nat → arc4_at (arc4_setkey ctx key) (0, 0, ksa key).
Proof.
  intros Hl. unfold arc4_setkey, ksa. rewrite setkey_init by done.
  assert (holds_perm (seqZ 0 256) (λ x, x)) as Hp.
  { split; [done|]. split; [|done]. intros x Hx. unfold byte. rewrite lookup_seqZ_lt by lia. cbn. lia. }
  destruct (setkey_loop key (seqZ 0 256) (seqZ 0 256) (λ x, x) 0 Hp) as (H1 & H2 & H3); [lia|by_decide|].
  destruct (foldl (setkey_step key) _ _) as [a j]. cbn [fst snd] in *. unfold arc4_at, arc4_ok. cbn. split_and!; done || lia.
Qed.

(** One iteration of the generator. *)
Lemma xor_step i j a St :
  0 ≤ j < 256 → holds_perm a St →
  let i' := Z.land (i + 1) 0xff in
  let j' := Z.land (j + byte a (Z.to_nat i')) 0xff in
  let a' := SWAP a i' j' in
  let '(s', k) := prga (i, j, St) in
  s' = (i', j', s'.2) ∧ 0 ≤ i' < 256 ∧ 0 ≤ j' < 256 ∧ holds_perm a' s'.2 ∧ a' ≡ₚ a ∧
  byte a' (Z.to_nat (Z.land (byte a' (Z.to_nat i') + byte a' (Z.to_nat j')) 0xff)) = k.
Proof.
  intros Hj Ha i' j' a'. unfold prga. pose proof Ha as (Hl & Hab & Hr).
  assert (i' = (i + 1) mod 256) as Hi' by (apply land_255). rewrite <- Hi'.
  pose proof (mod_256 (i + 1)) as Hib. rewrite <- Hi' in Hib.
  assert (j' = (j + St i') mod 256) as Hj' by (subst j'; rewrite land_255, Hab by done; done). rewrite <- Hj'.
  pose proof (mod_256 (j + St i')) as Hjb. rewrite <- Hj' in Hjb.
  assert (holds_perm a' (swap St i' j')) as Ha' by by apply SWAP_holds. pose proof Ha' as (Hl' & Hab' & Hr').
  cbn [snd]. split_and!; try done; try lia.
  - apply SWAP_perm; lia.
  - rewrite land_255, !Hab' by (done || apply mod_256). done.
Qed.

Lemma arc4_xor_at ctx s src len :
  arc4_at ctx s → (∀ l, src = Some l → length l = len) →
  arc4_at (arc4_xor ctx src len).1 (advance len s) ∧
  (arc4_xor ctx src len).2 = match src with Some l => xor_bytes l (stream len s) | None => [] end.
Proof.
  destruct ctx as [i j a], s as [[i0 j0] St]. intros (Hok & Hi & Hj & Ha) Hsrc. cbn in Hi, Hj, Ha. subst i0 j0.
  unfold arc4_xor. cbn [ctx_i ctx_j state]. revert i j a St src Hsrc Hok Ha.
  induction len as [|len IH]; intros i j a St src Hsrc Hok Ha.
  { destruct src as [l|]; [|done]. specialize (Hsrc l eq_refl). by destruct l. }
  cbn [arc4_xor_loop advance stream].
  destruct Hok as (Hi & Hj & Hp). cbn in Hi, Hj, Hp.
  pose proof (xor_step i j a St Hj Ha) as Hs. cbn zeta in Hs.
  set (i' := Z.land (i + 1) 0xff) in *. set (j' := Z.land (j + byte a (Z.to_nat i')) 0xff) in *. set (a' := SWAP a i' j') in *.
  destruct (prga (i, j, St)) as [s' k]. destruct Hs as (-> & Hi' & Hj' & Ha' & Hp' & Hk). cbn [fst].
  destruct s' as [[? ?] St']. cbn [snd] in *.
  assert (arc4_ok (Arc4_ctx i' j' a')) as Hok'.
  { split; [done|]. split; [done|]. cbn. by rewrite Hp'. }
  destruct src as [src|].
  - specialize (Hsrc src eq_refl). destruct src as [|x src]; [done|]. cbn [drop]. rewrite drop_0, Hk.
    specialize (IH i' j' a' St' (Some src) ltac:(intros ? [= <-]; cbn in Hsrc; lia) Hok' Ha').
    destruct (arc4_xor_loop len i' j' a' (Some src)) as [[[i2 j2] a2] dst].
    cbn [fst snd] in *. destruct IH as [IH1 ->]. split; [exact IH1|reflexivity].
  - exact (IH i' j' a' St' None ltac:(done) Hok' Ha').
Qed.

Lemma length_keystream n s : length (stream n s) = n.
Proof. revert s. induction n as [|n IH]; intros s; [done|]. cbn. destruct (prga s). cbn. by rewrite IH. Qed.

Lemma keystream_app n k s : stream (n + k) s = stream n s ++ stream k (advance n s).
Proof.
  revert s. induction n as [|n IH]; intros s; [done|]. cbn [Nat.add stream advance].
  destruct (prga s) as [s' x]. cbn. by rewrite IH.
Qed.

Lemma advance_add n k s : advance (n + k) s = advance k (advance n s).
Proof. revert s. induction n as [|n IH]; intros s; [done|]. cbn. apply IH. Qed.

(** Encryption of the parts of a message, one call each. *)
Fixpoint arc4_calls (ctx : arc4_ctx) (parts : list bytes) : arc4_ctx * list bytes :=
  match parts with
  | [] => (ctx, [])
  | p :: parts =>
      let '(ctx, out) := arc4_xor ctx (Some p) (length p) in
      let '(ctx, outs) := arc4_calls ctx parts in
      (ctx, out :: outs)
  end.

Lemma arc4_calls_at ctx s parts :
  arc4_at ctx s →
  arc4_at (arc4_calls ctx parts).1 (advance (length (mjoin parts)) s) ∧
  mjoin (arc4_calls ctx parts).2 = xor_bytes (mjoin parts) (stream (length (mjoin parts)) s).
Proof.
  revert ctx s. induction parts as [|p parts IH]; intros ctx s Hc; [done|]. cbn [arc4_calls].
  destruct (arc4_xor_at ctx s (Some p) (length p) Hc) as [Hc' Hout]; [by intros ? [= <-]|].
  destruct (arc4_xor ctx (Some p) (length p)) as [ctx' out]. cbn [fst snd] in *. subst out.
  destruct (IH _ _ Hc') as [Hc'' Hout']. destruct (arc4_calls ctx' parts) as [ctx'' outs]. cbn [fst snd] in *.
  rewrite !mjoin_cons, length_app, advance_add, keystream_app. split; [done|].
  rewrite Hout', zip_with_app by (by rewrite length_keystream). done.
Qed.

(** C31: ARC4 is RC4.  Whatever the context held, after [arc4_setkey] and any calls
    of [arc4_xor] its array is a permutation of the 256 byte values and the indices
    are in range.  A message encrypted in any split into calls is the message xored
    with the RC4 key stream, and [arc4_skip] the message xored with the key stream
    from the given offset on; encrypting twice gives back the message. *)
Theorem arc4_correct ctx ctx' key skip (parts : list bytes) :
  length (state ctx) = 256%nat → length (state ctx') = 256%nat → key ≠ [] →
  let message := mjoin parts in
  let n := length message in
  let run := arc4_calls (arc4_setkey ctx key) parts in
  arc4_ok run.1 ∧ mjoin run.2 = xor_bytes message (rc4_stream key n) ∧
  (arc4_calls (arc4_setkey ctx' key) [mjoin run.2]).2 = [message] ∧
  let skipped := arc4_skip ctx key skip message n in
  skipped = xor_bytes message (drop skip (rc4_stream key (skip + n))) ∧
  arc4_skip ctx' key skip skipped n = message.
Proof.
  intros Hl Hl' _ message n run. pose proof (arc4_setkey_at ctx key Hl) as Hc. pose proof (arc4_setkey_at ctx' key Hl') as Hc'.
  destruct (arc4_calls_at _ _ parts Hc) as [Hrun Hout]. fold run in Hrun, Hout. fold message n in Hout. fold (rc4_stream key n) in Hout.
  split; [apply Hrun|]. split; [exact Hout|].
  assert (∀ c l s, arc4_at (arc4_setkey c key) s → length l = n →
    arc4_skip c key skip l n = xor_bytes l (stream n (advance skip s))) as Hskip.
  { intros c l s Hs Hln. unfold arc4_skip. destruct (arc4_xor_at _ s None skip Hs) as [Hs' _]; [done|].
    destruct (arc4_xor (arc4_setkey c key) None skip) as [c1 out]. cbn [fst] in Hs'.
    by destruct (arc4_xor_at c1 _ (Some l) n Hs') as [_ ->]; [intros ? [= <-]|]. }
  assert (length (xor_bytes message (rc4_stream key n)) = n) as Hn.
  { unfold rc4_stream. rewrite length_zip_with, length_keystream. lia. }
  split; [|split].
  - rewrite Hout. cbn [arc4_calls]. rewrite Hn.
    destruct (arc4_xor_at _ _ (Some (xor_bytes message (rc4_stream key n))) n Hc') as [_ H]; [by intros ? [= <-]|].
    destruct (arc4_xor _ _ _) as [c1 out]. cbn [snd] in *. rewrite H. f_equal.
    apply xor_bytes_cancel. unfold rc4_stream. by rewrite length_keystream.
  - rewrite (Hskip ctx message _ Hc eq_refl). unfold rc4_stream.
    rewrite keystream_app, drop_app_length' by (by rewrite length_keystream). done.
  - rewrite (Hskip ctx message _ Hc eq_refl). rewrite (Hskip ctx' _ _ Hc') by (rewrite length_zip_with, length_keystream; lia).
    apply xor_bytes_cancel. by rewrite length_keystream.
Qed.

(** The key stream of the key Key, on the text Plaintext. *)
Lemma arc4_correct_witness :
  let ctx := Arc4_ctx 0 0 (replicate 256 0) in
  mjoin (arc4_calls (arc4_setkey ctx [0x4b; 0x65; 0x79]) [[0x50; 0x6c; 0x61; 0x69]; [0x6e; 0x74; 0x65; 0x78; 0x74]]).2 =
    [0xbb; 0xf3; 0x16; 0xe8; 0xd9; 0x40; 0xaf; 0x0a; 0xd3] ∧
  arc4_ok (arc4_calls (arc4_setkey ctx [0x4b; 0x65; 0x79]) [[0x50; 0x6c; 0x61; 0x69]; [0x6e; 0x74; 0x65; 0x78; 0x74]]).1.
Proof.
  intros ctx. split; [by vm_compute|].
  apply (arc4_correct ctx ctx [0x4b; 0x65; 0x79] 0 [[0x50; 0x6c; 0x61; 0x69]; [0x6e; 0x74; 0x65; 0x78; 0x74]]);
    [done|done|done].
Defined.
