(* ===== verification/RandomNz.v ===== *)
(** * Non-zero random bytes (src/crypto/random_nz.c)

    The Simple Discard Method: random bytes are drawn one at a time, and those
    that are zero are drawn again. *)

From S2P Require Import Prelude.

Section random_nz.
(** rbg_generate for one byte, on the state of the generator. *)
Context {state : Type} (draw : state → res Z * state).

(** [data] is the memory from [bytes] on.  Returns the status, that memory and the
    generator; [None] when out of fuel. *)
Fixpoint get_random_nz (fuel : nat) (data : bytes) (len : nat) (s : state) : option (res unit * bytes * state) :=
  match len, fuel with
  | O, _ => Some (Ok tt, data, s)
  | _, O => None
  | S len', S fuel =>
      (* Generate random byte *)
      match draw s with
      | (Err rc, s) => Some (Err rc, data, s)
      | (Ok byte, s) =>
          (* Move to next byte if this byte is acceptable *)
          if negb (byte =? 0) then
            '(r, rest, s) ← get_random_nz fuel (drop 1 data) len' s; Some (r, byte :: rest, s)
          else get_random_nz fuel (byte :: drop 1 data) len s
      end
  end.

(** The next [n] bytes of a generator that does not fail. *)
Fixpoint draws (n : nat) (s : state) : option bytes :=
  match n with
  | O => Some []
  | S n => match draw s with (Ok byte, s) => cons byte <$> draws n s | _ => None end
  end.

Definition nonzero (bs : bytes) : bytes := filter (λ b, b ≠ 0) bs.

(** As soon as enough of the bytes drawn are not zero, these are the result. *)
Lemma get_random_nz_spec fuel data len s bs :
  draws fuel s = Some bs → (len ≤ length (nonzero bs))%nat →
  ∃ s', get_random_nz fuel data len s = Some (Ok tt, take len (nonzero bs) ++ drop len data, s').
Proof.
  revert data len s bs. induction fuel as [|fuel IH]; intros data len s bs Hd Hn; cbn in Hd.
  { simplify_eq. cbn in Hn. destruct len; [|lia]. by exists s. }
  destruct len as [|len]; [by exists s|]. cbn [get_random_nz].
  destruct (draw s) as [[b|e] s1]; [|done]. apply fmap_Some in Hd as (bs' & Hd & ->).
  unfold nonzero in *. destruct (Z.eqb_spec b 0) as [->|Hb]; cbn [negb].
  - rewrite filter_cons_False in * by auto.
    destruct (IH (0 :: drop 1 data) (S len) s1 bs' Hd) as [s' ->]; [done|]. exists s'. cbn. by rewrite drop_drop.
  - rewrite filter_cons_True in * by done. cbn [length] in Hn.
    destruct (IH (drop 1 data) len s1 bs' Hd) as [s' ->]; [lia|]. exists s'. cbn. by rewrite drop_drop.
Qed.
End random_nz.
