(* ===== verification/Asn1.v ===== *)
(** * ASN.1 encoding (src/crypto/asn1.c, src/include/ipxe/asn1.h)

    Cursors that walk over encoded objects, the readers of primitive values, and
    the builder that encodes objects from the inside out.  The data pointer of a
    cursor is the list of the bytes from there to the end of the memory object it
    points into, so that a cursor may be shorter than what follows it; objects are
    shorter than 2 GiB, so that the length [asn1_start] returns is a positive int. *)

From S2P Require Import Prelude.

(** ** Types *)

Definition ASN1_END : Z := 0x00.
Definition ASN1_BOOLEAN : Z := 0x01.
Definition ASN1_INTEGER : Z := 0x02.
Definition ASN1_BIT_STRING : Z := 0x03.
Definition ASN1_OCTET_STRING : Z := 0x04.
Definition ASN1_NULL : Z := 0x05.
Definition ASN1_OID : Z := 0x06.
Definition ASN1_SEQUENCE : Z := 0x30.
Definition ASN1_ANY : Z := u32 (-1).

Record asn1_cursor : Type := Cursor {
  data : bytes;
  len : Z;
}.

Record asn1_bit_string : Type := Bits {
  bs_data : bytes;
  bs_len : Z;
  bs_unused : Z;
}.

(** ** Cursors *)

(** The tag under the cursor is read whatever the length is: [None] when the cursor is
    at the end of the memory. *)
Definition asn1_type (cursor : asn1_cursor) : option Z := data cursor !! 0%nat.

Definition asn1_invalidate_cursor (_ : asn1_cursor) : asn1_cursor := Cursor [ASN1_END; 0] 0.

(** data++, len-- *)
Definition next (cursor : asn1_cursor) : asn1_cursor := Cursor (drop 1 (data cursor)) (len cursor - 1).

(** for ( len = 0 ; len_len ; len_len-- ) *)
Fixpoint length_loop (len_len : nat) (cursor : asn1_cursor) (length : Z) : asn1_cursor * Z :=
  match len_len with
  | O => (cursor, length)
  | S len_len =>
      let length := u32 (Z.shiftl length 8) in
      let length := Z.lor length (byte (data cursor) 0) in
      length_loop len_len (next cursor) length
  end.

Definition asn1_start (cursor : asn1_cursor) (type : Z) : asn1_cursor * res Z :=
  (* Sanity check *)
  if len cursor <? 2 then (cursor, Err EINVAL)
  (* Check the tag byte *)
  else if negb (type =? ASN1_ANY) && negb (type =? default 0 (asn1_type cursor)) then (cursor, Err ENXIO)
  else
    let cursor := next cursor in
    (* Extract length of the length field and sanity check *)
    let len_len := byte (data cursor) 0 in
    let '(cursor, len_len) :=
      if negb (Z.land len_len 0x80 =? 0) then (next cursor, Z.land len_len 0x7f)
      else (cursor, 1) in
    if len cursor <? len_len then (cursor, Err EINVAL)
    else
      (* Extract the length and sanity check *)
      let '(cursor, length) := length_loop (Z.to_nat len_len) cursor 0 in
      if len cursor <? length then (cursor, Err EINVAL)
      else (cursor, Ok length).

Definition asn1_enter (cursor : asn1_cursor) (type : Z) : asn1_cursor * res unit :=
  match asn1_start cursor type with
  | (cursor, Err e) => (asn1_invalidate_cursor cursor, Err e)
  | (cursor, Ok length) => (Cursor (data cursor) length, Ok tt)
  end.

Definition asn1_skip_if_exists (cursor : asn1_cursor) (type : Z) : asn1_cursor * res unit :=
  match asn1_start cursor type with
  | (cursor, Err e) => (cursor, Err e)
  | (cursor, Ok length) =>
      let cursor := Cursor (drop (Z.to_nat length) (data cursor)) (len cursor - length) in
      if len cursor =? 0 then (cursor, Err ENOENT) else (cursor, Ok tt)
  end.

Definition asn1_skip (cursor : asn1_cursor) (type : Z) : asn1_cursor * res unit :=
  match asn1_skip_if_exists cursor type with
  | (cursor, Err e) => (asn1_invalidate_cursor cursor, Err e)
  | (cursor, Ok _) => (cursor, Ok tt)
  end.

(** [end - cursor->data] is the distance between two pointers into the same object. *)
Definition asn1_shrink (cursor : asn1_cursor) (type : Z) : asn1_cursor * res unit :=
  match asn1_start cursor type with
  | (_, Err e) => (asn1_invalidate_cursor cursor, Err e)
  | (temp, Ok length) => (Cursor (data cursor) (Zlen (data cursor) - Zlen (data temp) + length), Ok tt)
  end.

Definition asn1_enter_any (cursor : asn1_cursor) : asn1_cursor * res unit := asn1_enter cursor ASN1_ANY.
Definition asn1_skip_any (cursor : asn1_cursor) : asn1_cursor * res unit := asn1_skip cursor ASN1_ANY.
Definition asn1_shrink_any (cursor : asn1_cursor) : asn1_cursor * res unit := asn1_shrink cursor ASN1_ANY.

(** ** Primitive values *)

Definition asn1_boolean (cursor : asn1_cursor) : res Z :=
  let '(contents, _) := asn1_enter cursor ASN1_BOOLEAN in
  if negb (len contents =? 1) then Err EINVAL else Ok (byte (data contents) 0).

(** while ( contents.len ): [n] bytes are left. *)
Fixpoint integer_loop (n : nat) (data : bytes) (value : Z) : res Z :=
  match n with
  | O => Ok value
  | S n =>
      let high_byte := u8 (Z.shiftr value 24) in
      if negb (high_byte =? 0x00) && negb (high_byte =? 0xff) then Err EINVAL
      else
        let value := s32 (Z.lor (Z.shiftl value 8) (byte data 0)) in
        integer_loop n (drop 1 data) value
  end.

Definition asn1_integer (cursor : asn1_cursor) : res Z :=
  match asn1_enter cursor ASN1_INTEGER with
  | (_, Err e) => Err e
  | (contents, Ok _) =>
      if len contents <? 1 then Err EINVAL
      else
        (* Initialise value according to sign byte *)
        let value := swrap 8 (byte (data contents) 0) in
        let contents := next contents in
        (* Process value *)
        integer_loop (Z.to_nat (len contents)) (data contents) value
  end.

(** [last] is the byte before the end of the string: for an empty string, the
    byte that counts the unused bits. *)
Definition asn1_bit_string_parse (cursor : asn1_cursor) : res asn1_bit_string :=
  match asn1_enter cursor ASN1_BIT_STRING with
  | (_, Err e) => Err e
  | (contents, Ok _) =>
      (* Validity checks *)
      if len contents <? 1 then Err EINVAL
      else
        let length := len contents - 1 in
        let unused := byte (data contents) 0 in
        let unused_mask := u8 (Z.shiftr 0xff (8 - unused)) in
        let last := byte (data contents) (Z.to_nat length) in
        if (8 <=? unused) || ((0 <? unused) && (length =? 0)) || negb (Z.land last unused_mask =? 0) then Err EINVAL
        else Ok (Bits (drop 1 (data contents)) length unused)
  end.

Definition asn1_integral_bit_string (cursor : asn1_cursor) : res asn1_bit_string :=
  bits ← asn1_bit_string_parse cursor;
  if negb (bs_unused bits =? 0) then Err EINVAL else Ok bits.

(** memcmp of src/core/string.c: the difference of the first bytes that differ. *)
Fixpoint memcmp (cs ct : bytes) (count : nat) : Z :=
  match count with
  | O => 0
  | S count =>
      let res := byte cs 0 - byte ct 0 in
      if negb (res =? 0) then res else memcmp (drop 1 cs) (drop 1 ct) count
  end.

Definition asn1_compare (cursor1 cursor2 : asn1_cursor) : Z :=
  let difference := s32 (len cursor2 - len cursor1) in
  if negb (difference =? 0) then difference
  else memcmp (data cursor1) (data cursor2) (Z.to_nat (len cursor1)).

(** ** Algorithms *)

(** The digest and public-key algorithms an object identifier can name. *)
Inductive digest_id : Set := MD5 | SHA1 | SHA256.
Inductive pubkey_id : Set := RSA.

#[export] Instance digest_id_eq_dec : EqDecision digest_id.
Proof. solve_decision. Defined.

Record asn1_algorithm : Type := Algorithm {
  a_oid : bytes;
  a_pubkey : option pubkey_id;
  a_digest : option digest_id;
}.

Definition ASN1_OID_INITIAL (first second : Z) : bytes := [first * 40 + second].
Definition ASN1_OID_SINGLE (value : Z) : bytes := [Z.land value 0x7f].
Definition ASN1_OID_DOUBLE (value : Z) : bytes :=
  Z.lor 0x80 (Z.land (Z.shiftr value 7) 0x7f) :: ASN1_OID_SINGLE value.
Definition ASN1_OID_TRIPLE (value : Z) : bytes :=
  Z.lor 0x80 (Z.land (Z.shiftr value 14) 0x7f) :: ASN1_OID_DOUBLE value.

(** 1.2.840.113549, the arc of RSA Data Security. *)
Definition OID_RSADSI : bytes := ASN1_OID_INITIAL 1 2 ++ ASN1_OID_DOUBLE 840 ++ ASN1_OID_TRIPLE 113549.
Definition ASN1_OID_RSAENCRYPTION : bytes := OID_RSADSI ++ mjoin (ASN1_OID_SINGLE <$> [1; 1; 1]).
Definition ASN1_OID_MD5WITHRSAENCRYPTION : bytes := OID_RSADSI ++ mjoin (ASN1_OID_SINGLE <$> [1; 1; 4]).
Definition ASN1_OID_SHA1WITHRSAENCRYPTION : bytes := OID_RSADSI ++ mjoin (ASN1_OID_SINGLE <$> [1; 1; 5]).
Definition ASN1_OID_SHA256WITHRSAENCRYPTION : bytes := OID_RSADSI ++ mjoin (ASN1_OID_SINGLE <$> [1; 1; 11]).
Definition ASN1_OID_MD5 : bytes := OID_RSADSI ++ mjoin (ASN1_OID_SINGLE <$> [2; 5]).
Definition ASN1_OID_SHA1 : bytes := ASN1_OID_INITIAL 1 3 ++ mjoin (ASN1_OID_SINGLE <$> [14; 3; 2; 26]).
Definition ASN1_OID_SHA256 : bytes :=
  ASN1_OID_INITIAL 2 16 ++ ASN1_OID_DOUBLE 840 ++ mjoin (ASN1_OID_SINGLE <$> [1; 101; 3; 4; 2; 1]).

(** The linker table of algorithms (rsa.c, md5.c, sha1.c, sha256.c). *)
Definition ASN1_ALGORITHMS : list asn1_algorithm := [
  Algorithm ASN1_OID_RSAENCRYPTION (Some RSA) None;
  Algorithm ASN1_OID_MD5WITHRSAENCRYPTION (Some RSA) (Some MD5);
  Algorithm ASN1_OID_SHA1WITHRSAENCRYPTION (Some RSA) (Some SHA1);
  Algorithm ASN1_OID_SHA256WITHRSAENCRYPTION (Some RSA) (Some SHA256);
  Algorithm ASN1_OID_MD5 None (Some MD5);
  Algorithm ASN1_OID_SHA1 None (Some SHA1);
  Algorithm ASN1_OID_SHA256 None (Some SHA256) ].

Definition asn1_find_algorithm (cursor : asn1_cursor) : option asn1_algorithm :=
  snd <$> list_find (λ algorithm, asn1_compare (Cursor (a_oid algorithm) (Zlen (a_oid algorithm))) cursor = 0) ASN1_ALGORITHMS.

Definition asn1_algorithm_parse (cursor : asn1_cursor) : res asn1_algorithm :=
  (* Enter signatureAlgorithm *)
  let '(contents, _) := asn1_enter cursor ASN1_SEQUENCE in
  (* Enter algorithm *)
  match asn1_enter contents ASN1_OID with
  | (_, Err _) => Err EINVAL
  | (contents, Ok _) =>
      (* Identify algorithm *)
      match asn1_find_algorithm contents with
      | Some algorithm => Ok algorithm
      | None => Err ENOTSUP
      end
  end.

Definition asn1_pubkey_algorithm (cursor : asn1_cursor) : res asn1_algorithm :=
  algorithm ← asn1_algorithm_parse cursor;
  match a_pubkey algorithm with None => Err ENOTTY | Some _ => Ok algorithm end.

Definition asn1_digest_algorithm (cursor : asn1_cursor) : res asn1_algorithm :=
  algorithm ← asn1_algorithm_parse cursor;
  match a_digest algorithm with None => Err ENOTTY | Some _ => Ok algorithm end.

Definition asn1_signature_algorithm (cursor : asn1_cursor) : res asn1_algorithm :=
  algorithm ← asn1_algorithm_parse cursor;
  match a_pubkey algorithm with
  | None => Err ENOTTY
  | Some _ => match a_digest algorithm with None => Err ENOTTY | Some _ => Ok algorithm end
  end.

(** ** Builder *)

(** [None] is a NULL pointer. *)
Record asn1_builder : Type := Builder {
  b_data : option bytes;
  b_len : Z;
}.

Section builder.
Context `{Platform}.

(** for ( temp = len ; temp ; temp >>= 8 ): the bytes of the length, least
    significant first; as many as [size_t] has suffice. *)
Fixpoint length_bytes (fuel : nat) (temp : Z) : bytes :=
  match fuel with
  | O => []
  | S fuel => if temp =? 0 then [] else Z.land temp 0xff :: length_bytes fuel (Z.shiftr temp 8)
  end.

(** The header as far as it is used. *)
Definition asn1_header (type length : Z) : bytes :=
  if length <? 0x80 then [u8 type; u8 length]
  else
    let bs := length_bytes (Z.to_nat sizeof_ptr) length in
    [u8 type; Z.lor 0x80 (Zlen bs)] ++ rev bs.

(** [alloc] is whether realloc succeeds.  The bytes a grown buffer gains at its
    front are whatever memory held: [fill]. *)
Definition asn1_grow (alloc : bool) (fill : nat → Z) (builder : asn1_builder) (extra : Z) : asn1_builder * res unit :=
  (* As with the ASN1 parsing functions, make errors permanent *)
  if negb (b_len builder =? 0) && negb (bool_decide (is_Some (b_data builder))) then (builder, Err ENOMEM)
  (* Reallocate data buffer *)
  else if negb alloc then (Builder None (b_len builder), Err ENOMEM)
  (* Move existing data to end of buffer *)
  else (Builder (Some ((fill <$> seq 0 (Z.to_nat extra)) ++ default [] (b_data builder))) (usize (b_len builder + extra)), Ok tt).

(** memcpy into the buffer. *)
Definition fill_at (builder : asn1_builder) (offset : nat) (bs : bytes) : asn1_builder :=
  Builder ((λ data, store data offset bs) <$> b_data builder) (b_len builder).

Definition asn1_prepend_raw (alloc : bool) (fill : nat → Z) (builder : asn1_builder) (bs : bytes) : asn1_builder * res unit :=
  match asn1_grow alloc fill builder (Zlen bs) with
  | (builder, Err e) => (builder, Err e)
  | (builder, Ok _) => (fill_at builder 0 bs, Ok tt)
  end.

Definition asn1_prepend (alloc : bool) (fill : nat → Z) (builder : asn1_builder) (type : Z) (bs : bytes) : asn1_builder * res unit :=
  let header := asn1_header type (Zlen bs) in
  match asn1_grow alloc fill builder (Zlen header + Zlen bs) with
  | (builder, Err e) => (builder, Err e)
  | (builder, Ok _) => (fill_at (fill_at builder 0 header) (length header) bs, Ok tt)
  end.

Definition asn1_wrap (alloc : bool) (fill : nat → Z) (builder : asn1_builder) (type : Z) : asn1_builder * res unit :=
  let header := asn1_header type (b_len builder) in
  match asn1_grow alloc fill builder (Zlen header) with
  | (builder, Err e) => (builder, Err e)
  | (builder, Ok _) => (fill_at builder 0 header, Ok tt)
  end.
End builder.

(** ** Cursors stay inside their object *)

(** A cursor over bytes of memory, none of them beyond the end. *)
Definition cursor_ok (c : asn1_cursor) : Prop :=
  0 ≤ len c ≤ Zlen (data c) ∧ len c < 2 ^ 31 ∧ is_bytes (data c).

#[export] Instance cursor_ok_dec c : Decision (cursor_ok c).
Proof. unfold cursor_ok. apply _. Defined.

(** [c'] is [c] moved forward by [k] bytes. *)
Definition moved (k : nat) (c c' : asn1_cursor) : Prop :=
  data c' = drop k (data c) ∧ len c' = len c - Z.of_nat k ∧ Z.of_nat k ≤ len c.

Lemma moved_0 c : 0 ≤ len c → moved 0 c c.
Proof. intros. unfold moved. rewrite drop_0. split_and!; [done|lia|lia]. Qed.
Lemma moved_next c : 1 ≤ len c → moved 1 c (next c).
Proof. intros. split_and!; [done|done|lia]. Qed.
Lemma moved_trans k l c c' c'' : moved k c c' → moved l c' c'' → moved (k + l) c c''.
Proof.
  intros (Hd & Hl & Hk) (Hd' & Hl' & Hk'). split_and!; [|lia..]. by rewrite Hd', Hd, drop_drop.
Qed.
Lemma moved_ok k c c' : cursor_ok c → moved k c c' → cursor_ok c'.
Proof.
  intros (Hl & Hs & Hb) (Hd & Hl' & Hk). split_and!; [lia|rewrite Hd, length_drop; lia|lia|].
  rewrite Hd. by apply Forall_drop.
Qed.

Lemma length_loop_moved n c length :
  cursor_ok c → Z.of_nat n ≤ len c → 0 ≤ length →
  moved n c (length_loop n c length).1 ∧ 0 ≤ (length_loop n c length).2.
Proof.
  revert c length. induction n as [|n IH]; intros c length Hc Hn Hl.
  { split; [apply moved_0; apply Hc|done]. }
  cbn [length_loop]. assert (moved 1 c (next c)) as Hm by (apply moved_next; lia).
  destruct (IH (next c) (Z.lor (u32 (Z.shiftl length 8)) (byte (data c) 0))) as [H1 H2].
  - by eapply moved_ok.
  - cbn. lia.
  - apply Z.lor_nonneg. split; [apply wrap_range; lia|apply byte_range, Hc].
  - split; [|done]. change (S n) with (1 + n)%nat. by eapply moved_trans.
Qed.

Lemma asn1_start_moved c type :
  cursor_ok c →
  ∃ k, moved k c (asn1_start c type).1 ∧
    match (asn1_start c type).2 with
    | Ok length => (2 ≤ k)%nat ∧ 0 ≤ length ≤ len (asn1_start c type).1
    | Err e => e = EINVAL ∨ e = ENXIO
    end.
Proof.
  intros Hc. unfold asn1_start. pose proof Hc as (Hl & _ & Hb).
  destruct (Z.ltb_spec (len c) 2); [exists 0%nat; split; [apply (moved_0 c); lia|by left]|].
  destruct (negb _ && negb _); [exists 0%nat; split; [apply (moved_0 c); lia|by right]|].
  assert (moved 1 c (next c)) as Hm by (apply moved_next; lia).
  pose proof (moved_ok _ _ _ Hc Hm) as Hc1. set (b := byte _ 0). assert (is_byte b) as Hbb by apply byte_range, Hc1.
  assert (∃ k1 c1 n, (if negb (Z.land b 0x80 =? 0) then (next (next c), Z.land b 0x7f) else (next c, 1)) = (c1, n) ∧
    moved (S k1) c c1 ∧ 0 ≤ n ∧ (1 ≤ n ∨ (1 ≤ k1)%nat)) as (k1 & c1 & n & -> & Hm1 & Hn & Hkn).
  { destruct (negb _).
    - exists 1%nat, (next (next c)), (Z.land b 0x7f). split; [done|]. split; [|split; [apply Z.land_nonneg; lia|lia]].
      apply (moved_trans 1 1 c (next c)); [done|]. apply moved_next. cbn. lia.
    - exists 0%nat, (next c), 1. split; [done|]. split; [done|lia]. }
  pose proof (moved_ok _ _ _ Hc Hm1) as Hc2.
  destruct (Z.ltb_spec (len c1) n); [exists (S k1); split; [done|by left]|].
  destruct (length_loop_moved (Z.to_nat n) c1 0) as [Hm2 Hnn]; [done|lia|lia|].
  destruct (length_loop (Z.to_nat n) c1 0) as [c2 length]. cbn [fst snd] in *.
  exists (S k1 + Z.to_nat n)%nat. pose proof (moved_trans _ _ _ _ _ Hm1 Hm2) as Hm3.
  destruct (Z.ltb_spec (len c2) length); (split; [done|]); [by left|]. cbn. split; lia.
Qed.

(** The operations that move a cursor. *)
Inductive asn1_op : Set := Enter (type : Z) | Skip (type : Z) | Skip_if_exists (type : Z) | Shrink (type : Z).

Definition asn1_do (op : asn1_op) (c : asn1_cursor) : asn1_cursor * res unit :=
  match op with
  | Enter type => asn1_enter c type
  | Skip type => asn1_skip c type
  | Skip_if_exists type => asn1_skip_if_exists c type
  | Shrink type => asn1_shrink c type
  end.

Definition invalid : asn1_cursor := Cursor [ASN1_END; 0] 0.

(** [c'] covers part of what [c] covers, or is the invalid cursor. *)
Definition within (c c' : asn1_cursor) : Prop :=
  c' = invalid ∨ ∃ k, data c' = drop k (data c) ∧ 0 ≤ len c' ∧ Z.of_nat k + len c' ≤ len c.

Lemma invalid_ok : cursor_ok invalid.
Proof. by_decide. Qed.

Lemma within_ok c c' : cursor_ok c → within c c' → cursor_ok c'.
Proof.
  intros (Hl & Hs & Hb) [->|(k & Hd & Hl' & Hk)]; [apply invalid_ok|].
  split_and!; [done|rewrite Hd, length_drop; lia|lia|]. rewrite Hd. by apply Forall_drop.
Qed.

Lemma within_trans c c' c'' : within c c' → within c' c'' → within c c''.
Proof.
  intros [->|(k & Hd & Hl & Hk)] [->|(k' & Hd' & Hl' & Hk')]; try (by left).
  - cbn in *. assert (k' = 0%nat ∧ len c'' = 0) as [-> Hz] by (split; lia).
    left. destruct c''. cbn in *. by rewrite Hd', Hz.
  - right. exists (k + k')%nat. split_and!; [|lia..]. by rewrite Hd', Hd, drop_drop.
Qed.

Lemma asn1_do_within op c : cursor_ok c → within c (asn1_do op c).1.
Proof.
  intros Hc. pose proof Hc as (Hl & _ & _).
  destruct op as [type|type|type|type]; cbn [asn1_do]; destruct (asn1_start_moved c type Hc) as (k & Hm & Hr);
    unfold asn1_enter, asn1_skip, asn1_skip_if_exists, asn1_shrink;
    destruct (asn1_start c type) as [c' [length|e]]; cbn [fst snd] in *; destruct Hm as (Hd & Hl' & Hk).
  - right. exists k. cbn. split_and!; [done|lia..].
  - by left.
  - destruct (_ =? 0); cbn [fst]; [by left|]. right. exists (k + Z.to_nat length)%nat. cbn.
    split_and!; [by rewrite Hd, drop_drop|lia..].
  - by left.
  - destruct (_ =? 0); cbn [fst]; right; exists (k + Z.to_nat length)%nat; cbn;
      (split_and!; [by rewrite Hd, drop_drop|lia..]).
  - right. exists k. split_and!; [done|lia..].
  - right. exists 0%nat. rewrite drop_0. cbn. rewrite Hd, length_drop. split_and!; [done|lia..].
  - by left.
Qed.

(** An operation that fails on a cursor leaves one on which all operations fail;
    only [asn1_skip_if_exists] leaves the cursor where parsing stopped. *)
Lemma asn1_do_invalid op : (asn1_do op invalid).1 = invalid ∧ (asn1_do op invalid).2 = Err EINVAL.
Proof. by destruct op. Qed.

Lemma asn1_do_error op c e :
  (asn1_do op c).2 = Err e → (asn1_do op c).1 = invalid ∨ ∃ type, op = Skip_if_exists type.
Proof.
  destruct op as [type|type|type|type]; cbn [asn1_do]; intros He; [left|left|by right; exists type|left];
    unfold asn1_enter, asn1_skip, asn1_shrink in *; by repeat case_match.
Qed.

(** ** Encoding *)

(** ** Only the bytes a cursor covers are read *)

(** The same cursor with [x] following the memory object. *)
Definition extend (x : bytes) (c : asn1_cursor) : asn1_cursor := Cursor (data c ++ x) (len c).

Lemma byte_extend x c : cursor_ok c → 1 ≤ len c → byte (data (extend x c)) 0 = byte (data c) 0.
Proof. intros (Hl & _ & _) Hn. unfold byte. cbn. by rewrite lookup_app_l by lia. Qed.

Lemma next_extend x c : cursor_ok c → 1 ≤ len c → next (extend x c) = extend x (next c).
Proof. intros (Hl & _ & _) Hn. unfold next, extend. cbn. by rewrite drop_app_le by lia. Qed.

Lemma next_ok c : cursor_ok c → 1 ≤ len c → cursor_ok (next c).
Proof. intros Hc Hn. eapply moved_ok; [done|by apply moved_next]. Qed.

Lemma length_loop_extend x n c length :
  cursor_ok c → Z.of_nat n ≤ len c →
  length_loop n (extend x c) length = (extend x (length_loop n c length).1, (length_loop n c length).2).
Proof.
  revert c length. induction n as [|n IH]; intros c length Hc Hn; [done|]. cbn [length_loop].
  rewrite byte_extend, next_extend by (done || lia). apply IH; [apply next_ok; [done|lia]|cbn; lia].
Qed.

Lemma asn1_start_extend x c type :
  cursor_ok c → asn1_start (extend x c) type = (extend x (asn1_start c type).1, (asn1_start c type).2).
Proof.
  intros Hc. unfold asn1_start. change (len (extend x c)) with (len c).
  destruct (Z.ltb_spec (len c) 2); [done|]. unfold asn1_type.
  change (default 0 (data (extend x c) !! 0%nat)) with (byte (data (extend x c)) 0).
  change (default 0 (data c !! 0%nat)) with (byte (data c) 0). rewrite byte_extend, next_extend by (done || lia).
  destruct (negb _ && negb _); [done|]. assert (cursor_ok (next c)) as Hc1 by (apply next_ok; [done|lia]).
  assert (1 ≤ len (next c)) by (cbn; lia). rewrite byte_extend, next_extend by done.
  set (b := byte _ 0). assert (is_byte b) as Hb by apply byte_range, Hc1.
  set (long := negb _). set (c1 := if long then next (next c) else next c).
  set (n := if long then Z.land b 0x7f else 1).
  replace (if long then _ else (extend x (next c), 1)) with (extend x c1, n) by (by subst c1 n; destruct long).
  replace (if long then _ else (next c, 1)) with (c1, n) by (by subst c1 n; destruct long).
  assert (cursor_ok c1) by (subst c1; destruct long; [by apply next_ok|done]).
  assert (0 ≤ n) by (subst n; destruct long; [apply Z.land_nonneg; lia|lia]).
  change (len (extend x c1)) with (len c1). destruct (Z.ltb_spec (len c1) n); [done|].
  rewrite length_loop_extend by (done || lia). destruct (length_loop _ c1 0) as [c2 length]. cbn [fst snd].
  change (len (extend x c2)) with (len c2). by destruct (len c2 <? length).
Qed.

(** The operation at an extended cursor: the same result, and the cursor
    extended unless it is invalid. *)
Lemma asn1_do_extend x op c :
  cursor_ok c →
  (asn1_do op (extend x c)).2 = (asn1_do op c).2 ∧
  ((asn1_do op (extend x c)).1 = extend x (asn1_do op c).1 ∨
   (asn1_do op (extend x c)).1 = invalid ∧ (asn1_do op c).1 = invalid).
Proof.
  intros Hc. destruct op as [type|type|type|type]; cbn [asn1_do]; destruct (asn1_start_moved c type Hc) as (k & Hm & Hr);
    unfold asn1_enter, asn1_skip, asn1_skip_if_exists, asn1_shrink; rewrite asn1_start_extend by done;
    destruct (asn1_start c type) as [c' [length|e]]; cbn [fst snd] in *; try (split; [done|auto; fail]);
    pose proof (moved_ok _ _ _ Hc Hm) as (Hl' & _ & _); destruct Hm as (Hd & _ & _).
  1,2: cbn; rewrite drop_app_le by lia; by destruct (_ =? 0); cbn; split; auto.
  split; [done|]. left. unfold extend. cbn. rewrite !length_app. f_equal. lia.
Qed.

(** Operations in a row. *)
Fixpoint asn1_walk (ops : list asn1_op) (c : asn1_cursor) : asn1_cursor * list (res unit) :=
  match ops with
  | [] => (c, [])
  | op :: ops =>
      let '(c, rc) := asn1_do op c in
      let '(c, rcs) := asn1_walk ops c in (c, rc :: rcs)
  end.

Lemma asn1_walk_within ops c : cursor_ok c → within c (asn1_walk ops c).1.
Proof.
  revert c. induction ops as [|op ops IH]; intros c Hc.
  { right. exists 0%nat. cbn. rewrite drop_0. split_and!; [done|apply Hc|lia]. }
  pose proof (asn1_do_within op c Hc) as Hw. cbn. destruct (asn1_do op c) as [c1 rc]. cbn in Hw.
  specialize (IH c1 (within_ok _ _ Hc Hw)). destruct (asn1_walk ops c1) as [c2 rcs]. by eapply within_trans.
Qed.

Lemma asn1_walk_invalid ops : asn1_walk ops invalid = (invalid, replicate (length ops) (Err EINVAL)).
Proof.
  induction ops as [|op ops IH]; [done|]. cbn. destruct (asn1_do_invalid op) as [H1 H2].
  destruct (asn1_do op invalid) as [c rc]. cbn in *. subst. by rewrite IH.
Qed.

Lemma asn1_walk_extend x ops c : cursor_ok c → (asn1_walk ops (extend x c)).2 = (asn1_walk ops c).2.
Proof.
  revert c. induction ops as [|op ops IH]; intros c Hc; [done|]. cbn.
  destruct (asn1_do_extend x op c Hc) as [Hr Hd]. pose proof (asn1_do_within op c Hc) as Hw.
  destruct (asn1_do op c) as [c1 rc], (asn1_do op (extend x c)) as [c1' rc']. cbn in *. subst rc'.
  destruct Hd as [->|[-> ->]]; [|done].
  specialize (IH c1 (within_ok _ _ Hc Hw)).
  destruct (asn1_walk ops (extend x c1)), (asn1_walk ops c1). cbn in *. by subst.
Qed.

Lemma asn1_walk_error ops c i op e :
  ops !! i = Some op → (asn1_walk ops c).2 !! i = Some (Err e) → (∀ type, op ≠ Skip_if_exists type) →
  (asn1_walk ops c).1 = invalid ∧ drop (S i) (asn1_walk ops c).2 = replicate (length ops - S i) (Err EINVAL).
Proof.
  revert c i. induction ops as [|op' ops IH]; intros c i Hi Hr Hne; [done|]. cbn in *.
  pose proof (asn1_do_error op' c) as He. destruct (asn1_do op' c) as [c1 rc].
  destruct i as [|i]; cbn in *.
  - simplify_eq. destruct (asn1_walk ops c1) as [c2 rcs] eqn:Hw. cbn in *. simplify_eq.
    destruct (He e eq_refl) as [->|[type ->]]; [|by destruct (Hne type)].
    rewrite asn1_walk_invalid in Hw. simplify_eq. by rewrite drop_0, Nat.sub_0_r.
  - specialize (IH c1 i Hi). destruct (asn1_walk ops c1) as [c2 rcs]. by apply IH.
Qed.

(** ** Lengths *)

(** The number bytes stand for, most significant first, after [acc]. *)
Definition be_acc (acc : Z) (bs : bytes) : Z := foldl (λ a b, a * 256 + b) acc bs.

Lemma be_acc_mono acc bs : 0 ≤ acc → is_bytes bs → acc ≤ be_acc acc bs.
Proof.
  unfold be_acc. intros Hacc Hb. revert acc Hacc. induction Hb as [|b bs Hb _ IH]; intros acc Hacc; [done|].
  unfold in_range in Hb. cbn. specialize (IH (acc * 256 + b)). lia.
Qed.

Lemma be_acc_combine acc bs : be_acc acc bs = acc * 256 ^ Zlen bs + be_combine bs.
Proof.
  unfold be_acc, be_combine. revert acc. induction bs as [|b bs IH] using rev_ind; intros acc; [cbn; lia|].
  rewrite foldl_app, length_app, rev_app_distr. cbn [foldl rev app le_combine length].
  rewrite IH. replace (Z.of_nat (length bs + 1)) with (Z.succ (Zlen bs)) by lia. rewrite Z.pow_succ_r by lia. lia.
Qed.

Lemma length_loop_value bs X L acc :
  is_bytes bs → 0 ≤ acc → be_acc acc bs < 2 ^ 32 →
  length_loop (length bs) (Cursor (bs ++ X) L) acc = (Cursor X (L - Zlen bs), be_acc acc bs).
Proof.
  intros Hb. revert L acc. induction Hb as [|b bs Hb Hbs IH]; intros L acc Hacc Hv.
  { cbn. by rewrite Z.sub_0_r. }
  cbn [length length_loop be_acc foldl app] in *. unfold in_range in Hb.
  pose proof (be_acc_mono (acc * 256 + b) bs ltac:(lia) Hbs) as Hm. unfold be_acc in Hm.
  unfold next. cbn [data len drop]. change (byte (b :: bs ++ X) 0) with b. rewrite drop_0.
  assert (Z.lor (u32 (Z.shiftl acc 8)) b = acc * 256 + b) as ->.
  { rewrite Z.shiftl_mul_pow2, wrap_small by (unfold in_range; lia). rewrite <- Z.shiftl_mul_pow2 by lia.
    rewrite Z.lor_comm, lor_shift by lia. lia. }
  rewrite IH by (unfold be_acc; lia). unfold be_acc. do 2 f_equal. lia.
Qed.

Lemma length_bytes_spec fuel n :
  0 ≤ n < 256 ^ Z.of_nat fuel →
  le_combine (length_bytes fuel n) = n ∧ is_bytes (length_bytes fuel n) ∧ (length (length_bytes fuel n) ≤ fuel)%nat.
Proof.
  revert n. induction fuel as [|fuel IH]; intros n Hn; [cbn in *; split_and!; [lia|constructor|lia]|].
  cbn [length_bytes]. destruct (Z.eqb_spec n 0) as [->|Hz]; [split_and!; [done|constructor|cbn; lia]|].
  rewrite Nat2Z.inj_succ, Z.pow_succ_r in Hn by lia.
  change 0xff with (2 ^ 8 - 1). rewrite land_mask, Z.shiftr_div_pow2 by lia. change (2 ^ 8) with 256.
  destruct (IH (n / 256)) as (H1 & H2 & H3); [split; [apply Z.div_pos; lia|apply Z.div_lt_upper_bound; lia]|].
  cbn [le_combine length]. rewrite H1. split_and!; [|constructor; [|done]|lia].
  - pose proof (Z.div_mod n 256). lia.
  - unfold in_range. apply Z.mod_pos_bound. lia.
Qed.

Section encoding.
Context `{Platform}.

(** The encoding of an object. *)
Definition encode (type : Z) (body : bytes) : bytes := asn1_header type (Zlen body) ++ body.

Lemma length_fits n : 0 ≤ n < 2 ^ 31 → 0 ≤ n < 256 ^ Z.of_nat (Z.to_nat sizeof_ptr).
Proof.
  rewrite Z2Nat.id by (pose proof sizeof_ptr_pos; lia). destruct sizeof_ptr_ok as [-> | ->];
    [change (256 ^ 4) with (2 ^ 32)|change (256 ^ 8) with (2 ^ 64)]; lia.
Qed.

Lemma is_bytes_header type n : 0 ≤ n < 2 ^ 31 → is_bytes (asn1_header type n).
Proof.
  intros Hn. unfold asn1_header. assert (is_byte (u8 type)) by (apply wrap_range; lia).
  destruct (Z.ltb_spec n 0x80); [apply Forall_cons; split; [done|apply Forall_singleton, wrap_range; lia]|].
  destruct (length_bytes_spec (Z.to_nat sizeof_ptr) n) as (_ & Hb & Hl); [by apply length_fits|].
  set (bs := length_bytes _ n) in *. apply Forall_app. split; [|by apply Forall_rev].
  apply Forall_cons. split; [done|apply Forall_singleton]. assert (Zlen bs < 2 ^ 7) by (pose proof sizeof_ptr_ok; lia).
  change 0x80 with (Z.shiftl 1 7). rewrite Z.lor_comm, lor_shift by lia. unfold in_range. lia.
Qed.

Lemma byte_head x l : byte (x :: l) 0 = x.
Proof. done. Qed.

Lemma header_head type n : asn1_header type n !! 0%nat = Some (u8 type).
Proof. unfold asn1_header. by destruct (n <? 0x80). Qed.

Lemma header_length type n : (2 ≤ length (asn1_header type n))%nat.
Proof. unfold asn1_header. destruct (n <? 0x80); cbn; [lia|]. lia. Qed.

Lemma header_type type n rest L : in_range 8 type → asn1_type (Cursor (asn1_header type n ++ rest) L) = Some type.
Proof.
  intros Ht. unfold asn1_type. cbn [data]. pose proof (header_length type n). rewrite lookup_app_l by lia.
  rewrite header_head. f_equal. by apply wrap_small.
Qed.

Lemma encode_type type body rest L : in_range 8 type → asn1_type (Cursor (encode type body ++ rest) L) = Some type.
Proof. unfold encode. rewrite <- app_assoc. apply header_type. Qed.

(** Short lengths, and the marker of long ones. *)
Lemma short_marker n : 0 ≤ n < 2 ^ 7 → Z.land n 0x80 = 0.
Proof.
  intros Hn. apply Z.bits_inj'. intros i Hi. rewrite Z.land_spec, Z.bits_0. change 0x80 with (2 ^ 7).
  destruct (Z.eqb_spec i 7) as [->|Hne]; [|rewrite Z.pow2_bits_false by lia; apply andb_false_r].
  assert (Z.testbit n 7 = false) as ->; [|done]. apply Z.testbit_false; [lia|]. by rewrite Z.div_small by lia.
Qed.

Lemma long_marker k : 0 ≤ k < 2 ^ 7 → (Z.land (Z.lor 0x80 k) 0x80 =? 0) = false ∧ Z.land (Z.lor 0x80 k) 0x7f = k.
Proof.
  intros Hk. change 0x80 with (Z.shiftl 1 7) at 1 3. rewrite Z.lor_comm, lor_shift by lia. split.
  - apply Z.eqb_neq. change 0x80 with (2 ^ 7). intros He.
    assert (Z.testbit (Z.land (k + 1 * 2 ^ 7) (2 ^ 7)) 7 = true) as Ht; [|by rewrite He in Ht].
    rewrite Z.land_spec, Z.pow2_bits_true by lia. rewrite andb_true_r, Z.testbit_true by lia.
    rewrite Z.div_add, Z.div_small by lia. done.
  - change 0x7f with (2 ^ 7 - 1). rewrite land_mask, Z.mod_add, Z.mod_small by lia. done.
Qed.

Lemma asn1_start_header type want body rest L :
  in_range 8 type → want = type ∨ want = ASN1_ANY → Zlen body < 2 ^ 31 →
  Zlen (encode type body) ≤ L →
  asn1_start (Cursor (encode type body ++ rest) L) want =
    (Cursor (body ++ rest) (L - Zlen (asn1_header type (Zlen body))), Ok (Zlen body)).
Proof.
  intros Ht Hw Hn HL. unfold encode in *. rewrite length_app in HL. rewrite <- app_assoc.
  pose proof (header_length type (Zlen body)). unfold asn1_start. cbn [len].
  destruct (Z.ltb_spec L 2); [lia|].
  rewrite header_type by done. change (default 0 (Some type)) with type.
  assert (negb (want =? ASN1_ANY) && negb (want =? type) = false) as ->.
  { destruct Hw as [-> | ->]; rewrite Z.eqb_refl; [by rewrite andb_false_r|done]. }
  unfold asn1_header in *. set (n := Zlen body) in *.
  destruct (Z.ltb_spec n 0x80) as [Hs|Hs].
  - unfold next. cbn [data len drop app length] in *. rewrite !drop_0, byte_head.
    rewrite (wrap_small _ n) by (unfold in_range; lia).
    rewrite short_marker by lia. cbn [Z.eqb negb len]. destruct (Z.ltb_spec (L - 1) 1); [lia|].
    change (Z.to_nat 1) with 1%nat. cbn [length_loop next data len drop]. rewrite byte_head.
    change (Z.lor (u32 (Z.shiftl 0 8)) n) with n. unfold next. cbn [len data drop].
    destruct (Z.ltb_spec (L - 1 - 1) n); [lia|]. rewrite drop_0. do 2 f_equal. lia.
  - destruct (length_bytes_spec (Z.to_nat sizeof_ptr) n) as (Hv & Hb & Hl); [apply length_fits; lia|].
    set (bs := length_bytes _ n) in *. rewrite length_app, length_rev in *.
    assert (Zlen bs < 2 ^ 7) by (pose proof sizeof_ptr_ok; lia).
    destruct (long_marker (Zlen bs)) as [Hm Hk]; [lia|].
    unfold next. cbn [data len drop app length] in *. rewrite !drop_0, byte_head.
    rewrite Hm, Hk. cbn [negb len]. destruct (Z.ltb_spec (L - 1 - 1) (Zlen bs)); [lia|].
    rewrite Nat2Z.id, <- (length_rev bs), length_loop_value.
    + rewrite be_acc_combine. unfold be_combine. rewrite rev_involutive, Hv, length_rev. cbn [len].
      rewrite Z.mul_0_l, Z.add_0_l. destruct (Z.ltb_spec (L - 1 - 1 - Zlen bs) n); [lia|].
      do 2 f_equal. cbn [length]. lia.
    + by apply Forall_rev.
    + lia.
    + rewrite be_acc_combine. unfold be_combine. rewrite rev_involutive, Hv. lia.
Qed.

(** The operations at an encoded object. *)
Section at_object.
Context (type want : Z) (body rest : bytes) (L : Z).
Hypothesis (Ht : in_range 8 type) (Hw : want = type ∨ want = ASN1_ANY).
Hypothesis (Hn : Zlen body < 2 ^ 31) (HL : Zlen (encode type body) ≤ L).

Lemma asn1_enter_encode :
  asn1_enter (Cursor (encode type body ++ rest) L) want = (Cursor (body ++ rest) (Zlen body), Ok tt).
Proof. unfold asn1_enter. by rewrite asn1_start_header. Qed.

Lemma asn1_skip_if_exists_encode :
  asn1_skip_if_exists (Cursor (encode type body ++ rest) L) want =
    (Cursor rest (L - Zlen (encode type body)), if L =? Zlen (encode type body) then Err ENOENT else Ok tt).
Proof.
  unfold asn1_skip_if_exists. rewrite asn1_start_header by done. cbn [data len].
  rewrite Nat2Z.id, drop_app_length. unfold encode. rewrite length_app.
  replace (L - Zlen (asn1_header type (Zlen body)) - Zlen body)
    with (L - Z.of_nat (length (asn1_header type (Zlen body)) + length body)) by lia.
  destruct (Z.eqb_spec L (Z.of_nat (length (asn1_header type (Zlen body)) + length body))) as [He|He].
  - by rewrite <- He, Z.sub_diag.
  - by rewrite (proj2 (Z.eqb_neq _ _)) by lia.
Qed.

Lemma asn1_skip_encode :
  asn1_skip (Cursor (encode type body ++ rest) L) want =
    if L =? Zlen (encode type body) then (invalid, Err ENOENT)
    else (Cursor rest (L - Zlen (encode type body)), Ok tt).
Proof. unfold asn1_skip. rewrite asn1_skip_if_exists_encode. by destruct (_ =? _). Qed.

Lemma asn1_shrink_encode :
  asn1_shrink (Cursor (encode type body ++ rest) L) want =
    (Cursor (encode type body ++ rest) (Zlen (encode type body)), Ok tt).
Proof.
  unfold asn1_shrink. rewrite asn1_start_header by done. cbn [data].
  unfold encode. rewrite !length_app. do 2 f_equal. lia.
Qed.
End at_object.

(** ** What the builder builds *)

Definition holds (b : asn1_builder) (bs : bytes) : Prop :=
  (b_data b = Some bs ∨ (b_data b = None ∧ bs = [])) ∧ b_len b = Zlen bs.

Inductive build_op : Type := Prepend_raw (bs : bytes) | Prepend (type : Z) (bs : bytes) | Wrap (type : Z).

Definition build (fill : nat → Z) (alloc : bool) (op : build_op) (b : asn1_builder) : asn1_builder * res unit :=
  match op with
  | Prepend_raw bs => asn1_prepend_raw alloc fill b bs
  | Prepend type bs => asn1_prepend alloc fill b type bs
  | Wrap type => asn1_wrap alloc fill b type
  end.

(** The bytes an operation makes of those built so far. *)
Definition built (op : build_op) (bs : bytes) : bytes :=
  match op with
  | Prepend_raw l => l ++ bs
  | Prepend type l => encode type l ++ bs
  | Wrap type => encode type bs
  end.

Lemma asn1_grow_ok fill b bs extra :
  holds b bs → 0 ≤ extra → Zlen bs + extra < 2 ^ 31 →
  asn1_grow true fill b extra =
    (Builder (Some ((fill <$> seq 0 (Z.to_nat extra)) ++ bs)) (Zlen bs + extra), Ok tt).
Proof.
  intros [Hd Hl] He Hn. unfold asn1_grow. rewrite Hl, usize_small by lia.
  destruct Hd as [-> | [-> ->]]; [|done]. rewrite bool_decide_eq_true_2 by done. by rewrite andb_false_r.
Qed.

Lemma store_front l bs hdr : length l = length hdr → store (l ++ bs) 0 hdr = hdr ++ bs.
Proof. intros Hl. unfold store. cbn. by rewrite <- Hl, drop_app_length. Qed.

Lemma length_junk fill n : length (fill <$> seq 0 n : bytes) = n.
Proof. by rewrite length_fmap, length_seq. Qed.

Lemma build_ok fill op b bs :
  holds b bs → Zlen (built op bs) < 2 ^ 31 →
  ∃ b', build fill true op b = (b', Ok tt) ∧ b_data b' = Some (built op bs) ∧ b_len b' = Zlen (built op bs).
Proof.
  intros Hb Hn. destruct op as [l|type l|type]; cbn [build built] in *; unfold encode in *;
    rewrite ?length_app in *.
  - unfold asn1_prepend_raw. rewrite (asn1_grow_ok _ _ bs) by (done || lia). eexists. split; [done|].
    unfold fill_at. cbn. rewrite store_front by (rewrite length_junk; lia). split; [done|lia].
  - unfold asn1_prepend. rewrite (asn1_grow_ok _ _ bs) by (done || lia). eexists. split; [done|].
    unfold fill_at. cbn. split; [|lia]. f_equal. rewrite <- app_assoc.
    set (h := asn1_header _ _) in *. rewrite <- (take_drop (length h) (fill <$> _)), <- app_assoc.
    rewrite store_front by (rewrite length_take, length_junk; lia).
    unfold store. rewrite take_app_length. do 2 f_equal. rewrite <- drop_drop, drop_app_length.
    apply drop_app_length'. rewrite length_drop, length_junk. lia.
  - unfold asn1_wrap. pose proof Hb as [_ Hl]. rewrite Hl, (asn1_grow_ok _ _ bs) by (done || lia).
    eexists. split; [done|]. unfold fill_at. cbn.
    rewrite store_front by (rewrite length_junk; lia). split; [done|lia].
Qed.

(** The operations in a row, as the comma operators of ocsp.c run them: each
    with the outcome of its allocation. *)
Fixpoint build_all (fill : nat → Z) (ops : list (bool * build_op)) (b : asn1_builder) : asn1_builder * list (res unit) :=
  match ops with
  | [] => (b, [])
  | (alloc, op) :: ops =>
      let '(b, rc) := build fill alloc op b in
      let '(b, rcs) := build_all fill ops b in (b, rc :: rcs)
  end.

Definition built_all (ops : list build_op) (bs : bytes) : bytes := foldl (λ bs op, built op bs) bs ops.

Lemma built_length op bs : (length bs ≤ length (built op bs))%nat.
Proof. destruct op; cbn; unfold encode; rewrite ?length_app; lia. Qed.
Lemma built_all_length ops bs : (length bs ≤ length (built_all ops bs))%nat.
Proof.
  revert bs. induction ops as [|op ops IH]; intros bs; [done|]. cbn. etrans; [apply (built_length op)|apply IH].
Qed.

Lemma build_all_ok fill ops b bs :
  holds b bs → Zlen (built_all ops bs) < 2 ^ 31 →
  ∃ b', build_all fill (pair true <$> ops) b = (b', replicate (length ops) (Ok tt)) ∧ holds b' (built_all ops bs).
Proof.
  revert b bs. induction ops as [|op ops IH]; intros b bs Hb Hn; [by exists b|]. cbn in *.
  pose proof (built_all_length ops (built op bs)). unfold built_all in *.
  destruct (build_ok fill op b bs) as (b1 & -> & Hd & Hl); [done|lia|].
  destruct (IH b1 (built op bs)) as (b2 & -> & Hb2); [split; [by left|done]|done|]. by exists b2.
Qed.

(** A failed allocation with something built makes all that follows fail. *)
Lemma build_failed fill alloc op b :
  b_data b = None → b_len b ≠ 0 → build fill alloc op b = (b, Err ENOMEM).
Proof.
  intros Hd Hl. assert (∀ extra, asn1_grow alloc fill b extra = (b, Err ENOMEM)) as Hg.
  { intros. unfold asn1_grow. rewrite Hd. by rewrite (proj2 (Z.eqb_neq _ _) Hl), bool_decide_eq_false_2 by (by intros []). }
  destruct op; cbn; unfold asn1_prepend_raw, asn1_prepend, asn1_wrap; by rewrite Hg.
Qed.

Lemma build_fails fill op b bs :
  holds b bs → bs ≠ [] → build fill false op b = (Builder None (Zlen bs), Err ENOMEM).
Proof.
  intros [Hd Hl] Hne. destruct Hd as [Hd|[_ ?]]; [|done].
  assert (∀ extra, asn1_grow false fill b extra = (Builder None (Zlen bs), Err ENOMEM)) as Hg.
  { intros. unfold asn1_grow. rewrite Hd, Hl, bool_decide_eq_true_2 by done. by rewrite andb_false_r. }
  destruct op; cbn; unfold asn1_prepend_raw, asn1_prepend, asn1_wrap; by rewrite Hg.
Qed.

Lemma build_all_failed fill ops b :
  b_data b = None → b_len b ≠ 0 → build_all fill ops b = (b, replicate (length ops) (Err ENOMEM)).
Proof.
  intros Hd Hl. induction ops as [|[alloc op] ops IH]; [done|]. cbn. by rewrite build_failed, IH.
Qed.

Lemma build_all_app fill ops ops' b :
  build_all fill (ops ++ ops') b =
    let '(b1, rcs) := build_all fill ops b in
    let '(b2, rcs') := build_all fill ops' b1 in (b2, rcs ++ rcs').
Proof.
  revert b. induction ops as [|[alloc op] ops IH]; intros b; cbn; [by destruct (build_all fill ops' b)|].
  destruct (build fill alloc op b) as [b1 rc]. rewrite IH. destruct (build_all fill ops b1) as [b2 rcs].
  by destruct (build_all fill ops' b2).
Qed.
End encoding.

(** ** Integers *)

(** The value of the contents of an INTEGER, in two's complement. *)
Definition integer_value (bs : bytes) : Z := be_acc (swrap 8 (byte bs 0)) (drop 1 bs).

Lemma be_acc_bounds v bs :
  is_bytes bs → - 2 ^ 31 ≤ be_acc v bs < 2 ^ 31 → - 2 ^ 31 ≤ v < 2 ^ 31.
Proof.
  intros Hb. revert v. unfold be_acc. induction Hb as [|b bs Hb _ IH]; intros v Hv; [done|].
  cbn in Hv. apply IH in Hv. unfold in_range in Hb. lia.
Qed.

Lemma integer_step v b : in_range 8 b → Z.lor (Z.shiftl v 8) b = v * 256 + b.
Proof. intros Hb. rewrite Z.lor_comm, lor_shift by (done || lia). lia. Qed.

Lemma integer_loop_ok bs rest v :
  is_bytes bs → - 2 ^ 31 ≤ be_acc v bs < 2 ^ 31 → integer_loop (length bs) (bs ++ rest) v = Ok (be_acc v bs).
Proof.
  intros Hb. revert v. induction Hb as [|b bs Hb Hbs IH]; intros v Hv; [done|].
  cbn [length integer_loop app]. rewrite byte_head, integer_step by done. cbn [drop]. rewrite drop_0.
  pose proof (be_acc_bounds _ _ Hbs Hv) as Hs. unfold in_range in Hb.
  rewrite swrap_small by lia. cbn [be_acc foldl] in Hv.
  assert (v ≫ 24 = 0 ∨ v ≫ 24 = -1) as Hh.
  { rewrite Z.shiftr_div_pow2 by lia. Z.div_mod_to_equations. lia. }
  replace (negb _ && negb _) with false by (by destruct Hh as [-> | ->]). by rewrite IH.
Qed.

Lemma u32_s32 x : u32 (s32 x) = u32 x.
Proof.
  unfold wrap, swrap. rewrite <- Zminus_mod_idemp_l, Z.mod_mod, Zminus_mod_idemp_l by lia. f_equal. lia.
Qed.

Lemma be_acc_cong v v' bs : u32 v = u32 v' → u32 (be_acc v bs) = u32 (be_acc v' bs).
Proof.
  intros Hv. rewrite !be_acc_combine. unfold wrap in *.
  rewrite <- (Zplus_mod_idemp_l (v * _)), <- (Zplus_mod_idemp_l (v' * _)).
  by rewrite <- (Zmult_mod_idemp_l v), <- (Zmult_mod_idemp_l v'), Hv.
Qed.

Lemma integer_loop_wraps bs rest v x :
  is_bytes bs → integer_loop (length bs) (bs ++ rest) v = Ok x → u32 x = u32 (be_acc v bs).
Proof.
  intros Hb. revert v. induction Hb as [|b bs Hb _ IH]; intros v He; [cbn in *; congruence|].
  cbn [length integer_loop app] in He. case_match; [done|]. rewrite byte_head, integer_step in He by done.
  cbn [drop] in He. rewrite drop_0 in He. rewrite (IH _ He). cbn. apply be_acc_cong, u32_s32.
Qed.

Lemma integer_loop_error n data v e : integer_loop n data v = Err e → e = EINVAL.
Proof. revert data v. induction n as [|n IH]; intros data v He; cbn in He; [done|]. case_match; [congruence|eauto]. Qed.

(** ** Bit strings *)

(** DER allows up to seven unused bits, all zero, and none in an empty string. *)
Definition bits_valid (unused : Z) (bits : bytes) : Prop :=
  unused < 8 ∧ (bits = [] → unused = 0) ∧ default 0 (last bits) mod 2 ^ unused = 0.

#[export] Instance bits_valid_dec unused bits : Decision (bits_valid unused bits).
Proof. unfold bits_valid. apply _. Defined.

Lemma last_byte x l rest : byte ((x :: l) ++ rest) (length l) = default x (last l).
Proof.
  unfold byte. rewrite lookup_app_l by (cbn; lia). destruct l as [|y l] using rev_ind; [done|].
  rewrite last_snoc, length_app, Nat.add_1_r, <- lookup_tail. cbn [tail].
  by rewrite lookup_app_r, Nat.sub_diag by lia.
Qed.

Lemma unused_mask_spec x unused : 0 ≤ unused < 8 → Z.land x (u8 (Z.shiftr 0xff (8 - unused))) = x mod 2 ^ unused.
Proof.
  intros Hu. rewrite <- land_mask by lia. f_equal.
  assert (unused ∈ seqZ 0 8) as Hin by (apply elem_of_seqZ; lia). revert unused Hin Hu.
  refine (proj1 (Forall_forall _ _) _). by_decide.
Qed.

(** The side conditions of the lemmas on encoded objects. *)
Ltac at_object := first [done | by left | by right | by split | cbn [length] in *; lia].

Section values.
Context `{Platform}.

Lemma asn1_bit_string_encode unused bits rest L :
  in_range 8 unused → 1 + Zlen bits < 2 ^ 31 → Zlen (encode ASN1_BIT_STRING (unused :: bits)) ≤ L →
  asn1_bit_string_parse (Cursor (encode ASN1_BIT_STRING (unused :: bits) ++ rest) L) =
    if decide (bits_valid unused bits) then Ok (Bits (bits ++ rest) (Zlen bits) unused) else Err EINVAL.
Proof.
  intros Hu Hn HL. unfold asn1_bit_string_parse.
  rewrite asn1_enter_encode by at_object.
  cbn [len data]. cbn [length]. destruct (Z.ltb_spec (Z.of_nat (S (length bits))) 1); [lia|].
  replace (Z.of_nat (S (length bits)) - 1) with (Zlen bits) by lia. rewrite Nat2Z.id, last_byte.
  cbn [app]. rewrite byte_head. cbn [drop]. rewrite drop_0. unfold in_range in Hu.
  destruct (Z.leb_spec 8 unused); cbn [orb].
  { by rewrite decide_False by (unfold bits_valid; lia). }
  rewrite unused_mask_spec by lia. destruct (decide (bits_valid unused bits)) as [(_ & Hz & Hb)|Hv].
  - destruct bits as [|b bits _] using rev_ind.
    + by rewrite Hz.
    + rewrite last_snoc in *. cbn in Hb |- *. rewrite Hb, length_app, andb_false_intro2; [done|].
      apply Z.eqb_neq. cbn. lia.
  - destruct bits as [|b bits _] using rev_ind.
    + cbn. destruct (Z.ltb_spec 0 unused); [done|]. destruct Hv. unfold bits_valid. cbn.
      replace unused with 0 by lia. split_and!; [lia|done|done].
    + rewrite last_snoc. cbn. destruct (Z.eqb_spec (b mod 2 ^ unused) 0) as [Hz|Hz].
      * destruct Hv. split_and!; [lia|by destruct bits|by rewrite last_snoc].
      * by rewrite orb_true_r.
Qed.
End values.

(** ** Comparison and algorithms *)

(** The bytes a cursor covers. *)
Definition contents (c : asn1_cursor) : bytes := take (Z.to_nat (len c)) (data c).

Lemma memcmp_zero a b n :
  (n ≤ length a)%nat → (n ≤ length b)%nat → memcmp a b n = 0 ↔ take n a = take n b.
Proof.
  revert a b. induction n as [|n IH]; intros a b Ha Hb; [done|].
  destruct a as [|x a], b as [|y b]; cbn in Ha, Hb; try lia. cbn [memcmp take]. rewrite !byte_head. cbn [drop].
  rewrite !drop_0. destruct (Z.eqb_spec (x - y) 0) as [He|Hne]; cbn [negb].
  - replace y with x by lia. rewrite IH by lia. split; [by intros ->|by intros [= ->]].
  - split; [lia|]. intros [= -> _]. lia.
Qed.

Lemma length_contents c : 0 ≤ len c ≤ Zlen (data c) → Zlen (contents c) = len c.
Proof. intros Hl. unfold contents. rewrite length_take. lia. Qed.

Lemma asn1_compare_zero c1 c2 :
  0 ≤ len c1 ≤ Zlen (data c1) → len c1 < 2 ^ 31 → 0 ≤ len c2 ≤ Zlen (data c2) → len c2 < 2 ^ 31 →
  asn1_compare c1 c2 = 0 ↔ contents c1 = contents c2.
Proof.
  intros Hl1 Hs1 Hl2 Hs2. pose proof (length_contents _ Hl1). pose proof (length_contents _ Hl2). unfold asn1_compare.
  rewrite swrap_small by lia. destruct (Z.eqb_spec (len c2 - len c1) 0) as [He|He]; cbn [negb].
  - rewrite memcmp_zero by lia. unfold contents. by replace (len c2) with (len c1) by lia.
  - split; [lia|]. intros Hc. rewrite Hc in *. lia.
Qed.

Definition algorithm_cursor (algorithm : asn1_algorithm) : asn1_cursor :=
  Cursor (a_oid algorithm) (Zlen (a_oid algorithm)).

Lemma algorithms_ok :
  Forall (λ a, cursor_ok (algorithm_cursor a)) ASN1_ALGORITHMS ∧ NoDup (a_oid <$> ASN1_ALGORITHMS).
Proof. by_decide. Qed.

(** The table holds one algorithm per object identifier, and the search finds it. *)
Lemma asn1_find_algorithm_spec c algorithm :
  cursor_ok c →
  asn1_find_algorithm c = Some algorithm ↔ algorithm ∈ ASN1_ALGORITHMS ∧ a_oid algorithm = contents c.
Proof.
  intros Hc. destruct algorithms_ok as [Hok Hnd]. unfold asn1_find_algorithm. rewrite fmap_Some.
  assert (∀ a, a ∈ ASN1_ALGORITHMS → asn1_compare (algorithm_cursor a) c = 0 ↔ a_oid a = contents c) as Hcmp.
  { intros a Ha. destruct Hc as (Hl & Hs & _). assert (cursor_ok (algorithm_cursor a)) as (Hla & Hsa & _) by by eapply Forall_forall in Hok.
    rewrite asn1_compare_zero by done.
    unfold contents at 1. cbn. by rewrite Nat2Z.id, firstn_all. }
  split.
  - intros ([i a] & (Hi & Ha & _)%list_find_Some & ->). apply list_elem_of_lookup_2 in Hi. split; [done|].
    by apply Hcmp.
  - intros [Hin Ho]. destruct (list_find_elem_of (λ a, asn1_compare (algorithm_cursor a) c = 0) ASN1_ALGORITHMS algorithm)
      as [[i a] Hf]; [done|by apply Hcmp|]. exists (i, a). split; [exact Hf|]. cbn.
    apply list_find_Some in Hf as (Hi & Ha & _). apply Hcmp in Ha; [|by eapply list_elem_of_lookup_2].
    apply list_elem_of_lookup in Hin as [j Hj]. assert (j = i) as ->; [|congruence].
    eapply NoDup_lookup; [exact Hnd| |]; rewrite list_lookup_fmap; [by rewrite Hj|rewrite Hi; cbn; by rewrite Ha, Ho].
Qed.

(** ** Walking over what was built *)

Section roundtrip.
Context `{Platform}.

(** Objects in a row. *)
Definition encode_all (os : list (Z * bytes)) : bytes := mjoin ((λ o, encode o.1 o.2) <$> os).

(** At the cursor are the objects [os] and nothing else: each of them is entered
    and shrunk to, and skipped to reach the next one; skipping the last ends the walk. *)
Fixpoint walks (os : list (Z * bytes)) (c : asn1_cursor) : Prop :=
  match os with
  | [] => len c = 0
  | (type, body) :: os =>
      asn1_type c = Some type ∧
      (∃ c', asn1_enter c type = (c', Ok tt) ∧ contents c' = body) ∧
      (∃ c', asn1_shrink_any c = (c', Ok tt) ∧ contents c' = encode type body) ∧
      match os with
      | [] => asn1_skip_any c = (invalid, Err ENOENT)
      | _ => ∃ c', asn1_skip_any c = (c', Ok tt) ∧ walks os c'
      end
  end.

Lemma contents_app l rest : contents (Cursor (l ++ rest) (Zlen l)) = l.
Proof. unfold contents. cbn. by rewrite Nat2Z.id, take_app_length. Qed.

Lemma encode_length type body : 2 + Zlen body ≤ Zlen (encode type body).
Proof. unfold encode. rewrite length_app. pose proof (header_length type (Zlen body)). lia. Qed.

Lemma encode_all_cons type body os : encode_all ((type, body) :: os) = encode type body ++ encode_all os.
Proof. done. Qed.

Lemma walks_encode os rest :
  Forall (λ o, in_range 8 o.1) os → Zlen (encode_all os) < 2 ^ 31 →
  walks os (Cursor (encode_all os ++ rest) (Zlen (encode_all os))).
Proof.
  induction os as [|[type body] os IH]; intros Ht Hn; [done|].
  apply Forall_cons in Ht as [Ht Hts]. cbn [fst] in *. rewrite encode_all_cons in *. rewrite length_app in *. pose proof (encode_length type body). cbn [walks]. rewrite <- app_assoc.
  split; [by apply encode_type|]. split.
  { eexists. rewrite asn1_enter_encode by (try done; auto; lia). split; [done|apply contents_app]. }
  split.
  { eexists. unfold asn1_shrink_any. rewrite (asn1_shrink_encode type) by (try done; auto; lia).
    split; [done|apply contents_app]. }
  unfold asn1_skip_any. rewrite (asn1_skip_encode type) by (try done; auto; lia).
  destruct os as [|[type' body'] os].
  - cbn. by rewrite Nat.add_0_r, Z.eqb_refl.
  - set (os' := _ :: os) in *. assert (2 ≤ Zlen (encode_all os')).
    { subst os'. rewrite encode_all_cons, length_app. pose proof (encode_length type' body'). lia. }
    rewrite (proj2 (Z.eqb_neq _ _)) by lia. eexists. split; [done|].
    replace (Z.of_nat (length (encode type body) + length (encode_all os')) - Zlen (encode type body))
      with (Zlen (encode_all os')) by lia. apply IH; [done|lia].
Qed.

(** Objects prepended last to first. *)
Definition prepend_all (os : list (Z * bytes)) : list build_op := rev ((λ o, Prepend o.1 o.2) <$> os).

Lemma built_prepend_all os : built_all (prepend_all os) [] = encode_all os.
Proof.
  unfold built_all, prepend_all, encode_all. induction os as [|o os IH]; [done|].
  cbn. rewrite foldl_app. cbn. by f_equal.
Qed.
End roundtrip.

(** ** Properties *)

(** C32: However a cursor is moved, it stays inside the object it was given: after
    any operations in a row it covers part of the bytes it covered, or is the
    invalid cursor, and the results do not depend on the bytes that follow it in
    memory.  Once an operation other than asn1_skip_if_exists has failed, the
    cursor is invalid and all later operations fail. *)
Theorem asn1_walk_safe (ops : list asn1_op) (c : asn1_cursor) (Hc : cursor_ok c) :
  within c (asn1_walk ops c).1 ∧ length (asn1_walk ops c).2 = length ops ∧
  (∀ x, (asn1_walk ops (extend x c)).2 = (asn1_walk ops c).2) ∧
  (∀ i op e, ops !! i = Some op → (asn1_walk ops c).2 !! i = Some (Err e) → (∀ type, op ≠ Skip_if_exists type) →
    (asn1_walk ops c).1 = invalid ∧ drop (S i) (asn1_walk ops c).2 = replicate (length ops - S i) (Err EINVAL)).
Proof.
  split_and!.
  - by apply asn1_walk_within.
  - clear Hc. revert c. induction ops as [|op ops IH]; intros c; [done|]. cbn.
    destruct (asn1_do op c) as [c1 rc]. specialize (IH c1). destruct (asn1_walk ops c1). cbn in *. lia.
  - intros x. by apply asn1_walk_extend.
  - intros i op e. apply asn1_walk_error.
Qed.

(** A SEQUENCE of an INTEGER and a BOOLEAN, walked with a wrong type in between. *)
Lemma asn1_walk_safe_witness :
  let c := Cursor [0x30; 0x06; 0x02; 0x01; 0x05; 0x01; 0x01; 0xff; 0x00] 8 in
  let ops := [Enter ASN1_SEQUENCE; Skip ASN1_INTEGER; Enter ASN1_OID; Skip ASN1_BOOLEAN] in
  within c (asn1_walk ops c).1 ∧ (asn1_walk ops c).2 = [Ok tt; Ok tt; Err ENXIO; Err EINVAL].
Proof.
  split; [|by vm_compute]. refine (proj1 (asn1_walk_safe _ _ _)). by_decide.
Defined.

(** C33: What the builder builds is what the cursor walks over.  Objects prepended
    last to first and wrapped give one object; entering it finds exactly these
    objects, in order, with their types and contents.  When an allocation fails
    once something has been built, that operation and all later ones, whatever
    they are, fail with ENOMEM, and the builder is left without data. *)
Theorem asn1_roundtrip `{Platform} (fill : nat → Z) (type : Z) (os : list (Z * bytes)) (rest : bytes)
    (Htype : in_range 8 type) (Hos : Forall (λ o, in_range 8 o.1) os)
    (Hsize : Zlen (encode type (encode_all os)) < 2 ^ 31) :
  (∃ b built c,
    build_all fill (pair true <$> prepend_all os ++ [Wrap type]) (Builder None 0) =
      (b, replicate (S (length os)) (Ok tt)) ∧
    b_data b = Some built ∧ b_len b = Zlen built ∧
    asn1_enter (Cursor (built ++ rest) (b_len b)) type = (c, Ok tt) ∧ walks os c) ∧
  (∀ before op after, built_all before [] ≠ [] → Zlen (built_all before []) < 2 ^ 31 →
    build_all fill ((pair true <$> before) ++ (false, op) :: after) (Builder None 0) =
      (Builder None (Zlen (built_all before [])),
       replicate (length before) (Ok tt) ++ replicate (S (length after)) (Err ENOMEM))).
Proof.
  assert (holds (Builder None 0) []) as H0 by (split; [by right|done]).
  pose proof (encode_length type (encode_all os)). split.
  - set (ops := prepend_all os ++ [Wrap type]).
    assert (built_all ops [] = encode type (encode_all os)) as Hb.
    { unfold ops, built_all. rewrite foldl_app. cbn. by rewrite <- built_prepend_all. }
    destruct (build_all_ok fill ops _ _ H0) as (b & -> & Hd & Hl); [by rewrite Hb|].
    rewrite Hb in *. destruct Hd as [Hd|[_ He]]; [|by apply (f_equal length) in He; cbn in He; lia].
    exists b, (encode type (encode_all os)), (Cursor (encode_all os ++ rest) (Zlen (encode_all os))).
    split_and!; [|done|done|rewrite Hl; apply asn1_enter_encode; try done; [by left|lia]|].
    + do 2 f_equal. unfold ops, prepend_all. rewrite length_app, length_rev, length_fmap. cbn. lia.
    + apply walks_encode; [done|lia].
  - intros before op after Hne Hn. rewrite build_all_app.
    destruct (build_all_ok fill before _ _ H0 Hn) as (b & -> & Hb). cbn [build_all].
    rewrite (build_fails _ _ _ _ Hb Hne), build_all_failed; [done|done|]. cbn. by destruct (built_all before []).
Qed.

(** An OCSP-like request: SEQUENCE { INTEGER 5, OCTET STRING of 200 bytes }. *)
Lemma asn1_roundtrip_witness :
  let os := [(ASN1_INTEGER, [0x05]); (ASN1_OCTET_STRING, replicate 200 0xaa)] in
  let ops := prepend_all os ++ [Wrap ASN1_SEQUENCE] in
  ∃ b built c,
    build_all (H := x86_64) (λ _, 0xee) (pair true <$> ops) (Builder None 0) = (b, replicate 3 (Ok tt)) ∧
    b_data b = Some built ∧ b_len b = Zlen built ∧
    asn1_enter (Cursor (built ++ [0xde; 0xad]) (b_len b)) ASN1_SEQUENCE = (c, Ok tt) ∧ walks (H := x86_64) os c.
Proof.
  refine (proj1 (@asn1_roundtrip x86_64 _ _ _ _ _ _ _)).
  - by_decide.
  - by_decide.
  - by vm_compute.
Defined.

(** Only then: an allocation that fails before anything was built leaves the builder
    as new, and the next operation succeeds although an object is missing. *)
Lemma asn1_grow_first_failure `{Platform} fill type bs op :
  Zlen (built op []) < 2 ^ 31 →
  ∃ b, build_all fill [(false, Prepend type bs); (true, op)] (Builder None 0) = (b, [Err ENOMEM; Ok tt]) ∧
    b_data b = Some (built op []).
Proof.
  intros Hn. destruct (build_ok fill op (Builder None 0) []) as (b & Hb & Hd & _); [split; [by right|done]|done|].
  exists b. cbn in *. by rewrite Hb.
Qed.

(** C34: asn1_integer reads the two's complement value of an INTEGER whenever it
    fits an int.  Otherwise it fails with EINVAL or gives the value modulo 2^32,
    and it rejects an INTEGER without contents. *)
Theorem asn1_integer_correct `{Platform} (body rest : bytes) (L : Z)
    (Hbytes : is_bytes body) (Hsize : Zlen body < 2 ^ 31) (HL : Zlen (encode ASN1_INTEGER body) ≤ L) :
  let c := Cursor (encode ASN1_INTEGER body ++ rest) L in
  let v := integer_value body in
  (body = [] → asn1_integer c = Err EINVAL) ∧
  (body ≠ [] → - 2 ^ 31 ≤ v < 2 ^ 31 → asn1_integer c = Ok v) ∧
  match asn1_integer c with Ok x => u32 x = u32 v | Err e => e = EINVAL end.
Proof.
  intros c v. unfold asn1_integer, c. rewrite asn1_enter_encode by at_object. cbn [len data].
  destruct body as [|b bs]; [done|]. apply Forall_cons in Hbytes as [Hb Hbs].
  cbn [length app]. destruct (Z.ltb_spec (Z.of_nat (S (length bs))) 1); [lia|].
  unfold next. cbn [len data]. rewrite byte_head. cbn [drop]. rewrite drop_0.
  replace (Z.to_nat (Z.of_nat (S (length bs)) - 1)) with (length bs) by lia.
  unfold v, integer_value. rewrite byte_head. cbn [drop]. rewrite drop_0. split_and!; [done| |].
  - intros _ Hv. by apply integer_loop_ok.
  - destruct (integer_loop _ _ _) as [x|e] eqn:Hi; [by eapply integer_loop_wraps|by eapply integer_loop_error].
Qed.

(** The integer -129. *)
Lemma asn1_integer_correct_witness :
  asn1_integer (Cursor (encode (H := i386) ASN1_INTEGER [0xff; 0x7f] ++ [0x30]) 5) = Ok (-129).
Proof.
  refine (proj1 (proj2 (@asn1_integer_correct i386 [0xff; 0x7f] [0x30] 5 _ _ _)) _ _); try by vm_compute.
  by_decide.
Defined.

(** Values the overflow check misses: 2^31, and one of six bytes. *)
Lemma asn1_integer_overflow :
  asn1_integer (Cursor [0x02; 0x05; 0x00; 0x80; 0x00; 0x00; 0x00] 7) = Ok (- 2 ^ 31) ∧
  integer_value [0x00; 0x80; 0x00; 0x00; 0x00] = 2 ^ 31 ∧
  asn1_integer (Cursor [0x02; 0x06; 0x00; 0xff; 0x00; 0x00; 0x00; 0x05] 8) = Ok 5.
Proof. by vm_compute. Qed.

(** An AlgorithmIdentifier is recognised by its object identifier alone: the
    parser finds the one algorithm of the table that has it and fails with ENOTSUP
    when there is none; the callers that need a public key, a digest or both accept
    exactly the algorithms that have them. *)
Lemma asn1_algorithm_correct `{Platform} (oid params rest : bytes) (L : Z)
    (Hbytes : is_bytes (oid ++ params ++ rest))
    (Hsize : Zlen (encode ASN1_SEQUENCE (encode ASN1_OID oid ++ params)) ≤ L) (HL : L < 2 ^ 31) :
  let c := Cursor (encode ASN1_SEQUENCE (encode ASN1_OID oid ++ params) ++ rest) L in
  (∀ a, asn1_algorithm_parse c = Ok a ↔ a ∈ ASN1_ALGORITHMS ∧ a_oid a = oid) ∧
  (oid ∉ a_oid <$> ASN1_ALGORITHMS → asn1_algorithm_parse c = Err ENOTSUP) ∧
  (∀ a, asn1_pubkey_algorithm c = Ok a ↔ asn1_algorithm_parse c = Ok a ∧ is_Some (a_pubkey a)) ∧
  (∀ a, asn1_digest_algorithm c = Ok a ↔ asn1_algorithm_parse c = Ok a ∧ is_Some (a_digest a)) ∧
  (∀ a, asn1_signature_algorithm c = Ok a ↔ asn1_algorithm_parse c = Ok a ∧ is_Some (a_pubkey a) ∧ is_Some (a_digest a)).
Proof.
  intros c. set (c' := Cursor (oid ++ params ++ rest) (Zlen oid)).
  pose proof (encode_length ASN1_SEQUENCE (encode ASN1_OID oid ++ params)) as Hl. rewrite length_app in Hl.
  pose proof (encode_length ASN1_OID oid) as Hl'.
  assert (asn1_algorithm_parse c =
    match asn1_find_algorithm c' with Some algorithm => Ok algorithm | None => Err ENOTSUP end) as Hp.
  { unfold asn1_algorithm_parse, c. rewrite asn1_enter_encode by (rewrite ?length_app; at_object).
    rewrite <- app_assoc, asn1_enter_encode by (rewrite ?length_app; at_object). done. }
  assert (cursor_ok c') as Hc by (split_and!; cbn; [lia|rewrite length_app; lia|lia|done]).
  assert (contents c' = oid) as Ho by apply contents_app.
  assert (∀ a, asn1_algorithm_parse c = Ok a ↔ a ∈ ASN1_ALGORITHMS ∧ a_oid a = oid) as Hfind.
  { intros a. rewrite Hp, <- Ho, <- asn1_find_algorithm_spec by done. destruct (asn1_find_algorithm c'); naive_solver. }
  unfold asn1_pubkey_algorithm, asn1_digest_algorithm, asn1_signature_algorithm.
  split; [done|]. split.
  { intros Hni. rewrite Hp. destruct (asn1_find_algorithm c') as [a|] eqn:Hf; [|done].
    apply asn1_find_algorithm_spec in Hf as [Hin He]; [|done]. destruct Hni. rewrite <- Ho, <- He.
    by apply list_elem_of_fmap_2. }
  unfold is_Some. destruct (asn1_algorithm_parse c) as [a|e]; cbn; [|naive_solver].
  destruct (a_pubkey a) eqn:?, (a_digest a) eqn:?; naive_solver.
Qed.

