(* ===== verification/RsaPower.v ===== *)
(** * The RSA permutation

    The arithmetic RFC 3447 rests on: raising to the public and then to the
    private exponent is the identity modulo the product of two primes. *)

From Stdlib Require Import ZArith Znumtheory Zpow_facts.
From S2P Require Import Prelude.

Definition product (l : list Z) : Z := foldr Z.mul 1 l.

#[export] Instance product_Permutation : Proper ((≡ₚ) ==> (=)) product.
Proof. unfold product. induction 1 as [|x l l' _ IH|x y l|l l' l'' _ IH _ IH']; cbn; [done|by rewrite IH|lia|congruence]. Qed.

Section fermat.
Context (p a : Z) (Hp : Z.prime p) (Ha : ¬ (p | a)).

Lemma prime_gt_1 : 1 < p.
Proof. by destruct Hp. Qed.

Lemma product_scaled l : product ((λ x, a * x mod p) <$> l) mod p = (a ^ Zlen l * product l) mod p.
Proof.
  induction l as [|x l IH]; [done|]. cbn [fmap list_fmap product foldr length].
  rewrite Nat2Z.inj_succ, Z.pow_succ_r by lia. fold (product ((λ x, a * x mod p) <$> l)). fold (product l).
  rewrite Zmult_mod_idemp_l, <- Zmult_mod_idemp_r, IH, Zmult_mod_idemp_r. f_equal. lia.
Qed.

Lemma product_coprime l : Forall (λ x, 0 < x < p) l → ¬ (p | product l).
Proof.
  intros Hl. pose proof prime_gt_1. induction Hl as [|x l Hx _ IH]; cbn; intros Hd.
  - apply Z.divide_pos_le in Hd; lia.
  - apply Z.divide_prime_mul in Hd as [Hd|Hd]; [|done|done]. apply Z.divide_pos_le in Hd; lia.
Qed.

Lemma scaled_permutation : (λ x, a * x mod p) <$> seqZ 1 (p - 1) ≡ₚ seqZ 1 (p - 1).
Proof.
  pose proof prime_gt_1. apply submseteq_length_Permutation; [|by rewrite length_fmap].
  apply NoDup_submseteq.
  - apply NoDup_fmap_2_strong; [|apply NoDup_seqZ]. intros x y Hx%elem_of_seqZ Hy%elem_of_seqZ He.
    assert (p | a * (x - y)) as Hd.
    { exists (a * x / p - a * y / p). pose proof (Z.div_mod (a * x) p). pose proof (Z.div_mod (a * y) p). nia. }
    apply Z.divide_prime_mul in Hd as [Hd|[k Hk]]; [done| |done]. assert (k = 0) by nia. lia.
  - intros x (y & -> & Hy%elem_of_seqZ)%list_elem_of_fmap. apply elem_of_seqZ.
    pose proof (Z.mod_pos_bound (a * y) p). assert (a * y mod p ≠ 0); [|lia]. intros Hz.
    apply Z.mod_divide in Hz; [|lia]. apply Z.divide_prime_mul in Hz as [Hz|Hz]; [done| |done].
    apply Z.divide_pos_le in Hz; lia.
Qed.

(** Fermat's little theorem. *)
Lemma fermat : a ^ (p - 1) mod p = 1.
Proof.
  pose proof prime_gt_1. pose proof (product_scaled (seqZ 1 (p - 1))) as Hs.
  rewrite scaled_permutation, length_seqZ, Z2Nat.id in Hs by lia. set (P := product _) in *.
  assert (p | P * (a ^ (p - 1) - 1)) as Hd.
  { apply Z.mod_divide; [lia|]. rewrite Z.mul_sub_distr_l, Z.mul_1_r, (Z.mul_comm P).
    by rewrite Zminus_mod, <- Hs, Z.sub_diag. }
  apply Z.divide_prime_mul in Hd as [Hd|[x Hx]]; [| |done].
  - exfalso. eapply product_coprime; [|exact Hd]. apply Forall_forall. intros x Hx%elem_of_seqZ. lia.
  - replace (a ^ (p - 1)) with (1 + x * p) by lia. rewrite Z.mod_add, Z.mod_small by lia. done.
Qed.
End fermat.

(** A power congruent to one modulo [p - 1] changes nothing modulo [p]. *)
Lemma power_identity p m k : Z.prime p → 0 < k → (p - 1 | k - 1) → (p | m ^ k - m).
Proof.
  intros Hp Hk [j Hj]. pose proof (prime_gt_1 p Hp). destruct (decide (m mod p = 0)) as [Hd%Z.mod_divide|Hd]; [|lia|].
  - apply Z.divide_sub_r; [|done]. replace k with (Z.succ (k - 1)) by lia. rewrite Z.pow_succ_r by lia.
    by apply Z.divide_mul_l.
  - rewrite Z.mod_divide in Hd by lia. assert (0 ≤ j) by nia. replace k with (Z.succ ((p - 1) * j)) by lia.
    rewrite Z.pow_succ_r, Z.pow_mul_r by lia. apply Z.mod_divide; [lia|].
    rewrite <- Zminus_mod_idemp_l, <- Zmult_mod_idemp_r, Zpower_mod, fermat, Z.pow_1_l, Z.mod_1_l, Z.mul_1_r by (done || lia).
    by rewrite Zminus_mod_idemp_l, Z.sub_diag.
Qed.

(** A key pair: [n] is the product of two primes and the exponents are inverse. *)
Definition rsa_key_pair (n e d : Z) : Prop :=
  ∃ p q, Z.prime p ∧ Z.prime q ∧ p ≠ q ∧ n = p * q ∧ 0 < e ∧ 0 < d ∧ (p - 1 | e * d - 1) ∧ (q - 1 | e * d - 1).

Lemma rsa_power n e d m : rsa_key_pair n e d → 0 ≤ m < n → (m ^ e mod n) ^ d mod n = m.
Proof.
  intros (p & q & Hp & Hq & Hne & -> & He & Hd & Hpe & Hqe) Hm.
  pose proof (prime_gt_1 p Hp). pose proof (prime_gt_1 q Hq).
  rewrite <- Zpower_mod, <- Z.pow_mul_r by lia.
  assert (p * q | m ^ (e * d) - m) as Hdiv.
  { destruct (power_identity p m (e * d) Hp ltac:(nia) Hpe) as [x Hx]. rewrite Hx.
    rewrite (Z.mul_comm x). apply Z.mul_divide_mono_l.
    assert (q | x * p) as Hx' by (rewrite <- Hx; apply power_identity; [done|nia|done]).
    apply Z.divide_prime_mul in Hx' as [?|Hqp]; [done| |done].
    apply Z.divide_prime_prime in Hqp; [by destruct Hne|done|done]. }
  destruct Hdiv as [x Hx]. replace (m ^ (e * d)) with (m + x * (p * q)) by lia.
  rewrite Z.mod_add, Z.mod_small by nia. done.
Qed.

(** ** Proth's theorem, to have primes of a useful size *)

Lemma least_divisor n m :
  1 < m → (m | n) → ∃ q, 1 < q ≤ m ∧ (q | n) ∧ ∀ x, 1 < x < q → ¬ (x | n).
Proof.
  intros Hm. assert (0 ≤ m) as H0 by lia. revert Hm. pattern m. apply Z_lt_induction; [|done]. clear m H0.
  intros m IH Hm Hd. destruct (decide (Exists (λ x, n mod x = 0) (seqZ 2 (m - 2)))) as [He|He].
  - apply Exists_exists in He as (x & Hx%elem_of_seqZ & Hz). destruct (IH x) as (q & Hq & H2); [lia|lia| |].
    + by apply Z.mod_divide; [lia|].
    + exists q. split; [lia|done].
  - exists m. split; [lia|]. split; [done|]. intros x Hx Hxn. apply He, Exists_exists. exists x.
    split; [apply elem_of_seqZ; lia|]. apply Z.mod_divide; [lia|done].
Qed.

Lemma prime_factor n : 1 < n → Z.prime n ∨ ∃ q, Z.prime q ∧ (q | n) ∧ q * q ≤ n.
Proof.
  intros Hn. destruct (least_divisor n n Hn) as (q & Hq & [r Hr] & Hleast); [done|].
  assert (Z.prime q) as Hqp.
  { split; [lia|]. intros x Hx Hxq. apply (Hleast x Hx). rewrite Hr. by apply Z.divide_mul_r. }
  destruct (decide (q = n)) as [->|Hne]; [by left|right]. exists q. split; [done|]. split; [by exists r|].
  assert (1 < r) by nia.
  destruct (decide (r < q)) as [Hlt|]; [|nia]. destruct (Hleast r); [lia|]. exists q. lia.
Qed.

Lemma odd_part x : 0 < x → ∃ s t, 0 ≤ s ∧ x = 2 ^ s * t ∧ Z.odd t = true.
Proof.
  intros Hx. assert (0 ≤ x) as H0 by lia. revert Hx. pattern x. apply Z_lt_induction; [|done]. clear x H0.
  intros x IH Hx. destruct (Z.odd x) eqn:Ho; [exists 0, x; split_and!; [lia|by rewrite Z.pow_0_r, Z.mul_1_l|done]|].
  rewrite Zodd_even_bool, negb_false_iff in Ho. apply Z.even_spec in Ho as [y ->].
  destruct (IH y) as (s & t & Hs & -> & Ht); [lia|lia|].
  exists (Z.succ s), t. rewrite Z.pow_succ_r by lia. split_and!; [lia|lia|done].
Qed.

(** A number [x] with [x ^ (2 ^ (m - 1))] equal to -1 modulo a prime [q]. *)
Lemma proth_factor q x m : Z.prime q → q ≠ 2 → 0 < m → (q | x ^ (2 ^ (m - 1)) + 1) → 2 ^ m < q.
Proof.
  intros Hq H2 Hm Hd. pose proof (prime_gt_1 q Hq). destruct (odd_part (q - 1)) as (s & t & Hs & Hqt & Ht); [lia|].
  assert (0 < t) by (pose proof (Z.pow_pos_nonneg 2 s); nia).
  destruct (decide (m ≤ s)) as [Hle|Hlt].
  { pose proof (Z.pow_le_mono_r 2 m s). nia. }
  assert (¬ (q | x)) as Hx.
  { intros Hx. assert (q | x ^ 2 ^ (m - 1)) as Hy.
    { replace (2 ^ (m - 1)) with (Z.succ (2 ^ (m - 1) - 1)) by lia. pose proof (Z.pow_pos_nonneg 2 (m - 1)).
      rewrite Z.pow_succ_r by lia. by apply Z.divide_mul_l. }
    pose proof (Z.divide_sub_r _ _ _ Hd Hy) as H1. rewrite Z.add_comm, Z.add_simpl_r in H1.
    apply Z.divide_1_r_nonneg in H1; lia. }
  assert (x ^ (2 ^ (m - 1) * t) mod q = 1) as H1.
  { replace (2 ^ (m - 1) * t) with ((q - 1) * 2 ^ (m - 1 - s)).
    - rewrite Z.pow_mul_r, Zpower_mod, fermat, Z.pow_1_l, Z.mod_1_l by (done || lia). done.
    - rewrite Hqt. replace (m - 1) with (s + (m - 1 - s)) at 2 by lia. rewrite Z.pow_add_r by lia. lia. }
  assert (q | x ^ (2 ^ (m - 1) * t) + 1) as H3.
  { rewrite Z.pow_mul_r by lia. set (y := x ^ 2 ^ (m - 1)) in *. destruct Hd as [z Hz].
    replace y with (-1 + z * q) by lia. apply Z.mod_divide; [lia|].
    rewrite <- Zplus_mod_idemp_l, Zpower_mod, Z.mod_add, <- Zpower_mod by lia.
    apply Z.odd_spec in Ht as [w ->]. rewrite Z.pow_add_r, Z.pow_mul_r by lia. change ((-1) ^ 2) with 1.
    rewrite Z.pow_1_l by lia. by rewrite Zplus_mod_idemp_l. }
  apply Z.mod_divide in H3; [|lia]. rewrite <- Zplus_mod_idemp_l, H1 in H3. apply Z.mod_divide in H3; [|lia].
  apply Z.divide_pos_le in H3; lia.
Qed.

Lemma proth k m a :
  0 < m → 0 < k < 2 ^ m → (a ^ k) ^ (2 ^ (m - 1)) mod (k * 2 ^ m + 1) = k * 2 ^ m → Z.prime (k * 2 ^ m + 1).
Proof.
  intros Hm Hk Ha. set (p := k * 2 ^ m + 1) in *.
  destruct (prime_factor p) as [?|(q & Hq & Hqp & Hqq)]; [unfold p; nia|done|]. exfalso.
  assert (2 ^ m < q); [|unfold p in *; nia]. apply (proth_factor q (a ^ k)); [done| |done|].
  - intros ->. destruct Hqp as [y Hy]. unfold p in Hy. replace m with (Z.succ (m - 1)) in Hy by lia.
    rewrite Z.pow_succ_r in Hy by lia. lia.
  - etrans; [exact Hqp|]. apply Z.mod_divide; [unfold p; nia|].
    rewrite <- Zplus_mod_idemp_l, Ha. unfold p. apply Z.mod_same. nia.
Qed.

(** The test by repeated squaring. *)
Definition proth_test (k m a : Z) : bool :=
  (0 <? m) && (0 <? k) && (k <? 2 ^ m) && (Zpow_mod a (k * 2 ^ (m - 1)) (k * 2 ^ m + 1) =? k * 2 ^ m).

Lemma proth_test_prime k m a : proth_test k m a = true → Z.prime (k * 2 ^ m + 1).
Proof.
  unfold proth_test. rewrite !andb_true_iff, !Z.ltb_lt, Z.eqb_eq. intros [[[Hm Hk] Hk'] Ha].
  apply (proth k m a); [done|done|]. rewrite <- Ha at 2. rewrite Zpow_mod_correct by nia.
  by rewrite Z.pow_mul_r by (pose proof (Z.pow_pos_nonneg 2 (m - 1)); lia).
Qed.
