(* ===== verification/Rsa.v ===== *)
(** * RSA (src/crypto/rsa.c, src/include/ipxe/rsa.h)

    Keys, encryption and signatures of RFC 3447 (PKCS #1 version 1.5), on the big
    integers of Bigint.v, the cursors of Asn1.v and the random bytes of RandomNz.v.
    The dynamic storage of a context holds four big integers; messages are encoded
    in the bytes of the input or of the output.  The working space of the modular
    exponentiation holds whatever it held: [tmp], for every call.  [None] is an
    access outside of the storage. *)

From S2P Require Import Prelude Bigint RandomNz Asn1 RsaPower.

(** ** Digest algorithms *)

(** The digest algorithms of the sources: those with an object identifier, the
    hybrid of net/tls.c and the null one. *)
Inductive digest_algorithm : Set := digest (id : digest_id) | md5_sha1_algorithm | digest_null.

#[export] Instance digest_algorithm_eq_dec : EqDecision digest_algorithm.
Proof. solve_decision. Defined.

Definition digestsize (digest_ : digest_algorithm) : nat :=
  match digest_ with
  | digest MD5 => 16
  | digest SHA1 => 20
  | digest SHA256 => 32
  | md5_sha1_algorithm => 36
  | digest_null => 0
  end%nat.

Definition RSA_DIGESTALGORITHM_CONTENTS (oid : bytes) : bytes :=
  [ASN1_OID; Zlen oid] ++ oid ++ [ASN1_NULL; 0x00].
Definition RSA_DIGESTALGORITHM (oid : bytes) : bytes :=
  [ASN1_SEQUENCE; Zlen (RSA_DIGESTALGORITHM_CONTENTS oid)] ++ RSA_DIGESTALGORITHM_CONTENTS oid.
Definition RSA_DIGEST_PREFIX (digest_size : Z) : bytes := [ASN1_OCTET_STRING; digest_size].
Definition RSA_DIGESTINFO_PREFIX (digest_size : Z) (oid : bytes) : bytes :=
  [ASN1_SEQUENCE; Zlen (RSA_DIGESTALGORITHM oid) + Zlen (RSA_DIGEST_PREFIX digest_size) + digest_size] ++
  RSA_DIGESTALGORITHM oid ++ RSA_DIGEST_PREFIX digest_size.

(** The table of prefixes: those of rsa.c and the empty one of net/tls.c. *)
Definition RSA_DIGESTINFO_PREFIXES : list (digest_algorithm * bytes) := [
  (digest MD5, RSA_DIGESTINFO_PREFIX 16 ASN1_OID_MD5);
  (digest SHA1, RSA_DIGESTINFO_PREFIX 20 ASN1_OID_SHA1);
  (digest SHA256, RSA_DIGESTINFO_PREFIX 32 ASN1_OID_SHA256);
  (md5_sha1_algorithm, []) ].

Definition rsa_find_prefix (digest_ : digest_algorithm) : option bytes :=
  snd ∘ snd <$> list_find (λ prefix, prefix.1 = digest_) RSA_DIGESTINFO_PREFIXES.

(** ** Contexts *)

Record rsa_dynamic : Type := Dynamic {
  modulus : bigint;
  exponent : bigint;
  input : bigint;
  output : bigint;
}.

(** The pointers into the storage are the fields of [dynamic]. *)
Record rsa_context : Type := Context_ {
  dynamic : option rsa_dynamic;
  size : nat;
  max_len : Z;
  exponent_size : nat;
}.

Definition rsa_free (context : rsa_context) : rsa_context :=
  Context_ None (size context) (max_len context) (exponent_size context).

(** [fresh] is what malloc returns: memory with some contents, or NULL. *)
Definition rsa_alloc (fresh : option (nat → element)) (context : rsa_context) (modulus_len exponent_len : Z)
    : rsa_context * res unit :=
  let size := Z.to_nat (bigint_required_size modulus_len) in
  let exponent_size := Z.to_nat (bigint_required_size exponent_len) in
  (* Free any existing dynamic storage *)
  let context := rsa_free context in
  (* Allocate dynamic storage *)
  match fresh with
  | None => (context, Err ENOMEM)
  | Some memory =>
      let elements offset n := memory <$> seq offset n in
      (* Assign dynamic storage *)
      (Context_ (Some (Dynamic (elements 0%nat size) (elements size exponent_size)
                         (elements (size + exponent_size)%nat size) (elements (2 * size + exponent_size)%nat size)))
         size modulus_len exponent_size, Ok tt)
  end.

Definition rsa_parse_integer (raw : asn1_cursor) : res asn1_cursor :=
  (* Enter integer *)
  let '(integer, _) := asn1_enter raw ASN1_INTEGER in
  (* Skip initial sign byte if applicable *)
  let integer := if (1 <? len integer) && (byte (data integer) 0 =? 0x00) then next integer else integer in
  (* Fail if cursor or integer are invalid *)
  if len integer =? 0 then Err EINVAL else Ok integer.

(** [None] when the key format is read behind the end of the memory. *)
Definition rsa_parse_mod_exp (raw : asn1_cursor) : option (res (asn1_cursor * asn1_cursor)) :=
  (* Enter subjectPublicKeyInfo/RSAPrivateKey *)
  let '(cursor, _) := asn1_enter raw ASN1_SEQUENCE in
  (* Determine key format *)
  type ← asn1_type cursor;
  Some (
  '(cursor, is_private) ←
    (if type =? ASN1_INTEGER then
       (* Private key: skip version *)
       let '(cursor, _) := asn1_skip_any cursor in Ok (cursor, true)
     else
       (* Public key: skip algorithm *)
       let '(cursor, _) := asn1_skip cursor ASN1_SEQUENCE in
       (* Enter subjectPublicKey *)
       bits ← asn1_integral_bit_string cursor;
       let cursor := Cursor (bs_data bits) (bs_len bits) in
       (* Enter RSAPublicKey *)
       let '(cursor, _) := asn1_enter cursor ASN1_SEQUENCE in Ok (cursor, false));
  (* Extract modulus *)
  modulus ← rsa_parse_integer cursor;
  let '(cursor, _) := asn1_skip_any cursor in
  (* Skip public exponent, if applicable *)
  let cursor := if (is_private : bool) then (asn1_skip cursor ASN1_INTEGER).1 else cursor in
  (* Extract publicExponent/privateExponent *)
  exponent ← rsa_parse_integer cursor;
  Ok (modulus, exponent)).

Definition rsa_init (fresh : option (nat → element)) (key : bytes) (key_len : Z) : option (rsa_context * res unit) :=
  (* Initialise context *)
  let context := Context_ None 0 0 0 in
  (* Initialise cursor *)
  let cursor := Cursor key key_len in
  (* Parse modulus and exponent *)
  parsed ← rsa_parse_mod_exp cursor;
  match parsed with
  | Err rc => Some (context, Err rc)
  | Ok (modulus_, exponent_) =>
      (* Allocate dynamic storage *)
      match rsa_alloc fresh context (len modulus_) (len exponent_) with
      | (context, Err rc) => Some (context, Err rc)
      | (context, Ok _) =>
          (* Construct big integers *)
          dyn ← dynamic context;
          modulus ← bigint_init_raw (size context) (contents modulus_);
          exponent ← bigint_init_raw (exponent_size context) (contents exponent_);
          Some (Context_ (Some (Dynamic modulus exponent (input dyn) (output dyn)))
                  (size context) (max_len context) (exponent_size context), Ok tt)
      end
  end.

Definition rsa_max_len (context : rsa_context) : Z := max_len context.

Definition rsa_final (context : rsa_context) : rsa_context := rsa_free context.

Definition rsa_match (private_key : bytes) (private_key_len : Z) (public_key : bytes) (public_key_len : Z)
    : option (res unit) :=
  (* Parse moduli and exponents *)
  parsed ← rsa_parse_mod_exp (Cursor private_key private_key_len);
  match parsed with
  | Err rc => Some (Err rc)
  | Ok (private_modulus, _) =>
      parsed ← rsa_parse_mod_exp (Cursor public_key public_key_len);
      match parsed with
      | Err rc => Some (Err rc)
      | Ok (public_modulus, _) =>
          (* Compare moduli *)
          if negb (asn1_compare private_modulus public_modulus =? 0) then Some (Err ENOTTY) else Some (Ok tt)
      end
  end.

(** ** Buffers *)

(** The input or the output as bytes, and with bytes written into it. *)
Definition write (buffer : bigint) (offset : Z) (bs : bytes) : option bigint :=
  if decide (0 ≤ offset ∧ offset + Zlen bs ≤ 4 * Zlen buffer)
  then Some (of_bytes (length buffer) (store (to_bytes buffer) (Z.to_nat offset) bs))
  else None.

Definition set_input (context : rsa_context) (input : bigint) : rsa_context :=
  Context_ ((λ dyn, Dynamic (modulus dyn) (exponent dyn) input (output dyn)) <$> dynamic context)
    (size context) (max_len context) (exponent_size context).
Definition set_output (context : rsa_context) (output : bigint) : rsa_context :=
  Context_ ((λ dyn, Dynamic (modulus dyn) (exponent dyn) (input dyn) output) <$> dynamic context)
    (size context) (max_len context) (exponent_size context).

(** ** Encryption *)

(** memchr of src/core/string.c: the offset of the byte. *)
Fixpoint memchr (s : bytes) (c : Z) (n : nat) : option nat :=
  match n with
  | O => None
  | S n => if u8 c =? byte s 0 then Some 0%nat else S <$> memchr (drop 1 s) c n
  end.

Section rsa.
Context `{Platform}.
(** rbg_generate for one byte. *)
Context {state : Type} (draw : state → res Z * state).

(** [in_] holds at least [max_len] bytes. *)
Definition rsa_cipher (tmp : bigint) (context : rsa_context) (in_ : bytes) : option (rsa_context * bytes) :=
  dyn ← dynamic context;
  (* Initialise big integer *)
  input ← bigint_init_raw (size context) (take (Z.to_nat (max_len context)) in_);
  (* Perform modular exponentiation *)
  output ← bigint_mod_exp_raw (size context) input (modulus dyn) (exponent dyn) tmp;
  (* Copy out result *)
  out ← bigint_done_raw output (Z.to_nat (max_len context));
  Some (set_output (set_input context input) output, out).

(** The context, the generator, and the ciphertext.  [fuel] bounds the bytes drawn. *)
Definition rsa_encrypt (tmp : bigint) (fuel : nat) (context : rsa_context) (plaintext : bytes) (s : state)
    : option (rsa_context * state * res bytes) :=
  let max_len_ := usize (max_len context - 11) in
  let random_nz_len := usize (max_len_ - Zlen plaintext + 8) in
  (* Sanity check *)
  if max_len_ <? Zlen plaintext then Some (context, s, Err ERANGE)
  else
    (* Construct encoded message (using the big integer output buffer as temporary storage) *)
    dyn ← dynamic context;
    encoded ← write (output dyn) 0 [0x00; 0x02];
    if 4 * Zlen encoded <? 2 + random_nz_len then None
    else
      '(rc, random, s) ← get_random_nz draw fuel (drop 2 (to_bytes encoded)) (Z.to_nat random_nz_len) s;
      encoded ← write encoded 2 random;
      match rc with
      | Err rc => Some (set_output context encoded, s, Err rc)
      | Ok _ =>
          encoded ← write encoded (2 + random_nz_len) [0x00];
          encoded ← write encoded (max_len context - Zlen plaintext) plaintext;
          (* Encipher the encoded message *)
          '(context, ciphertext) ← rsa_cipher tmp (set_output context encoded) (to_bytes encoded);
          Some (context, s, Ok ciphertext)
      end.

Definition rsa_decrypt (tmp : bigint) (context : rsa_context) (ciphertext : bytes) : option (rsa_context * res bytes) :=
  (* Sanity check *)
  if negb (Zlen ciphertext =? max_len context) then Some (context, Err ERANGE)
  else
    (* Decipher the message (using the big integer input buffer as temporary storage) *)
    '(context, out) ← rsa_cipher tmp context ciphertext;
    dyn ← dynamic context;
    encoded ← write (input dyn) 0 out;
    let context := set_input context encoded in
    let encoded := to_bytes encoded in
    (* Parse the message *)
    if negb (byte encoded 0 =? 0x00) || negb (byte encoded 1 =? 0x02) then Some (context, Err EINVAL)
    else if max_len context <? 2 then None
    else
      match memchr (drop 2 encoded) 0 (Z.to_nat (max_len context - 2)) with
      | None => Some (context, Err EINVAL)
      | Some zero =>
          let start := (2 + zero + 1)%nat in
          (* Copy out message *)
          Some (context, Ok (field encoded start (Z.to_nat (max_len context) - start)))
      end.

(** ** Signatures *)

(** [encoded] is the buffer the message is encoded in. *)
Definition rsa_encode_digest (context : rsa_context) (digest_ : digest_algorithm) (value : bytes) (encoded : bigint)
    : option (bigint * res unit) :=
  (* Identify prefix *)
  match rsa_find_prefix digest_ with
  | None => Some (encoded, Err ENOTSUP)
  | Some prefix =>
      let digestinfo_len := Zlen prefix + Z.of_nat (digestsize digest_) in
      (* Sanity check *)
      let max_len_ := usize (max_len context - 11) in
      if max_len_ <? digestinfo_len then Some (encoded, Err ERANGE)
      else
        (* Construct encoded message *)
        encoded ← write encoded 0 [0x00; 0x01];
        let pad_len := usize (max_len_ - digestinfo_len + 8) in
        if 4 * Zlen encoded <? 2 + pad_len then None
        else
          encoded ← write encoded 2 (replicate (Z.to_nat pad_len) 0xff);
          encoded ← write encoded (2 + pad_len) [0x00];
          encoded ← write encoded (3 + pad_len) prefix;
          encoded ← write encoded (3 + pad_len + Zlen prefix) (take (digestsize digest_) value);
          Some (encoded, Ok tt)
  end.

Definition rsa_sign (tmp : bigint) (context : rsa_context) (digest_ : digest_algorithm) (value : bytes)
    : option (rsa_context * res bytes) :=
  (* Encode digest (using the big integer output buffer as temporary storage) *)
  dyn ← dynamic context;
  '(encoded, rc) ← rsa_encode_digest context digest_ value (output dyn);
  let context := set_output context encoded in
  match rc with
  | Err rc => Some (context, Err rc)
  | Ok _ =>
      (* Encipher the encoded digest *)
      '(context, signature) ← rsa_cipher tmp context (to_bytes encoded);
      Some (context, Ok signature)
  end.

Definition rsa_verify (tmp : bigint) (context : rsa_context) (digest_ : digest_algorithm) (value signature : bytes)
    : option (rsa_context * res unit) :=
  (* Sanity check *)
  if negb (Zlen signature =? max_len context) then Some (context, Err ERANGE)
  else
    (* Decipher the signature (using the big integer input buffer as temporary storage) *)
    '(context, out) ← rsa_cipher tmp context signature;
    dyn ← dynamic context;
    expected ← write (input dyn) 0 out;
    let context := set_input context expected in
    (* Encode digest (using the big integer output buffer as temporary storage) *)
    '(actual, rc) ← rsa_encode_digest context digest_ value (output dyn);
    let context := set_output context actual in
    match rc with
    | Err rc => Some (context, Err rc)
    | Ok _ =>
        (* Verify the signature *)
        if negb (memcmp (to_bytes actual) (to_bytes expected) (Z.to_nat (max_len context)) =? 0)
        then Some (context, Err EACCES) else Some (context, Ok tt)
    end.
End rsa.

(** ** Buffers as bytes *)

Lemma is_bytes_to_bytes buffer : is_bytes (to_bytes buffer).
Proof. apply is_bytes_le_bytes. Qed.
Lemma length_to_bytes buffer : length (to_bytes buffer) = (4 * length buffer)%nat.
Proof. apply length_le_bytes. Qed.

Lemma le_split_take n k v : (k ≤ n)%nat → take k (le_split n v) = le_split k v.
Proof.
  revert k v. induction n as [|n IH]; intros [|k] v Hk; try done; [lia|]. cbn. by rewrite IH by lia.
Qed.

Lemma le_combine_to_bytes value : wf value → le_combine (to_bytes value) = bval value.
Proof.
  induction 1 as [|v value Hv _ IH]; [done|]. change (to_bytes (v :: value)) with (le_split 4 v ++ to_bytes value).
  rewrite le_combine_app, length_le_split, IH, le_combine_split, Z.mod_small by done. done.
Qed.

(** The low bytes of a big integer, most significant first. *)
Lemma bigint_done_spec value n :
  wf value → (0 < n ≤ 4 * length value)%nat → bigint_done_raw value n = Some (be_split n (bval value)).
Proof.
  intros Hw Hn. unfold bigint_done_raw. rewrite decide_False by lia.
  rewrite copy_reversed_spec by (rewrite length_to_bytes; lia). unfold be_split. do 2 f_equal.
  rewrite <- le_combine_to_bytes by done.
  rewrite <- (le_split_combine (to_bytes value)) at 1 by apply is_bytes_to_bytes.
  apply le_split_take. rewrite length_to_bytes. lia.
Qed.

(** Bytes written after those the buffer begins with. *)
Lemma write_next buffer done_ offset bs :
  done_ `prefix_of` to_bytes buffer → offset = Zlen done_ → is_bytes bs →
  Zlen done_ + Zlen bs ≤ 4 * Zlen buffer →
  ∃ buffer', write buffer offset bs = Some buffer' ∧ length buffer' = length buffer ∧
             (done_ ++ bs) `prefix_of` to_bytes buffer'.
Proof.
  intros [rest Hp] -> Hb Hl. unfold write. rewrite decide_True by lia. eexists. split; [done|].
  split; [apply length_of_bytes|].
  pose proof (length_to_bytes buffer) as Hlen. pose proof (is_bytes_to_bytes buffer) as Hbytes.
  assert (to_bytes buffer = done_ ++ rest → store (to_bytes buffer) (Z.to_nat (Zlen done_)) bs = done_ ++ bs ++ drop (length bs) rest) as Hs.
  { intros ->. unfold store. rewrite Nat2Z.id, take_app_length. do 2 f_equal. by rewrite <- drop_drop, drop_app_length. }
  rewrite Hs by done. rewrite Hp in Hlen, Hbytes. rewrite length_app in Hlen. apply Forall_app in Hbytes as [Hd Hr].
  destruct (of_bytes_spec (length buffer) (done_ ++ bs ++ drop (length bs) rest)) as (_ & _ & ->).
  - apply Forall_app. split; [done|]. apply Forall_app. split; [done|by apply Forall_drop].
  - rewrite !length_app, length_drop. lia.
  - rewrite app_assoc. by eexists.
Qed.

Lemma prefix_take (l buffer : bytes) n : l `prefix_of` buffer → n = length l → take n buffer = l.
Proof. intros [rest ->] ->. apply take_app_length. Qed.

Lemma memchr_spec l rest n :
  Forall (λ b, b ≠ 0) l → (length l < n)%nat → memchr (l ++ 0 :: rest) 0 n = Some (length l).
Proof.
  intros Hl. revert n. induction Hl as [|b l Hb _ IH]; intros [|n] Hn; cbn [length] in Hn; try lia; [done|].
  cbn [memchr app]. rewrite byte_head. change (u8 0) with 0. rewrite (proj2 (Z.eqb_neq _ _)) by done.
  cbn [drop]. rewrite drop_0, IH by lia. done.
Qed.

(** ** Contexts with a key *)

(** What a power is reduced by.  A modulus of zero is not refused: it reduces nothing,
    and [k] bytes of the power are kept. *)
Definition effective_modulus (k : nat) (n : Z) : Z := if n =? 0 then 256 ^ Z.of_nat k else n.

(** The modulus [n] of [k] bytes and the exponent [e]. *)
Definition keyed (context : rsa_context) (k : nat) (n e : Z) : Prop :=
  max_len context = Z.of_nat k ∧ Z.of_nat k < 2 ^ 31 ∧ (0 < k ≤ 4 * size context)%nat ∧
  0 < n ≤ 256 ^ Z.of_nat k ∧
  ∃ dyn, dynamic context = Some dyn ∧
    wf (modulus dyn) ∧ length (modulus dyn) = size context ∧ effective_modulus k (bval (modulus dyn)) = n ∧
    wf (exponent dyn) ∧ exponent dyn ≠ [] ∧ bval (exponent dyn) = e ∧
    length (input dyn) = size context ∧ length (output dyn) = size context.

Lemma keyed_set_input context k n e buffer :
  keyed context k n e → length buffer = size context → keyed (set_input context buffer) k n e.
Proof.
  intros (H1 & H2 & H3 & H4 & dyn & Hd & ? & ? & ? & ? & ? & ? & ? & ?) Hb. split_and!; try done; try apply H3; try apply H4.
  unfold set_input. cbn. rewrite Hd. eexists. split; [done|]. by split_and!.
Qed.
Lemma keyed_set_output context k n e buffer :
  keyed context k n e → length buffer = size context → keyed (set_output context buffer) k n e.
Proof.
  intros (H1 & H2 & H3 & H4 & dyn & Hd & ? & ? & ? & ? & ? & ? & ? & ?) Hb. split_and!; try done; try apply H3; try apply H4.
  unfold set_output. cbn. rewrite Hd. eexists. split; [done|]. by split_and!.
Qed.

(** The cipher: a power modulo the modulus, from [k] bytes to [k] bytes; a zero
    exponent gives one. *)
Definition power (k : nat) (n e : Z) (m : bytes) : bytes :=
  be_split k (if e =? 0 then 1 else be_combine m ^ e mod n).

Lemma pow_256 k : 256 ^ Z.of_nat k = 2 ^ (8 * Z.of_nat k).
Proof. rewrite Z.pow_mul_r by lia. done. Qed.

Lemma be_combine_small k v : 0 ≤ v < 256 ^ Z.of_nat k → be_combine (be_split k v) = v.
Proof. intros Hv. rewrite be_combine_split, <- pow_256. by apply Z.mod_small. Qed.

Lemma be_combine_256 m : is_bytes m → 0 ≤ be_combine m < 256 ^ Zlen m.
Proof.
  intros Hm. unfold be_combine. rewrite <- length_rev, pow_256. exact (le_combine_range (rev m) (Forall_rev Hm)).
Qed.

Lemma be_split_be_combine m : is_bytes m → be_split (length m) (be_combine m) = m.
Proof.
  intros Hm. unfold be_split, be_combine. rewrite <- length_rev, le_split_combine by (by apply Forall_rev).
  apply rev_involutive.
Qed.

Lemma be_split_mod k v : be_split k (v mod 256 ^ Z.of_nat k) = be_split k v.
Proof.
  rewrite pow_256, <- be_combine_split. rewrite <- (length_be_split k v) at 1. apply be_split_be_combine, be_split_bytes.
Qed.

Lemma be_split_divisor k size_ m x :
  (k ≤ 4 * size_)%nat → be_split k (x mod divisor size_ m) = be_split k (x mod effective_modulus k (bval m)).
Proof.
  intros Hk. unfold divisor, effective_modulus. destruct (Z.eqb_spec (bval m) 0); [|done].
  rewrite be_split_mod, <- (be_split_mod k (x mod _)). rewrite pow_2, pow_256.
  replace (32 * Z.of_nat size_) with (8 * Z.of_nat k + (32 * Z.of_nat size_ - 8 * Z.of_nat k)) by lia.
  rewrite Z.pow_add_r, Z.rem_mul_r, (Z.mul_comm (2 ^ (8 * Z.of_nat k))), Z.mod_add, Z.mod_mod by lia.
  rewrite <- pow_256. apply be_split_mod.
Qed.

Lemma rsa_cipher_spec tmp context k n e in_ :
  keyed context k n e → tmp_ok (size context) tmp → is_bytes in_ → (k ≤ length in_)%nat →
  ∃ context', rsa_cipher tmp context in_ = Some (context', power k n e (take k in_)) ∧
              keyed context' k n e ∧ size context' = size context.
Proof.
  intros Hk Ht Hb Hl. pose proof Hk as (Hm & Hk31 & Hks & Hn & dyn & Hd & Hwm & Hlm & Hvm & Hwe & Hne & Hve & Hli & Hlo).
  unfold rsa_cipher. rewrite Hd, Hm, Nat2Z.id. cbn [mbind option_bind].
  destruct (init_raw_spec (size context) (take k in_)) as (inp & -> & Hwi & Hlen & Hvi & _).
  - by apply Forall_take.
  - intros Hz%(f_equal length). rewrite length_take in Hz. cbn in Hz. lia.
  - rewrite length_take. lia.
  - cbn [mbind option_bind].
    destruct (bigint_mod_exp_divisor (size context) inp (modulus dyn) (exponent dyn) tmp) as (r & -> & Hwr & Hlr & Hvr); try done; [lia|].
    cbn [mbind option_bind]. rewrite bigint_done_spec by (done || lia). cbn [mbind option_bind].
    assert (be_split k (bval r) = power k n e (take k in_)) as ->.
    { unfold power. rewrite Hvr, Hve, Hvi. destruct (e =? 0); [done|]. rewrite <- Hvm. apply be_split_divisor. lia. }
    eexists. split; [done|]. split; [|done]. apply keyed_set_output; [by apply keyed_set_input|done].
Qed.

Section messages.
Context `{Platform} {state : Type} (draw : state → res Z * state).

(** ** Encrypted messages *)

(** EME-PKCS1-v1_5. *)
Definition encryption_message (nz plaintext : bytes) : bytes := [0x00; 0x02] ++ nz ++ [0x00] ++ plaintext.

Lemma rsa_encrypt_spec tmp fuel context k n e plaintext s bs :
  keyed context k n e → tmp_ok (size context) tmp → is_bytes plaintext → is_bytes bs →
  (length plaintext + 11 ≤ k)%nat → draws draw fuel s = Some bs → (k - 3 - length plaintext ≤ length (nonzero bs))%nat →
  ∃ context' s',
    rsa_encrypt draw tmp fuel context plaintext s =
      Some (context', s', Ok (power k n e (encryption_message (take (k - 3 - length plaintext) (nonzero bs)) plaintext))) ∧
    keyed context' k n e ∧ size context' = size context.
Proof.
  intros Hk Ht Hp Hbs Hl Hd Hn. pose proof Hk as (Hm & Hk31 & Hks & _ & dyn & Hdyn & _ & _ & _ & _ & _ & _ & _ & Hlo).
  unfold rsa_encrypt. rewrite Hm, !usize_small, Hdyn by lia. cbn [mbind option_bind].
  destruct (Z.ltb_spec (Z.of_nat k - 11) (Zlen plaintext)); [lia|].
  set (r := (k - 3 - length plaintext)%nat) in *.
  replace (Z.of_nat k - 11 - Zlen plaintext + 8) with (Z.of_nat r) by lia.
  destruct (write_next (output dyn) [] 0 [0x00; 0x02]) as (e1 & -> & Hl1 & Hp1); [by eexists|done|by_decide|cbn; lia|].
  cbn [mbind option_bind]. destruct (Z.ltb_spec (4 * Zlen e1) (2 + Z.of_nat r)); [lia|]. rewrite Nat2Z.id.
  destruct (get_random_nz_spec draw fuel (drop 2 (to_bytes e1)) r s bs Hd Hn) as [s' ->]. cbn [mbind option_bind].
  set (nz := take r (nonzero bs)). assert (length nz = r) as Hnz by (unfold nz; rewrite length_take; lia).
  assert (is_bytes nz) as Hbnz.
  { apply Forall_take. unfold nonzero. apply Forall_forall. intros x [_ Hx]%list_elem_of_filter. by eapply Forall_forall in Hbs. }
  pose proof (length_to_bytes e1) as Hle1. pose proof (is_bytes_to_bytes e1) as Hbe1.
  destruct (write_next e1 [0x00; 0x02] 2 (nz ++ drop r (drop 2 (to_bytes e1)))) as (e2 & -> & Hl2 & Hp2);
    [done|done|apply Forall_app; split; [done|by apply Forall_drop, Forall_drop]|rewrite length_app, !length_drop; cbn; lia|].
  rewrite app_assoc in Hp2. apply prefix_app_l in Hp2. cbn [mbind option_bind].
  destruct (write_next e2 ([0x00; 0x02] ++ nz) (2 + Z.of_nat r) [0x00]) as (e3 & -> & Hl3 & Hp3);
    [done|rewrite length_app; cbn [length]; lia|by_decide|rewrite length_app; cbn [length]; lia|].
  cbn [mbind option_bind].
  destruct (write_next e3 (([0x00; 0x02] ++ nz) ++ [0x00]) (Z.of_nat k - Zlen plaintext) plaintext) as (e4 & -> & Hl4 & Hp4);
    [done|rewrite !length_app; cbn [length]; lia|done|rewrite !length_app; cbn [length]; lia|].
  cbn [mbind option_bind]. rewrite <- !app_assoc in Hp4. fold (encryption_message nz plaintext) in Hp4.
  destruct (rsa_cipher_spec tmp (set_output context e4) k n e (to_bytes e4)) as (context' & -> & Hk' & Hs');
    [apply keyed_set_output; [done|lia]|done|apply is_bytes_to_bytes|rewrite length_to_bytes; lia|].
  exists context', s'. cbn [mbind option_bind]. split; [|done]. do 4 f_equal. apply prefix_take; [done|].
  unfold encryption_message. rewrite !length_app, Hnz. cbn [length]. lia.
Qed.
Lemma length_power k n e m : length (power k n e m) = k.
Proof. apply length_be_split. Qed.
Lemma is_bytes_power k n e m : is_bytes (power k n e m).
Proof. apply be_split_bytes. Qed.

(** The bytes deciphered into the input buffer. *)
Lemma rsa_decipher tmp context k n e in_ :
  keyed context k n e → tmp_ok (size context) tmp → is_bytes in_ → length in_ = k →
  ∃ context' dyn encoded,
    rsa_cipher tmp context in_ = Some (context', power k n e in_) ∧ keyed context' k n e ∧ size context' = size context ∧
    dynamic context' = Some dyn ∧ length (output dyn) = size context ∧
    write (input dyn) 0 (power k n e in_) = Some encoded ∧ length encoded = size context ∧
    power k n e in_ `prefix_of` to_bytes encoded.
Proof.
  intros Hk Ht Hb Hl. destruct (rsa_cipher_spec tmp context k n e in_) as (context' & Hc & Hk' & Hs); try done; [lia|].
  rewrite take_ge in Hc by lia.
  pose proof Hk' as (_ & _ & Hks & _ & dyn & Hdyn & _ & _ & _ & _ & _ & _ & Hli & Hlo).
  destruct (write_next (input dyn) [] 0 (power k n e in_)) as (encoded & Hw & Hle & Hp);
    [by eexists|done|apply is_bytes_power|rewrite length_power; cbn; lia|].
  exists context', dyn, encoded. rewrite <- Hs. split_and!; (done || congruence || apply Hk').
Qed.

Lemma byte_prefix l buffer i : l `prefix_of` buffer → (i < length l)%nat → byte buffer i = byte l i.
Proof. intros [rest ->] Hi. unfold byte. by rewrite lookup_app_l. Qed.

Lemma rsa_decrypt_spec tmp context k n d ciphertext nz plaintext :
  keyed context k n d → tmp_ok (size context) tmp → is_bytes ciphertext → length ciphertext = k →
  power k n d ciphertext = encryption_message nz plaintext → Forall (λ b, b ≠ 0) nz →
  ∃ context', rsa_decrypt tmp context ciphertext = Some (context', Ok plaintext) ∧ keyed context' k n d.
Proof.
  intros Hk Ht Hb Hl Hp Hnz. unfold rsa_decrypt. pose proof Hk as (Hm & _).
  rewrite Hm, Hl, Z.eqb_refl. cbn [negb].
  destruct (rsa_decipher tmp context k n d ciphertext) as (context' & dyn & encoded & -> & Hk' & Hs & Hdyn & _ & Hw & Hle & Hpre); try done.
  cbn [mbind option_bind]. rewrite Hdyn. cbn [mbind option_bind]. rewrite Hw. cbn [mbind option_bind].
  pose proof (length_power k n d ciphertext) as Hlen. rewrite Hp in Hpre, Hlen.
  assert (length (encryption_message nz plaintext) = 3 + length nz + length plaintext)%nat as Hlm.
  { unfold encryption_message. rewrite !length_app. cbn [length]. lia. }
  rewrite !(byte_prefix _ _ _ Hpre) by lia. cbn [negb orb encryption_message byte app lookup list_lookup default].
  change (max_len (set_input context' encoded)) with (max_len context'). destruct Hk' as (Hm' & Hrest). rewrite Hm'.
  cbn. destruct (Z.ltb_spec (Z.of_nat k) 2); [lia|]. destruct Hpre as [rest Hr]. rewrite Hr.
  replace (Z.to_nat (Z.of_nat k - 2)) with (k - 2)%nat by lia. rewrite Nat2Z.id.
  replace (drop 2 (encryption_message nz plaintext ++ rest)) with (nz ++ 0 :: plaintext ++ rest).
  2: { unfold encryption_message. simpl_app. done. }
  rewrite memchr_spec by (done || lia). eexists. split.
  - do 3 f_equal. unfold field.
    replace (encryption_message nz plaintext ++ rest) with (([0x00; 0x02] ++ nz ++ [0x00]) ++ plaintext ++ rest)
      by (unfold encryption_message; by simpl_app).
    rewrite drop_app_length' by (rewrite !length_app; cbn; lia). apply take_app_length'. lia.
  - apply keyed_set_input; [by split|lia].
Qed.
(** ** Signed messages *)

(** EMSA-PKCS1-v1_5: the message for a DigestInfo [t] in [k] bytes. *)
Definition signature_message (k : nat) (t : bytes) : bytes :=
  [0x00; 0x01] ++ replicate (k - 3 - length t) 0xff ++ [0x00] ++ t.

Lemma length_signature_message k t : (length t + 3 ≤ k)%nat → length (signature_message k t) = k.
Proof. intros Hl. unfold signature_message. rewrite !length_app, length_replicate. cbn [length]. lia. Qed.

Lemma is_bytes_signature_message k t : is_bytes t → is_bytes (signature_message k t).
Proof.
  intros Ht. unfold signature_message. repeat (apply Forall_app; split); try done; try by_decide.
  apply Forall_replicate. by_decide.
Qed.

(** The value that is signed (RFC 3447, 9.2 and B.1), in the DER of X.690: a tag, a
    length below 128 and the contents. *)
Definition der (tag : Z) (body : bytes) : bytes := tag :: Zlen body :: body.

(** An arc of an object identifier: seven bits in a byte, the last byte below 128. *)
Fixpoint base128 (fuel : nat) (arc mark : Z) : bytes :=
  match fuel with
  | O => []
  | S fuel => (if arc <? 128 then [] else base128 fuel (arc / 128) 128) ++ [arc mod 128 + mark]
  end.
Definition oid_contents (arcs : list Z) : bytes :=
  match arcs with
  | x :: y :: arcs => mjoin ((λ arc, base128 5 arc 0) <$> 40 * x + y :: arcs)
  | _ => []
  end.

(** id-md5, id-sha1 and id-sha256. *)
Definition digest_oid (id : digest_id) : list Z :=
  match id with
  | MD5 => [1; 2; 840; 113549; 2; 5]
  | SHA1 => [1; 3; 14; 3; 2; 26]
  | SHA256 => [2; 16; 840; 1; 101; 3; 4; 2; 1]
  end.

(** DigestInfo: a SEQUENCE of the algorithm, a SEQUENCE of its OBJECT IDENTIFIER and
    NULL, and of the hash as an OCTET STRING.  The hybrid of TLS 1.1 (RFC 4346, 4.7)
    is signed without one. *)
Definition digest_info (digest_ : digest_algorithm) (value : bytes) : option bytes :=
  match digest_ with
  | digest id => Some (der 0x30 (der 0x30 (der 0x06 (oid_contents (digest_oid id)) ++ der 0x05 []) ++ der 0x04 value))
  | md5_sha1_algorithm => Some value
  | digest_null => None
  end.

(** The prefixes of the table are those of DigestInfo. *)
Lemma prefix_digest_info digest_ value t :
  length value = digestsize digest_ → digest_info digest_ value = Some t →
  ∃ prefix, rsa_find_prefix digest_ = Some prefix ∧ t = prefix ++ value.
Proof.
  intros Hl Ht. destruct digest_ as [id| |]; [|injection Ht as <-; by exists []|done]. cbn [digest_info] in Ht. injection Ht as <-.
  unfold der. rewrite !length_app. cbn [length]. rewrite !length_app. cbn [length]. rewrite Hl. destruct id; (eexists; split; [vm_compute; reflexivity|vm_compute; reflexivity]).
Qed.

Lemma prefixes_bytes : Forall (λ p, is_bytes p.2) RSA_DIGESTINFO_PREFIXES.
Proof. by_decide. Qed.

Lemma rsa_find_prefix_bytes digest_ prefix : rsa_find_prefix digest_ = Some prefix → is_bytes prefix.
Proof.
  unfold rsa_find_prefix. intros ([i [d pr]] & Hf & ->)%fmap_Some. apply list_find_Some in Hf as (Hi & _ & _).
  exact (Forall_lookup_1 _ _ _ _ prefixes_bytes Hi).
Qed.

Lemma rsa_encode_digest_spec context k n e digest_ prefix value encoded :
  keyed context k n e → rsa_find_prefix digest_ = Some prefix → is_bytes value → length value = digestsize digest_ →
  (length prefix + length value + 11 ≤ k)%nat → length encoded = size context →
  ∃ encoded', rsa_encode_digest context digest_ value encoded = Some (encoded', Ok tt) ∧ length encoded' = size context ∧
              signature_message k (prefix ++ value) `prefix_of` to_bytes encoded'.
Proof.
  intros (Hm & Hk31 & Hks & _) Hf Hv Hlv Hl Hle. unfold rsa_encode_digest. rewrite Hf, Hm, <- Hlv.
  rewrite (usize_small (Z.of_nat k - 11)) by lia.
  destruct (Z.ltb_spec (Z.of_nat k - 11) (Zlen prefix + Zlen value)); [lia|].
  set (r := (k - 3 - length (prefix ++ value))%nat). assert (r = k - 3 - length prefix - length value)%nat as Hr
    by (unfold r; rewrite length_app; lia).
  replace (Z.of_nat k - 11 - (Zlen prefix + Zlen value) + 8) with (Z.of_nat r) by lia. rewrite usize_small by lia.
  destruct (write_next encoded [] 0 [0x00; 0x01]) as (e1 & -> & Hl1 & Hp1); [by eexists|done|by_decide|cbn; lia|].
  cbn [mbind option_bind]. destruct (Z.ltb_spec (4 * Zlen e1) (2 + Z.of_nat r)); [lia|]. rewrite Nat2Z.id.
  destruct (write_next e1 ([] ++ [0x00; 0x01]) 2 (replicate r 0xff)) as (e2 & -> & Hl2 & Hp2);
    [done|done|apply Forall_replicate; by_decide|rewrite length_replicate; cbn; lia|]. cbn [mbind option_bind].
  destruct (write_next e2 (([] ++ [0x00; 0x01]) ++ replicate r 0xff) (2 + Z.of_nat r) [0x00]) as (e3 & -> & Hl3 & Hp3);
    [done|rewrite length_app, length_replicate; cbn [length app]; lia|by_decide|rewrite length_app, length_replicate; cbn [length app]; lia|].
  cbn [mbind option_bind].
  destruct (write_next e3 _ (3 + Z.of_nat r) prefix Hp3) as (e4 & -> & Hl4 & Hp4);
    [rewrite !length_app, length_replicate; cbn [length]; lia|by eapply rsa_find_prefix_bytes|rewrite !length_app, length_replicate; cbn [length]; lia|].
  cbn [mbind option_bind]. rewrite take_ge by lia.
  destruct (write_next e4 _ (3 + Z.of_nat r + Zlen prefix) value Hp4) as (e5 & -> & Hl5 & Hp5);
    [rewrite !length_app, length_replicate; cbn [length]; lia|done|rewrite !length_app, length_replicate; cbn [length]; lia|].
  exists e5. split; [done|]. split; [lia|]. unfold signature_message. fold r. by rewrite <- !app_assoc in Hp5.
Qed.

(** Signing raises the message to the exponent. *)
Lemma rsa_sign_spec tmp context k n d digest_ prefix value :
  keyed context k n d → tmp_ok (size context) tmp →
  rsa_find_prefix digest_ = Some prefix → is_bytes value → length value = digestsize digest_ →
  (length prefix + length value + 11 ≤ k)%nat →
  ∃ context', rsa_sign tmp context digest_ value = Some (context', Ok (power k n d (signature_message k (prefix ++ value)))) ∧
              keyed context' k n d.
Proof.
  intros Hk Ht Hf Hv Hlv Hl. pose proof Hk as (_ & _ & Hks & _ & dyn & Hdyn & _ & _ & _ & _ & _ & _ & _ & Hlo).
  unfold rsa_sign. rewrite Hdyn. cbn [mbind option_bind].
  destruct (rsa_encode_digest_spec context k n d digest_ prefix value (output dyn)) as (enc & -> & Hle & Hp); try done.
  cbn [mbind option_bind].
  destruct (rsa_cipher_spec tmp (set_output context enc) k n d (to_bytes enc)) as (context' & -> & Hk' & _);
    [by apply keyed_set_output|done|apply is_bytes_to_bytes|rewrite length_to_bytes; lia|].
  exists context'. cbn [mbind option_bind]. split; [|done]. do 4 f_equal.
  apply prefix_take; [done|]. rewrite length_signature_message; [done|]. rewrite length_app. lia.
Qed.

(** Verification accepts exactly the signatures that decipher to the message. *)
Lemma rsa_verify_spec tmp context k n e digest_ prefix value signature :
  keyed context k n e → tmp_ok (size context) tmp →
  rsa_find_prefix digest_ = Some prefix → is_bytes value → length value = digestsize digest_ →
  (length prefix + length value + 11 ≤ k)%nat → is_bytes signature → length signature = k →
  ∃ context', rsa_verify tmp context digest_ value signature =
    Some (context', if decide (power k n e signature = signature_message k (prefix ++ value)) then Ok tt else Err EACCES) ∧
    keyed context' k n e.
Proof.
  intros Hk Ht Hf Hv Hlv Hl Hb Hls. unfold rsa_verify. pose proof Hk as (Hm & _).
  rewrite Hm, Hls, Z.eqb_refl. cbn [negb].
  destruct (rsa_decipher tmp context k n e signature) as (c1 & dyn & expected & -> & Hk1 & Hs1 & Hdyn & Hlo & Hw & Hle & Hpre); try done.
  cbn [mbind option_bind]. rewrite Hdyn. cbn [mbind option_bind]. rewrite Hw. cbn [mbind option_bind].
  assert (keyed (set_input c1 expected) k n e) as Hk2 by (apply keyed_set_input; [done|congruence]).
  destruct (rsa_encode_digest_spec (set_input c1 expected) k n e digest_ prefix value (output dyn)) as (actual & -> & Hla & Hpa);
    try done; [cbn; congruence|]. cbn [mbind option_bind].
  assert (keyed (set_output (set_input c1 expected) actual) k n e) as Hk3 by (by apply keyed_set_output).
  exists (set_output (set_input c1 expected) actual). split; [|done]. pose proof Hk3 as (-> & _ & Hks & _). rewrite Nat2Z.id.
  assert (memcmp (to_bytes actual) (to_bytes expected) k = 0 ↔ power k n e signature = signature_message k (prefix ++ value)) as Hcmp.
  { rewrite memcmp_zero by (rewrite length_to_bytes; cbn in Hla, Hks; lia).
    rewrite (prefix_take _ _ k Hpa), (prefix_take _ _ k Hpre); [done|by rewrite length_power|].
    rewrite length_signature_message; [done|]. rewrite length_app. lia. }
  destruct (Z.eqb_spec (memcmp (to_bytes actual) (to_bytes expected) k) 0) as [Hz|Hz]; cbn [negb].
  - by rewrite decide_True by (by apply Hcmp).
  - rewrite decide_False; [done|]. by intros ?%Hcmp.
Qed.
End messages.

(** ** Keys *)

Section keys.
Context `{Platform}.

(** The contents of a positive INTEGER: big-endian bytes, the first not zero, after
    a zero byte when that is needed for the sign. *)
Definition number (l : bytes) : Prop := is_bytes l ∧ byte l 0 ≠ 0.

#[export] Instance number_dec l : Decision (number l).
Proof. unfold number. apply _. Defined.

Definition der_integer (l : bytes) : bytes :=
  encode ASN1_INTEGER (if 0x80 <=? byte l 0 then 0x00 :: l else l).

(** SubjectPublicKeyInfo, with the contents of its algorithm. *)
Definition rsa_public_key (algorithm n e : bytes) : bytes :=
  encode ASN1_SEQUENCE (encode ASN1_SEQUENCE algorithm ++
    encode ASN1_BIT_STRING (0x00 :: encode ASN1_SEQUENCE (der_integer n ++ der_integer e))).

(** RSAPrivateKey, with the fields after the private exponent. *)
Definition rsa_private_key (version n e d fields : bytes) : bytes :=
  encode ASN1_SEQUENCE (encode ASN1_INTEGER version ++ der_integer n ++ der_integer e ++ der_integer d ++ fields).

Lemma number_nonempty l : number l → (0 < length l)%nat.
Proof. intros [_ Hz]. destruct l; cbn; [done|lia]. Qed.

Lemma number_range l : number l → 256 ^ (Zlen l - 1) ≤ be_combine l < 256 ^ Zlen l.
Proof.
  intros [Hb Hz]. split; [|by apply be_combine_256]. destruct l as [|x l]; [done|].
  rewrite byte_head in Hz. apply Forall_cons in Hb as [Hx Hb]. unfold in_range in Hx.
  replace (be_combine (x :: l)) with (be_acc x l).
  - rewrite be_acc_combine. pose proof (be_combine_256 l Hb). pose proof (Z.pow_pos_nonneg 256 (Zlen l)).
    replace (Zlen (x :: l) - 1) with (Zlen l) by (cbn [length]; lia). nia.
  - pose proof (be_acc_combine 0 (x :: l)) as He. unfold be_acc in He. cbn [foldl] in He. unfold be_acc.
    by rewrite !Z.mul_0_l, !Z.add_0_l in He.
Qed.

Lemma rsa_parse_integer_spec l rest L :
  number l → Zlen (der_integer l) ≤ L → L < 2 ^ 31 →
  rsa_parse_integer (Cursor (der_integer l ++ rest) L) = Ok (Cursor (l ++ rest) (Zlen l)).
Proof.
  intros Hl HL H31. pose proof (number_nonempty l Hl). destruct Hl as [Hb Hz]. unfold rsa_parse_integer, der_integer in *.
  set (body := if 0x80 <=? byte l 0 then 0x00 :: l else l) in *. pose proof (encode_length ASN1_INTEGER body).
  rewrite asn1_enter_encode by at_object. cbn [len data]. unfold body. clear body HL H1.
  destruct (0x80 <=? byte l 0).
  - cbn [length app]. rewrite byte_head. destruct (Z.ltb_spec 1 (Z.of_nat (S (length l)))); [|lia]. cbn [andb Z.eqb].
    unfold next. cbn [data len drop]. rewrite drop_0. destruct (Z.eqb_spec (Z.of_nat (S (length l)) - 1) 0); [lia|].
    do 2 f_equal. lia.
  - assert (byte (l ++ rest) 0 = byte l 0) as -> by (unfold byte; by rewrite lookup_app_l by lia).
    rewrite (proj2 (Z.eqb_neq _ _) Hz), andb_false_r. cbn [len]. by destruct (Z.eqb_spec (Zlen l) 0); [lia|].
Qed.
Lemma asn1_skip_past type want body rest L :
  in_range 8 type → want = type ∨ want = ASN1_ANY → Zlen (encode type body) < L → L < 2 ^ 31 →
  asn1_skip (Cursor (encode type body ++ rest) L) want = (Cursor rest (L - Zlen (encode type body)), Ok tt).
Proof.
  intros Ht Hw HL H31. pose proof (encode_length type body). rewrite (asn1_skip_encode type) by (done || lia).
  by rewrite (proj2 (Z.eqb_neq _ _)) by lia.
Qed.

Lemma asn1_skip_integer want l rest L :
  want = ASN1_INTEGER ∨ want = ASN1_ANY → Zlen (der_integer l) < L → L < 2 ^ 31 →
  asn1_skip (Cursor (der_integer l ++ rest) L) want = (Cursor rest (L - Zlen (der_integer l)), Ok tt).
Proof. intros. apply asn1_skip_past; [by_decide|done..]. Qed.

Lemma der_integer_length l : 2 + Zlen l ≤ Zlen (der_integer l).
Proof.
  unfold der_integer. pose proof (encode_length ASN1_INTEGER (if 0x80 <=? byte l 0 then 0x00 :: l else l)) as He.
  destruct (0x80 <=? byte l 0); cbn [length] in He; lia.
Qed.

Lemma rsa_parse_public algorithm n e rest :
  number n → number e → Zlen (rsa_public_key algorithm n e) < 2 ^ 31 →
  ∃ rn re, rsa_parse_mod_exp (Cursor (rsa_public_key algorithm n e ++ rest) (Zlen (rsa_public_key algorithm n e))) =
    Some (Ok (Cursor (n ++ rn) (Zlen n), Cursor (e ++ re) (Zlen e))).
Proof.
  intros Hn He Hl. unfold rsa_public_key in *.
  set (rsa := encode ASN1_SEQUENCE (der_integer n ++ der_integer e)) in *.
  set (bits := encode ASN1_BIT_STRING (0x00 :: rsa)) in *. set (alg := encode ASN1_SEQUENCE algorithm) in *.
  pose proof (encode_length ASN1_SEQUENCE (alg ++ bits)) as L1. rewrite length_app in L1.
  pose proof (encode_length ASN1_BIT_STRING (0x00 :: rsa)) as L2. fold bits in L2. cbn [length] in L2.
  pose proof (encode_length ASN1_SEQUENCE (der_integer n ++ der_integer e)) as L3. fold rsa in L3. rewrite length_app in L3.
  pose proof (der_integer_length n). pose proof (der_integer_length e). pose proof (encode_length ASN1_SEQUENCE algorithm) as L4. fold alg in L4.
  pose proof (number_nonempty e He).
  unfold rsa_parse_mod_exp. rewrite asn1_enter_encode by (rewrite ?length_app; at_object).
  rewrite <- app_assoc, length_app. replace (asn1_type _) with (Some ASN1_SEQUENCE) by (unfold alg; by rewrite encode_type by by_decide). cbn [mbind option_bind].
  change (ASN1_SEQUENCE =? ASN1_INTEGER) with false. cbn iota. unfold alg at 1.
  rewrite asn1_skip_past by (try fold alg; at_object). fold alg.
  unfold asn1_integral_bit_string, bits. rewrite asn1_bit_string_encode by (try fold bits; at_object).
  rewrite decide_True by (split_and!; [done|done|apply Z.mod_1_r]). cbn [mbind res_bind bs_unused bs_data bs_len Z.eqb negb].
  unfold rsa at 1. rewrite asn1_enter_encode by (rewrite ?length_app; fold rsa; at_object). cbn [mbind res_bind].
  rewrite <- app_assoc, length_app.
  rewrite rsa_parse_integer_spec by (done || lia). cbn [mbind res_bind].
  unfold asn1_skip_any. rewrite asn1_skip_integer by at_object. cbn iota. rewrite rsa_parse_integer_spec by (done || lia). by do 2 eexists.
Qed.
Lemma rsa_parse_private version n e d fields rest :
  number n → number d → Zlen (rsa_private_key version n e d fields) < 2 ^ 31 →
  ∃ rn rd, rsa_parse_mod_exp (Cursor (rsa_private_key version n e d fields ++ rest) (Zlen (rsa_private_key version n e d fields))) =
    Some (Ok (Cursor (n ++ rn) (Zlen n), Cursor (d ++ rd) (Zlen d))).
Proof.
  intros Hn Hd Hl. unfold rsa_private_key in *. set (v := encode ASN1_INTEGER version) in *.
  set (body := v ++ _) in *. pose proof (encode_length ASN1_SEQUENCE body) as L1.
  assert (length body = length v + length (der_integer n) + length (der_integer e) + length (der_integer d) + length fields)%nat as L2
    by (unfold body; rewrite !length_app; lia).
  pose proof (der_integer_length n). pose proof (der_integer_length e). pose proof (der_integer_length d).
  pose proof (encode_length ASN1_INTEGER version) as L3. fold v in L3. pose proof (number_nonempty d Hd).
  unfold rsa_parse_mod_exp, asn1_skip_any. rewrite asn1_enter_encode by at_object. rewrite L2. unfold body.
  rewrite <- !app_assoc. replace (asn1_type _) with (Some ASN1_INTEGER) by (unfold v; by rewrite encode_type by by_decide). cbn [mbind option_bind]. rewrite Z.eqb_refl. unfold v at 1.
  rewrite asn1_skip_past by (try fold v; at_object). fold v. cbn [mbind res_bind].
  rewrite rsa_parse_integer_spec by (done || lia). cbn [mbind res_bind].
  rewrite asn1_skip_integer by at_object. rewrite asn1_skip_integer by at_object. cbn [fst].
  rewrite rsa_parse_integer_spec by (done || lia). by do 2 eexists.
Qed.

(** A parsed key gives a context with that key. *)
Lemma rsa_init_parsed memory key L n rn e re :
  is_bytes n → is_bytes e → n ≠ [] → e ≠ [] → Zlen n < 2 ^ 31 → Zlen e < 2 ^ 31 →
  rsa_parse_mod_exp (Cursor key L) = Some (Ok (Cursor (n ++ rn) (Zlen n), Cursor (e ++ re) (Zlen e))) →
  ∃ context, rsa_init (Some memory) key L = Some (context, Ok tt) ∧
    keyed context (length n) (effective_modulus (length n) (be_combine n)) (be_combine e) ∧
    size context = Z.to_nat (bigint_required_size (Zlen n)) ∧ rsa_max_len context = Zlen n.
Proof.
  intros Hn He Hn0 He0 Hln Hle Hp. unfold rsa_init. rewrite Hp. cbn [mbind option_bind]. unfold rsa_alloc. cbn [len dynamic mbind option_bind].
  rewrite !contents_app. cbn [size exponent_size input output max_len].
  assert (0 < length n)%nat by (destruct n; [done|cbn; lia]). assert (0 < length e)%nat by (destruct e; [done|cbn; lia]).
  assert (∀ k, (0 < k)%nat → (k ≤ 4 * Z.to_nat (bigint_required_size (Z.of_nat k)))%nat) as Hreq.
  { intros k Hk. unfold bigint_required_size, sizeof_element. Z.div_mod_to_equations. lia. }
  destruct (init_raw_spec (Z.to_nat (bigint_required_size (Zlen n))) n) as (m & -> & Hwm & Hlm & Hvm & _);
    [done|done|by apply Hreq|].
  cbn [mbind option_bind].
  destruct (init_raw_spec (Z.to_nat (bigint_required_size (Zlen e))) e) as (x & -> & Hwx & Hlx & Hvx & _);
    [done|done|by apply Hreq|].
  cbn [mbind option_bind]. eexists. split; [done|]. split; [|done]. pose proof (be_combine_256 n Hn). pose proof (Hreq (length n)).
  pose proof (Hreq (length e)).
  assert (0 < effective_modulus (length n) (be_combine n) ≤ 256 ^ Zlen n).
  { unfold effective_modulus. destruct (Z.eqb_spec (be_combine n) 0); lia. }
  split_and!; cbn [max_len size dynamic]; try (done || lia). eexists. split; [done|]. cbn.
  split_and!; try (done || by rewrite length_fmap, length_seq).
  - by rewrite Hvm.
  - intros ->. cbn in *. lia.
Qed.

Lemma rsa_init_spec memory key L n rn e re :
  number n → number e → Zlen n < 2 ^ 31 → Zlen e < 2 ^ 31 →
  rsa_parse_mod_exp (Cursor key L) = Some (Ok (Cursor (n ++ rn) (Zlen n), Cursor (e ++ re) (Zlen e))) →
  ∃ context, rsa_init (Some memory) key L = Some (context, Ok tt) ∧
    keyed context (length n) (be_combine n) (be_combine e) ∧
    size context = Z.to_nat (bigint_required_size (Zlen n)) ∧ rsa_max_len context = Zlen n.
Proof.
  intros Hn He Hln Hle Hp. pose proof (number_nonempty n Hn). pose proof (number_nonempty e He). pose proof (number_range n Hn).
  pose proof (Z.pow_pos_nonneg 256 (Zlen n - 1)).
  destruct (rsa_init_parsed memory key L n rn e re) as (context & Hi & Hk & Hs); try done;
    [apply Hn|apply He|intros ->; cbn in *; lia|intros ->; cbn in *; lia|]. exists context. split; [done|]. split; [|done].
  unfold effective_modulus in Hk. by rewrite (proj2 (Z.eqb_neq _ 0)) in Hk by lia.
Qed.
End keys.

(** ** Key pairs *)

(** The bytes of the modulus and of the two exponents. *)
Definition key_pair (n e d : bytes) : Prop :=
  number n ∧ number e ∧ number d ∧ rsa_key_pair (be_combine n) (be_combine e) (be_combine d).

Lemma key_pair_exponents n e d : key_pair n e d → 0 < be_combine e ∧ 0 < be_combine d.
Proof. intros (_ & _ & _ & p & q & _ & _ & _ & _ & He & Hd & _). done. Qed.

Lemma key_pair_swap n e d : key_pair n e d → key_pair n d e.
Proof.
  intros (Hn & He & Hd & p & q & ? & ? & ? & ? & ? & ? & ? & ?). split_and!; try done; try apply Hn; try apply He; try apply Hd.
  exists p, q. rewrite (Z.mul_comm (be_combine d)). by split_and!.
Qed.

(** A message that begins with a zero byte is less than the modulus. *)
Lemma message_small n m : number n → is_bytes m → length (0 :: m) = length n → 0 ≤ be_combine (0 :: m) < be_combine n.
Proof.
  intros Hn Hm Hl. pose proof (number_range n Hn) as Hr. pose proof (be_combine_256 m Hm) as Hb.
  assert (be_combine (0 :: m) = be_combine m) as ->.
  { unfold be_combine. cbn [rev]. rewrite le_combine_app. cbn. lia. }
  rewrite <- Hl in Hr. cbn [length] in Hr. replace (Z.of_nat (S (length m)) - 1) with (Zlen m) in Hr by lia. lia.
Qed.

(** Each exponent undoes the other. *)
Lemma power_inverse n e d m :
  key_pair n e d → is_bytes m → length (0 :: m) = length n →
  power (length n) (be_combine n) (be_combine d) (power (length n) (be_combine n) (be_combine e) (0 :: m)) = 0 :: m.
Proof.
  intros Hk Hm Hl. pose proof Hk as (Hn & _ & _ & Hp). pose proof (message_small n m Hn Hm Hl) as Hs.
  destruct (key_pair_exponents _ _ _ Hk). pose proof (number_range n Hn) as Hr. unfold power.
  rewrite !(proj2 (Z.eqb_neq _ 0)) by lia.
  rewrite be_combine_small by (pose proof (Z.mod_pos_bound (be_combine (0 :: m) ^ be_combine e) (be_combine n)); lia).
  rewrite (rsa_power _ _ _ _ Hp Hs), <- Hl. apply be_split_be_combine. constructor; [by_decide|done].
Qed.

Lemma signature_message_inj k prefix v v' :
  length v = length v' → signature_message k (prefix ++ v) = signature_message k (prefix ++ v') → v = v'.
Proof.
  intros Hl. unfold signature_message. rewrite !length_app, Hl. intros Hm.
  by apply app_inv_head, app_inv_head, app_inv_head, app_inv_head in Hm.
Qed.

(** A power is a message when the numbers are equal. *)
Lemma power_message n e m sg :
  number n → 0 < e → is_bytes m → length m = length n →
  power (length n) (be_combine n) e sg = m ↔ be_combine sg ^ e mod be_combine n = be_combine m.
Proof.
  intros Hn He Hm Hl. pose proof (number_range n Hn) as Hr. unfold power. rewrite (proj2 (Z.eqb_neq e 0)) by lia.
  assert (0 < be_combine n) by (pose proof (number_nonempty n Hn); pose proof (Z.pow_pos_nonneg 256 (Zlen n - 1)); lia).
  pose proof (Z.mod_pos_bound (be_combine sg ^ e) (be_combine n)). split.
  - intros <-. by rewrite be_combine_small by lia.
  - intros ->. rewrite <- Hl. by apply be_split_be_combine.
Qed.

Section pairs.
Context `{Platform} {state : Type} (draw : state → res Z * state).
Context (algorithm version fields n e d : bytes) (Hkey : key_pair n e d).
Context (Hpublic : Zlen (rsa_public_key algorithm n e) < 2 ^ 31) (Hprivate : Zlen (rsa_private_key version n e d fields) < 2 ^ 31).

Abbreviation public_key := (rsa_public_key algorithm n e).
Abbreviation private_key := (rsa_private_key version n e d fields).
Abbreviation elements := (Z.to_nat (bigint_required_size (Zlen n))).

Lemma public_lengths : Zlen n < 2 ^ 31 ∧ Zlen e < 2 ^ 31.
Proof using Hpublic.
  clear Hkey Hprivate. unfold rsa_public_key in Hpublic. pose proof (encode_length ASN1_SEQUENCE (encode ASN1_SEQUENCE algorithm ++
    encode ASN1_BIT_STRING (0x00 :: encode ASN1_SEQUENCE (der_integer n ++ der_integer e)))) as L1. rewrite length_app in L1.
  pose proof (encode_length ASN1_BIT_STRING (0x00 :: encode ASN1_SEQUENCE (der_integer n ++ der_integer e))) as L2. cbn [length] in L2.
  pose proof (encode_length ASN1_SEQUENCE (der_integer n ++ der_integer e)) as L3. rewrite length_app in L3.
  pose proof (der_integer_length n). pose proof (der_integer_length e). lia.
Qed.

Lemma private_modulus_length : Zlen n < 2 ^ 31.
Proof using Hprivate.
  clear Hkey Hpublic. unfold rsa_private_key in Hprivate. pose proof (encode_length ASN1_SEQUENCE (encode ASN1_INTEGER version ++
    der_integer n ++ der_integer e ++ der_integer d ++ fields)) as L1. rewrite !length_app in L1. pose proof (der_integer_length n). lia.
Qed.

Lemma private_length : Zlen d < 2 ^ 31.
Proof using Hprivate.
  clear Hkey Hpublic. unfold rsa_private_key in Hprivate. pose proof (encode_length ASN1_SEQUENCE (encode ASN1_INTEGER version ++ der_integer n ++ der_integer e ++
    der_integer d ++ fields)) as L1. rewrite !length_app in L1. pose proof (der_integer_length d). lia.
Qed.

(** Both keys give contexts. *)
Lemma rsa_init_public memory :
  ∃ context, rsa_init (Some memory) public_key (Zlen public_key) = Some (context, Ok tt) ∧
    keyed context (length n) (be_combine n) (be_combine e) ∧ size context = elements ∧ rsa_max_len context = Zlen n.
Proof using Hkey Hpublic.
  destruct Hkey as (Hn & He & _). destruct public_lengths.
  destruct (rsa_parse_public algorithm n e []) as (rn & re & Hp); [done..|]. rewrite app_nil_r in Hp.
  by eapply rsa_init_spec.
Qed.

Lemma rsa_init_private memory :
  ∃ context, rsa_init (Some memory) private_key (Zlen private_key) = Some (context, Ok tt) ∧
    keyed context (length n) (be_combine n) (be_combine d) ∧ size context = elements ∧ rsa_max_len context = Zlen n.
Proof using Hkey Hprivate Hpublic.
  destruct Hkey as (Hn & _ & Hd & _). destruct public_lengths as [? _]. pose proof private_length.
  destruct (rsa_parse_private version n e d fields []) as (rn & rd & Hp); [done..|]. rewrite app_nil_r in Hp.
  by eapply rsa_init_spec.
Qed.
(** ** Properties *)

(** C35: Decryption with the private key undoes encryption with the public key.
    For every RSA key pair in its DER encodings, both contexts initialise; every
    plaintext that leaves room for eleven bytes is encrypted to a ciphertext as
    long as the modulus once enough of the random bytes are not zero, and that
    ciphertext decrypts to the plaintext.  If the modulus has at least eleven bytes,
    longer plaintexts are refused with ERANGE (for shorter moduli see
    [rsa_encrypt_small_modulus]), and so are ciphertexts of another length for any
    modulus. *)
Theorem rsa_encrypt_decrypt (memory memory' : nat → Z) (tmp tmp' : bigint) (fuel : nat) (s : state) (bs plaintext : bytes)
    (Htmp : tmp_ok elements tmp) (Htmp' : tmp_ok elements tmp') (Hplain : is_bytes plaintext)
    (Hdraws : draws draw fuel s = Some bs) (Hbs : is_bytes bs) (Hnz : (length n ≤ length (nonzero bs))%nat) :
  ∃ public private,
    rsa_init (Some memory) public_key (Zlen public_key) = Some (public, Ok tt) ∧
    rsa_init (Some memory') private_key (Zlen private_key) = Some (private, Ok tt) ∧
    ((length plaintext + 11 ≤ length n)%nat →
      ∃ public' private' s' ciphertext,
        rsa_encrypt draw tmp fuel public plaintext s = Some (public', s', Ok ciphertext) ∧
        Zlen ciphertext = rsa_max_len public ∧
        rsa_decrypt tmp' private ciphertext = Some (private', Ok plaintext)) ∧
    ((11 ≤ length n < length plaintext + 11)%nat →
      rsa_encrypt draw tmp fuel public plaintext s = Some (public, s, Err ERANGE)) ∧
    (∀ ciphertext, length ciphertext ≠ length n → rsa_decrypt tmp' private ciphertext = Some (private, Err ERANGE)).
Proof using Hkey Hprivate Hpublic.
  pose proof (key_pair_exponents _ _ _ Hkey) as [He Hd]. destruct public_lengths as [Hn31 _].
  destruct (rsa_init_public memory) as (public & Hpub & Hk & Hs & Hm).
  destruct (rsa_init_private memory') as (private & Hpriv & Hk' & Hs' & Hm').
  exists public, private. split_and!; [done|done|intros Hl|intros Hl|intros ciphertext Hl].
  - rewrite <- Hs in Htmp. rewrite <- Hs' in Htmp'. set (r := (length n - 3 - length plaintext)%nat).
    destruct (rsa_encrypt_spec draw tmp fuel public (length n) (be_combine n) (be_combine e) plaintext s bs)
      as (public' & s' & Henc & _); [done..|lia|]. fold r in Henc.
    set (nz := take r (nonzero bs)) in *. set (em := encryption_message nz plaintext) in *.
    assert (Forall (λ b, b ≠ 0) nz) as Hnz0 by (apply Forall_take, Forall_forall; by intros x [Hx _]%list_elem_of_filter).
    assert (em = 0 :: tail em) as Hem by done.
    assert (length em = length n) as Hlen.
    { unfold em, encryption_message, nz. rewrite !length_app, length_take. cbn [length]. lia. }
    assert (is_bytes (tail em)) as Hb.
    { unfold em, encryption_message, nz, nonzero. cbn. apply Forall_cons. split; [by_decide|]. apply Forall_app. split.
      - apply Forall_take, Forall_forall. intros x [_ Hx]%list_elem_of_filter. by eapply Forall_forall in Hbs.
      - apply Forall_cons. split; [by_decide|done]. }
    set (ct := power _ _ _ em) in *.
    destruct (rsa_decrypt_spec tmp' private (length n) (be_combine n) (be_combine d) ct nz plaintext)
      as (private' & Hdec & _); [done..|apply is_bytes_power|apply length_power| |done|].
    { unfold ct. rewrite Hem. by apply power_inverse. }
    exists public', private', s', ct. split_and!; [done|by rewrite Hm; unfold ct; rewrite length_power|done].
  - unfold rsa_encrypt. pose proof Hk as (-> & _). rewrite (usize_small (Zlen n - 11)) by lia.
    by destruct (Z.ltb_spec (Zlen n - 11) (Zlen plaintext)); [|lia].
  - unfold rsa_decrypt. pose proof Hk' as (-> & _). by destruct (Z.eqb_spec (Zlen ciphertext) (Zlen n)); [lia|].
Qed.

(** C36: A signature made with the private key is accepted with the public key for
    the digest that was signed, and with the same algorithm for no other.  In
    general verification accepts exactly the byte strings of the modulus's length
    whose power is the encoded digest (EMSA-PKCS1-v1_5 of its DigestInfo, and of the
    MD5 and SHA-1 hashes alone for TLS), and answers EACCES to the others and ERANGE
    to those of another length. *)
Theorem rsa_sign_verify (memory memory' : nat → Z) (tmp tmp' : bigint) (digest_ : digest_algorithm) (value t : bytes)
    (Htmp : tmp_ok elements tmp) (Htmp' : tmp_ok elements tmp') (Hinfo : digest_info digest_ value = Some t)
    (Hvalue : is_bytes value) (Hdigest : length value = digestsize digest_)
    (Hlen : (length t + 11 ≤ length n)%nat) :
  ∃ public private private' signature,
    rsa_init (Some memory) public_key (Zlen public_key) = Some (public, Ok tt) ∧
    rsa_init (Some memory') private_key (Zlen private_key) = Some (private, Ok tt) ∧
    rsa_sign tmp' private digest_ value = Some (private', Ok signature) ∧ length signature = length n ∧
    (∀ value', is_bytes value' → length value' = digestsize digest_ →
      ∃ public', rsa_verify tmp public digest_ value' signature =
        Some (public', if decide (value' = value) then Ok tt else Err EACCES)) ∧
    (∀ signature', is_bytes signature' → length signature' = length n →
      ∃ public', rsa_verify tmp public digest_ value signature' =
        Some (public', if decide (be_combine signature' ^ be_combine e mod be_combine n =
                                  be_combine (signature_message (length n) t))
                       then Ok tt else Err EACCES)) ∧
    (∀ signature', length signature' ≠ length n →
      rsa_verify tmp public digest_ value signature' = Some (public, Err ERANGE)).
Proof using Hkey Hprivate Hpublic.
  pose proof (key_pair_exponents _ _ _ Hkey) as [He Hd].
  destruct (prefix_digest_info _ _ _ Hdigest Hinfo) as (prefix & Hprefix & ->). rewrite length_app in Hlen.
  pose proof (rsa_find_prefix_bytes _ _ Hprefix) as Hpb.
  destruct (rsa_init_public memory) as (public & Hpub & Hk & Hs & _).
  destruct (rsa_init_private memory') as (private & Hpriv & Hk' & Hs' & _).
  rewrite <- Hs in Htmp. rewrite <- Hs' in Htmp'. set (message v := signature_message (length n) (prefix ++ v)).
  destruct (rsa_sign_spec tmp' private (length n) (be_combine n) (be_combine d) digest_ prefix value) as (private' & Hsig & _); try done.
  exists public, private, private', (power (length n) (be_combine n) (be_combine d) (message value)).
  assert (power (length n) (be_combine n) (be_combine e) (power (length n) (be_combine n) (be_combine d) (message value)) = message value) as Hinv.
  { apply (power_inverse n d e (tail (message value))); [by apply key_pair_swap| |].
    - refine (proj2 (proj1 (Forall_cons _ 0 _) _)). apply is_bytes_signature_message. by apply Forall_app.
    - apply length_signature_message. rewrite length_app. lia. }
  split_and!; [done|done|done|apply length_power| | |].
  - intros value' Hv' Hl'.
    destruct (rsa_verify_spec tmp public (length n) (be_combine n) (be_combine e) digest_ prefix value'
      (power (length n) (be_combine n) (be_combine d) (message value))) as (public' & Hver & _);
      try done; [lia|apply is_bytes_power|apply length_power|]. exists public'. rewrite Hver, Hinv. do 2 f_equal.
    apply decide_ext. unfold message. split; [|by intros ->]. intros Hm. symmetry.
    by apply signature_message_inj in Hm; [|congruence].
  - intros sg Hb Hl. destruct (rsa_verify_spec tmp public (length n) (be_combine n) (be_combine e) digest_ prefix value sg)
      as (public' & Hver & _); try done. exists public'. rewrite Hver. do 2 f_equal. apply decide_ext.
    apply power_message; [by apply Hkey|done|by apply is_bytes_signature_message, Forall_app|].
    apply length_signature_message. rewrite length_app. lia.
  - intros sg Hl. unfold rsa_verify. pose proof Hk as (-> & _). by destruct (Z.eqb_spec (Zlen sg) (Zlen n)); [lia|].
Qed.
End pairs.

(** A key of 384 bits: the product of two Proth primes, with the exponent 65537. *)
Definition witness_p : Z := (2 ^ 92 - 0xc9) * 2 ^ 100 + 1.
Definition witness_q : Z := (2 ^ 92 - 0x111) * 2 ^ 100 + 1.
Definition witness_n : bytes := be_split 48 (witness_p * witness_q).
Definition witness_e : bytes := [0x01; 0x00; 0x01].
Definition witness_d : bytes :=
  be_split 36 0x3eb4c14b3eb4c14b3eb4ba0993d66c2993d66c29940aed0ffff0000ffff0000ffff0001.

Lemma witness_key : key_pair witness_n witness_e witness_d.
Proof.
  do 3 (split; [by_decide|]). exists witness_p, witness_q. split_and!.
  - apply (proth_test_prime _ _ 3). vm_compute. reflexivity.
  - apply (proth_test_prime _ _ 3). vm_compute. reflexivity.
  - by vm_compute.
  - vm_compute. reflexivity.
  - by vm_compute.
  - by vm_compute.
  - apply Z.mod_divide; [by vm_compute|]. vm_compute. reflexivity.
  - apply Z.mod_divide; [by vm_compute|]. vm_compute. reflexivity.
Qed.

(** A generator that gives the bytes of a list, and fails at its end. *)
Definition from_list (s : bytes) : res Z * bytes := match s with [] => (Err EIO, []) | b :: s => (Ok b, s) end.

Lemma witness_lengths :
  Zlen (rsa_public_key (H := x86_64) [] witness_n witness_e) < 2 ^ 31 ∧
  Zlen (rsa_private_key (H := x86_64) [0x00] witness_n witness_e witness_d []) < 2 ^ 31.
Proof. by vm_compute. Qed.

(** Three bytes, with the padding drawn from a generator that also gives zeros. *)
Lemma rsa_encrypt_decrypt_witness :
  let random := mjoin (replicate 48 [0x00; 0x17]) in
  let tmp := replicate 48 0 in
  ∃ public private public' private' s' ciphertext,
    rsa_init (Some (λ _, 0)) (rsa_public_key (H := x86_64) [] witness_n witness_e)
      (Zlen (rsa_public_key (H := x86_64) [] witness_n witness_e)) = Some (public, Ok tt) ∧
    rsa_encrypt (H := x86_64) from_list tmp 96 public [0x61; 0x62; 0x63] random = Some (public', s', Ok ciphertext) ∧
    rsa_decrypt tmp private ciphertext = Some (private', Ok [0x61; 0x62; 0x63]).
Proof.
  intros random tmp.
  destruct (@rsa_encrypt_decrypt x86_64 bytes from_list [] [0x00] [] witness_n witness_e witness_d witness_key
    (proj1 witness_lengths) (proj2 witness_lengths) (λ _, 0) (λ _, 0) tmp tmp 96 random random [0x61; 0x62; 0x63])
    as (public & private & Hpub & _ & Henc & _).
  - by_decide.
  - by_decide.
  - by_decide.
  - vm_compute. reflexivity.
  - by_decide.
  - vm_compute. lia.
  - destruct Henc as (public' & private' & s' & ct & He & _ & Hd); [vm_compute; lia|].
    exists public, private, public', private', s', ct. split; [exact Hpub|]. split; [exact He|exact Hd].
Defined.

(** The SHA-1 digest of all ones: signed and verified. *)
Lemma rsa_sign_verify_witness :
  let tmp := replicate 48 0 in
  ∃ public private private' public' signature,
    rsa_sign (H := x86_64) tmp private (digest SHA1) (replicate 20 0xff) = Some (private', Ok signature) ∧
    rsa_verify (H := x86_64) tmp public (digest SHA1) (replicate 20 0xff) signature = Some (public', Ok tt).
Proof.
  intros tmp.
  destruct (@rsa_sign_verify x86_64 [] [0x00] [] witness_n witness_e witness_d witness_key
    (proj1 witness_lengths) (proj2 witness_lengths) (λ _, 0) (λ _, 0) tmp tmp (digest SHA1)
    (replicate 20 0xff) ([0x30; 0x21; 0x30; 0x09; 0x06; 0x05; 0x2b; 0x0e; 0x03; 0x02; 0x1a; 0x05; 0x00; 0x04; 0x14] ++ replicate 20 0xff))
    as (public & private & private' & sg & _ & _ & Hs & _ & Hv & _).
  - by_decide.
  - by_decide.
  - reflexivity.
  - by_decide.
  - reflexivity.
  - vm_compute. lia.
  - destruct (Hv (replicate 20 0xff)) as [public' He]; [by_decide|reflexivity|].
    rewrite decide_True in He by reflexivity. exists public, private, private', public', sg. split; [exact Hs|exact He].
Defined.

(** ** Moduli shorter than eleven bytes *)

Section small_modulus.
Context `{Platform} {state : Type} (draw : state → res Z * state).

Lemma size_bits_32 : 2 ^ 32 ≤ 2 ^ size_bits.
Proof. destruct size_bits_cases as [[_ ->]|[_ ->]]; lia. Qed.

Lemma usize_negative x : - 2 ^ 31 ≤ x < 0 → usize x = 2 ^ size_bits + x.
Proof.
  intros Hx. pose proof size_bits_32. unfold wrap. rewrite <- (Z.mod_add _ 1), Z.mod_small by lia. lia.
Qed.

(** The length of the padding. *)
Lemma padding_wraps k t :
  - 2 ^ 31 ≤ k - 3 - t < 0 → usize (2 ^ size_bits + (k - 11) - t + 8) = 2 ^ size_bits + (k - 3 - t).
Proof.
  intros Hk. pose proof size_bits_32. rewrite <- (usize_negative (k - 3 - t)) by done. unfold wrap.
  rewrite <- (Z.mod_add (k - 3 - t) 1) by lia. f_equal. lia.
Qed.

(** [max_len - 11] wraps around, the length check passes, and what is written runs
    past the buffer: the padding of a message longer than the modulus less three
    bytes, and the padding of every digest. *)
Lemma rsa_encrypt_small_modulus tmp fuel context k n e plaintext s :
  keyed context k n e → (k < 11)%nat → (k < length plaintext + 3)%nat → Zlen plaintext < 2 ^ 30 → (size context ≤ 3)%nat →
  rsa_encrypt draw tmp fuel context plaintext s = None.
Proof.
  intros (Hm & _ & Hks & _ & dyn & Hdyn & _ & _ & _ & _ & _ & _ & _ & Hlo) Hk Hp Hl Hs.
  pose proof size_bits_32. unfold rsa_encrypt. rewrite Hm, usize_negative, padding_wraps by lia.
  destruct (Z.ltb_spec (2 ^ size_bits + (Z.of_nat k - 11)) (Zlen plaintext)); [lia|]. rewrite Hdyn. cbn [mbind option_bind].
  destruct (write_next (output dyn) [] 0 [0x00; 0x02]) as (e1 & -> & Hl1 & _); [by eexists|done|by_decide|cbn; lia|].
  cbn [mbind option_bind]. by destruct (Z.ltb_spec (4 * Zlen e1) (2 + (2 ^ size_bits + (Z.of_nat k - 3 - Zlen plaintext)))); [|lia].
Qed.

Lemma rsa_encode_digest_small_modulus context k n e digest_ prefix value encoded :
  keyed context k n e → (k < 11)%nat → rsa_find_prefix digest_ = Some prefix → (size context ≤ 3)%nat →
  length encoded = size context → rsa_encode_digest context digest_ value encoded = None.
Proof.
  intros (Hm & _ & Hks & _) Hk Hf Hs Hle. unfold rsa_encode_digest. rewrite Hf, Hm.
  assert (16 ≤ Zlen prefix + Z.of_nat (digestsize digest_) < 2 ^ 30) as Hd.
  { revert Hf. destruct digest_ as [[]| |]; intros [= <-]; vm_compute; by split. }
  set (t := Zlen prefix + _) in *. pose proof size_bits_32. rewrite usize_negative, padding_wraps by lia.
  destruct (Z.ltb_spec (2 ^ size_bits + (Z.of_nat k - 11)) t); [lia|].
  destruct (write_next encoded [] 0 [0x00; 0x01]) as (e1 & -> & Hl1 & _); [by eexists|done|by_decide|cbn; lia|].
  cbn [mbind option_bind].
  by destruct (Z.ltb_spec (4 * Zlen e1) (2 + (2 ^ size_bits + (Z.of_nat k - 3 - t)))); [|lia].
Qed.
End small_modulus.

(** ** Matching keys *)

(** The moduli decide; the exponents are not compared. *)
Lemma rsa_match_spec `{Platform} algorithm version fields n e n' e' d :
  number n → number e → number n' → number d →
  Zlen (rsa_public_key algorithm n e) < 2 ^ 31 → Zlen (rsa_private_key version n' e' d fields) < 2 ^ 31 →
  rsa_match (rsa_private_key version n' e' d fields) (Zlen (rsa_private_key version n' e' d fields))
    (rsa_public_key algorithm n e) (Zlen (rsa_public_key algorithm n e)) =
  Some (if decide (n' = n) then Ok tt else Err ENOTTY).
Proof.
  intros Hn He Hn' Hd Hpub Hpriv. unfold rsa_match.
  destruct (rsa_parse_private version n' e' d fields []) as (rn' & rd & Hp); [done..|]. rewrite app_nil_r in Hp.
  destruct (rsa_parse_public algorithm n e []) as (rn & re & Hq); [done..|]. rewrite app_nil_r in Hq.
  rewrite Hp, Hq. cbn [mbind option_bind].
  pose proof (proj1 (public_lengths algorithm n e Hpub)). pose proof (private_modulus_length version fields n' e' d Hpriv).
  assert (asn1_compare (Cursor (n' ++ rn') (Zlen n')) (Cursor (n ++ rn) (Zlen n)) = 0 ↔ n' = n) as Hc.
  { rewrite asn1_compare_zero by (cbn [len data]; rewrite ?length_app; lia). by rewrite !contents_app. }
  destruct (Z.eqb_spec (asn1_compare (Cursor (n' ++ rn') (Zlen n')) (Cursor (n ++ rn) (Zlen n))) 0) as [Hz|Hz]; cbn [negb].
  - by rewrite decide_True by (by apply Hc).
  - rewrite decide_False; [done|]. by intros ?%Hc.
Qed.
