(* ===== verification/Time.v ===== *)
(** * Date and time (src/core/time.c, src/include/time.h; asn1_generalized_time of
    src/crypto/asn1.c)

    Seconds since the Epoch from a broken-down time, and from the UTCTime and
    GeneralizedTime of certificates.  Divisions truncate, as in C.  [None] is an
    access outside of a table. *)

From S2P Require Import Prelude Asn1.

(** ** mktime *)

Record tm : Type := Tm {
  tm_sec : Z;
  tm_min : Z;
  tm_hour : Z;
  tm_mday : Z;
  tm_mon : Z;
  tm_year : Z;
  tm_wday : Z;
  tm_yday : Z;
}.

Definition is_leap_year (tm_year : Z) : bool :=
  let leap_year := false in
  let leap_year := if Z.rem tm_year 4 =? 0 then true else leap_year in
  let leap_year := if Z.rem tm_year 100 =? 0 then false else leap_year in
  let leap_year := if Z.rem tm_year 400 =? 100 then true else leap_year in
  leap_year.

Definition leap_years_to_end (tm_year : Z) : Z :=
  let leap_years := 0 in
  let leap_years := leap_years + Z.quot tm_year 4 in
  let leap_years := leap_years - Z.quot tm_year 100 in
  let leap_years := leap_years + Z.quot (tm_year + 300) 400 in
  leap_years.

(** An table_entry of a table, at an index of type int. *)
Definition table_entry (table : list Z) (i : Z) : option Z := if i <? 0 then None else table !! Z.to_nat i.

Definition offset : list Z := [1; 4; 3; 6; 1; 4; 6; 2; 5; 0; 3; 5].

Definition day_of_week (tm_year tm_mon tm_mday : Z) : option Z :=
  let pseudo_year := tm_year in
  let pseudo_year := if tm_mon <? 2 then pseudo_year - 1 else pseudo_year in
  offset ← table_entry offset tm_mon;
  Some (Z.rem (pseudo_year + leap_years_to_end pseudo_year + offset + tm_mday) 7).

Definition days_to_month_start : list Z := [0; 31; 59; 90; 120; 151; 181; 212; 243; 273; 304; 334].

(** The time with the day of the year and of the week filled in, and the seconds. *)
Definition mktime (tm : tm) : option (Time.tm * Z) :=
  (* Calculate day of year *)
  start ← table_entry days_to_month_start (tm_mon tm);
  let yday := tm_mday tm - 1 + start in
  let yday := if (2 <=? tm_mon tm) && is_leap_year (tm_year tm) then yday + 1 else yday in
  (* Calculate day of week *)
  wday ← day_of_week (tm_year tm) (tm_mon tm) (tm_mday tm);
  (* Calculate seconds since the Epoch *)
  let days_since_epoch := yday + 365 * tm_year tm - 25567 + leap_years_to_end (tm_year tm - 1) in
  let seconds_since_day := (tm_hour tm * 60 + tm_min tm) * 60 + tm_sec tm in
  let seconds := days_since_epoch * 86400 + seconds_since_day in
  Some (Tm (tm_sec tm) (tm_min tm) (tm_hour tm) (tm_mday tm) (tm_mon tm) (tm_year tm) wday yday, seconds).

(** ** asn1_generalized_time *)

Definition ASN1_UTC_TIME : Z := 0x17.
Definition ASN1_GENERALIZED_TIME : Z := 0x18.

(** '0' and 'Z' *)
Definition char_0 : Z := 0x30.
Definition char_Z : Z := 0x5a.

Definition isdigit (c : Z) : bool := (char_0 <=? c) && (c <=? char_0 + 9).

(** for ( i = ... ; i < sizeof ( pairs.raw ) ; i++ ): [n] pairs are left. *)
Fixpoint pairs_loop (n : nat) (data : bytes) (remaining : Z) (raw : list Z) : res (list Z * bytes * Z) :=
  match n with
  | O => Ok (raw, data, remaining)
  | S n' =>
      let i := (7 - n)%nat in
      if remaining <? 2 then
        if decide (i = 6%nat) then Ok (raw, data, remaining) else Err EINVAL
      else
        let tens := byte data 0 in
        let units := byte data 1 in
        if negb (isdigit tens && isdigit units) then Err EINVAL
        else pairs_loop n' (drop 2 data) (remaining - 2) (<[i := 10 * (tens - char_0) + (units - char_0)]> raw)
  end.

Definition asn1_generalized_time (cursor : asn1_cursor) : option (res Z) :=
  (* Determine time format utcTime/generalizedTime *)
  type ← asn1_type cursor;
  if negb (type =? ASN1_UTC_TIME) && negb (type =? ASN1_GENERALIZED_TIME) then Some (Err EINVAL)
  else
    let have_century := type =? ASN1_GENERALIZED_TIME in
    (* Enter utcTime/generalizedTime *)
    match asn1_enter cursor type with
    | (_, Err rc) => Some (Err rc)
    | (contents, Ok _) =>
        (* Parse digit string a pair at a time *)
        match pairs_loop (if have_century then 7 else 6) (data contents) (len contents) (replicate 7 0) with
        | Err rc => Some (Err rc)
        | Ok (raw, data, remaining) =>
            let pair i := default 0 (raw !! i) in
            let year := pair 1%nat in
            (* Determine century if applicable *)
            let century := if negb have_century then (if 50 <=? year then 19 else 20) else pair 0%nat in
            (* Check for trailing Z *)
            if negb (remaining =? 1) || negb (byte data 0 =? char_Z) then Some (Err EINVAL)
            else
              (* Fill in time *)
              let tm := Tm (pair 6%nat) (pair 5%nat) (pair 4%nat) (pair 3%nat) (pair 2%nat - 1) ((century - 19) * 100 + year) 0 0 in
              (* Convert to seconds since the Epoch *)
              '(_, time) ← mktime tm;
              Some (Ok time)
        end
    end.

(** ** The calendar *)

(** The Gregorian rule, and the lengths of years and months. *)
Definition gregorian_leap (year : Z) : Prop := year mod 4 = 0 ∧ (year mod 100 ≠ 0 ∨ year mod 400 = 0).
#[export] Instance gregorian_leap_dec year : Decision (gregorian_leap year).
Proof. unfold gregorian_leap. apply _. Defined.
Definition year_days (year : Z) : Z := if decide (gregorian_leap year) then 366 else 365.
Definition months (leap : bool) : list Z := [31; if leap then 29 else 28; 31; 30; 31; 30; 31; 31; 30; 31; 30; 31].
Definition month_days (year : Z) : list Z := months (bool_decide (gregorian_leap year)).

Definition sum (l : list Z) : Z := foldr Z.add 0 l.

(** Days of a year before a date, months counted from zero, and days since the
    beginning of the year 1900. *)
Definition day_of_year (year : Z) (month : nat) (day : Z) : Z := sum (take month (month_days year)) + (day - 1).
Definition day_number (year : Z) (month : nat) (day : Z) : Z :=
  sum (year_days <$> seqZ 1900 (year - 1900)) + day_of_year year month day.

(** Seconds since the Epoch. *)
Definition epoch_seconds (year : Z) (month : nat) (day hour minute second : Z) : Z :=
  (day_number year month day - day_number 1970 0 1) * 86400 + hour * 3600 + minute * 60 + second.

(** ** Leap years *)

Lemma is_leap_year_spec y : 0 ≤ y → is_leap_year y = bool_decide (gregorian_leap (1900 + y)).
Proof.
  intros Hy. unfold is_leap_year. rewrite !Z.rem_mod_nonneg by lia. unfold gregorian_leap.
  assert ((1900 + y) mod 4 = y mod 4) as H4 by (Z.div_mod_to_equations; lia).
  assert ((1900 + y) mod 100 = y mod 100) as H100 by (Z.div_mod_to_equations; lia).
  assert ((1900 + y) mod 400 = 0 ↔ y mod 400 = 100) as H400 by (Z.div_mod_to_equations; lia).
  assert (y mod 400 = 100 → y mod 100 = 0 ∧ y mod 4 = 0) as Hi by (Z.div_mod_to_equations; lia).
  symmetry. destruct (Z.eqb_spec (y mod 400) 100), (Z.eqb_spec (y mod 100) 0), (Z.eqb_spec (y mod 4) 0);
    first [apply bool_decide_eq_true_2; lia | apply bool_decide_eq_false_2; lia].
Qed.

Lemma leap_years_step y :
  0 ≤ y → leap_years_to_end y = leap_years_to_end (y - 1) + (if is_leap_year y then 1 else 0).
Proof.
  intros Hy. destruct (decide (y = 0)) as [->|Hne]; [done|].
  unfold leap_years_to_end, is_leap_year. rewrite !Z.rem_mod_nonneg, !Z.quot_div_nonneg by lia.
  destruct (Z.eqb_spec (y mod 400) 100), (Z.eqb_spec (y mod 100) 0), (Z.eqb_spec (y mod 4) 0); Z.div_mod_to_equations; lia.
Qed.

Lemma sum_app l l' : sum (l ++ l') = sum l + sum l'.
Proof. unfold sum. induction l as [|x l IH]; cbn; [done|]. rewrite IH. lia. Qed.

(** The days of the years before a year. *)
Lemma years_sum y : 0 ≤ y → sum (year_days <$> seqZ 1900 y) = 365 * y + leap_years_to_end (y - 1).
Proof.
  intros Hy. pattern y. apply natlike_ind; [done| |done]. clear y Hy. intros y Hy IH.
  assert (year_days <$> seqZ 1900 (Z.succ y) = (year_days <$> seqZ 1900 y) ++ [year_days (1900 + y)]) as ->.
  { replace (Z.succ y) with (y + 1) by lia. rewrite seqZ_app, fmap_app by lia. reflexivity. }
  rewrite sum_app, IH. replace (Z.succ y - 1) with y by lia. rewrite (leap_years_step y) by done.
  rewrite is_leap_year_spec by done. unfold year_days. cbn.
  destruct (decide (gregorian_leap (1900 + y))) as [Hl|Hl].
  - rewrite bool_decide_eq_true_2 by done. lia.
  - rewrite bool_decide_eq_false_2 by done. lia.
Qed.

(** The tables of the code, at every month: the days before it without the leap day. *)
Definition month_start (m : Z) (leap : bool) : Z :=
  sum (take (Z.to_nat m) (months leap)) - (if (2 <=? m) && leap then 1 else 0).

Lemma month_tables :
  Forall (λ m, Forall (λ leap,
    table_entry days_to_month_start m = Some (month_start m leap) ∧
    table_entry offset m = Some ((month_start m leap + (if m <? 2 then 1 else 0)) mod 7)) [false; true]) (seqZ 0 12).
Proof. by_decide. Qed.

Lemma month_table m leap :
  0 ≤ m < 12 →
  table_entry days_to_month_start m = Some (month_start m leap) ∧
  table_entry offset m = Some ((month_start m leap + (if m <? 2 then 1 else 0)) mod 7).
Proof.
  intros Hm. assert (m ∈ seqZ 0 12) as Hin by (apply elem_of_seqZ; lia).
  pose proof (proj1 (Forall_forall _ _) month_tables m Hin) as Hl. cbn beta in Hl.
  apply (proj1 (Forall_forall _ _) Hl). destruct leap; set_solver.
Qed.

(** The day of the year. *)
Lemma day_of_year_spec y m day :
  0 ≤ y → 0 ≤ m < 12 →
  ∃ start, table_entry days_to_month_start m = Some start ∧
    table_entry offset m = Some ((start + (if m <? 2 then 1 else 0)) mod 7) ∧
    day_of_year (1900 + y) (Z.to_nat m) day = day - 1 + start + (if (2 <=? m) && is_leap_year y then 1 else 0).
Proof.
  intros Hy Hm. rewrite is_leap_year_spec by done. unfold day_of_year, month_days.
  set (leap := bool_decide _). destruct (month_table m leap Hm) as [Hs Ho]. exists (month_start m leap).
  split; [exact Hs|]. split; [exact Ho|]. unfold month_start. lia.
Qed.

(** 1 January 1900 was a Monday. *)
Lemma day_of_week_spec y m day :
  0 ≤ y → 0 ≤ m < 12 → 1 ≤ day →
  day_of_week y m day = Some ((day_number (1900 + y) (Z.to_nat m) day + 1) mod 7).
Proof.
  intros Hy Hm Hd. destruct (day_of_year_spec y m day Hy Hm) as (start & _ & Ho & Hdoy). unfold day_number.
  replace (1900 + y - 1900) with y by lia. rewrite years_sum, Hdoy by done. unfold day_of_week. rewrite Ho. cbn [mbind option_bind].
  pose proof (leap_years_step y Hy) as Hstep.
  assert (-1 ≤ y - 1 + leap_years_to_end (y - 1)) as Hpos.
  { unfold leap_years_to_end. destruct (decide (y = 0)) as [->|]; [done|].
    rewrite !Z.quot_div_nonneg by lia. Z.div_mod_to_equations. lia. }
  f_equal. destruct (Z.ltb_spec m 2), (Z.leb_spec 2 m); try lia; cbn [andb].
  - rewrite Z.rem_mod_nonneg by (Z.div_mod_to_equations; lia). Z.div_mod_to_equations. lia.
  - destruct (is_leap_year y); rewrite Z.rem_mod_nonneg by (Z.div_mod_to_equations; lia); Z.div_mod_to_equations; lia.
Qed.

Lemma mktime_spec tm :
  0 ≤ tm_year tm → 0 ≤ tm_mon tm < 12 → 1 ≤ tm_mday tm →
  let year := 1900 + tm_year tm in
  let month := Z.to_nat (tm_mon tm) in
  mktime tm = Some (Tm (tm_sec tm) (tm_min tm) (tm_hour tm) (tm_mday tm) (tm_mon tm) (tm_year tm)
      ((day_number year month (tm_mday tm) + 1) mod 7) (day_of_year year month (tm_mday tm)),
    epoch_seconds year month (tm_mday tm) (tm_hour tm) (tm_min tm) (tm_sec tm)).
Proof.
  intros Hy Hm Hd year month. unfold mktime. rewrite day_of_week_spec by done.
  destruct (day_of_year_spec (tm_year tm) (tm_mon tm) (tm_mday tm) Hy Hm) as (start & -> & _ & Hdoy). cbn [mbind option_bind].
  fold year month in Hdoy |- *.
  assert ((if (2 <=? tm_mon tm) && is_leap_year (tm_year tm) then tm_mday tm - 1 + start + 1 else tm_mday tm - 1 + start) =
    day_of_year year month (tm_mday tm)) as ->.
  { rewrite Hdoy. destruct ((2 <=? tm_mon tm) && is_leap_year (tm_year tm)); lia. }
  do 2 f_equal. unfold epoch_seconds, day_number at 1. replace (year - 1900) with (tm_year tm) by lia.
  rewrite years_sum by done. change (day_number 1970 0 1) with 25567. lia.
Qed.

(** ** Digits *)

(** Two decimal digits. *)
Definition digits2 (v : Z) : bytes := [char_0 + v / 10; char_0 + v mod 10].

Lemma pairs_loop_digits vs k rest rem raw :
  Forall (λ v, 0 ≤ v < 100) vs → 0 ≤ rem → length raw = 7%nat → (length vs + k ≤ 7)%nat →
  pairs_loop (length vs + k) (mjoin (digits2 <$> vs) ++ rest) (2 * Zlen vs + rem) raw =
  pairs_loop k rest rem (take (7 - (length vs + k)) raw ++ vs ++ drop (7 - k) raw).
Proof.
  intros Hv. revert raw. induction Hv as [|v vs Hv _ IH]; intros raw Hrem Hraw Hk.
  { cbn [length Nat.add fmap list_fmap mjoin list_join app]. by rewrite take_drop. }
  set (m := (length vs + k)%nat). cbn [length Nat.add]. fold m. cbn [length] in Hk.
  change (mjoin (digits2 <$> v :: vs)) with (digits2 v ++ mjoin (digits2 <$> vs)). rewrite <- app_assoc.
  cbn [pairs_loop]. destruct (Z.ltb_spec (2 * Z.of_nat (S (length vs)) + rem) 2); [lia|].
  change (byte (digits2 v ++ ?l) 0) with (char_0 + v / 10). change (byte (digits2 v ++ ?l) 1) with (char_0 + v mod 10).
  change (drop 2 (digits2 v ++ ?l)) with (drop 0 l). rewrite drop_0.
  assert (0 ≤ v / 10 < 10 ∧ 0 ≤ v mod 10 < 10) as [H10 H1] by (Z.div_mod_to_equations; lia).
  assert (∀ x, 0 ≤ x < 10 → isdigit (char_0 + x) = true) as Hdigit.
  { intros x Hx. unfold isdigit. apply andb_true_iff. rewrite !Z.leb_le. lia. }
  rewrite !Hdigit by done. cbn [andb negb].
  replace (10 * (char_0 + v / 10 - char_0) + (char_0 + v mod 10 - char_0)) with v by (pose proof (Z.div_mod v 10); lia).
  replace (2 * Z.of_nat (S (length vs)) + rem - 2) with (2 * Zlen vs + rem) by lia.
  unfold m. rewrite IH by (rewrite ?length_insert; done || lia). f_equal. fold m.
  rewrite drop_insert_lt by lia. replace (7 - m)%nat with (S (7 - S m)) by lia.
  rewrite (take_S_r _ _ v) by (apply list_lookup_insert_eq; lia). rewrite take_insert_ge, <- app_assoc by lia. done.
Qed.

(** The digits of a time, then Z. *)
Definition time_string (vs : list Z) : bytes := mjoin (digits2 <$> vs) ++ [char_Z].

Lemma length_digits vs : length (mjoin (digits2 <$> vs)) = (2 * length vs)%nat.
Proof.
  induction vs as [|v vs IH]; [done|]. change (mjoin (digits2 <$> v :: vs)) with (digits2 v ++ mjoin (digits2 <$> vs)).
  rewrite length_app, IH. cbn [digits2 length]. lia.
Qed.

(** The last pair, the seconds, may be missing. *)
Lemma pairs_loop_time n vs rest :
  Forall (λ v, 0 ≤ v < 100) vs → (n ≤ 7)%nat → n = length vs ∨ n = S (length vs) →
  pairs_loop n (time_string vs ++ rest) (Zlen (time_string vs)) (replicate 7 0) =
    Ok (replicate (7 - n) 0 ++ vs ++ replicate (n - length vs) 0, char_Z :: rest, 1).
Proof.
  intros Hv Hn Hl. unfold time_string. rewrite length_app, length_digits, <- app_assoc. cbn [length app].
  replace (Z.of_nat (2 * length vs + 1)) with (2 * Zlen vs + 1) by lia.
  replace n with (length vs + (n - length vs))%nat at 1 by lia.
  rewrite pairs_loop_digits by (done || lia). replace (length vs + (n - length vs))%nat with n by lia.
  rewrite take_replicate, drop_replicate, Nat.min_l by lia. replace (7 - (7 - (n - length vs)))%nat with (n - length vs)%nat by lia.
  destruct Hl as [->| ->].
  - by rewrite Nat.sub_diag.
  - by replace (S (length vs) - length vs)%nat with 1%nat by lia.
Qed.

(** The time of encoded digits. *)
Definition time_of (century year month day hour minute second : Z) : option (res Z) :=
  '(_, time) ← mktime (Tm second minute hour day (month - 1) ((century - 19) * 100 + year) 0 0);
  Some (Ok time).

Lemma time_of_spec century year month day hour minute second :
  19 ≤ century → 0 ≤ year → 1 ≤ month ≤ 12 → 1 ≤ day →
  time_of century year month day hour minute second =
    Some (Ok (epoch_seconds (century * 100 + year) (Z.to_nat (month - 1)) day hour minute second)).
Proof.
  intros Hc Hy Hm Hd. unfold time_of. rewrite mktime_spec by (cbn; lia). cbn [mbind option_bind tm_year tm_mon tm_mday tm_hour tm_min tm_sec].
  do 3 f_equal. lia.
Qed.

Lemma asn1_time_encoded `{Platform} type vs rest L :
  type = ASN1_UTC_TIME ∨ type = ASN1_GENERALIZED_TIME → Forall (λ v, 0 ≤ v < 100) vs →
  let n := if type =? ASN1_GENERALIZED_TIME then 7%nat else 6%nat in
  n = length vs ∨ n = S (length vs) → Zlen (encode type (time_string vs)) ≤ L →
  asn1_generalized_time (Cursor (encode type (time_string vs) ++ rest) L) =
    let pair i := default 0 ((replicate (7 - n) 0 ++ vs ++ replicate (n - length vs) 0) !! i) in
    time_of (if type =? ASN1_GENERALIZED_TIME then pair 0%nat else if 50 <=? pair 1%nat then 19 else 20)
      (pair 1%nat) (pair 2%nat) (pair 3%nat) (pair 4%nat) (pair 5%nat) (pair 6%nat).
Proof.
  intros Ht Hv n Hn HL. unfold asn1_generalized_time.
  assert (in_range 8 type) by (destruct Ht as [-> | ->]; by_decide).
  assert (n ≤ 7)%nat by (unfold n; destruct (_ =? _); lia).
  rewrite encode_type by done. cbn [mbind option_bind].
  replace (negb _ && negb _) with false by (by destruct Ht as [-> | ->]).
  rewrite asn1_enter_encode; [|done|by left| |done].
  2: { unfold time_string. rewrite length_app, length_digits. cbn [length]. lia. }
  cbn [data len]. fold n. rewrite pairs_loop_time by done. cbn [Z.eqb negb orb].
  change (byte (char_Z :: rest) 0) with char_Z. rewrite Z.eqb_refl. cbn [negb orb].
  unfold time_of. by destruct (type =? ASN1_GENERALIZED_TIME).
Qed.

(** ** Times that read outside of the tables *)

(** The two digits of the month, after the year and, if there is one, the century. *)
Definition month_digits (cursor : asn1_cursor) : Z :=
  let type := default 0 (asn1_type cursor) in
  let contents := data (asn1_enter cursor type).1 in
  let i := if type =? ASN1_GENERALIZED_TIME then 4%nat else 2%nat in
  10 * (byte contents i - char_0) + (byte contents (S i) - char_0).

Lemma pairs_loop_next n l remaining raw r :
  (1 ≤ n < 7)%nat → pairs_loop (S n) l remaining raw = Ok r →
  pairs_loop n (drop 2 l) (remaining - 2) (<[(6 - n)%nat := 10 * (byte l 0 - char_0) + (byte l 1 - char_0)]> raw) = Ok r.
Proof.
  intros Hn. cbn [pairs_loop]. destruct (_ <? 2); [rewrite decide_False by lia; done|]. by destruct (negb _).
Qed.

Lemma pairs_loop_later n l remaining raw raw' l' remaining' :
  (n ≤ 4)%nat → pairs_loop n l remaining raw = Ok (raw', l', remaining') → raw' !! 2%nat = raw !! 2%nat.
Proof.
  revert l remaining raw. induction n as [|n IH]; intros l remaining raw Hn; cbn [pairs_loop]; [by intros [= <- _ _]|].
  destruct (_ <? 2); [case_decide; [by intros [= <- _ _]|done]|]. destruct (negb _); [done|].
  intros Hp. apply IH in Hp; [|lia]. rewrite Hp. apply list_lookup_insert_ne. lia.
Qed.

Lemma pairs_loop_month (century : bool) l remaining raw l' remaining' :
  pairs_loop (if century then 7 else 6) l remaining (replicate 7 0) = Ok (raw, l', remaining') →
  let i := if century then 4%nat else 2%nat in
  raw !! 2%nat = Some (10 * (byte l i - char_0) + (byte l (S i) - char_0)).
Proof.
  assert (∀ k i, byte (drop k l) i = byte l (k + i)) as Hb by (intros k i; unfold byte; by rewrite lookup_drop).
  intros Hp. destruct century.
  - do 3 (apply pairs_loop_next in Hp; [|lia]). apply pairs_loop_later in Hp; [|lia]. rewrite Hp, drop_drop, !Hb. done.
  - do 2 (apply pairs_loop_next in Hp; [|lia]). apply pairs_loop_later in Hp; [|lia]. rewrite Hp, !Hb. done.
Qed.

Lemma mktime_month tm : mktime tm = None → ¬ (0 ≤ tm_mon tm < 12).
Proof.
  intros Hn Hm. destruct (month_table (tm_mon tm) false Hm) as [Hs Ho]. unfold mktime, day_of_week in Hn. by rewrite Hs, Ho in Hn.
Qed.

(** The time at [cursor] is well-formed but for its month. *)
Definition bad_month (cursor : asn1_cursor) : Prop :=
  (asn1_type cursor = Some ASN1_UTC_TIME ∨ asn1_type cursor = Some ASN1_GENERALIZED_TIME) ∧
  asn1_generalized_time cursor = None ∧ ¬ (1 ≤ month_digits cursor ≤ 12).

(** Only a missing tag or a month that is none. *)
Lemma generalized_time_month c : asn1_generalized_time c = None → data c = [] ∨ ¬ (1 ≤ month_digits c ≤ 12).
Proof.
  unfold asn1_generalized_time, month_digits, asn1_type. destruct (data c) as [|type l] eqn:Hd; [by left|].
  change (default 0 ((type :: l) !! 0%nat)) with type. cbn [lookup list_lookup mbind option_bind]. intros Hn. right. revert Hn.
  destruct (_ && _); [done|]. destruct (asn1_enter c type) as [c' [[]|e]]; [|done]. cbn [fst].
  destruct (pairs_loop _ _ _ _) as [[[raw l'] remaining']|e] eqn:Hp; [|done]. apply pairs_loop_month in Hp.
  destruct (_ || _); [done|]. cbn beta zeta in Hp |- *. rewrite Hp.
  destruct (mktime _) as [[]|] eqn:Hm; [done|]. apply mktime_month in Hm. cbn [tm_mon default from_option id] in Hm. lia.
Qed.

Lemma generalized_time_none c : asn1_generalized_time c = None → data c = [] ∨ bad_month c.
Proof.
  intros Hn. destruct (generalized_time_month c Hn) as [|Hm]; [by left|]. destruct (asn1_type c) as [type|] eqn:Ht.
  2: { left. unfold asn1_type in Ht. by destruct (data c). }
  right. split; [|done]. rewrite Ht. unfold asn1_generalized_time in Hn. rewrite Ht in Hn. cbn [mbind option_bind] in Hn.
  destruct (Z.eqb_spec type ASN1_UTC_TIME) as [He|]; [left; by rewrite He|].
  destruct (Z.eqb_spec type ASN1_GENERALIZED_TIME) as [He|]; [right; by rewrite He|done].
Qed.

Section generalized_time.
Context `{Platform} (year month day hour minute : Z) (second : option Z).
Context (Hyear : 1900 ≤ year ≤ 9999) (Hmonth : 1 ≤ month ≤ 12) (Hday : 1 ≤ day ≤ 31).
Context (Hhour : 0 ≤ hour ≤ 23) (Hminute : 0 ≤ minute ≤ 59) (Hsecond : 0 ≤ default 0 second ≤ 60).

(** The fields of a time after its year. *)
Abbreviation fields := ([month; day; hour; minute] ++ option_list second).

Lemma fields_range : Forall (λ v, 0 ≤ v < 100) fields.
Proof using Hmonth Hday Hhour Hminute Hsecond.
  destruct second as [s|]; cbn in *; repeat (apply Forall_cons; split; [lia|]); apply Forall_nil_2.
Qed.

(** C37: The time of a certificate is the number of seconds since the Epoch of the
    Gregorian calendar: a GeneralizedTime from the year 1900 on, a UTCTime in the
    years 1950 to 2049 it stands for, each with its seconds or, as some
    certificates have it, without. *)
Theorem asn1_generalized_time_correct (rest : bytes) (L : Z) :
  let time := epoch_seconds year (Z.to_nat (month - 1)) day hour minute (default 0 second) in
  let generalized := encode ASN1_GENERALIZED_TIME (time_string ([year / 100; year mod 100] ++ fields)) in
  let utc := encode ASN1_UTC_TIME (time_string ([year mod 100] ++ fields)) in
  (Zlen generalized ≤ L → asn1_generalized_time (Cursor (generalized ++ rest) L) = Some (Ok time)) ∧
  (1950 ≤ year < 2050 → Zlen utc ≤ L → asn1_generalized_time (Cursor (utc ++ rest) L) = Some (Ok time)).
Proof using Hyear Hmonth Hday Hhour Hminute Hsecond.
  assert (0 ≤ year / 100 < 100 ∧ 0 ≤ year mod 100 < 100 ∧ year = 100 * (year / 100) + year mod 100 ∧ 19 ≤ year / 100)
    as (Hc & Hy & He & H19) by (Z.div_mod_to_equations; lia).
  pose proof fields_range as Hf. intros time generalized utc. split; [intros HL|intros H50 HL].
  - unfold generalized. rewrite asn1_time_encoded;
      [|by right|do 2 (apply Forall_cons; split; [done|]); done|destruct second; cbn; lia|done].
    transitivity (time_of (year / 100) (year mod 100) month day hour minute (default 0 second)); [by destruct second|].
    rewrite time_of_spec by lia. unfold time. do 3 f_equal. lia.
  - unfold utc. rewrite asn1_time_encoded;
      [|by left|apply Forall_cons; done|destruct second; cbn; lia|done].
    transitivity (time_of (if 50 <=? year mod 100 then 19 else 20) (year mod 100) month day hour minute (default 0 second)); [by destruct second|].
    rewrite time_of_spec by (destruct (50 <=? year mod 100); lia). unfold time. do 3 f_equal.
    destruct (Z.leb_spec 50 (year mod 100)); lia.
Qed.
End generalized_time.

(** 29 February 2000, 23:59:60 and 1 January 1970, 00:00. *)
Lemma asn1_generalized_time_correct_witness :
  asn1_generalized_time (Cursor (encode (H := x86_64) ASN1_GENERALIZED_TIME
    (time_string [20; 0; 2; 29; 23; 59; 60]) ++ []) 17) = Some (Ok 951868800) ∧
  asn1_generalized_time (Cursor (encode (H := x86_64) ASN1_UTC_TIME (time_string [70; 1; 1; 0; 0]) ++ []) 13) = Some (Ok 0).
Proof.
  split.
  - refine (proj1 (@asn1_generalized_time_correct x86_64 2000 2 29 23 59 (Some 60) _ _ _ _ _ _ [] 17) _); by vm_compute.
  - refine (proj2 (@asn1_generalized_time_correct x86_64 1970 1 1 0 0 None _ _ _ _ _ _ [] 13) _ _); by vm_compute.
Defined.

(** The month is not checked: its index leaves the table. *)
Lemma asn1_generalized_time_month :
  asn1_generalized_time (Cursor (encode (H := x86_64) ASN1_UTC_TIME (time_string [70; 13; 1; 0; 0])) 13) = None ∧
  asn1_generalized_time (Cursor (encode (H := x86_64) ASN1_UTC_TIME (time_string [70; 0; 1; 0; 0])) 13) = None.
Proof. by vm_compute. Qed.
