(* ===== verification/X509.v ===== *)
(** * X.509 certificates (src/crypto/x509.c, src/include/ipxe/x509.h) and the
    certificate store (src/crypto/certstore.c)

    Certificates are parsed with the cursors of Asn1.v and the times of Time.v, and
    validated with the digests of Digest.v and the signatures of Rsa.v.  They are
    shared objects, whose validation is remembered: [certs] maps addresses to
    certificates, and chains and the store are lists of addresses.  Reference counts
    and debugging names are left out, and so are the certificates that the store
    discards when memory runs out.  Times stay away from the ends of time_t.  [None]
    is an access outside of an object. *)

From S2P Require Import Prelude Digest Bigint Asn1 Rsa Time.

(** ** Results *)

Abbreviation result A := (option (res A)).

Definition rbind {A B} (m : result A) (f : A → result B) : result B :=
  match m with
  | Some (Ok a) => f a
  | Some (Err rc) => Some (Err rc)
  | None => None
  end.

Declare Scope x509_scope.
Notation "x ⇐ m ; k" := (rbind m (λ x, k)) (at level 20, m at level 100, k at level 200, right associativity) : x509_scope.
Notation "' x ⇐ m ; k" := (rbind m (λ x : _, k))
  (at level 20, x pattern, m at level 100, k at level 200, right associativity) : x509_scope.
Open Scope x509_scope.

(** ** Certificates *)

#[export] Instance pubkey_id_eq_dec : EqDecision pubkey_id.
Proof. solve_decision. Defined.
#[export] Instance asn1_algorithm_eq_dec : EqDecision asn1_algorithm.
Proof. solve_decision. Defined.

(** A NULL pointer and no bytes. *)
Definition null_cursor : asn1_cursor := Cursor [] 0.

Record x509_validity : Type := Validity {
  not_before : Z;
  not_after : Z;
}.

Record x509_public_key : Type := Public_key {
  pk_raw : asn1_cursor;
  pk_algorithm : option asn1_algorithm;
  raw_bits : asn1_bit_string;
}.

Record x509_subject : Type := Subject {
  subject_raw : asn1_cursor;
  common_name : asn1_cursor;
  public_key : x509_public_key;
}.

Record x509_signature : Type := Signature {
  sig_algorithm : option asn1_algorithm;
  sig_value : asn1_bit_string;
}.

Record x509_basic_constraints : Type := Basic {
  ca : Z;
  path_len : Z;
}.

Record x509_key_usage : Type := Usage {
  present : bool;
  bits : Z;
}.

Record x509_ocsp_responder : Type := Ocsp {
  uri : asn1_cursor;
  good : bool;
}.

(** The OCSP responder is the only authority information. *)
Record x509_extensions : Type := Extensions {
  basic : x509_basic_constraints;
  usage : x509_key_usage;
  ext_usage : Z;
  ocsp : x509_ocsp_responder;
  alt_name : asn1_cursor;
}.

Record x509_certificate : Type := Certificate {
  valid : bool;
  path_remaining : Z;
  raw : asn1_cursor;
  version : Z;
  serial : asn1_cursor;
  tbs : asn1_cursor;
  signature_algorithm : option asn1_algorithm;
  issuer : asn1_cursor;
  validity : x509_validity;
  subject : x509_subject;
  signature : x509_signature;
  extensions : x509_extensions;
}.

(** zalloc *)
Definition zero_bits : asn1_bit_string := Bits [] 0 0.
Definition zero_extensions : x509_extensions :=
  Extensions (Basic 0 0) (Usage false 0) 0 (Ocsp null_cursor false) null_cursor.

Definition zero_certificate : x509_certificate :=
  Certificate false 0 null_cursor 0 null_cursor null_cursor None null_cursor (Validity 0 0)
    (Subject null_cursor null_cursor (Public_key null_cursor None zero_bits)) (Signature None zero_bits) zero_extensions.

Definition X509_PATH_LEN_UNLIMITED : Z := u32 (-2).
Definition X509_KEY_CERT_SIGN : Z := 0x0004.
Definition X509_CODE_SIGNING : Z := 0x0001.
Definition X509_OCSP_SIGNING : Z := 0x0002.
Definition X509_GENERAL_NAME_DNS : Z := 0x82.
Definition X509_GENERAL_NAME_URI : Z := 0x86.
Definition X509_GENERAL_NAME_IP : Z := 0x87.
Definition TIMESTAMP_ERROR_MARGIN : Z := (12 * 60 + 30) * 60.
Definition ASN1_SET : Z := 0x31.
Definition ASN1_EXPLICIT_TAG (number : Z) : Z := Z.lor 0xa0 number.

(** Object identifiers. *)
Definition ASN1_OID_COMMON_NAME : bytes := ASN1_OID_INITIAL 2 5 ++ mjoin (ASN1_OID_SINGLE <$> [4; 3]).
Definition ASN1_OID_KEYUSAGE : bytes := ASN1_OID_INITIAL 2 5 ++ mjoin (ASN1_OID_SINGLE <$> [29; 15]).
Definition ASN1_OID_BASICCONSTRAINTS : bytes := ASN1_OID_INITIAL 2 5 ++ mjoin (ASN1_OID_SINGLE <$> [29; 19]).
Definition ASN1_OID_EXTKEYUSAGE : bytes := ASN1_OID_INITIAL 2 5 ++ mjoin (ASN1_OID_SINGLE <$> [29; 37]).
Definition ASN1_OID_SUBJECTALTNAME : bytes := ASN1_OID_INITIAL 2 5 ++ mjoin (ASN1_OID_SINGLE <$> [29; 17]).
Definition ASN1_OID_CODESIGNING : bytes := ASN1_OID_INITIAL 1 3 ++ mjoin (ASN1_OID_SINGLE <$> [6; 1; 5; 5; 7; 3; 3]).
Definition ASN1_OID_OCSPSIGNING : bytes := ASN1_OID_INITIAL 1 3 ++ mjoin (ASN1_OID_SINGLE <$> [6; 1; 5; 5; 7; 3; 9]).
Definition ASN1_OID_AUTHORITYINFOACCESS : bytes := ASN1_OID_INITIAL 1 3 ++ mjoin (ASN1_OID_SINGLE <$> [6; 1; 5; 5; 7; 1; 1]).
Definition ASN1_OID_OCSP : bytes := ASN1_OID_INITIAL 1 3 ++ mjoin (ASN1_OID_SINGLE <$> [6; 1; 5; 5; 7; 48; 1]).

Definition ASN1_OID_CURSOR (oid_value : bytes) : asn1_cursor := Cursor oid_value (Zlen oid_value).

(** while ( cursor.len ) { ... asn1_skip_any ( &cursor ); }: every step that does
    not fail shortens the cursor, so its length bounds their number. *)
Fixpoint scan {A} (step : A → asn1_cursor → result A) (fuel : nat) (a : A) (cursor : asn1_cursor) : result A :=
  if len cursor =? 0 then Some (Ok a)
  else
    match fuel with
    | O => None
    | S fuel => a ⇐ step a cursor; scan step fuel a (asn1_skip_any cursor).1
    end.

Definition scan_all {A} (step : A → asn1_cursor → result A) (a : A) (cursor : asn1_cursor) : result A :=
  scan step (Z.to_nat (len cursor)) a cursor.

(** ** Parsing *)

Definition x509_parse_version (raw : asn1_cursor) : res Z :=
  (* Enter version *)
  let '(cursor, _) := asn1_enter raw (ASN1_EXPLICIT_TAG 0) in
  (* Parse integer *)
  version ← asn1_integer cursor;
  (* Sanity check *)
  if version <? 0 then Err EINVAL else Ok version.

Definition x509_parse_serial (raw : asn1_cursor) : res asn1_cursor :=
  match asn1_shrink raw ASN1_INTEGER with (_, Err rc) => Err rc | (serial, Ok _) => Ok serial end.

Definition x509_parse_issuer (raw : asn1_cursor) : res asn1_cursor :=
  match asn1_shrink raw ASN1_SEQUENCE with (_, Err rc) => Err rc | (issuer, Ok _) => Ok issuer end.

Definition x509_parse_validity (raw : asn1_cursor) : result x509_validity :=
  (* Enter validity *)
  let '(cursor, _) := asn1_enter raw ASN1_SEQUENCE in
  (* Parse notBefore *)
  not_before ⇐ asn1_generalized_time cursor;
  let '(cursor, _) := asn1_skip_any cursor in
  (* Parse notAfter *)
  not_after ⇐ asn1_generalized_time cursor;
  Some (Ok (Validity not_before not_after)).

(** for ( ; cursor.len ; asn1_skip_any ( &cursor ) ) *)
Fixpoint common_name_loop (fuel : nat) (common_name cursor : asn1_cursor) : result asn1_cursor :=
  (* Certificates may not have a commonName *)
  if len cursor =? 0 then Some (Ok common_name)
  else
    match fuel with
    | O => None
    | S fuel =>
        (* Check for commonName OID *)
        let '(oid_cursor, _) := asn1_enter cursor ASN1_SET in
        let '(oid_cursor, _) := asn1_enter oid_cursor ASN1_SEQUENCE in
        let name_cursor := oid_cursor in
        let '(oid_cursor, _) := asn1_enter oid_cursor ASN1_OID in
        if negb (asn1_compare (ASN1_OID_CURSOR ASN1_OID_COMMON_NAME) oid_cursor =? 0)
        then common_name_loop fuel common_name (asn1_skip_any cursor).1
        else
          let '(name_cursor, _) := asn1_skip_any name_cursor in
          match asn1_enter_any name_cursor with
          | (_, Err rc) => Some (Err rc)
          | (name_cursor, Ok _) => Some (Ok name_cursor)
          end
    end.

(** [common_name] is what the certificate has before. *)
Definition x509_parse_common_name (common_name raw : asn1_cursor) : result asn1_cursor :=
  (* Enter name *)
  let '(cursor, _) := asn1_enter raw ASN1_SEQUENCE in
  (* Scan through name list *)
  common_name_loop (Z.to_nat (len cursor)) common_name cursor.

(** The raw subject and the common name. *)
Definition x509_parse_subject (common_name raw : asn1_cursor) : result (asn1_cursor * asn1_cursor) :=
  (* Record raw subject *)
  let '(subject, _) := asn1_shrink_any raw in
  (* Parse common name *)
  name ⇐ x509_parse_common_name common_name raw;
  Some (Ok (subject, name)).

Definition x509_parse_public_key (raw : asn1_cursor) : res x509_public_key :=
  (* Record raw subjectPublicKeyInfo *)
  let '(cursor, _) := asn1_shrink_any raw in
  let key := cursor in
  (* Enter subjectPublicKeyInfo *)
  let '(cursor, _) := asn1_enter cursor ASN1_SEQUENCE in
  (* Parse algorithm *)
  algorithm ← asn1_pubkey_algorithm cursor;
  let '(cursor, _) := asn1_skip_any cursor in
  (* Parse bit string *)
  raw_bits ← asn1_bit_string_parse cursor;
  Ok (Public_key key (Some algorithm) raw_bits).

(** ** Extensions *)

Definition set_basic (e : x509_extensions) (basic : x509_basic_constraints) : x509_extensions :=
  Extensions basic (usage e) (ext_usage e) (ocsp e) (alt_name e).
Definition set_usage (e : x509_extensions) (usage : x509_key_usage) : x509_extensions :=
  Extensions (basic e) usage (ext_usage e) (ocsp e) (alt_name e).
Definition set_ext_usage (e : x509_extensions) (ext_usage : Z) : x509_extensions :=
  Extensions (basic e) (usage e) ext_usage (ocsp e) (alt_name e).
Definition set_uri (e : x509_extensions) (uri : asn1_cursor) : x509_extensions :=
  Extensions (basic e) (usage e) (ext_usage e) (Ocsp uri (good (ocsp e))) (alt_name e).
Definition set_alt_name (e : x509_extensions) (alt_name : asn1_cursor) : x509_extensions :=
  Extensions (basic e) (usage e) (ext_usage e) (ocsp e) alt_name.

Definition x509_parse_basic_constraints (e : x509_extensions) (raw : asn1_cursor) : result x509_extensions :=
  (* Enter basicConstraints *)
  let '(cursor, _) := asn1_enter raw ASN1_SEQUENCE in
  (* Parse cA, if present *)
  type ← asn1_type cursor;
  '(ca, cursor) ⇐
    (if type =? ASN1_BOOLEAN then
       ca ⇐ Some (asn1_boolean cursor);
       Some (Ok (ca, (asn1_skip_any cursor).1))
     else Some (Ok (0, cursor)));
  (* Ignore everything else unless cA is true *)
  if ca =? 0 then Some (Ok (set_basic e (Basic ca (path_len (basic e)))))
  else
    (* Parse pathLenConstraint, if present and applicable *)
    type ← asn1_type cursor;
    if type =? ASN1_INTEGER then
      path_len ⇐ Some (asn1_integer cursor);
      if path_len <? 0 then Some (Err EINVAL)
      else Some (Ok (set_basic e (Basic ca path_len)))
    else Some (Ok (set_basic e (Basic ca X509_PATH_LEN_UNLIMITED))).

(** for ( i = 0 ; i < len ; i++ ): [n] bytes are left. *)
Fixpoint usage_loop (n : nat) (i : Z) (bytes : bytes) (bits : Z) : Z :=
  match n with
  | O => bits
  | S n => usage_loop n (i + 1) (drop 1 bytes) (Z.lor bits (u32 (Z.shiftl (byte bytes 0) (8 * i))))
  end.

Definition x509_parse_key_usage (e : x509_extensions) (raw : asn1_cursor) : result x509_extensions :=
  (* Parse bit string *)
  bit_string ⇐ Some (asn1_bit_string_parse raw);
  (* Parse key usage bits *)
  let len := bs_len bit_string in
  let len := if 4 <? len then 4 else len in
  Some (Ok (set_usage e (Usage true (usage_loop (Z.to_nat len) 0 (bs_data bit_string) (bits (usage e)))))).

Definition x509_key_purposes : list (bytes * Z) := [
  (ASN1_OID_CODESIGNING, X509_CODE_SIGNING);
  (ASN1_OID_OCSPSIGNING, X509_OCSP_SIGNING) ].

Definition x509_parse_key_purpose (e : x509_extensions) (raw : asn1_cursor) : result x509_extensions :=
  (* Enter keyPurposeId *)
  match asn1_enter raw ASN1_OID with
  | (_, Err rc) => Some (Err rc)
  | (cursor, Ok _) =>
      (* Identify key purpose *)
      match list_find (λ purpose, asn1_compare cursor (ASN1_OID_CURSOR purpose.1) = 0) x509_key_purposes with
      | Some (_, purpose) => Some (Ok (set_ext_usage e (Z.lor (ext_usage e) purpose.2)))
      (* Ignore unrecognised key purposes *)
      | None => Some (Ok e)
      end
  end.

Definition x509_parse_extended_key_usage (e : x509_extensions) (raw : asn1_cursor) : result x509_extensions :=
  (* Enter extKeyUsage *)
  let '(cursor, _) := asn1_enter raw ASN1_SEQUENCE in
  (* Parse each extended key usage in turn *)
  scan_all x509_parse_key_purpose e cursor.

Definition x509_parse_ocsp (e : x509_extensions) (raw : asn1_cursor) : result x509_extensions :=
  (* Enter accessLocation *)
  match asn1_enter raw X509_GENERAL_NAME_URI with
  | (_, Err rc) => Some (Err rc)
  | (uri, Ok _) => Some (Ok (set_uri e uri))
  end.

(** Access methods and extensions: an object identifier and a parser. *)
Definition parser : Type := x509_extensions → asn1_cursor → result x509_extensions.

Definition find_parser (table : list (bytes * parser)) (oid : asn1_cursor) : option parser :=
  snd ∘ snd <$> list_find (λ entry, asn1_compare (ASN1_OID_CURSOR entry.1) oid = 0) table.

Definition x509_access_methods : list (bytes * parser) := [(ASN1_OID_OCSP, x509_parse_ocsp)].

Definition x509_find_access_method (oid : asn1_cursor) : option parser := find_parser x509_access_methods oid.

Definition x509_parse_access_description (e : x509_extensions) (raw : asn1_cursor) : result x509_extensions :=
  let '(cursor, _) := asn1_enter raw ASN1_SEQUENCE in
  (* Try to identify access method *)
  let '(subcursor, _) := asn1_enter cursor ASN1_OID in
  let method := x509_find_access_method subcursor in
  let '(cursor, _) := asn1_skip_any cursor in
  (* Parse access location, if applicable *)
  match method with Some parse => parse e cursor | None => Some (Ok e) end.

Definition x509_parse_authority_info_access (e : x509_extensions) (raw : asn1_cursor) : result x509_extensions :=
  (* Enter authorityInfoAccess *)
  let '(cursor, _) := asn1_enter raw ASN1_SEQUENCE in
  (* Parse each access description in turn *)
  scan_all x509_parse_access_description e cursor.

Definition x509_parse_subject_alt_name (e : x509_extensions) (raw : asn1_cursor) : result x509_extensions :=
  (* Enter subjectAltName *)
  match asn1_enter raw ASN1_SEQUENCE with
  | (_, Err rc) => Some (Err rc)
  | (names, Ok _) => Some (Ok (set_alt_name e names))
  end.

Definition x509_extensions_table : list (bytes * parser) := [
  (ASN1_OID_BASICCONSTRAINTS, x509_parse_basic_constraints);
  (ASN1_OID_KEYUSAGE, x509_parse_key_usage);
  (ASN1_OID_EXTKEYUSAGE, x509_parse_extended_key_usage);
  (ASN1_OID_AUTHORITYINFOACCESS, x509_parse_authority_info_access);
  (ASN1_OID_SUBJECTALTNAME, x509_parse_subject_alt_name) ].

Definition x509_find_extension (oid : asn1_cursor) : option parser := find_parser x509_extensions_table oid.

Definition x509_parse_extension (e : x509_extensions) (raw : asn1_cursor) : result x509_extensions :=
  (* Enter extension *)
  let '(cursor, _) := asn1_enter raw ASN1_SEQUENCE in
  (* Try to identify extension *)
  let '(subcursor, _) := asn1_enter cursor ASN1_OID in
  let extension := x509_find_extension subcursor in
  let '(cursor, _) := asn1_skip_any cursor in
  (* Identify criticality *)
  type ← asn1_type cursor;
  '(is_critical, cursor) ⇐
    (if type =? ASN1_BOOLEAN then
       is_critical ⇐ Some (asn1_boolean cursor);
       Some (Ok (is_critical, (asn1_skip_any cursor).1))
     else Some (Ok (0, cursor)));
  match extension with
  (* Handle unknown extensions *)
  | None => if negb (is_critical =? 0) then Some (Err ENOTSUP) else Some (Ok e)
  | Some parse =>
      (* Extract extnValue *)
      match asn1_enter cursor ASN1_OCTET_STRING with
      | (_, Err rc) => Some (Err rc)
      (* Parse extension *)
      | (cursor, Ok _) => parse e cursor
      end
  end.

Definition x509_parse_extensions (e : x509_extensions) (raw : asn1_cursor) : result x509_extensions :=
  (* Enter extensions, if present *)
  let '(cursor, _) := asn1_enter raw (ASN1_EXPLICIT_TAG 3) in
  let '(cursor, _) := asn1_enter cursor ASN1_SEQUENCE in
  (* Parse each extension in turn *)
  scan_all x509_parse_extension e cursor.

(** ** Certificates *)

Definition x509_parse_tbscertificate (cert : x509_certificate) (raw_ : asn1_cursor) : result x509_certificate :=
  (* Record raw tbsCertificate *)
  let '(cursor, _) := asn1_shrink_any raw_ in
  let tbs := cursor in
  (* Enter tbsCertificate *)
  let '(cursor, _) := asn1_enter cursor ASN1_SEQUENCE in
  (* Parse version, if present *)
  type ← asn1_type cursor;
  '(version, cursor) ⇐
    (if type =? ASN1_EXPLICIT_TAG 0 then
       version ⇐ Some (x509_parse_version cursor);
       Some (Ok (version, (asn1_skip_any cursor).1))
     else Some (Ok (version cert, cursor)));
  (* Parse serialNumber *)
  serial ⇐ Some (x509_parse_serial cursor);
  let '(cursor, _) := asn1_skip_any cursor in
  (* Parse signature *)
  algorithm ⇐ Some (asn1_signature_algorithm cursor);
  let '(cursor, _) := asn1_skip_any cursor in
  (* Parse issuer *)
  issuer ⇐ Some (x509_parse_issuer cursor);
  let '(cursor, _) := asn1_skip_any cursor in
  (* Parse validity *)
  validity ⇐ x509_parse_validity cursor;
  let '(cursor, _) := asn1_skip_any cursor in
  (* Parse subject *)
  '(subject, name) ⇐ x509_parse_subject (common_name (subject cert)) cursor;
  let '(cursor, _) := asn1_skip_any cursor in
  (* Parse subjectPublicKeyInfo *)
  public_key ⇐ Some (x509_parse_public_key cursor);
  let '(cursor, _) := asn1_skip_any cursor in
  (* Parse extensions, if present *)
  extensions ⇐ x509_parse_extensions (extensions cert) cursor;
  Some (Ok (Certificate (valid cert) (path_remaining cert) (raw cert) version serial tbs (Some algorithm) issuer
              validity (Subject subject name public_key) (signature cert) extensions)).

(** [signature_algorithm] of the code points to the algorithm of the signature, so
    the final check compares that algorithm with itself. *)
Definition x509_parse (cert : x509_certificate) (raw_ : asn1_cursor) : result x509_certificate :=
  (* Record raw certificate *)
  let cert := Certificate (valid cert) (path_remaining cert) raw_ (version cert) (serial cert) (tbs cert)
                (signature_algorithm cert) (issuer cert) (validity cert) (subject cert) (signature cert) (extensions cert) in
  (* Enter certificate *)
  let '(cursor, _) := asn1_enter raw_ ASN1_SEQUENCE in
  (* Parse tbsCertificate *)
  cert ⇐ x509_parse_tbscertificate cert cursor;
  let '(cursor, _) := asn1_skip_any cursor in
  (* Parse signatureAlgorithm *)
  algorithm ⇐ Some (asn1_signature_algorithm cursor);
  let '(cursor, _) := asn1_skip_any cursor in
  (* Parse signatureValue *)
  value ⇐ Some (asn1_integral_bit_string cursor);
  let signature := Signature (Some algorithm) value in
  (* Check that algorithm in tbsCertificate matches algorithm in signature *)
  if negb (bool_decide (sig_algorithm signature = Some algorithm)) then Some (Err EINVAL)
  else
    Some (Ok (Certificate (valid cert) (path_remaining cert) (raw cert) (version cert) (serial cert) (tbs cert)
                (signature_algorithm cert) (issuer cert) (validity cert) (subject cert) signature (extensions cert))).

(** ** Checks *)

Section checks.
Context `{Platform}.

(** What a check finds around it: the contents of the digest context on the stack,
    what malloc returns for the public key, and the contents of the working space
    of a given size. *)
Record check_env : Type := Env {
  stack : Digest.context;
  memory : option (nat → Z);
  workspace : nat → bigint;
}.

(** digest_init, digest_update and digest_final of an algorithm. *)
Definition compute_digest (env : check_env) (digest_ : digest_id) (bs : bytes) : bytes :=
  match digest_ with
  | MD5 => (Md5.md5_final (Md5.md5_update (Md5.md5_init (stack env)) bs)).2
  | SHA1 => (Sha1.sha1_final (Sha1.sha1_update (Sha1.sha1_init (stack env)) bs)).2
  | SHA256 => (Sha256.sha256_final (Sha256.sha256_update (Sha256.sha256_init (stack env)) bs)).2
  end.

(** The public key algorithm is RSA, the only one there is. *)
Definition x509_check_signature (env : check_env) (cert : x509_certificate) (key : x509_public_key) : result unit :=
  algorithm ← sig_algorithm (signature cert);
  digest_ ← a_digest algorithm;
  pubkey ← a_pubkey algorithm;
  (* Calculate certificate digest *)
  let digest_out := compute_digest env digest_ (contents (tbs cert)) in
  (* Check that signature public key algorithm matches signer *)
  signer ← pk_algorithm key;
  if negb (bool_decide (a_pubkey signer = Some pubkey)) then Some (Err EINVAL)
  else
    (* Verify signature using signer's public key *)
    '(pubkey_ctx, rc) ← rsa_init (memory env) (data (pk_raw key)) (len (pk_raw key));
    match rc with
    | Err rc => Some (Err rc)
    | Ok _ =>
        let value := sig_value (signature cert) in
        '(_, rc) ← rsa_verify (workspace env (size pubkey_ctx)) pubkey_ctx (digest digest_) digest_out
                     (take (Z.to_nat (bs_len value)) (bs_data value));
        Some rc
    end.

Definition x509_check_issuer (env : check_env) (cert issuer_ : x509_certificate) : result unit :=
  (* Check issuer *)
  if negb (asn1_compare (issuer cert) (subject_raw (subject issuer_)) =? 0) then Some (Err EACCES)
  (* Check that issuer is allowed to sign certificates *)
  else if ca (basic (extensions issuer_)) =? 0 then Some (Err EACCES)
  else if present (usage (extensions issuer_)) && (Z.land (bits (usage (extensions issuer_))) X509_KEY_CERT_SIGN =? 0)
  then Some (Err EACCES)
  (* Check signature *)
  else x509_check_signature env cert (public_key (subject issuer_)).

Definition x509_fingerprint (env : check_env) (cert : x509_certificate) (digest_ : digest_id) : bytes :=
  compute_digest env digest_ (contents (raw cert)).

Record x509_root : Type := Root {
  root_digest : digest_id;
  root_count : nat;
  fingerprints : bytes;
}.

(** for ( i = 0 ; i < root->count ; i++ ): [count] fingerprints are left. *)
Fixpoint root_loop (count : nat) (fingerprint root_fingerprint : bytes) : res unit :=
  match count with
  | O => Err ENOENT
  | S count =>
      if memcmp fingerprint root_fingerprint (length fingerprint) =? 0 then Ok tt
      else root_loop count fingerprint (drop (length fingerprint) root_fingerprint)
  end.

Definition x509_check_root (env : check_env) (cert : x509_certificate) (root : x509_root) : res unit :=
  (* Calculate certificate fingerprint *)
  let fingerprint := x509_fingerprint env cert (root_digest root) in
  (* Check fingerprint against all root certificates *)
  root_loop (root_count root) fingerprint (fingerprints root).

Definition x509_check_time (cert : x509_certificate) (time : Z) : res unit :=
  if time + TIMESTAMP_ERROR_MARGIN <? not_before (validity cert) then Err EACCES
  else if not_after (validity cert) <? time - TIMESTAMP_ERROR_MARGIN then Err EACCES
  else Ok tt.

(** ** Validation *)

(** Mark certificate as valid. *)
Definition set_valid (cert : x509_certificate) (path_remaining : Z) : x509_certificate :=
  Certificate true path_remaining (raw cert) (version cert) (serial cert) (tbs cert) (signature_algorithm cert)
    (issuer cert) (validity cert) (subject cert) (signature cert) (extensions cert).

(** The certificates by their address. *)
Abbreviation certificates := (gmap nat x509_certificate).

(** [root_certificates] is the default list of root certificates. *)
Context (root_certificates : x509_root).

Definition x509_validate (env : check_env) (certs : certificates) (cert_ : nat) (issuer_ : option nat) (time : Z)
    (root : option x509_root) : option (certificates * res unit) :=
  cert ← certs !! cert_;
  (* Use default root certificate store if none specified *)
  let root := default root_certificates root in
  (* Return success if certificate has already been validated *)
  if valid cert then Some (certs, Ok tt)
  else
    (* Fail if certificate is invalid at specified time *)
    match x509_check_time cert time with
    | Err rc => Some (certs, Err rc)
    | Ok _ =>
        match x509_check_root env cert root with
        (* Succeed if certificate is a trusted root certificate *)
        | Ok _ => Some (<[cert_ := set_valid cert (u32 (path_len (basic (extensions cert)) + 1))]> certs, Ok tt)
        | Err _ =>
            match issuer_ with
            (* Fail unless we have an issuer *)
            | None => Some (certs, Err EACCES)
            | Some issuer_ =>
                issuer ← certs !! issuer_;
                (* Fail unless issuer has already been validated *)
                if negb (valid issuer) then Some (certs, Err EACCES)
                else
                  (* Fail if issuing certificate cannot validate this certificate *)
                  rc ← x509_check_issuer env cert issuer;
                  match (rc : res unit) with
                  | Err rc => Some (certs, Err rc)
                  | Ok _ =>
                      (* Fail if path length constraint is violated *)
                      if path_remaining issuer =? 0 then Some (certs, Err EACCES)
                      (* Fail if OCSP is required *)
                      else if negb (len (uri (ocsp (extensions cert))) =? 0) && negb (good (ocsp (extensions cert)))
                      then Some (certs, Err EACCES)
                      else
                        (* Calculate effective path length *)
                        let path_remaining := u32 (path_remaining issuer - 1) in
                        let max_path_remaining := u32 (path_len (basic (extensions cert)) + 1) in
                        let path_remaining :=
                          if max_path_remaining <? path_remaining then max_path_remaining else path_remaining in
                        (* Mark certificate as valid *)
                        Some (<[cert_ := set_valid cert path_remaining]> certs, Ok tt)
                  end
            end
        end
    end.

(** ** Chains *)

(** The links of a chain. *)
Abbreviation x509_chain := (list nat).

Definition x509_alloc_chain (alloc : bool) : option x509_chain := if alloc then Some [] else None.

Definition x509_first (chain : x509_chain) : option nat := head chain.
Definition x509_last (chain : x509_chain) : option nat := last chain.

(** [alloc] is whether the link can be allocated. *)
Definition x509_append (alloc : bool) (chain : x509_chain) (cert : nat) : x509_chain * res unit :=
  if negb alloc then (chain, Err ENOMEM) else (chain ++ [cert], Ok tt).

Fixpoint x509_find_subject (certs : certificates) (chain : x509_chain) (subject_ : asn1_cursor)
    : option (option nat) :=
  match chain with
  | [] => Some None
  | cert_ :: chain =>
      (* Check subject *)
      cert ← certs !! cert_;
      if asn1_compare subject_ (subject_raw (subject cert)) =? 0 then Some (Some cert_)
      else x509_find_subject certs chain subject_
  end.

(** while ( 1 ): each iteration that goes on allocates a link; [allocs] are the
    outcomes.  [None] when there are no more of them. *)
Fixpoint append_loop (allocs : list bool) (certs : certificates) (chain store : x509_chain) (cert_ : nat)
    : option (x509_chain * res unit) :=
  cert ← certs !! cert_;
  (* Find issuing certificate *)
  let previous := cert_ in
  found ← x509_find_subject certs store (issuer cert);
  match (found : option nat) with
  | None => Some (chain, Ok tt)
  | Some cert_ =>
      if decide (cert_ = previous) then Some (chain, Ok tt)
      else
        match allocs with
        | [] => None
        | alloc :: allocs =>
            (* Append certificate to chain *)
            match x509_append alloc chain cert_ with
            | (chain, Err rc) => Some (chain, Err rc)
            | (chain, Ok _) => append_loop allocs certs chain store cert_
            end
        end
  end.

Definition x509_auto_append (allocs : list bool) (certs : certificates) (chain store : x509_chain)
    : option (x509_chain * res unit) :=
  (* Get current certificate *)
  match x509_last chain with
  | None => Some (chain, Err EACCES)
  (* Append certificates, in order *)
  | Some cert_ => append_loop allocs certs chain store cert_
  end.

(** list_for_each_entry_continue_reverse: [links] go up from the issuer to the
    start of the chain. *)
Fixpoint validate_back (env : nat → check_env) (certs : certificates) (links : list nat) (issuer_ : nat) (time : Z)
    (root : option x509_root) : option (certificates * res unit) :=
  match links with
  | [] => Some (certs, Ok tt)
  | link :: links =>
      (* Validate this certificate against its issuer *)
      '(certs, rc) ← x509_validate (env link) certs link (Some issuer_) time root;
      match rc with
      | Err rc => Some (certs, Err rc)
      | Ok _ => validate_back env certs links link time root
      end
  end.

(** list_for_each_entry: [before] are the links passed, the last one first. *)
Fixpoint validate_loop (env : nat → check_env) (certs : certificates) (before links : list nat) (time : Z)
    (root : option x509_root) : option (certificates * res unit) :=
  match links with
  | [] => Some (certs, Err EACCES)
  | link :: links =>
      (* Try validating this certificate as a standalone *)
      '(certs, rc) ← x509_validate (env link) certs link None time root;
      match rc with
      | Err _ => validate_loop env certs (link :: before) links time root
      (* Work back up to start of chain, performing pairwise validation *)
      | Ok _ => validate_back env certs before link time root
      end
  end.

(** [certstore] is the default store; [env] what each signature check finds. *)
Definition x509_validate_chain (env : nat → check_env) (allocs : list bool) (certs : certificates) (certstore : x509_chain)
    (chain : x509_chain) (time : Z) (store : option x509_chain) (root : option x509_root)
    : option (certificates * x509_chain * res unit) :=
  (* Use default certificate store if none specified *)
  let store := default certstore store in
  (* Append any applicable certificates from the certificate store *)
  '(chain, rc) ← x509_auto_append allocs certs chain store;
  match rc with
  | Err rc => Some (certs, chain, Err rc)
  | Ok _ =>
      '(certs, rc) ← validate_loop env certs [] chain time root;
      Some (certs, chain, rc)
  end.

Definition x509_invalidate (cert : x509_certificate) : x509_certificate :=
  Certificate false 0 (raw cert) (version cert) (serial cert) (tbs cert) (signature_algorithm cert)
    (issuer cert) (validity cert) (subject cert) (signature cert) (extensions cert).

Definition x509_invalidate_chain (certs : certificates) (chain : x509_chain) : certificates :=
  foldl (λ certs cert_, alter x509_invalidate cert_ certs) certs chain.
End checks.

(** ** Names *)

Inductive sa_family : Set := AF_INET | AF_INET6.

#[export] Instance sa_family_eq_dec : EqDecision sa_family.
Proof. solve_decision. Defined.

(** '*' and '.' *)
Definition char_star : Z := 0x2a.
Definition char_dot : Z := 0x2e.

(** strchr of src/core/string.c, on the characters before the NUL: what the
    pointer it returns points to. *)
Fixpoint strchr (s : bytes) (c : Z) : option bytes :=
  match s with
  | [] => None
  | b :: s' => if b =? c then Some s else strchr s' c
  end.

(** [name] are the characters of a string, without its NUL. *)
Definition x509_check_dnsname (raw : asn1_cursor) (name : bytes) : res unit :=
  let dnsname := data raw in
  let len := len raw in
  let compare name dnsname len :=
    (* Compare names *)
    if negb ((Zlen name =? len) && (memcmp name dnsname (Z.to_nat len) =? 0)) then Err ENOENT else Ok tt in
  (* Check for wildcards *)
  if (2 <=? len) && (byte dnsname 0 =? char_star) && (byte dnsname 1 =? char_dot) then
    (* Skip initial portion of name to be tested *)
    match strchr name char_dot with
    | None => Err ENOENT
    | Some name => compare (drop 1 name) (drop 2 dnsname) (len - 2)
    end
  else compare name dnsname len.

(** What aton does with a string: the address it fills in. *)
Record sockaddr_converter : Type := Converter {
  family : sa_family;
  aton : bytes → res bytes;
}.

Section names.
(** The table of converters that the build links together. *)
Context (SOCKADDR_CONVERTERS : list sockaddr_converter).

(** for_each_table_entry *)
Fixpoint aton_loop (converters : list sockaddr_converter) (string : bytes) : res (sa_family * bytes) :=
  match converters with
  | [] => Err EINVAL
  | converter :: converters =>
      match aton converter string with
      | Ok address => Ok (family converter, address)
      | Err _ => aton_loop converters string
      end
  end.

Definition sock_aton (string : bytes) : res (sa_family * bytes) := aton_loop SOCKADDR_CONVERTERS string.

Definition x509_check_ipaddress (raw : asn1_cursor) (name : bytes) : res unit :=
  (* Determine address family *)
  family ← (if len raw =? 4 then Ok AF_INET else if len raw =? 16 then Ok AF_INET6 else Err EINVAL);
  (* Attempt to convert name to a socket address *)
  '(sa_family_, address) ← sock_aton name;
  if negb (bool_decide (sa_family_ = family)) then Err ENOENT
  (* Compare addresses *)
  else if negb (memcmp address (data raw) (Z.to_nat (len raw)) =? 0) then Err ENOENT
  else Ok tt.

Definition x509_check_alt_name (raw : asn1_cursor) (name : bytes) : option (res unit) :=
  (* Enter generalName *)
  type ← asn1_type raw;
  let '(alt_name, _) := asn1_enter_any raw in
  (* Check this name *)
  Some (if type =? X509_GENERAL_NAME_DNS then x509_check_dnsname alt_name name
        else if type =? X509_GENERAL_NAME_IP then x509_check_ipaddress alt_name name
        else Err ENOTSUP).

(** for ( ; alt_name.len ; asn1_skip_any ( &alt_name ) ) *)
Fixpoint alt_name_loop (fuel : nat) (alt_name : asn1_cursor) (name : bytes) : option (res unit) :=
  if len alt_name =? 0 then Some (Err EACCES)
  else
    match fuel with
    | O => None
    | S fuel =>
        checked ← x509_check_alt_name alt_name name;
        match checked with
        | Ok _ => Some (Ok tt)
        | Err _ => alt_name_loop fuel (asn1_skip_any alt_name).1 name
        end
    end.

Definition x509_check_name (cert : x509_certificate) (name : bytes) : option (res unit) :=
  (* Check commonName *)
  match x509_check_dnsname (common_name (subject cert)) name with
  | Ok _ => Some (Ok tt)
  (* Check any subjectAlternativeNames *)
  | Err _ => alt_name_loop (Z.to_nat (len (alt_name (extensions cert)))) (alt_name (extensions cert)) name
  end.
End names.

(** ** The certificate store *)

(** Mark as most recently used. *)
Definition certstore_found (certstore : list nat) (cert_ : nat) : list nat := cert_ :: filter (λ c, c ≠ cert_) certstore.

(** Search for certificate within store. *)
Fixpoint store_search (certs : gmap nat x509_certificate) (links : list nat) (raw_ : asn1_cursor) : option (option nat) :=
  match links with
  | [] => Some None
  | cert_ :: links =>
      cert ← certs !! cert_;
      if asn1_compare raw_ (raw cert) =? 0 then Some (Some cert_) else store_search certs links raw_
  end.

Definition certstore_find (certs : gmap nat x509_certificate) (certstore : list nat) (raw_ : asn1_cursor)
    : option (list nat * option nat) :=
  found ← store_search certs certstore raw_;
  match (found : option nat) with
  | Some cert_ => Some (certstore_found certstore cert_, Some cert_)
  | None => Some (certstore, None)
  end.

(** pubkey_match is that of RSA, the only public key algorithm there is. *)
Fixpoint store_search_key (certs : gmap nat x509_certificate) (links : list nat) (key : asn1_cursor) : option (option nat) :=
  match links with
  | [] => Some None
  | cert_ :: links =>
      cert ← certs !! cert_;
      algorithm ← signature_algorithm cert;
      _ ← a_pubkey algorithm;
      let public := pk_raw (public_key (subject cert)) in
      matched ← rsa_match (data key) (len key) (data public) (len public);
      match matched with
      | Ok _ => Some (Some cert_)
      | Err _ => store_search_key certs links key
      end
  end.

Definition certstore_find_key (certs : gmap nat x509_certificate) (certstore : list nat) (key : asn1_cursor)
    : option (list nat * option nat) :=
  found ← store_search_key certs certstore key;
  match (found : option nat) with
  | Some cert_ => Some (certstore_found certstore cert_, Some cert_)
  | None => Some (certstore, None)
  end.

Definition certstore_add (certstore : list nat) (cert_ : nat) : list nat := cert_ :: certstore.

(** [alloc] is the address of the memory allocated, or NULL. *)
Definition x509_certificate_create (alloc : option nat) (certs : gmap nat x509_certificate) (certstore : list nat)
    (data_ : bytes) (len_ : Z) : option (gmap nat x509_certificate * list nat * res nat) :=
  (* Initialise cursor *)
  let '(cursor, _) := asn1_shrink_any (Cursor data_ len_) in
  (* Return stored certificate, if present *)
  '(certstore, found) ← certstore_find certs certstore cursor;
  match found with
  | Some cert_ => Some (certs, certstore, Ok cert_)
  | None =>
      (* Allocate and initialise certificate *)
      match alloc with
      | None => Some (certs, certstore, Err ENOMEM)
      | Some cert_ =>
          (* Copy raw data *)
          let cursor := Cursor (contents cursor) (len cursor) in
          (* Parse certificate *)
          rc ← x509_parse zero_certificate cursor;
          match (rc : res x509_certificate) with
          | Err rc => Some (certs, certstore, Err rc)
          (* Add certificate to store *)
          | Ok cert => Some (<[cert_ := cert]> certs, certstore_add certstore cert_, Ok cert_)
          end
      end
  end.

Definition x509_append_raw (alloc : option nat) (alloc_link : bool) (certs : gmap nat x509_certificate)
    (certstore chain : list nat) (data_ : bytes) (len_ : Z)
    : option (gmap nat x509_certificate * list nat * list nat * res unit) :=
  (* Parse certificate *)
  '(certs, certstore, rc) ← x509_certificate_create alloc certs certstore data_ len_;
  match rc with
  | Err rc => Some (certs, certstore, chain, Err rc)
  | Ok cert_ =>
      (* Append certificate to chain *)
      let '(chain, rc) := x509_append alloc_link chain cert_ in
      Some (certs, certstore, chain, rc)
  end.
