(* ===== verification/X509Parse.v ===== *)
(** * What parsing an X.509 certificate gives (src/crypto/x509.c)

    Every loop of the parser ends, every part of the certificate lies within the data
    it was parsed from, and its numbers and algorithms are those the rest of the code
    relies on. *)

From S2P Require Import Prelude Digest Bigint Asn1 Rsa Time X509.

(** What a parser gives when it succeeds; it reads outside of an object only if [F]
    holds. *)
Definition typed {A} (F : Prop) (P : A → Prop) (m : result A) : Prop :=
  match m with
  | Some (Ok a) => P a
  | Some (Err _) => True
  | None => F
  end.

Lemma typed_bind {A B} F (P : A → Prop) (Q : B → Prop) m f :
  typed F P m → (∀ a, P a → typed F Q (f a)) → typed F Q (rbind m f).
Proof. destruct m as [[a|rc]|]; cbn; intros Hm Hf; [by apply Hf|done..]. Qed.

(** Skipping an object makes a cursor shorter. *)
Lemma skip_any_shorter c :
  cursor_ok c → len c ≠ 0 → len (asn1_skip_any c).1 < len c.
Proof.
  intros Hc Hn. pose proof Hc as (Hl & _). destruct (asn1_start_moved c ASN1_ANY Hc) as (k & Hm & Hr).
  unfold asn1_skip_any, asn1_skip, asn1_skip_if_exists. destruct (asn1_start c ASN1_ANY) as [c' [n|e]]; cbn [fst snd] in *.
  - destruct Hm as (_ & Hl' & _). destruct (_ =? 0); cbn; lia.
  - cbn. lia.
Qed.

Section parts.
Context (raw_ : asn1_cursor) (Hraw : cursor_ok raw_).

(** Parts of [raw_], and parts that may be missing. *)
Definition part (c : asn1_cursor) : Prop := within raw_ c.
Definition optional (c : asn1_cursor) : Prop := c = null_cursor ∨ part c.
Definition part_bits (b : asn1_bit_string) : Prop := part (Cursor (bs_data b) (bs_len b)).

(** What makes the parser read outside of an object: an empty sequence at the end of
    the memory, behind which a tag is read, or a time with a month that the table of
    month lengths lacks. *)
Definition astray : Prop := ∃ c, part c ∧ (asn1_enter c ASN1_SEQUENCE = (Cursor [] 0, Ok tt) ∨ bad_month c).

(** Reading a tag. *)
Lemma tag_typed {A} (P : A → Prop) c (f : Z → result A) :
  (data c = [] → astray) → (∀ type, typed astray P (f type)) → typed astray P (type ← asn1_type c; f type).
Proof. intros Hc Hf. unfold asn1_type. destruct (data c) as [|type l] eqn:Hd; [by apply Hc|apply Hf]. Qed.

Lemma part_ok c : part c → cursor_ok c.
Proof using Hraw. by apply within_ok. Qed.

Lemma part_do op c : part c → part (asn1_do op c).1.
Proof using Hraw. intros Hc. eapply within_trans; [done|]. by apply asn1_do_within, part_ok. Qed.

Lemma part_self : part raw_.
Proof using Hraw. right. exists 0%nat. rewrite drop_0. destruct Hraw as (Hl & _). split_and!; [done|lia..]. Qed.

Lemma part_enter c type : part c → part (asn1_enter c type).1.
Proof using Hraw. apply (part_do (Enter type)). Qed.
Lemma part_enter_any c : part c → part (asn1_enter_any c).1.
Proof using Hraw. apply (part_do (Enter ASN1_ANY)). Qed.
Lemma part_skip_any c : part c → part (asn1_skip_any c).1.
Proof using Hraw. apply (part_do (Skip ASN1_ANY)). Qed.
Lemma part_shrink c type : part c → part (asn1_shrink c type).1.
Proof using Hraw. apply (part_do (Shrink type)). Qed.
Lemma part_shrink_any c : part c → part (asn1_shrink_any c).1.
Proof using Hraw. apply (part_do (Shrink ASN1_ANY)). Qed.

(** There is a tag to read after an object was skipped, and in a sequence that was
    entered, unless it is empty. *)
Lemma tag_skip_any c : part c → data (asn1_skip_any c).1 = [] → astray.
Proof using Hraw.
  intros Hc Hd. exfalso. pose proof (part_ok _ (part_skip_any c Hc)) as (Hl & _). revert Hd Hl.
  unfold asn1_skip_any, asn1_skip, asn1_skip_if_exists. destruct (asn1_start c ASN1_ANY) as [c' [n|e]]; [|done].
  destruct (Z.eqb_spec (len (Cursor (drop (Z.to_nat n) (data c')) (len c' - n))) 0); [done|]. cbn [fst]. intros -> Hl. cbn in *. lia.
Qed.

Lemma tag_enter c : part c → data (asn1_enter c ASN1_SEQUENCE).1 = [] → astray.
Proof using Hraw.
  intros Hc Hd. exists c. split; [done|left]. pose proof (part_ok _ (part_enter c ASN1_SEQUENCE Hc)) as (Hl & _). revert Hd Hl.
  unfold asn1_enter. destruct (asn1_start c ASN1_SEQUENCE) as [c' [n|e]]; [|done]. cbn [fst data len]. intros -> Hl. cbn in Hl.
  by replace n with 0 by lia.
Qed.

Lemma scan_typed {A} (P : A → Prop) step fuel a c :
  (∀ a c, P a → part c → typed astray P (step a c)) → P a → part c → len c ≤ Z.of_nat fuel →
  typed astray P (scan step fuel a c).
Proof using Hraw.
  intros Hstep. revert a c. induction fuel as [|fuel IH]; intros a c Ha Hc Hf; cbn [scan];
    destruct (Z.eqb_spec (len c) 0) as [|Hn]; try done.
  - pose proof (part_ok c Hc) as (? & _). lia.
  - eapply typed_bind; [by apply Hstep|]. intros a' Ha'. apply IH; [done|by apply part_skip_any|].
    pose proof (skip_any_shorter c (part_ok c Hc) Hn). lia.
Qed.

Lemma scan_all_typed {A} (P : A → Prop) step a c :
  (∀ a c, P a → part c → typed astray P (step a c)) → P a → part c → typed astray P (scan_all step a c).
Proof using Hraw. intros Hs Ha Hc. apply scan_typed; [done..|]. pose proof (part_ok c Hc) as (? & _). lia. Qed.
End parts.

(** One step of a cursor: what it gives is a part too. *)
Ltac walk Hraw :=
  match goal with
  | |- context [asn1_enter ?c ?t] => pose proof (part_enter _ Hraw c t ltac:(assumption)); destruct (asn1_enter c t) as [? [[]|?]]
  | |- context [asn1_enter_any ?c] => pose proof (part_enter_any _ Hraw c ltac:(assumption)); destruct (asn1_enter_any c) as [? [[]|?]]
  | |- context [asn1_skip_any ?c] => pose proof (part_skip_any _ Hraw c ltac:(assumption)); destruct (asn1_skip_any c) as [? ?]
  | |- context [asn1_shrink ?c ?t] => pose proof (part_shrink _ Hraw c t ltac:(assumption)); destruct (asn1_shrink c t) as [? [[]|?]]
  | |- context [asn1_shrink_any ?c] => pose proof (part_shrink_any _ Hraw c ltac:(assumption)); destruct (asn1_shrink_any c) as [? ?]
  end; cbn [fst] in *.

(** The same for the step of a given lemma, whether it fails or not. *)
Tactic Notation "step" uconstr(lemma) "as" ident(c) ident(H) :=
  pose proof lemma as H; match type of H with _ (fst ?x) => destruct x as [c ?]; cbn [fst] in H end.

Ltac walks Hraw := repeat (walk Hraw; try done).

(** ** Values *)

Lemma integer_loop_range n data v v' :
  - 2 ^ 31 ≤ v < 2 ^ 31 → integer_loop n data v = Ok v' → - 2 ^ 31 ≤ v' < 2 ^ 31.
Proof.
  revert data v. induction n as [|n IH]; intros data v Hv; cbn [integer_loop]; [by intros [= <-]|].
  destruct (_ && _); [done|]. apply IH, (swrap_range 32); lia.
Qed.

Lemma asn1_integer_range c v : asn1_integer c = Ok v → - 2 ^ 31 ≤ v < 2 ^ 31.
Proof.
  unfold asn1_integer. destruct (asn1_enter c ASN1_INTEGER) as [c' [[]|e]]; [|done]. destruct (_ <? 1); [done|].
  apply integer_loop_range. pose proof (swrap_range 8 (byte (data c') 0)). lia.
Qed.

(** The algorithm of a signature has a digest and a public key algorithm. *)
Definition signature_algorithm_ok (a : option asn1_algorithm) : Prop :=
  ∃ algorithm digest_, a = Some algorithm ∧ a_digest algorithm = Some digest_ ∧ a_pubkey algorithm = Some RSA.
Definition pubkey_algorithm_ok (a : option asn1_algorithm) : Prop :=
  ∃ algorithm, a = Some algorithm ∧ a_pubkey algorithm = Some RSA.

Lemma signature_algorithm_typed c a : asn1_signature_algorithm c = Ok a → signature_algorithm_ok (Some a).
Proof.
  unfold asn1_signature_algorithm. destruct (asn1_algorithm_parse c) as [b|e]; [|done]. cbn [mbind res_bind].
  destruct (a_pubkey b) as [[]|] eqn:Hp, (a_digest b) as [d|] eqn:Hd; cbn; try done. intros [= <-]. by exists b, d.
Qed.

Lemma pubkey_algorithm_typed c a : asn1_pubkey_algorithm c = Ok a → pubkey_algorithm_ok (Some a).
Proof.
  unfold asn1_pubkey_algorithm. destruct (asn1_algorithm_parse c) as [b|e]; [|done]. cbn [mbind res_bind].
  destruct (a_pubkey b) as [[]|] eqn:Hp; cbn; try done. intros [= <-]. by exists b.
Qed.

(** ** Parsers *)

Section parse.
Context (raw_ : asn1_cursor) (Hraw : cursor_ok raw_).

Local Abbreviation part := (part raw_).
Local Abbreviation optional := (optional raw_).
Local Abbreviation gives := (typed (astray raw_)).

(** The extensions: a path length constraint leaves room for one certificate more,
    OCSP status is still unknown. *)
Definition extensions_ok (e : x509_extensions) : Prop :=
  (0 ≤ ca (basic e) < 256 ∧ 0 ≤ path_len (basic e) ≤ X509_PATH_LEN_UNLIMITED) ∧
  in_range 32 (bits (usage e)) ∧ in_range 2 (ext_usage e) ∧
  good (ocsp e) = false ∧ optional (uri (ocsp e)) ∧ optional (alt_name e).

Definition public_key_ok (key : x509_public_key) : Prop :=
  part (pk_raw key) ∧ pubkey_algorithm_ok (pk_algorithm key) ∧ part_bits raw_ (raw_bits key).

Lemma bit_string_typed c b : part c → asn1_bit_string_parse c = Ok b → part_bits raw_ b.
Proof using Hraw.
  intros Hc. unfold asn1_bit_string_parse. walk Hraw; [|done]. destruct (Z.ltb_spec (len a) 1); [done|].
  destruct (_ || _); [done|]. intros [= <-]. unfold part_bits. cbn. eapply within_trans; [done|].
  right. exists 1%nat. cbn. split_and!; [done|lia..].
Qed.

Lemma boolean_typed c v : part c → asn1_boolean c = Ok v → 0 ≤ v < 256.
Proof using Hraw.
  intros Hc. unfold asn1_boolean. walk Hraw; (destruct (negb _); [done|]); intros [= <-];
    by apply byte_range, (part_ok raw_ Hraw a).
Qed.

Lemma common_name_loop_typed fuel name c :
  optional name → part c → len c ≤ Z.of_nat fuel → gives optional (common_name_loop fuel name c).
Proof using Hraw.
  intros Hname. revert c. induction fuel as [|fuel IH]; intros c Hc Hf; cbn [common_name_loop];
    destruct (Z.eqb_spec (len c) 0) as [|Hn]; try done.
  { pose proof (part_ok raw_ Hraw c Hc) as (? & _). lia. }
  assert (gives optional (common_name_loop fuel name (asn1_skip_any c).1)) as Hnext.
  { apply IH; [by apply part_skip_any|]. pose proof (skip_any_shorter c (part_ok raw_ Hraw c Hc) Hn). lia. }
  revert Hnext. generalize (common_name_loop fuel name (asn1_skip_any c).1) as next. intros next Hnext.
  walks Hraw; destruct (negb _); try done; walks Hraw; by right.
Qed.

Lemma subject_typed name c :
  optional name → part c → gives (λ s, part s.1 ∧ optional s.2) (x509_parse_subject name c).
Proof using Hraw.
  intros Hname Hc. unfold x509_parse_subject, x509_parse_common_name.
  step (part_shrink_any raw_ Hraw c Hc) as sub Hsub.
  eapply (typed_bind _ optional); [|by intros].
  step (part_enter raw_ Hraw c ASN1_SEQUENCE Hc) as c' He.
  apply common_name_loop_typed; [done..|]. pose proof (part_ok raw_ Hraw c' He) as (? & _). lia.
Qed.

Lemma public_key_typed c : part c → gives public_key_ok (Some (x509_parse_public_key c)).
Proof using Hraw.
  intros Hc. unfold x509_parse_public_key.
  step (part_shrink_any raw_ Hraw c Hc) as a Ha.
  step (part_enter raw_ Hraw a ASN1_SEQUENCE Ha) as c' He.
  destruct (asn1_pubkey_algorithm c') as [b|e] eqn:Hb; [|done]. cbn [mbind res_bind].
  step (part_skip_any raw_ Hraw c' He) as c1 H1. destruct (asn1_bit_string_parse c1) as [bs|e] eqn:Hbs; [|done]. cbn.
  split_and!; [done|by eapply pubkey_algorithm_typed|by eapply bit_string_typed].
Qed.

Lemma validity_typed c : part c → gives (λ _, True) (x509_parse_validity c).
Proof using Hraw.
  intros Hc. unfold x509_parse_validity.
  pose proof (tag_enter raw_ Hraw c Hc) as Htag. step (part_enter raw_ Hraw c ASN1_SEQUENCE Hc) as c' He. cbn [fst] in Htag.
  assert (∀ c, part c → (data c = [] → astray raw_) → gives (λ _, True) (asn1_generalized_time c)) as Ht.
  { intros d Hd Htag'. destruct (asn1_generalized_time d) as [[]|] eqn:Hg; cbn; try done.
    destruct (generalized_time_none d Hg) as [|Hm]; [by apply Htag'|]. exists d. by split; [|right]. }
  eapply typed_bind; [by apply Ht|]. intros nb _. pose proof (tag_skip_any raw_ Hraw c' He) as Htag'.
  step (part_skip_any raw_ Hraw c' He) as c1 H1. eapply typed_bind; [by apply Ht|done].
Qed.

(** ** Extensions *)

Lemma gives_res {A} (P : A → Prop) (r : res A) : (∀ a, r = Ok a → P a) → gives P (Some r).
Proof. destruct r; cbn; auto. Qed.

(** An optional BOOLEAN. *)
Lemma flag_typed (type : Z) c :
  part c → (data c = [] → astray raw_) →
  gives (λ f, 0 ≤ f.1 < 256 ∧ part f.2 ∧ (data f.2 = [] → astray raw_))
    (if type =? ASN1_BOOLEAN then v ⇐ Some (asn1_boolean c); Some (Ok (v, (asn1_skip_any c).1)) else Some (Ok (0, c))).
Proof using Hraw.
  intros Hc Htag. destruct (_ =? _); [|cbn; split; [lia|done]].
  eapply (typed_bind _ (λ v, 0 ≤ v < 256)); [apply gives_res; intros v; by apply boolean_typed|].
  intros v Hv. split; [done|]. split; [by apply part_skip_any|by apply tag_skip_any].
Qed.

Lemma basic_constraints_typed e c : extensions_ok e → part c → gives extensions_ok (x509_parse_basic_constraints e c).
Proof using Hraw.
  intros (Hb & Hrest) Hc. unfold x509_parse_basic_constraints.
  pose proof (tag_enter raw_ Hraw c Hc) as Htag. step (part_enter raw_ Hraw c ASN1_SEQUENCE Hc) as c' He. cbn [fst] in Htag.
  apply tag_typed; [done|]. intros type. eapply typed_bind; [by apply flag_typed|]. intros [v c1] (Hv & H1 & Htag'). cbn [fst snd] in *.
  destruct (_ =? 0); [split; [split; [done|apply Hb]|done]|].
  apply tag_typed; [done|]. intros type'. destruct (_ =? _); [|split; [split; [done|by_decide]|done]].
  eapply (typed_bind _ (λ v, - 2 ^ 31 ≤ v < 2 ^ 31)); [apply gives_res; intros n; by apply asn1_integer_range|].
  intros n Hn. destruct (Z.ltb_spec n 0); [done|]. split; [|done]. split; [done|]. cbn.
  change X509_PATH_LEN_UNLIMITED with (2 ^ 32 - 2). lia.
Qed.

Lemma usage_loop_range n i bs v : in_range 32 v → in_range 32 (usage_loop n i bs v).
Proof.
  revert i bs v. induction n as [|n IH]; intros i bs v Hv; [done|]. cbn [usage_loop]. apply IH.
  apply in_range_lor; [lia|done|apply wrap_range; lia].
Qed.

Lemma key_usage_typed e c : extensions_ok e → part c → gives extensions_ok (x509_parse_key_usage e c).
Proof.
  intros (Hb & Hu & Hrest) Hc. unfold x509_parse_key_usage. destruct (asn1_bit_string_parse c) as [b|rc]; [|done].
  cbn. split; [done|]. split; [by apply usage_loop_range|done].
Qed.

Lemma key_purpose_typed e c : extensions_ok e → part c → gives extensions_ok (x509_parse_key_purpose e c).
Proof using Hraw.
  intros (Hb & Hu & Hx & Hrest) Hc. unfold x509_parse_key_purpose. walk Hraw; [|done].
  destruct (list_find _ _) as [[i p]|] eqn:Hf; [|done]. apply list_find_Some in Hf as (Hp & _ & _).
  cbn. split; [done|]. split; [done|]. split; [|done]. apply in_range_lor; [lia|done|].
  destruct i as [|[|i]]; [injection Hp as <-; by_decide..|done].
Qed.

Lemma access_description_typed e c : extensions_ok e → part c → gives extensions_ok (x509_parse_access_description e c).
Proof using Hraw.
  intros He Hc. unfold x509_parse_access_description. step (part_enter raw_ Hraw c ASN1_SEQUENCE Hc) as c1 H1.
  destruct (asn1_enter c1 ASN1_OID) as [oid ?]. step (part_skip_any raw_ Hraw c1 H1) as c2 H2.
  unfold x509_find_access_method, find_parser, x509_access_methods. cbn [list_find].
  case_decide; [|done]. cbn. unfold x509_parse_ocsp. walk Hraw; [|done].
  destruct He as (Hb & Hu & Hx & Hg & _ & Ha). cbn. repeat (split; [done|]). split; [by right|done].
Qed.

Lemma find_parser_typed table oid parse :
  Forall (λ entry, ∀ e c, extensions_ok e → part c → gives extensions_ok (entry.2 e c)) table →
  find_parser table oid = Some parse → ∀ e c, extensions_ok e → part c → gives extensions_ok (parse e c).
Proof.
  intros Ht. unfold find_parser. destruct (list_find _ _) as [[i entry]|] eqn:Hf; [|done]. intros [= <-].
  apply list_find_Some in Hf as (Hp & _). exact (Forall_lookup_1 _ _ _ _ Ht Hp).
Qed.

Lemma extensions_table_typed :
  Forall (λ entry, ∀ e c, extensions_ok e → part c → gives extensions_ok (entry.2 e c)) x509_extensions_table.
Proof using Hraw.
  repeat apply Forall_cons_2; try apply Forall_nil_2; cbn [snd]; intros e c He Hc.
  - by apply basic_constraints_typed.
  - by apply key_usage_typed.
  - unfold x509_parse_extended_key_usage. step (part_enter raw_ Hraw c ASN1_SEQUENCE Hc) as c1 H1.
    apply scan_all_typed; [done|apply key_purpose_typed|done..].
  - unfold x509_parse_authority_info_access. step (part_enter raw_ Hraw c ASN1_SEQUENCE Hc) as c1 H1.
    apply scan_all_typed; [done|apply access_description_typed|done..].
  - unfold x509_parse_subject_alt_name. walk Hraw; [|done]. destruct He as (Hb & Hu & Hx & Hg & Hr & _).
    cbn. repeat (split; [done|]). by right.
Qed.

Lemma extension_typed e c : extensions_ok e → part c → gives extensions_ok (x509_parse_extension e c).
Proof using Hraw.
  intros He Hc. unfold x509_parse_extension. step (part_enter raw_ Hraw c ASN1_SEQUENCE Hc) as c1 H1.
  destruct (asn1_enter c1 ASN1_OID) as [oid ?]. pose proof (tag_skip_any raw_ Hraw c1 H1) as Htag.
  step (part_skip_any raw_ Hraw c1 H1) as c2 H2.
  apply tag_typed; [done|]. intros type. eapply typed_bind; [by apply flag_typed|]. intros [critical c3] (_ & H3 & _). cbn [snd] in H3.
  destruct (x509_find_extension oid) as [parse|] eqn:Hf; [|by destruct (negb _)]. walk Hraw; [|done].
  by apply (find_parser_typed _ _ _ extensions_table_typed Hf).
Qed.

Lemma extensions_typed e c : extensions_ok e → part c → gives extensions_ok (x509_parse_extensions e c).
Proof using Hraw.
  intros He Hc. unfold x509_parse_extensions. step (part_enter raw_ Hraw c (ASN1_EXPLICIT_TAG 3) Hc) as c1 H1.
  step (part_enter raw_ Hraw c1 ASN1_SEQUENCE H1) as c2 H2. apply scan_all_typed; [done|apply extension_typed|done..].
Qed.

(** ** Certificates *)

Definition subject_ok (s : x509_subject) : Prop :=
  part (subject_raw s) ∧ optional (common_name s) ∧ public_key_ok (public_key s).

(** The part of a certificate that is signed, not yet validated. *)
Definition tbs_ok (c : x509_certificate) : Prop :=
  valid c = false ∧ path_remaining c = 0 ∧ raw c = raw_ ∧ 0 ≤ version c < 2 ^ 31 ∧ part (serial c) ∧ part (tbs c) ∧
  signature_algorithm_ok (signature_algorithm c) ∧ part (issuer c) ∧ subject_ok (subject c) ∧ extensions_ok (extensions c).

Definition certificate_ok (c : x509_certificate) : Prop :=
  tbs_ok c ∧ signature_algorithm_ok (sig_algorithm (signature c)) ∧ part_bits raw_ (sig_value (signature c)).

Lemma version_typed c : gives (λ v, 0 ≤ v < 2 ^ 31) (Some (x509_parse_version c)).
Proof.
  apply gives_res. intros v. unfold x509_parse_version. destruct (asn1_enter c (ASN1_EXPLICIT_TAG 0)) as [c' r'].
  destruct (asn1_integer c') as [n|e] eqn:Hn; [|done]. cbn [mbind res_bind]. apply asn1_integer_range in Hn.
  destruct (Z.ltb_spec n 0); [done|]. intros [= <-]. lia.
Qed.

Lemma tbscertificate_typed cert c :
  valid cert = false → path_remaining cert = 0 → raw cert = raw_ → 0 ≤ version cert < 2 ^ 31 →
  optional (common_name (subject cert)) → extensions_ok (extensions cert) →
  part c → gives tbs_ok (x509_parse_tbscertificate cert c).
Proof using Hraw.
  intros Hv Hr Hraw' Hver Hname Hext Hc. unfold x509_parse_tbscertificate.
  step (part_shrink_any raw_ Hraw c Hc) as tbs Htbs. pose proof (tag_enter raw_ Hraw tbs Htbs) as Htag. step (part_enter raw_ Hraw tbs ASN1_SEQUENCE Htbs) as c0 H0.
  apply tag_typed; [done|]. intros type. eapply (typed_bind _ (λ v, 0 ≤ v.1 < 2 ^ 31 ∧ part v.2)).
  { destruct (_ =? _); [|done]. eapply typed_bind; [apply version_typed|]. intros v Hv'. split; [done|by apply part_skip_any]. }
  intros [v c1] [Hv' H1]. cbn [fst snd] in *. eapply (typed_bind _ part).
  { unfold x509_parse_serial. by walk Hraw. }
  intros serial Hserial. step (part_skip_any raw_ Hraw c1 H1) as c2 H2.
  eapply (typed_bind _ (λ a, signature_algorithm_ok (Some a))); [apply gives_res; intros a; apply signature_algorithm_typed|].
  intros a Ha. step (part_skip_any raw_ Hraw c2 H2) as c3 H3. eapply (typed_bind _ part).
  { unfold x509_parse_issuer. by walk Hraw. }
  intros issuer Hissuer. step (part_skip_any raw_ Hraw c3 H3) as c4 H4.
  eapply typed_bind; [by apply validity_typed|]. intros validity _. step (part_skip_any raw_ Hraw c4 H4) as c5 H5.
  eapply typed_bind; [by apply subject_typed|]. intros [s name] [Hs Hn]. step (part_skip_any raw_ Hraw c5 H5) as c6 H6.
  eapply typed_bind; [by apply public_key_typed|]. intros key Hkey. step (part_skip_any raw_ Hraw c6 H6) as c7 H7.
  eapply typed_bind; [by apply extensions_typed|]. intros e He. do 8 (split; [done|]). split; [by split; [|split]|done].
Qed.

Lemma x509_parse_certificate : gives certificate_ok (x509_parse zero_certificate raw_).
Proof using Hraw.
  unfold x509_parse. step (part_enter raw_ Hraw raw_ ASN1_SEQUENCE (part_self raw_ Hraw)) as c H.
  eapply (typed_bind _ tbs_ok).
  { apply tbscertificate_typed; try done; [by left|]. split_and!; try (by left); by_compute. }
  intros cert Hcert. step (part_skip_any raw_ Hraw c H) as c1 H1.
  eapply (typed_bind _ (λ a, signature_algorithm_ok (Some a))); [apply gives_res; intros a; apply signature_algorithm_typed|].
  intros a Ha. step (part_skip_any raw_ Hraw c1 H1) as c2 H2.
  eapply (typed_bind _ (part_bits raw_)).
  { apply gives_res. intros b. unfold asn1_integral_bit_string. destruct (asn1_bit_string_parse c2) as [b'|] eqn:Hb; [|done].
    cbn. destruct (negb _); [done|]. intros [= <-]. by eapply bit_string_typed. }
  intros value Hvalue. destruct (negb _); [done|]. by split; [|split].
Qed.
End parse.

(** C38: Parsing certificates.  Whatever bytes are given, the parser ends.  It reads
    outside of an object only in two cases: the certificate has an empty sequence at
    the very end of the memory, behind which the tag of an object is read, or the
    month of a time is not one of 1 to 12, and the table of month lengths lacks it.  What it accepts is a certificate not yet validated, with a non-negative
    version, with every name, key, signature and extension a part of these bytes,
    with the algorithms that checking a signature needs, and with a path length
    constraint to which one can be added. *)
Theorem x509_parse_typed (raw_ : asn1_cursor) (Hraw : cursor_ok raw_) :
  match x509_parse zero_certificate raw_ with
  | Some (Ok cert) => certificate_ok raw_ cert
  | Some (Err _) => True
  | None => ∃ c, within raw_ c ∧ (asn1_enter c ASN1_SEQUENCE = (Cursor [] 0, Ok tt) ∨ bad_month c)
  end.
Proof. exact (x509_parse_certificate raw_ Hraw). Qed.

(** A root certificate, for a CA named root that signs certificates, without further
    CAs below it, and a certificate that it issued, for leaf and for names below
    ipxe.org: an RSA key of 384 bits with the exponent 3, signatures with MD5. *)
Definition witness_root : bytes := [
  0x30; 0x82; 0x01; 0x0c; 0x30; 0x81; 0xc9; 0xa0; 0x03; 0x02; 0x01; 0x02; 0x02; 0x01; 0x01; 0x30; 0x0b; 0x06;
  0x09; 0x2a; 0x86; 0x48; 0x86; 0xf7; 0x0d; 0x01; 0x01; 0x04; 0x30; 0x0f; 0x31; 0x0d; 0x30; 0x0b; 0x06; 0x03;
  0x55; 0x04; 0x03; 0x0c; 0x04; 0x72; 0x6f; 0x6f; 0x74; 0x30; 0x1e; 0x17; 0x0d; 0x32; 0x30; 0x30; 0x31; 0x30;
  0x31; 0x30; 0x30; 0x30; 0x30; 0x30; 0x30; 0x5a; 0x17; 0x0d; 0x33; 0x30; 0x30; 0x31; 0x30; 0x31; 0x30; 0x30;
  0x30; 0x30; 0x30; 0x30; 0x5a; 0x30; 0x0f; 0x31; 0x0d; 0x30; 0x0b; 0x06; 0x03; 0x55; 0x04; 0x03; 0x0c; 0x04;
  0x72; 0x6f; 0x6f; 0x74; 0x30; 0x48; 0x30; 0x0b; 0x06; 0x09; 0x2a; 0x86; 0x48; 0x86; 0xf7; 0x0d; 0x01; 0x01;
  0x01; 0x03; 0x39; 0x00; 0x30; 0x36; 0x02; 0x31; 0x00; 0xdf; 0x76; 0x7a; 0x24; 0x81; 0x64; 0xf5; 0x59; 0x2b;
  0xc4; 0xdd; 0x88; 0x3c; 0x06; 0xd6; 0x63; 0x0d; 0x2a; 0x15; 0x81; 0xe0; 0x09; 0x87; 0x25; 0xe9; 0xca; 0xa7;
  0x49; 0xa2; 0x41; 0xe7; 0x5d; 0x84; 0x70; 0x22; 0xa9; 0xd3; 0xf2; 0x22; 0x6a; 0x51; 0xbc; 0x1f; 0x74; 0xcc;
  0xfc; 0x0b; 0xf1; 0x02; 0x01; 0x03; 0xa3; 0x26; 0x30; 0x24; 0x30; 0x12; 0x06; 0x03; 0x55; 0x1d; 0x13; 0x01;
  0x01; 0xff; 0x04; 0x08; 0x30; 0x06; 0x01; 0x01; 0xff; 0x02; 0x01; 0x00; 0x30; 0x0e; 0x06; 0x03; 0x55; 0x1d;
  0x0f; 0x01; 0x01; 0xff; 0x04; 0x04; 0x03; 0x02; 0x02; 0x04; 0x30; 0x0b; 0x06; 0x09; 0x2a; 0x86; 0x48; 0x86;
  0xf7; 0x0d; 0x01; 0x01; 0x04; 0x03; 0x31; 0x00; 0x6b; 0x06; 0x90; 0x80; 0xa2; 0xd1; 0x40; 0x26; 0x07; 0xa0;
  0xdb; 0xcc; 0x56; 0x77; 0xa0; 0x92; 0x8e; 0x44; 0xa9; 0xed; 0x72; 0x0d; 0x86; 0x8d; 0xb3; 0x17; 0x4b; 0x3d;
  0xcd; 0xd8; 0xe5; 0xed; 0x6f; 0xfa; 0x86; 0x5e; 0x7f; 0xe7; 0x27; 0x7f; 0xfb; 0xa4; 0x07; 0x58; 0xd7; 0x72;
  0x06; 0xa4 ].
Definition witness_leaf : bytes := [
  0x30; 0x81; 0xff; 0x30; 0x81; 0xbc; 0xa0; 0x03; 0x02; 0x01; 0x02; 0x02; 0x01; 0x02; 0x30; 0x0b; 0x06; 0x09;
  0x2a; 0x86; 0x48; 0x86; 0xf7; 0x0d; 0x01; 0x01; 0x04; 0x30; 0x0f; 0x31; 0x0d; 0x30; 0x0b; 0x06; 0x03; 0x55;
  0x04; 0x03; 0x0c; 0x04; 0x72; 0x6f; 0x6f; 0x74; 0x30; 0x1e; 0x17; 0x0d; 0x32; 0x30; 0x30; 0x31; 0x30; 0x31;
  0x30; 0x30; 0x30; 0x30; 0x30; 0x30; 0x5a; 0x17; 0x0d; 0x33; 0x30; 0x30; 0x31; 0x30; 0x31; 0x30; 0x30; 0x30;
  0x30; 0x30; 0x30; 0x5a; 0x30; 0x0f; 0x31; 0x0d; 0x30; 0x0b; 0x06; 0x03; 0x55; 0x04; 0x03; 0x0c; 0x04; 0x6c;
  0x65; 0x61; 0x66; 0x30; 0x48; 0x30; 0x0b; 0x06; 0x09; 0x2a; 0x86; 0x48; 0x86; 0xf7; 0x0d; 0x01; 0x01; 0x01;
  0x03; 0x39; 0x00; 0x30; 0x36; 0x02; 0x31; 0x00; 0xdf; 0x76; 0x7a; 0x24; 0x81; 0x64; 0xf5; 0x59; 0x2b; 0xc4;
  0xdd; 0x88; 0x3c; 0x06; 0xd6; 0x63; 0x0d; 0x2a; 0x15; 0x81; 0xe0; 0x09; 0x87; 0x25; 0xe9; 0xca; 0xa7; 0x49;
  0xa2; 0x41; 0xe7; 0x5d; 0x84; 0x70; 0x22; 0xa9; 0xd3; 0xf2; 0x22; 0x6a; 0x51; 0xbc; 0x1f; 0x74; 0xcc; 0xfc;
  0x0b; 0xf1; 0x02; 0x01; 0x03; 0xa3; 0x19; 0x30; 0x17; 0x30; 0x15; 0x06; 0x03; 0x55; 0x1d; 0x11; 0x04; 0x0e;
  0x30; 0x0c; 0x82; 0x0a; 0x2a; 0x2e; 0x69; 0x70; 0x78; 0x65; 0x2e; 0x6f; 0x72; 0x67; 0x30; 0x0b; 0x06; 0x09;
  0x2a; 0x86; 0x48; 0x86; 0xf7; 0x0d; 0x01; 0x01; 0x04; 0x03; 0x31; 0x00; 0xc1; 0x42; 0xce; 0x45; 0x25; 0x9e;
  0xea; 0x5b; 0xfb; 0xf6; 0x69; 0xba; 0x55; 0x2b; 0xdd; 0x1b; 0x00; 0x63; 0x12; 0x39; 0xf4; 0xd6; 0x04; 0x2c;
  0x3c; 0x3c; 0xb9; 0x96; 0x04; 0x86; 0xdf; 0x18; 0x24; 0xc0; 0xbe; 0xb9; 0xdd; 0x67; 0xbd; 0xa8; 0x89; 0x34;
  0xc8; 0x24; 0x9a; 0xfe; 0xb8; 0x2c ].

Definition parsed (bs : bytes) : x509_certificate :=
  match x509_parse zero_certificate (Cursor bs (Zlen bs)) with Some (Ok cert) => cert | _ => zero_certificate end.
Definition witness_root_certificate : x509_certificate := Eval vm_compute in parsed witness_root.
Definition witness_leaf_certificate : x509_certificate := Eval vm_compute in parsed witness_leaf.

Lemma witness_root_parsed : x509_parse zero_certificate (Cursor witness_root (Zlen witness_root)) = Some (Ok witness_root_certificate).
Proof. vm_compute. reflexivity. Qed.
Lemma witness_leaf_parsed : x509_parse zero_certificate (Cursor witness_leaf (Zlen witness_leaf)) = Some (Ok witness_leaf_certificate).
Proof. vm_compute. reflexivity. Qed.

Lemma x509_parse_typed_witness :
  let raw_ := Cursor witness_root (Zlen witness_root) in
  certificate_ok raw_ witness_root_certificate ∧ contents (common_name (subject witness_root_certificate)) = [0x72; 0x6f; 0x6f; 0x74] ∧
  basic (extensions witness_root_certificate) = Basic 0xff 0 ∧ validity witness_root_certificate = Validity 1577836800 1893456000.
Proof.
  split; [|by vm_compute]. pose proof (x509_parse_typed (Cursor witness_root (Zlen witness_root)) ltac:(by_decide)) as Ht.
  by rewrite witness_root_parsed in Ht.
Defined.

(** Both cases arise: a certificate of four bytes, whose tbsCertificate is empty, and
    the root with its first month changed to 91. *)
Lemma x509_parse_reads_beyond :
  x509_parse zero_certificate (Cursor [0x30; 0x02; 0x30; 0x00] 4) = None ∧
  x509_parse zero_certificate (Cursor (<[51%nat := 0x39]> witness_root) (Zlen witness_root)) = None.
Proof. by vm_compute. Qed.

(** The algorithms of tbsCertificate and of the signature are not compared: leaf with
    the signature algorithm changed to SHA-1 is still accepted. *)
Lemma x509_parse_algorithm_mismatch :
  let altered := <[206%nat := 0x05]> witness_leaf in
  signature_algorithm (parsed altered) = Some (Algorithm ASN1_OID_MD5WITHRSAENCRYPTION (Some RSA) (Some MD5)) ∧
  sig_algorithm (signature (parsed altered)) = Some (Algorithm ASN1_OID_SHA1WITHRSAENCRYPTION (Some RSA) (Some SHA1)).
Proof. by vm_compute. Qed.
