(* ===== verification/X509Valid.v ===== *)
(** * What validating a chain of certificates shows (src/crypto/x509.c)

    A chain that x509_validate_chain accepts starts with a certificate from which a
    path of issuers leads to a trusted root, every certificate of which is signed by
    the next one and may be, as RFC 5280 asks, and was checked by this call or by an
    earlier one, whose result is remembered. *)

From S2P Require Import Prelude HashStandards Digest Bigint Asn1 Rsa Time X509 X509Parse.

(** ** Digests and signatures *)

Definition hash_of (digest_ : digest_id) (m : bytes) : bytes :=
  match digest_ with MD5 => md5_hash m | SHA1 => sha1_hash m | SHA256 => sha256_hash m end.

Lemma is_bytes_hash_blocks compress iv m :
  (∀ h b, is_bytes (compress h b)) → is_bytes iv → is_bytes (hash_blocks compress iv m).
Proof.
  intros Hc. unfold hash_blocks. revert iv.
  induction (blocks (length m / 64) m) as [|b bs IH]; intros h Hh; [done|]. cbn. apply IH, Hc.
Qed.

Lemma is_bytes_hash_of digest_ m : is_bytes (hash_of digest_ m).
Proof.
  destruct ivs_bytes as (H1 & H2 & H3). pose proof compress_bytes as Hc. destruct digest_.
  - exact (is_bytes_hash_blocks _ _ _ (λ h b, proj1 (Hc h b)) H1).
  - exact (is_bytes_hash_blocks _ _ _ (λ h b, proj1 (proj2 (Hc h b))) H2).
  - exact (is_bytes_hash_blocks _ _ _ (λ h b, proj2 (proj2 (Hc h b))) H3).
Qed.

Lemma length_hash_of `{Platform} digest_ m : length (hash_of digest_ m) = digestsize (digest digest_).
Proof.
  destruct digest_; [exact (length_hash (Digest := md5_algorithm) m)|exact (length_hash (Digest := sha1_algorithm) m)
    |exact (length_hash (Digest := sha256_algorithm) m)].
Qed.

Lemma number_positive l : number l → 0 < be_combine l.
Proof.
  intros Hl. pose proof (number_range l Hl). pose proof (number_nonempty l Hl). pose proof (Z.pow_pos_nonneg 256 (Zlen l - 1)). lia.
Qed.

Section signatures.
Context `{Platform}.

(** What a check finds around it: a context for the digest, and working space. *)
Definition env_ok (env : check_env) : Prop :=
  length (Digest.data (stack env)) = 64%nat ∧ ∀ size, tmp_ok size (workspace env size).

Lemma compute_digest_spec env digest_ bs :
  env_ok env → Zlen bs < 2 ^ 31 → compute_digest env digest_ bs = hash_of digest_ bs.
Proof.
  intros (Hs & _) Hl. assert (Zlen (mjoin [bs]) < message_limit) as Hm.
  { cbn. rewrite app_nil_r. unfold message_limit. pose proof size_bits_32. lia. }
  replace (hash_of digest_ bs) with (hash_of digest_ (mjoin [bs])) by (cbn; by rewrite app_nil_r).
  destruct digest_; [exact (digest_law (Digest := md5_algorithm) _ [bs] Hs Hm)
    |exact (digest_law (Digest := sha1_algorithm) _ [bs] Hs Hm)|exact (digest_law (Digest := sha256_algorithm) _ [bs] Hs Hm)].
Qed.

(** The numbers of a key are parts of it, and not empty. *)
Section key_numbers.
Context (key : asn1_cursor) (Hkey : cursor_ok key).

Lemma parse_integer_typed c i : part key c → rsa_parse_integer c = Ok i → part key i ∧ len i ≠ 0.
Proof using Hkey.
  intros Hc. unfold rsa_parse_integer. step (part_enter key Hkey c ASN1_INTEGER Hc) as c' He.
  set (i' := if (1 <? len c') && _ then next c' else c'). assert (part key i') as Hi.
  { subst i'. destruct (Z.ltb_spec 1 (len c')); [|done]. destruct (_ =? 0); [|done]. cbn [andb].
    eapply within_trans; [done|]. right. exists 1%nat. unfold next. cbn. pose proof (part_ok key Hkey c' He) as (? & _). split_and!; [done|lia..]. }
  destruct (Z.eqb_spec (len i') 0); [done|]. by intros [= <-].
Qed.

Lemma parse_mod_exp_typed n e :
  rsa_parse_mod_exp key = Some (Ok (n, e)) → (part key n ∧ len n ≠ 0) ∧ (part key e ∧ len e ≠ 0).
Proof using Hkey.
  assert (∀ c type, part key c → part key (asn1_skip c type).1) as Hskip by (intros c type; apply (part_do key Hkey (Skip type))).
  unfold rsa_parse_mod_exp. step (part_enter key Hkey key ASN1_SEQUENCE (part_self key Hkey)) as c Hc.
  destruct (asn1_type c) as [type|]; [|done]. cbn [mbind option_bind]. intros Hp. injection Hp as Hp. revert Hp.
  destruct (type =? ASN1_INTEGER).
  - step (part_skip_any key Hkey c Hc) as c1 H1. cbn [mbind res_bind].
    destruct (rsa_parse_integer c1) as [n'|] eqn:Hn; [|done]. cbn [mbind res_bind]. step (part_skip_any key Hkey c1 H1) as c2 H2.
    destruct (rsa_parse_integer (asn1_skip c2 ASN1_INTEGER).1) as [e'|] eqn:He; [|done]. cbn [mbind res_bind]. intros [= <- <-].
    eauto using parse_integer_typed.
  - step (Hskip c ASN1_SEQUENCE Hc) as c1 H1. unfold asn1_integral_bit_string.
    destruct (asn1_bit_string_parse c1) as [b|] eqn:Hb; [|done]. cbn [mbind res_bind]. destruct (negb _); [done|]. cbn [mbind res_bind].
    step (part_enter key Hkey _ ASN1_SEQUENCE (bit_string_typed key Hkey c1 b H1 Hb)) as c2 H2. cbn [mbind res_bind].
    destruct (rsa_parse_integer c2) as [n'|] eqn:Hn; [|done]. cbn [mbind res_bind]. step (part_skip_any key Hkey c2 H2) as c3 H3.
    destruct (rsa_parse_integer c3) as [e'|] eqn:He; [|done]. cbn [mbind res_bind]. intros [= <- <-].
    eauto using parse_integer_typed.
Qed.
End key_numbers.

(** A power that is a message. *)
Lemma power_sound k m e sg t :
  0 < m ≤ 256 ^ Z.of_nat k → (length t + 11 ≤ k)%nat → is_bytes t →
  power k m e sg = signature_message k t → be_combine sg ^ e mod m = be_combine (signature_message k t).
Proof.
  intros Hm Hk Ht Hp. pose proof (Z.mod_pos_bound (be_combine sg ^ e) m ltac:(lia)). unfold power in Hp.
  apply (f_equal be_combine) in Hp. destruct (Z.eqb_spec e 0) as [->|]; [exfalso|by rewrite be_combine_small in Hp by lia].
  pose proof (is_bytes_signature_message k t Ht) as Hb. apply Forall_cons in Hb as [_ Hb].
  set (rest := 0x01 :: _) in Hb. assert (number rest) as Hn by done.
  assert (be_combine (signature_message k t) = be_combine rest) as Hz.
  { unfold be_combine. change (signature_message k t) with (0 :: rest). cbn [rev]. rewrite le_combine_app. cbn. lia. }
  pose proof (number_range rest Hn) as Hr. assert (length (0 :: rest) = k) as Hlk by (apply (length_signature_message k t); lia).
  cbn [length] in Hlk. pose proof (Z.pow_gt_1 256 (Zlen rest - 1)). pose proof (Z.pow_gt_1 256 (Z.of_nat k)).
  rewrite be_combine_small in Hp by lia. lia.
Qed.

(** A verification that succeeds. *)
Lemma rsa_verify_sound tmp context k n e digest_ prefix value signature context' :
  keyed context k n e → tmp_ok (size context) tmp →
  rsa_find_prefix digest_ = Some prefix → is_bytes value → length value = digestsize digest_ → is_bytes signature →
  size context = Z.to_nat (bigint_required_size (Z.of_nat k)) → rsa_verify tmp context digest_ value signature = Some (context', Ok tt) →
  length signature = k ∧ (length prefix + length value + 11 ≤ k)%nat ∧
  power k n e signature = signature_message k (prefix ++ value).
Proof.
  intros Hk Ht Hf Hv Hlv Hb Hsz Hver. pose proof Hk as (Hm & _).
  assert (length signature = k) as Hls.
  { unfold rsa_verify in Hver. rewrite Hm in Hver. destruct (Z.eqb_spec (Zlen signature) (Z.of_nat k)); [lia|done]. }
  destruct (decide (length prefix + length value + 11 ≤ k)%nat) as [Hl|Hl].
  - destruct (rsa_verify_spec tmp context k n e digest_ prefix value signature) as (c & Hs & _); try done.
    rewrite Hs in Hver. case_decide; [by split_and!|done].
  - exfalso. revert Hver. unfold rsa_verify. rewrite Hm, Hls, Z.eqb_refl. cbn [negb].
    destruct (rsa_decipher tmp context k n e signature) as (c1 & dyn & expected & -> & Hk1 & Hs1 & Hdyn & Hlo & Hw & Hle & Hpre); try done.
    cbn [mbind option_bind]. rewrite Hdyn. cbn [mbind option_bind]. rewrite Hw. cbn [mbind option_bind].
    destruct (decide (k < 11)%nat) as [Hk11|Hk11].
    { rewrite (rsa_encode_digest_small_modulus _ k n e digest_ prefix value); try done; [|cbn; rewrite Hs1, Hsz|cbn; congruence].
      - by apply keyed_set_input; [|congruence].
      - unfold bigint_required_size, sizeof_element. Z.div_mod_to_equations. lia. }
    unfold rsa_encode_digest. rewrite Hf. destruct Hk1 as (Hm1 & Hk31 & _). cbn [max_len set_input]. rewrite Hm1.
    rewrite wrap_small by (pose proof size_bits_32; unfold in_range; lia).
    by destruct (Z.ltb_spec (Z.of_nat k - 11) (Zlen prefix + Z.of_nat (digestsize digest_))); [|lia].
Qed.
End signatures.

(** ** Certificates *)

(** What validation may change of a certificate. *)
Definition erase (c : x509_certificate) : x509_certificate :=
  let e := extensions c in
  Certificate false 0 (raw c) (version c) (serial c) (tbs c) (signature_algorithm c) (issuer c) (validity c) (subject c)
    (signature c) (Extensions (basic e) (usage e) (ext_usage e) (Ocsp (uri (ocsp e)) false) (alt_name e)).

(** A certificate as x509_parse gives it, whatever has been found about it since. *)
Definition well_formed (c : x509_certificate) : Prop := cursor_ok (raw c) ∧ certificate_ok (raw c) (erase c).

Lemma well_formed_invalidate c : well_formed (x509_invalidate c) ↔ well_formed c.
Proof. done. Qed.

Definition signature_bytes (c : x509_certificate) : bytes :=
  contents (Cursor (bs_data (sig_value (signature c))) (bs_len (sig_value (signature c)))).

(** The modulus and the exponent at [key], as the code reads them: where an RSA key is
    encoded in DER, they are its numbers. *)
Definition key_numbers `{Platform} (key : asn1_cursor) (n e : bytes) : Prop :=
  (∃ cn ce, rsa_parse_mod_exp key = Some (Ok (cn, ce)) ∧ n = contents cn ∧ e = contents ce) ∧
  ∀ parameters n' e' rest, number n' → number e' →
    key = Cursor (rsa_public_key parameters n' e' ++ rest) (Zlen (rsa_public_key parameters n' e')) → n = n' ∧ e = e'.

(** The signature of [c] is that of an RSA key on the digest of its tbsCertificate, in
    the encoding of PKCS #1. *)
Definition signed `{Platform} (c : x509_certificate) (key : asn1_cursor) : Prop :=
  ∃ algorithm digest_ t n e,
    sig_algorithm (signature c) = Some algorithm ∧ a_digest algorithm = Some digest_ ∧
    digest_info (digest digest_) (hash_of digest_ (contents (tbs c))) = Some t ∧ key_numbers key n e ∧
    length (signature_bytes c) = length n ∧ (length t + 11 ≤ length n)%nat ∧
    be_combine (signature_bytes c) ^ be_combine e mod effective_modulus (length n) (be_combine n) =
      be_combine (signature_message (length n) t).

(** [i] issued [c]. *)
Definition issued `{Platform} (c i : x509_certificate) : Prop :=
  contents (issuer c) = contents (subject_raw (subject i)) ∧ ca (basic (extensions i)) ≠ 0 ∧
  (present (usage (extensions i)) = true → Z.land (bits (usage (extensions i))) X509_KEY_CERT_SIGN ≠ 0) ∧
  signed c (pk_raw (public_key (subject i))).

Definition in_time (c : x509_certificate) (time : Z) : Prop :=
  not_before (validity c) - TIMESTAMP_ERROR_MARGIN ≤ time ≤ not_after (validity c) + TIMESTAMP_ERROR_MARGIN.

(** The fingerprint of [c] is one of those of [root]. *)
Definition in_roots (c : x509_certificate) (root : x509_root) : Prop :=
  let n := digestsize (digest (root_digest root)) in
  ∃ k, (k < root_count root)%nat ∧ take n (drop (k * n) (fingerprints root)) = hash_of (root_digest root) (contents (raw c)).

Definition roots_ok (root : x509_root) : Prop :=
  length (fingerprints root) = (root_count root * digestsize (digest (root_digest root)))%nat.

Definition revocation_checked (c : x509_certificate) : Prop :=
  len (uri (ocsp (extensions c))) ≠ 0 → good (ocsp (extensions c)) = true.

Section well_formed.
Context (c : x509_certificate) (Hc : well_formed c).

Lemma well_formed_raw : cursor_ok (raw c).
Proof using Hc. apply Hc. Qed.
Lemma well_formed_tbs : cursor_ok (tbs c).
Proof using Hc. destruct Hc as (Hr & (_ & _ & _ & _ & _ & Ht & _) & _). by apply (part_ok (raw c)). Qed.
Lemma well_formed_issuer : cursor_ok (issuer c).
Proof using Hc. destruct Hc as (Hr & (_ & _ & _ & _ & _ & _ & _ & Hi & _) & _). by apply (part_ok (raw c)). Qed.
Lemma well_formed_subject : cursor_ok (subject_raw (subject c)).
Proof using Hc. destruct Hc as (Hr & (_ & _ & _ & _ & _ & _ & _ & _ & Hs & _) & _). by apply (part_ok (raw c)), Hs. Qed.
Lemma well_formed_key : cursor_ok (pk_raw (public_key (subject c))).
Proof using Hc.
  destruct Hc as (Hr & (_ & _ & _ & _ & _ & _ & _ & _ & Hs & _) & _). destruct Hs as (_ & _ & Hk & _).
  by apply (part_ok (raw c)) in Hk.
Qed.
Lemma well_formed_names : cursor_ok (common_name (subject c)) ∧ cursor_ok (alt_name (extensions c)).
Proof using Hc.
  destruct Hc as (Hr & (_ & _ & _ & _ & _ & _ & _ & _ & Hs & He) & _). destruct Hs as (_ & Hn & _). destruct He as (_ & _ & _ & _ & _ & Ha).
  split; [destruct Hn as [H|H]|destruct Ha as [H|H]]; try (by apply (part_ok (raw c))); cbn in H; rewrite H; by_decide.
Qed.
Lemma well_formed_path_len : 0 ≤ path_len (basic (extensions c)).
Proof using Hc. destruct Hc as (_ & (_ & _ & _ & _ & _ & _ & _ & _ & _ & He) & _). apply He. Qed.
Lemma well_formed_signature : signature_algorithm_ok (sig_algorithm (signature c)) ∧ is_bytes (signature_bytes c).
Proof using Hc.
  destruct Hc as (Hr & _ & Ha & Hv). split; [done|]. apply (part_ok (raw c)) in Hv as (_ & _ & Hb); [|done]. by apply Forall_take.
Qed.
End well_formed.

(** ** Checks *)

Section checks.
Context `{Platform}.

(** A context that was initialised has the numbers of the key. *)
Lemma key_initialised memory key context :
  cursor_ok key → rsa_init memory (data key) (len key) = Some (context, Ok tt) →
  ∃ n e, key_numbers key n e ∧ keyed context (length n) (effective_modulus (length n) (be_combine n)) (be_combine e) ∧
    size context = Z.to_nat (bigint_required_size (Zlen n)).
Proof.
  intros Hkey Hinit. destruct (rsa_parse_mod_exp key) as [[[cn ce]|]|] eqn:Hp.
  2,3: unfold rsa_init in Hinit; replace (Cursor (data key) (len key)) with key in Hinit by (by destruct key); by rewrite Hp in Hinit.
  destruct (parse_mod_exp_typed key Hkey cn ce Hp) as [[Hpn Hn0] [Hpe He0]].
  pose proof (part_ok key Hkey cn Hpn) as Hcn. pose proof (part_ok key Hkey ce Hpe) as Hce.
  assert (∀ c, cursor_ok c → c = Cursor (contents c ++ drop (Z.to_nat (len c)) (data c)) (Zlen (contents c))) as Heta.
  { intros [d l] (Hl & _). cbn in Hl. rewrite length_contents by done. unfold contents. cbn. by rewrite take_drop. }
  assert (∀ c, cursor_ok c → len c ≠ 0 → is_bytes (contents c) ∧ contents c ≠ [] ∧ Zlen (contents c) < 2 ^ 31) as Hbytes.
  { intros c (Hl & Hl31 & Hb) Hc0. pose proof (length_contents c Hl) as Hlc. split_and!; [by apply Forall_take| |lia].
    intros Hz. rewrite Hz in Hlc. cbn in Hlc. lia. }
  destruct (Hbytes cn Hcn Hn0) as (Hnb & Hn1 & Hnl), (Hbytes ce Hce He0) as (Heb & He1 & Hel).
  pose proof Hp as Hp'. rewrite (Heta cn Hcn), (Heta ce Hce) in Hp'.
  assert (rsa_parse_mod_exp (Cursor (data key) (len key)) = rsa_parse_mod_exp key) as Hkeq by (by destruct key).
  exists (contents cn), (contents ce). split.
  - split; [by exists cn, ce|]. intros parameters n' e' rest Hn' He' Hk. rewrite Hk in Hp.
    destruct (rsa_parse_public parameters n' e' rest) as (rn & re & Hq); [done..| |].
    { destruct Hkey as (_ & Hl & _). by rewrite Hk in Hl. }
    rewrite Hq in Hp. injection Hp as <- <-. by rewrite !contents_app.
  - destruct memory as [memory|]; [|unfold rsa_init in Hinit; by rewrite Hkeq, Hp in Hinit].
    rewrite <- Hkeq in Hp'. destruct (rsa_init_parsed memory _ _ _ _ _ _ Hnb Heb Hn1 He1 Hnl Hel Hp') as (context' & Hinit' & Hk & Hs & _).
    rewrite Hinit in Hinit'. by injection Hinit' as <-.
Qed.

Lemma check_signature_sound env c key :
  env_ok env → well_formed c → cursor_ok (pk_raw key) →
  x509_check_signature env c key = Some (Ok tt) → signed c (pk_raw key).
Proof.
  intros Henv Hc Hkey. destruct (well_formed_signature c Hc) as ((algorithm & digest_ & Ha & Hd & Hp) & Hb).
  pose proof (well_formed_tbs c Hc) as (Htl & Hts & _). unfold x509_check_signature. rewrite Ha. cbn [mbind option_bind].
  rewrite Hd, Hp. cbn [mbind option_bind]. destruct (pk_algorithm key) as [signer|]; [|done]. cbn [mbind option_bind].
  rewrite compute_digest_spec by (try done; by rewrite length_contents). destruct (negb _); [done|]. intros Hrun.
  set (value := hash_of digest_ (contents (tbs c))) in *.
  assert (length value = digestsize (digest digest_)) as Hlv by apply length_hash_of.
  assert (is_bytes value) as Hbv by apply is_bytes_hash_of.
  destruct (digest_info (digest digest_) value) as [t|] eqn:Ht; [|done].
  destruct (prefix_digest_info _ _ _ Hlv Ht) as (prefix & Hprefix & Htp).
  destruct (rsa_init _ _ _) as [[context [[]|]]|] eqn:Hinit; [|done..].
  apply key_initialised in Hinit as (n & e & Hnum & Hk & Hs); [|done]. cbn [mbind option_bind] in Hrun.
  destruct (rsa_verify _ _ _ _ _) as [[context' rc]|] eqn:Hver; [|done]. cbn [mbind option_bind] in Hrun. injection Hrun as ->.
  destruct (rsa_verify_sound _ _ _ _ _ _ prefix _ _ _ Hk (proj2 Henv _) Hprefix Hbv Hlv Hb Hs Hver) as (Hls & Hlp & Hpow).
  exists algorithm, digest_, t, n, e. rewrite Htp, length_app. split_and!; try done; [by rewrite <- Htp|].
  pose proof Hk as (_ & _ & _ & Hm & _). apply power_sound in Hpow; try done; [by rewrite length_app|].
  apply Forall_app. split; [by eapply rsa_find_prefix_bytes|done].
Qed.

Lemma check_issuer_sound env c i :
  env_ok env → well_formed c → well_formed i → x509_check_issuer env c i = Some (Ok tt) → issued c i.
Proof.
  intros Henv Hc Hi. unfold x509_check_issuer. pose proof (well_formed_issuer c Hc) as (Hl1 & Hs1 & _).
  pose proof (well_formed_subject i Hi) as (Hl2 & Hs2 & _).
  destruct (Z.eqb_spec (asn1_compare (issuer c) (subject_raw (subject i))) 0) as [Hcmp|]; [|done]. cbn [negb].
  apply asn1_compare_zero in Hcmp; [|done..]. destruct (Z.eqb_spec (ca (basic (extensions i))) 0) as [|Hca]; [done|].
  destruct (present _) eqn:Hpresent; [destruct (Z.eqb_spec (Z.land (bits (usage (extensions i))) X509_KEY_CERT_SIGN) 0); [done|]|];
    cbn [andb]; intros Hsig; (apply check_signature_sound in Hsig; [|done|done|by apply well_formed_key]); (split; [done|]; split; [done|]; split; [intros; congruence|done]).
Qed.

Lemma root_loop_spec count fp fps :
  (count * length fp ≤ length fps)%nat →
  root_loop count fp fps = Ok tt ↔ ∃ k, (k < count)%nat ∧ take (length fp) (drop (k * length fp) fps) = fp.
Proof.
  revert fps. induction count as [|count IH]; intros fps Hl; cbn [root_loop]; [split; [done|intros (k & ? & _); lia]|].
  assert (memcmp fp fps (length fp) = 0 ↔ take (length fp) fps = fp) as Hcmp.
  { rewrite memcmp_zero, firstn_all by (cbn in Hl; lia). by split. }
  destruct (Z.eqb_spec (memcmp fp fps (length fp)) 0) as [Hz|Hz].
  - split; [|done]. intros _. exists 0%nat. split; [lia|]. by rewrite drop_0, <- Hcmp.
  - rewrite IH by (rewrite length_drop; cbn in Hl; lia). setoid_rewrite drop_drop. split.
    + intros (k & Hk & Ht). exists (S k). split; [lia|done].
    + intros ([|k] & Hk & Ht); [by rewrite Hcmp in Hz; rewrite drop_0 in Ht|]. exists k. split; [lia|done].
Qed.

Lemma check_root_spec env c root :
  env_ok env → well_formed c → roots_ok root → x509_check_root env c root = Ok tt ↔ in_roots c root.
Proof.
  intros Henv Hc Hroot. pose proof (well_formed_raw c Hc) as (Hl & Hs & _). unfold x509_check_root, x509_fingerprint.
  rewrite compute_digest_spec by (try done; by rewrite length_contents). unfold in_roots.
  rewrite root_loop_spec by (rewrite length_hash_of, Hroot; lia). by rewrite length_hash_of.
Qed.

Lemma check_time_spec c time : x509_check_time c time = Ok tt ↔ in_time c time.
Proof.
  unfold x509_check_time, in_time. destruct (Z.ltb_spec (time + TIMESTAMP_ERROR_MARGIN) (not_before (validity c))); [split; [done|lia]|].
  destruct (Z.ltb_spec (not_after (validity c)) (time - TIMESTAMP_ERROR_MARGIN)); split; try done; lia.
Qed.
End checks.

Section complete.
Context `{Platform}.

(** A signature that is right is accepted. *)
Lemma check_signature_complete env memory_ c key algorithm digest_ prefix signer parameters n e rest :
  env_ok env → memory env = Some memory_ → well_formed c →
  sig_algorithm (signature c) = Some algorithm → a_digest algorithm = Some digest_ → a_pubkey algorithm = Some RSA →
  rsa_find_prefix (digest digest_) = Some prefix → pk_algorithm key = Some signer → a_pubkey signer = Some RSA →
  pk_raw key = Cursor (rsa_public_key parameters n e ++ rest) (Zlen (rsa_public_key parameters n e)) →
  Zlen (rsa_public_key parameters n e) < 2 ^ 31 → number n → number e →
  length (signature_bytes c) = length n → (length prefix + digestsize (digest digest_) + 11 ≤ length n)%nat →
  be_combine (signature_bytes c) ^ be_combine e mod be_combine n =
    be_combine (signature_message (length n) (prefix ++ hash_of digest_ (contents (tbs c)))) →
  x509_check_signature env c key = Some (Ok tt).
Proof.
  intros Henv Hmem Hc Ha Hd Hp Hprefix Hsigner Hsp Hkey Hlen Hn He Hls Hlp Hpow.
  destruct (well_formed_signature c Hc) as (_ & Hb). pose proof (well_formed_tbs c Hc) as (Htl & Hts & _).
  unfold x509_check_signature. rewrite Ha. cbn [mbind option_bind]. rewrite Hd, Hp, Hsigner. cbn [mbind option_bind].
  rewrite compute_digest_spec by (try done; by rewrite length_contents). rewrite Hsp, bool_decide_eq_true_2 by done. cbn [negb].
  destruct (rsa_parse_public parameters n e rest) as (rn & re & Hparse); [done..|].
  destruct (public_lengths parameters n e Hlen) as [Hln Hle]. rewrite Hkey, Hmem. cbn [data len].
  destruct (rsa_init_spec memory_ _ _ n rn e re Hn He Hln Hle Hparse) as (context & -> & Hk & Hs & _). cbn [mbind option_bind].
  change (take (Z.to_nat (bs_len (sig_value (signature c)))) (bs_data (sig_value (signature c)))) with (signature_bytes c).
  set (value := hash_of digest_ (contents (tbs c))) in *.
  destruct (rsa_verify_spec (workspace env (size context)) context (length n) (be_combine n) (be_combine e) (digest digest_)
    prefix value (signature_bytes c)) as (context' & -> & _); try done;
    [by apply Henv|apply is_bytes_hash_of|apply length_hash_of|unfold value; rewrite length_hash_of; lia|].
  cbn [mbind option_bind]. rewrite decide_True; [done|]. apply power_message; try done.
  - by apply number_positive.
  - apply is_bytes_signature_message, Forall_app. split; [by eapply rsa_find_prefix_bytes|apply is_bytes_hash_of].
  - apply length_signature_message. unfold value. rewrite length_app, length_hash_of. lia.
Qed.
(** The ways a certificate that is not yet valid can be found valid, or not. *)
Section branches.
Context (root_certificates : x509_root) (time : Z) (root : option x509_root) (env : check_env).
Context (certs : gmap nat x509_certificate) (a : nat) (c : x509_certificate).
Context (Ha : certs !! a = Some c) (Hnew : valid c = false) (Htime : in_time c time).

Local Abbreviation roots := (default root_certificates root).
Local Abbreviation max_path := (u32 (path_len (basic (extensions c)) + 1)).

Lemma validate_root issuer_ :
  x509_check_root env c roots = Ok tt →
  x509_validate root_certificates env certs a issuer_ time root = Some (<[a := set_valid c max_path]> certs, Ok tt).
Proof using Ha Hnew Htime.
  intros Hr. unfold x509_validate. rewrite Ha. cbn [mbind option_bind]. rewrite Hnew, Hr. by apply check_time_spec in Htime as ->.
Qed.

Lemma validate_untrusted e :
  x509_check_root env c roots = Err e → x509_validate root_certificates env certs a None time root = Some (certs, Err EACCES).
Proof using Ha Hnew Htime.
  intros Hr. unfold x509_validate. rewrite Ha. cbn [mbind option_bind]. rewrite Hnew, Hr. by apply check_time_spec in Htime as ->.
Qed.

Lemma validate_issued b i e :
  x509_check_root env c roots = Err e → certs !! b = Some i → valid i = true → x509_check_issuer env c i = Some (Ok tt) →
  path_remaining i ≠ 0 → revocation_checked c →
  x509_validate root_certificates env certs a (Some b) time root =
    Some (<[a := set_valid c (Z.min max_path (u32 (path_remaining i - 1)))]> certs, Ok tt).
Proof using Ha Hnew Htime.
  intros Hr Hb Hi Hiss Hp Hrev. unfold x509_validate. rewrite Ha. cbn [mbind option_bind]. rewrite Hnew, Hr.
  apply check_time_spec in Htime as ->. rewrite Hb. cbn [mbind option_bind]. rewrite Hi, Hiss. cbn [negb mbind option_bind].
  destruct (Z.eqb_spec (path_remaining i) 0); [done|].
  destruct (Z.eqb_spec (len (uri (ocsp (extensions c)))) 0) as [|Hu]; cbn [negb andb]; [|rewrite (Hrev Hu); cbn [negb]];
    (destruct (Z.ltb_spec max_path (u32 (path_remaining i - 1))); [by rewrite Z.min_l by lia|by rewrite Z.min_r by lia]).
Qed.
End branches.

(** A chain of a certificate and its issuer. *)
Lemma validate_chain_pair root_certificates time root env allocs certs certs1 certs2 certstore store a b e :
  x509_auto_append allocs certs [a] (default certstore store) = Some ([a; b], Ok tt) →
  x509_validate root_certificates (env a) certs a None time root = Some (certs, Err e) →
  x509_validate root_certificates (env b) certs b None time root = Some (certs1, Ok tt) →
  x509_validate root_certificates (env a) certs1 a (Some b) time root = Some (certs2, Ok tt) →
  x509_validate_chain root_certificates env allocs certs certstore [a] time store root = Some (certs2, [a; b], Ok tt).
Proof.
  intros Happ Ha Hb Hab. unfold x509_validate_chain. rewrite Happ. cbn [mbind option_bind validate_loop]. rewrite Ha.
  cbn [mbind option_bind]. rewrite Hb. cbn [mbind option_bind validate_back]. by rewrite Hab.
Qed.
End complete.

(** ** Paths *)

(** Certificates without the results of validation. *)
Definition bodies (certs : gmap nat x509_certificate) : gmap nat x509_certificate := x509_invalidate <$> certs.

(** A call of the validation: its time and its roots. *)
Record call : Type := Call {
  at_time : Z;
  at_root : x509_root;
}.

Section paths.
Context `{Platform} (certs : gmap nat x509_certificate).

(** A path of certificates, each issued by the next one, that ends at a root.  Each of
    them was checked by a call, at its time; the last one for its roots. *)
Inductive certified : list (nat * call) → Prop :=
  | certified_root a c now :
      certs !! a = Some c → in_time c (at_time now) → in_roots c (at_root now) → certified [(a, now)]
  | certified_issued a c now b i earlier path :
      certified ((b, earlier) :: path) → certs !! a = Some c → certs !! b = Some i →
      in_time c (at_time now) → issued c i → revocation_checked c → certified ((a, now) :: (b, earlier) :: path).

(** The path length constraint of an issuer counts the certificates between it and
    the first one. *)
Definition path_lengths (path : list nat) : Prop :=
  ∀ k b i, path !! S k = Some b → certs !! b = Some i → Z.of_nat k ≤ path_len (basic (extensions i)).

(** [p] certificates may still come before the path. *)
Definition room (p : Z) (path : list nat) : Prop :=
  ∀ k b i, path !! k = Some b → certs !! b = Some i → p + Z.of_nat k ≤ path_len (basic (extensions i)) + 1.

Lemma room_path_lengths p path : 0 ≤ p → room p path → path_lengths path.
Proof. intros Hp Hr k b i Hb Hi. pose proof (Hr _ _ _ Hb Hi). lia. Qed.

Lemma room_cons p q a c path :
  certs !! a = Some c → q ≤ path_len (basic (extensions c)) + 1 → q ≤ p - 1 → room p path → room q (a :: path).
Proof.
  intros Ha Hc Hq Hr [|k] b i Hb Hi; cbn in Hb.
  - injection Hb as <-. rewrite Ha in Hi. injection Hi as <-. lia.
  - pose proof (Hr _ _ _ Hb Hi). lia.
Qed.
End paths.

(** The certificates of a path were checked by the call [now], up to one that had been
    marked as valid before ([certs]) and is not checked again. *)
Fixpoint checked_now (certs : gmap nat x509_certificate) (now : call) (path : list (nat * call)) : Prop :=
  match path with
  | [] => True
  | (a, earlier) :: path => valid <$> certs !! a = Some true ∨ (earlier = now ∧ checked_now certs now path)
  end.

(** Every certificate marked as valid has a path, of which each certificate was
    checked by one of the calls, and what remains of its length is within the
    constraints of the path. *)
Definition validated `{Platform} (calls : list call) (certs : gmap nat x509_certificate) : Prop :=
  ∀ a c, certs !! a = Some c → valid c = true →
    ∃ now path, certified (bodies certs) ((a, now) :: path) ∧ Forall (λ step, step.2 ∈ calls) ((a, now) :: path) ∧
      0 ≤ path_remaining c ∧ room (bodies certs) (path_remaining c) (a :: path.*1).

Lemma lookup_bodies certs a c : certs !! a = Some c → bodies certs !! a = Some (x509_invalidate c).
Proof. intros Ha. unfold bodies. by rewrite lookup_fmap, Ha. Qed.

Lemma bodies_set_valid certs a c p : certs !! a = Some c → bodies (<[a := set_valid c p]> certs) = bodies certs.
Proof.
  intros Ha. unfold bodies. rewrite fmap_insert. apply insert_id. by rewrite lookup_fmap, Ha.
Qed.

Lemma u32_le x : 0 ≤ x → 0 ≤ u32 x ≤ x.
Proof. intros Hx. unfold wrap. pose proof (Z.mod_le x (2 ^ 32)). pose proof (Z.mod_pos_bound x (2 ^ 32)). lia. Qed.

Section validation.
Context `{Platform} (root_certificates : x509_root) (time : Z) (root : option x509_root).

Local Abbreviation roots := (default root_certificates root).
Local Abbreviation now := (Call time roots).
Context (Hroots : roots_ok roots).

(** The calls before this one, and what they left. *)
Context (calls : list call) (before_ : gmap nat x509_certificate).

(** The path of a certificate that is marked as valid during the call. *)
Definition path_of (certs : gmap nat x509_certificate) (a : nat) (p : Z) (path : list (nat * call)) : Prop :=
  path.*1 !! 0%nat = Some a ∧ certified (bodies certs) path ∧ Forall (λ step, step.2 ∈ now :: calls) path ∧
  checked_now before_ now path ∧ 0 ≤ p ∧ room (bodies certs) p (path.*1).

Definition accounted (certs : gmap nat x509_certificate) : Prop :=
  ∀ a c, certs !! a = Some c → valid c = true → ∃ path, path_of certs a (path_remaining c) path.

Lemma accounted_before : validated calls before_ → accounted before_.
Proof.
  intros Hv a c Ha Hc. destruct (Hv a c Ha Hc) as (earlier & path & Hcert & Hcalls & Hp & Hroom). exists ((a, earlier) :: path).
  split_and!; try done.
  - eapply Forall_impl; [exact Hcalls|]. intros step. by right.
  - left. by rewrite Ha, <- Hc.
Qed.

Lemma accounted_after certs : accounted certs → validated (now :: calls) certs.
Proof.
  intros Hv a c Ha Hc. destruct (Hv a c Ha Hc) as ([|[a' earlier] path] & Hhead & Hcert & Hcalls & _ & Hp & Hroom); [done|].
  injection Hhead as ->. by exists earlier, path.
Qed.

(** Marking a certificate that has a path as valid. *)
Lemma accounted_set certs a c p path :
  accounted certs → certs !! a = Some c → path_of certs a p path → accounted (<[a := set_valid c p]> certs).
Proof.
  intros Hv Ha Hpath a' c' Ha' Hc'. unfold path_of. rewrite (bodies_set_valid certs a c p Ha).
  destruct (decide (a = a')) as [<-|Hne]; [|by rewrite lookup_insert_ne in Ha' by done; apply Hv].
  rewrite lookup_insert_eq in Ha'. injection Ha' as <-. by exists path.
Qed.

(** What validation leaves, and what its success means for [a]. *)
Definition outcome (certs certs' : gmap nat x509_certificate) (r : res unit) (a : nat) : Prop :=
  bodies certs' = bodies certs ∧ accounted certs' ∧
  (r = Ok tt → ∃ c, certs' !! a = Some c ∧ valid c = true).

(** The path of a root. *)
Lemma path_root certs a c :
  certs !! a = Some c → 0 ≤ path_len (basic (extensions c)) → in_time c time → in_roots c roots →
  path_of certs a (u32 (path_len (basic (extensions c)) + 1)) [(a, now)].
Proof.
  intros Ha Hl Ht Hr. pose proof (u32_le (path_len (basic (extensions c)) + 1)). split_and!; try (done || lia).
  - by apply (certified_root _ _ _ _ (lookup_bodies _ _ _ Ha)).
  - apply Forall_singleton. by left.
  - by right.
  - apply (room_cons _ (u32 (path_len (basic (extensions c)) + 1) + 1) _ _ _ _ (lookup_bodies _ _ _ Ha)); [cbn; lia|lia|done].
Qed.

(** A path is extended by the certificate that its first one issued. *)
Lemma path_issued certs a c b i p q path :
  certs !! a = Some c → certs !! b = Some i → path_of certs b p path → in_time c time → issued c i → revocation_checked c →
  0 ≤ q → q ≤ path_len (basic (extensions c)) + 1 → q ≤ p - 1 → path_of certs a q ((a, now) :: path).
Proof.
  intros Ha Hb (Hhead & Hcert & Hcalls & Hnow & Hp & Hroom) Ht Hi Hrev Hq Hqc Hqp.
  destruct path as [|[b' earlier] path]; [done|]. injection Hhead as ->. split_and!; try done.
  - by apply (certified_issued _ _ _ _ _ _ _ _ Hcert (lookup_bodies _ _ _ Ha) (lookup_bodies _ _ _ Hb)).
  - apply Forall_cons. split; [by left|done].
  - right. by split.
  - by apply (room_cons _ p _ _ _ _ (lookup_bodies _ _ _ Ha)).
Qed.

Lemma validate_sound env certs certs' a issuer_ r :
  env_ok env → map_Forall (λ _, well_formed) (bodies certs) → accounted certs →
  x509_validate root_certificates env certs a issuer_ time root = Some (certs', r) → outcome certs certs' r a.
Proof using Hroots.
  intros Henv Hwf Hv. unfold x509_validate. destruct (certs !! a) as [c|] eqn:Ha; [|done]. cbn [mbind option_bind].
  pose proof (Hwf _ _ (lookup_bodies _ _ _ Ha)) as Hc. pose proof (well_formed_path_len c Hc).
  assert (∀ e, Some (certs, Err e) = Some (certs', r) → outcome certs certs' r a) as Herr by (by intros e [= <- <-]).
  destruct (valid c) eqn:Hvc; [intros [= <- <-]; split_and!; [done..|by exists c]|].
  destruct (x509_check_time c time) as [[]|] eqn:Ht; [|apply Herr]. apply check_time_spec in Ht.
  assert (∀ path p, path_of certs a p path →
    Some (<[a := set_valid c p]> certs, Ok tt) = Some (certs', r) → outcome certs certs' r a) as Hset.
  { intros path p Hpath [= <- <-]. split_and!; [by apply bodies_set_valid|by apply (accounted_set _ _ _ _ path)|].
    intros _. exists (set_valid c p). by rewrite lookup_insert_eq. }
  destruct (x509_check_root env c roots) as [[]|] eqn:Hr.
  { apply (check_root_spec env c roots Henv Hc Hroots) in Hr. by apply (Hset [(a, now)]), path_root. }
  destruct issuer_ as [b|]; [|apply Herr]. destruct (certs !! b) as [i|] eqn:Hb; [|done]. cbn [mbind option_bind].
  pose proof (Hwf _ _ (lookup_bodies _ _ _ Hb)) as Hi. destruct (valid i) eqn:Hvi; cbn [negb]; [|apply Herr].
  destruct (x509_check_issuer env c i) as [[[]|]|] eqn:Hiss; cbn [mbind option_bind]; [|apply Herr|done].
  apply check_issuer_sound in Hiss; [|done..]. destruct (Z.eqb_spec (path_remaining i) 0) as [|Hpi]; [apply Herr|].
  destruct (_ && _) eqn:Hocsp; [apply Herr|]. destruct (Hv _ _ Hb Hvi) as (path & Hpath). pose proof Hpath as (_ & _ & _ & _ & Hpos & _).
  pose proof (u32_le (path_remaining i - 1)). pose proof (u32_le (path_len (basic (extensions c)) + 1)).
  apply (Hset ((a, now) :: path)), (path_issued _ _ c b i (path_remaining i)); try done.
  - intros Hu. destruct (Z.eqb_spec (len (uri (ocsp (extensions c)))) 0); [done|]. cbn in Hocsp. by destruct (good (ocsp (extensions c))).
  - destruct (_ <? _); lia.
  - destruct (Z.ltb_spec (u32 (path_len (basic (extensions c)) + 1)) (u32 (path_remaining i - 1))); lia.
  - destruct (Z.ltb_spec (u32 (path_len (basic (extensions c)) + 1)) (u32 (path_remaining i - 1))); lia.
Qed.

Lemma validate_back_sound env links certs certs' b r :
  (∀ a, env_ok (env a)) → map_Forall (λ _, well_formed) (bodies certs) → accounted certs →
  (∃ c, certs !! b = Some c ∧ valid c = true) →
  validate_back root_certificates env certs links b time root = Some (certs', r) →
  outcome certs certs' r (default b (last links)).
Proof using Hroots.
  intros Henv. revert certs b. induction links as [|a links IH]; intros certs b Hwf Hv Hb; cbn [validate_back].
  { by intros [= <- <-]. }
  destruct (x509_validate _ _ _ _ _ _ _) as [[certs1 r1]|] eqn:Hrun; [|done]. cbn [mbind option_bind].
  destruct (validate_sound _ _ _ _ _ _ (Henv a) Hwf Hv Hrun) as (Hbodies & Hv1 & Hok).
  destruct r1 as [[]|e]; [|by intros [= <- <-]]. intros Hback.
  destruct (IH certs1 a) as (Hbodies' & Hv' & Hok'); [by rewrite Hbodies|done|by apply Hok|done|].
  split_and!; [congruence|done|]. intros Hr. destruct (Hok' Hr) as (c & Hc & Hvc). exists c. split; [|done].
  rewrite last_cons. by destruct (last links).
Qed.

Lemma validate_loop_sound env before links certs certs' r :
  (∀ a, env_ok (env a)) → map_Forall (λ _, well_formed) (bodies certs) → accounted certs →
  validate_loop root_certificates env certs before links time root = Some (certs', r) →
  bodies certs' = bodies certs ∧ accounted certs' ∧
  (r = Ok tt → ∃ a c, head (rev before ++ links) = Some a ∧ certs' !! a = Some c ∧ valid c = true).
Proof using Hroots.
  intros Henv. revert before certs. induction links as [|a links IH]; intros before certs Hwf Hv; cbn [validate_loop].
  { by intros [= <- <-]. }
  destruct (x509_validate _ _ _ _ _ _ _) as [[certs1 r1]|] eqn:Hrun; [|done]. cbn [mbind option_bind].
  destruct (validate_sound _ _ _ _ _ _ (Henv a) Hwf Hv Hrun) as (Hbodies & Hv1 & Hok). rewrite <- Hbodies in Hwf |- *.
  destruct r1 as [[]|e]; intros Hrest.
  - destruct (validate_back_sound env before certs1 certs' a r) as (Hb' & Hv' & Hok'); try done; [by apply Hok|].
    split_and!; [done..|]. intros Hr. destruct (Hok' Hr) as (c & Hc & Hvc). eexists _, c. split; [|done].
    destruct before as [|b before _] using rev_ind; [done|]. by rewrite last_snoc, rev_app_distr.
  - destruct (IH (a :: before) certs1 Hwf Hv1 Hrest) as (Hb' & Hv' & Hok'). split_and!; [done..|].
    intros Hr. destruct (Hok' Hr) as (a' & c & Hh & Hc). exists a', c. split; [|done].
    rewrite <- Hh. cbn [rev]. by rewrite <- app_assoc.
Qed.

Lemma auto_append_prefix allocs certs chain store chain' r :
  x509_auto_append allocs certs chain store = Some (chain', r) → chain `prefix_of` chain'.
Proof.
  unfold x509_auto_append. destruct (x509_last chain) as [a|]; [|by intros [= <- _]].
  revert chain a. induction allocs as [|alloc allocs IH]; intros chain a; cbn [append_loop];
    (destruct (certs !! a) as [c|]; [|done]); cbn [mbind option_bind];
    (destruct (x509_find_subject certs store (issuer c)) as [[b|]|]; cbn [mbind option_bind]; [|by intros [= <- _]|done]);
    (case_decide; [by intros [= <- _]|]); [done|].
  destruct alloc; cbn; [|by intros [= <- _]]. intros Hrun. apply IH in Hrun. etrans; [|done]. by eexists.
Qed.
End validation.

(** Two certificates of the store that name each other as issuer are appended as long
    as links can be allocated. *)
Lemma auto_append_cycle certs store chain a b ca_ cb n :
  certs !! a = Some ca_ → certs !! b = Some cb → a ≠ b → x509_last chain = Some a →
  x509_find_subject certs store (issuer ca_) = Some (Some b) → x509_find_subject certs store (issuer cb) = Some (Some a) →
  x509_auto_append (replicate n true) certs chain store = None.
Proof.
  intros Ha Hb Hab Hlast Hfa Hfb. unfold x509_auto_append. rewrite Hlast. clear Hlast.
  revert chain a b ca_ cb Ha Hb Hab Hfa Hfb. induction n as [|n IH]; intros chain a b ca_ cb Ha Hb Hab Hfa Hfb;
    cbn [replicate append_loop]; rewrite Ha; cbn [mbind option_bind]; rewrite Hfa; cbn [mbind option_bind];
    rewrite decide_False by done; [done|]. cbn. by apply (IH _ b a cb ca_).
Qed.

(** C40: Validating a chain.  Whatever the outcome, only the results of validation
    change, and every certificate marked as valid, before or by this call, has a path
    to a trusted root, each certificate of which was checked by this call or by one
    before it.  When the call succeeds, so has the first certificate of the chain: a
    path of certificates that were in their validity period when they were checked,
    that were not issued without the revocation check they ask for, of which each was
    issued by the next (its name, a CA, allowed to sign certificates, its RSA
    signature on the hash of the tbsCertificate), within the path length constraints
    of all issuers, the last one of which has the fingerprint of a root.  They were
    checked by this call, at its time and for its roots, up to the first certificate
    that had already been valid: results are remembered, and the time and the roots of
    the call are ignored for such a certificate. *)
Theorem x509_validate_chain_sound `{Platform} (root_certificates : x509_root) (env : nat → check_env) (allocs : list bool)
    (certs certs' : gmap nat x509_certificate) (certstore chain chain' : list nat) (time : Z) (store : option (list nat))
    (root : option x509_root) (r : res unit) (calls : list call)
    (Henv : ∀ a, env_ok (env a)) (Hroots : roots_ok (default root_certificates root))
    (Hcerts : map_Forall (λ _, well_formed) certs) (Hvalid : validated calls certs)
    (Hrun : x509_validate_chain root_certificates env allocs certs certstore chain time store root = Some (certs', chain', r)) :
  let now := Call time (default root_certificates root) in
  bodies certs' = bodies certs ∧ chain `prefix_of` chain' ∧ validated (now :: calls) certs' ∧
  (r = Ok tt → ∃ a path, x509_first chain = Some a ∧ valid <$> certs' !! a = Some true ∧
     path.*1 !! 0%nat = Some a ∧ certified (bodies certs) path ∧ path_lengths (bodies certs) path.*1 ∧
     Forall (λ step, step.2 ∈ now :: calls) path ∧ checked_now certs now path).
Proof.
  intros now. revert Hrun. unfold x509_validate_chain. destruct (x509_auto_append _ _ _ _) as [[chain1 r1]|] eqn:Happ; [|done].
  cbn [mbind option_bind]. pose proof (auto_append_prefix _ _ _ _ _ _ Happ) as Hpre.
  pose proof (accounted_before root_certificates time root calls certs Hvalid) as Hacc.
  destruct r1 as [[]|e]; [|intros [= <- <- <-]; split_and!; [done..|by eapply accounted_after|done]].
  destruct (validate_loop _ _ _ _ _ _ _) as [[certs1 r1]|] eqn:Hloop; [|done]. cbn [mbind option_bind]. intros [= <- <- <-].
  apply (validate_loop_sound _ _ _ Hroots calls certs) in Hloop as (Hbodies & Hv & Hok); [|done| |done].
  2:{ intros a c. unfold bodies. rewrite lookup_fmap. intros (c' & Hc & ->)%fmap_Some. exact (Hcerts a c' Hc). }
  split_and!; [done..|by eapply accounted_after|]. intros Hr. destruct (Hok Hr) as (a & c & Hhead & Hc & Hvc).
  destruct (Hv _ _ Hc Hvc) as (path & Hfirst & Hcert & Hcalls & Hnow & Hp & Hroom). rewrite Hbodies in Hcert, Hroom. exists a, path.
  split_and!; try done; [|by rewrite Hc; cbn; rewrite Hvc|by eapply room_path_lengths].
  destruct Hpre as [rest ->]. destruct chain; [|done]. unfold x509_auto_append in Happ. by cbn in Happ.
Qed.

(** Nothing is validated before the first call. *)
Lemma validated_nothing `{Platform} certs : map_Forall (λ _ c, valid c = false) certs → validated [] certs.
Proof. intros Hn a c Ha Hc. by rewrite (Hn a c Ha) in Hc. Qed.

(** The chain of leaf and, from the store, root, with nothing validated before. *)
Definition witness_certs : gmap nat x509_certificate :=
  <[0%nat := witness_leaf_certificate]> (<[1%nat := witness_root_certificate]> ∅).
Definition witness_env : check_env := Env (Digest.Context [] (replicate 64 0) 0) (Some (λ _, 0)) (λ size, replicate (4 * size) 0).
Definition witness_issuer : x509_certificate := set_valid witness_root_certificate 1.
(** A fingerprint of something else and that of root. *)
Definition witness_roots : x509_root := Root MD5 2 (replicate 16 0 ++ be_split 16 0xf6256d3909165d745b2e6b28a6d1050f).
Definition witness_time : Z := 1700000000.
Definition witness_rsa_n : bytes :=
  be_split 48 0xdf767a248164f5592bc4dd883c06d6630d2a1581e0098725e9caa749a241e75d847022a9d3f2226a51bc1f74ccfc0bf1.

Lemma witness_env_ok : env_ok witness_env.
Proof.
  split; [done|]. intros size. split; [|apply length_replicate]. cbn. apply Forall_replicate. by_decide.
Qed.

Lemma witness_root_well_formed : well_formed witness_root_certificate.
Proof.
  split; [by_decide|]. pose proof (x509_parse_certificate (Cursor witness_root (Zlen witness_root)) ltac:(by_decide)) as Ht.
  by rewrite witness_root_parsed in Ht.
Qed.
Lemma witness_leaf_well_formed : well_formed witness_leaf_certificate.
Proof.
  split; [by_decide|]. pose proof (x509_parse_certificate (Cursor witness_leaf (Zlen witness_leaf)) ltac:(by_decide)) as Ht.
  by rewrite witness_leaf_parsed in Ht.
Qed.

Lemma witness_signed :
  x509_check_issuer (H := x86_64) witness_env witness_leaf_certificate witness_issuer = Some (Ok tt).
Proof.
  unfold x509_check_issuer. destruct (negb _) eqn:E1; [by vm_compute in E1|]. clear E1.
  destruct (_ =? 0) eqn:E2; [by vm_compute in E2|]. clear E2. destruct (_ && _) eqn:E3; [by vm_compute in E3|]. clear E3.
  set (key := public_key (subject witness_issuer)).
  apply (check_signature_complete witness_env (λ _, 0) _ _ (Algorithm ASN1_OID_MD5WITHRSAENCRYPTION (Some RSA) (Some MD5)) MD5
    (RSA_DIGESTINFO_PREFIX 16 ASN1_OID_MD5) (Algorithm ASN1_OID_RSAENCRYPTION (Some RSA) None)
    (encode (H := x86_64) ASN1_OID ASN1_OID_RSAENCRYPTION) witness_rsa_n [0x03] (drop (Z.to_nat (len (pk_raw key))) (data (pk_raw key))));
    [apply witness_env_ok|done|apply witness_leaf_well_formed|by_compute..].
Qed.

Lemma witness_append : x509_auto_append [true] witness_certs [0%nat] [1%nat] = Some ([0%nat; 1%nat], Ok tt).
Proof. by vm_compute. Qed.

Lemma witness_not_root : x509_check_root (H := x86_64) witness_env witness_leaf_certificate (default witness_roots None) = Err ENOENT.
Proof. by vm_compute. Qed.
Lemma witness_is_root : x509_check_root (H := x86_64) witness_env witness_root_certificate (default witness_roots None) = Ok tt.
Proof. by vm_compute. Qed.

Lemma witness_root_valid :
  x509_validate (H := x86_64) witness_roots witness_env witness_certs 1 None witness_time None =
    Some (<[1%nat := witness_issuer]> witness_certs, Ok tt).
Proof.
  assert (in_time witness_root_certificate witness_time) as Hroot by by_compute.
  exact (validate_root witness_roots _ None _ witness_certs 1 witness_root_certificate eq_refl eq_refl Hroot None witness_is_root).
Qed.

Lemma witness_leaf_valid :
  x509_validate (H := x86_64) witness_roots witness_env (<[1%nat := witness_issuer]> witness_certs) 0 (Some 1%nat) witness_time None =
    Some (<[0%nat := set_valid witness_leaf_certificate 0]> (<[1%nat := witness_issuer]> witness_certs), Ok tt).
Proof.
  assert (in_time witness_leaf_certificate witness_time) as Hleaf by by_compute.
  assert (revocation_checked witness_leaf_certificate) as Hrev by (intros Hu; by vm_compute in Hu).
  assert (<[1%nat := witness_issuer]> witness_certs !! 0%nat = Some witness_leaf_certificate) as H0 by by_compute.
  assert (<[1%nat := witness_issuer]> witness_certs !! 1%nat = Some witness_issuer) as H1 by by_compute.
  exact (validate_issued witness_roots _ None _ _ 0 witness_leaf_certificate H0 eq_refl Hleaf 1 witness_issuer _ witness_not_root
    H1 eq_refl witness_signed ltac:(done) Hrev).
Qed.

(** Root leaves room for one certificate, leaf for none. *)
Lemma witness_validated :
  x509_validate_chain (H := x86_64) witness_roots (λ _, witness_env) [true] witness_certs [1%nat] [0%nat] witness_time None None =
    Some (<[0%nat := set_valid witness_leaf_certificate 0]> (<[1%nat := witness_issuer]> witness_certs), [0%nat; 1%nat], Ok tt).
Proof.
  assert (in_time witness_leaf_certificate witness_time) as Hleaf by by_compute.
  apply (validate_chain_pair witness_roots witness_time None (λ _, witness_env) [true] _ (<[1%nat := witness_issuer]> witness_certs) _
    [1%nat] None 0 1 EACCES); [exact witness_append| |exact witness_root_valid|exact witness_leaf_valid].
  exact (validate_untrusted witness_roots _ None _ witness_certs 0 witness_leaf_certificate eq_refl eq_refl Hleaf _ witness_not_root).
Qed.

(** A second call, after both certificates have expired and with no roots, succeeds
    with what the first one found. *)
Lemma x509_validate_chain_remembers :
  let certs := <[0%nat := set_valid witness_leaf_certificate 0]> (<[1%nat := witness_issuer]> witness_certs) in
  x509_validate_chain (H := x86_64) (Root MD5 0 []) (λ _, witness_env) [true] certs [1%nat] [0%nat] 4000000000 None None =
    Some (certs, [0%nat; 1%nat], Ok tt).
Proof. by vm_compute. Qed.

Lemma x509_validate_chain_sound_witness :
  ∃ path, path.*1 !! 0%nat = Some 0%nat ∧ certified (H := x86_64) (bodies witness_certs) path ∧
    path_lengths (bodies witness_certs) path.*1 ∧ Forall (λ step, step.2 = Call witness_time witness_roots) path.
Proof.
  assert (map_Forall (λ _, well_formed) witness_certs) as Hcerts.
  { apply map_Forall_insert_2; [apply witness_leaf_well_formed|]. apply map_Forall_insert_2; [apply witness_root_well_formed|].
    apply map_Forall_empty. }
  assert (map_Forall (λ _ c, valid c = false) witness_certs) as Hnew.
  { do 2 (apply map_Forall_insert_2; [done|]). apply map_Forall_empty. }
  destruct (x509_validate_chain_sound (H := x86_64) witness_roots _ _ _ _ _ _ _ _ None None _ [] (λ _, witness_env_ok) eq_refl Hcerts
    (validated_nothing _ Hnew) witness_validated) as (_ & _ & _ & Hok).
  destruct (Hok eq_refl) as (a & path & [= <-] & _ & Hhead & Hcert & Hlen & Hcalls & _). exists path. split_and!; try done.
  eapply Forall_impl; [exact Hcalls|]. intros step. by rewrite list_elem_of_singleton.
Defined.
