(* ===== verification/X509Name.v ===== *)
(** * Which names a certificate is for (src/crypto/x509.c)

    x509_check_name accepts a name exactly when the common name or one of the
    alternative names of the certificate matches it, and always returns. *)

From S2P Require Import Prelude Asn1 Rsa Time X509 X509Parse X509Valid.

(** A name for itself, or a pattern that stands for one label. *)
Definition dns_matches (pattern name : bytes) : Prop :=
  pattern = name ∨
  ∃ label suffix, pattern = char_star :: char_dot :: suffix ∧ name = label ++ char_dot :: suffix ∧ char_dot ∉ label.

Lemma strchr_spec s c :
  match strchr s c with
  | Some t => ∃ label suffix, t = c :: suffix ∧ s = label ++ c :: suffix ∧ c ∉ label
  | None => c ∉ s
  end.
Proof.
  induction s as [|b s IH]; cbn [strchr]; [by apply not_elem_of_nil|]. destruct (Z.eqb_spec b c) as [->|Hb].
  - exists [], s. split_and!; [done..|by apply not_elem_of_nil].
  - destruct (strchr s c) as [t|].
    + destruct IH as (label & suffix & -> & -> & Hn). exists (b :: label), suffix. split_and!; [done..|].
      rewrite not_elem_of_cons. by split.
    + rewrite not_elem_of_cons. by split.
Qed.

(** The first of two splits at a character is the only one. *)
Lemma split_unique (c : Z) l l' s s' : c ∉ l → c ∉ l' → l ++ c :: s = l' ++ c :: s' → s = s'.
Proof.
  revert l'. induction l as [|b l IH]; intros [|b' l'] Hl Hl' He; cbn in He; rewrite ?not_elem_of_cons in *.
  - by injection He.
  - injection He as <- _. tauto.
  - injection He as -> _. tauto.
  - injection He as _ He. apply (IH l'); tauto.
Qed.

(** The comparison at the end of x509_check_dnsname. *)
Lemma compare_names (name pattern : bytes) n :
  0 ≤ n ≤ Zlen pattern →
  (Zlen name =? n) && (memcmp name pattern (Z.to_nat n) =? 0) = bool_decide (name = take (Z.to_nat n) pattern).
Proof.
  intros Hn. destruct (Z.eqb_spec (Zlen name) n) as [Hl|Hl]; cbn [andb].
  - assert (memcmp name pattern (Z.to_nat n) = 0 ↔ name = take (Z.to_nat n) pattern) as Hc.
    { rewrite memcmp_zero by lia. by rewrite (take_ge name) by lia. }
    destruct (Z.eqb_spec (memcmp name pattern (Z.to_nat n)) 0); symmetry;
      [by apply bool_decide_eq_true, Hc|by rewrite bool_decide_eq_false, <- Hc].
  - symmetry. apply bool_decide_eq_false. intros ->. rewrite length_take in Hl. lia.
Qed.

Lemma check_dnsname_spec c name : cursor_ok c → x509_check_dnsname c name = Ok tt ↔ dns_matches (contents c) name.
Proof.
  intros (Hl & _). destruct c as [d n]. cbn [data len] in *. unfold x509_check_dnsname, contents, dns_matches. cbn [data len].
  destruct ((2 <=? n) && _ && _) eqn:Hw.
  - apply andb_true_iff in Hw as [[H2%Z.leb_le H0%Z.eqb_eq]%andb_true_iff H1%Z.eqb_eq].
    destruct d as [|x [|y d]]; cbn in Hl; try lia. unfold byte in H0, H1. cbn in H0, H1. subst x y.
    replace (Z.to_nat n) with (S (S (Z.to_nat (n - 2)))) by lia. cbn [take]. pose proof (strchr_spec name char_dot) as Hs.
    destruct (strchr name char_dot) as [t|].
    + destruct Hs as (label & suffix & -> & Hname & Hn). cbn [drop]. rewrite !drop_0, compare_names by (cbn in Hl; lia).
      case_bool_decide as Hc; cbn [negb]; (split; [|]); try done.
      * intros _. right. exists label, suffix. by rewrite Hc in *.
      * intros [He|(label' & suffix' & [= <-] & He & Hn')]; exfalso; apply Hc; rewrite Hname in He.
        -- apply (split_unique char_dot [char_star] label) in He; [done| |done]. by_decide.
        -- by apply (split_unique char_dot label label').
    + split; [done|]. intros [He|(label & suffix & _ & -> & _)]; exfalso; apply Hs.
      * rewrite <- He. right. left.
      * apply elem_of_app. right. left.
  - rewrite compare_names by done. case_bool_decide as Hc; cbn [negb]; (split; [|]); try done; [by left|].
    intros [He|(label & suffix & He & _)]; [done|]. exfalso. destruct d as [|x [|y d]], (Z.to_nat n) as [|[|k]] eqn:Hk; try done.
    injection He as -> -> _. assert ((2 <=? n) = true) as H2 by (apply Z.leb_le; lia). by rewrite H2 in Hw.
Qed.

(** ** Alternative names *)

(** The length of an address. *)
Definition address_len (f : sa_family) : nat := match f with AF_INET => 4 | AF_INET6 => 16 end%nat.

Section names.
Context (SOCKADDR_CONVERTERS : list sockaddr_converter).

(** A converter fills in an address of its family. *)
Definition converters_ok : Prop :=
  Forall (λ converter, ∀ string address, aton converter string = Ok address → length address = address_len (family converter))
    SOCKADDR_CONVERTERS.

(** The name is the text of the address. *)
Definition ip_matches (address name : bytes) : Prop :=
  ∃ f, length address = address_len f ∧ sock_aton SOCKADDR_CONVERTERS name = Ok (f, address).

Definition name_matches (general_name : asn1_cursor) (name : bytes) : Prop :=
  let value := contents (asn1_enter_any general_name).1 in
  (asn1_type general_name = Some X509_GENERAL_NAME_DNS ∧ dns_matches value name) ∨
  (asn1_type general_name = Some X509_GENERAL_NAME_IP ∧ ip_matches value name).

Lemma sock_aton_length name f address :
  converters_ok → sock_aton SOCKADDR_CONVERTERS name = Ok (f, address) → length address = address_len f.
Proof.
  intros Hok. unfold sock_aton. induction Hok as [|converter converters Hc _ IH]; cbn [aton_loop]; [done|].
  destruct (aton converter name) as [a|e] eqn:Ha; [|done]. intros [= <- <-]. by apply (Hc name).
Qed.

Lemma check_ipaddress_spec c name :
  converters_ok → cursor_ok c → x509_check_ipaddress SOCKADDR_CONVERTERS c name = Ok tt ↔ ip_matches (contents c) name.
Proof.
  intros Hok (Hl & _). unfold x509_check_ipaddress, ip_matches. pose proof (length_contents c Hl) as Hlen.
  destruct (sock_aton SOCKADDR_CONVERTERS name) as [[f address]|e] eqn:Ha.
  2:{ split; [|by intros (f & _ & ?)]. by destruct (len c =? 4); [|destruct (len c =? 16)]. }
  pose proof (sock_aton_length name f address Hok Ha) as Hf.
  assert (len c = Z.of_nat (address_len f) → negb (memcmp address (data c) (Z.to_nat (len c)) =? 0) = negb (bool_decide (address = contents c)))
    as Hcmp.
  { intros Hc. f_equal. pose proof (compare_names address (data c) (len c) Hl) as Hcmp.
    by rewrite (proj2 (Z.eqb_eq (Zlen address) (len c))) in Hcmp by lia. }
  assert (∀ g, len c = Z.of_nat (address_len g) →
    ((if negb (bool_decide (f = g)) then Err ENOENT
      else if negb (memcmp address (data c) (Z.to_nat (len c)) =? 0) then Err ENOENT else Ok tt) = Ok tt ↔
     ∃ h, length (contents c) = address_len h ∧ Ok (f, address) = Ok (h, contents c))) as Hgoal.
  { intros g Hg. destruct (bool_decide_reflect (f = g)) as [Hfg|Hfg]; cbn [negb].
    - subst g. rewrite Hcmp by done. clear Hcmp. case_bool_decide as Hac; cbn [negb]; split; try done.
      + intros _. exists f. by rewrite Hac in *.
      + by intros (h & _ & [= _ ?]).
    - split; [done|]. intros (h & Hh & [= -> ->]). exfalso. apply Hfg. destruct g, h; cbn in *; lia || done. }
  destruct (Z.eqb_spec (len c) 4) as [H4|H4]; cbn [mbind res_bind]; [by apply (Hgoal AF_INET)|].
  destruct (Z.eqb_spec (len c) 16) as [H16|H16]; cbn [mbind res_bind]; [by apply (Hgoal AF_INET6)|].
  split; [done|]. intros ([] & Hh & _); cbn in Hh; lia.
Qed.

Lemma check_alt_name_spec c name :
  converters_ok → cursor_ok c → len c ≠ 0 →
  ∃ r, x509_check_alt_name SOCKADDR_CONVERTERS c name = Some r ∧ (r = Ok tt ↔ name_matches c name).
Proof.
  intros Hok Hc Hn. unfold x509_check_alt_name, name_matches. pose proof (within_ok c _ Hc (asn1_do_within (Enter ASN1_ANY) c Hc)) as He.
  change (asn1_do (Enter ASN1_ANY) c) with (asn1_enter_any c) in He. destruct (asn1_enter_any c) as [v r]. cbn [fst] in *.
  destruct (asn1_type c) as [type|] eqn:Htype.
  2: { exfalso. destruct Hc as (Hl & _). unfold asn1_type in Htype. destruct (data c); [cbn in Hl; lia|done]. }
  cbn [mbind option_bind]. eexists. split; [reflexivity|].
  destruct (Z.eqb_spec type X509_GENERAL_NAME_DNS) as [Hd|Hd].
  - rewrite check_dnsname_spec, Hd by done. split; [by left|]. by intros [[_ ?]|[? _]].
  - destruct (Z.eqb_spec type X509_GENERAL_NAME_IP) as [Hi|Hi].
    + rewrite check_ipaddress_spec, Hi by done. split; [by right|]. by intros [[? _]|[_ ?]].
    + split; [done|]. by intros [[[= ?] _]|[[= ?] _]].
Qed.

(** The objects that [c] covers, one after the other. *)
Inductive object_of : asn1_cursor → asn1_cursor → Prop :=
  | object_here c : len c ≠ 0 → object_of c c
  | object_later c d : len c ≠ 0 → object_of (asn1_skip_any c).1 d → object_of c d.

Lemma alt_name_loop_spec fuel c name :
  converters_ok → cursor_ok c → len c ≤ Z.of_nat fuel →
  ∃ r, alt_name_loop SOCKADDR_CONVERTERS fuel c name = Some r ∧ (r = Ok tt ∨ r = Err EACCES) ∧
    (r = Ok tt ↔ ∃ g, object_of c g ∧ name_matches g name).
Proof.
  intros Hok. revert c. induction fuel as [|fuel IH]; intros c Hc Hf; cbn [alt_name_loop]; destruct (Z.eqb_spec (len c) 0) as [Hz|Hz].
  1,3: exists (Err EACCES); split_and!; [done|by right|]; split; [done|]; intros (g & Hg & _); by destruct Hg.
  - destruct Hc as (? & _). lia.
  - destruct (check_alt_name_spec c name Hok Hc Hz) as (checked & -> & Hs). cbn [mbind option_bind]. destruct checked as [[]|e].
    { exists (Ok tt). split_and!; [done|by left|]. split; [|done]. intros _. exists c. split; [by constructor|by apply Hs]. }
    destruct (IH (asn1_skip_any c).1) as (r & Hr & Hcase & Hiff).
    { exact (within_ok c _ Hc (asn1_do_within (Skip ASN1_ANY) c Hc)). }
    { pose proof (skip_any_shorter c Hc Hz). lia. }
    exists r. split_and!; [done..|]. rewrite Hiff. split; intros (g & Hg & Hm); exists g; (split; [|done]).
    + by apply object_later.
    + inversion Hg; subst; [|done]. by apply Hs in Hm.
Qed.
End names.

(** C39: Checking the name of a certificate.  The check returns, and accepts exactly
    the names that match the common name or one of the alternative names: a DNS name,
    where a leading asterisk stands for exactly one label, or an IP address that the
    name is the text of.  Every other name is refused with EACCES. *)
Theorem x509_check_name_correct (SOCKADDR_CONVERTERS : list sockaddr_converter) (cert : x509_certificate) (name : bytes)
    (Hconverters : converters_ok SOCKADDR_CONVERTERS) (Hcert : well_formed cert) :
  ∃ r, x509_check_name SOCKADDR_CONVERTERS cert name = Some r ∧ (r = Ok tt ∨ r = Err EACCES) ∧
    (r = Ok tt ↔ dns_matches (contents (common_name (subject cert))) name ∨
       ∃ g, object_of (alt_name (extensions cert)) g ∧ name_matches SOCKADDR_CONVERTERS g name).
Proof.
  destruct (well_formed_names cert Hcert) as [Hcn Han]. unfold x509_check_name.
  pose proof (check_dnsname_spec (common_name (subject cert)) name Hcn) as Hd. destruct (x509_check_dnsname _ name) as [[]|e].
  - exists (Ok tt). split_and!; [done|by left|]. split; [|done]. intros _. left. by apply Hd.
  - destruct (alt_name_loop_spec SOCKADDR_CONVERTERS (Z.to_nat (len (alt_name (extensions cert)))) (alt_name (extensions cert)) name)
      as (r & Hr & Hcase & Hiff); [done..|pose proof Han as (? & _); lia|].
    exists r. split_and!; [done..|]. rewrite Hiff. split; [by right|]. intros [Hm|Hm]; [by apply Hd in Hm|done].
Qed.

(** A converter that knows one address, 10.0.0.1. *)
Definition witness_converter : sockaddr_converter :=
  Converter AF_INET (λ s, if decide (s = [0x31; 0x30; 0x2e; 0x30; 0x2e; 0x30; 0x2e; 0x31]) then Ok [10; 0; 0; 1] else Err EINVAL).

(** The certificate for names below ipxe.org is one for a.ipxe.org, but not for
    ipxe.org itself. *)
Lemma x509_check_name_correct_witness :
  (∃ g, object_of (alt_name (extensions witness_leaf_certificate)) g ∧
     name_matches [witness_converter] g ([0x61; 0x2e] ++ [0x69; 0x70; 0x78; 0x65; 0x2e; 0x6f; 0x72; 0x67])) ∧
  ¬ dns_matches (contents (common_name (subject witness_leaf_certificate))) [0x69; 0x70; 0x78; 0x65; 0x2e; 0x6f; 0x72; 0x67] ∧
  x509_check_name [witness_converter] witness_leaf_certificate [0x69; 0x70; 0x78; 0x65; 0x2e; 0x6f; 0x72; 0x67] = Some (Err EACCES).
Proof.
  assert (converters_ok [witness_converter]) as Hok.
  { apply Forall_singleton. intros s address. cbn. case_decide; [by intros [= <-]|done]. }
  destruct (x509_check_name_correct _ _ ([0x61; 0x2e] ++ [0x69; 0x70; 0x78; 0x65; 0x2e; 0x6f; 0x72; 0x67]) Hok witness_leaf_well_formed)
    as (r & Hr & _ & Hiff).
  destruct (x509_check_name_correct _ _ [0x69; 0x70; 0x78; 0x65; 0x2e; 0x6f; 0x72; 0x67] Hok witness_leaf_well_formed)
    as (r' & Hr' & _ & Hiff').
  vm_compute in Hr, Hr'. injection Hr as <-. injection Hr' as <-. split_and!; [|intros Hm|by vm_compute].
  - destruct (proj1 Hiff eq_refl) as [[?|(label & suffix & ? & _)]|?]; done.
  - assert (Err EACCES = Ok tt) by (apply Hiff'; by left). done.
Defined.
